(* ===== verification/_CoqProject ===== *)
-Q . S2P
Prelude.v
Errors.v
MessageId.v
Message.v
Topic.v
Broker.v
BrokerProofs.v
TimeText.v
TimeProofs.v
HeaderJson.v
HeaderProofs.v
Storage.v
StoreTraces.v
TopologyStore.v
SqlConn.v
SqlConnProofs.v
Sqlite.v
SqliteTables.v
SqliteProofs.v
SqliteContract.v
SqliteFaults.v
SqliteTopology.v
SqliteClaims.v
SqliteMigrate.v
Memory.v
MemoryProofs.v
MemoryClaims.v
MemoryTopology.v
Conformance.v
Float64.v
FloatProofs.v
DurationText.v
DurationProofs.v
Retry.v
RetryProofs.v
Logging.v
Config.v
Engine.v
EngineProofs.v
EnginePublish.v
EngineSafety.v
EngineClaims.v
Metrics.v
MetricsProofs.v
Restart.v
Schema.v
SchemaProofs.v
App.v
AppProofs.v
AppClaims.v
Json.v
JsonProofs.v
JsonText.v
Api.v
ApiProofs.v
ApiClaims.v
Middleware.v
Guard.v
SqliteService.v
EngineRange.v
ApiRange.v
SqliteEngine.v
Bench.v
Erp.v
ErpProofs.v
ErpClaims.v
Erpsim.v
Worker.v
WorkerProofs.v
Lifecycle.v
LifecycleProofs.v
LifecycleInv.v
LifecycleClaims.v
Brokerd.v
