(* ===== verification/Prelude.v ===== *)
(** * rabbitmq-lite: a verification of the broker

    rabbitmq-lite is a message broker in Go.  A publication enters an exchange,
    is routed to queues, stored as one message per queue, leased to consumers,
    acknowledged, retried or dead-lettered.  It keeps its messages in memory or
    in SQLite, is driven over HTTP, and comes with a demonstration that replays
    an ERP export through it.  This library models the program from the store
    to the HTTP interface and proves what it promises.

    ** The program and where it is modelled

    Foundations
    - Prelude.v (this file): results of fallible code, 64-bit integers, strings,
      hexadecimal and big-endian encodings, sorting, Go maps of slices and
      counters, shared lemmas, hint databases and tactics.
    - Errors.v: the error values of the packages, [errors.Is], [errors.As], the
      texts, and [prog S A], the state-and-error monad in which stateful methods
      are written ([attempting p] is [if err := p(); err != nil] with the error
      inspected rather than returned, [for_each] a loop with early return).
    - Float64.v, FloatProofs.v: binary64 arithmetic (round to nearest even,
      infinities, NaN, comparison, [math.Pow] by the algorithm of the Go library).
    - TimeText.v, TimeProofs.v: the text of times in the database.
      DurationText.v, DurationProofs.v: [Duration.String] and [ParseDuration].
      HeaderJson.v, HeaderProofs.v: JSON of headers.  Json.v, JsonProofs.v:
      decoding a JSON text into a struct ([json.Decoder]); JsonText.v: the strings
      it decodes are UTF-8.

    Messages and routing
    - MessageId.v: [internal/message/id.go].  Message.v: [message.go] and
      [state.go], the life cycle and its transition table.
    - Topic.v: [internal/broker/topic.go], the dynamic-programming table filled
      row by row, against the pattern language.
    - Broker.v, BrokerProofs.v: the rest of [internal/broker]: validation,
      routing table, registry.

    Storage
    - Storage.v: [internal/storage/store.go].  The Go interface [Store] is the
      class [StoreOps]; the abstract store [astore] (messages with their lease,
      dead letters, history, queues) and one relation per method say what an
      implementation promises; [StoreContract] is the class of implementations
      that keep the promise, [Unrestricted] of those that keep it for every
      argument.  StoreTraces.v runs sequences of calls and derives conservation
      and lease exclusivity from the contract alone.  TopologyStore.v: the laws
      of the topology half of the interface.
    - Memory.v, MemoryProofs.v, MemoryClaims.v, MemoryTopology.v:
      [internal/storage/memory], with the arrival index, its compaction and the
      settled counters; its instances of the contracts.
    - SqlConn.v, SqlConnProofs.v: a database connection on which every statement
      can fail, and transactions.  Sqlite.v: [internal/storage/sqlite], its
      statements as functions on tables of rows.  SqliteTables.v,
      SqliteProofs.v, SqliteContract.v: its instance of [StoreContract];
      SqliteFaults.v: what a failing statement leaves behind; SqliteTopology.v:
      its topology; SqliteMigrate.v: migrate.go; SqliteClaims.v: its properties.
    - Conformance.v: [internal/storage/storagetest/suite.go], run on both stores.
      Bench.v: [bench.go] of the same package, over any store of the contract.

    Engine
    - Retry.v, RetryProofs.v: [internal/retry/policy.go].  Schema.v,
      SchemaProofs.v: [internal/schema].  Worker.v, WorkerProofs.v:
      [internal/worker/pool.go] and the protocol in which the consumers of
      [internal/engine] use a pool.
    - Engine.v: [internal/engine], over any [StoreOps]: publishing and schema
      validation, pull consumers, the dispatcher's batch, hand-off, processing,
      failure, dead letters and replay, lease reclamation, topology, consumers.
      EngineProofs.v and EnginePublish.v describe each method's effect on the
      abstract store; EngineSafety.v shows that every method acts on the store by
      contract calls only; EngineClaims.v states the properties.
    - Restart.v: [Engine.Restore], over either store.
    - Guard.v, SqliteService.v, EngineRange.v, ApiRange.v, SqliteEngine.v: the
      engine and the interface on SQLite.  [store_pre] of the SQLite contract asks
      that the database can keep a call's arguments; Guard.v completes a store by
      the abstract store for the calls outside its precondition, so that every
      theorem proved over [StoreContract] and [Unrestricted] applies;
      SqliteService.v, EngineRange.v and ApiRange.v show that the methods of the
      engine, and the handlers of the interface, make no such call;
      SqliteEngine.v draws the conclusions.
    - Lifecycle.v: the goroutines of the engine and who waits for whom:
      dispatchers, the maintenance loop, [Start], [Subscribe], [Unsubscribe],
      [Consumer.Stop], [Shutdown] and the goroutine it starts, over the pools of
      Worker.v, as one machine of interleaved steps.  LifecycleProofs.v: how a
      step changes each part; LifecycleInv.v: the invariant of all reachable
      states; LifecycleClaims.v: the properties.

    Around the engine
    - Metrics.v, MetricsProofs.v: [internal/metrics], the registry, its text and
      the collector behind the engine's [Metrics] interface.
    - Logging.v: [internal/logging].  Config.v: [internal/config].  App.v,
      AppProofs.v, AppClaims.v: [internal/app], the assembly of the process.
      Brokerd.v: [Application.Run] and [Shutdown], the listener and
      [cmd/brokerd], a machine on top of that of Lifecycle.v.
    - Api.v: [internal/api], every route and handler over the engine, the
      decoding of bodies, the classification of errors, and what the middlewares
      come to.  ApiProofs.v: rules for handlers; ApiClaims.v: the properties.
      Middleware.v: the middlewares as written, wrapped handlers on a response
      writer, with the status recorder and the request log.
    - Erp.v: [internal/erp] and [cmd/erpsim]: payloads, generator, consumers,
      topology, export, waiting for the queues to drain.  ErpProofs.v,
      ErpClaims.v: its properties.  Erpsim.v: the wiring and the report of
      [cmd/erpsim].

    The state of a component is a record with the fields of the Go struct (a
    map is a [gmap], a nil-able slice in a map [slice_at]); a method is one
    definition with the source's name, prefixed by the type where two types
    share it ([Engine_Publish], [mem_Claim], [sq_Claim], [Registry_Bind]), and
    inside a Module where two packages share it ([config], [metrics], [api],
    [erp]).  A loop that carries state is a definition of its own, named after
    its method.  Times and durations are nanoseconds in [Z], Go's zero time its
    own constant; where the source computes with [int], [int64] or [uint64] and
    a wrap could show, the wrap is written out ([wrap64], [wrapU64]).

    ** Atomicity

    The methods of the registry and of a store run under one mutex, or on one
    database connection, and are atomic.  The theorems of StoreTraces.v,
    MemoryClaims.v and SqliteClaims.v speak of any sequence of store calls, hence
    of any interleaving of the engine methods that make them.  An engine method
    is a sequence of such calls; the theorems of EngineClaims.v and ApiClaims.v
    run whole methods, in any order and number, one after the other.  The pool
    has no mutex: Worker.v takes one atomic or channel operation per step, and
    its theorems hold for every interleaving.  So do those of Lifecycle.v, whose
    steps are a section under the engine's mutex, a step of a pool, or one
    operation on a channel, a [sync.Once], the wait group or a context; a
    cancelled context is seen at once by the contexts derived from it.

    ** What is shown

    - HTTP interface: every request is answered and never with a server error;
      an answer that blames the request means that nothing has changed, on the
      in-memory store and on SQLite; reading changes nothing; publishing and
      acknowledging are exact on every branch; no two routes of a method fit the
      same path; the middlewares send one response, the one the handlers give,
      and log it once with the status that was sent.
    - Engine: no operation loses a message or moves it backwards, and
      dead-lettered messages are accounted for, on either store; publishing is all or nothing and reaches the
      queues of the topology; failure, replay, pull and reclaim are exact on
      every branch; a dispatcher waits only when nothing can be claimed.
    - Life cycle: no interleaving of starting, subscribing, unsubscribing and
      shutting down panics; the wait group is exact; when [Shutdown] returns nil
      the consumers it found are done with every delivery; shutting down ends, in
      a bounded number of steps; the machine agrees with the sequential engine of
      Engine.v; the process closes the store last.
    - Storage: both stores refine one contract; a lease is exclusive; the order
      of a claim is exact for each; a call on the SQLite store is all or nothing
      whichever statements fail; an interrupted migration can be resumed; the
      columns its statements name exist; both pass the conformance suite, and the
      benchmarks run to their end on every store of the contract.
    - Restart and assembly: the durable routing survives a restart on either
      store; a declared topology can be declared again at every start; a
      configuration that loads is accepted by what is built from it.
    - Broker: topic matching is the pattern language; routing, binding,
      unbinding and declaring are exact; every reachable registry is well formed.
    - Metrics: counters, histograms and gauges are exact for any calls, series
      are never mixed up, quantiles are right, and the page is complete.
    - Messages: the transition table is the documented life cycle; ids carry and
      sort by their time.  Retry: delays stay within the policy's interval.
    - Worker pool: bounded concurrency, exact counters, first-in first-out, each
      accepted task run once by the time [Stop] returns, which it does; the
      consumer protocol never panics, the bare pool can.
    - Schemas: a registered schema decides; violation reports are canonical.
    - Demonstration: generated events conform to their schemas and reach the
      right queues; the consumers apply exactly what they report as handled; the
      rows of the report are the depths and dead letters of the store.

    Theorems whose hypotheses need an example have a [_witness] that evaluates
    the definitions on a concrete state.  Theorems such as
    [unsaved_queue_outlives_deletion], [unsized_body_ignored],
    [shutdown_overlooks_unsubscribing], [listener_failure_leaves_store_open] and
    [nack_of_settled_message_leaves_dead_letter] state behaviour that is
    not what the program means to do.

    ** Bounds and fuel

    Most definitions recurse on their data.  Fuel: [math.Pow] has 64 rounds for
    the 64 bits of an exponent ([pow_loop_enough]); the JSON decoder has twice
    the length of the text and two ([read_value_enough]: more changes nothing);
    the members of a headers column, the terms of a duration and the prefixes
    [Logging.trim_prefixes] cuts take at least a byte each and have the length of
    the text; [count_digits] has more rounds than the number has bits.
    Hypotheses that bound a quantity are written in the theorems: a maximum
    interval below [2^53] ns (about 104 days), where an [int64] nanosecond count
    is exact as a float; attempts 1 to 128 of the default policy, computed; the
    256 leases one reclaim pass looks at, the source's batch size; for SQLite
    years of four digits, headers of valid UTF-8, payloads that are not empty
    and counters within 64 bits ([store_pre] of its contract); SqliteEngine.v asks
    for a clock between 1970 and 9707, which leaves room below the year 10000 for
    the longest duration added to it.  [to_do] of LifecycleClaims.v bounds the
    steps that are left of a shutdown.  New ids are
    assumed distinct where a collision of 80 random bits would show.

    ** Arguments of the model

    The clock, the entropy and the random source are streams; the faults of the
    database are an arbitrary schedule; the JSON-schema package, its decoders and
    the directory walk are arguments of Schema.v, the resulting validator an
    argument of the engine; the YAML decoder, the environment and the file system
    are arguments of Config.v and App.v; the printing of floats, the text of
    decoding errors and the conversion of unrepresentable floats, which Go leaves
    to the platform, are arguments where they are used; the demonstration takes
    the random numbers (with the documented range of [IntN]) and encoding/json on
    its payloads as arguments; Middleware.v takes encoding/json on the answers as
    one.  net/http (the response writer of a connection, [Server.Shutdown] and
    [ListenAndServe]) is modelled by its documentation in Middleware.v and
    Brokerd.v.

    ** Not modelled

    Every package and both commands are modelled.  Left out inside them, because
    nothing in the program reads it back: the lines written to the log other than
    the request log; the text of the demonstration's report around its rows
    (tabwriter, [Printf] widths); the times and allocations the benchmarks
    report.  Left to the standard library: [flag.Parse], the encoding of HTTP
    answers, the goroutine per connection of net/http (a request is one method
    run, see Atomicity) and its timeouts.  More than one database connection
    ([MaxOpenConns] above its default of one) is not modelled, since what two
    connections see of each other is up to the journal mode of the database. *)

From stdpp Require Export base gmap strings list sorting numbers relations.
From Stdlib Require Export Ascii.
From Stdlib Require Export Lia.

Open Scope stdpp_scope.

(** * Results of fallible code

    A Go function returning [(T, error)] is a function into [result E T]: the
    callers in this repository never look at the value when the error is not
    nil.  The monadic bind is the [if err != nil { return err }] idiom. *)

Inductive result (E A : Type) : Type :=
| Ok (a : A)
| Err (e : E).
Arguments Ok {E A} a.
Arguments Err {E A} e.

#[export] Instance result_ret E : MRet (result E) := fun A a => Ok a.
#[export] Instance result_bind E : MBind (result E) :=
  fun A B f r => match r with Ok a => f a | Err e => Err e end.
#[export] Instance result_fmap E : FMap (result E) :=
  fun A B f r => match r with Ok a => Ok (f a) | Err e => Err e end.
#[export] Instance result_eq_dec E A `{EqDecision E, EqDecision A} :
  EqDecision (result E A).
Proof. solve_decision. Defined.

Definition is_ok {E A} (r : result E A) : bool :=
  match r with Ok _ => true | Err _ => false end.

(** [guard_err b e] is [if b { return e }]. *)
Definition guard_err {E} (b : bool) (e : E) : result E unit :=
  if b then Err e else Ok tt.

Lemma result_bind_Ok {E A B} (f : A → result E B) (r : result E A) (b : B) :
  (r ≫= f) = Ok b ↔ ∃ a, r = Ok a ∧ f a = Ok b.
Proof. destruct r; simpl; naive_solver. Qed.

Lemma guard_err_Ok {E} (b : bool) (e : E) (u : unit) :
  guard_err b e = Ok u ↔ b = false.
Proof. destruct b, u; naive_solver. Qed.

(** * Machine integers

    Go's [int], [int64] and [time.Duration] are 64-bit two's complement;
    [uint64] is taken modulo [2^64]. *)

Definition wrap64 (z : Z) : Z := ((z + 2 ^ 63) mod 2 ^ 64 - 2 ^ 63)%Z.
Definition wrapU64 (z : Z) : Z := (z mod 2 ^ 64)%Z.
Definition in_int64 (z : Z) : Prop := (- 2 ^ 63 ≤ z < 2 ^ 63)%Z.
Definition max_int64 : Z := (2 ^ 63 - 1)%Z.

Lemma wrap64_id z : in_int64 z → wrap64 z = z.
Proof. unfold wrap64, in_int64. intros ?. rewrite Z.mod_small; lia. Qed.

Lemma wrap64_range z : in_int64 (wrap64 z).
Proof.
  unfold wrap64, in_int64.
  pose proof (Z.mod_pos_bound (z + 2 ^ 63) (2 ^ 64)). lia.
Qed.

Lemma wrap64_add_l z d : wrap64 (wrap64 z + d) = wrap64 (z + d).
Proof.
  unfold wrap64. f_equal.
  replace ((z + 2 ^ 63) mod 2 ^ 64 - 2 ^ 63 + d + 2 ^ 63)%Z with ((z + 2 ^ 63) mod 2 ^ 64 + d)%Z by lia.
  rewrite Z.add_mod_idemp_l by lia. f_equal. lia.
Qed.

Lemma wrapU64_id z : (0 ≤ z < 2 ^ 64)%Z → wrapU64 z = z.
Proof. intros. by apply Z.mod_small. Qed.

(** * Time

    An instant ([time.Time]) is its number of nanoseconds relative to the Unix
    epoch; the time zone plays no role in comparisons and [UTC()] leaves the
    instant unchanged.  [zeroTime] is the zero value, 0001-01-01T00:00:00Z. *)

Abbreviation Time := Z (only parsing).
Abbreviation Duration := Z (only parsing).

Definition nanosecond : Duration := 1%Z.
Definition millisecond : Duration := 1000000%Z.
Definition second : Duration := 1000000000%Z.
Definition minute : Duration := (60 * second)%Z.
Definition zeroTime : Time := (-62135596800 * second)%Z.

Definition IsZero (t : Time) : bool := bool_decide (t = zeroTime).
(** [t.After(u)] *)
Definition After (t u : Time) : bool := (u <? t)%Z.

(** * Strings

    A Go string is a sequence of bytes, as is Rocq's [string]; [<] on strings
    is the lexicographic order on bytes, [String.le] here. *)

(** [strings.Split(s, sep)] for a one-byte separator: never empty. *)
Fixpoint str_split (sep : ascii) (s : string) : list string :=
  match s with
  | EmptyString => [EmptyString]
  | String c s' =>
      if decide (c = sep) then EmptyString :: str_split sep s'
      else match str_split sep s' with
           | [] => [String c EmptyString]
           | w :: ws => String c w :: ws
           end
  end.

(** [strings.Join] *)
Fixpoint str_join (sep : string) (l : list string) : string :=
  match l with
  | [] => EmptyString
  | [w] => w
  | w :: ws => w +:+ sep +:+ str_join sep ws
  end.

(** [strings.ContainsAny(s, chars)] for one-byte characters. *)
Fixpoint str_contains_any (chars : list ascii) (s : string) : bool :=
  match s with
  | EmptyString => false
  | String c s' => bool_decide (c ∈ chars) || str_contains_any chars s'
  end.

Fixpoint str_forall (p : ascii → bool) (s : string) : bool :=
  match s with
  | EmptyString => true
  | String c s' => p c && str_forall p s'
  end.

(** [strings.HasPrefix] *)
Fixpoint str_has_prefix (p s : string) : bool :=
  match p, s with
  | EmptyString, _ => true
  | String a p', String b s' => bool_decide (a = b) && str_has_prefix p' s'
  | _, _ => false
  end.

Definition str_empty (s : string) : bool := bool_decide (s = EmptyString).

Lemma str_app_cons c s t : String c s +:+ t = String c (s +:+ t).
Proof. done. Qed.

Lemma str_compare_cons c s d t :
  String.compare (String c s) (String d t) =
  match Ascii.compare c d with Eq => String.compare s t | ne => ne end.
Proof. done. Qed.

Lemma str_split_not_nil sep s : str_split sep s ≠ [].
Proof. destruct s; simpl; [done|]. case_decide; [done|]. by case_match. Qed.

(** [strings.Join] after [strings.Split] gives the string back. *)
Lemma str_join_split sep s :
  str_join (String sep EmptyString) (str_split sep s) = s.
Proof.
  induction s as [|c s IH]; [done|]. cbn [str_split].
  case_decide as Hc.
  - subst c. pose proof (str_split_not_nil sep s).
    destruct (str_split sep s) as [|w ws] eqn:E; [done|].
    cbn in *. by rewrite IH.
  - pose proof (str_split_not_nil sep s).
    destruct (str_split sep s) as [|w [|w' ws]] eqn:E; [done| |].
    + cbn in *. by subst.
    + cbn in *. by rewrite <-IH.
Qed.

(** * Bytes and hexadecimal text

    A byte is an [N] below 256. *)

Definition hex_digit (n : N) : ascii :=
  ascii_of_N (if (n <? 10)%N then 48 + n else 87 + n)%N.

(** Value of a hexadecimal digit, upper or lower case. *)
Definition hex_value (c : ascii) : option N :=
  let n := N_of_ascii c in
  if ((48 <=? n) && (n <=? 57))%N then Some (n - 48)%N
  else if ((97 <=? n) && (n <=? 102))%N then Some (n - 87)%N
  else if ((65 <=? n) && (n <=? 70))%N then Some (n - 55)%N
  else None.

(** [hex.EncodeToString] *)
Fixpoint hex_encode (bs : list N) : string :=
  match bs with
  | [] => EmptyString
  | b :: bs' => String (hex_digit (b / 16)) (String (hex_digit (b mod 16)) (hex_encode bs'))
  end.

(** [hex.DecodeString]; [None] stands for any of its errors. *)
Fixpoint hex_decode (s : string) : option (list N) :=
  match s with
  | EmptyString => Some []
  | String _ EmptyString => None
  | String c (String d s') =>
      hi ← hex_value c; lo ← hex_value d; rest ← hex_decode s';
      Some ((16 * hi + lo)%N :: rest)
  end.

(** The [n] low bytes of an integer, most significant first
    ([binary.BigEndian.PutUint64] for [n = 8]), and back. *)
Fixpoint be_bytes (n : nat) (z : N) : list N :=
  match n with
  | O => []
  | S n' => ((z / 256 ^ N.of_nat n') mod 256)%N :: be_bytes n' z
  end.

Fixpoint be_value (bs : list N) : N :=
  match bs with
  | [] => 0%N
  | b :: bs' => (b * 256 ^ N.of_nat (length bs') + be_value bs')%N
  end.

Definition is_byte (b : N) : Prop := (b < 256)%N.

Lemma hex_digit_ok_all :
  forallb (fun n => bool_decide (hex_value (hex_digit (N.of_nat n)) = Some (N.of_nat n)))
    (seq 0 16) = true.
Proof. reflexivity. Qed.

Lemma hex_value_digit n : (n < 16)%N → hex_value (hex_digit n) = Some n.
Proof.
  intros Hn. pose proof (proj1 (forallb_forall _ _) hex_digit_ok_all (N.to_nat n)) as H.
  rewrite in_seq, bool_decide_eq_true, N2Nat.id in H. apply H. lia.
Qed.

Lemma hex_digit_order_all :
  forallb (fun a => forallb (fun b =>
    bool_decide (Ascii.compare (hex_digit (N.of_nat a)) (hex_digit (N.of_nat b))
                 = (N.of_nat a ?= N.of_nat b)%N)) (seq 0 16)) (seq 0 16) = true.
Proof. reflexivity. Qed.

Lemma hex_digit_compare a b : (a < 16)%N → (b < 16)%N →
  Ascii.compare (hex_digit a) (hex_digit b) = (a ?= b)%N.
Proof.
  intros Ha Hb.
  pose proof (proj1 (forallb_forall _ _) hex_digit_order_all (N.to_nat a)) as H.
  rewrite in_seq in H. specialize (H ltac:(lia)).
  pose proof (proj1 (forallb_forall _ _) H (N.to_nat b)) as H'.
  rewrite in_seq, bool_decide_eq_true, !N2Nat.id in H'. apply H'. lia.
Qed.

Lemma byte_digits b : is_byte b → (b / 16 < 16)%N ∧ (b mod 16 < 16)%N.
Proof.
  unfold is_byte. intros. split.
  - apply N.Div0.div_lt_upper_bound; lia.
  - apply N.mod_lt; lia.
Qed.

(** Decoding inverts encoding. *)
Lemma hex_decode_encode bs : Forall is_byte bs → hex_decode (hex_encode bs) = Some bs.
Proof.
  induction 1 as [|b bs Hb _ IH]; [done|].
  destruct (byte_digits b Hb). cbn. rewrite !hex_value_digit by done. cbn.
  rewrite IH. cbn. do 2 f_equal. rewrite (N.div_mod b 16) at 3; lia.
Qed.

Lemma hex_encode_app bs cs : hex_encode (bs ++ cs) = hex_encode bs +:+ hex_encode cs.
Proof. induction bs as [|b bs IH]; [done|]. cbn. by rewrite IH. Qed.

Lemma hex_encode_length bs : String.length (hex_encode bs) = 2 * length bs.
Proof. induction bs as [|b bs IH]; [done|]. cbn -[Nat.mul]. rewrite IH. cbn. lia. Qed.

Lemma be_bytes_length n z : length (be_bytes n z) = n.
Proof. induction n as [|n IH]; [done|]. cbn. by rewrite IH. Qed.

Lemma be_bytes_are_bytes n z : Forall is_byte (be_bytes n z).
Proof.
  induction n as [|n IH]; cbn; constructor; [|done].
  unfold is_byte. apply N.mod_lt. lia.
Qed.

Lemma be_value_bytes n z : be_value (be_bytes n z) = (z mod 256 ^ N.of_nat n)%N.
Proof.
  induction n as [|n IH].
  { cbn. by rewrite N.mod_1_r. }
  cbn [be_bytes be_value]. rewrite IH, be_bytes_length.
  rewrite Nat2N.inj_succ, N.pow_succ_r', (N.mul_comm 256).
  rewrite N.Div0.mod_mul_r. lia.
Qed.

Lemma be_value_app bs cs :
  be_value (bs ++ cs) = (be_value bs * 256 ^ N.of_nat (length cs) + be_value cs)%N.
Proof.
  induction bs as [|b bs IH]; [done|]. cbn [app be_value].
  rewrite IH, length_app, Nat2N.inj_add, N.pow_add_r. lia.
Qed.

Lemma radix_le (p a b c d : N) :
  (a + p * c < b + p * d)%N → (b < p)%N → (c ≤ d)%N.
Proof.
  intros Hlt Hb. destruct (N.le_gt_cases c d) as [|Hgt]; [done|].
  pose proof (N.mul_le_mono_l (d + 1) c p ltac:(lia)). nia.
Qed.

(** The lexicographic order of the texts is the order of the integers. *)
Lemma hex_be_compare_lt n x y r1 r2 :
  (x mod 256 ^ N.of_nat n < y mod 256 ^ N.of_nat n)%N →
  String.compare (hex_encode (be_bytes n x) +:+ r1) (hex_encode (be_bytes n y) +:+ r2) = Lt.
Proof.
  induction n as [|n IH].
  { cbn. rewrite !N.mod_1_r. lia. }
  rewrite Nat2N.inj_succ, N.pow_succ_r', (N.mul_comm 256), !N.Div0.mod_mul_r.
  cbn [be_bytes]. set (p := (256 ^ N.of_nat n)%N) in *.
  assert (p ≠ 0)%N as Hp by (unfold p; apply N.pow_nonzero; lia).
  set (hx := ((x / p) mod 256)%N). set (hy := ((y / p) mod 256)%N).
  assert (is_byte hx ∧ is_byte hy) as [Hx Hy]
    by (unfold is_byte, hx, hy; split; apply N.mod_lt; lia).
  destruct (byte_digits hx Hx), (byte_digits hy Hy).
  clearbody hx hy p. intros Hlt. cbn [hex_encode].
  rewrite !str_app_cons, !str_compare_cons, !hex_digit_compare by done.
  pose proof (radix_le _ _ _ _ _ Hlt (N.mod_lt y p Hp)) as Hle.
  apply N.lt_eq_cases in Hle as [Hc|Hc].
  - destruct (N.compare_spec (hx / 16) (hy / 16)) as [E|E|E]; [|done|].
    + assert (hx mod 16 < hy mod 16)%N as ->%N.compare_lt_iff; [|done].
      pose proof (N.div_mod hx 16). pose proof (N.div_mod hy 16). lia.
    + pose proof (N.Div0.div_le_mono hx hy 16). lia.
  - rewrite Hc, !N.compare_refl. apply IH. rewrite Hc in Hlt. lia.
Qed.

(** * Sorting

    [sort.Strings], and [sort.Slice] on a string key.  [sort.Slice] is not
    stable, which does not show when the keys are distinct. *)

Definition sort_strings (l : list string) : list string := merge_sort String.le l.

Definition key_le {A} (key : A → string) (x y : A) : Prop :=
  String.le (key x) (key y).
#[export] Instance key_le_dec {A} (key : A → string) : RelDecision (key_le key).
Proof. intros x y. unfold key_le. apply _. Defined.
#[export] Instance key_le_trans {A} (key : A → string) : Transitive (key_le key).
Proof. intros x y z. unfold key_le. apply (transitivity (R:=String.le)). Qed.
#[export] Instance key_le_total {A} (key : A → string) : Total (key_le key).
Proof. intros x y. unfold key_le. apply (total String.le). Qed.

Definition sort_by {A} (key : A → string) (l : list A) : list A :=
  merge_sort (key_le key) l.

Lemma sort_strings_perm l : sort_strings l ≡ₚ l.
Proof. apply merge_sort_Permutation. Qed.

Lemma sort_strings_sorted l : Sorted String.le (sort_strings l).
Proof. apply Sorted_merge_sort, _. Qed.

Lemma elem_of_sort_strings x l : x ∈ sort_strings l ↔ x ∈ l.
Proof. by rewrite sort_strings_perm. Qed.

Lemma sort_by_perm {A} (key : A → string) l : sort_by key l ≡ₚ l.
Proof. apply merge_sort_Permutation. Qed.

Lemma sort_by_sorted {A} (key : A → string) l :
  Sorted (key_le key) (sort_by key l).
Proof. apply Sorted_merge_sort, _. Qed.

Lemma elem_of_sort_by {A} (key : A → string) x l : x ∈ sort_by key l ↔ x ∈ l.
Proof. by rewrite sort_by_perm. Qed.

(** * Go maps of slices and counters

    Reading a missing key of a Go map yields the zero value. *)

Definition slice_at {A} (m : gmap string (list A)) (k : string) : list A :=
  default [] (m !! k).
Definition count_at (m : gmap string Z) (k : string) : Z :=
  default 0%Z (m !! k).

Lemma slice_at_insert {A} (m : gmap string (list A)) k l k' :
  slice_at (<[k:=l]> m) k' = if decide (k = k') then l else slice_at m k'.
Proof. unfold slice_at. rewrite lookup_insert. by case_decide. Qed.

Lemma slice_at_delete {A} (m : gmap string (list A)) k k' :
  slice_at (delete k m) k' = if decide (k = k') then [] else slice_at m k'.
Proof. unfold slice_at. rewrite lookup_delete. by case_decide. Qed.

Lemma count_at_insert (m : gmap string Z) k l k' :
  count_at (<[k:=l]> m) k' = if decide (k = k') then l else count_at m k'.
Proof. unfold count_at. rewrite lookup_insert. by case_decide. Qed.

Lemma count_at_delete (m : gmap string Z) k k' :
  count_at (delete k m) k' = if decide (k = k') then 0%Z else count_at m k'.
Proof. unfold count_at. rewrite lookup_delete. by case_decide. Qed.

(** * Lists *)

(** Number of elements satisfying a test. *)
Definition count_if {A} (p : A → bool) (l : list A) : nat :=
  length (filter (fun x => p x = true) l).

Lemma count_if_nil {A} (p : A → bool) : count_if p [] = 0.
Proof. done. Qed.

Lemma count_if_cons {A} (p : A → bool) x l :
  count_if p (x :: l) = (if p x then 1 else 0) + count_if p l.
Proof. unfold count_if. rewrite filter_cons. by destruct (p x) eqn:E; case_decide; simplify_eq/=. Qed.

Lemma count_if_app {A} (p : A → bool) l k :
  count_if p (l ++ k) = count_if p l + count_if p k.
Proof. unfold count_if. by rewrite filter_app, length_app. Qed.

Lemma count_if_le {A} (p : A → bool) l : count_if p l ≤ length l.
Proof. induction l; [done|]. rewrite count_if_cons. simpl. case_match; lia. Qed.

Lemma count_if_ext {A} (p q : A → bool) l :
  (∀ x, x ∈ l → p x = q x) → count_if p l = count_if q l.
Proof.
  induction l as [|x l IH]; [done|]. intros H. rewrite !count_if_cons.
  rewrite (H x) by set_solver. rewrite IH; [done|]. set_solver.
Qed.

Lemma count_if_zero {A} (p : A → bool) l :
  (∀ x, x ∈ l → p x = false) → count_if p l = 0.
Proof.
  induction l as [|x l IH]; [done|]. intros H. rewrite count_if_cons.
  rewrite (H x), IH by set_solver. done.
Qed.

Lemma count_if_full {A} (p : A → bool) l :
  (∀ x, x ∈ l → p x = true) → count_if p l = length l.
Proof.
  induction l as [|x l IH]; [done|]. intros H. rewrite count_if_cons.
  rewrite (H x), IH by set_solver. done.
Qed.

Lemma filter_ext_in {A} (P Q : A → Prop) `{∀ x, Decision (P x), ∀ x, Decision (Q x)} (l : list A) :
  (∀ x, x ∈ l → P x ↔ Q x) → filter P l = filter Q l.
Proof.
  induction l as [|x l IH]; [done|]. intros HPQ. rewrite !filter_cons, IH by set_solver.
  repeat case_decide; [done|exfalso..|done]; set_solver.
Qed.

(** Changing the test at one element of a duplicate-free list. *)
Lemma count_if_update `{EqDecision A} (p q : A → bool) l x :
  NoDup l → x ∈ l → p x = false → q x = true →
  (∀ y, y ∈ l → y ≠ x → p y = q y) →
  count_if q l = S (count_if p l).
Proof.
  induction l as [|y l IH]; [set_solver|]. intros [Hy Hl]%NoDup_cons Hx Hp Hq Hpq.
  rewrite !count_if_cons. destruct (decide (y = x)) as [->|Hne].
  - rewrite Hp, Hq. rewrite (count_if_ext p q l); [lia|].
    intros z Hz. apply Hpq; [set_solver|]. by intros ->.
  - rewrite (Hpq y) by set_solver. rewrite IH; [lia|set_solver..].
Qed.

(** Consecutive pages of [n] elements are a prefix of the list. *)
Lemma concat_pages {A} (n k : nat) (l : list A) :
  concat ((fun i => take n (drop (i * n) l)) <$> seq 0 k) = take (k * n) l.
Proof.
  revert l. induction k as [|k IH]; intros l; [done|].
  cbn [seq fmap list_fmap concat]. rewrite <-seq_shift, <-list_fmap_compose.
  rewrite (list_fmap_ext _ (fun i => take n (drop (i * n) (drop n l)))).
  - rewrite IH, drop_0. simpl. by rewrite take_take_drop.
  - intros i x _. simpl. by rewrite drop_drop.
Qed.

(** * Counting in maps *)

Lemma size_filter_list {A} (P : string * A → Prop) `{∀ x, Decision (P x)}
    (m : gmap string A) (l : list string) :
  NoDup l → (∀ k, k ∈ l ↔ ∃ x, m !! k = Some x ∧ P (k, x)) →
  size (filter P m) = length l.
Proof.
  intros Hn Hl. rewrite <-size_dom, <-(size_list_to_set (C:=gset string) l) by done.
  f_equal. apply set_eq. intros k. rewrite elem_of_list_to_set, Hl, elem_of_dom.
  split.
  - intros [x Hx]. apply map_lookup_filter_Some in Hx. by exists x.
  - intros (x & Hx & HP). exists x. by apply map_lookup_filter_Some.
Qed.

Lemma lookup_foldl_delete {A} (m : gmap string A) (l : list string) k :
  foldl (fun m id => delete id m) m l !! k = if decide (k ∈ l) then None else m !! k.
Proof.
  revert m. induction l as [|x l IH]; intros m; cbn [foldl].
  - by rewrite decide_False by set_solver.
  - rewrite IH, lookup_delete. repeat case_decide; set_solver.
Qed.

(** * Automation *)

Create HintDb broker discriminated.
Create Rewrite HintDb broker_rw.
#[export] Hint Resolve sort_strings_sorted sort_by_sorted : broker.
#[export] Hint Rewrite elem_of_sort_strings @elem_of_sort_by : broker_rw.

(** Case analysis on every test and lookup a definition branches on. *)
Ltac split_matches :=
  repeat (case_match || case_decide || case_bool_decide);
  simplify_eq/=.

(** Evaluate the boolean tests of a goal that mention no variable. *)
Ltac compute_tests :=
  repeat match goal with
  | |- context [bool_decide (?x ∈ ?l)] =>
      let b := eval vm_compute in (bool_decide (x ∈ l)) in
      change (bool_decide (x ∈ l)) with b
  end.
