(* ===== verification/Errors.v ===== *)
(** The errors of the program.

    Go's [error] is an interface; the values that implement it in this
    repository are the constructors of [error] below: the sentinel values
    created by package-level [errors.New], the error structs, the errors
    created at run time by [errors.New] ([errorString]), the errors of the
    SQLite driver, of which the program looks at the code and the text
    ([DriverError]), and the wrappers made by [fmt.Errorf] with a [%w] verb
    ([wrapError]).  [Unwrap], [errors.Is] and [errors.As] follow the chain
    exactly as package errors does.

    [RuntimePanic] is not an error value of the source: it is the outcome of a
    call that panics, so that the theorems can say that none does.

    [prog S A] is the type of an operation on a mutable object of type [S]: it
    returns the object as the call leaves it, also when the call fails. *)

From S2P Require Import Prelude.

(** message/state.go: [type State string] *)
Abbreviation State := string (only parsing).

(** schema/violation.go *)
Record Violation := mkViolation {
  v_Path : string;
  v_Detail : string;
}.

#[export] Instance Violation_eq_dec : EqDecision Violation.
Proof. solve_decision. Defined.

(** broker/errors.go *)
Inductive broker_sentinel :=
| ErrQueueNotFound
| ErrQueueExists
| ErrExchangeNotFound
| ErrExchangeExists
| ErrBindingNotFound
| ErrMessageNotFound
| ErrQueueInUse
| ErrUnroutable
| ErrBrokerClosed.

(** storage/errors.go *)
Inductive storage_sentinel :=
| ErrNotFound
| ErrConflict
| ErrClosed
| ErrNotClaimable
| ErrLeaseNotHeld
| ErrQueueNotEmpty.

(** engine/consumer.go, engine/pull.go and engine/maintenance.go *)
Inductive engine_sentinel :=
| ErrConsumerExists
| ErrConsumerNotFound
| ErrHandlerRequired
| ErrNotRunning
| ErrNothingToPull
| errLeaseExpired.

(** worker/pool.go, schema/registry.go and packages context and database/sql *)
Inductive other_sentinel :=
| ErrPoolStopped
| ErrPoolSaturated
| ErrSchemaNotFound
| ErrEmptyPayload
| ContextCanceled
| ContextDeadlineExceeded
| SqlErrNoRows.

#[export] Instance broker_sentinel_eq_dec : EqDecision broker_sentinel.
Proof. solve_decision. Defined.
#[export] Instance storage_sentinel_eq_dec : EqDecision storage_sentinel.
Proof. solve_decision. Defined.
#[export] Instance engine_sentinel_eq_dec : EqDecision engine_sentinel.
Proof. solve_decision. Defined.
#[export] Instance other_sentinel_eq_dec : EqDecision other_sentinel.
Proof. solve_decision. Defined.

Inductive sentinel :=
| SBroker (s : broker_sentinel)
| SStorage (s : storage_sentinel)
| SEngine (s : engine_sentinel)
| SOther (s : other_sentinel).

#[export] Instance sentinel_eq_dec : EqDecision sentinel.
Proof. solve_decision. Defined.

Inductive error :=
| Sentinel (s : sentinel)
| FieldError (field reason : string)
| InvalidTransitionError (from to : State)
| UnknownStateError (state : State)
| StateError (messageID : string) (expected actual : State)
| ValidationError (schema : string) (violations : list Violation)
| PermanentError (err : error)
| errorString (text : string)
| RuntimePanic (text : string)
| DriverError (code : Z) (text : string)
| wrapError (prefix : string) (err : error) (suffix : string).

#[export] Instance error_eq_dec : EqDecision error.
Proof. solve_decision. Defined.

Abbreviation BrokerErr s := (Sentinel (SBroker s)).
Abbreviation StorageErr s := (Sentinel (SStorage s)).
Abbreviation EngineErr s := (Sentinel (SEngine s)).
Abbreviation OtherErr s := (Sentinel (SOther s)).

(** [err.Unwrap()], for the values that have the method. *)
Definition Unwrap (err : error) : option error :=
  match err with
  | PermanentError e | wrapError _ e _ => Some e
  | _ => None
  end.

(** The chain [errors.Is] and [errors.As] walk. *)
Fixpoint error_chain (err : error) : list error :=
  err :: match err with
         | PermanentError e | wrapError _ e _ => error_chain e
         | _ => []
         end.

(** [errors.Is(err, target)] for a sentinel target. *)
Definition errors_Is (err : error) (target : sentinel) : bool :=
  existsb (fun e => match e with
                    | Sentinel s => bool_decide (s = target)
                    | _ => false
                    end) (error_chain err).

(** [errors.As(err, &target)] for each pointer type the program asks for. *)
Definition errors_As_Permanent (err : error) : bool :=
  existsb (fun e => match e with PermanentError _ => true | _ => false end)
    (error_chain err).
Definition errors_As_Field (err : error) : bool :=
  existsb (fun e => match e with FieldError _ _ => true | _ => false end)
    (error_chain err).
Definition errors_As_StateError (err : error) : bool :=
  existsb (fun e => match e with StateError _ _ _ => true | _ => false end)
    (error_chain err).

Fixpoint errors_As_Validation (err : error) : option (string * list Violation) :=
  match err with
  | ValidationError s vs => Some (s, vs)
  | PermanentError e | wrapError _ e _ => errors_As_Validation e
  | _ => None
  end.

(** [errors.As(err, &driverErr)] for the SQLite driver's error type: its code. *)
Fixpoint errors_As_Driver (err : error) : option Z :=
  match err with
  | DriverError code _ => Some code
  | PermanentError e | wrapError _ e _ => errors_As_Driver e
  | _ => None
  end.

(** ** Error texts *)

(** [strconv.Quote] on one byte below 0x80 (a byte at or above 0x80 that is
    not part of a valid UTF-8 sequence is escaped like a control byte). *)
Definition quote_byte (c : ascii) : string :=
  let n := N_of_ascii c in
  if (n =? 34)%N then String "\" (String c EmptyString)
  else if (n =? 92)%N then String c (String c EmptyString)
  else if (n =? 7)%N then "\a" else if (n =? 8)%N then "\b"
  else if (n =? 12)%N then "\f" else if (n =? 10)%N then "\n"
  else if (n =? 13)%N then "\r" else if (n =? 9)%N then "\t"
  else if (n =? 11)%N then "\v"
  else if ((n <? 32) || (126 <? n))%N
  then "\x" +:+ String (hex_digit (n / 16)) (String (hex_digit (n mod 16)) EmptyString)
  else String c EmptyString.

Fixpoint quote_body (s : string) : string :=
  match s with
  | EmptyString => EmptyString
  | String c s' => quote_byte c +:+ quote_body s'
  end.

Definition dquote : string := String (ascii_of_N 34) EmptyString.

(** The [%q] verb. *)
Definition quote (s : string) : string := dquote +:+ quote_body s +:+ dquote.

Definition broker_sentinel_text (s : broker_sentinel) : string :=
  match s with
  | ErrQueueNotFound => "broker: queue not found"
  | ErrQueueExists => "broker: queue already exists"
  | ErrExchangeNotFound => "broker: exchange not found"
  | ErrExchangeExists => "broker: exchange already exists"
  | ErrBindingNotFound => "broker: binding not found"
  | ErrMessageNotFound => "broker: message not found"
  | ErrQueueInUse => "broker: queue still referenced by a binding"
  | ErrUnroutable => "broker: publication matched no queue"
  | ErrBrokerClosed => "broker: closed"
  end.

Definition storage_sentinel_text (s : storage_sentinel) : string :=
  match s with
  | ErrNotFound => "storage: record not found"
  | ErrConflict => "storage: record already exists"
  | ErrClosed => "storage: store is closed"
  | ErrNotClaimable => "storage: message is not in a claimable state"
  | ErrLeaseNotHeld => "storage: message is not currently leased"
  | ErrQueueNotEmpty => "storage: queue still holds messages"
  end.

Definition engine_sentinel_text (s : engine_sentinel) : string :=
  match s with
  | ErrConsumerExists => "engine: consumer already registered"
  | ErrConsumerNotFound => "engine: consumer not found"
  | ErrHandlerRequired => "engine: consumer requires a handler"
  | ErrNotRunning => "engine: engine is not running"
  | ErrNothingToPull => "engine: no messages are available"
  | errLeaseExpired => "lease expired before the consumer acknowledged the message"
  end.

Definition other_sentinel_text (s : other_sentinel) : string :=
  match s with
  | ErrPoolStopped => "worker: pool is stopped"
  | ErrPoolSaturated => "worker: pool is saturated"
  | ErrSchemaNotFound => "schema: not registered"
  | ErrEmptyPayload => "schema: payload is empty"
  | ContextCanceled => "context canceled"
  | ContextDeadlineExceeded => "context deadline exceeded"
  | SqlErrNoRows => "sql: no rows in result set"
  end.

Definition sentinel_text (s : sentinel) : string :=
  match s with
  | SBroker s => broker_sentinel_text s
  | SStorage s => storage_sentinel_text s
  | SEngine s => engine_sentinel_text s
  | SOther s => other_sentinel_text s
  end.

(** schema/violation.go: [ValidationError.Error] *)
Definition violation_text (v : Violation) : string :=
  if str_empty (v_Path v) then v_Detail v else v_Path v +:+ ": " +:+ v_Detail v.

Definition validation_text (schema : string) (vs : list Violation) : string :=
  "schema " +:+ schema +:+ " rejected the payload: " +:+
  str_join "; " (violation_text <$> vs).

(** [err.Error()] *)
Fixpoint Error (err : error) : string :=
  match err with
  | Sentinel s => sentinel_text s
  | FieldError field reason => "broker: invalid " +:+ field +:+ ": " +:+ reason
  | InvalidTransitionError from to =>
      "message: invalid state transition " +:+ from +:+ " -> " +:+ to
  | UnknownStateError state => "message: unknown state " +:+ quote state
  | StateError id expected actual =>
      "storage: message " +:+ id +:+ " is " +:+ actual +:+ ", expected " +:+ expected
  | ValidationError schema vs => validation_text schema vs
  | PermanentError e => "permanent failure: " +:+ Error e
  | errorString text | RuntimePanic text | DriverError _ text => text
  | wrapError prefix e suffix => prefix +:+ Error e +:+ suffix
  end.

(** broker/errors.go: [invalid] *)
Definition invalid (field reason : string) : error := FieldError field reason.

(** ** The chain *)

Lemma errors_Is_self s : errors_Is (Sentinel s) s = true.
Proof. unfold errors_Is. simpl. by rewrite bool_decide_eq_true_2. Qed.

Lemma errors_Is_wrap prefix e suffix s :
  errors_Is (wrapError prefix e suffix) s = errors_Is e s.
Proof. done. Qed.

Lemma error_chain_unwrap e e' : Unwrap e = Some e' →
  error_chain e = e :: error_chain e'.
Proof. destruct e; simpl; naive_solver. Qed.

(** * Operations on mutable state *)

Definition prog (S A : Type) : Type := S → S * result error A.

#[export] Instance prog_ret S : MRet (prog S) := fun A a s => (s, Ok a).
#[export] Instance prog_bind S : MBind (prog S) := fun A B f p s =>
  match p s with
  | (s', Ok a) => f a s'
  | (s', Err e) => (s', Err e)
  end.

Section prog.
Context {S : Type}.

Definition fails {A} (e : error) : prog S A := fun s => (s, Err e).
Definition gets {A} (f : S → A) : prog S A := fun s => (s, Ok (f s)).
Definition modifies (f : S → S) : prog S unit := fun s => (f s, Ok tt).
Definition lift {A} (r : result error A) : prog S A := fun s => (s, r).

(** The caller inspects the outcome instead of returning the error. *)
Definition attempting {A} (p : prog S A) : prog S (result error A) := fun s =>
  let '(s', r) := p s in (s', Ok r).

(** [for _, x := range xs { ... }], stopping at the first error. *)
Fixpoint for_each {A} (f : A → prog S unit) (xs : list A) : prog S unit :=
  match xs with
  | [] => mret tt
  | x :: xs' => f x ≫= fun _ => for_each f xs'
  end.

Lemma bind_eq {A B} (f : A → prog S B) (p : prog S A) s :
  (p ≫= f) s = match p s with (s', Ok a) => f a s' | (s', Err e) => (s', Err e) end.
Proof. done. Qed.

Lemma for_each_cons {A} (f : A → prog S unit) x xs :
  for_each f (x :: xs) = (f x ≫= fun _ => for_each f xs).
Proof. done. Qed.
End prog.
