(* ===== verification/MessageId.v ===== *)
(** Message identifiers: [internal/message/id.go].

    An identifier is 16 bytes in hexadecimal: the 48 low bits of the creation
    time in milliseconds, then 10 bytes from the entropy source.  The theorems
    show that the time can be read back, that the length is fixed, and that
    identifiers sort by creation time. *)

From S2P Require Import Prelude.

Definition timestampBytes : nat := 6.
Definition randomBytes : nat := 10.
Definition idBytes : nat := timestampBytes + randomBytes.

(** [t.UnixMilli()] and [t.UnixNano()] *)
Definition UnixMilli (t : Time) : Z := wrap64 (t / millisecond)%Z.
Definition UnixNano (t : Time) : Z := wrap64 t.

(** [io.ReadFull(entropy, buf)] on a buffer of [n] bytes: the bytes stored in
    the buffer, and whether it failed because the source ran out.  The source
    is given by the bytes it can still deliver. *)
Definition ReadFull (entropy : list N) (n : nat) : list N * bool :=
  (take n entropy, bool_decide (length entropy < n)).

Definition newIDAt (t : Time) (entropy : list N) : string :=
  let stamp := be_bytes 8 (Z.to_N (wrapU64 (UnixMilli t))) in
  let raw := list_inserts 0 (drop (8 - timestampBytes) stamp) (replicate idBytes 0%N) in
  let '(read, failed) := ReadFull entropy randomBytes in
  let raw := list_inserts timestampBytes read raw in
  let raw := if failed
             then list_inserts timestampBytes
                    (be_bytes 8 (Z.to_N (wrapU64 (UnixNano t)))) raw
             else raw in
  hex_encode raw.

(** [TimestampOf]: [None] is the result [(time.Time{}, false)]. *)
Definition TimestampOf (id : string) : option Time :=
  match hex_decode id with
  | None => None
  | Some raw =>
      if bool_decide (length raw ≠ idBytes) then None
      else
        let stamp := list_inserts (8 - timestampBytes) (take timestampBytes raw)
                       (replicate 8 0%N) in
        Some (wrap64 (Z.of_N (be_value stamp)) * millisecond)%Z
  end.

(** * The bytes of an identifier *)

(** What follows the timestamp: ten bytes whatever the entropy source does. *)
Definition id_tail (t : Time) (entropy : list N) : list N :=
  let tail := list_inserts 0 (take randomBytes entropy) (replicate randomBytes 0%N) in
  if bool_decide (length entropy < randomBytes)
  then list_inserts 0 (be_bytes 8 (Z.to_N (wrapU64 (UnixNano t)))) tail
  else tail.

Lemma id_tail_length t entropy : length (id_tail t entropy) = randomBytes.
Proof. unfold id_tail. case_bool_decide; by rewrite !length_inserts. Qed.

Lemma list_inserts_Forall {A} (P : A → Prop) i k l :
  Forall P k → Forall P l → Forall P (list_inserts i k l).
Proof.
  intros Hk. revert i. induction Hk as [|x k Hx Hk IH]; intros i Hl; [done|].
  simpl. apply Forall_insert; auto.
Qed.

Lemma id_tail_bytes t entropy :
  Forall is_byte entropy → Forall is_byte (id_tail t entropy).
Proof.
  intros He. unfold id_tail.
  assert (Forall is_byte (replicate randomBytes 0%N)) by by apply Forall_replicate.
  case_bool_decide; repeat apply list_inserts_Forall;
    auto using be_bytes_are_bytes, Forall_take.
Qed.

(** The last six bytes of a big-endian [uint64] are the six-byte encoding. *)
Lemma drop_be_bytes n m z : drop n (be_bytes (n + m) z) = be_bytes m z.
Proof. induction n as [|n IH]; [done|]. cbn. by rewrite IH. Qed.

Lemma newIDAt_bytes t entropy :
  newIDAt t entropy =
  hex_encode (be_bytes timestampBytes (Z.to_N (wrapU64 (UnixMilli t))) ++ id_tail t entropy).
Proof.
  unfold newIDAt, ReadFull. set (ms := Z.to_N (wrapU64 (UnixMilli t))).
  change (drop (8 - timestampBytes) (be_bytes 8 ms))
    with (drop 2 (be_bytes (2 + timestampBytes) ms)).
  rewrite drop_be_bytes.
  assert (list_inserts 0 (be_bytes timestampBytes ms) (replicate idBytes 0%N)
          = be_bytes timestampBytes ms ++ replicate randomBytes 0%N) as ->.
  { change (replicate idBytes 0%N)
      with (replicate timestampBytes 0%N ++ replicate randomBytes 0%N).
    apply list_inserts_0_r. by rewrite be_bytes_length, length_replicate. }
  assert (∀ k m : list N, list_inserts timestampBytes k (be_bytes timestampBytes ms ++ m)
            = be_bytes timestampBytes ms ++ list_inserts 0 k m) as Hins.
  { intros k m. by rewrite <-list_inserts_app_r. }
  unfold id_tail. f_equal. case_bool_decide; by rewrite !Hins.
Qed.

Lemma UnixMilli_mod t :
  (Z.to_N (wrapU64 (UnixMilli t)) mod 256 ^ 6)%N = Z.to_N ((t / millisecond) mod 2 ^ 48).
Proof.
  unfold UnixMilli, wrap64, wrapU64. set (m := (t / millisecond)%Z).
  change (256 ^ 6)%N with (Z.to_N (2 ^ 48)).
  rewrite <-Z2N.inj_mod by (try apply Z.mod_pos_bound; lia). f_equal.
  rewrite <-(Znumtheory.Zmod_div_mod (2 ^ 48) (2 ^ 64)) by (try lia; by exists (2 ^ 16)%Z).
  rewrite Zminus_mod.
  rewrite <-(Znumtheory.Zmod_div_mod (2 ^ 48) (2 ^ 64)) by (try lia; by exists (2 ^ 16)%Z).
  rewrite <-Zminus_mod. f_equal. lia.
Qed.

(** * Properties *)

(** Every identifier has 32 characters, also when the entropy source fails. *)
Lemma newIDAt_length t entropy : String.length (newIDAt t entropy) = 2 * idBytes.
Proof.
  by rewrite newIDAt_bytes, hex_encode_length, length_app, be_bytes_length, id_tail_length.
Qed.

(** The creation time can be read back from an identifier, to the
    millisecond: for any instant and any entropy, also when the source fails,
    [TimestampOf] succeeds on [newIDAt]'s result and yields the instant's
    48-bit millisecond timestamp. *)
Theorem TimestampOf_newIDAt t entropy :
  Forall is_byte entropy →
  TimestampOf (newIDAt t entropy) =
  Some (((t / millisecond) mod 2 ^ 48) * millisecond)%Z.
Proof.
  intros He. rewrite newIDAt_bytes. unfold TimestampOf.
  set (ms := Z.to_N (wrapU64 (UnixMilli t))).
  rewrite hex_decode_encode
    by (apply Forall_app; auto using be_bytes_are_bytes, id_tail_bytes).
  rewrite bool_decide_eq_false_2
    by (rewrite length_app, be_bytes_length, id_tail_length; tauto).
  rewrite take_app_length' by by rewrite be_bytes_length.
  change (replicate 8 0%N) with (replicate 2 0%N ++ replicate timestampBytes 0%N).
  change (8 - timestampBytes) with (length (replicate 2 0%N) + 0).
  rewrite list_inserts_app_r.
  rewrite <-(app_nil_r (be_bytes timestampBytes ms)), list_inserts_0_l
    by by rewrite be_bytes_length, length_replicate.
  cbn [replicate app be_value]. rewrite be_value_bytes.
  change (N.of_nat timestampBytes) with 6%N. unfold ms. rewrite UnixMilli_mod.
  pose proof (Z.mod_pos_bound (t / millisecond) (2 ^ 48)).
  do 2 f_equal. rewrite wrap64_id; unfold in_int64; lia.
Qed.

(** Identifiers of messages created in different milliseconds (of the
    years 1970 to 10889) sort by creation time, whatever their random parts. *)
Theorem newIDAt_ordered t1 e1 t2 e2 :
  (0 ≤ t1 / millisecond)%Z → (t1 / millisecond < t2 / millisecond)%Z →
  (t2 / millisecond < 2 ^ 48)%Z →
  String.compare (newIDAt t1 e1) (newIDAt t2 e2) = Lt.
Proof.
  intros H1 H12 H2. rewrite !newIDAt_bytes, !hex_encode_app.
  apply hex_be_compare_lt. change (N.of_nat timestampBytes) with 6%N.
  rewrite !UnixMilli_mod, !Z.mod_small by lia. lia.
Qed.

(** * Witnesses *)

Lemma TimestampOf_newIDAt_witness :
  TimestampOf (newIDAt 1755000000123456789 [1; 2; 255]%N) = Some 1755000000123000000%Z.
Proof.
  rewrite (TimestampOf_newIDAt 1755000000123456789 [1; 2; 255]%N).
  - vm_compute. reflexivity.
  - repeat constructor; vm_compute; reflexivity.
Defined.

Lemma newIDAt_ordered_witness :
  String.compare (newIDAt 1755000000123456789 (replicate 10 255%N))
                 (newIDAt 1755000000124000000 []) = Lt.
Proof. apply (newIDAt_ordered 1755000000123456789 _ 1755000000124000000 _); vm_compute; done. Defined.
