(* ===== verification/Message.v ===== *)
(** The message model and its life cycle: [internal/message/state.go] and
    [internal/message/message.go].

    A state is a string, as in the source, so that a value outside the table
    (a corrupted row, say) is representable; [transitions] is the source's
    table.  [lifecycle] is the diagram of the architecture document as a step
    relation; the theorems show that [CanTransitionTo] and [Transition]
    implement exactly that diagram, that its terminal states are final, and
    that every message can still reach one of them. *)

From S2P Require Import Prelude Errors MessageId.

(** * States *)

Definition StateCreated : State := "CREATED".
Definition StateQueued : State := "QUEUED".
Definition StateProcessing : State := "PROCESSING".
Definition StateAcknowledged : State := "ACKNOWLEDGED".
Definition StateFailed : State := "FAILED".
Definition StateRetrying : State := "RETRYING".
Definition StateDeadLettered : State := "DEAD_LETTERED".

Definition allStates : list State :=
  [StateCreated; StateQueued; StateProcessing; StateAcknowledged;
   StateFailed; StateRetrying; StateDeadLettered].

Definition transitions : gmap State (list State) := list_to_map
  [(StateCreated, [StateQueued; StateFailed]);
   (StateQueued, [StateProcessing]);
   (StateProcessing, [StateAcknowledged; StateFailed; StateQueued]);
   (StateFailed, [StateRetrying; StateDeadLettered]);
   (StateRetrying, [StateQueued]);
   (StateAcknowledged, []);
   (StateDeadLettered, [])].

(** [States()] returns a copy of the list. *)
Definition States : list State := allStates.

Definition ParseState (raw : string) : result error State :=
  match transitions !! raw with
  | None => Err (UnknownStateError raw)
  | Some _ => Ok raw
  end.

Definition Valid (s : State) : bool :=
  match transitions !! s with Some _ => true | None => false end.

(** An unknown state has no entry, hence no successors, hence is terminal. *)
Definition Terminal (s : State) : bool :=
  bool_decide (length (slice_at transitions s) = 0).

Fixpoint any_equal (next : State) (allowed : list State) : bool :=
  match allowed with
  | [] => false
  | a :: rest => if decide (a = next) then true else any_equal next rest
  end.

Definition CanTransitionTo (s next : State) : bool :=
  any_equal next (slice_at transitions s).

(** * Messages *)

Record Publication := mkPublication {
  pub_Exchange : string;
  pub_RoutingKey : string;
  pub_Payload : string;
  pub_Headers : gmap string string;
  pub_Schema : string;
}.

(** [Payload] is the byte string of a [json.RawMessage]; a nil header map is
    the empty map, as reads cannot tell them apart. *)
Record Message := mkMessage {
  msg_ID : string;
  msg_Exchange : string;
  msg_RoutingKey : string;
  msg_Queue : string;
  msg_Schema : string;
  msg_Payload : string;
  msg_Headers : gmap string string;
  msg_State : State;
  msg_Attempts : Z;
  msg_MaxAttempts : Z;
  msg_LastError : string;
  msg_CreatedAt : Time;
  msg_UpdatedAt : Time;
  msg_AvailableAt : Time;
}.

#[export] Instance Message_eq_dec : EqDecision Message.
Proof. solve_decision. Defined.

(** Field assignments. *)
Definition set_State (s : State) (m : Message) : Message :=
  mkMessage (msg_ID m) (msg_Exchange m) (msg_RoutingKey m) (msg_Queue m) (msg_Schema m)
    (msg_Payload m) (msg_Headers m) s (msg_Attempts m) (msg_MaxAttempts m)
    (msg_LastError m) (msg_CreatedAt m) (msg_UpdatedAt m) (msg_AvailableAt m).
Definition set_UpdatedAt (t : Time) (m : Message) : Message :=
  mkMessage (msg_ID m) (msg_Exchange m) (msg_RoutingKey m) (msg_Queue m) (msg_Schema m)
    (msg_Payload m) (msg_Headers m) (msg_State m) (msg_Attempts m) (msg_MaxAttempts m)
    (msg_LastError m) (msg_CreatedAt m) t (msg_AvailableAt m).
Definition set_AvailableAt (t : Time) (m : Message) : Message :=
  mkMessage (msg_ID m) (msg_Exchange m) (msg_RoutingKey m) (msg_Queue m) (msg_Schema m)
    (msg_Payload m) (msg_Headers m) (msg_State m) (msg_Attempts m) (msg_MaxAttempts m)
    (msg_LastError m) (msg_CreatedAt m) (msg_UpdatedAt m) t.
Definition set_LastError (e : string) (m : Message) : Message :=
  mkMessage (msg_ID m) (msg_Exchange m) (msg_RoutingKey m) (msg_Queue m) (msg_Schema m)
    (msg_Payload m) (msg_Headers m) (msg_State m) (msg_Attempts m) (msg_MaxAttempts m)
    e (msg_CreatedAt m) (msg_UpdatedAt m) (msg_AvailableAt m).
Definition set_Attempts (n : Z) (m : Message) : Message :=
  mkMessage (msg_ID m) (msg_Exchange m) (msg_RoutingKey m) (msg_Queue m) (msg_Schema m)
    (msg_Payload m) (msg_Headers m) (msg_State m) n (msg_MaxAttempts m)
    (msg_LastError m) (msg_CreatedAt m) (msg_UpdatedAt m) (msg_AvailableAt m).
Definition set_MaxAttempts (n : Z) (m : Message) : Message :=
  mkMessage (msg_ID m) (msg_Exchange m) (msg_RoutingKey m) (msg_Queue m) (msg_Schema m)
    (msg_Payload m) (msg_Headers m) (msg_State m) (msg_Attempts m) n
    (msg_LastError m) (msg_CreatedAt m) (msg_UpdatedAt m) (msg_AvailableAt m).
Definition set_Schema (s : string) (m : Message) : Message :=
  mkMessage (msg_ID m) (msg_Exchange m) (msg_RoutingKey m) (msg_Queue m) s
    (msg_Payload m) (msg_Headers m) (msg_State m) (msg_Attempts m) (msg_MaxAttempts m)
    (msg_LastError m) (msg_CreatedAt m) (msg_UpdatedAt m) (msg_AvailableAt m).
Definition set_Headers (h : gmap string string) (m : Message) : Message :=
  mkMessage (msg_ID m) (msg_Exchange m) (msg_RoutingKey m) (msg_Queue m) (msg_Schema m)
    (msg_Payload m) h (msg_State m) (msg_Attempts m) (msg_MaxAttempts m)
    (msg_LastError m) (msg_CreatedAt m) (msg_UpdatedAt m) (msg_AvailableAt m).

(** [New(pub, queue, now)]; [entropy] is what [defaultEntropy] delivers. *)
Definition New (pub : Publication) (queue : string) (now : Time) (entropy : list N) : Message :=
  mkMessage (newIDAt now entropy) (pub_Exchange pub) (pub_RoutingKey pub) queue
    (pub_Schema pub) (pub_Payload pub) (pub_Headers pub) StateCreated 0 0 ""
    now now now.

(** [m.Transition(next, now)]: the new message, or the error with [m] as it was. *)
Definition Transition (next : State) (now : Time) (m : Message) : result error Message :=
  if negb (Valid next) then Err (UnknownStateError next)
  else if negb (CanTransitionTo (msg_State m) next)
  then Err (InvalidTransitionError (msg_State m) next)
  else Ok (set_UpdatedAt now (set_State next m)).

Definition Exhausted (m : Message) : bool :=
  ((0 <? msg_MaxAttempts m) && (msg_MaxAttempts m <=? msg_Attempts m))%Z.

(** [Clone] copies the payload and the headers; values have no identity. *)
Definition Clone (m : Message) : Message := m.

Definition Header (key : string) (m : Message) : option string := msg_Headers m !! key.

Definition SetHeader (key value : string) (m : Message) : Message :=
  set_Headers (<[key := value]> (msg_Headers m)) m.

(** * The life cycle of the architecture document *)

Inductive lifecycle : State → State → Prop :=
| life_validated : lifecycle StateCreated StateQueued
| life_rejected : lifecycle StateCreated StateFailed
| life_claimed : lifecycle StateQueued StateProcessing
| life_acknowledged : lifecycle StateProcessing StateAcknowledged
| life_failed : lifecycle StateProcessing StateFailed
| life_requeued : lifecycle StateProcessing StateQueued
| life_retry : lifecycle StateFailed StateRetrying
| life_dead : lifecycle StateFailed StateDeadLettered
| life_elapsed : lifecycle StateRetrying StateQueued.

(** A message is settled in the two terminal states of the diagram. *)
Definition settled_state (s : State) : Prop :=
  s = StateAcknowledged ∨ s = StateDeadLettered.

#[export] Instance settled_state_dec s : Decision (settled_state s).
Proof. unfold settled_state. apply _. Defined.

Lemma any_equal_spec next allowed : any_equal next allowed = true ↔ next ∈ allowed.
Proof.
  induction allowed as [|a l IH]; simpl.
  - split; [done|]. by intros ?%not_elem_of_nil.
  - rewrite elem_of_cons. case_decide; naive_solver.
Qed.

(** The table's entries, one lookup at a time. *)
Lemma transitions_lookup s :
  transitions !! s =
  (if decide (s = StateCreated) then Some [StateQueued; StateFailed]
   else if decide (s = StateQueued) then Some [StateProcessing]
   else if decide (s = StateProcessing) then Some [StateAcknowledged; StateFailed; StateQueued]
   else if decide (s = StateFailed) then Some [StateRetrying; StateDeadLettered]
   else if decide (s = StateRetrying) then Some [StateQueued]
   else if decide (s = StateAcknowledged) then Some []
   else if decide (s = StateDeadLettered) then Some []
   else None).
Proof.
  unfold transitions. simpl. rewrite !lookup_insert, lookup_empty.
  repeat case_decide; congruence.
Qed.

Lemma CanTransitionTo_lifecycle s next : CanTransitionTo s next = true ↔ lifecycle s next.
Proof.
  unfold CanTransitionTo. rewrite any_equal_spec. unfold slice_at. rewrite transitions_lookup.
  split.
  - repeat case_decide; simplify_eq; simpl;
      rewrite ?elem_of_cons, ?elem_of_nil; intros; destruct_or?; simplify_eq;
      try constructor; done.
  - destruct 1; simpl; set_solver.
Qed.

Lemma Valid_allStates s : Valid s = true ↔ s ∈ allStates.
Proof.
  unfold Valid, allStates. rewrite transitions_lookup.
  repeat case_decide; subst; simpl; set_solver.
Qed.

Lemma Terminal_spec s : Terminal s = true ↔ ∀ next, ¬ lifecycle s next.
Proof.
  unfold Terminal. rewrite bool_decide_eq_true. split.
  - intros Hlen next Hs%CanTransitionTo_lifecycle. unfold CanTransitionTo in Hs.
    by apply nil_length_inv in Hlen as Heq; rewrite Heq in Hs.
  - intros Hno. destruct (slice_at transitions s) as [|n l] eqn:E; [done|].
    exfalso. apply (Hno n), CanTransitionTo_lifecycle, any_equal_spec. rewrite E. set_solver.
Qed.

Lemma Terminal_valid s : Valid s = true → Terminal s = true ↔ settled_state s.
Proof.
  unfold Valid, Terminal, slice_at, settled_state. rewrite transitions_lookup.
  repeat case_decide; subst; simpl; intros; try done; rewrite ?bool_decide_eq_true; naive_solver.
Qed.

Lemma settled_terminal s : settled_state s → Terminal s = true.
Proof. by intros [->| ->]. Qed.

Lemma settled_valid s : settled_state s → Valid s = true.
Proof. by intros [->| ->]. Qed.

Lemma lifecycle_valid s next : lifecycle s next → Valid s = true ∧ Valid next = true.
Proof. by destruct 1. Qed.

Lemma lifecycle_not_settled s next : lifecycle s next → ¬ settled_state s.
Proof. destruct 1; by intros [|]. Qed.

(** [Transition] on every branch, in one equation. *)
Lemma Transition_Ok next now m m' :
  Transition next now m = Ok m' ↔
  lifecycle (msg_State m) next ∧ m' = set_UpdatedAt now (set_State next m).
Proof.
  unfold Transition. rewrite <-CanTransitionTo_lifecycle.
  destruct (CanTransitionTo (msg_State m) next) eqn:Hc.
  - apply CanTransitionTo_lifecycle, lifecycle_valid in Hc as [_ ->]. simpl.
    split; [by intros [= <-] | by intros [_ ->]].
  - destruct (Valid next); simpl; split; try done; by intros [? _].
Qed.

Lemma Transition_lifecycle next now m :
  lifecycle (msg_State m) next →
  Transition next now m = Ok (set_UpdatedAt now (set_State next m)).
Proof. intros. by apply Transition_Ok. Qed.

Lemma Transition_Err next now m e :
  Transition next now m = Err e ↔
  (Valid next = false ∧ e = UnknownStateError next) ∨
  (Valid next = true ∧ ¬ lifecycle (msg_State m) next ∧
   e = InvalidTransitionError (msg_State m) next).
Proof.
  unfold Transition. rewrite <-CanTransitionTo_lifecycle.
  destruct (Valid next), (CanTransitionTo (msg_State m) next); simpl;
    (split; [intros [= <-] | intros [[? ->]|(? & ? & ->)]]); naive_solver.
Qed.

#[export] Hint Constructors lifecycle : broker.
#[export] Hint Resolve Transition_lifecycle : broker.

(** * Runs of the life cycle *)

(** A program may try any transitions it likes; a refused one changes nothing. *)
Definition attempt (m : Message) (step : State * Time) : Message :=
  match Transition step.1 step.2 m with Ok m' => m' | Err _ => m end.

Definition attempts_run (m : Message) (steps : list (State * Time)) : Message :=
  foldl attempt m steps.

Lemma settled_attempt m step : settled_state (msg_State m) → attempt m step = m.
Proof.
  intros Hs. unfold attempt. destruct (Transition _ _ m) as [m'|e] eqn:H; [|done].
  apply Transition_Ok in H as [H%lifecycle_not_settled _]. done.
Qed.

(** Only the state and the modification time change along a run. *)
Lemma attempt_frame m step :
  ∃ s t, attempt m step = set_UpdatedAt t (set_State s m) ∧
         (s = msg_State m ∨ lifecycle (msg_State m) s).
Proof.
  unfold attempt. destruct (Transition _ _ m) as [m'|e] eqn:H.
  - apply Transition_Ok in H as [H ->]. eauto.
  - exists (msg_State m), (msg_UpdatedAt m). destruct m. auto.
Qed.

Lemma attempts_run_frame m steps :
  ∃ s t, attempts_run m steps = set_UpdatedAt t (set_State s m) ∧ rtc lifecycle (msg_State m) s.
Proof.
  revert m. induction steps as [|st steps IH]; intros m; simpl.
  - exists (msg_State m), (msg_UpdatedAt m). by destruct m.
  - destruct (attempt_frame m st) as (s & t & -> & Hs).
    destruct (IH (set_UpdatedAt t (set_State s m))) as (s' & t' & -> & Hr).
    exists s', t'. split; [done|]. simpl in Hr. destruct Hs as [->|Hs]; [done|].
    by eapply rtc_l.
Qed.

(** * Properties *)

(** [Transition] implements the life cycle of the architecture document
    exactly: it succeeds precisely along an edge of the diagram, then changes
    the state and the modification time and nothing else; otherwise the
    message is left alone and the error names the reason, an unknown target
    state or the refused pair of states. *)
Theorem Transition_implements_lifecycle m next now :
  match Transition next now m with
  | Ok m' => lifecycle (msg_State m) next ∧ m' = set_UpdatedAt now (set_State next m)
  | Err e =>
      ¬ lifecycle (msg_State m) next ∧
      e = if decide (next ∈ allStates)
          then InvalidTransitionError (msg_State m) next
          else UnknownStateError next
  end.
Proof.
  destruct (Transition next now m) as [m'|e] eqn:H.
  - by apply Transition_Ok in H.
  - apply Transition_Err in H as [[Hv ->]|(Hv & Hn & ->)].
    + split; [intros [_ Hl]%lifecycle_valid; congruence|].
      rewrite decide_False; [done|]. rewrite <-Valid_allStates. congruence.
    + split; [done|]. rewrite decide_True; [done|]. by apply Valid_allStates.
Qed.

(** Whatever sequence of transitions is attempted, a message that is
    acknowledged or dead-lettered never changes again, and any message stays
    the same but for its state and modification time, its state following the
    edges of the life cycle; a message created by [New] is therefore always in
    one of the seven known states. *)
Theorem lifecycle_safety m steps :
  (settled_state (msg_State m) → attempts_run m steps = m) ∧
  (∃ s t, attempts_run m steps = set_UpdatedAt t (set_State s m) ∧
          rtc lifecycle (msg_State m) s) ∧
  (msg_State m = StateCreated → Valid (msg_State (attempts_run m steps)) = true).
Proof.
  split_and!.
  - intros Hs. induction steps as [|st steps IH]; simpl; [done|].
    by rewrite settled_attempt.
  - apply attempts_run_frame.
  - destruct (attempts_run_frame m steps) as (s & t & -> & Hr). simpl. intros Hc.
    rewrite Hc in Hr. inversion Hr as [|? y ? Hstep Hrest]; [done|]; subst.
    clear Hr Hc. revert Hstep. generalize StateCreated.
    induction Hrest as [s|y y' s Hy Hr IH]; intros s0 Hstep.
    + apply (lifecycle_valid _ _ Hstep).
    + by eapply IH.
Qed.

(** From every known state that is not settled a message can be settled
    by at most three successful transitions. *)
Theorem every_message_can_settle m now :
  Valid (msg_State m) = true → ¬ settled_state (msg_State m) →
  ∃ states, length states ≤ 3 ∧
    settled_state (msg_State (attempts_run m ((fun s => (s, now)) <$> states))).
Proof.
  intros Hv%Valid_allStates Hn. destruct m as [? ? ? ? ? ? ? s]; simpl in *.
  unfold allStates in Hv. rewrite !elem_of_cons, elem_of_nil in Hv.
  destruct_or!; subst; try done.
  - exists [StateFailed; StateDeadLettered]. split; [simpl; lia|]. by right.
  - exists [StateProcessing; StateAcknowledged]. split; [simpl; lia|]. by left.
  - exists [StateAcknowledged]. split; [simpl; lia|]. by left.
  - destruct Hn. by left.
  - exists [StateDeadLettered]. split; [simpl; lia|]. by right.
  - exists [StateQueued; StateProcessing; StateAcknowledged]. split; [simpl; lia|]. by left.
  - destruct Hn. by right.
Qed.

(** * Witnesses *)

Definition sample_message : Message :=
  New (mkPublication "erp.events" "invoice.issued" "{}" ∅ "") "invoices" 1000000 [1%N; 2%N].

Lemma every_message_can_settle_witness :
  ∃ states, length states ≤ 3 ∧
    settled_state (msg_State (attempts_run sample_message ((fun s => (s, 5%Z)) <$> states))).
Proof.
  apply (every_message_can_settle sample_message 5).
  - vm_compute. reflexivity.
  - by intros [|].
Defined.
