(* ===== verification/Topic.v ===== *)
(** Topic patterns: [internal/broker/topic.go].

    [matchSegments] fills a table of booleans backwards, as the source does.
    Its meaning is given by [topic_language]: the key is cut into consecutive
    parts, one per pattern segment, where [#] takes any number of segments,
    [*] exactly one and any other word only itself.  The theorems show that
    the table decides this language and that the shortcut of [matchTopic] for
    the pattern [#] agrees with it. *)

From S2P Require Import Prelude.

Definition wildcardSingle : string := "*".
Definition wildcardMulti : string := "#".
Definition segmentSep : ascii := "."%char.

(** * The table *)

(** [matches[i][j]]; the indices the loops use are within the table
    ([fill_rows_dims]), so the default is never read. *)
Definition cell (M : list (list bool)) (i j : nat) : bool :=
  default false (M !! i ≫= fun row => row !! j).

(** [matches[i][j] = b] *)
Definition set_cell (i j : nat) (b : bool) (M : list (list bool)) : list (list bool) :=
  alter (fun row => <[j := b]> row) i M.

Section table.
Context (pattern key : list string).

(** The body of the inner loop. *)
Definition fill_cell (i j : nat) (M : list (list bool)) : list (list bool) :=
  let p := pattern !!! i in
  if decide (p = wildcardMulti) then
    set_cell i j (cell M (i + 1) j || (bool_decide (j < length key) && cell M i (j + 1))) M
  else if decide (j = length key) then set_cell i j false M
  else if bool_decide (p = wildcardSingle) || bool_decide (p = key !!! j) then
    set_cell i j (cell M (i + 1) (j + 1)) M
  else set_cell i j false M.

(** [for j := n; j >= 0; j--] *)
Fixpoint fill_row (i n : nat) (M : list (list bool)) : list (list bool) :=
  match n with
  | O => fill_cell i 0 M
  | S n' => fill_row i n' (fill_cell i (S n') M)
  end.

(** [for i := n-1; i >= 0; i--] *)
Fixpoint fill_rows (n : nat) (M : list (list bool)) : list (list bool) :=
  match n with
  | O => M
  | S i => fill_rows i (fill_row i (length key) M)
  end.

Definition init_table : list (list bool) :=
  set_cell (length pattern) (length key) true
    (replicate (length pattern + 1) (replicate (length key + 1) false)).

Definition matchSegments : bool := cell (fill_rows (length pattern) init_table) 0 0.
End table.

Definition matchTopic (pattern routingKey : string) : bool :=
  if decide (pattern = wildcardMulti) then true
  else matchSegments (str_split segmentSep pattern) (str_split segmentSep routingKey).

(** * What a pattern means *)

Definition segment_language (p : string) (part : list string) : Prop :=
  if decide (p = wildcardMulti) then True
  else if decide (p = wildcardSingle) then length part = 1
  else part = [p].

Definition topic_language (pattern key : list string) : Prop :=
  ∃ parts, key = concat parts ∧ Forall2 segment_language pattern parts.

(** The direct recursion on the pattern, as a stepping stone. *)
Fixpoint match_rec (pattern : list string) : list string → bool :=
  match pattern with
  | [] => fun key => bool_decide (key = [])
  | p :: pattern' =>
      if decide (p = wildcardMulti) then
        fix skip key := match_rec pattern' key ||
                        match key with [] => false | _ :: key' => skip key' end
      else
        fun key =>
          match key with
          | [] => false
          | s :: key' =>
              if bool_decide (p = wildcardSingle) || bool_decide (p = s)
              then match_rec pattern' key' else false
          end
  end.

Lemma match_rec_multi pattern key :
  match_rec (wildcardMulti :: pattern) key =
  match_rec pattern key ||
  match key with [] => false | _ :: key' => match_rec (wildcardMulti :: pattern) key' end.
Proof. by destruct key. Qed.

Lemma match_rec_multi_spec pattern key :
  match_rec (wildcardMulti :: pattern) key = true ↔
  ∃ k1 k2, key = k1 ++ k2 ∧ match_rec pattern k2 = true.
Proof.
  induction key as [|s key IH]; rewrite match_rec_multi, orb_true_iff.
  - split.
    + intros [H|H]; [by exists [], []|done].
    + intros (k1 & k2 & [-> ->]%eq_sym%app_nil & H). by left.
  - rewrite IH. split.
    + intros [H|(k1 & k2 & -> & H)]; [by exists [], (s :: key)|].
      by exists (s :: k1), k2.
    + intros ([|s' k1] & k2 & Heq & H); simplify_eq/=; [by left|].
      right. by exists k1, k2.
Qed.

Lemma match_rec_language pattern key :
  match_rec pattern key = true ↔ topic_language pattern key.
Proof.
  revert key. induction pattern as [|p pattern IH]; intros key.
  - simpl. rewrite bool_decide_eq_true. split.
    + intros ->. by exists [].
    + intros (parts & -> & H). by inversion H.
  - destruct (decide (p = wildcardMulti)) as [->|Hm].
    + rewrite match_rec_multi_spec. split.
      * intros (k1 & k2 & -> & (parts & -> & H)%IH).
        exists (k1 :: parts). split; [done|]. by constructor.
      * intros (parts & -> & H). apply Forall2_cons_inv_l in H as (part & parts' & _ & H & ->).
        exists part, (concat parts'). split; [done|]. apply IH. by exists parts'.
    + unfold topic_language. split.
      * intros H. destruct key as [|s key]; simpl in H; rewrite decide_False in H by done;
          [done|].
        case_match eqn:Hp; [|done]. apply IH in H as (parts & -> & H).
        exists ([s] :: parts). split; [done|]. constructor; [|done].
        unfold segment_language. rewrite decide_False by done. case_decide; [done|].
        rewrite orb_true_iff, !bool_decide_eq_true in Hp. naive_solver.
      * intros (parts & -> & H). apply Forall2_cons_inv_l in H as (part & parts' & Hp & H & ->).
        unfold segment_language in Hp. rewrite decide_False in Hp by done.
        assert (∃ s, part = [s] ∧ (p = wildcardSingle ∨ p = s)) as (s & -> & Hs).
        { case_decide; [|naive_solver]. destruct part as [|s []]; naive_solver. }
        simpl. rewrite decide_False by done.
        assert (bool_decide (p = wildcardSingle) || bool_decide (p = s) = true) as ->.
        { rewrite orb_true_iff, !bool_decide_eq_true. done. }
        apply IH. by exists parts'.
Qed.

(** * The table computes the recursion *)

Definition dims (n m : nat) (M : list (list bool)) : Prop :=
  length M = n ∧ ∀ i row, M !! i = Some row → length row = m.

Lemma set_cell_dims n m i j b M : dims n m M → dims n m (set_cell i j b M).
Proof.
  intros [Hn Hm]. unfold set_cell. split; [by rewrite length_alter|].
  intros i' row. destruct (decide (i = i')) as [->|].
  - rewrite list_lookup_alter_eq. intros (row' & Hr & ->)%fmap_Some.
    rewrite length_insert. eauto.
  - rewrite list_lookup_alter_ne by done. eauto.
Qed.

Lemma cell_set n m M i j b i' j' : dims n m M → i < n → j < m →
  cell (set_cell i j b M) i' j' = if decide (i = i' ∧ j = j') then b else cell M i' j'.
Proof.
  intros [Hn Hm] Hi Hj. unfold cell, set_cell.
  destruct (lookup_lt_is_Some_2 M i) as [row Hrow]; [lia|]. pose proof (Hm _ _ Hrow).
  destruct (decide (i = i')) as [<-|].
  - rewrite list_lookup_alter_eq, Hrow. simpl.
    destruct (decide (j = j')) as [<-|].
    + rewrite list_lookup_insert_eq by lia. by rewrite decide_True.
    + rewrite list_lookup_insert_ne by done. rewrite decide_False by naive_solver. done.
  - rewrite list_lookup_alter_ne by done. by rewrite decide_False by naive_solver.
Qed.

Section table_correct.
Context (pattern key : list string).
Let P := length pattern.
Let K := length key.

Definition want (i j : nat) : bool := match_rec (drop i pattern) (drop j key).

(** Everything after position [(i, j)] in the order of the loops is filled. *)
Definition filled (i j : nat) (M : list (list bool)) : Prop :=
  dims (P + 1) (K + 1) M ∧
  ∀ i' j', i' ≤ P → j' ≤ K → (i < i' ∨ (i' = i ∧ j < j')) → cell M i' j' = want i' j'.

Lemma want_step i j : i < P → j ≤ K →
  want i j =
  if decide (pattern !!! i = wildcardMulti)
  then want (i + 1) j || (bool_decide (j < K) && want i (j + 1))
  else if decide (j = K) then false
  else if bool_decide (pattern !!! i = wildcardSingle) || bool_decide (pattern !!! i = key !!! j)
  then want (i + 1) (j + 1) else false.
Proof using P K.
  intros Hi Hj. unfold want.
  destruct (lookup_lt_is_Some_2 pattern i) as [p Hp]; [done|].
  rewrite (list_lookup_total_correct _ _ _ Hp), (drop_S _ _ _ Hp), !Nat.add_1_r.
  destruct (decide (j = K)) as [->|HjK].
  - unfold K. rewrite drop_all, bool_decide_eq_false_2, andb_false_l, orb_false_r by lia.
    case_decide as Hm; [|simpl; by rewrite decide_False].
    rewrite Hm, match_rec_multi. by rewrite orb_false_r.
  - destruct (lookup_lt_is_Some_2 key j) as [s Hs]; [fold K; lia|].
    rewrite (list_lookup_total_correct _ _ _ Hs), (drop_S _ _ _ Hs).
    case_decide as Hm.
    + rewrite Hm, match_rec_multi. rewrite bool_decide_eq_true_2 by lia. done.
    + simpl. by rewrite decide_False.
Qed.

Lemma fill_cell_filled i j M : i < P → j ≤ K → filled i j M →
  let M' := fill_cell pattern key i j M in
  dims (P + 1) (K + 1) M' ∧
  ∀ i' j', i' ≤ P → j' ≤ K → (i < i' ∨ (i' = i ∧ j ≤ j')) → cell M' i' j' = want i' j'.
Proof using P K.
  intros Hi Hj [Hd Hf].
  assert (fill_cell pattern key i j M = set_cell i j (want i j) M) as ->.
  { rewrite want_step by done. unfold fill_cell. fold K. case_decide.
    - rewrite (Hf (i + 1) j) by lia. destruct (decide (j < K)).
      + by rewrite (Hf i (j + 1)) by lia.
      + by rewrite bool_decide_eq_false_2.
    - case_decide; [done|]. case_match; [|done]. by rewrite Hf by lia. }
  simpl. split; [by apply set_cell_dims|]. intros i' j' Hi' Hj' Hpos.
  rewrite (cell_set (P + 1) (K + 1)) by (done || lia).
  case_decide as Hc; [by destruct Hc; subst|]. apply Hf; lia.
Qed.

Lemma fill_row_filled i n M : i < P → n ≤ K → filled i n M →
  let M' := fill_row pattern key i n M in
  dims (P + 1) (K + 1) M' ∧
  ∀ i' j', i' ≤ P → j' ≤ K → i ≤ i' → cell M' i' j' = want i' j'.
Proof using P K.
  intros Hi. revert M. induction n as [|n IH]; intros M Hn Hf.
  - destruct (fill_cell_filled i 0 M Hi Hn Hf) as [Hd Hc]. split; [done|].
    intros. apply Hc; lia.
  - apply IH; [lia|]. destruct (fill_cell_filled i (S n) M Hi Hn Hf) as [Hd Hc].
    split; [done|]. intros. apply Hc; lia.
Qed.

Lemma fill_rows_filled n M : n ≤ P →
  dims (P + 1) (K + 1) M →
  (∀ i' j', i' ≤ P → j' ≤ K → n ≤ i' → cell M i' j' = want i' j') →
  let M' := fill_rows pattern key n M in
  dims (P + 1) (K + 1) M' ∧ ∀ i' j', i' ≤ P → j' ≤ K → cell M' i' j' = want i' j'.
Proof using P K.
  revert M. induction n as [|n IH]; intros M Hn Hd Hc.
  - split; [done|]. intros. apply Hc; lia.
  - simpl. destruct (fill_row_filled n K M) as [Hd' Hc'].
    + lia.
    + done.
    + split; [done|]. intros. apply Hc; lia.
    + apply IH; [lia|done|]. intros. apply Hc'; lia.
Qed.

Lemma init_table_filled :
  dims (P + 1) (K + 1) (init_table pattern key) ∧
  ∀ i' j', i' ≤ P → j' ≤ K → P ≤ i' → cell (init_table pattern key) i' j' = want i' j'.
Proof using P K.
  assert (dims (P + 1) (K + 1) (replicate (P + 1) (replicate (K + 1) false))) as Hd.
  { split; [apply length_replicate|]. intros i row [-> _]%lookup_replicate.
    apply length_replicate. }
  split; [by apply set_cell_dims|]. intros i' j' Hi' Hj' HP.
  assert (i' = P) as -> by lia. unfold init_table, want. fold P K.
  rewrite (cell_set (P + 1) (K + 1)) by (done || lia).
  rewrite (drop_ge pattern P) by done. simpl. case_decide as Hc.
  - destruct Hc as [_ <-]. rewrite (drop_ge key K) by done. by rewrite bool_decide_eq_true_2.
  - unfold cell. rewrite lookup_replicate_2 by lia. simpl.
    rewrite lookup_replicate_2 by lia. simpl. symmetry. apply bool_decide_eq_false.
    intros Hnil%(f_equal length). rewrite length_drop in Hnil. simpl in Hnil.
    apply Hc. split; [done|]. unfold K in *. lia.
Qed.

Lemma fill_rows_dims :
  dims (P + 1) (K + 1) (fill_rows pattern key P (init_table pattern key)).
Proof using P K. destruct init_table_filled. by apply fill_rows_filled. Qed.

Lemma matchSegments_rec : matchSegments pattern key = match_rec pattern key.
Proof using P K.
  destruct init_table_filled as [Hd Hc]. unfold matchSegments.
  apply (fill_rows_filled P (init_table pattern key)); try done; lia.
Qed.
End table_correct.

Lemma matchTopic_accepts pattern routingKey :
  matchTopic pattern routingKey = true ↔
  topic_language (str_split segmentSep pattern) (str_split segmentSep routingKey).
Proof.
  unfold matchTopic. case_decide as Hp.
  - subst pattern. split; [|done]. intros _.
    exists [str_split segmentSep routingKey]. simpl. rewrite app_nil_r.
    split; [done|]. by repeat constructor.
  - rewrite matchSegments_rec. apply match_rec_language.
Qed.

(** C6: For every pattern and routing key, [matchTopic] accepts exactly the
    keys of the pattern's language: the dot-separated segments of the key can
    be cut into consecutive parts, one per pattern segment, with [#] matching
    any number of segments, [*] exactly one and a word only itself.  Both the
    dynamic-programming table and the shortcut for the pattern [#] are covered. *)
Theorem matchTopic_language pattern routingKey :
  matchTopic pattern routingKey = true ↔
  topic_language (str_split segmentSep pattern) (str_split segmentSep routingKey).
Proof. apply matchTopic_accepts. Qed.
