(* ===== verification/Broker.v ===== *)
(** The topology registry: [internal/broker] (exchange.go, queue.go,
    binding.go, routing.go, broker.go).

    [Registry] holds the exchanges, the queues and, per exchange, the list of
    bindings in declaration order.  An operation that fails leaves the registry
    unchanged, so each is a function into [result error]; the value of the
    registry's clock is the argument [now].  The mutex makes each operation
    atomic. *)

From S2P Require Import Prelude Errors Topic.

(** * Exchanges, queues and bindings *)

(** [type ExchangeKind string] *)
Definition ExchangeDirect : string := "direct".
Definition ExchangeFanout : string := "fanout".
Definition ExchangeTopic : string := "topic".
Definition exchangeKinds : list string := [ExchangeDirect; ExchangeFanout; ExchangeTopic].

Fixpoint find_kind (candidate : string) (kinds : list string) : option string :=
  match kinds with
  | [] => None
  | kind :: rest => if decide (kind = candidate) then Some kind else find_kind candidate rest
  end.

Definition ParseExchangeKind (raw : string) : result error string :=
  match find_kind raw exchangeKinds with
  | Some kind => Ok kind
  | None => Err (invalid "kind" ("must be one of direct, fanout, topic, got " +:+ quote raw))
  end.

Record ExchangeSpec := mkExchangeSpec {
  es_Name : string;
  es_Kind : string;
  es_Durable : bool;
}.
Record Exchange := mkExchange {
  ex_Spec : ExchangeSpec;
  ex_CreatedAt : Time;
}.
Record QueueSpec := mkQueueSpec {
  qs_Name : string;
  qs_Durable : bool;
  qs_MaxAttempts : Z;
  qs_VisibilityTimeout : Duration;
  qs_Schema : string;
}.
Record Queue := mkQueue {
  q_Spec : QueueSpec;
  q_CreatedAt : Time;
}.
Record BindingSpec := mkBindingSpec {
  bs_Exchange : string;
  bs_Queue : string;
  bs_RoutingKey : string;
}.
Record Binding := mkBinding {
  b_Spec : BindingSpec;
  b_CreatedAt : Time;
}.

#[export] Instance ExchangeSpec_eq_dec : EqDecision ExchangeSpec.
Proof. solve_decision. Defined.
#[export] Instance Exchange_eq_dec : EqDecision Exchange.
Proof. solve_decision. Defined.
#[export] Instance QueueSpec_eq_dec : EqDecision QueueSpec.
Proof. solve_decision. Defined.
#[export] Instance Queue_eq_dec : EqDecision Queue.
Proof. solve_decision. Defined.
#[export] Instance BindingSpec_eq_dec : EqDecision BindingSpec.
Proof. solve_decision. Defined.
#[export] Instance Binding_eq_dec : EqDecision Binding.
Proof. solve_decision. Defined.

(** The embedded struct's fields. *)
Definition ex_Name (e : Exchange) : string := es_Name (ex_Spec e).
Definition ex_Kind (e : Exchange) : string := es_Kind (ex_Spec e).
Definition ex_Durable (e : Exchange) : bool := es_Durable (ex_Spec e).
Definition q_Name (q : Queue) : string := qs_Name (q_Spec q).
Definition q_Durable (q : Queue) : bool := qs_Durable (q_Spec q).
Definition q_MaxAttempts (q : Queue) : Z := qs_MaxAttempts (q_Spec q).
Definition q_VisibilityTimeout (q : Queue) : Duration := qs_VisibilityTimeout (q_Spec q).
Definition q_Schema (q : Queue) : string := qs_Schema (q_Spec q).
Definition b_Exchange (b : Binding) : string := bs_Exchange (b_Spec b).
Definition b_Queue (b : Binding) : string := bs_Queue (b_Spec b).
Definition b_RoutingKey (b : Binding) : string := bs_RoutingKey (b_Spec b).

(** * Validation *)

Definition maxNameLength : nat := 128.
Definition maxRoutingKeyLength : nat := 255.
Definition defaultMaxAttempts : Z := 3.
Definition defaultVisibilityTime : Duration := (30 * second)%Z.

Definition is_alnum (c : ascii) : bool :=
  let n := N_of_ascii c in
  ((48 <=? n) && (n <=? 57) || (65 <=? n) && (n <=? 90) || (97 <=? n) && (n <=? 122))%N.
Definition is_name_char (c : ascii) : bool :=
  is_alnum c || bool_decide (c ∈ ["."; "_"; "-"]%char).

(** [^[a-zA-Z0-9][a-zA-Z0-9._\-]*$] *)
Definition namePattern_MatchString (s : string) : bool :=
  match s with
  | EmptyString => false
  | String c s' => is_alnum c && str_forall is_name_char s'
  end.

Definition validateName (field value : string) : result error unit :=
  if str_empty value then Err (invalid field "must not be empty")
  else if bool_decide (maxNameLength < String.length value)
  then Err (invalid field "exceeds maximum length")
  else if negb (namePattern_MatchString value)
  then Err (invalid field "must match [a-zA-Z0-9][a-zA-Z0-9._-]*")
  else Ok tt.

Definition ExchangeSpec_Validate (s : ExchangeSpec) : result error unit :=
  validateName "exchange name" (es_Name s) ≫= fun _ =>
  ParseExchangeKind (es_Kind s) ≫= fun _ => Ok tt.

Definition QueueSpec_Validate (s : QueueSpec) : result error unit :=
  validateName "queue name" (qs_Name s) ≫= fun _ =>
  guard_err (qs_MaxAttempts s <? 1)%Z (invalid "max_attempts" "must be at least 1") ≫= fun _ =>
  guard_err (qs_VisibilityTimeout s <=? 0)%Z
    (invalid "visibility_timeout" "must be positive") ≫= fun _ =>
  if str_empty (qs_Schema s) then Ok tt else validateName "schema" (qs_Schema s).

Definition QueueSpec_withDefaults (s : QueueSpec) : QueueSpec :=
  mkQueueSpec (qs_Name s) (qs_Durable s)
    (if decide (qs_MaxAttempts s = 0%Z) then defaultMaxAttempts else qs_MaxAttempts s)
    (if decide (qs_VisibilityTimeout s = 0%Z) then defaultVisibilityTime
     else qs_VisibilityTimeout s)
    (qs_Schema s).

Definition wildcards : list ascii := ["*"; "#"]%char.

Definition validateRoutingKey (key : string) : result error unit :=
  if str_empty key then Err (invalid "routing_key" "must not be empty")
  else if bool_decide (maxRoutingKeyLength < String.length key)
  then Err (invalid "routing_key" "exceeds maximum length")
  else if str_contains_any wildcards key
  then Err (invalid "routing_key" "wildcards are only valid on topic exchanges")
  else Ok tt.

Fixpoint validate_segments (segments : list string) : result error unit :=
  match segments with
  | [] => Ok tt
  | segment :: rest =>
      if str_empty segment
      then Err (invalid "routing_key" "must not contain empty segments")
      else if str_contains_any wildcards segment && negb (bool_decide (String.length segment = 1))
      then Err (invalid "routing_key" "wildcard segments must stand alone")
      else validate_segments rest
  end.

Definition validateBindingPattern (pattern : string) : result error unit :=
  if str_empty pattern then Err (invalid "routing_key" "must not be empty")
  else if bool_decide (maxRoutingKeyLength < String.length pattern)
  then Err (invalid "routing_key" "exceeds maximum length")
  else validate_segments (str_split segmentSep pattern).

Definition BindingSpec_Validate (s : BindingSpec) (kind : string) : result error unit :=
  validateName "exchange name" (bs_Exchange s) ≫= fun _ =>
  validateName "queue name" (bs_Queue s) ≫= fun _ =>
  if decide (kind = ExchangeFanout) then Ok tt
  else if decide (kind = ExchangeDirect) then validateRoutingKey (bs_RoutingKey s)
  else if decide (kind = ExchangeTopic) then validateBindingPattern (bs_RoutingKey s)
  else Err (invalid "kind" "unsupported exchange kind").

(** [s.key()]: the three fields joined by NUL bytes. *)
Definition nul : string := String (ascii_of_N 0) EmptyString.
Definition BindingSpec_key (s : BindingSpec) : string :=
  bs_Exchange s +:+ nul +:+ bs_Queue s +:+ nul +:+ bs_RoutingKey s.
Definition Binding_key (b : Binding) : string := BindingSpec_key (b_Spec b).

(** * The routing table *)

Record routingTable := mkRoutingTable {
  rt_exchanges : gmap string Exchange;
  rt_bindings : gmap string (list Binding);
}.

Definition newRoutingTable : routingTable := mkRoutingTable ∅ ∅.

Definition set_bindings (e : string) (bs : list Binding) (t : routingTable) : routingTable :=
  mkRoutingTable (rt_exchanges t) (<[e := bs]> (rt_bindings t)).

Definition declareExchange (spec : ExchangeSpec) (now : Time) (t : routingTable) :
    result error (Exchange * routingTable) :=
  ExchangeSpec_Validate spec ≫= fun _ =>
  match rt_exchanges t !! es_Name spec with
  | Some existing =>
      if decide (ex_Spec existing = spec) then Ok (existing, t)
      else Err (BrokerErr ErrExchangeExists)
  | None =>
      let exchange := mkExchange spec now in
      Ok (exchange, mkRoutingTable (<[es_Name spec := exchange]> (rt_exchanges t)) (rt_bindings t))
  end.

Definition exchange (name : string) (t : routingTable) : result error Exchange :=
  match rt_exchanges t !! name with
  | None => Err (BrokerErr ErrExchangeNotFound)
  | Some e => Ok e
  end.

Definition allExchanges (t : routingTable) : list Exchange :=
  sort_by ex_Name (snd <$> map_to_list (rt_exchanges t)).

Fixpoint find_binding (key : string) (bs : list Binding) : option Binding :=
  match bs with
  | [] => None
  | b :: rest => if decide (Binding_key b = key) then Some b else find_binding key rest
  end.

Definition bind (spec : BindingSpec) (now : Time) (t : routingTable) :
    result error (Binding * routingTable) :=
  exchange (bs_Exchange spec) t ≫= fun ex =>
  BindingSpec_Validate spec (ex_Kind ex) ≫= fun _ =>
  let existing := slice_at (rt_bindings t) (bs_Exchange spec) in
  match find_binding (BindingSpec_key spec) existing with
  | Some b => Ok (b, t)
  | None =>
      let b := mkBinding spec now in
      Ok (b, set_bindings (bs_Exchange spec) (existing ++ [b]) t)
  end.

(** Index of the first binding with the key. *)
Fixpoint binding_index (key : string) (bs : list Binding) : option nat :=
  match bs with
  | [] => None
  | b :: rest => if decide (Binding_key b = key) then Some 0 else S <$> binding_index key rest
  end.

Definition unbind (spec : BindingSpec) (t : routingTable) : result error routingTable :=
  let existing := slice_at (rt_bindings t) (bs_Exchange spec) in
  match binding_index (BindingSpec_key spec) existing with
  | Some i => Ok (set_bindings (bs_Exchange spec) (take i existing ++ drop (i + 1) existing) t)
  | None => Err (BrokerErr ErrBindingNotFound)
  end.

Definition bindingsFor (e : string) (t : routingTable) : list Binding :=
  slice_at (rt_bindings t) e.

Definition allBindings (t : routingTable) : list Binding :=
  sort_by Binding_key (concat (snd <$> map_to_list (rt_bindings t))).

Definition queueReferences (queue : string) (t : routingTable) : nat :=
  sum_list_with (count_if (fun b => bool_decide (b_Queue b = queue)))
    (snd <$> map_to_list (rt_bindings t)).

Definition bindingMatches (kind pattern routingKey : string) : bool :=
  if decide (kind = ExchangeFanout) then true
  else if decide (kind = ExchangeDirect) then bool_decide (pattern = routingKey)
  else if decide (kind = ExchangeTopic) then matchTopic pattern routingKey
  else false.

(** The loop of [route]: [seen] and [matched] grow together. *)
Fixpoint route_loop (kind routingKey : string) (deliverable : string → bool)
    (bs : list Binding) (seen : gset string) (matched : list string) : list string :=
  match bs with
  | [] => matched
  | b :: rest =>
      if bool_decide (b_Queue b ∈ seen)
      then route_loop kind routingKey deliverable rest seen matched
      else if negb (deliverable (b_Queue b))
      then route_loop kind routingKey deliverable rest seen matched
      else if negb (bindingMatches kind (b_RoutingKey b) routingKey)
      then route_loop kind routingKey deliverable rest seen matched
      else route_loop kind routingKey deliverable rest
             ({[b_Queue b]} ∪ seen) (matched ++ [b_Queue b])
  end.

Definition route (ex : Exchange) (routingKey : string) (deliverable : string → bool)
    (t : routingTable) : list string :=
  sort_strings (route_loop (ex_Kind ex) routingKey deliverable
                  (slice_at (rt_bindings t) (ex_Name ex)) ∅ []).

(** * The registry *)

Record Registry := mkRegistry {
  reg_routing : routingTable;
  reg_queues : gmap string Queue;
}.

Definition NewRegistry : Registry := mkRegistry newRoutingTable ∅.

Definition Registry_DeclareExchange (spec : ExchangeSpec) (now : Time) (r : Registry) :
    result error (Exchange * Registry) :=
  '(e, t) ← declareExchange spec now (reg_routing r); Ok (e, mkRegistry t (reg_queues r)).

Definition Registry_Exchange (name : string) (r : Registry) : result error Exchange :=
  exchange name (reg_routing r).

Definition Registry_Exchanges (r : Registry) : list Exchange := allExchanges (reg_routing r).

Definition Registry_Bind (spec : BindingSpec) (now : Time) (r : Registry) :
    result error (Binding * Registry) :=
  match reg_queues r !! bs_Queue spec with
  | None => Err (BrokerErr ErrQueueNotFound)
  | Some _ =>
      '(b, t) ← bind spec now (reg_routing r); Ok (b, mkRegistry t (reg_queues r))
  end.

Definition Registry_Unbind (spec : BindingSpec) (r : Registry) : result error Registry :=
  t ← unbind spec (reg_routing r); Ok (mkRegistry t (reg_queues r)).

Definition Registry_Bindings (e : string) (r : Registry) : list Binding :=
  bindingsFor e (reg_routing r).

Definition Registry_AllBindings (r : Registry) : list Binding := allBindings (reg_routing r).

Definition Registry_DeclareQueue (spec : QueueSpec) (now : Time) (r : Registry) :
    result error (Queue * Registry) :=
  let spec := QueueSpec_withDefaults spec in
  QueueSpec_Validate spec ≫= fun _ =>
  match reg_queues r !! qs_Name spec with
  | Some existing =>
      if decide (q_Spec existing = spec) then Ok (existing, r)
      else Err (BrokerErr ErrQueueExists)
  | None =>
      let queue := mkQueue spec now in
      Ok (queue, mkRegistry (reg_routing r) (<[qs_Name spec := queue]> (reg_queues r)))
  end.

Definition Registry_Queue (name : string) (r : Registry) : result error Queue :=
  match reg_queues r !! name with
  | None => Err (BrokerErr ErrQueueNotFound)
  | Some q => Ok q
  end.

Definition Registry_Queues (r : Registry) : list Queue :=
  sort_by q_Name (snd <$> map_to_list (reg_queues r)).

Definition Registry_QueueNames (r : Registry) : list string :=
  sort_strings (fst <$> map_to_list (reg_queues r)).

Definition Registry_DeleteQueue (name : string) (r : Registry) : result error Registry :=
  match reg_queues r !! name with
  | None => Err (BrokerErr ErrQueueNotFound)
  | Some _ =>
      if bool_decide (0 < queueReferences name (reg_routing r))
      then Err (BrokerErr ErrQueueInUse)
      else Ok (mkRegistry (reg_routing r) (delete name (reg_queues r)))
  end.

Definition queueExistsLocked (r : Registry) (name : string) : bool :=
  bool_decide (is_Some (reg_queues r !! name)).

(** The returned slice holds [r.queues[name]] for each routed name; none is a
    nil pointer ([route_names_registered]), so nothing is lost by [omap]. *)
Definition Registry_Route (e routingKey : string) (r : Registry) : result error (list Queue) :=
  exchange e (reg_routing r) ≫= fun definition =>
  let names := route definition routingKey (queueExistsLocked r) (reg_routing r) in
  if bool_decide (length names = 0) then Err (BrokerErr ErrUnroutable)
  else Ok (omap (fun name => reg_queues r !! name) names).

Definition Registry_Restore (exchanges : list Exchange) (queues : list Queue)
    (bindings : list Binding) (r : Registry) : Registry :=
  let exs := foldl (fun m e => <[ex_Name e := e]> m) (rt_exchanges (reg_routing r)) exchanges in
  let qs := foldl (fun m q => <[q_Name q := q]> m) (reg_queues r) queues in
  let bs := foldl (fun m b => <[b_Exchange b := slice_at m (b_Exchange b) ++ [b]]> m)
              (rt_bindings (reg_routing r)) bindings in
  mkRegistry (mkRoutingTable exs bs) qs.
