(* ===== verification/BrokerProofs.v ===== *)
(** Correctness of the topology registry ([Broker.v]).

    - [reaches] says, without the code's loops, which queues a publication
      must reach; [Registry_Route] returns exactly those, once each, in name
      order, and its two errors mean exactly what their names say.
    - [registry_ok] is the well-formedness of the registry; every operation
      preserves it, so it holds in every state reachable from [NewRegistry].
    - declarations and bindings are idempotent, unbinding undoes binding. *)

From S2P Require Import Prelude Errors Topic Broker.

(** * Routing *)

(** When a binding of an exchange of the given kind accepts a routing key. *)
Definition binding_accepts (kind pattern key : string) : Prop :=
  kind = ExchangeFanout ∨
  (kind = ExchangeDirect ∧ pattern = key) ∨
  (kind = ExchangeTopic ∧
   topic_language (str_split segmentSep pattern) (str_split segmentSep key)).

(** A publication to exchange [e] with routing key [key] must reach [q]. *)
Definition reaches (r : Registry) (e key : string) (q : Queue) : Prop :=
  ∃ ex b,
    rt_exchanges (reg_routing r) !! e = Some ex ∧
    b ∈ slice_at (rt_bindings (reg_routing r)) e ∧
    reg_queues r !! b_Queue b = Some q ∧
    binding_accepts (ex_Kind ex) (b_RoutingKey b) key.

Lemma bindingMatches_accepts kind pattern key :
  bindingMatches kind pattern key = true ↔ binding_accepts kind pattern key.
Proof.
  unfold bindingMatches, binding_accepts.
  repeat case_decide; subst; rewrite ?bool_decide_eq_true, ?matchTopic_accepts; naive_solver.
Qed.

Section route_loop.
Context (kind key : string) (deliverable : string → bool).

Definition wanted (bs : list Binding) (x : string) : Prop :=
  ∃ b, b ∈ bs ∧ b_Queue b = x ∧ deliverable x = true ∧
       bindingMatches kind (b_RoutingKey b) key = true.

Lemma wanted_cons b bs x :
  wanted (b :: bs) x ↔
  (b_Queue b = x ∧ deliverable x = true ∧ bindingMatches kind (b_RoutingKey b) key = true)
  ∨ wanted bs x.
Proof. unfold wanted. set_solver. Qed.

Lemma route_loop_spec bs seen matched :
  (∀ x, x ∈ seen ↔ x ∈ matched) → NoDup matched →
  NoDup (route_loop kind key deliverable bs seen matched) ∧
  ∀ x, x ∈ route_loop kind key deliverable bs seen matched ↔ x ∈ matched ∨ wanted bs x.
Proof.
  revert seen matched. induction bs as [|b bs IH]; intros seen matched Hs Hn; simpl.
  { split; [done|]. intros x. split; [by left|]. intros [|(? & ?%elem_of_nil & _)]; done. }
  setoid_rewrite wanted_cons.
  case_bool_decide as Hseen; simpl.
  { destruct (IH seen matched Hs Hn) as [Hn' He]. split; [done|]. intros x.
    rewrite He. apply Hs in Hseen.
    split; [intros [?|?]; auto|intros [?|[ [<- _] | ?]]; auto]. }
  destruct (deliverable (b_Queue b)) eqn:Hd; simpl; last first.
  { destruct (IH seen matched Hs Hn) as [Hn' He]. split; [done|]. intros x.
    rewrite He. split; [intros [?|?]; auto|].
    intros [?|[ [<- [? ?] ] | ?]]; [by left|congruence|by right]. }
  destruct (bindingMatches kind (b_RoutingKey b) key) eqn:Hm; simpl; last first.
  { destruct (IH seen matched Hs Hn) as [Hn' He]. split; [done|]. intros x.
    rewrite He. split; [intros [?|?]; auto|].
    intros [?|[ [<- [? ?] ] | ?]]; [by left|congruence|by right]. }
  destruct (IH ({[b_Queue b]} ∪ seen) (matched ++ [b_Queue b])) as [Hn' He].
  - set_solver.
  - apply NoDup_app. split_and!; [done| |apply NoDup_singleton].
    intros x Hx ->%list_elem_of_singleton. apply Hseen, Hs, Hx.
  - split; [done|]. intros x. rewrite He, elem_of_app, list_elem_of_singleton.
    split; [intros [ [? | ->] | ?]; auto|intros [?|[ [<- _] | ?]]; auto].
Qed.
End route_loop.

Lemma route_spec ex key deliverable t :
  NoDup (route ex key deliverable t) ∧
  Sorted String.le (route ex key deliverable t) ∧
  ∀ x, x ∈ route ex key deliverable t ↔
       wanted (ex_Kind ex) key deliverable (slice_at (rt_bindings t) (ex_Name ex)) x.
Proof.
  destruct (route_loop_spec (ex_Kind ex) key deliverable
              (slice_at (rt_bindings t) (ex_Name ex)) ∅ []) as [Hn He].
  - set_solver.
  - constructor.
  - unfold route. split_and!; [by rewrite sort_strings_perm|auto with broker|].
    intros x. rewrite elem_of_sort_strings, He. set_solver.
Qed.

(** The names [route] returns all have a queue: no nil pointer is appended. *)
Lemma route_names_registered ex key r x :
  x ∈ route ex key (queueExistsLocked r) (reg_routing r) → is_Some (reg_queues r !! x).
Proof.
  intros Hx. apply (proj2 (proj2 (route_spec _ _ _ _))) in Hx as (b & _ & _ & Hd & _).
  by apply bool_decide_eq_true in Hd.
Qed.

Lemma omap_lookup_names (m : gmap string Queue) (names : list string) :
  (∀ n q, m !! n = Some q → q_Name q = n) →
  (∀ n, n ∈ names → is_Some (m !! n)) →
  q_Name <$> omap (fun n => m !! n) names = names.
Proof.
  intros Hkey. induction names as [|n names IH]; intros Hall; [done|]. simpl.
  destruct (Hall n) as [q Hq]; [set_solver|]. rewrite Hq. simpl.
  f_equal; [by apply Hkey|]. apply IH. set_solver.
Qed.

(** * Well-formedness *)

Record registry_ok (r : Registry) : Prop := {
  ok_exchanges : ∀ n e, rt_exchanges (reg_routing r) !! n = Some e →
    ex_Name e = n ∧ ExchangeSpec_Validate (ex_Spec e) = Ok tt;
  ok_queues : ∀ n q, reg_queues r !! n = Some q →
    q_Name q = n ∧ QueueSpec_Validate (q_Spec q) = Ok tt;
  ok_binding_keys : ∀ n, NoDup (Binding_key <$> slice_at (rt_bindings (reg_routing r)) n);
  ok_bindings : ∀ n b, b ∈ slice_at (rt_bindings (reg_routing r)) n →
    b_Exchange b = n ∧
    (∃ e, rt_exchanges (reg_routing r) !! n = Some e ∧
          BindingSpec_Validate (b_Spec b) (ex_Kind e) = Ok tt) ∧
    is_Some (reg_queues r !! b_Queue b);
}.

(** One successful call of an operation that changes the registry. *)
Inductive registry_step : Registry → Registry → Prop :=
| step_declare_exchange spec now e r r' :
    Registry_DeclareExchange spec now r = Ok (e, r') → registry_step r r'
| step_declare_queue spec now q r r' :
    Registry_DeclareQueue spec now r = Ok (q, r') → registry_step r r'
| step_bind spec now b r r' :
    Registry_Bind spec now r = Ok (b, r') → registry_step r r'
| step_unbind spec r r' :
    Registry_Unbind spec r = Ok r' → registry_step r r'
| step_delete_queue name r r' :
    Registry_DeleteQueue name r = Ok r' → registry_step r r'.

Lemma NewRegistry_ok : registry_ok NewRegistry.
Proof.
  split; try done; simpl; unfold slice_at; intros n; rewrite lookup_empty; simpl.
  - constructor.
  - intros b ?%elem_of_nil. done.
Qed.

Lemma declareExchange_ok spec now e r r' :
  registry_ok r → Registry_DeclareExchange spec now r = Ok (e, r') → registry_ok r'.
Proof.
  intros [He Hq Hk Hb]. unfold Registry_DeclareExchange, declareExchange.
  intros ([e' t] & (u & Hv & H)%result_bind_Ok & [= <- <-])%result_bind_Ok. destruct u.
  destruct (rt_exchanges (reg_routing r) !! es_Name spec) as [old|] eqn:Hold.
  { case_decide; simplify_eq. by split. }
  simplify_eq. split; simpl; [|done..|].
  - intros n e0. rewrite lookup_insert. case_decide; [|apply He].
    intros [= <-]. by subst.
  - intros n b Hin. destruct (Hb n b Hin) as (? & (e0 & He0 & ?) & ?).
    split_and!; [done| |done]. exists e0. rewrite lookup_insert_ne by congruence. done.
Qed.

Lemma declareQueue_ok spec now q r r' :
  registry_ok r → Registry_DeclareQueue spec now r = Ok (q, r') → registry_ok r'.
Proof.
  intros [He Hq Hk Hb]. unfold Registry_DeclareQueue.
  generalize (QueueSpec_withDefaults spec) as s. intros s. simpl.
  intros ([] & Hv & H)%result_bind_Ok.
  destruct (reg_queues r !! qs_Name s) as [old|] eqn:Hold.
  { case_decide; simplify_eq. by split. }
  simplify_eq. split; simpl; [done| |done|].
  - intros n q0. rewrite lookup_insert. case_decide; [|apply Hq].
    intros [= <-]. by subst.
  - intros n b Hin. destruct (Hb n b Hin) as (? & ? & [q0 Hq0]).
    split_and!; [done..|]. exists q0. rewrite lookup_insert_ne by congruence. done.
Qed.

Lemma find_binding_None key bs : find_binding key bs = None ↔ key ∉ Binding_key <$> bs.
Proof.
  induction bs as [|b bs IH]; simpl; [set_solver|]. case_decide; set_solver.
Qed.

Lemma find_binding_Some key bs b :
  find_binding key bs = Some b → b ∈ bs ∧ Binding_key b = key.
Proof. induction bs; simpl; [done|]. case_decide; set_solver. Qed.

Lemma find_binding_snoc key bs b :
  find_binding key bs = None → Binding_key b = key → find_binding key (bs ++ [b]) = Some b.
Proof.
  intros Hn Hb. induction bs as [|b' bs IH]; simpl in *; [by rewrite decide_True|].
  case_decide; [done|]. by apply IH.
Qed.

Lemma bind_ok spec now b r r' :
  registry_ok r → Registry_Bind spec now r = Ok (b, r') → registry_ok r'.
Proof.
  intros [He Hq Hk Hb]. unfold Registry_Bind, bind, exchange.
  destruct (reg_queues r !! bs_Queue spec) as [q|] eqn:Hqs; [|done].
  intros ([b' t] & H & [= <- <-])%result_bind_Ok.
  destruct (rt_exchanges (reg_routing r) !! bs_Exchange spec) as [ex|] eqn:Hex; [|done].
  simpl in H. apply result_bind_Ok in H as ([] & Hv & H).
  destruct (find_binding _ _) as [b0|] eqn:Hf; simplify_eq/=.
  { by split. }
  apply find_binding_None in Hf. split; simpl; [done..| |].
  - intros n. rewrite slice_at_insert. case_decide; [subst|done].
    rewrite fmap_app. apply NoDup_app. split_and!; [done| |apply NoDup_singleton].
    set_solver.
  - intros n b Hin. rewrite slice_at_insert in Hin. case_decide; [subst|by apply Hb].
    apply elem_of_app in Hin as [Hin| ->%list_elem_of_singleton]; [by apply Hb|].
    split_and!; [done|by exists ex|]. unfold b_Queue. simpl. by rewrite Hqs.
Qed.

Lemma binding_index_Some key bs i : binding_index key bs = Some i →
  ∃ b, bs = take i bs ++ b :: drop (i + 1) bs ∧ Binding_key b = key.
Proof.
  revert i. induction bs as [|b bs IH]; intros i; simpl; [done|].
  case_decide as Hkey.
  - intros [= <-]. by exists b.
  - intros (j & Hj & ->)%fmap_Some. destruct (IH j Hj) as (b' & Heq & Hb').
    exists b'. simpl. by rewrite <-Heq.
Qed.

Lemma binding_index_None key bs : binding_index key bs = None ↔ key ∉ Binding_key <$> bs.
Proof.
  induction bs as [|b bs IH]; simpl; [set_solver|].
  case_decide; [set_solver|]. rewrite fmap_None. set_solver.
Qed.

Lemma unbind_ok spec r r' :
  registry_ok r → Registry_Unbind spec r = Ok r' → registry_ok r'.
Proof.
  intros [He Hq Hk Hb]. unfold Registry_Unbind, unbind.
  intros (t & H & [= <-])%result_bind_Ok.
  set (bs := slice_at (rt_bindings (reg_routing r)) (bs_Exchange spec)) in *.
  destruct (binding_index _ bs) as [i|] eqn:Hi; simplify_eq.
  apply binding_index_Some in Hi as (b0 & Heq & _).
  assert (take i bs ++ drop (i + 1) bs `sublist_of` bs) as Hsub.
  { rewrite Heq at 3. by apply sublist_app, sublist_cons. }
  split; simpl; [done..| |].
  - intros n. rewrite slice_at_insert. case_decide; [subst|done].
    eapply sublist_NoDup; [apply (Hk (bs_Exchange spec))|]. by apply fmap_sublist.
  - intros n b Hin. rewrite slice_at_insert in Hin. case_decide; [subst|by apply Hb].
    apply Hb. by eapply elem_of_sublist.
Qed.

Lemma queueReferences_pos queue t :
  0 < queueReferences queue t ↔
  ∃ n b, b ∈ slice_at (rt_bindings t) n ∧ b_Queue b = queue.
Proof.
  unfold queueReferences. split.
  - intros Hpos. assert (∃ bs, bs ∈ (map_to_list (rt_bindings t)).*2 ∧
      0 < count_if (fun b => bool_decide (b_Queue b = queue)) bs) as (bs & Hbs & Hc).
    { induction ((map_to_list (rt_bindings t)).*2) as [|x l IH]; simpl in *; [lia|].
      destruct (count_if _ x) eqn:E; [|exists x; split; [set_solver|lia]].
      destruct IH as (bs & ? & ?); [lia|]. exists bs. split; [set_solver|done]. }
    apply list_elem_of_fmap in Hbs as ([n bs'] & -> & Hin%elem_of_map_to_list).
    destruct (decide (Exists (fun b => b_Queue b = queue) bs')) as [He|He].
    + apply Exists_exists in He as (b & Hb & Hq). exists n, b. split; [|done].
      unfold slice_at. by rewrite Hin.
    + simpl in Hc. rewrite count_if_zero in Hc; [lia|]. intros b Hb.
      apply bool_decide_eq_false. intros Hq. apply He, Exists_exists. eauto.
  - intros (n & b & Hb & Hq). unfold slice_at in Hb.
    destruct (rt_bindings t !! n) as [bs|] eqn:Hn; [|by apply elem_of_nil in Hb].
    simpl in Hb.
    assert (bs ∈ (map_to_list (rt_bindings t)).*2) as Hin.
    { apply list_elem_of_fmap. exists (n, bs). split; [done|]. by apply elem_of_map_to_list. }
    apply list_elem_of_split in Hin as (l1 & l2 & ->).
    apply list_elem_of_split in Hb as (k1 & k2 & ->).
    rewrite sum_list_with_app. simpl. rewrite count_if_app, count_if_cons.
    rewrite bool_decide_eq_true_2 by done. lia.
Qed.

Lemma deleteQueue_ok name r r' :
  registry_ok r → Registry_DeleteQueue name r = Ok r' → registry_ok r'.
Proof.
  intros [He Hq Hk Hb]. unfold Registry_DeleteQueue.
  destruct (reg_queues r !! name) as [q0|] eqn:Hn; [|done].
  case_bool_decide as Hr; [done|]. intros [= <-]. split; simpl; [done| |done|].
  - intros n q. rewrite lookup_delete_Some. naive_solver.
  - intros n b Hin. destruct (Hb n b Hin) as (? & ? & ?). split_and!; [done..|].
    rewrite lookup_delete_ne; [done|]. intros ->. apply Hr, queueReferences_pos. eauto.
Qed.

Lemma registry_step_ok r r' : registry_ok r → registry_step r r' → registry_ok r'.
Proof.
  destruct 2; eauto using declareExchange_ok, declareQueue_ok, bind_ok, unbind_ok, deleteQueue_ok.
Qed.
#[export] Hint Resolve NewRegistry_ok registry_step_ok : broker.

Lemma registry_reachable_ok r : rtc registry_step NewRegistry r → registry_ok r.
Proof.
  intros Hr. remember NewRegistry as r0 eqn:E.
  assert (registry_ok r0) as H0 by (subst; apply NewRegistry_ok). clear E.
  induction Hr; eauto using registry_step_ok.
Qed.

(** * Binding keys *)

(** A string without NUL bytes. *)
Definition no_nul (s : string) : bool := str_forall (fun c => negb (bool_decide (c = ascii_of_N 0))) s.

Lemma is_name_char_not_nul c : is_name_char c = true → c ≠ ascii_of_N 0.
Proof. by intros H ->. Qed.

Lemma str_forall_impl (p q : ascii → bool) s :
  (∀ c, p c = true → q c = true) → str_forall p s = true → str_forall q s = true.
Proof.
  intros Hpq. induction s as [|c s IH]; [done|]. simpl.
  rewrite !andb_true_iff. naive_solver.
Qed.

Lemma validateName_no_nul field s u : validateName field s = Ok u → no_nul s = true.
Proof.
  unfold validateName. repeat case_match; try done. intros _.
  match goal with H : negb _ = false |- _ => apply negb_false_iff in H; rename H into Hm end.
  destruct s as [|c s]; [done|]. simpl in Hm. apply andb_true_iff in Hm as [Hc Hs].
  unfold no_nul. cbn [str_forall]. apply andb_true_iff. split.
  - apply negb_true_iff, bool_decide_eq_false. intros ->. done.
  - eapply str_forall_impl; [|exact Hs]. intros d Hd%is_name_char_not_nul.
    by apply negb_true_iff, bool_decide_eq_false.
Qed.

Lemma nul_split a b s t :
  no_nul a = true → no_nul b = true → a +:+ nul +:+ s = b +:+ nul +:+ t → a = b ∧ s = t.
Proof.
  unfold no_nul. revert b. induction a as [|c a IH]; intros [|d b]; simpl; intros Ha Hb Heq.
  - by injection Heq.
  - injection Heq as <- _. apply andb_true_iff in Hb as [Hb _]. done.
  - injection Heq as -> _. apply andb_true_iff in Ha as [Ha _]. done.
  - injection Heq as -> Heq. apply andb_true_iff in Ha as [_ Ha], Hb as [_ Hb].
    destruct (IH b Ha Hb Heq) as [-> ->]. done.
Qed.

(** On bindings whose names are valid the key determines the binding. *)
Lemma BindingSpec_key_inj s1 s2 k1 k2 :
  BindingSpec_Validate s1 k1 = Ok tt → BindingSpec_Validate s2 k2 = Ok tt →
  BindingSpec_key s1 = BindingSpec_key s2 → s1 = s2.
Proof.
  unfold BindingSpec_Validate, BindingSpec_key.
  intros (? & He1%validateName_no_nul & (? & Hq1%validateName_no_nul & _)%result_bind_Ok)%result_bind_Ok.
  intros (? & He2%validateName_no_nul & (? & Hq2%validateName_no_nul & _)%result_bind_Ok)%result_bind_Ok.
  intros [He Heq]%nul_split; [|done..]. apply nul_split in Heq as [Hq Hk]; [|done..].
  destruct s1, s2; simpl in *; congruence.
Qed.

(** [Route] against [reaches]. *)
Lemma Route_spec r e key :
  registry_ok r →
  match Registry_Route e key r with
  | Ok qs =>
      qs ≠ [] ∧ NoDup (q_Name <$> qs) ∧ Sorted String.le (q_Name <$> qs) ∧
      ∀ q, q ∈ qs ↔ reaches r e key q
  | Err err =>
      (err = BrokerErr ErrExchangeNotFound ∧ rt_exchanges (reg_routing r) !! e = None) ∨
      (err = BrokerErr ErrUnroutable ∧ is_Some (rt_exchanges (reg_routing r) !! e) ∧
       ∀ q, ¬ reaches r e key q)
  end.
Proof.
  intros Hok. unfold Registry_Route, exchange.
  destruct (rt_exchanges (reg_routing r) !! e) as [ex|] eqn:Hex; simpl; [|by left].
  destruct (route_spec ex key (queueExistsLocked r) (reg_routing r)) as (Hnd & Hsort & Hin).
  set (names := route ex key (queueExistsLocked r) (reg_routing r)) in *.
  destruct (ok_exchanges r Hok e ex Hex) as [Hname _].
  assert (∀ x q, reg_queues r !! x = Some q → x ∈ names ↔ reaches r e key q) as Hreach.
  { intros x q Hx. rewrite Hin, Hname. unfold reaches, wanted, queueExistsLocked.
    setoid_rewrite bindingMatches_accepts. split.
    - intros (b & ? & <- & _ & ?). by exists ex, b.
    - intros (ex' & b & ? & ? & Hb & ?). simplify_eq. exists b.
      destruct (ok_queues r Hok _ _ Hx), (ok_queues r Hok _ _ Hb).
      split_and!; [done|congruence| |done]. by rewrite bool_decide_eq_true, Hx. }
  assert (∀ x, x ∈ names → is_Some (reg_queues r !! x)) as Hreg
    by (intros x; apply route_names_registered).
  case_bool_decide as Hlen.
  - right. split_and!; [done..|]. intros q Hq. pose proof Hq as (ex' & b & _ & _ & Hb & _).
    apply (Hreach _ _ Hb) in Hq. apply nil_length_inv in Hlen. rewrite Hlen in Hq.
    by apply elem_of_nil in Hq.
  - rewrite omap_lookup_names by (eauto; apply Hok).
    split_and!; [|done..|].
    + intros Hnil. apply Hlen. rewrite <-(omap_lookup_names (reg_queues r) names).
      * by rewrite Hnil.
      * apply Hok.
      * done.
    + intros q. rewrite list_elem_of_omap. split.
      * intros (x & Hx & Hq). by apply (Hreach x).
      * intros Hq. pose proof Hq as (_ & b & _ & _ & Hb & _). exists (b_Queue b).
        split; [|done]. by apply (Hreach _ _ Hb).
Qed.

Definition binding_specs (r : Registry) (e : string) : list BindingSpec :=
  b_Spec <$> slice_at (rt_bindings (reg_routing r)) e.

(** * Properties *)


(** C15: [Route] on a well-formed registry: on success the queues returned are
    exactly those a publication must reach, each once, in the order of their
    names; [ErrExchangeNotFound] is returned exactly when the exchange does not
    exist, and [ErrUnroutable] exactly when it exists and no queue is reached. *)
Theorem Route_correct r e key :
  registry_ok r →
  match Registry_Route e key r with
  | Ok qs =>
      qs ≠ [] ∧ NoDup (q_Name <$> qs) ∧ Sorted String.le (q_Name <$> qs) ∧
      ∀ q, q ∈ qs ↔ reaches r e key q
  | Err err =>
      (err = BrokerErr ErrExchangeNotFound ∧ rt_exchanges (reg_routing r) !! e = None) ∨
      (err = BrokerErr ErrUnroutable ∧ is_Some (rt_exchanges (reg_routing r) !! e) ∧
       ∀ q, ¬ reaches r e key q)
  end.
Proof. apply Route_spec. Qed.

(** [Bind] on a well-formed registry: when it succeeds, the binding it
    returns is the requested one (distinct bindings never share a key), the
    exchange's bindings are the old ones plus the requested one (once), every
    other exchange keeps its bindings, and binding again changes nothing. *)
Theorem Bind_correct r spec now b r' :
  registry_ok r → Registry_Bind spec now r = Ok (b, r') →
  b_Spec b = spec ∧
  (∀ s, s ∈ binding_specs r' (bs_Exchange spec) ↔
        s = spec ∨ s ∈ binding_specs r (bs_Exchange spec)) ∧
  (∀ e, e ≠ bs_Exchange spec → binding_specs r' e = binding_specs r e) ∧
  (∀ now', Registry_Bind spec now' r' = Ok (b, r')).
Proof.
  intros Hok Hbind. pose proof (bind_ok _ _ _ _ _ Hok Hbind) as Hok'. revert Hbind.
  unfold Registry_Bind, bind, exchange.
  destruct (reg_queues r !! bs_Queue spec) as [q|] eqn:Hqs; [|done].
  intros ([b0 t] & H & [= <- <-])%result_bind_Ok.
  destruct (rt_exchanges (reg_routing r) !! bs_Exchange spec) as [ex|] eqn:Hex; [|done].
  simpl in H. apply result_bind_Ok in H as ([] & Hv & H). unfold binding_specs.
  destruct (find_binding _ _) as [b1|] eqn:Hf; simplify_eq/=.
  - rewrite Hqs, Hex. simpl. rewrite Hv. simpl. rewrite Hf.
    apply find_binding_Some in Hf as [Hin Hkey].
    destruct (ok_bindings r Hok _ _ Hin) as (_ & (e & He & Hve) & _). simplify_eq.
    assert (b_Spec b0 = spec) as Hspec by (by eapply BindingSpec_key_inj).
    split_and!; try done. intros s. split; [by right|]. intros [->|?]; [|done].
    apply list_elem_of_fmap. eauto.
  - split_and!; try done.
    + intros s. rewrite slice_at_insert, decide_True, fmap_app by done. set_solver.
    + intros e He. by rewrite slice_at_insert, decide_False.
    + intros now'. rewrite Hqs, Hex. simpl. rewrite Hv. simpl.
      rewrite slice_at_insert, decide_True by done.
      by rewrite find_binding_snoc.
Qed.

(** [Unbind] on a well-formed registry and a specification with valid
    names: it succeeds exactly when that binding exists, and then removes that
    binding and no other; otherwise it fails with [ErrBindingNotFound]. *)
Theorem Unbind_correct r spec :
  registry_ok r →
  validateName "exchange name" (bs_Exchange spec) = Ok tt →
  validateName "queue name" (bs_Queue spec) = Ok tt →
  match Registry_Unbind spec r with
  | Ok r' =>
      spec ∈ binding_specs r (bs_Exchange spec) ∧
      (∀ s, s ∈ binding_specs r' (bs_Exchange spec) ↔
            s ≠ spec ∧ s ∈ binding_specs r (bs_Exchange spec)) ∧
      (∀ e, e ≠ bs_Exchange spec → binding_specs r' e = binding_specs r e)
  | Err err =>
      err = BrokerErr ErrBindingNotFound ∧ spec ∉ binding_specs r (bs_Exchange spec)
  end.
Proof.
  intros Hok He Hq. unfold Registry_Unbind, unbind, binding_specs.
  set (bs := slice_at (rt_bindings (reg_routing r)) (bs_Exchange spec)).
  assert (∀ b, b ∈ bs → Binding_key b = BindingSpec_key spec → b_Spec b = spec) as Hinj.
  { intros b Hb Hkey. destruct (ok_bindings r Hok _ _ Hb) as (_ & (ex & _ & Hv) & _).
    eapply (BindingSpec_key_inj _ _ (ex_Kind ex) ExchangeFanout); try done.
    unfold BindingSpec_Validate. by rewrite He, Hq. }
  destruct (binding_index _ bs) as [i|] eqn:Hi; simpl; last first.
  { apply binding_index_None in Hi. split; [done|]. intros (b & -> & Hb)%list_elem_of_fmap.
    apply Hi, list_elem_of_fmap. by exists b. }
  apply binding_index_Some in Hi as (b0 & Heq & Hkey).
  assert (b_Spec b0 = spec) as Hb0.
  { apply Hinj; [|done]. rewrite Heq. set_solver. }
  assert (NoDup (b_Spec <$> bs)) as Hnd.
  { pose proof (ok_binding_keys r Hok (bs_Exchange spec)) as Hnd. fold bs in Hnd.
    rewrite (list_fmap_compose b_Spec BindingSpec_key) in Hnd.
    by apply NoDup_fmap_1 in Hnd. }
  split_and!.
  - rewrite <-Hb0. apply list_elem_of_fmap. exists b0. split; [done|]. rewrite Heq. set_solver.
  - intros s. rewrite slice_at_insert, decide_True by done.
    rewrite Heq, fmap_app, fmap_cons, Hb0 in Hnd. rewrite Heq at 3.
    rewrite !fmap_app, fmap_cons, Hb0. revert Hnd.
    generalize (b_Spec <$> take i bs) as l1, (b_Spec <$> drop (i + 1) bs) as l2.
    intros l1 l2 (H1 & H2 & H3%NoDup_cons)%NoDup_app. set_solver.
  - intros e Hne. by rewrite slice_at_insert, decide_False.
Qed.

(** [DeclareQueue] on any registry: on success the queue carries the
    requested specification with its defaults filled in and is the one found
    under its name, other queues and the routing table are unchanged, and
    declaring it again is a no-op; it fails exactly when the specification is
    invalid or a queue of that name exists with a different specification. *)
Theorem DeclareQueue_correct r spec now :
  let spec' := QueueSpec_withDefaults spec in
  match Registry_DeclareQueue spec now r with
  | Ok (q, r') =>
      QueueSpec_Validate spec' = Ok tt ∧ q_Spec q = spec' ∧
      Registry_Queue (qs_Name spec) r' = Ok q ∧
      (∀ n, n ≠ qs_Name spec → Registry_Queue n r' = Registry_Queue n r) ∧
      reg_routing r' = reg_routing r ∧
      (∀ now', Registry_DeclareQueue spec now' r' = Ok (q, r'))
  | Err err =>
      QueueSpec_Validate spec' = Err err ∨
      (err = BrokerErr ErrQueueExists ∧
       ∃ q, Registry_Queue (qs_Name spec) r = Ok q ∧ q_Spec q ≠ spec')
  end.
Proof.
  intros spec'. unfold Registry_DeclareQueue, Registry_Queue.
  change (qs_Name spec) with (qs_Name spec'). fold spec'. clearbody spec'. clear spec.
  destruct (QueueSpec_Validate spec') as [[]|e] eqn:Hv; simpl; [|by left].
  destruct (reg_queues r !! qs_Name spec') as [q|] eqn:Hq.
  - case_decide as Hs; simpl.
    + rewrite Hq. split_and!; try done. intros _. by rewrite decide_True.
    + right. split; [done|]. by exists q.
  - simpl. rewrite lookup_insert_eq. split_and!; try done.
    + intros n Hn. by rewrite lookup_insert_ne.
    + intros now'. by rewrite decide_True.
Qed.

(** * Witnesses *)

Module Samples.
Definition events : ExchangeSpec := mkExchangeSpec "erp.events" ExchangeTopic true.
Definition audit : QueueSpec := mkQueueSpec "audit-log" true 0 0 "".
Definition invoices : QueueSpec := mkQueueSpec "invoice-processing" true 5 second "invoice".
Definition bind_audit : BindingSpec := mkBindingSpec "erp.events" "audit-log" "#".
Definition bind_invoices : BindingSpec := mkBindingSpec "erp.events" "invoice-processing" "invoice.#".

Definition step {A} (op : Registry → result error (A * Registry)) (r : Registry) : Registry :=
  match op r with Ok (_, r') => r' | Err _ => r end.

(** Two queues bound to a topic exchange. *)
Definition registry : Registry :=
  step (Registry_Bind bind_invoices 5)
    (step (Registry_Bind bind_audit 4)
      (step (Registry_DeclareQueue invoices 3)
        (step (Registry_DeclareQueue audit 2)
          (step (Registry_DeclareExchange events 1) NewRegistry)))).

Definition names (x : result error (list Queue)) : list string :=
  match x with Ok qs => q_Name <$> qs | Err _ => [] end.

Lemma reachable : rtc registry_step NewRegistry registry.
Proof.
  eapply rtc_l; [eapply (step_declare_exchange events 1); vm_compute; reflexivity|].
  eapply rtc_l; [eapply (step_declare_queue audit 2); vm_compute; reflexivity|].
  eapply rtc_l; [eapply (step_declare_queue invoices 3); vm_compute; reflexivity|].
  eapply rtc_l; [eapply (step_bind bind_audit 4); vm_compute; reflexivity|].
  eapply rtc_l; [eapply (step_bind bind_invoices 5); vm_compute; reflexivity|].
  apply rtc_refl.
Qed.

Lemma registry_is_ok : registry_ok registry.
Proof. apply registry_reachable_ok, reachable. Qed.
End Samples.


Lemma Route_correct_witness :
  match Registry_Route "erp.events" "invoice.issued" Samples.registry with
  | Ok qs => q_Name <$> qs = ["audit-log"; "invoice-processing"] ∧
             ∀ q, q ∈ qs ↔ reaches Samples.registry "erp.events" "invoice.issued" q
  | Err _ => False
  end.
Proof.
  pose proof (Route_correct Samples.registry "erp.events" "invoice.issued"
                Samples.registry_is_ok) as H.
  assert (Samples.names (Registry_Route "erp.events" "invoice.issued" Samples.registry)
          = ["audit-log"; "invoice-processing"]) as Hn by (vm_compute; reflexivity).
  destruct (Registry_Route "erp.events" "invoice.issued" Samples.registry) as [qs|err].
  - split; [exact Hn|]. by destruct H as (_ & _ & _ & H).
  - discriminate Hn.
Defined.

Lemma Bind_correct_witness :
  binding_specs Samples.registry "erp.events" = [Samples.bind_audit; Samples.bind_invoices] ∧
  ∀ now', Registry_Bind Samples.bind_invoices now' Samples.registry
          = Ok (mkBinding Samples.bind_invoices 5, Samples.registry).
Proof.
  split; [vm_compute; reflexivity|].
  refine (proj2 (proj2 (proj2 (Bind_correct Samples.registry Samples.bind_invoices 9
            (mkBinding Samples.bind_invoices 5) Samples.registry Samples.registry_is_ok _)))).
  vm_compute; reflexivity.
Defined.

Lemma Unbind_correct_witness :
  match Registry_Unbind Samples.bind_audit Samples.registry with
  | Ok r' => binding_specs r' "erp.events" = [Samples.bind_invoices] ∧
             Samples.bind_audit ∈ binding_specs Samples.registry "erp.events"
  | Err _ => False
  end.
Proof.
  pose proof (Unbind_correct Samples.registry Samples.bind_audit Samples.registry_is_ok
                eq_refl eq_refl) as H.
  assert (match Registry_Unbind Samples.bind_audit Samples.registry with
          | Ok r' => binding_specs r' "erp.events" | Err _ => [] end
          = [Samples.bind_invoices]) as Hs by (vm_compute; reflexivity).
  destruct (Registry_Unbind Samples.bind_audit Samples.registry) as [r'|err].
  - split; [exact Hs|]. by destruct H as (H & _).
  - discriminate Hs.
Defined.
