(* ===== verification/TimeProofs.v ===== *)
(** Texts of instants are faithful within four-digit years ([TimeText.v]). *)

From S2P Require Import Prelude Errors TimeText.

Local Open Scope Z_scope.

(** * Numbers *)

Lemma str_app_assoc (a b c : string) : (a +:+ b) +:+ c = a +:+ (b +:+ c).
Proof. induction a as [|x a IH]; [done|]. rewrite !str_app_cons. by f_equal. Qed.

Lemma N_of_digit n : N_of_ascii (digit n) = (48 + Z.to_N (n mod 10))%N.
Proof.
  unfold digit. apply N_ascii_embedding. pose proof (Z.mod_pos_bound n 10). lia.
Qed.

Lemma digit_value_digit n : digit_value (digit n) = Some (n mod 10).
Proof.
  unfold digit_value. rewrite N_of_digit. pose proof (Z.mod_pos_bound n 10 ltac:(lia)).
  rewrite N2Z.inj_add, Z2N.id by lia. rewrite (proj2 (Z.leb_le _ _)) by lia.
  rewrite (proj2 (Z.leb_le _ _)) by lia. simpl. f_equal. lia.
Qed.

Lemma digit_compare a b : Ascii.compare (digit a) (digit b) = (a mod 10 ?= b mod 10).
Proof.
  unfold Ascii.compare. rewrite !N_of_digit.
  pose proof (Z.mod_pos_bound a 10 ltac:(lia)). pose proof (Z.mod_pos_bound b 10 ltac:(lia)).
  rewrite <-N2Z.inj_compare, !N2Z.inj_add, !Z2N.id by lia. apply Z.add_compare_mono_l.
Qed.

Lemma read_digits_add w1 w2 acc s :
  read_digits (w1 + w2) acc s = read_digits w1 acc s ≫= fun '(a, s') => read_digits w2 a s'.
Proof.
  revert acc s. induction w1 as [|w1 IH]; intros acc s; [done|]. simpl.
  destruct s as [|c s]; [done|]. by destruct (digit_value c).
Qed.

(** Reading back the digits of a number. *)
Lemma read_digits_digits w n acc s :
  0 ≤ n < 10 ^ Z.of_nat w →
  read_digits w acc (digits w n +:+ s) = Some (acc * 10 ^ Z.of_nat w + n, s).
Proof.
  revert n acc s. induction w as [|w IH]; intros n acc s Hn.
  - simpl in *. f_equal. f_equal. lia.
  - cbn [digits]. rewrite str_app_assoc, str_app_cons.
    rewrite Nat2Z.inj_succ, Z.pow_succ_r in Hn |- * by lia.
    replace (S w) with (w + 1)%nat by lia. rewrite read_digits_add, IH.
    + simpl. rewrite digit_value_digit. f_equal. f_equal.
      pose proof (Z.div_mod n 10 ltac:(lia)). lia.
    + pose proof (Z.div_pos n 10). split; [lia|]. apply Z.div_lt_upper_bound; lia.
Qed.

(** Numbers of the same width compare as texts like as numbers. *)
Lemma digits_compare w a b s t :
  0 ≤ a < 10 ^ Z.of_nat w → 0 ≤ b < 10 ^ Z.of_nat w →
  String.compare (digits w a +:+ s) (digits w b +:+ t) =
  match a ?= b with Eq => String.compare s t | c => c end.
Proof.
  revert a b s t. induction w as [|w IH]; intros a b s t Ha Hb.
  - simpl in *. replace a with 0 by lia. by replace b with 0 by lia.
  - cbn [digits]. rewrite !str_app_assoc, !str_app_cons.
    rewrite Nat2Z.inj_succ, Z.pow_succ_r in Ha, Hb by lia.
    assert (0 ≤ a / 10 < 10 ^ Z.of_nat w ∧ 0 ≤ b / 10 < 10 ^ Z.of_nat w) as [Ha' Hb'].
    { split; (split; [apply Z.div_pos; lia|apply Z.div_lt_upper_bound; lia]). }
    rewrite IH, str_compare_cons, digit_compare by done. simpl.
    pose proof (Z.div_mod a 10 ltac:(lia)). pose proof (Z.div_mod b 10 ltac:(lia)).
    pose proof (Z.mod_pos_bound a 10 ltac:(lia)). pose proof (Z.mod_pos_bound b 10 ltac:(lia)).
    destruct (Z.compare_spec (a / 10) (b / 10)) as [E|E|E].
    + assert ((a mod 10 ?= b mod 10) = (a ?= b)) as <-.
      { destruct (Z.compare_spec a b), (Z.compare_spec (a mod 10) (b mod 10)); lia || done. }
      by destruct (a mod 10 ?= b mod 10).
    + by rewrite (proj2 (Z.compare_lt_iff a b)) by lia.
    + by rewrite (proj2 (Z.compare_gt_iff a b)) by lia.
Qed.

Lemma count_digits_le fuel w n : 0 ≤ n < 10 ^ Z.of_nat w → (count_digits fuel n ≤ w)%nat.
Proof.
  revert w n. induction fuel as [|fuel IH]; intros w n Hn; simpl; [lia|].
  destruct (Z.leb_spec n 0); [lia|]. destruct w as [|w]; [simpl in *; lia|].
  rewrite Nat2Z.inj_succ, Z.pow_succ_r in Hn by lia. apply le_n_S, IH.
  split; [apply Z.div_pos; lia|apply Z.div_lt_upper_bound; lia].
Qed.

Lemma appendInt_digits n w : 0 ≤ n < 10 ^ Z.of_nat w → appendInt n w = digits w n.
Proof.
  intros Hn. unfold appendInt. rewrite (proj2 (Z.ltb_ge n 0)), Z.abs_eq by lia.
  rewrite Nat.max_l; [done|]. by apply count_digits_le.
Qed.

(** * The calendar *)

Lemma days_before_next year : days_before_year (year + 1) = days_before_year year + year_length year.
Proof.
  unfold days_before_year, year_length, is_leap. cbv zeta. replace (year + 1 - 1) with year by lia.
  pose proof (Z.div_mod year 4 ltac:(lia)). pose proof (Z.div_mod year 100 ltac:(lia)).
  pose proof (Z.div_mod year 400 ltac:(lia)). pose proof (Z.div_mod (year - 1) 4 ltac:(lia)).
  pose proof (Z.div_mod (year - 1) 100 ltac:(lia)). pose proof (Z.div_mod (year - 1) 400 ltac:(lia)).
  pose proof (Z.mod_pos_bound year 4 ltac:(lia)). pose proof (Z.mod_pos_bound year 100 ltac:(lia)).
  pose proof (Z.mod_pos_bound year 400 ltac:(lia)). pose proof (Z.mod_pos_bound (year - 1) 4 ltac:(lia)).
  pose proof (Z.mod_pos_bound (year - 1) 100 ltac:(lia)). pose proof (Z.mod_pos_bound (year - 1) 400 ltac:(lia)).
  destruct (Z.eqb_spec (year mod 4) 0), (Z.eqb_spec (year mod 100) 0), (Z.eqb_spec (year mod 400) 0);
    simpl; lia.
Qed.

Lemma year_length_bounds year : 365 ≤ year_length year ≤ 366.
Proof. unfold year_length. case_match; lia. Qed.

Lemma days_before_mono y1 y2 : y1 < y2 → days_before_year y1 + year_length y1 ≤ days_before_year y2.
Proof.
  intros Hlt. assert (∃ n : nat, y2 = y1 + 1 + Z.of_nat n) as [n ->]
    by (exists (Z.to_nat (y2 - y1 - 1)); lia).
  clear Hlt. induction n as [|n IH].
  - rewrite Z.add_0_r, days_before_next. lia.
  - replace (y1 + 1 + Z.of_nat (S n)) with (y1 + 1 + Z.of_nat n + 1) by lia.
    rewrite days_before_next. pose proof (year_length_bounds (y1 + 1 + Z.of_nat n)). lia.
Qed.

Lemma year_day_spec days :
  let '(year, yday) := year_day days in
  days = days_before_year year + yday ∧ 0 ≤ yday < year_length year.
Proof.
  unfold year_day. set (a := days / 146097). set (d0 := days mod 146097).
  assert (days = 146097 * a + d0) as Hd by (apply Z.div_mod; lia).
  assert (0 ≤ d0 < 146097) as H0 by (apply Z.mod_pos_bound; lia).
  clearbody a d0. set (b := Z.min 3 (d0 / 36524)).
  assert (0 ≤ b ≤ 3 ∧ 36524 * b ≤ d0 ∧ (d0 < 36524 * (b + 1) ∨ b = 3)) as (Hb & Hb1 & Hb2).
  { pose proof (Z.div_mod d0 36524 ltac:(lia)). pose proof (Z.mod_pos_bound d0 36524 ltac:(lia)).
    pose proof (Z.div_pos d0 36524). lia. }
  clearbody b. set (d1 := d0 - 36524 * b). assert (0 ≤ d1 ≤ 36524 ∧ (d1 < 36524 ∨ b = 3)) as [H1 H1'] by lia.
  set (c := d1 / 1461). assert (0 ≤ c ≤ 24 ∧ 1461 * c ≤ d1 < 1461 * (c + 1)) as [Hc Hc1].
  { pose proof (Z.div_mod d1 1461 ltac:(lia)). pose proof (Z.mod_pos_bound d1 1461 ltac:(lia)). lia. }
  clearbody c. set (d2 := d1 - 1461 * c). assert (0 ≤ d2 < 1461) as H2 by lia.
  set (e := Z.min 3 (d2 / 365)).
  assert (0 ≤ e ≤ 3 ∧ 365 * e ≤ d2 ∧ (d2 < 365 * (e + 1) ∨ e = 3)) as (He & He1 & He2).
  { pose proof (Z.div_mod d2 365 ltac:(lia)). pose proof (Z.mod_pos_bound d2 365 ltac:(lia)).
    pose proof (Z.div_pos d2 365). lia. }
  clearbody e. set (y := 400 * a + 100 * b + 4 * c + e).
  assert (y / 4 = 100 * a + 25 * b + c) as Y4 by (symmetry; apply (Z.div_unique _ 4 _ e); lia).
  assert (y / 100 = 4 * a + b) as Y100 by (symmetry; apply (Z.div_unique _ 100 _ (4 * c + e)); lia).
  assert (y / 400 = a) as Y400 by (symmetry; apply (Z.div_unique _ 400 _ (100 * b + 4 * c + e)); lia).
  unfold days_before_year. replace (y + 1 - 1) with y by lia. rewrite Y4, Y100, Y400.
  split; [lia|]. split; [lia|].
  pose proof (year_length_bounds (y + 1)). unfold year_length in *.
  destruct (is_leap (y + 1)) eqn:Hleap; [lia|].
  destruct (decide (d2 - 365 * e = 365)) as [Hlast|]; [exfalso|lia].
  assert (e = 3) as -> by lia. assert ((y + 1) mod 4 = 0) as M4.
  { replace (y + 1) with ((100 * a + 25 * b + c + 1) * 4) by lia. apply Z_mod_mult. }
  unfold is_leap in Hleap. rewrite M4 in Hleap. simpl in Hleap.
  destruct (Z.eqb_spec ((y + 1) mod 100) 0) as [M100|]; [|done].
  assert (c = 24) as ->.
  { pose proof (Z.div_mod (y + 1) 100 ltac:(lia)). rewrite M100 in *. lia. }
  assert (b = 3) as -> by lia.
  assert ((y + 1) mod 400 = 0) as M400
    by (replace (y + 1) with ((a + 1) * 400) by lia; apply Z_mod_mult).
  by rewrite M400 in Hleap.
Qed.

(** Months and days of one year, checked day by day. *)
Definition check_yday (leap : bool) (yday : Z) : bool :=
  let lengths := month_lengths leap in
  let '(month, day) := month_of lengths 1 yday in
  (1 <=? month) && (month <=? 12) && (1 <=? day) && (day <=? nth (Z.to_nat (month - 1)) lengths 0) &&
  (day <=? 31) && (days_before_month lengths month + (day - 1) =? yday).

Lemma check_ydays (leap : bool) :
  forallb (fun n => check_yday leap (Z.of_nat n)) (seq 0 (if leap then 366 else 365)%nat) = true.
Proof. by destruct leap; vm_compute. Qed.

Lemma month_of_spec (leap : bool) (yday : Z) :
  0 ≤ yday < (if leap then 366 else 365) → check_yday leap yday = true.
Proof.
  intros Hy. pose proof (check_ydays leap) as Hall. rewrite forallb_forall in Hall.
  specialize (Hall (Z.to_nat yday)). rewrite Z2Nat.id in Hall by lia. apply Hall, in_seq.
  destruct leap; lia.
Qed.

(** A month ends before the next one begins. *)
Definition month_length (leap : bool) (month : Z) : Z :=
  nth (Z.to_nat (month - 1)) (month_lengths leap) 0.

Lemma month_order_table (leap : bool) :
  forallb (fun a => forallb (fun b =>
    (b <=? a)%nat || (days_before_month (month_lengths leap) (Z.of_nat a) + month_length leap (Z.of_nat a)
                        <=? days_before_month (month_lengths leap) (Z.of_nat b)))
    (seq 1 12)) (seq 1 12) = true.
Proof. by destruct leap; vm_compute. Qed.

Lemma days_before_month_mono (leap : bool) (m1 m2 : Z) :
  1 ≤ m1 → m1 < m2 → m2 ≤ 12 →
  days_before_month (month_lengths leap) m1 + month_length leap m1 ≤
  days_before_month (month_lengths leap) m2.
Proof.
  intros H1 Hlt H2. pose proof (month_order_table leap) as H. rewrite forallb_forall in H.
  specialize (H (Z.to_nat m1) ltac:(apply in_seq; lia)). rewrite forallb_forall in H.
  specialize (H (Z.to_nat m2) ltac:(apply in_seq; lia)).
  rewrite !Z2Nat.id in H by lia. apply orb_true_iff in H as [H|H].
  - apply Nat.leb_le in H. lia.
  - by apply Z.leb_le.
Qed.

(** * Instants as fields *)

Record fields := Fields {
  f_year : Z; f_month : Z; f_day : Z; f_hour : Z; f_min : Z; f_sec : Z; f_nsec : Z;
}.

Definition fields_ok (f : fields) : Prop :=
  0 ≤ f_year f < 10 ^ 4 ∧ 1 ≤ f_month f ≤ 12 ∧
  1 ≤ f_day f ≤ month_length (is_leap (f_year f)) (f_month f) ∧ f_day f ≤ 31 ∧
  0 ≤ f_hour f < 24 ∧ 0 ≤ f_min f < 60 ∧ 0 ≤ f_sec f < 60 ∧ 0 ≤ f_nsec f < 10 ^ 9.

Definition fields_text (f : fields) : string :=
  digits 4 (f_year f) +:+ "-" +:+ digits 2 (f_month f) +:+ "-" +:+ digits 2 (f_day f) +:+ "T" +:+
  digits 2 (f_hour f) +:+ ":" +:+ digits 2 (f_min f) +:+ ":" +:+ digits 2 (f_sec f) +:+ "." +:+
  digits 9 (f_nsec f) +:+ "Z".

Definition fields_time (f : fields) : Time :=
  make_time (f_year f) (f_month f) (f_day f) (f_hour f) (f_min f) (f_sec f) (f_nsec f).

(** The day within its year. *)
Lemma day_of_year (leap : bool) (m d : Z) :
  1 ≤ m ≤ 12 → 1 ≤ d ≤ month_length leap m →
  0 ≤ days_before_month (month_lengths leap) m + (d - 1) < (if leap then 366 else 365).
Proof.
  intros Hm Hd. assert (0 ≤ days_before_month (month_lengths leap) m ∧
    days_before_month (month_lengths leap) m + month_length leap m ≤ (if leap then 366 else 365)); [|lia].
  assert (m = 1 ∨ m = 2 ∨ m = 3 ∨ m = 4 ∨ m = 5 ∨ m = 6 ∨ m = 7 ∨ m = 8 ∨ m = 9 ∨ m = 10 ∨
          m = 11 ∨ m = 12) as Hcases by lia.
  clear Hd Hm. destruct_or! Hcases; subst; destruct leap; vm_compute; split; discriminate.
Qed.

Lemma year_in_range (days year yday : Z) :
  -366 ≤ days < 3652059 → days = days_before_year year + yday → 0 ≤ yday < year_length year →
  0 ≤ year < 10 ^ 4.
Proof.
  intros Hb Hdays Hyday. assert (days_before_year 0 = -366) as H0 by done.
  assert (days_before_year (10 ^ 4) = 3652059) as H9 by done. split.
  - destruct (Z.lt_ge_cases year 0) as [Hlt|]; [|done].
    pose proof (days_before_mono year 0 Hlt). lia.
  - destruct (Z.lt_ge_cases year (10 ^ 4)) as [|Hge]; [done|].
    destruct (Z.eq_dec year (10 ^ 4)) as [->|]; [lia|].
    pose proof (days_before_mono (10 ^ 4) year ltac:(lia)).
    pose proof (year_length_bounds (10 ^ 4)). lia.
Qed.

(** Seconds of the day and nanoseconds of the second. *)
Lemma split_day u :
  let secs := u mod day_ns / second_ns in
  0 ≤ secs < 86400 ∧ 0 ≤ u mod second_ns < 10 ^ 9 ∧
  u = u / day_ns * day_ns + secs * second_ns + u mod second_ns.
Proof.
  intros secs. pose proof (Z.mod_pos_bound u day_ns ltac:(done)). split_and!.
  - subst secs. apply Z.div_pos; [lia|done].
  - subst secs. unfold day_ns, second_ns in *. apply Z.div_lt_upper_bound; lia.
  - by apply Z.mod_pos_bound.
  - by apply Z.mod_pos_bound.
  - subst secs. pose proof (Z.div_mod u day_ns ltac:(done)).
    pose proof (Z.div_mod (u mod day_ns) second_ns ltac:(done)).
    assert ((u mod day_ns) mod second_ns = u mod second_ns) as Hmm.
    { unfold day_ns. rewrite Z.mul_comm. rewrite Z.rem_mul_r by done. rewrite Z.mul_comm.
      rewrite Z_mod_plus_full, Z.mod_mod; done. }
    lia.
Qed.

Lemma split_seconds secs :
  0 ≤ secs < 86400 →
  secs = secs / 3600 * 3600 + secs mod 3600 / 60 * 60 + secs mod 60 ∧
  0 ≤ secs / 3600 < 24 ∧ 0 ≤ secs mod 3600 / 60 < 60 ∧ 0 ≤ secs mod 60 < 60.
Proof.
  intros Hs. pose proof (Z.div_mod secs 3600 ltac:(lia)). pose proof (Z.mod_pos_bound secs 3600 ltac:(lia)).
  pose proof (Z.div_mod (secs mod 3600) 60 ltac:(lia)).
  pose proof (Z.mod_pos_bound (secs mod 3600) 60 ltac:(lia)).
  assert ((secs mod 3600) mod 60 = secs mod 60)
    by (apply (Z.mod_unique _ _ (60 * (secs / 3600) + secs mod 3600 / 60)); lia).
  lia.
Qed.

(** Instants and their fields. *)
Lemma fields_of_time t :
  time_in_range t → ∃ f, fields_ok f ∧ formatTime t = fields_text f ∧ t = fields_time f.
Proof.
  intros Hr. unfold formatTime. set (u := t - zeroTime).
  pose proof (year_day_spec (u / day_ns)) as Hy. destruct (year_day (u / day_ns)) as [year yday].
  destruct Hy as [Hdays Hyday].
  assert (0 ≤ year < 10 ^ 4) as Hyear.
  { apply (year_in_range (u / day_ns) year yday); [|done..]. unfold time_in_range, u in *.
    unfold day_ns, second_ns in *. split; [apply Z.div_le_lower_bound|apply Z.div_lt_upper_bound]; lia. }
  pose proof (month_of_spec (is_leap year) yday Hyday) as Hm. unfold check_yday in Hm.
  destruct (month_of (month_lengths (is_leap year)) 1 yday) as [month day].
  rewrite !andb_true_iff, !Z.leb_le, Z.eqb_eq in Hm. destruct Hm as [[[[[? ?] ?] ?] ?] Hmd].
  destruct (split_day u) as (Hs & Hn & Hu). set (secs := u mod day_ns / second_ns) in *.
  destruct (split_seconds secs Hs) as (Hsecs & Hh & Hmi & Hse).
  exists (Fields year month day (secs / 3600) (secs mod 3600 / 60) (secs mod 60) (u mod second_ns)).
  split_and!; unfold fields_ok, fields_text, fields_time, make_time;
    cbn [f_year f_month f_day f_hour f_min f_sec f_nsec].
  - unfold month_length; lia.
  - by rewrite !appendInt_digits by (simpl; lia).
  - rewrite <-Hsecs. replace (days_before_year year + days_before_month (month_lengths (is_leap year)) month
      + (day - 1)) with (u / day_ns) by lia. unfold u in *. lia.
Qed.

(** * Reading back *)

Lemma read_char_app c s : read_char c (String c "" +:+ s) = Some s.
Proof. rewrite str_app_cons. simpl. by rewrite decide_True. Qed.

Lemma parse_fields f : fields_ok f → time_Parse (fields_text f) = Some (fields_time f).
Proof.
  intros (Hy & Hm & Hd & Hd31 & Hh & Hmi & Hs & Hn). unfold time_Parse, fields_text.
  rewrite read_digits_digits by (simpl; lia). cbn [mbind option_bind].
  repeat (rewrite read_char_app; cbn [mbind option_bind];
          rewrite read_digits_digits by (simpl; lia); cbn [mbind option_bind]).
  change (read_char "Z" "Z") with (Some ""). cbn [mbind option_bind]. rewrite !Z.mul_0_l, !Z.add_0_l.
  fold (month_length (is_leap (f_year f)) (f_month f)).
  rewrite !(proj2 (Z.leb_le _ _)), !(proj2 (Z.ltb_lt _ _)) by lia. done.
Qed.

Lemma fields_text_nonempty f : str_empty (fields_text f) = false.
Proof. done. Qed.

(** * Order *)

Definition lex (c d : comparison) : comparison := match c with Eq => d | _ => c end.

Lemma sep_compare c s t : String.compare (String c "" +:+ s) (String c "" +:+ t) = String.compare s t.
Proof.
  rewrite !str_app_cons, str_compare_cons. unfold Ascii.compare. by rewrite N.compare_refl.
Qed.

Definition fields_compare (f g : fields) : comparison :=
  lex (f_year f ?= f_year g) (lex (f_month f ?= f_month g) (lex (f_day f ?= f_day g)
  (lex (f_hour f ?= f_hour g) (lex (f_min f ?= f_min g) (lex (f_sec f ?= f_sec g)
  (f_nsec f ?= f_nsec g)))))).

Lemma text_compare f g :
  fields_ok f → fields_ok g → String.compare (fields_text f) (fields_text g) = fields_compare f g.
Proof.
  intros (Hy & Hm & Hd & Hd31 & Hh & Hmi & Hs & Hn) (Hy' & Hm' & Hd' & Hd31' & Hh' & Hmi' & Hs' & Hn').
  unfold fields_text, fields_compare, lex.
  repeat (rewrite digits_compare by (simpl; lia); rewrite sep_compare).
  rewrite digits_compare by (simpl; lia). simpl (String.compare "Z" "Z").
  by repeat case_match.
Qed.

Lemma fields_time_lt f g :
  fields_ok f → fields_ok g → fields_compare f g = Lt → fields_time f < fields_time g.
Proof.
  intros (Hy & Hm & Hd & Hd31 & Hh & Hmi & Hs & Hn) (Hy' & Hm' & Hd' & Hd31' & Hh' & Hmi' & Hs' & Hn').
  pose proof (day_of_year (is_leap (f_year f)) _ _ Hm Hd) as Hf.
  pose proof (day_of_year (is_leap (f_year g)) _ _ Hm' Hd') as Hg.
  unfold fields_time, make_time, fields_compare, lex in *.
  destruct f as [y m d h mi s n], g as [y' m' d' h' mi' s' n'].
  cbn [f_year f_month f_day f_hour f_min f_sec f_nsec] in *.
  unfold day_ns, second_ns in *. fold (year_length y) (year_length y') in *.
  destruct (Z.compare_spec y y') as [->|Hlt|]; [|intros _|done].
  2:{ pose proof (days_before_mono y y' Hlt). lia. }
  destruct (Z.compare_spec m m') as [->|Hlt|]; [|intros _|done].
  2:{ pose proof (days_before_month_mono (is_leap y') m m' ltac:(lia) Hlt ltac:(lia)). lia. }
  repeat match goal with
  | |- context [match ?a ?= ?b with _ => _ end] => destruct (Z.compare_spec a b); subst
  end; intros Hc; rewrite ?Z.compare_lt_iff in Hc; lia || done.
Qed.

Lemma fields_compare_time f g :
  fields_ok f → fields_ok g → fields_compare f g = (fields_time f ?= fields_time g).
Proof.
  intros Hf Hg. destruct (fields_compare f g) eqn:Hc; symmetry.
  - apply Z.compare_eq_iff. destruct f, g. unfold fields_compare, lex in Hc. simpl in Hc.
    repeat case_match; try done. by rewrite ->?Z.compare_eq_iff in *; subst.
  - by apply Z.compare_lt_iff, fields_time_lt.
  - apply Z.compare_gt_iff, fields_time_lt; [done..|]. unfold fields_compare, lex in *.
    rewrite (Z.compare_antisym (f_year f)), (Z.compare_antisym (f_month f)),
      (Z.compare_antisym (f_day f)), (Z.compare_antisym (f_hour f)), (Z.compare_antisym (f_min f)),
      (Z.compare_antisym (f_sec f)), (Z.compare_antisym (f_nsec f)).
    destruct (f_year f ?= f_year g); [|done..]. destruct (f_month f ?= f_month g); [|done..].
    destruct (f_day f ?= f_day g); [|done..]. destruct (f_hour f ?= f_hour g); [|done..].
    destruct (f_min f ?= f_min g); [|done..]. destruct (f_sec f ?= f_sec g); [|done..].
    by destruct (f_nsec f ?= f_nsec g).
Qed.

(** * The text columns *)

Lemma parseTime_formatTime t : time_in_range t → parseTime (formatTime t) = Ok t.
Proof.
  intros (f & Hf & -> & ->)%fields_of_time. unfold parseTime.
  by rewrite fields_text_nonempty, parse_fields.
Qed.

Lemma formatTime_compare s t :
  time_in_range s → time_in_range t → String.compare (formatTime s) (formatTime t) = (s ?= t).
Proof.
  intros (f & Hf & -> & ->)%fields_of_time (g & Hg & -> & ->)%fields_of_time.
  by rewrite text_compare, fields_compare_time.
Qed.
