(* ===== verification/HeaderJson.v ===== *)
(** Message headers as JSON text: [encodeHeaders] and [decodeHeaders] of
    [internal/storage/sqlite/messages.go], with what they use of encoding/json.

    [json.Marshal] of a [map[string]string] writes the members sorted by key
    and escapes quotes, backslashes, control bytes, [<], [>], [&], U+2028 and
    U+2029; a byte that is not part of valid UTF-8 becomes U+FFFD, so headers
    survive the round trip exactly when they are valid UTF-8 ([text_ok]).

    [json.Unmarshal] is modelled on the texts of this column, which are the
    ones [encodeHeaders] wrote: objects of string members without white space.
    The model reports other texts as errors. *)

From S2P Require Import Prelude Errors.

Local Open Scope N_scope.

(** * UTF-8 *)

Definition within (lo hi : N) (c : ascii) : bool :=
  let n := N_of_ascii c in (lo <=? n) && (n <=? hi).

Definition ascii_byte (c : ascii) : bool := within 0 127 c.
Definition cont_byte (c : ascii) : bool := within 128 191 c.

(** The well-formed sequences of two, three and four bytes
    (package unicode/utf8: [first] and [acceptRanges]). *)
Definition rune2 (a b : ascii) : bool := within 194 223 a && cont_byte b.
Definition rune3 (a b c : ascii) : bool :=
  ((within 224 224 a && within 160 191 b) || (within 225 236 a && cont_byte b) ||
   (within 237 237 a && within 128 159 b) || (within 238 239 a && cont_byte b)) && cont_byte c.
Definition rune4 (a b c d : ascii) : bool :=
  ((within 240 240 a && within 144 191 b) || (within 241 243 a && cont_byte b) ||
   (within 244 244 a && within 128 143 b)) && cont_byte c && cont_byte d.

(** [utf8.ValidString] *)
Fixpoint utf8_valid (s : string) : bool :=
  match s with
  | "" => true
  | String a s1 =>
      if ascii_byte a then utf8_valid s1 else
      match s1 with
      | "" => false
      | String b s2 =>
          if rune2 a b then utf8_valid s2 else
          match s2 with
          | "" => false
          | String c s3 =>
              if rune3 a b c then utf8_valid s3 else
              match s3 with
              | "" => false
              | String d s4 => if rune4 a b c d then utf8_valid s4 else false
              end
          end
      end
  end.

(** * Strings *)

Definition byte (n : N) : ascii := ascii_of_N n.
Definition hex2 (n : N) : string := String (hex_digit (n / 16)) (String (hex_digit (n mod 16)) "").

(** The bytes below 0x80 that encoding/json writes as they are ([htmlSafeSet]). *)
Definition html_safe (c : ascii) : bool :=
  let n := N_of_ascii c in
  (32 <=? n) && negb ((n =? 34) || (n =? 92) || (n =? 38) || (n =? 60) || (n =? 62)).

Definition escape (c : ascii) : string :=
  let n := N_of_ascii c in
  if html_safe c then String c ""
  else if (n =? 92) || (n =? 34) then String (byte 92) (String c "")
  else if n =? 8 then "\b" else if n =? 12 then "\f" else if n =? 10 then "\n"
  else if n =? 13 then "\r" else if n =? 9 then "\t"
  else "\u00" +:+ hex2 n.

(** U+2028 and U+2029 *)
Definition line_separator (a b c : ascii) : bool :=
  within 226 226 a && within 128 128 b && within 168 169 c.

(** encoding/json: [appendString] between the quotes. *)
Fixpoint json_body (s : string) : string :=
  match s with
  | "" => ""
  | String a s1 =>
      if ascii_byte a then escape a +:+ json_body s1 else
      match s1 with
      | "" => "\ufffd"
      | String b s2 =>
          if rune2 a b then String a (String b (json_body s2)) else
          match s2 with
          | "" => "\ufffd" +:+ json_body s1
          | String c s3 =>
              if rune3 a b c then
                if line_separator a b c
                then "\u202" +:+ String (hex_digit (N_of_ascii c mod 16)) (json_body s3)
                else String a (String b (String c (json_body s3)))
              else
              match s3 with
              | "" => "\ufffd" +:+ json_body s1
              | String d s4 =>
                  if rune4 a b c d then String a (String b (String c (String d (json_body s4))))
                  else "\ufffd" +:+ json_body s1
              end
          end
      end
  end.

Definition json_string (s : string) : string := dquote +:+ json_body s +:+ dquote.

(** [utf8.AppendRune] for the code points of four hexadecimal digits; a
    surrogate becomes U+FFFD. *)
Definition encode_rune (n : N) : string :=
  if n <? 128 then String (byte n) ""
  else if n <? 2048 then String (byte (192 + n / 64)) (String (byte (128 + n mod 64)) "")
  else
    let n := if (55296 <=? n) && (n <=? 57343) then 65533 else n in
    String (byte (224 + n / 4096))
      (String (byte (128 + n / 64 mod 64)) (String (byte (128 + n mod 64)) "")).

Definition hex4 (a b c d : ascii) : option N :=
  a ← hex_value a; b ← hex_value b; c ← hex_value c; d ← hex_value d;
  Some (4096 * a + 256 * b + 16 * c + d).

(** The byte an escape letter stands for. *)
Definition unescape (c : ascii) : option ascii :=
  let n := N_of_ascii c in
  if (n =? 34) || (n =? 92) || (n =? 47) then Some c
  else if n =? 98 then Some (byte 8) else if n =? 102 then Some (byte 12)
  else if n =? 110 then Some (byte 10) else if n =? 114 then Some (byte 13)
  else if n =? 116 then Some (byte 9) else None.

Definition prepend (pre : string) (r : option (string * string)) : option (string * string) :=
  '(body, rest) ← r; Some (pre +:+ body, rest).

(** The value of a string up to its closing quote, and the text after it. *)
Fixpoint read_body (s : string) : option (string * string) :=
  match s with
  | "" => None
  | String a s1 =>
      let n := N_of_ascii a in
      if n =? 34 then Some ("", s1)
      else if n =? 92 then
        match s1 with
        | "" => None
        | String e s2 =>
            if N_of_ascii e =? 117 then
              match s2 with
              | String h1 (String h2 (String h3 (String h4 s6))) =>
                  match hex4 h1 h2 h3 h4 with
                  | Some r => prepend (encode_rune r) (read_body s6)
                  | None => None
                  end
              | _ => None
              end
            else match unescape e with
            | Some b => prepend (String b "") (read_body s2)
            | None => None
            end
        end
      else if n <? 32 then None
      else prepend (String a "") (read_body s1)
  end.

Definition read_byte (n : N) (s : string) : option string :=
  match s with
  | String c s' => if N_of_ascii c =? n then Some s' else None
  | "" => None
  end.

Definition read_string (s : string) : option (string * string) :=
  s ← read_byte 34 s; read_body s.

(** * Objects *)

Definition json_member (kv : string * string) : string :=
  json_string kv.1 +:+ ":" +:+ json_string kv.2.

Definition json_Marshal (headers : gmap string string) : result error string :=
  Ok ("{" +:+ str_join "," (json_member <$> sort_by fst (map_to_list headers)) +:+ "}").

(** The members of an object after its opening brace; [fuel] bounds their
    number, and every member takes at least one byte. *)
Fixpoint read_members (fuel : nat) (s : string) : option (list (string * string) * string) :=
  match fuel with
  | O => None
  | S fuel' =>
      '(k, s) ← read_string s; s ← read_byte 58 s; '(v, s) ← read_string s;
      match read_byte 44 s with
      | Some s => '(kvs, s) ← read_members fuel' s; Some ((k, v) :: kvs, s)
      | None => s ← read_byte 125 s; Some ([(k, v)], s)
      end
  end.

(** The members are assigned one after the other. *)
Definition json_Unmarshal (raw : string) : option (gmap string string) :=
  s ← read_byte 123 raw; '(kvs, s) ← read_members (String.length s) s;
  if str_empty s then Some (foldl (fun m kv => <[kv.1 := kv.2]> m) ∅ kvs) else None.

(** * The column *)

Definition encodeHeaders (headers : gmap string string) : result error string :=
  if decide (size headers = 0%nat) then Ok "{}"
  else match json_Marshal headers with
  | Err e => Err (wrapError "sqlite: encode headers: " e "")
  | Ok encoded => Ok encoded
  end.

Definition decodeHeaders (raw : string) : result error (gmap string string) :=
  if str_empty raw || bool_decide (raw = "{}") then Ok ∅
  else match json_Unmarshal raw with
  | Some headers => Ok headers
  | None => Err (wrapError "sqlite: decode headers: " (errorString "invalid JSON") "")
  end.

(** Texts that survive the column. *)
Definition text_ok (headers : gmap string string) : Prop :=
  map_Forall (fun k v => utf8_valid k = true ∧ utf8_valid v = true) headers.

#[export] Instance text_ok_dec headers : Decision (text_ok headers).
Proof. unfold text_ok. apply _. Defined.
