(* ===== verification/HeaderProofs.v ===== *)
(** Headers survive their JSON text ([HeaderJson.v]). *)

From S2P Require Import Prelude Errors TimeProofs HeaderJson.

Local Open Scope N_scope.

(** * UTF-8 texts, rune by rune *)

Lemma utf8_ind (P : string → Prop) :
  P "" →
  (∀ a s, ascii_byte a = true → P s → P (String a s)) →
  (∀ a b s, ascii_byte a = false → rune2 a b = true → P s → P (String a (String b s))) →
  (∀ a b c s, ascii_byte a = false → rune2 a b = false → rune3 a b c = true → P s →
     P (String a (String b (String c s)))) →
  (∀ a b c d s, ascii_byte a = false → rune2 a b = false → rune3 a b c = false →
     rune4 a b c d = true → P s → P (String a (String b (String c (String d s))))) →
  ∀ s, utf8_valid s = true → P s.
Proof.
  intros H0 H1 H2 H3 H4. fix IH 1. intros [|a s1]; [done|]. simpl.
  destruct (ascii_byte a) eqn:Ha; [intros ?; apply H1; auto|].
  destruct s1 as [|b s2]; [done|]. destruct (rune2 a b) eqn:Hb; [intros ?; apply H2; auto|].
  destruct s2 as [|c s3]; [done|]. destruct (rune3 a b c) eqn:Hc; [intros ?; apply H3; auto|].
  destruct s3 as [|d s4]; [done|]. destruct (rune4 a b c d) eqn:Hd; [intros ?; apply H4; auto|done].
Qed.

Lemma within_spec lo hi c : within lo hi c = true ↔ lo ≤ N_of_ascii c ≤ hi.
Proof. unfold within. by rewrite andb_true_iff, !N.leb_le. Qed.

Lemma within_false lo hi c : within lo hi c = false → N_of_ascii c < lo ∨ hi < N_of_ascii c.
Proof. unfold within. rewrite andb_false_iff, !N.leb_gt. lia. Qed.

Lemma high_byte a : ascii_byte a = false → 128 ≤ N_of_ascii a.
Proof. intros [?|?]%within_false; lia. Qed.

Lemma cont_high c : cont_byte c = true → 128 ≤ N_of_ascii c.
Proof. intros ?%within_spec. lia. Qed.

Lemma rune2_high a b : rune2 a b = true → 128 ≤ N_of_ascii b.
Proof. intros [_ ?%cont_high]%andb_true_iff. done. Qed.

Lemma rune3_high a b c : rune3 a b c = true → 128 ≤ N_of_ascii b ∧ 128 ≤ N_of_ascii c.
Proof.
  intros [Hb ?%cont_high]%andb_true_iff. split; [|done].
  rewrite !orb_true_iff, !andb_true_iff in Hb.
  unfold cont_byte in Hb. rewrite !within_spec in Hb. lia.
Qed.

Lemma rune4_high a b c d :
  rune4 a b c d = true → 128 ≤ N_of_ascii b ∧ 128 ≤ N_of_ascii c ∧ 128 ≤ N_of_ascii d.
Proof.
  intros [[Hb ?%cont_high]%andb_true_iff ?%cont_high]%andb_true_iff. split; [|done].
  rewrite !orb_true_iff, !andb_true_iff in Hb.
  unfold cont_byte in Hb. rewrite !within_spec in Hb. lia.
Qed.

(** * Strings *)

Lemma str_app_nil s : s +:+ "" = s.
Proof. induction s as [|c s IH]; [done|]. by rewrite str_app_cons, IH. Qed.

Lemma prepend_prepend p q r : prepend p (prepend q r) = prepend (p +:+ q) r.
Proof. destruct r as [[b t]|]; simpl; [|done]. by rewrite str_app_assoc. Qed.

Lemma read_raw a s :
  128 ≤ N_of_ascii a → read_body (String a s) = prepend (String a "") (read_body s).
Proof.
  intros Ha. cbn [read_body]. rewrite !(proj2 (N.eqb_neq _ _)) by lia.
  by rewrite (proj2 (N.ltb_ge _ _)) by lia.
Qed.

(** Reading back what was written for a byte below 0x80, one case per byte. *)
Lemma read_escape a s :
  ascii_byte a = true → read_body (escape a +:+ s) = prepend (String a "") (read_body s).
Proof. destruct a as [[] [] [] [] [] [] [] []]; intros Ha; first [discriminate Ha|reflexivity]. Qed.

Lemma line_separator_bytes a b c :
  line_separator a b c = true →
  a = byte 226 ∧ b = byte 128 ∧ (c = byte 168 ∨ c = byte 169).
Proof.
  unfold line_separator, byte. rewrite !andb_true_iff, !within_spec. intros [[Ha Hb] Hc].
  rewrite <-(ascii_N_embedding a), <-(ascii_N_embedding b), <-(ascii_N_embedding c).
  replace (N_of_ascii a) with 226 by lia. replace (N_of_ascii b) with 128 by lia.
  split_and!; [done..|].
  assert (N_of_ascii c = 168 ∨ N_of_ascii c = 169) as [-> | ->] by lia; auto.
Qed.

Lemma read_line_separator a b c s :
  line_separator a b c = true →
  read_body ("\u202" +:+ String (hex_digit (N_of_ascii c mod 16)) s) =
  prepend (String a (String b (String c ""))) (read_body s).
Proof. by intros (-> & -> & [-> | ->])%line_separator_bytes. Qed.

Lemma read_json_body s t :
  utf8_valid s = true → read_body (json_body s +:+ dquote +:+ t) = Some (s, t).
Proof.
  revert s. apply utf8_ind.
  - done.
  - intros a s Ha IH. cbn [json_body]. rewrite Ha, str_app_assoc, read_escape, IH by done. done.
  - intros a b s Ha Hb IH. cbn [json_body]. rewrite Ha, Hb, !str_app_cons.
    rewrite !read_raw by eauto using high_byte, rune2_high. by rewrite IH.
  - intros a b c s Ha Hb Hc IH. cbn [json_body]. rewrite Ha, Hb, Hc.
    destruct (line_separator a b c) eqn:Hl.
    + by rewrite str_app_assoc, (str_app_cons (hex_digit _)), (read_line_separator a b c), IH.
    + apply high_byte in Ha. apply rune3_high in Hc as [??].
      rewrite !str_app_cons, !read_raw, IH by done. done.
  - intros a b c d s Ha Hb Hc Hd IH. cbn [json_body]. rewrite Ha, Hb, Hc, Hd. apply high_byte in Ha.
    apply rune4_high in Hd as (? & ? & ?). rewrite !str_app_cons, !read_raw, IH by done. done.
Qed.

Lemma read_json_string s t :
  utf8_valid s = true → read_string (json_string s +:+ t) = Some (s, t).
Proof.
  intros Hs. unfold json_string, read_string. rewrite !str_app_assoc. cbn [mbind option_bind].
  change (read_byte 34 (dquote +:+ json_body s +:+ dquote +:+ t)) with
    (Some (json_body s +:+ dquote +:+ t)). cbn [mbind option_bind]. by apply read_json_body.
Qed.

(** * Objects *)

Definition member_ok (kv : string * string) : Prop :=
  utf8_valid kv.1 = true ∧ utf8_valid kv.2 = true.

Lemma read_comma s : read_byte 44 ("," +:+ s) = Some s.
Proof. done. Qed.
Lemma read_brace s : read_byte 123 ("{" +:+ s) = Some s.
Proof. done. Qed.

Lemma read_members_join fuel kvs t :
  kvs ≠ [] → (length kvs ≤ fuel)%nat → Forall member_ok kvs →
  read_members fuel (str_join "," (json_member <$> kvs) +:+ "}" +:+ t) = Some (kvs, t).
Proof.
  revert fuel. induction kvs as [|[k v] kvs IH]; intros fuel Hne Hlen Hok; [done|].
  destruct fuel as [|fuel]; [simpl in Hlen; lia|]. apply Forall_cons in Hok as [[Hk Hv] Hok].
  assert (∀ rest, read_members (S fuel) (json_member (k, v) +:+ rest) =
    match read_byte 44 rest with
    | Some s => '(kvs, s) ← read_members fuel s; Some ((k, v) :: kvs, s)
    | None => s ← read_byte 125 rest; Some ([(k, v)], s)
    end) as Hstep.
  { intros rest. cbn [read_members]. unfold json_member; cbn [fst snd].
    rewrite !str_app_assoc, read_json_string by done. cbn [mbind option_bind].
    change (read_byte 58 (":" +:+ json_string v +:+ rest)) with (Some (json_string v +:+ rest)).
    cbn [mbind option_bind]. rewrite read_json_string by done. done. }
  destruct kvs as [|kv kvs].
  - cbn [fmap list_fmap str_join]. rewrite Hstep. done.
  - change (str_join "," (json_member <$> (k, v) :: kv :: kvs)) with
      (json_member (k, v) +:+ "," +:+ str_join "," (json_member <$> kv :: kvs)).
    rewrite !str_app_assoc, Hstep.
    rewrite read_comma.
    rewrite IH; [done|done|simpl in *; lia|done].
Qed.

Lemma str_length_app s t : String.length (s +:+ t) = (String.length s + String.length t)%nat.
Proof. induction s as [|c s IH]; [done|]. rewrite str_app_cons. simpl. by rewrite IH. Qed.

Lemma members_length kvs :
  (length kvs ≤ String.length (str_join "," (json_member <$> kvs)))%nat.
Proof.
  assert (∀ kv, (1 ≤ String.length (json_member kv))%nat) as H1.
  { intros kv. unfold json_member, json_string. rewrite !str_length_app. simpl. lia. }
  induction kvs as [|kv [|kv' kvs] IH]; [simpl; lia|apply H1|].
  change (str_join "," (json_member <$> kv :: kv' :: kvs)) with
    (json_member kv +:+ "," +:+ str_join "," (json_member <$> kv' :: kvs)).
  rewrite !str_length_app. specialize (H1 kv). simpl length in *. simpl String.length in *. lia.
Qed.

Lemma foldl_insert_lookup (kvs : list (string * string)) (m : gmap string string) k :
  NoDup kvs.*1 →
  foldl (fun m kv => <[kv.1 := kv.2]> m) m kvs !! k =
  match (list_to_map kvs : gmap string string) !! k with Some v => Some v | None => m !! k end.
Proof.
  revert m. induction kvs as [|[k' v] kvs IH]; intros m Hnd; [done|].
  apply NoDup_cons in Hnd as [Hni Hnd]. cbn [foldl fst snd]. rewrite IH by done.
  simpl. rewrite !lookup_insert. destruct (decide (k' = k)) as [->|Hne]; [|done].
  by rewrite (not_elem_of_list_to_map_1 kvs k Hni).
Qed.

Lemma assign_members (headers : gmap string string) :
  foldl (fun (m : gmap string string) kv => <[kv.1 := kv.2]> m) ∅ (sort_by fst (map_to_list headers)) = headers.
Proof.
  pose proof (sort_by_perm fst (map_to_list headers)) as Hp.
  assert (NoDup (sort_by fst (map_to_list headers)).*1) as Hnd
    by (rewrite Hp; apply NoDup_fst_map_to_list).
  apply map_eq. intros k. rewrite foldl_insert_lookup by done.
  rewrite (list_to_map_proper _ _ Hnd Hp), list_to_map_to_list, lookup_empty.
  by destruct (headers !! k).
Qed.

Lemma Unmarshal_Marshal headers :
  text_ok headers → headers ≠ ∅ →
  ∃ raw, json_Marshal headers = Ok raw ∧ json_Unmarshal raw = Some headers.
Proof.
  intros Hok Hne. set (kvs := sort_by fst (map_to_list headers)).
  pose proof (sort_by_perm fst (map_to_list headers)) as Hp. fold kvs in Hp.
  assert (kvs ≠ []) as Hkne.
  { intros E. apply Hne, map_to_list_empty_iff. rewrite E in Hp. by apply Permutation_nil_r. }
  assert (Forall member_ok kvs) as Hkok.
  { apply Forall_forall. intros [k v] Hin. rewrite Hp, elem_of_map_to_list in Hin. by apply (Hok k v). }
  eexists. split; [done|]. unfold json_Unmarshal. fold kvs.
  rewrite read_brace. cbn [mbind option_bind].
  rewrite (read_members_join _ kvs ""); [|done| |done].
  - simpl. f_equal. apply assign_members.
  - pose proof (members_length kvs). rewrite str_length_app. lia.
Qed.

(** * The column *)

Lemma json_not_empty headers raw :
  json_Marshal headers = Ok raw → headers ≠ ∅ → text_ok headers → raw ≠ "" ∧ raw ≠ "{}".
Proof.
  intros Hm Hne Hok. destruct (Unmarshal_Marshal headers Hok Hne) as (raw' & Hm' & Hu).
  assert (raw' = raw) as -> by congruence. by split; intros ->.
Qed.

Lemma decode_encodeHeaders headers :
  text_ok headers → ∃ raw, encodeHeaders headers = Ok raw ∧ decodeHeaders raw = Ok headers.
Proof.
  intros Hok. unfold encodeHeaders. case_decide as Hsz.
  { exists "{}". apply map_size_empty_inv in Hsz as ->. done. }
  assert (headers ≠ ∅) as Hne by (intros ->; by rewrite map_size_empty in Hsz).
  destruct (Unmarshal_Marshal headers Hok Hne) as (raw & Hm & Hu). rewrite Hm.
  exists raw. split; [done|]. unfold decodeHeaders. rewrite Hu.
  destruct (json_not_empty headers raw Hm Hne Hok) as [Hn1 Hn2].
  rewrite bool_decide_eq_false_2 by done. by destruct raw.
Qed.

(** Encoding a map of strings cannot fail. *)
Lemma encodeHeaders_Ok headers : ∃ raw, encodeHeaders headers = Ok raw.
Proof. unfold encodeHeaders, json_Marshal. case_decide; eauto. Qed.

Lemma encodeHeaders_empty : encodeHeaders ∅ = Ok "{}".
Proof. done. Qed.
