(* ===== verification/Storage.v ===== *)
(** The storage interface: [internal/storage/store.go].

    [StoreOps] is the interface [storage.Store] as a class of operations on a
    store of type [S]; both back ends implement it.  [StoreContract] is what
    the rest of the program relies on: an invariant the operations keep, an
    abstract view of a store ([astore]: the queues, the messages with their
    leases, the dead letters and the history), and for each operation the
    relation its outcome satisfies.  What the two back ends decide differently
    is left open by the relations: which of several claimable messages a claim
    takes first, the order of expired leases, and the order of dead letters. *)

From S2P Require Import Prelude Errors Message Broker.

(** * Data *)

Record ClaimRequest := mkClaimRequest {
  cr_Queue : string;
  cr_Consumer : string;
  cr_Limit : Z;
  cr_Lease : Duration;
  cr_Now : Time;
}.

Record RetryRequest := mkRetryRequest {
  rr_ID : string;
  rr_Attempt : Z;
  rr_Reason : string;
  rr_AvailableAt : Time;
  rr_Now : Time;
}.

Record Depth := mkDepth {
  d_Ready : Z;
  d_InFlight : Z;
  d_Scheduled : Z;
  d_Total : Z;
}.

Record DeadLetter := mkDeadLetter {
  dl_ID : string;
  dl_MessageID : string;
  dl_Queue : string;
  dl_Exchange : string;
  dl_RoutingKey : string;
  dl_Schema : string;
  dl_Payload : string;
  dl_Headers : gmap string string;
  dl_Reason : string;
  dl_ErrorKind : string;
  dl_Attempts : Z;
  dl_PublishedAt : Time;
  dl_FirstFailedAt : Time;
  dl_DeadLetteredAt : Time;
  dl_ReplayedAs : string;
  dl_ReplayedAt : Time;
  dl_ReplayCount : Z;
}.

Record DeadLetterFilter := mkDeadLetterFilter {
  df_Queue : string;
  df_Limit : Z;
  df_Offset : Z;
}.

Record HistoryEvent := mkHistoryEvent {
  he_MessageID : string;
  he_Queue : string;
  he_From : State;
  he_To : State;
  he_Consumer : string;
  he_Detail : string;
  he_At : Time;
}.

#[export] Instance Depth_eq_dec : EqDecision Depth.
Proof. solve_decision. Defined.
#[export] Instance DeadLetter_eq_dec : EqDecision DeadLetter.
Proof. solve_decision. Defined.
#[export] Instance HistoryEvent_eq_dec : EqDecision HistoryEvent.
Proof. solve_decision. Defined.

Definition defaultPageSize : Z := 50.
Definition maxPageSize : Z := 500.

Definition Normalise (f : DeadLetterFilter) : DeadLetterFilter :=
  mkDeadLetterFilter (df_Queue f)
    (if ((df_Limit f <=? 0) || (maxPageSize <? df_Limit f))%Z then defaultPageSize else df_Limit f)
    (if (df_Offset f <? 0)%Z then 0%Z else df_Offset f).

Lemma Normalise_range f :
  (0 < df_Limit (Normalise f) ≤ maxPageSize)%Z ∧ (0 ≤ df_Offset (Normalise f))%Z.
Proof.
  unfold Normalise, maxPageSize, defaultPageSize. simpl. split; [|case_match; lia].
  case_match eqn:E; [lia|]. apply orb_false_iff in E as [?%Z.leb_gt ?%Z.ltb_ge]. lia.
Qed.

(** [entry.ID = id] *)
Definition set_dl_ID (id : string) (d : DeadLetter) : DeadLetter :=
  mkDeadLetter id (dl_MessageID d) (dl_Queue d) (dl_Exchange d) (dl_RoutingKey d) (dl_Schema d)
    (dl_Payload d) (dl_Headers d) (dl_Reason d) (dl_ErrorKind d) (dl_Attempts d)
    (dl_PublishedAt d) (dl_FirstFailedAt d) (dl_DeadLetteredAt d)
    (dl_ReplayedAs d) (dl_ReplayedAt d) (dl_ReplayCount d).

(** The three assignments of [MarkDeadLetterReplayed]. *)
Definition replayed (replayedAs : string) (at_ : Time) (d : DeadLetter) : DeadLetter :=
  mkDeadLetter (dl_ID d) (dl_MessageID d) (dl_Queue d) (dl_Exchange d) (dl_RoutingKey d)
    (dl_Schema d) (dl_Payload d) (dl_Headers d) (dl_Reason d) (dl_ErrorKind d) (dl_Attempts d)
    (dl_PublishedAt d) (dl_FirstFailedAt d) (dl_DeadLetteredAt d)
    replayedAs at_ (wrap64 (dl_ReplayCount d + 1)).

(** A stored message: the message, the end of its lease and the lease's holder
    (memory/store.go; the columns of table [messages] for SQLite). *)
Record record := mkRecord {
  rec_msg : Message;
  rec_lease : Time;
  rec_consumer : string;
}.

Definition rec_State (r : record) : State := msg_State (rec_msg r).
Definition rec_Queue (r : record) : string := msg_Queue (rec_msg r).

(** * The interface

    [st_SaveDeadLetter fresh entry]: [fresh] is what [message.NewID] would
    return; the call fills in the caller's [entry.ID], so it returns the entry. *)

Class StoreOps (S : Type) := {
  st_SaveExchange : Exchange → prog S unit;
  st_Exchanges : prog S (list Exchange);
  st_SaveQueue : Queue → prog S unit;
  st_Queues : prog S (list Queue);
  st_DeleteQueue : string → prog S unit;
  st_SaveBinding : Binding → prog S unit;
  st_Bindings : prog S (list Binding);
  st_DeleteBinding : BindingSpec → prog S unit;

  st_Append : list Message → prog S unit;
  st_Message : string → prog S Message;
  st_Claim : ClaimRequest → prog S (list Message);
  st_Acknowledge : string → Time → prog S unit;
  st_ScheduleRetry : RetryRequest → prog S unit;
  st_Release : string → Time → prog S unit;
  st_MarkDeadLettered : string → string → Time → prog S unit;
  st_ExpiredLeases : Time → Z → prog S (list Message);
  st_Depth : string → prog S Depth;
  st_Purge : string → prog S Z;

  st_SaveDeadLetter : string → DeadLetter → prog S DeadLetter;
  st_DeadLetters : DeadLetterFilter → prog S (list DeadLetter);
  st_DeadLetter : string → prog S DeadLetter;
  st_MarkDeadLetterReplayed : string → string → Time → prog S unit;
  st_DeleteDeadLetter : string → prog S unit;
  st_CountDeadLetters : string → prog S Z;

  st_AppendHistory : HistoryEvent → prog S unit;
  st_History : string → prog S (list HistoryEvent);

  st_Close : prog S unit;
}.

(** * The contract *)

Record astore := mkAStore {
  a_queues : gset string;
  a_messages : gmap string record;
  a_dead : gmap string DeadLetter;
  a_history : gmap string (list HistoryEvent);
}.

Definition with_messages (f : gmap string record → gmap string record) (a : astore) : astore :=
  mkAStore (a_queues a) (f (a_messages a)) (a_dead a) (a_history a).
Definition with_dead (f : gmap string DeadLetter → gmap string DeadLetter) (a : astore) : astore :=
  mkAStore (a_queues a) (a_messages a) (f (a_dead a)) (a_history a).
Definition with_history (e : HistoryEvent) (a : astore) : astore :=
  mkAStore (a_queues a) (a_messages a) (a_dead a)
    (<[he_MessageID e := slice_at (a_history a) (he_MessageID e) ++ [e]]> (a_history a)).

(** What an operation does to an abstract store. *)
Definition spec (A : Type) : Type := astore → result error A → astore → Prop.

(** An operation that only reads. *)
Definition reads {A} (P : astore → result error A → Prop) : spec A :=
  fun a r a' => P a r ∧ a' = a.

(** What becomes of a record. *)
Definition claim_record (req : ClaimRequest) (r : record) : record :=
  mkRecord (set_Attempts (wrap64 (msg_Attempts (rec_msg r) + 1))
              (set_UpdatedAt (cr_Now req) (set_State StateProcessing (rec_msg r))))
    (cr_Now req + cr_Lease req) (cr_Consumer req).
Definition ack_record (at_ : Time) (r : record) : record :=
  mkRecord (set_UpdatedAt at_ (set_State StateAcknowledged (rec_msg r))) zeroTime "".
Definition retry_record (req : RetryRequest) (r : record) : record :=
  mkRecord (set_LastError (rr_Reason req) (set_AvailableAt (rr_AvailableAt req)
              (set_UpdatedAt (rr_Now req) (set_State StateRetrying (rec_msg r))))) zeroTime "".
Definition release_record (at_ : Time) (r : record) : record :=
  mkRecord (set_AvailableAt at_ (set_UpdatedAt at_ (set_State StateQueued (rec_msg r))))
    zeroTime "".
Definition dead_record (reason : string) (at_ : Time) (r : record) : record :=
  mkRecord (set_LastError reason (set_UpdatedAt at_ (set_State StateDeadLettered (rec_msg r))))
    zeroTime "".

(** ** Relations *)

(** memory/store.go: [claimable]; the [WHERE] clause of SQLite's claim. *)
Definition claimable (msg : Message) (now : Time) : bool :=
  if decide (msg_State msg = StateQueued ∨ msg_State msg = StateRetrying)
  then negb (After (msg_AvailableAt msg) now)
  else false.

Definition claimable_in (req : ClaimRequest) (r : record) : Prop :=
  rec_Queue r = cr_Queue req ∧ claimable (rec_msg r) (cr_Now req) = true.

Definition expired (now : Time) (r : record) : Prop :=
  rec_State r = StateProcessing ∧ rec_lease r ≠ zeroTime ∧ After (rec_lease r) now = false.

#[export] Instance claimable_in_dec req r : Decision (claimable_in req r).
Proof. unfold claimable_in. apply _. Defined.
#[export] Instance expired_dec now r : Decision (expired now r).
Proof. unfold expired. apply _. Defined.

Definition append_all (ms : list Message) (m : gmap string record) : gmap string record :=
  foldl (fun m msg => <[msg_ID msg := mkRecord (Clone msg) zeroTime ""]> m) m ms.

Definition claim_all (req : ClaimRequest) (ids : list string) (m : gmap string record) :
    gmap string record :=
  map_imap (fun id r => Some (if decide (id ∈ ids) then claim_record req r else r)) m.

Lemma lookup_claim_all req ids m id :
  claim_all req ids m !! id =
  if decide (id ∈ ids) then claim_record req <$> m !! id else m !! id.
Proof.
  unfold claim_all. rewrite map_lookup_imap. destruct (m !! id) as [r|]; simpl; by case_decide.
Qed.

Lemma claim_all_nil req m : claim_all req [] m = m.
Proof. apply map_eq. intros id. rewrite lookup_claim_all, decide_False by set_solver. done. Qed.

(** The messages a list of ids denotes. *)
Definition messages_of (m : gmap string record) (ids : list string) : list Message :=
  omap (fun id => rec_msg <$> m !! id) ids.

Definition append_spec (ms : list Message) : spec unit := fun a r a' =>
  if decide (Exists (fun msg => is_Some (a_messages a !! msg_ID msg)) ms)
  then r = Err (StorageErr ErrConflict) ∧ a' = a
  else r = Ok tt ∧ a' = with_messages (append_all ms) a.

Definition message_spec (id : string) : spec Message := reads (fun a r =>
  r = match a_messages a !! id with
      | Some rec => Ok (rec_msg rec)
      | None => Err (StorageErr ErrNotFound)
      end).

(** [ids] are the messages a claim takes: claimable messages of the queue, no
    message twice, and as many as there are up to the limit. *)
Definition claim_picks (req : ClaimRequest) (m : gmap string record) (ids : list string) : Prop :=
  NoDup ids ∧
  (∀ id, id ∈ ids → ∃ r, m !! id = Some r ∧ claimable_in req r) ∧
  (Z.of_nat (length ids) ≤ cr_Limit req)%Z ∧
  ((Z.of_nat (length ids) < cr_Limit req)%Z →
   ∀ id r, m !! id = Some r → claimable_in req r → id ∈ ids).

Definition claim_spec (req : ClaimRequest) : spec (list Message) := fun a r a' =>
  ∃ ids, claim_picks req (a_messages a) ids ∧
    r = Ok (messages_of (a_messages a') ids) ∧
    a' = with_messages (claim_all req ids) a.

(** An operation on a leased message. *)
Definition leased_spec (id : string) (f : record → record) : spec unit := fun a r a' =>
  match a_messages a !! id with
  | None => r = Err (StorageErr ErrNotFound) ∧ a' = a
  | Some rec =>
      if decide (rec_State rec = StateProcessing)
      then r = Ok tt ∧ a' = with_messages (insert id (f rec)) a
      else r = Err (StateError id StateProcessing (rec_State rec)) ∧ a' = a
  end.

Definition dead_spec (id reason : string) (at_ : Time) : spec unit := fun a r a' =>
  match a_messages a !! id with
  | None => r = Err (StorageErr ErrNotFound) ∧ a' = a
  | Some rec =>
      if decide (rec_State rec = StateProcessing)
      then r = Ok tt ∧ a' = with_messages (insert id (dead_record reason at_ rec)) a
      else r = Err (InvalidTransitionError (rec_State rec) StateDeadLettered) ∧ a' = a
  end.

Definition expired_spec (now : Time) (limit : Z) : spec (list Message) := reads (fun a r =>
  ∃ ids, NoDup ids ∧ r = Ok (messages_of (a_messages a) ids) ∧
    (∀ id, id ∈ ids → ∃ rec, a_messages a !! id = Some rec ∧ expired now rec) ∧
    ((0 < limit)%Z → (Z.of_nat (length ids) ≤ limit)%Z) ∧
    ((limit ≤ 0 ∨ Z.of_nat (length ids) < limit)%Z →
     ∀ id rec, a_messages a !! id = Some rec → expired now rec → id ∈ ids)).

(** The messages of a queue in the given states. *)
Definition in_states (queue : string) (states : list State) (m : gmap string record) :
    gmap string record :=
  filter (fun kv => rec_Queue kv.2 = queue ∧ rec_State kv.2 ∈ states) m.

Definition depth_of (queue : string) (m : gmap string record) : Depth :=
  let ready := Z.of_nat (size (in_states queue [StateQueued] m)) in
  let inFlight := Z.of_nat (size (in_states queue [StateProcessing] m)) in
  let scheduled := Z.of_nat (size (in_states queue [StateRetrying; StateFailed] m)) in
  mkDepth ready inFlight scheduled (ready + inFlight + scheduled).

Definition depth_spec (queue : string) : spec Depth := reads (fun a r =>
  r = if decide (queue ∈ a_queues a) then Ok (depth_of queue (a_messages a))
      else Err (StorageErr ErrNotFound)).

Definition open_in (queue : string) (r : record) : Prop :=
  rec_Queue r = queue ∧ Terminal (rec_State r) = false.

#[export] Instance open_in_dec queue r : Decision (open_in queue r).
Proof. unfold open_in. apply _. Defined.

Definition purge_spec (queue : string) : spec Z := fun a r a' =>
  if decide (queue ∈ a_queues a)
  then r = Ok (Z.of_nat (size (filter (fun kv => open_in queue kv.2) (a_messages a)))) ∧
       a' = with_messages (fun m => filter (fun kv => ¬ open_in queue kv.2) m) a
  else r = Err (StorageErr ErrNotFound) ∧ a' = a.

(** Deleting a queue removes its open messages; whether it also removes those
    already settled is not promised. *)
Definition delete_queue_spec (queue : string) : spec unit := fun a r a' =>
  if decide (queue ∈ a_queues a)
  then r = Ok tt ∧ a_queues a' = a_queues a ∖ {[queue]} ∧
       a_dead a' = a_dead a ∧ a_history a' = a_history a ∧
       (∀ id, a_messages a' !! id = a_messages a !! id ∨
              (a_messages a' !! id = None ∧ rec_Queue <$> a_messages a !! id = Some queue)) ∧
       (∀ id r, a_messages a' !! id = Some r → ¬ open_in queue r)
  else r = Err (StorageErr ErrNotFound) ∧ a' = a.

Definition save_queue_spec (q : Queue) : spec unit := fun a r a' =>
  r = Ok tt ∧
  a' = mkAStore ({[q_Name q]} ∪ a_queues a) (a_messages a) (a_dead a) (a_history a).

Definition save_dead_spec (fresh : string) (entry : DeadLetter) : spec DeadLetter := fun a r a' =>
  let entry := if str_empty (dl_ID entry) then set_dl_ID fresh entry else entry in
  if decide (is_Some (a_dead a !! dl_ID entry))
  then r = Err (StorageErr ErrConflict) ∧ a' = a
  else r = Ok entry ∧ a' = with_dead (insert (dl_ID entry) entry) a.

Definition dl_matches (queue : string) (d : DeadLetter) : Prop :=
  queue = "" ∨ dl_Queue d = queue.

#[export] Instance dl_matches_dec queue d : Decision (dl_matches queue d).
Proof. unfold dl_matches. apply _. Defined.

Definition dead_letters_spec (f : DeadLetterFilter) : spec (list DeadLetter) := reads (fun a r =>
  let f := Normalise f in
  let total := Z.of_nat (size (filter (fun kv => dl_matches (df_Queue f) kv.2) (a_dead a))) in
  ∃ ds, r = Ok ds ∧ NoDup (dl_ID <$> ds) ∧
    (∀ d, d ∈ ds → a_dead a !! dl_ID d = Some d ∧ dl_matches (df_Queue f) d) ∧
    Z.of_nat (length ds) = Z.min (df_Limit f) (Z.max 0 (total - df_Offset f))).

Definition dead_letter_spec (id : string) : spec DeadLetter := reads (fun a r =>
  r = match a_dead a !! id with Some d => Ok d | None => Err (StorageErr ErrNotFound) end).

Definition mark_replayed_spec (id replayedAs : string) (at_ : Time) : spec unit := fun a r a' =>
  match a_dead a !! id with
  | None => r = Err (StorageErr ErrNotFound) ∧ a' = a
  | Some d => r = Ok tt ∧ a' = with_dead (insert id (replayed replayedAs at_ d)) a
  end.

Definition delete_dead_spec (id : string) : spec unit := fun a r a' =>
  match a_dead a !! id with
  | None => r = Err (StorageErr ErrNotFound) ∧ a' = a
  | Some _ => r = Ok tt ∧ a' = with_dead (delete id) a
  end.

Definition count_dead_spec (queue : string) : spec Z := reads (fun a r =>
  r = Ok (Z.of_nat (size (filter (fun kv => dl_matches queue kv.2) (a_dead a))))).

Definition append_history_spec (e : HistoryEvent) : spec unit := fun a r a' =>
  r = Ok tt ∧ a' = with_history e a.

Definition history_spec (id : string) : spec (list HistoryEvent) := reads (fun a r =>
  r = Ok (slice_at (a_history a) id)).

(** ** Well-formed abstract stores *)

(** The states a stored message can be in. *)
Definition stored_state (s : State) : Prop :=
  s = StateQueued ∨ s = StateProcessing ∨ s = StateRetrying ∨
  s = StateAcknowledged ∨ s = StateDeadLettered.

Record astore_ok (a : astore) : Prop := {
  aok_messages : ∀ id r, a_messages a !! id = Some r →
    msg_ID (rec_msg r) = id ∧ stored_state (rec_State r) ∧
    (rec_State r ≠ StateProcessing → rec_lease r = zeroTime ∧ rec_consumer r = "");
  aok_dead : ∀ id d, a_dead a !! id = Some d → dl_ID d = id;
}.

(** Messages fit to be appended. *)
Definition appendable (ms : list Message) : Prop :=
  NoDup (msg_ID <$> ms) ∧ Forall (fun msg => msg_State msg = StateQueued) ms.

(** ** Calls as data *)

Inductive call : Type → Type :=
| CSaveQueue (q : Queue) : call unit
| CDeleteQueue (name : string) : call unit
| CAppend (ms : list Message) : call unit
| CMessage (id : string) : call Message
| CClaim (req : ClaimRequest) : call (list Message)
| CAcknowledge (id : string) (at_ : Time) : call unit
| CScheduleRetry (req : RetryRequest) : call unit
| CRelease (id : string) (at_ : Time) : call unit
| CMarkDeadLettered (id reason : string) (at_ : Time) : call unit
| CExpiredLeases (now : Time) (limit : Z) : call (list Message)
| CDepth (queue : string) : call Depth
| CPurge (queue : string) : call Z
| CSaveDeadLetter (fresh : string) (entry : DeadLetter) : call DeadLetter
| CDeadLetters (f : DeadLetterFilter) : call (list DeadLetter)
| CDeadLetter (id : string) : call DeadLetter
| CMarkDeadLetterReplayed (id replayedAs : string) (at_ : Time) : call unit
| CDeleteDeadLetter (id : string) : call unit
| CCountDeadLetters (queue : string) : call Z
| CAppendHistory (e : HistoryEvent) : call unit
| CHistory (id : string) : call (list HistoryEvent).

Definition run_call {S : Type} `{StoreOps S} {A} (c : call A) : prog S A :=
  match c with
  | CSaveQueue q => st_SaveQueue q
  | CDeleteQueue name => st_DeleteQueue name
  | CAppend ms => st_Append ms
  | CMessage id => st_Message id
  | CClaim req => st_Claim req
  | CAcknowledge id at_ => st_Acknowledge id at_
  | CScheduleRetry req => st_ScheduleRetry req
  | CRelease id at_ => st_Release id at_
  | CMarkDeadLettered id reason at_ => st_MarkDeadLettered id reason at_
  | CExpiredLeases now limit => st_ExpiredLeases now limit
  | CDepth queue => st_Depth queue
  | CPurge queue => st_Purge queue
  | CSaveDeadLetter fresh entry => st_SaveDeadLetter fresh entry
  | CDeadLetters f => st_DeadLetters f
  | CDeadLetter id => st_DeadLetter id
  | CMarkDeadLetterReplayed id as_ at_ => st_MarkDeadLetterReplayed id as_ at_
  | CDeleteDeadLetter id => st_DeleteDeadLetter id
  | CCountDeadLetters queue => st_CountDeadLetters queue
  | CAppendHistory e => st_AppendHistory e
  | CHistory id => st_History id
  end.

Definition call_spec {A} (c : call A) : spec A :=
  match c with
  | CSaveQueue q => save_queue_spec q
  | CDeleteQueue name => delete_queue_spec name
  | CAppend ms => append_spec ms
  | CMessage id => message_spec id
  | CClaim req => claim_spec req
  | CAcknowledge id at_ => leased_spec id (ack_record at_)
  | CScheduleRetry req => leased_spec (rr_ID req) (retry_record req)
  | CRelease id at_ => leased_spec id (release_record at_)
  | CMarkDeadLettered id reason at_ => dead_spec id reason at_
  | CExpiredLeases now limit => expired_spec now limit
  | CDepth queue => depth_spec queue
  | CPurge queue => purge_spec queue
  | CSaveDeadLetter fresh entry => save_dead_spec fresh entry
  | CDeadLetters f => dead_letters_spec f
  | CDeadLetter id => dead_letter_spec id
  | CMarkDeadLetterReplayed id as_ at_ => mark_replayed_spec id as_ at_
  | CDeleteDeadLetter id => delete_dead_spec id
  | CCountDeadLetters queue => count_dead_spec queue
  | CAppendHistory e => append_history_spec e
  | CHistory id => history_spec id
  end.

(** What the caller owes: fresh queued messages and a limit that is not negative. *)
Definition call_pre {A} (c : call A) : Prop :=
  match c with
  | CAppend ms => appendable ms
  | CClaim req => (0 ≤ cr_Limit req)%Z
  | _ => True
  end.

(** ** The contract as a class *)

(** The operation keeps the invariant and does what the relation says. *)
Definition implements {S A} (inv : S → Prop) (view : S → astore) (p : prog S A) (R : spec A) : Prop :=
  ∀ s, inv s → inv (p s).1 ∧ R (view s) (p s).2 (view (p s).1).

(** The topology tables are outside the view. *)
Definition topology_spec {A} : spec A := reads (fun _ _ => True).

Class StoreContract (S : Type) `{StoreOps S} := {
  store_inv : S → Prop;
  store_view : S → astore;
  store_pre : ∀ {A}, astore → call A → Prop;
  law_ok s : store_inv s → astore_ok (store_view s);
  law_SaveExchange e : implements store_inv store_view (st_SaveExchange e) topology_spec;
  law_Exchanges : implements store_inv store_view st_Exchanges topology_spec;
  law_Queues : implements store_inv store_view st_Queues topology_spec;
  law_SaveBinding b : implements store_inv store_view (st_SaveBinding b) topology_spec;
  law_Bindings : implements store_inv store_view st_Bindings topology_spec;
  law_DeleteBinding spec : implements store_inv store_view (st_DeleteBinding spec) topology_spec;
  law_call {A} (c : call A) s : store_inv s → call_pre c → store_pre (store_view s) c →
    store_inv (run_call c s).1 ∧
    call_spec c (store_view s) (run_call c s).2 (store_view (run_call c s).1);
}.

(** A store that takes whatever a caller may pass. *)
Class Unrestricted (S : Type) `{StoreContract S} :=
  unrestricted : ∀ A (a : astore) (c : call A), store_pre a c.

(** ** The laws, call by call *)

Section laws.
Context {S : Type} `{Unrestricted S}.

Lemma law_implements {A} (c : call A) :
  call_pre c → implements store_inv store_view (run_call c) (call_spec c).
Proof. intros Hpre s Hinv. apply law_call; [done..|]. apply unrestricted. Qed.

Lemma law_SaveQueue q :
  implements store_inv store_view (st_SaveQueue q) (save_queue_spec q).
Proof. exact (law_implements (CSaveQueue q) I). Qed.
Lemma law_DeleteQueue queue :
  implements store_inv store_view (st_DeleteQueue queue) (delete_queue_spec queue).
Proof. exact (law_implements (CDeleteQueue queue) I). Qed.
Lemma law_Append ms :
  appendable ms → implements store_inv store_view (st_Append ms) (append_spec ms).
Proof. intros Hpre. exact (law_implements (CAppend ms) Hpre). Qed.
Lemma law_Message id :
  implements store_inv store_view (st_Message id) (message_spec id).
Proof. exact (law_implements (CMessage id) I). Qed.
Lemma law_Claim req :
  (0 ≤ cr_Limit req)%Z → implements store_inv store_view (st_Claim req) (claim_spec req).
Proof. intros Hpre. exact (law_implements (CClaim req) Hpre). Qed.
Lemma law_Acknowledge id at_ :
  implements store_inv store_view (st_Acknowledge id at_) (leased_spec id (ack_record at_)).
Proof. exact (law_implements (CAcknowledge id at_) I). Qed.
Lemma law_ScheduleRetry req :
  implements store_inv store_view (st_ScheduleRetry req) (leased_spec (rr_ID req) (retry_record req)).
Proof. exact (law_implements (CScheduleRetry req) I). Qed.
Lemma law_Release id at_ :
  implements store_inv store_view (st_Release id at_) (leased_spec id (release_record at_)).
Proof. exact (law_implements (CRelease id at_) I). Qed.
Lemma law_MarkDeadLettered id reason at_ :
  implements store_inv store_view (st_MarkDeadLettered id reason at_) (dead_spec id reason at_).
Proof. exact (law_implements (CMarkDeadLettered id reason at_) I). Qed.
Lemma law_ExpiredLeases now limit :
  implements store_inv store_view (st_ExpiredLeases now limit) (expired_spec now limit).
Proof. exact (law_implements (CExpiredLeases now limit) I). Qed.
Lemma law_Depth queue :
  implements store_inv store_view (st_Depth queue) (depth_spec queue).
Proof. exact (law_implements (CDepth queue) I). Qed.
Lemma law_Purge queue :
  implements store_inv store_view (st_Purge queue) (purge_spec queue).
Proof. exact (law_implements (CPurge queue) I). Qed.
Lemma law_SaveDeadLetter fresh entry :
  implements store_inv store_view (st_SaveDeadLetter fresh entry) (save_dead_spec fresh entry).
Proof. exact (law_implements (CSaveDeadLetter fresh entry) I). Qed.
Lemma law_DeadLetters f :
  implements store_inv store_view (st_DeadLetters f) (dead_letters_spec f).
Proof. exact (law_implements (CDeadLetters f) I). Qed.
Lemma law_DeadLetter id :
  implements store_inv store_view (st_DeadLetter id) (dead_letter_spec id).
Proof. exact (law_implements (CDeadLetter id) I). Qed.
Lemma law_MarkDeadLetterReplayed id as_ at_ :
  implements store_inv store_view (st_MarkDeadLetterReplayed id as_ at_) (mark_replayed_spec id as_ at_).
Proof. exact (law_implements (CMarkDeadLetterReplayed id as_ at_) I). Qed.
Lemma law_DeleteDeadLetter id :
  implements store_inv store_view (st_DeleteDeadLetter id) (delete_dead_spec id).
Proof. exact (law_implements (CDeleteDeadLetter id) I). Qed.
Lemma law_CountDeadLetters queue :
  implements store_inv store_view (st_CountDeadLetters queue) (count_dead_spec queue).
Proof. exact (law_implements (CCountDeadLetters queue) I). Qed.
Lemma law_AppendHistory e :
  implements store_inv store_view (st_AppendHistory e) (append_history_spec e).
Proof. exact (law_implements (CAppendHistory e) I). Qed.
Lemma law_History id :
  implements store_inv store_view (st_History id) (history_spec id).
Proof. exact (law_implements (CHistory id) I). Qed.
End laws.
