(* ===== verification/StoreTraces.v ===== *)
(** Traces of calls on a store.

    A trace is a list of calls ([call], [Storage.v]).  Whatever the store, as long as it meets the contract, the results
    of a trace are results of the abstract store ([run_calls_refines]), and the
    abstract store treats messages the way a broker must: none is lost, none
    moves against the life cycle, settled messages stay settled
    ([call_conserves], [trace_conserves]). *)

From S2P Require Import Prelude Errors Message Broker Storage.

(** * Traces *)

Definition any_call : Type := { A : Type & call A }.
Definition any_result : Type := { A : Type & result error A }.

Fixpoint run_calls {S : Type} `{StoreOps S} (cs : list any_call) (s : S) : S * list any_result :=
  match cs with
  | [] => (s, [])
  | existT A c :: rest =>
      let '(s1, r) := run_call c s in
      let '(s2, rs) := run_calls rest s1 in
      (s2, existT A r :: rs)
  end.

Inductive abstract_run : list any_call → astore → list any_result → astore → Prop :=
| run_nil a : abstract_run [] a [] a
| run_cons A (c : call A) cs a r a1 rs a2 :
    call_spec c a r a1 → abstract_run cs a1 rs a2 →
    abstract_run (existT A c :: cs) a (existT A r :: rs) a2.

Definition calls_pre (cs : list any_call) : Prop := Forall (fun c => call_pre (projT2 c)) cs.

(** What the callers of a trace owe the store, along its run. *)
Fixpoint calls_ok {S : Type} `{StoreContract S} (cs : list any_call) (s : S) : Prop :=
  match cs with
  | [] => True
  | existT A c :: rest =>
      call_pre c ∧ store_pre (store_view s) c ∧ calls_ok rest (run_call c s).1
  end.

(** Demands that do not depend on the store's contents. *)
Lemma calls_ok_static {S : Type} `{StoreContract S} cs s :
  Forall (fun c => call_pre (projT2 c) ∧ ∀ a, store_pre a (projT2 c)) cs → calls_ok cs s.
Proof.
  revert s. induction cs as [|[A c] cs IH]; intros s Hpre; simpl; [done|].
  apply Forall_cons in Hpre as [[Hpre Hspre] Hpres]. split_and!; [done|apply Hspre|by apply IH].
Qed.

Lemma calls_pre_ok {S : Type} `{Unrestricted S} cs s : calls_pre cs → calls_ok cs s.
Proof.
  revert s. induction cs as [|[A c] cs IH]; intros s Hpre; simpl; [done|].
  apply Forall_cons in Hpre as [Hpre Hpres]. split_and!; [done|apply unrestricted|by apply IH].
Qed.

Lemma run_calls_refines {S : Type} `{StoreContract S} cs s :
  store_inv s → calls_ok cs s →
  store_inv (run_calls cs s).1 ∧
  abstract_run cs (store_view s) (run_calls cs s).2 (store_view (run_calls cs s).1).
Proof.
  revert s. induction cs as [|[A c] cs IH]; intros s Hinv Hpre; simpl; [by split; [|constructor]|].
  destruct Hpre as (Hpre & Hspre & Hpres).
  destruct (law_call c s Hinv Hpre Hspre) as [Hinv1 Hspec].
  destruct (run_call c s) as [s1 r]. simpl in *.
  destruct (IH s1 Hinv1 Hpres) as [Hinv2 Hrun].
  destruct (run_calls cs s1) as [s2 rs]. simpl in *. split; [done|]. by econstructor.
Qed.

(** * Conservation *)

(** What never changes about a stored message. *)
Definition same_identity (m m' : Message) : Prop :=
  msg_ID m' = msg_ID m ∧ msg_Queue m' = msg_Queue m ∧ msg_Exchange m' = msg_Exchange m ∧
  msg_RoutingKey m' = msg_RoutingKey m ∧ msg_Schema m' = msg_Schema m ∧
  msg_Payload m' = msg_Payload m ∧ msg_Headers m' = msg_Headers m ∧
  msg_MaxAttempts m' = msg_MaxAttempts m ∧ msg_CreatedAt m' = msg_CreatedAt m.

(** How a call may change a record. *)
Definition evolves (r r' : record) : Prop :=
  r' = r ∨
  (¬ settled_state (rec_State r) ∧ same_identity (rec_msg r) (rec_msg r') ∧
   rtc lifecycle (rec_State r) (rec_State r')).

(** The only calls that remove messages, and only those of their queue. *)
Definition removes {A} (c : call A) (r : record) : Prop :=
  match c with
  | CDeleteQueue name => rec_Queue r = name
  | CPurge name => rec_Queue r = name ∧ ¬ settled_state (rec_State r)
  | _ => False
  end.

Lemma same_identity_refl m : same_identity m m.
Proof. done. Qed.

Lemma evolves_refl r : evolves r r.
Proof. by left. Qed.

Lemma evolves_trans r1 r2 r3 : evolves r1 r2 → evolves r2 r3 → evolves r1 r3.
Proof.
  intros [->|(Hs1 & Hi1 & Hl1)] [->|(Hs2 & Hi2 & Hl2)]; unfold evolves; auto.
  right. split; [done|]. split; [|by etrans].
  unfold same_identity in *. destruct_and!. split_and!; congruence.
Qed.

#[export] Hint Resolve evolves_refl same_identity_refl : broker.

Lemma stored_not_settled s :
  stored_state s → Terminal s = false → ¬ settled_state s.
Proof. intros _ Ht Hs%settled_terminal. congruence. Qed.

Lemma claim_evolves req r :
  claimable_in req r → evolves r (claim_record req r).
Proof.
  intros [_ Hc]. right. unfold claimable in Hc. case_decide as Hst; [|done].
  fold (rec_State r) in Hst. split_and!; [|done|].
  - by destruct Hst as [-> | ->]; intros [|].
  - simpl. destruct Hst as [-> | ->]; [by apply rtc_once; constructor|].
    eapply rtc_l; [constructor|]. by apply rtc_once; constructor.
Qed.

(** The records a leased operation writes. *)
Definition settles_lease (f : record → record) : Prop := ∀ r,
  same_identity (rec_msg r) (rec_msg (f r)) ∧ rtc lifecycle StateProcessing (rec_State (f r)).

Lemma ack_settles at_ : settles_lease (ack_record at_).
Proof. intros r. split; [done|]. by apply rtc_once; constructor. Qed.
Lemma retry_settles req : settles_lease (retry_record req).
Proof. intros r. split; [done|]. eapply rtc_l; [|apply rtc_once]; constructor. Qed.
Lemma release_settles at_ : settles_lease (release_record at_).
Proof. intros r. split; [done|]. by apply rtc_once; constructor. Qed.
Lemma dead_settles reason at_ : settles_lease (dead_record reason at_).
Proof. intros r. split; [done|]. eapply rtc_l; [|apply rtc_once]; constructor. Qed.
#[export] Hint Resolve ack_settles retry_settles release_settles dead_settles : broker.

Lemma insert_evolves (m : gmap string record) id f r0 id' r :
  m !! id = Some r0 → rec_State r0 = StateProcessing → settles_lease f → m !! id' = Some r →
  ∃ r', <[id := f r0]> m !! id' = Some r' ∧ evolves r r'.
Proof.
  intros Hr0 Hp Hf Hr. rewrite lookup_insert. case_decide as E; [|eauto with broker].
  subst id'. assert (r0 = r) as -> by congruence. eexists. split; [done|]. right.
  destruct (Hf r) as [Hi Hl]. rewrite Hp. split_and!; [by intros [|]|done..].
Qed.

Lemma lookup_append_all ms m id :
  id ∉ (msg_ID <$> ms) → append_all ms m !! id = m !! id.
Proof.
  unfold append_all. revert m. induction ms as [|msg ms IH]; intros m Hid; [done|]. cbn [foldl].
  rewrite IH by set_solver. rewrite lookup_insert_ne; [done|]. set_solver.
Qed.

Lemma lookup_append_all_in ms m msg :
  NoDup (msg_ID <$> ms) → msg ∈ ms →
  append_all ms m !! msg_ID msg = Some (mkRecord msg zeroTime "").
Proof.
  unfold append_all. revert m. induction ms as [|x ms IH]; intros m Hn Hin; [set_solver|].
  apply NoDup_cons in Hn as [Hx Hn]. cbn [foldl]. apply elem_of_cons in Hin as [->|Hin]; [|by apply IH].
  fold (append_all ms (<[msg_ID x:=mkRecord (Clone x) zeroTime ""]> m)).
  rewrite lookup_append_all by done. by rewrite lookup_insert_eq.
Qed.

(** Every message of [a] is in [a'] and has at most moved along the life cycle,
    unless it is one of those allowed to go. *)
Definition conserves (gone : record → Prop) (a a' : astore) : Prop :=
  ∀ id r, a_messages a !! id = Some r →
    (∃ r', a_messages a' !! id = Some r' ∧ evolves r r') ∨ (a_messages a' !! id = None ∧ gone r).

Lemma conserves_same gone a a' : a_messages a' = a_messages a → conserves gone a a'.
Proof. intros Heq id r Hid. left. rewrite Heq. eauto with broker. Qed.

Lemma conserves_reads gone {A} (P : astore → result error A → Prop) a r a' :
  reads P a r a' → conserves gone a a'.
Proof. intros [_ ->]. by apply conserves_same. Qed.

Lemma conserves_leased gone id f a r a' :
  settles_lease f → leased_spec id f a r a' → conserves gone a a'.
Proof.
  unfold leased_spec. intros Hf Hspec. destruct (a_messages a !! id) as [r0|] eqn:Hr0.
  - case_decide as Hp; destruct Hspec as [_ ->]; [|by apply conserves_same].
    intros id' r' Hid'. left. by eapply insert_evolves.
  - destruct Hspec as [_ ->]. by apply conserves_same.
Qed.

Lemma conserves_dead gone id reason at_ a r a' :
  dead_spec id reason at_ a r a' → conserves gone a a'.
Proof.
  unfold dead_spec. intros Hspec. destruct (a_messages a !! id) as [r0|] eqn:Hr0.
  - case_decide as Hp; destruct Hspec as [_ ->]; [|by apply conserves_same].
    intros id' r' Hid'. left. eapply (insert_evolves _ _ (dead_record reason at_)); eauto with broker.
  - destruct Hspec as [_ ->]. by apply conserves_same.
Qed.

Lemma conserves_append gone ms a r a' : append_spec ms a r a' → conserves gone a a'.
Proof.
  unfold append_spec. case_decide as Hex; intros [_ ->]; [by apply conserves_same|].
  intros id r' Hid. left. simpl. rewrite lookup_append_all; [eauto with broker|].
  intros (msg & -> & Hin)%list_elem_of_fmap. apply Hex, Exists_exists. eauto.
Qed.

Lemma conserves_claim gone req a r a' : claim_spec req a r a' → conserves gone a a'.
Proof.
  intros (ids & (_ & Hc & _) & _ & ->) id r' Hid. left. simpl.
  unfold claim_all. rewrite map_lookup_imap, Hid. simpl. eexists. split; [done|].
  case_decide as Hin; [|apply evolves_refl]. apply Hc in Hin as (r0 & Hr0 & ?).
  assert (r0 = r') as -> by congruence. by apply claim_evolves.
Qed.

Lemma conserves_purge queue a r a' : astore_ok a → purge_spec queue a r a' →
  conserves (removes (CPurge queue)) a a'.
Proof.
  intros Hok. unfold purge_spec. case_decide; intros [_ ->]; [|by apply conserves_same].
  intros id r' Hid. simpl. rewrite map_lookup_filter, Hid. simpl.
  destruct (decide (open_in queue r')) as [[Hq Ht]|Hno].
  - right. rewrite option_guard_False by (intros Hn; by apply Hn). split_and!; [done..|].
    intros ?%settled_terminal. congruence.
  - left. rewrite option_guard_True by done. eauto with broker.
Qed.

Lemma conserves_delete queue a r a' : delete_queue_spec queue a r a' →
  conserves (removes (CDeleteQueue queue)) a a'.
Proof.
  unfold delete_queue_spec. case_decide; [|intros [_ ->]; by apply conserves_same].
  intros (_ & _ & _ & _ & Hm & _) id r' Hid.
  destruct (Hm id) as [->|[Hn Hq]]; [left; eauto with broker|].
  right. rewrite Hid in Hq. simpl in Hq. split; [done|]. by simplify_eq/=.
Qed.

(** One call, any store state. *)
Lemma call_conserves {A} (c : call A) a r a' :
  astore_ok a → call_spec c a r a' → conserves (removes c) a a'.
Proof.
  intros Hok. destruct c; simpl;
    first [apply conserves_reads | apply conserves_append | apply conserves_claim
          | apply conserves_dead | apply conserves_delete
          | intros; by eapply conserves_purge
          | intros; eapply conserves_leased; [|done]; auto with broker
          | intros Hspec; apply conserves_same].
  - by destruct Hspec as [_ ->].
  - revert Hspec. unfold save_dead_spec. case_decide; by intros [_ ->].
  - revert Hspec. unfold mark_replayed_spec. case_match; by intros [_ ->].
  - revert Hspec. unfold delete_dead_spec. case_match; by intros [_ ->].
  - by destruct Hspec as [_ ->].
Qed.

(** ** Along a trace *)

Definition any_removes (cs : list any_call) (r : record) : Prop :=
  Exists (fun c => removes (projT2 c) r) cs.

Lemma removes_evolves {A} (c : call A) r r' : evolves r r' → removes c r' → removes c r.
Proof.
  intros [->|(Hs & (_ & Hq & _) & Hl)]; [done|]. destruct c; simpl; try done; unfold rec_Queue in *.
  - congruence.
  - intros [? ?]. split; [congruence|done].
Qed.

(** A whole trace on a store that meets the contract. *)
Lemma trace_conserves {S : Type} `{StoreContract S} cs s id r :
  store_inv s → calls_ok cs s → a_messages (store_view s) !! id = Some r →
  (∃ r', a_messages (store_view (run_calls cs s).1) !! id = Some r' ∧ evolves r r') ∨
  any_removes cs r.
Proof.
  revert s r. induction cs as [|[A c] cs IH]; intros s r Hinv Hpre Hid; [left; eauto with broker|].
  destruct Hpre as (Hpre & Hspre & Hpres).
  destruct (law_call c s Hinv Hpre Hspre) as [Hinv1 Hspec].
  pose proof (call_conserves c _ _ _ (law_ok s Hinv) Hspec id r Hid) as Hc. simpl.
  destruct (run_call c s) as [s1 res]. simpl in *.
  destruct Hc as [(r1 & Hr1 & He1)|[_ Hg]]; [|right; by left].
  specialize (IH s1 r1 Hinv1 Hpres Hr1). destruct (run_calls cs s1) as [s2 rs]. simpl in *.
  destruct IH as [(r2 & Hr2 & He2)|Hg].
  - left. exists r2. split; [done|]. by eapply evolves_trans.
  - right. right. eapply Exists_impl; [exact Hg|]. intros c' ?. by eapply removes_evolves.
Qed.

(** * Leases *)

(** The calls that end the lease of message [id]. *)
Definition releases (id : string) {A} (c : call A) : Prop :=
  match c with
  | CAcknowledge i _ | CRelease i _ | CMarkDeadLettered i _ _ => i = id
  | CScheduleRetry req => rr_ID req = id
  | _ => False
  end.

(** The messages a call hands to a consumer. *)
Definition delivered_ids {A} (c : call A) : result error A → list string :=
  match c with
  | CClaim _ => fun r => match r with Ok ms => msg_ID <$> ms | Err _ => [] end
  | _ => fun _ => []
  end.

Fixpoint deliveries {S : Type} `{StoreOps S} (cs : list any_call) (s : S) : list string :=
  match cs with
  | [] => []
  | existT A c :: rest =>
      let '(s1, r) := run_call c s in delivered_ids c r ++ deliveries rest s1
  end.

Lemma claimed_ids req a a' ids :
  astore_ok a → claim_picks req (a_messages a) ids →
  a' = with_messages (claim_all req ids) a →
  msg_ID <$> messages_of (a_messages a') ids = ids.
Proof.
  intros Hok (_ & Hc & _) ->. simpl.
  assert (∀ l, (∀ id, id ∈ l → id ∈ ids) →
    msg_ID <$> messages_of (claim_all req ids (a_messages a)) l = l) as Hl; [|by apply Hl].
  induction l as [|id l IH]; intros Hsub; [done|].
  assert (id ∈ ids) as Hin by set_solver. destruct (Hc id Hin) as (r & Hr & _).
  unfold messages_of in *. cbn [omap list_omap].
  unfold claim_all at 1. rewrite map_lookup_imap, Hr. simpl.
  rewrite decide_True by done. simpl. f_equal; [|apply IH; set_solver].
  by apply Hok in Hr as (? & _).
Qed.

Definition untouched (id : string) (a a' : astore) : Prop :=
  a_messages a' !! id = a_messages a !! id.

Lemma untouched_leased id i f a r a' : i ≠ id → leased_spec i f a r a' → untouched id a a'.
Proof.
  intros Hne. unfold leased_spec, untouched.
  case_match; [case_decide|]; intros [_ ->]; [|done..]. simpl. by rewrite lookup_insert_ne.
Qed.

Lemma untouched_dead id i reason at_ a r a' : i ≠ id → dead_spec i reason at_ a r a' → untouched id a a'.
Proof.
  intros Hne. unfold dead_spec, untouched.
  case_match; [case_decide|]; intros [_ ->]; [|done..]. simpl. by rewrite lookup_insert_ne.
Qed.

Lemma untouched_append id ms a r a' :
  is_Some (a_messages a !! id) → append_spec ms a r a' → untouched id a a'.
Proof.
  unfold append_spec, untouched. intros Hid. case_decide as Hex; intros [_ ->]; [done|]. simpl.
  apply lookup_append_all. intros (msg & -> & Hin)%list_elem_of_fmap. apply Hex, Exists_exists. eauto.
Qed.

Lemma untouched_purge id rec q a r a' :
  a_messages a !! id = Some rec → rec_State rec = StateProcessing → ¬ removes (CPurge q) rec →
  purge_spec q a r a' → untouched id a a'.
Proof.
  unfold purge_spec, untouched. intros Hid Hp Hrem. case_decide; intros [_ ->]; [|done]. simpl.
  rewrite map_lookup_filter, Hid. simpl. rewrite option_guard_True; [done|].
  intros [Hq Ht]. apply Hrem. split; [done|]. rewrite Hp. by intros [|].
Qed.

Lemma untouched_delete id rec q a r a' :
  a_messages a !! id = Some rec → ¬ removes (CDeleteQueue q) rec →
  delete_queue_spec q a r a' → untouched id a a'.
Proof.
  unfold delete_queue_spec, untouched. intros Hid Hrem. case_decide; [|by intros [_ ->]].
  intros (_ & _ & _ & _ & Hm & _). destruct (Hm id) as [|[_ Hq]]; [done|].
  rewrite Hid in Hq. simpl in Hq. destruct Hrem. simpl. congruence.
Qed.

Lemma processing_not_claimable req r : rec_State r = StateProcessing → ¬ claimable_in req r.
Proof.
  intros Hp [_ Hc]. unfold claimable in Hc. fold (rec_State r) in Hc. rewrite Hp in Hc.
  by rewrite decide_False in Hc by naive_solver.
Qed.

Lemma untouched_claim id rec req a r a' :
  astore_ok a → a_messages a !! id = Some rec → rec_State rec = StateProcessing →
  claim_spec req a r a' → untouched id a a' ∧ id ∉ delivered_ids (CClaim req) r.
Proof.
  intros Hok Hid Hp (ids & Hpick & -> & Ha). unfold untouched.
  assert (id ∉ ids) as Hn.
  { destruct Hpick as (_ & Hc & _). intros (r' & Hr' & Hcl)%Hc.
    apply (processing_not_claimable req rec Hp). congruence. }
  simpl. rewrite (claimed_ids req a a' ids Hok Hpick Ha), Ha. split; [|done]. simpl.
  unfold claim_all. rewrite map_lookup_imap, Hid. simpl. by rewrite decide_False.
Qed.

(** A leased message is out of reach of every other call. *)
Lemma lease_stable {A} (c : call A) a r a' id rec :
  astore_ok a → call_spec c a r a' → a_messages a !! id = Some rec →
  rec_State rec = StateProcessing → ¬ releases id c → ¬ removes c rec →
  a_messages a' !! id = Some rec ∧ id ∉ delivered_ids c r.
Proof.
  intros Hok Hspec Hid Hp Hrel Hrem. rewrite <-Hid.
  assert (∀ {B} (P : astore → result error B → Prop) x, reads P a x a' → untouched id a a') as Hreads
    by (by intros B P x [_ ->]).
  destruct c; simpl in Hspec, Hrel;
    try (split; [|set_solver];
         first [by eapply Hreads | by eapply untouched_leased | by eapply untouched_dead
               | by eapply untouched_append | by eapply untouched_purge
               | by eapply untouched_delete]).
  - split; [by destruct Hspec as [_ ->]|set_solver].
  - by eapply untouched_claim.
  - split; [|set_solver]. revert Hspec. unfold save_dead_spec. case_decide; by intros [_ ->].
  - split; [|set_solver]. revert Hspec. unfold mark_replayed_spec. case_match; by intros [_ ->].
  - split; [|set_solver]. revert Hspec. unfold delete_dead_spec. case_match; by intros [_ ->].
  - split; [by destruct Hspec as [_ ->]|set_solver].
Qed.

Lemma lease_stable_trace {S : Type} `{StoreContract S} cs s id r :
  store_inv s → calls_ok cs s → a_messages (store_view s) !! id = Some r →
  rec_State r = StateProcessing →
  Forall (fun c => ¬ releases id (projT2 c) ∧ ¬ removes (projT2 c) r) cs →
  a_messages (store_view (run_calls cs s).1) !! id = Some r ∧ id ∉ deliveries cs s.
Proof.
  revert s. induction cs as [|[A c] cs IH]; intros s Hinv Hpre Hid Hp Hcs; [set_solver|].
  destruct Hpre as (Hpre & Hspre & Hpres). apply Forall_cons in Hcs as [[Hrel Hrem] Hcs].
  simpl in Hrel, Hrem.
  destruct (law_call c s Hinv Hpre Hspre) as [Hinv1 Hspec].
  destruct (lease_stable c _ _ _ id r (law_ok s Hinv) Hspec Hid Hp Hrel Hrem) as [Hid1 Hdel].
  cbn [run_calls deliveries]. destruct (run_call c s) as [s1 res]. simpl in *.
  destruct (IH s1 Hinv1 Hpres Hid1 Hp Hcs) as [Hid2 Hdel2].
  destruct (run_calls cs s1) as [s2 rs]. simpl in *. split; [done|]. set_solver.
Qed.
