(* ===== verification/TopologyStore.v ===== *)
(** What the engine relies on when it keeps its topology in a store and reads it
    back after a restart: the topology half of [storage.Store], as laws that
    both back ends meet (MemoryTopology.v, SqliteTopology.v).

    A store shows the exchanges and queues it holds by name and the set of its
    bindings.  It need not keep everything of a queue ([ts_kept] is what it
    keeps of a visibility timeout), and may limit the times it can keep
    ([ts_time]). *)

From S2P Require Import Prelude Errors Message Broker BrokerProofs Storage.

#[export] Instance BindingSpec_countable : Countable BindingSpec :=
  inj_countable' (fun s => (bs_Exchange s, bs_Queue s, bs_RoutingKey s))
    (fun '(x, q, k) => mkBindingSpec x q k) ltac:(by intros []).
#[export] Instance Binding_countable : Countable Binding :=
  inj_countable' (fun b => (b_Spec b, b_CreatedAt b)) (fun '(s, t) => mkBinding s t) ltac:(by intros []).

Record topology := mkTopo {
  tp_exchanges : gmap string Exchange;
  tp_queues : gmap string Queue;
  tp_bindings : gset Binding;
}.

Definition no_topology : topology := mkTopo ∅ ∅ ∅.

(** Exchange and queue names without a NUL, so that the key of a binding
    determines it. *)
Definition spec_named (s : BindingSpec) : Prop :=
  no_nul (bs_Exchange s) = true ∧ no_nul (bs_Queue s) = true.

Definition keep_timeout (f : Duration → Duration) (q : Queue) : Queue :=
  mkQueue (mkQueueSpec (q_Name q) (q_Durable q) (q_MaxAttempts q) (f (q_VisibilityTimeout q)) (q_Schema q))
    (q_CreatedAt q).

(** The values of a map, in any order. *)
Definition lists {A} (name : A → string) (m : gmap string A) (l : list A) : Prop :=
  NoDup (name <$> l) ∧ ∀ x, x ∈ l ↔ m !! name x = Some x.

(** Nothing is stored under the name, or just that. *)
Definition unchanged {A} (m : gmap string A) (k : string) (x : A) : Prop := m !! k = None ∨ m !! k = Some x.

Class TopologyStore (S : Type) `{StoreOps S} := {
  ts_ok : S → Prop;
  ts_view : S → topology;
  ts_time : Time → Prop;
  ts_duration : Duration → Prop;
  ts_kept : Duration → Duration;
  ts_kept_ok d : ts_duration d → ts_duration (ts_kept d) ∧ ts_kept (ts_kept d) = ts_kept d;

  ts_SaveExchange x s : ts_ok s → ts_time (ex_CreatedAt x) →
    unchanged (tp_exchanges (ts_view s)) (ex_Name x) x →
    ∃ s', st_SaveExchange x s = (s', Ok tt) ∧ ts_ok s' ∧
      ts_view s' = mkTopo (<[ex_Name x := x]> (tp_exchanges (ts_view s))) (tp_queues (ts_view s))
                     (tp_bindings (ts_view s));
  ts_SaveQueue q s : ts_ok s → ts_time (q_CreatedAt q) → ts_duration (q_VisibilityTimeout q) →
    unchanged (tp_queues (ts_view s)) (q_Name q) (keep_timeout ts_kept q) →
    ∃ s', st_SaveQueue q s = (s', Ok tt) ∧ ts_ok s' ∧
      ts_view s' = mkTopo (tp_exchanges (ts_view s))
                     (<[q_Name q := keep_timeout ts_kept q]> (tp_queues (ts_view s)))
                     (tp_bindings (ts_view s));
  ts_DeleteQueue name s : ts_ok s →
    ∃ s' r, st_DeleteQueue name s = (s', r) ∧ ts_ok s' ∧
      ts_view s' = mkTopo (tp_exchanges (ts_view s)) (delete name (tp_queues (ts_view s)))
                     (tp_bindings (ts_view s)) ∧
      (r = Ok tt ∨ r = Err (StorageErr ErrNotFound));
  ts_SaveBinding b s : ts_ok s → ts_time (b_CreatedAt b) → spec_named (b_Spec b) →
    (∀ b', b' ∈ tp_bindings (ts_view s) → b_Spec b' = b_Spec b → b' = b) →
    ∃ s', st_SaveBinding b s = (s', Ok tt) ∧ ts_ok s' ∧
      ts_view s' = mkTopo (tp_exchanges (ts_view s)) (tp_queues (ts_view s))
                     ({[b]} ∪ tp_bindings (ts_view s));
  ts_DeleteBinding spec s : ts_ok s → spec_named spec →
    ∃ s' r, st_DeleteBinding spec s = (s', r) ∧ ts_ok s' ∧
      ts_view s' = mkTopo (tp_exchanges (ts_view s)) (tp_queues (ts_view s))
                     (filter (fun b => b_Spec b ≠ spec) (tp_bindings (ts_view s))) ∧
      (r = Ok tt ∨ r = Err (StorageErr ErrNotFound));
  ts_Exchanges s : ts_ok s →
    ∃ s' l, st_Exchanges s = (s', Ok l) ∧ ts_ok s' ∧ ts_view s' = ts_view s ∧
      lists ex_Name (tp_exchanges (ts_view s)) l;
  ts_Queues s : ts_ok s →
    ∃ s' l, st_Queues s = (s', Ok l) ∧ ts_ok s' ∧ ts_view s' = ts_view s ∧
      lists q_Name (tp_queues (ts_view s)) l;
  ts_Bindings s : ts_ok s →
    ∃ s' l, st_Bindings s = (s', Ok l) ∧ ts_ok s' ∧ ts_view s' = ts_view s ∧
      NoDup l ∧ ∀ b, b ∈ l ↔ b ∈ tp_bindings (ts_view s);
}.

(** A valid binding is named. *)
Lemma valid_named s k : BindingSpec_Validate s k = Ok tt → spec_named s.
Proof.
  unfold BindingSpec_Validate.
  intros (? & He%validateName_no_nul & (? & Hq%validateName_no_nul & _)%result_bind_Ok)%result_bind_Ok.
  done.
Qed.

Lemma named_key_inj s1 s2 :
  spec_named s1 → spec_named s2 → BindingSpec_key s1 = BindingSpec_key s2 → s1 = s2.
Proof.
  unfold BindingSpec_key. intros [? ?] [? ?] [He Heq]%nul_split; [|done..].
  apply nul_split in Heq as [Hq Hk]; [|done..]. destruct s1, s2; simpl in *; congruence.
Qed.
