(* ===== verification/SqlConn.v ===== *)
(** A database connection as package database/sql offers it.

    A connection has contents of some type [T]; a statement is a function on
    them.  Every statement, [BEGIN], [COMMIT], [RowsAffected] and the end of a
    result set may fail: [db_faults] says which of the connection's statements
    do, with the error the driver reports and whether the statement had taken
    effect all the same. *)

From S2P Require Import Prelude Errors.

Section conn.
Context {T : Type}.

Record Conn := mkDb {
  db_closed : bool;
  db_tables : T;
  db_clock : nat;
  db_faults : nat → option (error * bool);
}.

Definition put_tables (t : T) (db : Conn) : Conn :=
  mkDb (db_closed db) t (db_clock db) (db_faults db).
Definition db_tick (db : Conn) : Conn :=
  mkDb (db_closed db) (db_tables db) (S (db_clock db)) (db_faults db).

Definition errDatabaseClosed : error := errorString "sql: database is closed".

(** One round trip to the database. *)
Definition statement {A} (f : T → T * result error A) : prog Conn A := fun db =>
  let fault := db_faults db (db_clock db) in
  let db := db_tick db in
  if db_closed db then (db, Err errDatabaseClosed)
  else match fault with
  | Some (e, took_effect) =>
      (if (took_effect : bool) then put_tables (f (db_tables db)).1 db else db, Err e)
  | None => let '(t, r) := f (db_tables db) in (put_tables t db, r)
  end.

Definition query {A} (f : T → A) : prog Conn A := statement (fun t => (t, Ok (f t))).
Definition exec (f : T → T * result error Z) : prog Conn Z := statement f.
(** [result.RowsAffected()] and [rows.Err()] *)
Definition rows_affected (n : Z) : prog Conn Z := statement (fun t => (t, Ok n)).
Definition rows_Err : prog Conn unit := statement (fun t => (t, Ok tt)).

(** [db.QueryRowContext(...).Scan(...)] *)
Definition query_row {A} (f : T → option A) : prog Conn A := statement (fun t =>
  (t, match f t with Some a => Ok a | None => Err (OtherErr SqlErrNoRows) end)).

(** The caller replaces the error. *)
Definition on_error {A} (g : error → error) (p : prog Conn A) : prog Conn A := fun db =>
  match p db with
  | (db', Err e) => (db', Err (g e))
  | ok => ok
  end.

(** [fmt.Errorf(prefix + "%w", err)] *)
Definition wrapping {A} (prefix : string) (p : prog Conn A) : prog Conn A :=
  on_error (fun e => wrapError prefix e "") p.

(** [tx, err := s.db.BeginTx(...); defer tx.Rollback(); ...; tx.Commit()]: an
    early return rolls back.  [commit] makes the error of a failed commit. *)
Definition transaction {A} (prefix : string) (commit : error → error) (body : prog Conn A) :
    prog Conn A := fun db =>
  match wrapping prefix (statement (fun t => (t, Ok tt))) db with
  | (db1, Err e) => (db1, Err e)
  | (db1, Ok _) =>
      let before := db_tables db1 in
      match body db1 with
      | (db2, Err e) => (put_tables before db2, Err e)
      | (db2, Ok a) =>
          let after := db_tables db2 in
          match statement (fun _ => (after, Ok a)) (put_tables before db2) with
          | (db3, Err e) => (db3, Err (commit e))
          | ok => ok
          end
      end
  end.
End conn.

Arguments Conn T : clear implicits.
