(* ===== verification/SqlConnProofs.v ===== *)
(** Programs on a connection: their outcome without faults, and what faults can
    do to them ([SqlConn.v]).

    [evals]: the outcome on a connection that reports no fault, with one rule
    per construct.  For faults, a program is compared with itself on a
    connection that reports none ([quiet]).  [tracks p]: the two agree, or the
    faulty run reports an error; that is what a transaction needs of its body.
    [atomic p]: besides, a run that reports an error leaves the contents as they
    were or as the other run leaves them. *)

From S2P Require Import Prelude Errors SqlConn.

(** * Programs on a database without faults *)

Definition healthy {T} (db : Conn T) : Prop := db_closed db = false ∧ ∀ n, db_faults db n = None.

Definition evals {T A} (p : prog (Conn T) A) (t : T) (out : T * result error A) : Prop :=
  ∀ db, healthy db → db_tables db = t →
    healthy (p db).1 ∧ db_tables (p db).1 = out.1 ∧ (p db).2 = out.2.

Section evals.
Context {T : Type}.
Implicit Types (t : T) (db : Conn T).

Lemma evals_statement {A} (f : T → T * result error A) t : evals (statement f) t (f t).
Proof.
  intros db [Hc Hf] <-. unfold statement, db_tick. simpl. rewrite Hc, Hf. simpl.
  by destruct (f (db_tables db)) as [t r].
Qed.

Lemma evals_lift {A} (r : result error A) t : evals (lift r) t (t, r).
Proof. by intros db Hdb <-. Qed.
Lemma evals_ret {A} (a : A) t : evals (mret a) t (t, Ok a).
Proof. by intros db Hdb <-. Qed.
Lemma evals_fails {A} e t : evals (fails e) t (t, Err e : result error A).
Proof. by intros db Hdb <-. Qed.

Lemma evals_bind {A B} (p : prog (Conn T) B) (f : B → prog (Conn T) A) t t1 b out :
  evals p t (t1, Ok b) → evals (f b) t1 out → evals (p ≫= f) t out.
Proof.
  intros Hp Hf db Hdb Ht. destruct (Hp db Hdb Ht) as (Hh & Ht1 & Hr). rewrite bind_eq.
  destruct (p db) as [db1 r]. simpl in *. subst r. by apply Hf.
Qed.

Lemma evals_bind_err {A B} (p : prog (Conn T) B) (f : B → prog (Conn T) A) t t1 e :
  evals p t (t1, Err e) → evals (p ≫= f) t (t1, Err e).
Proof.
  intros Hp db Hdb Ht. destruct (Hp db Hdb Ht) as (Hh & Ht1 & Hr). rewrite bind_eq.
  destruct (p db) as [db1 r]. simpl in *. by subst r.
Qed.

Lemma evals_on_error {A} g (p : prog (Conn T) A) t t1 r :
  evals p t (t1, r) →
  evals (on_error g p) t (t1, match r with Ok a => Ok a | Err e => Err (g e) end).
Proof.
  intros Hp db Hdb Ht. destruct (Hp db Hdb Ht) as (Hh & Ht1 & Hr). unfold on_error.
  destruct (p db) as [db1 r1]. simpl in *. subst r1. by destruct r.
Qed.

Lemma evals_wrapping {A} prefix (p : prog (Conn T) A) t t1 a :
  evals p t (t1, Ok a) → evals (wrapping prefix p) t (t1, Ok a).
Proof. intros Hp. exact (evals_on_error _ _ _ _ _ Hp). Qed.

Lemma evals_run {A} (p : prog (Conn T) A) t t1 r db :
  evals p t (t1, r) → healthy db → db_tables db = t →
  ∃ db1, p db = (db1, r) ∧ healthy db1 ∧ db_tables db1 = t1.
Proof.
  intros Hp Hdb Ht. destruct (Hp db Hdb Ht) as (? & ? & ?). destruct (p db) as [db1 r1].
  simpl in *. subst. eauto.
Qed.

Lemma healthy_put t db : healthy db → healthy (put_tables t db).
Proof. done. Qed.

Lemma evals_transaction {A} prefix commit (p : prog (Conn T) A) t t1 r :
  evals p t (t1, r) →
  evals (transaction prefix commit p) t (match r with Ok _ => t1 | Err _ => t end, r).
Proof.
  intros Hp db Hdb Ht. unfold transaction.
  pose proof (evals_wrapping prefix _ _ _ _ (evals_statement (fun t => (t, Ok tt)) t)) as Hbegin.
  destruct (evals_run _ _ _ _ _ Hbegin Hdb Ht) as (db1 & -> & Hh1 & Ht1).
  destruct (evals_run _ _ _ _ _ Hp Hh1 Ht1) as (db2 & -> & Hh2 & <-).
  destruct r as [a|e]; [|simpl; auto using healthy_put].
  pose proof (evals_statement (fun _ => (db_tables db2, Ok a)) t) as Hcommit. rewrite Ht1.
  by destruct (evals_run _ _ _ _ _ Hcommit (healthy_put t _ Hh2) eq_refl) as (db3 & -> & Hh3 & Ht3).
Qed.
Lemma evals_query {A} (f : T → A) prefix t : evals (wrapping prefix (query f)) t (t, Ok (f t)).
Proof. apply evals_wrapping. apply (evals_statement (fun t => (t, Ok (f t)))). Qed.

Lemma evals_rows_Err t : evals rows_Err t (t, Ok tt).
Proof. apply (evals_statement (fun t => (t, Ok tt))). Qed.
End evals.

(** * Faults *)

Create HintDb faults discriminated.

Section faults.
Context {T : Type}.
Implicit Types (t : T) (db : Conn T).

Definition quiet (db : Conn T) : Prop := ∀ n, db_faults db n = None.

(** Two databases with the same contents. *)
Definition twins (db db0 : Conn T) : Prop :=
  quiet db0 ∧ db_closed db = db_closed db0 ∧ db_tables db = db_tables db0.

Definition agree {A} (out out0 : Conn T * result error A) : Prop := twins out.1 out0.1 ∧ out.2 = out0.2.

Definition errs {A} (out : Conn T * result error A) : Prop := ∃ e, out.2 = Err e.

Definition tracks {A} (p : prog (Conn T) A) : Prop := ∀ db db0, twins db db0 →
  agree (p db) (p db0) ∨ errs (p db).

Definition atomic {A} (p : prog (Conn T) A) : Prop := ∀ db db0, twins db db0 →
  agree (p db) (p db0) ∨
  (errs (p db) ∧ (db_tables (p db).1 = db_tables db ∨ db_tables (p db).1 = db_tables (p db0).1)).

(** A program that leaves the tables alone. *)
Definition pure {A} (p : prog (Conn T) A) : Prop := ∀ db, db_tables (p db).1 = db_tables db.

Lemma atomic_tracks {A} (p : prog (Conn T) A) : atomic p → tracks p.
Proof. intros Hp db db0 Htw. destruct (Hp db db0 Htw) as [|[? _]]; auto. Qed.

Lemma pure_atomic {A} (p : prog (Conn T) A) : pure p → tracks p → atomic p.
Proof. intros Hpure Hp db db0 Htw. destruct (Hp db db0 Htw) as [|?]; auto. Qed.

(** * One rule per construct *)

Lemma atomic_statement {A} (f : T → T * result error A) : atomic (statement f).
Proof.
  intros db db0 (Hq & Hc & Ht). unfold statement, db_tick. simpl. rewrite Hq, Hc, Ht.
  destruct (db_closed db0) eqn:Hcl; [left; by split|].
  destruct (db_faults db (db_clock db)) as [[e []]|].
  - right. split; [by eexists|]. right. simpl. by destruct (f (db_tables db0)).
  - right. split; [by eexists|]. left. simpl. done.
  - left. by destruct (f (db_tables db0)).
Qed.

Lemma tracks_lift {A} (r : result error A) : tracks (lift r).
Proof. intros db db0 Htw. left. by split. Qed.
Lemma tracks_ret {A} (a : A) : tracks (mret a).
Proof. intros db db0 Htw. left. by split. Qed.
Lemma tracks_fails {A} e : tracks (fails e : prog (Conn T) A).
Proof. intros db db0 Htw. left. by split. Qed.

Lemma tracks_bind {A B} (p : prog (Conn T) A) (f : A → prog (Conn T) B) :
  tracks p → (∀ a, tracks (f a)) → tracks (p ≫= f).
Proof.
  intros Hp Hf db db0 Htw. rewrite !bind_eq. destruct (Hp db db0 Htw) as [[Htw' Hr]|[e He]].
  - destruct (p db) as [db1 [a|e]], (p db0) as [db2 r2]; simpl in *; subst r2; [by apply Hf|].
    left. by split.
  - right. destruct (p db) as [db1 r1]. simpl in He. subst r1. by eexists.
Qed.

Lemma pure_bind {A B} (p : prog (Conn T) A) (f : A → prog (Conn T) B) :
  pure p → (∀ a, pure (f a)) → pure (p ≫= f).
Proof.
  intros Hp Hf db. rewrite bind_eq. pose proof (Hp db) as Hdb.
  destruct (p db) as [db1 [a|e]]; simpl in *; [|done]. by rewrite Hf.
Qed.

(** A call that reads, then writes. *)
Lemma atomic_bind_pure {A B} (p : prog (Conn T) A) (f : A → prog (Conn T) B) :
  pure p → tracks p → (∀ a, atomic (f a)) → atomic (p ≫= f).
Proof.
  intros Hpure Hp Hf db db0 Htw. pose proof (Hpure db) as Hdb. rewrite !bind_eq.
  destruct (Hp db db0 Htw) as [[Htw' Hr]|[e He]].
  - destruct (p db) as [db1 [a|e]], (p db0) as [db2 r2]; simpl in *; subst r2; [|left; by split].
    destruct (Hf a db1 db2 Htw') as [|[He Ht]]; [by left|right]. by rewrite <-Hdb.
  - right. destruct (p db) as [db1 r1]. simpl in *. subst r1. split; [by eexists|by left].
Qed.

(** A call that writes, then reads. *)
Lemma atomic_pure_bind {A B} (p : prog (Conn T) A) (f : A → prog (Conn T) B) :
  atomic p → (∀ a, pure (f a)) → (∀ a, tracks (f a)) → atomic (p ≫= f).
Proof.
  intros Hp Hpure Hf db db0 Htw. rewrite !bind_eq. destruct (Hp db db0 Htw) as [[Htw' Hr]|[[e He] Ht]].
  - destruct (p db) as [db1 [a|e]], (p db0) as [db2 r2]; simpl in *; subst r2; [|left; by split].
    destruct (Hf a db1 db2 Htw') as [|He]; [by left|right]. split; [done|right].
    rewrite !Hpure. apply Htw'.
  - right. destruct (p db) as [db1 r1]. simpl in *. subst r1. split; [by eexists|].
    destruct Ht as [Ht|Ht]; [by left|right]. destruct (p db0) as [db2 [a|e2]]; simpl in *; [|done].
    by rewrite Hpure.
Qed.

(** Replacing the error keeps the tables. *)
Lemma atomic_on_error {A} g (p : prog (Conn T) A) : atomic p → atomic (on_error g p).
Proof.
  intros Hp db db0 Htw. unfold on_error. destruct (Hp db db0 Htw) as [[Htw' Hr]|[[e He] Ht]].
  - destruct (p db) as [db1 [a|e]], (p db0) as [db2 r2]; simpl in *; subst r2; left; by split.
  - right. destruct (p db) as [db1 r1]. simpl in *. subst r1. split; [by eexists|].
    by destruct (p db0) as [db2 [a|e2]].
Qed.

Lemma tracks_on_error {A} g (p : prog (Conn T) A) : tracks p → tracks (on_error g p).
Proof.
  intros Hp db db0 Htw. unfold on_error. destruct (Hp db db0 Htw) as [[Htw' Hr]|[e He]].
  - destruct (p db) as [db1 [a|e]], (p db0) as [db2 r2]; simpl in *; subst r2; left; by split.
  - right. destruct (p db) as [db1 r1]. simpl in *. subst r1. by eexists.
Qed.

Lemma pure_on_error {A} g (p : prog (Conn T) A) : pure p → pure (on_error g p).
Proof. intros Hp db. unfold on_error. pose proof (Hp db). by destruct (p db) as [db1 [a|e]]. Qed.

Lemma pure_skip {A} (a : A) : pure (statement (fun t => (t, Ok a))).
Proof.
  intros d. unfold statement, db_tick. simpl. destruct (db_closed d); [done|].
  by destruct (db_faults d (db_clock d)) as [[e []]|].
Qed.

(** The body of a transaction may do what it likes: an error rolls it back. *)
Lemma atomic_transaction {A} prefix commit (p : prog (Conn T) A) :
  tracks p → atomic (transaction prefix commit p).
Proof.
  intros Hp db db0 Htw. unfold transaction, wrapping.
  set (begin := on_error _ (statement (fun t => (t, Ok tt)))).
  assert (atomic begin) as Hbegin by apply atomic_on_error, atomic_statement.
  assert (pure begin) as Hpure by apply pure_on_error, pure_skip. specialize (Hbegin db db0 Htw).
  pose proof (Hpure db) as Ht1. pose proof (Hpure db0) as Ht2. clear Hpure.
  destruct (begin db) as [db1 r1], (begin db0) as [db2 r2]. clear begin. simpl in *.
  destruct Hbegin as [[Htw1 Hr]|[[e He] Ht]]; simpl in *; subst.
  2:{ right. split; [by eexists|by left]. }
  destruct r2 as [[]|e]; [|left; by split].
  destruct (Hp db1 db2 Htw1) as [[Htw2 Hr]|[e He]].
  - destruct (p db1) as [db3 r3], (p db2) as [db4 r4]. simpl in *. subst r4.
    destruct r3 as [a|e]; [|left; split; [|done]; destruct Htw2 as (? & ? & ?), Htw1 as (? & ? & ?); by split_and!].
    destruct Htw2 as (Hq & Hc & Ht).
    assert (twins (put_tables (db_tables db1) db3) (put_tables (db_tables db2) db4)) as Htw3.
    { destruct Htw1 as (_ & _ & ?). by split_and!. }
    rewrite Ht.
    destruct (atomic_statement (fun _ => (db_tables db4, Ok a)) _ _ Htw3) as [[Htw4 Hr4]|[[e He] Ht4]].
    + destruct (statement _ (put_tables (db_tables db1) db3)) as [db5 r5],
        (statement _ (put_tables (db_tables db2) db4)) as [db6 r6]. simpl in *. subst r6.
      left. by destruct r5.
    + destruct (statement _ (put_tables (db_tables db1) db3)) as [db5 r5],
        (statement _ (put_tables (db_tables db2) db4)) as [db6 r6]. simpl in *. subst r5.
      right. split; [by eexists|]. rewrite Ht1 in Ht4. destruct Ht4 as [|Ht4]; [by left|right].
      by destruct r6.
  - destruct (p db1) as [db3 r3]. simpl in He. subst r3. right. split; [by eexists|]. left.
    simpl. done.
Qed.

Lemma tracks_statement {A} (f : T → T * result error A) : tracks (statement f).
Proof. apply atomic_tracks, atomic_statement. Qed.
Lemma tracks_wrapping {A} prefix (p : prog (Conn T) A) : tracks p → tracks (wrapping prefix p).
Proof. apply tracks_on_error. Qed.
Lemma tracks_query {A} (f : T → A) : tracks (query f).
Proof. apply tracks_statement. Qed.
Lemma tracks_exec f : tracks (exec f).
Proof. apply tracks_statement. Qed.
Lemma tracks_rows_Err : tracks rows_Err.
Proof. apply tracks_statement. Qed.
Lemma tracks_rows_affected n : tracks (rows_affected n).
Proof. apply tracks_statement. Qed.
Lemma tracks_query_row {A} (f : T → option A) : tracks (query_row f).
Proof. apply tracks_statement. Qed.

Lemma pure_statement {A} (r : T → result error A) : pure (statement (fun t => (t, r t))).
Proof.
  intros d. unfold statement, db_tick. simpl. destruct (db_closed d); [done|].
  by destruct (db_faults d (db_clock d)) as [[e []]|].
Qed.
Lemma pure_lift {A} (r : result error A) : pure (lift r).
Proof. done. Qed.
Lemma pure_ret {A} (a : A) : pure (mret a).
Proof. done. Qed.
Lemma pure_fails {A} e : pure (fails e : prog (Conn T) A).
Proof. done. Qed.
Lemma pure_query {A} (f : T → A) : pure (query f).
Proof. apply (pure_statement (fun t => Ok (f t))). Qed.
Lemma pure_query_row {A} (f : T → option A) : pure (query_row f).
Proof. apply pure_statement. Qed.
Lemma pure_rows_Err : pure rows_Err.
Proof. apply pure_skip. Qed.
Lemma pure_rows_affected n : pure (rows_affected n).
Proof. apply pure_skip. Qed.
Lemma pure_wrapping {A} prefix (p : prog (Conn T) A) : pure p → pure (wrapping prefix p).
Proof. apply pure_on_error. Qed.

Lemma atomic_wrapping {A} prefix (p : prog (Conn T) A) : atomic p → atomic (wrapping prefix p).
Proof. apply atomic_on_error. Qed.
Lemma atomic_exec f : atomic (exec f).
Proof. apply atomic_statement. Qed.
Lemma atomic_pure {A} (p : prog (Conn T) A) : pure p → tracks p → atomic p.
Proof. apply pure_atomic. Qed.
End faults.

#[export] Hint Resolve tracks_lift tracks_ret tracks_fails tracks_bind tracks_statement tracks_wrapping
  tracks_query tracks_exec tracks_rows_Err tracks_rows_affected tracks_query_row
  tracks_on_error : faults.
#[export] Hint Resolve pure_lift pure_ret pure_fails pure_query pure_query_row pure_rows_Err
  pure_rows_affected pure_wrapping pure_bind pure_on_error : faults.
