(* ===== verification/Sqlite.v ===== *)
(** The SQLite store: [internal/storage/sqlite] (sqlite.go, errors.go,
    messages.go, claim.go, deadletter.go, history.go, topology.go).

    The tables are lists of rows with the columns of migrate.go; instants are
    texts, headers JSON texts.  Each SQL statement of the source is a function
    on the tables with the meaning SQL gives it; each method is the sequence of
    statements its Go code runs.

    Every statement may fail, and a failing method rolls its transaction back
    ([SqlConn.v]).  A method runs to its end before the next one starts: the
    pool has one connection ([MaxOpenConns] 1, the default), and a transaction
    holds it.

    Not modelled: the AUTOINCREMENT counters running past [2^63 - 1], and a nil
    payload, which the driver binds as NULL and the column refuses: the model
    does not tell a nil slice from an empty one. *)

From S2P Require Import Prelude Errors TimeText HeaderJson Message Broker Storage SqlConn.

Local Open Scope Z_scope.

(** * Tables *)

Record exchange_row := mkExchangeRow {
  xr_name : string;
  xr_kind : string;
  xr_durable : bool;
  xr_created_at : string;
}.

Record queue_row := mkQueueRow {
  qr_name : string;
  qr_durable : bool;
  qr_max_attempts : Z;
  qr_visibility_timeout_ms : Z;
  qr_schema_name : string;
  qr_created_at : string;
}.

Record binding_row := mkBindingRow {
  br_exchange : string;
  br_queue : string;
  br_routing_key : string;
  br_created_at : string;
}.

Record message_row := mkMessageRow {
  mr_seq : Z;
  mr_id : string;
  mr_queue : string;
  mr_exchange : string;
  mr_routing_key : string;
  mr_schema_name : string;
  mr_payload : string;
  mr_headers : string;
  mr_state : string;
  mr_attempts : Z;
  mr_max_attempts : Z;
  mr_last_error : string;
  mr_created_at : string;
  mr_updated_at : string;
  mr_available_at : string;
  mr_lease_expires_at : option string;
  mr_consumer : string;
}.

(** A number column that SQL computes with: a sum outside 64 bits is a REAL. *)
Inductive number :=
| INTEGER (n : Z)
| REAL.

Record dead_letter_row := mkDeadLetterRow {
  dr_id : string;
  dr_message_id : string;
  dr_queue : string;
  dr_exchange : string;
  dr_routing_key : string;
  dr_schema_name : string;
  dr_payload : string;
  dr_headers : string;
  dr_reason : string;
  dr_error_kind : string;
  dr_attempts : Z;
  dr_published_at : string;
  dr_first_failed_at : string;
  dr_dead_lettered_at : string;
  dr_replayed_as : string;
  dr_replayed_at : string;
  dr_replay_count : number;
}.

Record history_row := mkHistoryRow {
  hr_id : Z;
  hr_message_id : string;
  hr_queue : string;
  hr_from_state : string;
  hr_to_state : string;
  hr_consumer : string;
  hr_detail : string;
  hr_at : string;
}.

(** [t_message_seq] and [t_history_seq] are the last values AUTOINCREMENT gave. *)
Record Tables := mkTables {
  t_exchanges : list exchange_row;
  t_queues : list queue_row;
  t_bindings : list binding_row;
  t_messages : list message_row;
  t_message_seq : Z;
  t_dead_letters : list dead_letter_row;
  t_history : list history_row;
  t_history_seq : Z;
}.

Definition empty_tables : Tables := mkTables [] [] [] [] 0 [] [] 0.

Definition put_exchange_rows (l : list exchange_row) (t : Tables) : Tables :=
  mkTables l (t_queues t) (t_bindings t) (t_messages t) (t_message_seq t) (t_dead_letters t)
    (t_history t) (t_history_seq t).
Definition put_queue_rows (l : list queue_row) (t : Tables) : Tables :=
  mkTables (t_exchanges t) l (t_bindings t) (t_messages t) (t_message_seq t) (t_dead_letters t)
    (t_history t) (t_history_seq t).
Definition put_binding_rows (l : list binding_row) (t : Tables) : Tables :=
  mkTables (t_exchanges t) (t_queues t) l (t_messages t) (t_message_seq t) (t_dead_letters t)
    (t_history t) (t_history_seq t).
Definition put_message_rows (l : list message_row) (seq : Z) (t : Tables) : Tables :=
  mkTables (t_exchanges t) (t_queues t) (t_bindings t) l seq (t_dead_letters t)
    (t_history t) (t_history_seq t).
Definition put_dead_rows (l : list dead_letter_row) (t : Tables) : Tables :=
  mkTables (t_exchanges t) (t_queues t) (t_bindings t) (t_messages t) (t_message_seq t) l
    (t_history t) (t_history_seq t).
Definition put_history_rows (l : list history_row) (seq : Z) (t : Tables) : Tables :=
  mkTables (t_exchanges t) (t_queues t) (t_bindings t) (t_messages t) (t_message_seq t)
    (t_dead_letters t) l seq.

(** * The connection *)

Abbreviation Db := (Conn Tables).

Definition sq_Close : prog Db unit := fun db =>
  (mkDb true (db_tables db) (db_clock db) (db_faults db), Ok tt).

(** * Errors *)

(** [strings.Contains(s, sub)] *)
Fixpoint str_contains (s sub : string) : bool :=
  String.prefix sub s ||
  match s with EmptyString => false | String _ s' => str_contains s' sub end.

Definition codeConstraintUnique : Z := 2067.
Definition codeConstraintPrimary : Z := 1555.

Definition isUniqueViolation (err : error) : bool :=
  match errors_As_Driver err with
  | Some code =>
      if (code =? codeConstraintUnique) || (code =? codeConstraintPrimary) then true
      else str_contains (Error err) "UNIQUE constraint failed"
  | None => str_contains (Error err) "UNIQUE constraint failed"
  end.

(** What the driver reports for a violated constraint. *)
Definition unique_violation (code : Z) (column : string) : error :=
  DriverError code ("constraint failed: UNIQUE constraint failed: " +:+ column).

Definition translateNoRows (err : error) : error :=
  if errors_Is err (SOther SqlErrNoRows) then StorageErr ErrNotFound else err.

(** * Rows and values *)

Definition scanMessage (row : message_row) : result error Message :=
  headers ← decodeHeaders (mr_headers row);
  created ← parseTime (mr_created_at row);
  updated ← parseTime (mr_updated_at row);
  availableAt ← parseTime (mr_available_at row);
  Ok (mkMessage (mr_id row) (mr_exchange row) (mr_routing_key row) (mr_queue row)
        (mr_schema_name row) (mr_payload row) headers (mr_state row) (mr_attempts row)
        (mr_max_attempts row) (mr_last_error row) created updated availableAt).

(** The loop of a method that scans its result set. *)
Fixpoint scan_rows {R A} (scan : R → result error A) (rows : list R) (acc : list A) :
    result error (list A) :=
  match rows with
  | [] => Ok acc
  | row :: rest => a ← scan row; scan_rows scan rest (acc ++ [a])
  end.

Definition scanMessages (rows : list message_row) : prog Db (list Message) :=
  messages ← lift (scan_rows (fun row => match scanMessage row with
                     | Err e => Err (wrapError "sqlite: scan message: " e "")
                     | ok => ok
                     end) rows []);
  _ ← rows_Err; mret messages.

(** [sql.Rows.Scan] of a number column into an [int]. *)
Definition scan_int (n : number) : result error Z :=
  match n with
  | INTEGER n => Ok n
  | REAL => Err (errorString "sql: Scan error on column index 16: converting driver.Value type float64 to a int: invalid syntax")
  end.

Definition scanDeadLetter (row : dead_letter_row) : result error DeadLetter :=
  replay_count ← scan_int (dr_replay_count row);
  headers ← decodeHeaders (dr_headers row);
  published ← parseTime (dr_published_at row);
  first ← parseTime (dr_first_failed_at row);
  dead ← parseTime (dr_dead_lettered_at row);
  replayed ← parseTime (dr_replayed_at row);
  Ok (mkDeadLetter (dr_id row) (dr_message_id row) (dr_queue row) (dr_exchange row)
        (dr_routing_key row) (dr_schema_name row) (dr_payload row) headers (dr_reason row)
        (dr_error_kind row) (dr_attempts row) published first dead (dr_replayed_as row)
        replayed replay_count).

(** * Statements *)

(** [LIMIT ?]: a negative limit is no limit. *)
Definition limit_rows {R} (limit : Z) (rows : list R) : list R :=
  if limit <? 0 then rows else take (Z.to_nat limit) rows.

(** [ORDER BY a, b]: [c] compares by [a], ties go to [d]. *)
Definition then_by (c d : comparison) : comparison := match c with Eq => d | _ => c end.

Definition sorted_by {R} (cmp : R → R → comparison) (rows : list R) : list R :=
  merge_sort (fun x y => cmp x y ≠ Gt) rows.

(** [INSERT INTO messages (...) VALUES (...)] *)
Definition insert_message (row : Z → message_row) (t : Tables) : Tables * result error Z :=
  let seq := t_message_seq t + 1 in
  if decide (mr_id (row seq) ∈ (mr_id <$> t_messages t))
  then (t, Err (unique_violation codeConstraintUnique "messages.id"))
  else (put_message_rows (t_messages t ++ [row seq]) seq t, Ok 1).

(** [SELECT ... FROM messages WHERE id = ?] *)
Definition select_message (id : string) (t : Tables) : option message_row :=
  head (filter (fun row => mr_id row = id) (t_messages t)).

(** [UPDATE messages SET ... WHERE id = ?] *)
Definition update_message (id : string) (set : message_row → message_row) (t : Tables) :
    Tables * result error Z :=
  (put_message_rows ((fun row => if decide (mr_id row = id) then set row else row) <$> t_messages t)
     (t_message_seq t) t,
   Ok (Z.of_nat (length (filter (fun row => mr_id row = id) (t_messages t))))).

(** [DELETE FROM messages WHERE ...] *)
Definition delete_messages (P : message_row → Prop) `{∀ row, Decision (P row)} (t : Tables) :
    Tables * result error Z :=
  (put_message_rows (filter (fun row => ¬ P row) (t_messages t)) (t_message_seq t) t,
   Ok (Z.of_nat (length (filter P (t_messages t))))).

(** [SELECT COUNT( * ) FROM queues WHERE name = ?] *)
Definition count_queues (name : string) (t : Tables) : Z :=
  Z.of_nat (length (filter (fun row => qr_name row = name) (t_queues t))).

(** * Messages: messages.go *)

(** The columns of an INSERT, from a message. *)
Definition message_values (msg : Message) (headers : string) (seq : Z) : message_row :=
  mkMessageRow seq (msg_ID msg) (msg_Queue msg) (msg_Exchange msg) (msg_RoutingKey msg)
    (msg_Schema msg) (msg_Payload msg) headers (msg_State msg) (msg_Attempts msg)
    (msg_MaxAttempts msg) (msg_LastError msg) (formatTime (msg_CreatedAt msg))
    (formatTime (msg_UpdatedAt msg)) (formatTime (msg_AvailableAt msg)) None "".

(** The error path of the two INSERTs that can conflict. *)
Definition or_conflict {A} (prefix : string) (p : prog Db A) : prog Db A :=
  on_error (fun e => if isUniqueViolation e then StorageErr ErrConflict else wrapError prefix e "") p.

Definition append_message (msg : Message) : prog Db unit :=
  headers ← lift (encodeHeaders (msg_Headers msg));
  _ ← or_conflict ("sqlite: append message " +:+ msg_ID msg +:+ ": ")
        (exec (insert_message (message_values msg headers)));
  mret tt.

Definition sq_Append (ms : list Message) : prog Db unit :=
  match ms with
  | [] => mret tt
  | _ =>
      transaction "sqlite: append messages: " (fun e => e) (
        _ ← wrapping "sqlite: prepare append: " (statement (fun t => (t, Ok tt)));
        for_each append_message ms)
  end.

(** The common part of [Message] and [loadMessage]. *)
Definition loadMessage (id : string) : prog Db Message :=
  on_error translateNoRows (row ← query_row (select_message id); lift (scanMessage row)).

Definition sq_Message (id : string) : prog Db Message := loadMessage id.

(** [SELECT state, COUNT( * ) FROM messages WHERE queue = ? GROUP BY state] *)
Definition count_states (queue : string) (t : Tables) : list (string * Z) :=
  let states := mr_state <$> filter (fun row => mr_queue row = queue) (t_messages t) in
  (fun state => (state, Z.of_nat (length (filter (fun s => s = state) states)))) <$> remove_dups states.

(** The [switch] in the loop of [Depth]. *)
Definition add_count (depth : Depth) (row : string * Z) : Depth :=
  let '(mkDepth ready inFlight scheduled total) := depth in
  let '(state, count) := row in
  if decide (state = StateQueued) then mkDepth (ready + count) inFlight scheduled total
  else if decide (state = StateProcessing) then mkDepth ready (inFlight + count) scheduled total
  else if decide (state = StateRetrying ∨ state = StateFailed)
  then mkDepth ready inFlight (scheduled + count) total
  else depth.

Definition sq_Depth (queue : string) : prog Db Depth :=
  exists_ ← wrapping ("sqlite: depth " +:+ queue +:+ ": ") (query (count_queues queue));
  if exists_ =? 0 then fails (StorageErr ErrNotFound)
  else
    rows ← wrapping ("sqlite: depth " +:+ queue +:+ ": ") (query (count_states queue));
    let depth := foldl add_count (mkDepth 0 0 0 0) rows in
    _ ← rows_Err;
    mret (mkDepth (d_Ready depth) (d_InFlight depth) (d_Scheduled depth)
            (d_Ready depth + d_InFlight depth + d_Scheduled depth)).

Definition sq_Purge (queue : string) : prog Db Z :=
  let prefix := "sqlite: purge " +:+ queue +:+ ": " in
  exists_ ← wrapping prefix (query (count_queues queue));
  if exists_ =? 0 then fails (StorageErr ErrNotFound)
  else
    n ← wrapping prefix (exec (delete_messages (fun row =>
      mr_queue row = queue ∧ mr_state row ∉ [StateAcknowledged; StateDeadLettered])));
    affected ← wrapping prefix (rows_affected n);
    mret affected.

(** * Leases: claim.go *)

(** [WHERE queue = ? AND state IN (?, ?) AND available_at <= ?
     ORDER BY available_at, seq LIMIT ?] *)
Definition claim_order (r1 r2 : message_row) : comparison :=
  then_by (String.compare (mr_available_at r1) (mr_available_at r2)) (mr_seq r1 ?= mr_seq r2).

Definition row_claimable (req : ClaimRequest) (row : message_row) : Prop :=
  mr_queue row = cr_Queue req ∧ mr_state row ∈ [StateQueued; StateRetrying] ∧
  String.compare (mr_available_at row) (formatTime (cr_Now req)) ≠ Gt.

#[export] Instance row_claimable_dec req row : Decision (row_claimable req row).
Proof. unfold row_claimable. apply _. Defined.

Definition select_claimable (req : ClaimRequest) (t : Tables) : list message_row :=
  limit_rows (cr_Limit req) (sorted_by claim_order (filter (row_claimable req) (t_messages t))).

Definition set_leased (msg : Message) (leaseExpiry : Time) (consumer : string) (row : message_row) :
    message_row :=
  mkMessageRow (mr_seq row) (mr_id row) (mr_queue row) (mr_exchange row) (mr_routing_key row)
    (mr_schema_name row) (mr_payload row) (mr_headers row) (msg_State msg) (msg_Attempts msg)
    (mr_max_attempts row) (mr_last_error row) (mr_created_at row) (formatTime (msg_UpdatedAt msg))
    (mr_available_at row) (Some (formatTime leaseExpiry)) consumer.

(** The loop over the candidates. *)
Fixpoint lease_each (req : ClaimRequest) (candidates claimed : list Message) :
    prog Db (list Message) :=
  match candidates with
  | [] => mret claimed
  | msg :: rest =>
      msg ← lift (if decide (msg_State msg = StateRetrying)
                  then Transition StateQueued (cr_Now req) msg else Ok msg);
      msg ← lift (Transition StateProcessing (cr_Now req) msg);
      let msg := set_Attempts (wrap64 (msg_Attempts msg + 1)) msg in
      _ ← wrapping ("sqlite: lease message " +:+ msg_ID msg +:+ ": ")
            (exec (update_message (msg_ID msg)
               (set_leased msg (cr_Now req + cr_Lease req) (cr_Consumer req))));
      lease_each req rest (claimed ++ [msg])
  end.

Definition sq_Claim (req : ClaimRequest) : prog Db (list Message) :=
  if cr_Limit req <=? 0 then mret []
  else transaction "sqlite: claim: " (fun e => wrapError "sqlite: commit claim: " e "") (
    rows ← wrapping ("sqlite: claim " +:+ cr_Queue req +:+ ": ") (query (select_claimable req));
    candidates ← scanMessages rows;
    lease_each req candidates []).

Definition transitionLeased (id : string) (apply : Message → prog Db unit) : prog Db unit :=
  transaction ("sqlite: update message " +:+ id +:+ ": ") (fun e => e) (
    msg ← loadMessage id;
    if decide (msg_State msg = StateProcessing)
    then wrapping ("sqlite: update message " +:+ id +:+ ": ") (apply msg)
    else fails (StateError id StateProcessing (msg_State msg))).

(** [SET state = ?, updated_at = ?, ..., lease_expires_at = NULL, consumer = ''],
    with what the statement does to [available_at] and [last_error]. *)
Definition set_released (msg : Message) (available_at last_error : option string)
    (row : message_row) : message_row :=
  mkMessageRow (mr_seq row) (mr_id row) (mr_queue row) (mr_exchange row) (mr_routing_key row)
    (mr_schema_name row) (mr_payload row) (mr_headers row) (msg_State msg) (mr_attempts row)
    (mr_max_attempts row) (default (mr_last_error row) last_error) (mr_created_at row)
    (formatTime (msg_UpdatedAt msg)) (default (mr_available_at row) available_at) None "".

Definition sq_Acknowledge (id : string) (at_ : Time) : prog Db unit :=
  transitionLeased id (fun msg =>
    msg ← lift (Transition StateAcknowledged at_ msg);
    _ ← exec (update_message (msg_ID msg) (set_released msg None None));
    mret tt).

Definition sq_ScheduleRetry (req : RetryRequest) : prog Db unit :=
  transitionLeased (rr_ID req) (fun msg =>
    msg ← lift (Transition StateFailed (rr_Now req) msg);
    msg ← lift (Transition StateRetrying (rr_Now req) msg);
    _ ← exec (update_message (msg_ID msg)
               (set_released msg (Some (formatTime (rr_AvailableAt req))) (Some (rr_Reason req))));
    mret tt).

Definition sq_Release (id : string) (at_ : Time) : prog Db unit :=
  transitionLeased id (fun msg =>
    msg ← lift (Transition StateQueued at_ msg);
    _ ← exec (update_message (msg_ID msg) (set_released msg (Some (formatTime at_)) None));
    mret tt).

Definition sq_MarkDeadLettered (id reason : string) (at_ : Time) : prog Db unit :=
  let prefix := "sqlite: dead letter " +:+ id +:+ ": " in
  transaction prefix (fun e => e) (
    msg ← loadMessage id;
    msg ← lift (if decide (msg_State msg = StateProcessing)
                then Transition StateFailed at_ msg else Ok msg);
    msg ← lift (Transition StateDeadLettered at_ msg);
    _ ← wrapping prefix (exec (update_message (msg_ID msg) (set_released msg None (Some reason))));
    mret tt).

(** [WHERE state = ? AND lease_expires_at IS NOT NULL AND lease_expires_at <= ?
     ORDER BY seq LIMIT ?] *)
Definition row_expired (now : Time) (row : message_row) : Prop :=
  mr_state row = StateProcessing ∧
  match mr_lease_expires_at row with
  | None => False
  | Some lease => String.compare lease (formatTime now) ≠ Gt
  end.

#[export] Instance row_expired_dec now row : Decision (row_expired now row).
Proof. unfold row_expired. destruct (mr_lease_expires_at row); apply _. Defined.

Definition sq_ExpiredLeases (now : Time) (limit : Z) : prog Db (list Message) :=
  let limit := if limit <=? 0 then -1 else limit in
  rows ← wrapping "sqlite: read expired leases: " (query (fun t =>
    limit_rows limit (sorted_by (fun r1 r2 => mr_seq r1 ?= mr_seq r2)
      (filter (row_expired now) (t_messages t)))));
  scanMessages rows.

(** * Dead letters: deadletter.go *)

Definition dead_letter_values (entry : DeadLetter) (headers : string) : dead_letter_row :=
  mkDeadLetterRow (dl_ID entry) (dl_MessageID entry) (dl_Queue entry) (dl_Exchange entry)
    (dl_RoutingKey entry) (dl_Schema entry) (dl_Payload entry) headers (dl_Reason entry)
    (dl_ErrorKind entry) (dl_Attempts entry) (formatTime (dl_PublishedAt entry))
    (formatTime (dl_FirstFailedAt entry)) (formatTime (dl_DeadLetteredAt entry))
    (dl_ReplayedAs entry) (formatTime (dl_ReplayedAt entry)) (INTEGER (dl_ReplayCount entry)).

(** [INSERT INTO dead_letters (...) VALUES (...)] *)
Definition insert_dead_letter (row : dead_letter_row) (t : Tables) : Tables * result error Z :=
  if decide (dr_id row ∈ (dr_id <$> t_dead_letters t))
  then (t, Err (unique_violation codeConstraintPrimary "dead_letters.id"))
  else (put_dead_rows (t_dead_letters t ++ [row]) t, Ok 1).

(** The caller's entry is filled in through the pointer; [fresh] is the value
    [message.NewID] returns. *)
Definition sq_SaveDeadLetter (fresh : string) (entry : DeadLetter) : prog Db DeadLetter :=
  let entry := if str_empty (dl_ID entry) then set_dl_ID fresh entry else entry in
  headers ← lift (encodeHeaders (dl_Headers entry));
  _ ← or_conflict ("sqlite: save dead letter " +:+ dl_ID entry +:+ ": ")
        (exec (insert_dead_letter (dead_letter_values entry headers)));
  mret entry.

(** [WHERE queue = ?], when the filter names a queue. *)
Definition row_in_queue (queue : string) (row : dead_letter_row) : Prop :=
  queue = "" ∨ dr_queue row = queue.

#[export] Instance row_in_queue_dec queue row : Decision (row_in_queue queue row).
Proof. unfold row_in_queue. apply _. Defined.

(** [ORDER BY dead_lettered_at DESC, id DESC] *)
Definition newest_first (r1 r2 : dead_letter_row) : comparison :=
  then_by (String.compare (dr_dead_lettered_at r2) (dr_dead_lettered_at r1))
    (String.compare (dr_id r2) (dr_id r1)).

Definition select_dead_letters (filter_ : DeadLetterFilter) (t : Tables) : list dead_letter_row :=
  limit_rows (df_Limit filter_) (drop (Z.to_nat (df_Offset filter_))
    (sorted_by newest_first (filter (row_in_queue (df_Queue filter_)) (t_dead_letters t)))).

Definition sq_DeadLetters (filter_ : DeadLetterFilter) : prog Db (list DeadLetter) :=
  let filter_ := Normalise filter_ in
  rows ← wrapping "sqlite: list dead letters: " (query (select_dead_letters filter_));
  entries ← lift (scan_rows scanDeadLetter rows []);
  _ ← rows_Err; mret entries.

Definition sq_DeadLetter (id : string) : prog Db DeadLetter :=
  on_error translateNoRows (
    row ← query_row (fun t => head (filter (fun row => dr_id row = id) (t_dead_letters t)));
    lift (scanDeadLetter row)).

(** [replay_count + 1] *)
Definition sql_succ (n : number) : number :=
  match n with
  | INTEGER n => if n + 1 <=? max_int64 then INTEGER (n + 1) else REAL
  | REAL => REAL
  end.

Definition set_replayed (replayedAs : string) (at_ : Time) (row : dead_letter_row) : dead_letter_row :=
  mkDeadLetterRow (dr_id row) (dr_message_id row) (dr_queue row) (dr_exchange row)
    (dr_routing_key row) (dr_schema_name row) (dr_payload row) (dr_headers row) (dr_reason row)
    (dr_error_kind row) (dr_attempts row) (dr_published_at row) (dr_first_failed_at row)
    (dr_dead_lettered_at row) replayedAs (formatTime at_) (sql_succ (dr_replay_count row)).

(** [UPDATE dead_letters SET ... WHERE id = ?] *)
Definition update_dead_letter (id : string) (set : dead_letter_row → dead_letter_row) (t : Tables) :
    Tables * result error Z :=
  (put_dead_rows ((fun row => if decide (dr_id row = id) then set row else row) <$> t_dead_letters t) t,
   Ok (Z.of_nat (length (filter (fun row => dr_id row = id) (t_dead_letters t))))).

(** [DELETE FROM dead_letters WHERE id = ?] *)
Definition delete_dead_letter (id : string) (t : Tables) : Tables * result error Z :=
  (put_dead_rows (filter (fun row => dr_id row ≠ id) (t_dead_letters t)) t,
   Ok (Z.of_nat (length (filter (fun row => dr_id row = id) (t_dead_letters t))))).

(** The common end of the methods that check [RowsAffected]. *)
Definition must_affect (prefix : string) (n : Z) : prog Db unit :=
  affected ← wrapping prefix (rows_affected n);
  if affected =? 0 then fails (StorageErr ErrNotFound) else mret tt.

Definition sq_MarkDeadLetterReplayed (id replayedAs : string) (at_ : Time) : prog Db unit :=
  let prefix := "sqlite: mark dead letter replayed " +:+ id +:+ ": " in
  n ← wrapping prefix (exec (update_dead_letter id (set_replayed replayedAs at_)));
  must_affect prefix n.

Definition sq_DeleteDeadLetter (id : string) : prog Db unit :=
  let prefix := "sqlite: delete dead letter " +:+ id +:+ ": " in
  n ← wrapping prefix (exec (delete_dead_letter id));
  must_affect prefix n.

Definition sq_CountDeadLetters (queue : string) : prog Db Z :=
  wrapping "sqlite: count dead letters: " (query (fun t =>
    Z.of_nat (length (filter (row_in_queue queue) (t_dead_letters t))))).

(** * History: history.go *)

Definition insert_history (row : Z → history_row) (t : Tables) : Tables * result error Z :=
  let seq := t_history_seq t + 1 in
  (put_history_rows (t_history t ++ [row seq]) seq t, Ok 1).

Definition sq_AppendHistory (event : HistoryEvent) : prog Db unit :=
  _ ← wrapping ("sqlite: append history for " +:+ he_MessageID event +:+ ": ")
        (exec (insert_history (fun seq =>
           mkHistoryRow seq (he_MessageID event) (he_Queue event) (he_From event) (he_To event)
             (he_Consumer event) (he_Detail event) (formatTime (he_At event)))));
  mret tt.

Definition scanHistory (row : history_row) : result error HistoryEvent :=
  at_ ← parseTime (hr_at row);
  Ok (mkHistoryEvent (hr_message_id row) (hr_queue row) (hr_from_state row) (hr_to_state row)
        (hr_consumer row) (hr_detail row) at_).

Definition sq_History (messageID : string) : prog Db (list HistoryEvent) :=
  rows ← wrapping ("sqlite: read history for " +:+ messageID +:+ ": ") (query (fun t =>
    sorted_by (fun r1 r2 => hr_id r1 ?= hr_id r2)
      (filter (fun row => hr_message_id row = messageID) (t_history t))));
  events ← lift (scan_rows scanHistory rows []);
  _ ← rows_Err; mret events.

(** * Topology: topology.go *)

(** [INSERT ... ON CONFLICT(name) DO UPDATE SET ...]: [update] keeps the columns
    the clause does not name. *)
Fixpoint upsert {R} (same : R → bool) (update : R → R) (row : R) (rows : list R) : list R :=
  match rows with
  | [] => [row]
  | r :: rest => if same r then update r :: rest else r :: upsert same update row rest
  end.

Definition sq_SaveExchange (exchange : Exchange) : prog Db unit :=
  let row := mkExchangeRow (ex_Name exchange) (ex_Kind exchange) (ex_Durable exchange)
               (formatTime (ex_CreatedAt exchange)) in
  _ ← wrapping ("sqlite: save exchange " +:+ ex_Name exchange +:+ ": ") (exec (fun t =>
    (put_exchange_rows (upsert (fun r => bool_decide (xr_name r = xr_name row))
       (fun r => mkExchangeRow (xr_name r) (xr_kind row) (xr_durable row) (xr_created_at r))
       row (t_exchanges t)) t, Ok 1)));
  mret tt.

Definition scanExchange (row : exchange_row) : result error Exchange :=
  created ← parseTime (xr_created_at row);
  Ok (mkExchange (mkExchangeSpec (xr_name row) (xr_kind row) (xr_durable row)) created).

Definition sq_Exchanges : prog Db (list Exchange) :=
  rows ← wrapping "sqlite: list exchanges: " (query (fun t => sort_by xr_name (t_exchanges t)));
  exchanges ← lift (scan_rows scanExchange rows []);
  _ ← rows_Err; mret exchanges.

(** [time.Duration.Milliseconds] *)
Definition Milliseconds (d : Duration) : Z := Z.quot d millisecond.

Definition upsert_queue (row : queue_row) (t : Tables) : Tables * result error Z :=
  (put_queue_rows (upsert (fun r => bool_decide (qr_name r = qr_name row))
     (fun r => mkQueueRow (qr_name r) (qr_durable row) (qr_max_attempts row)
                 (qr_visibility_timeout_ms row) (qr_schema_name row) (qr_created_at r))
     row (t_queues t)) t, Ok 1).

Definition sq_SaveQueue (queue : Queue) : prog Db unit :=
  _ ← wrapping ("sqlite: save queue " +:+ q_Name queue +:+ ": ") (exec (upsert_queue
        (mkQueueRow (q_Name queue) (q_Durable queue) (q_MaxAttempts queue)
           (Milliseconds (q_VisibilityTimeout queue)) (q_Schema queue)
           (formatTime (q_CreatedAt queue)))));
  mret tt.

Definition scanQueue (row : queue_row) : result error Queue :=
  created ← parseTime (qr_created_at row);
  Ok (mkQueue (mkQueueSpec (qr_name row) (qr_durable row) (qr_max_attempts row)
                 (wrap64 (qr_visibility_timeout_ms row * millisecond)) (qr_schema_name row)) created).

Definition sq_Queues : prog Db (list Queue) :=
  rows ← wrapping "sqlite: list queues: " (query (fun t => sort_by qr_name (t_queues t)));
  queues ← lift (scan_rows scanQueue rows []);
  _ ← rows_Err; mret queues.

Definition sq_DeleteQueue (name : string) : prog Db unit :=
  let prefix := "sqlite: delete queue " +:+ name +:+ ": " in
  transaction prefix (fun e => e) (
    n ← wrapping prefix (exec (fun t =>
      (put_queue_rows (filter (fun row => qr_name row ≠ name) (t_queues t)) t,
       Ok (count_queues name t))));
    _ ← must_affect prefix n;
    _ ← wrapping ("sqlite: delete queue messages " +:+ name +:+ ": ")
          (exec (delete_messages (fun row => mr_queue row = name)));
    mret tt).

Definition binding_key_eq (r1 r2 : binding_row) : bool :=
  bool_decide (br_exchange r1 = br_exchange r2 ∧ br_queue r1 = br_queue r2 ∧
               br_routing_key r1 = br_routing_key r2).

Definition sq_SaveBinding (binding : Binding) : prog Db unit :=
  let row := mkBindingRow (b_Exchange binding) (b_Queue binding) (b_RoutingKey binding)
               (formatTime (b_CreatedAt binding)) in
  _ ← wrapping "sqlite: save binding: " (exec (fun t =>
    (put_binding_rows (upsert (binding_key_eq row) (fun r => r) row (t_bindings t)) t, Ok 1)));
  mret tt.

Definition binding_order (r1 r2 : binding_row) : comparison :=
  then_by (String.compare (br_exchange r1) (br_exchange r2))
    (then_by (String.compare (br_queue r1) (br_queue r2))
       (String.compare (br_routing_key r1) (br_routing_key r2))).

Definition scanBinding (row : binding_row) : result error Binding :=
  created ← parseTime (br_created_at row);
  Ok (mkBinding (mkBindingSpec (br_exchange row) (br_queue row) (br_routing_key row)) created).

Definition sq_Bindings : prog Db (list Binding) :=
  rows ← wrapping "sqlite: list bindings: " (query (fun t => sorted_by binding_order (t_bindings t)));
  bindings ← lift (scan_rows scanBinding rows []);
  _ ← rows_Err; mret bindings.

(** [DELETE FROM bindings WHERE exchange = ? AND queue = ? AND routing_key = ?] *)
Definition delete_bindings (spec : BindingSpec) (t : Tables) : Tables * result error Z :=
  let key := mkBindingRow (bs_Exchange spec) (bs_Queue spec) (bs_RoutingKey spec) "" in
  (put_binding_rows (filter (fun row => binding_key_eq key row = false) (t_bindings t)) t,
   Ok (Z.of_nat (count_if (binding_key_eq key) (t_bindings t)))).

Definition sq_DeleteBinding (spec : BindingSpec) : prog Db unit :=
  n ← wrapping "sqlite: delete binding: " (exec (delete_bindings spec));
  must_affect "sqlite: delete binding: " n.

(** The store implements [storage.Store]. *)
#[export] Instance Sqlite_ops : StoreOps Db := {
  st_SaveExchange := sq_SaveExchange;
  st_Exchanges := sq_Exchanges;
  st_SaveQueue := sq_SaveQueue;
  st_Queues := sq_Queues;
  st_DeleteQueue := sq_DeleteQueue;
  st_SaveBinding := sq_SaveBinding;
  st_Bindings := sq_Bindings;
  st_DeleteBinding := sq_DeleteBinding;
  st_Append := sq_Append;
  st_Message := sq_Message;
  st_Claim := sq_Claim;
  st_Acknowledge := sq_Acknowledge;
  st_ScheduleRetry := sq_ScheduleRetry;
  st_Release := sq_Release;
  st_MarkDeadLettered := sq_MarkDeadLettered;
  st_ExpiredLeases := sq_ExpiredLeases;
  st_Depth := sq_Depth;
  st_Purge := sq_Purge;
  st_SaveDeadLetter := sq_SaveDeadLetter;
  st_DeadLetters := sq_DeadLetters;
  st_DeadLetter := sq_DeadLetter;
  st_MarkDeadLetterReplayed := sq_MarkDeadLetterReplayed;
  st_DeleteDeadLetter := sq_DeleteDeadLetter;
  st_CountDeadLetters := sq_CountDeadLetters;
  st_AppendHistory := sq_AppendHistory;
  st_History := sq_History;
  st_Close := sq_Close;
}.
