(* ===== verification/SqliteTables.v ===== *)
(** Tables and statements of the SQLite store: what the proofs about
    [Sqlite.v] share.

    [table_view] is a table with a key column as a finite map, with one lemma
    per kind of statement. *)

From S2P Require Import Prelude Errors TimeText HeaderJson Message Broker Storage SqlConn SqlConnProofs Sqlite.

Lemma filter_all {A} (P : A → Prop) `{∀ x, Decision (P x)} (l : list A) :
  (∀ x, x ∈ l → P x) → filter P l = l.
Proof.
  induction l as [|x l IH]; [done|]. intros HP. rewrite filter_cons, decide_True, IH by set_solver. done.
Qed.

(** * Tables with a key *)

Section table.
Context {R V : Type} (key : R → string) (val : R → V).
Implicit Types (rows : list R) (row : R).

Definition table_view (rows : list R) : gmap string V :=
  list_to_map ((fun row => (key row, val row)) <$> rows).

Lemma table_view_keys rows : ((fun row => (key row, val row)) <$> rows).*1 = key <$> rows.
Proof. rewrite <-list_fmap_compose. by apply list_fmap_ext. Qed.

Lemma table_view_Some rows k v :
  NoDup (key <$> rows) →
  table_view rows !! k = Some v ↔ ∃ row, row ∈ rows ∧ key row = k ∧ val row = v.
Proof.
  intros Hnd. unfold table_view. rewrite <-elem_of_list_to_map by (by rewrite table_view_keys).
  rewrite list_elem_of_fmap. naive_solver.
Qed.

Lemma table_view_None rows k : table_view rows !! k = None ↔ k ∉ (key <$> rows).
Proof. unfold table_view. by rewrite <-not_elem_of_list_to_map, table_view_keys. Qed.

Lemma table_view_row rows row :
  NoDup (key <$> rows) → row ∈ rows → table_view rows !! key row = Some (val row).
Proof. intros Hnd Hin. apply table_view_Some; eauto. Qed.

Lemma table_key_inj rows r1 r2 :
  NoDup (key <$> rows) → r1 ∈ rows → r2 ∈ rows → key r1 = key r2 → r1 = r2.
Proof using key.
  clear val V. intros Hnd [i Hi]%list_elem_of_lookup [j Hj]%list_elem_of_lookup Hk.
  assert (i = j) as ->; [|congruence].
  eapply NoDup_lookup; [exact Hnd|..]; rewrite list_lookup_fmap;
    [by rewrite Hi|by rewrite Hj; simpl; rewrite Hk].
Qed.

Lemma table_view_map_eq rows (m : gmap string V) :
  NoDup (key <$> rows) →
  (∀ k v, m !! k = Some v ↔ ∃ row, row ∈ rows ∧ key row = k ∧ val row = v) →
  table_view rows = m.
Proof.
  intros Hnd Hm. apply map_eq. intros k. apply option_eq. intros v.
  by rewrite table_view_Some, Hm.
Qed.

(** [SELECT ... WHERE key = ?] *)
Lemma select_key_Some rows row :
  NoDup (key <$> rows) → row ∈ rows →
  filter (fun r => key r = key row) rows = [row].
Proof using key.
  clear val V. intros Hnd Hin. induction rows as [|r rows IH]; [set_solver|].
  apply NoDup_cons in Hnd as [Hni Hnd]. rewrite filter_cons.
  apply elem_of_cons in Hin as [->|Hin].
  - rewrite decide_True by done. f_equal.
    destruct (filter _ rows) as [|r' l] eqn:E; [done|]. exfalso. apply Hni.
    assert (r' ∈ filter (fun x => key x = key r) rows) as [Hk Hr]%list_elem_of_filter
      by (rewrite E; set_solver).
    rewrite <-Hk. by apply list_elem_of_fmap_2.
  - rewrite decide_False; [by apply IH|]. intros Hk. apply Hni. rewrite Hk.
    by apply list_elem_of_fmap_2.
Qed.

Lemma select_key_None rows k :
  k ∉ (key <$> rows) → filter (fun r => key r = k) rows = [].
Proof using key.
  clear val V. intros Hk. destruct (filter _ rows) as [|r l] eqn:E; [done|].
  assert (r ∈ filter (fun x => key x = k) rows) as [Hr Hin]%list_elem_of_filter
    by (rewrite E; set_solver).
  destruct Hk. rewrite <-Hr. by apply list_elem_of_fmap_2.
Qed.

Lemma table_cases rows k :
  NoDup (key <$> rows) →
  (∃ row, row ∈ rows ∧ key row = k ∧ table_view rows !! k = Some (val row) ∧
          filter (fun r => key r = k) rows = [row]) ∨
  (k ∉ (key <$> rows) ∧ table_view rows !! k = None ∧ filter (fun r => key r = k) rows = []).
Proof.
  intros Hnd. destruct (decide (k ∈ (key <$> rows))) as [Hin|Hni]; [left|right].
  - apply list_elem_of_fmap in Hin as (row & -> & Hin). exists row.
    split_and!; [done|done|by apply table_view_row|by apply select_key_Some].
  - split_and!; [done|by apply table_view_None|by apply select_key_None].
Qed.

(** [INSERT] of a fresh key *)
Lemma table_view_insert rows row :
  key row ∉ (key <$> rows) → table_view (rows ++ [row]) = <[key row := val row]> (table_view rows).
Proof.
  intros Hni. apply map_eq. intros k. unfold table_view. rewrite fmap_app, list_to_map_app.
  cbn [fmap list_fmap list_to_map foldr]. rewrite lookup_insert.
  destruct (decide (key row = k)) as [<-|Hne].
  - rewrite lookup_union_r by (by apply table_view_None). cbn. by rewrite lookup_insert_eq.
  - rewrite lookup_union. cbn. rewrite lookup_insert_ne by done. rewrite lookup_empty.
    by destruct (list_to_map _ !! k).
Qed.

Lemma table_keys_insert rows row :
  NoDup (key <$> rows) → key row ∉ (key <$> rows) → NoDup (key <$> (rows ++ [row])).
Proof using key.
  clear val V. intros Hnd Hni. rewrite fmap_app. apply NoDup_app. split_and!; [done| |apply NoDup_singleton].
  intros k Hk ->%list_elem_of_singleton. done.
Qed.

(** [UPDATE ... WHERE key = ?] *)
Lemma table_keys_update (rows : list R) (set : R → R) :
  (∀ row, row ∈ rows → key (set row) = key row) → key <$> (set <$> rows) = key <$> rows.
Proof using key.
  clear val V. intros Hset. rewrite <-list_fmap_compose. apply list_fmap_ext. intros i row Hi. simpl.
  apply Hset. by eapply list_elem_of_lookup_2.
Qed.

Lemma table_view_update rows row (set : R → R) :
  NoDup (key <$> rows) → row ∈ rows → key (set row) = key row →
  table_view ((fun r => if decide (key r = key row) then set r else r) <$> rows) =
  <[key row := val (set row)]> (table_view rows).
Proof.
  intros Hnd Hin Hset. pose proof (table_key_inj rows) as Hinj.
  apply table_view_map_eq.
  - rewrite table_keys_update; [done|]. intros r Hr. case_decide as Hk; [|done].
    assert (r = row) as -> by (by apply Hinj). done.
  - intros k v. rewrite lookup_insert. case_decide as Hk.
    + split.
      * intros [= <-]. exists (set row). split; [|by rewrite Hset].
        apply list_elem_of_fmap. exists row. by rewrite decide_True.
      * intros (r' & (r & -> & Hr)%list_elem_of_fmap & Hk' & <-).
        case_decide as Hkr; [|congruence]. assert (r = row) as -> by (by apply Hinj). done.
    + rewrite table_view_Some by done. split.
      * intros (r & Hr & <- & <-). exists r. split; [|done]. apply list_elem_of_fmap. exists r.
        rewrite decide_False; [done|]. intros Heq. by apply Hk.
      * intros (r' & (r & -> & Hr)%list_elem_of_fmap & Hk' & <-). case_decide as Hkr.
        -- assert (r = row) as -> by (by apply Hinj). congruence.
        -- eauto.
Qed.

(** [INSERT ... ON CONFLICT(key) DO UPDATE] *)
Lemma upsert_present rows row (update : R → R) :
  NoDup (key <$> rows) → key row ∈ (key <$> rows) →
  upsert (fun r => bool_decide (key r = key row)) update row rows =
  (fun r => if decide (key r = key row) then update r else r) <$> rows.
Proof using key.
  clear val V. induction rows as [|r rows IH]; intros Hnd Hin; [by apply not_elem_of_nil in Hin|].
  apply NoDup_cons in Hnd as [Hni Hnd]. cbn [upsert fmap list_fmap]. case_bool_decide as Hk; simpl.
  - rewrite decide_True by done. f_equal. rewrite <-(list_fmap_id rows) at 1. apply list_fmap_ext.
    intros i x Hx. simpl. rewrite decide_False; [done|]. intros E. apply Hni. rewrite Hk, <-E.
    apply list_elem_of_fmap_2. by eapply list_elem_of_lookup_2.
  - rewrite decide_False by done. f_equal. apply IH; [done|]. apply elem_of_cons in Hin as [|]; [congruence|done].
Qed.

Lemma upsert_absent rows row (update : R → R) :
  key row ∉ (key <$> rows) →
  upsert (fun r => bool_decide (key r = key row)) update row rows = rows ++ [row].
Proof using key.
  clear val V. induction rows as [|r rows IH]; intros Hni; [done|]. cbn [upsert app].
  apply not_elem_of_cons in Hni as [Hne Hni].
  rewrite bool_decide_eq_false_2 by done. by rewrite IH.
Qed.

(** [DELETE ... WHERE P] and counting *)
Lemma table_keys_filter rows (P : R → Prop) `{∀ row, Decision (P row)} :
  NoDup (key <$> rows) → NoDup (key <$> filter P rows).
Proof using key. clear val V. intros Hnd. eapply sublist_NoDup; [done|]. apply fmap_sublist, sublist_filter. Qed.

Lemma table_view_filter rows (P : R → Prop) (Q : string * V → Prop)
    `{∀ row, Decision (P row), ∀ kv, Decision (Q kv)} :
  NoDup (key <$> rows) → (∀ row, row ∈ rows → P row ↔ Q (key row, val row)) →
  table_view (filter P rows) = filter Q (table_view rows).
Proof.
  intros Hnd HPQ. apply table_view_map_eq; [by apply table_keys_filter|].
  intros k v. rewrite map_lookup_filter_Some, table_view_Some by done. split.
  - intros ((row & Hin & <- & <-) & HQ). exists row. rewrite list_elem_of_filter. naive_solver.
  - intros (row & (HP & Hin)%list_elem_of_filter & <- & <-). naive_solver.
Qed.

Lemma table_view_size rows : NoDup (key <$> rows) → size (table_view rows) = length rows.
Proof.
  intros Hnd. unfold table_view. rewrite map_size_list_to_map by (by rewrite table_view_keys).
  apply length_fmap.
Qed.

Lemma table_count rows (P : R → Prop) (Q : string * V → Prop)
    `{∀ row, Decision (P row), ∀ kv, Decision (Q kv)} :
  NoDup (key <$> rows) → (∀ row, row ∈ rows → P row ↔ Q (key row, val row)) →
  length (filter P rows) = size (filter Q (table_view rows)).
Proof.
  intros Hnd HPQ. rewrite <-(table_view_filter rows P Q Hnd HPQ).
  by rewrite table_view_size by (by apply table_keys_filter).
Qed.
End table.

(** * Sorting and limits *)

Lemma sorted_by_perm {R} (cmp : R → R → comparison) rows : sorted_by cmp rows ≡ₚ rows.
Proof. apply merge_sort_Permutation. Qed.

Lemma limit_sublist {R} limit (rows : list R) : limit_rows limit rows `sublist_of` rows.
Proof. unfold limit_rows. case_match; [done|apply sublist_take]. Qed.

Lemma limit_rows_length {R} limit (rows : list R) :
  (0 ≤ limit)%Z → Z.of_nat (length (limit_rows limit rows)) = Z.min limit (Z.of_nat (length rows)).
Proof.
  intros Hl. unfold limit_rows. rewrite (proj2 (Z.ltb_ge _ _)) by lia. rewrite length_take. lia.
Qed.

(** Rows that a limit cuts off are cut off because there are enough. *)
Lemma limit_rows_all {R} limit (rows : list R) :
  (limit < 0 ∨ Z.of_nat (length (limit_rows limit rows)) < limit)%Z → limit_rows limit rows = rows.
Proof.
  unfold limit_rows. destruct (Z.ltb_spec limit 0); [done|].
  rewrite length_take. intros [?|?]; [lia|]. apply take_ge. lia.
Qed.

(** ** Orders *)

Lemma compare_le a b : String.compare a b ≠ Gt ↔ String.le a b.
Proof. unfold String.le, String.leb. destruct (String.compare a b); simpl; naive_solver. Qed.

Lemma compare_Eq a b : String.compare a b = Eq ↔ a = b.
Proof.
  split; [apply String.compare_eq_iff|]. intros ->. destruct (String.compare b b) eqn:E; [done|..];
    pose proof (String.compare_antisym b b) as Ha; rewrite E in Ha; discriminate Ha.
Qed.

(** A comparison whose "not greater" is a total preorder. *)
Class TotalOrder {R} (cmp : R → R → comparison) : Prop := {
  order_trans : Transitive (fun x y => cmp x y ≠ Gt);
  order_total : Total (fun x y => cmp x y ≠ Gt);
}.

Lemma then_by_le {R} (k : R → string) (c : R → R → comparison) x y :
  then_by (String.compare (k x) (k y)) (c x y) ≠ Gt ↔
  String.le (k x) (k y) ∧ (k x = k y → c x y ≠ Gt).
Proof.
  rewrite <-compare_le, <-(compare_Eq (k x)).
  destruct (String.compare (k x) (k y)); simpl; naive_solver.
Qed.

#[export] Instance then_by_order {R} (k : R → string) (c : R → R → comparison) :
  TotalOrder c → TotalOrder (fun x y => then_by (String.compare (k x) (k y)) (c x y)).
Proof.
  intros [Htr Htot]. split.
  - intros x y z. rewrite !then_by_le. intros [H1 E1] [H2 E2]. split; [by etrans|]. intros E.
    assert (k x = k y) as Exy by (apply (anti_symm String.le); [done|by rewrite E]).
    eapply Htr; [by apply E1|apply E2; congruence].
  - intros x y. rewrite !then_by_le. destruct (decide (k x = k y)) as [E|E].
    + destruct (Htot x y); [left|right]; by rewrite E.
    + destruct (total String.le (k x) (k y)); [left|right]; naive_solver.
Qed.

#[export] Instance key_order {R} (k : R → Z) : TotalOrder (fun x y => k x ?= k y)%Z.
Proof.
  split.
  - intros x y z. rewrite !Z.compare_le_iff. lia.
  - intros x y. rewrite !Z.compare_le_iff. lia.
Qed.

#[export] Instance string_order {R} (k : R → string) : TotalOrder (fun x y => String.compare (k x) (k y)).
Proof.
  split.
  - intros x y z. rewrite !compare_le. apply (transitivity (R:=String.le)).
  - intros x y. rewrite !compare_le. apply (total String.le).
Qed.

Lemma reverse_order {R} (cmp : R → R → comparison) : TotalOrder cmp → TotalOrder (fun x y => cmp y x).
Proof.
  intros [Htr Htot]. split; [|intros x y; apply (Htot y x)]. intros x y z Hxy Hyz. by eapply Htr.
Qed.

Lemma sorted_by_sorted {R} (cmp : R → R → comparison) rows :
  TotalOrder cmp → StronglySorted (fun x y => cmp x y ≠ Gt) (sorted_by cmp rows).
Proof. intros [Htr Htot]. by apply StronglySorted_merge_sort. Qed.

(** * Conflicts *)

Lemma evals_or_conflict {A} prefix (p : prog Db A) t t1 a :
  evals p t (t1, Ok a) → evals (or_conflict prefix p) t (t1, Ok a).
Proof. intros Hp. exact (evals_on_error _ _ _ _ _ Hp). Qed.

Lemma evals_conflict {A} prefix (p : prog Db A) t t1 e :
  isUniqueViolation e = true → evals p t (t1, Err e) →
  evals (or_conflict prefix p) t (t1, Err (StorageErr ErrConflict)).
Proof.
  intros He Hp. pose proof (evals_on_error (fun e =>
    if isUniqueViolation e then StorageErr ErrConflict else wrapError prefix e "") _ _ _ _ Hp) as Hc.
  simpl in Hc. by rewrite He in Hc.
Qed.
