(* ===== verification/SqliteProofs.v ===== *)
(** The SQLite store meets the contract ([Sqlite.v]).

    A row stands for a record ([row_of], [record_of]); the tables stand for an
    abstract store ([tables_view]); [tables_wf] is the invariant.  For a
    database that reports no fault every method is evaluated on the tables
    ([evals]) and its outcome compared with the contract.  The callers owe
    instants with a four-digit year and headers in UTF-8 ([sqlite_pre]). *)

From S2P Require Import Prelude Errors TimeText TimeProofs HeaderJson HeaderProofs Message.
From S2P Require Import Broker Storage SqlConn SqlConnProofs Sqlite SqliteTables.

(** The texts of instants and headers are used through their lemmas. *)
Opaque formatTime parseTime encodeHeaders decodeHeaders.

(** * Rows and records *)

Definition headers_text (h : gmap string string) : string :=
  match encodeHeaders h with Ok raw => raw | Err _ => "" end.

Lemma encode_headers_text h : encodeHeaders h = Ok (headers_text h).
Proof. unfold headers_text. by destruct (encodeHeaders_Ok h) as [raw ->]. Qed.

Lemma decode_headers_text h : text_ok h → decodeHeaders (headers_text h) = Ok h.
Proof. intros (raw & He & Hd)%decode_encodeHeaders. unfold headers_text. by rewrite He. Qed.

Definition message_ok (m : Message) : Prop :=
  text_ok (msg_Headers m) ∧ time_in_range (msg_CreatedAt m) ∧ time_in_range (msg_UpdatedAt m) ∧
  time_in_range (msg_AvailableAt m).

(** A record as a row. *)
Definition row_of (seq : Z) (r : record) : message_row :=
  let msg := rec_msg r in
  mkMessageRow seq (msg_ID msg) (msg_Queue msg) (msg_Exchange msg) (msg_RoutingKey msg)
    (msg_Schema msg) (msg_Payload msg) (headers_text (msg_Headers msg)) (msg_State msg)
    (msg_Attempts msg) (msg_MaxAttempts msg) (msg_LastError msg) (formatTime (msg_CreatedAt msg))
    (formatTime (msg_UpdatedAt msg)) (formatTime (msg_AvailableAt msg))
    (if decide (rec_lease r = zeroTime) then None else Some (formatTime (rec_lease r)))
    (rec_consumer r).

Definition record_ok (r : record) : Prop :=
  message_ok (rec_msg r) ∧ time_in_range (rec_lease r) ∧ stored_state (rec_State r) ∧
  (rec_State r ≠ StateProcessing → rec_lease r = zeroTime ∧ rec_consumer r = "").

(** A row as a record. *)
Definition lease_of (lease : option string) : Time :=
  match lease with
  | None => zeroTime
  | Some text => match parseTime text with Ok t => t | Err _ => zeroTime end
  end.

Definition no_message : Message :=
  mkMessage "" "" "" "" "" "" ∅ "" 0 0 "" zeroTime zeroTime zeroTime.

Definition record_of (row : message_row) : record :=
  mkRecord (match scanMessage row with Ok m => m | Err _ => no_message end)
    (lease_of (mr_lease_expires_at row)) (mr_consumer row).

Lemma scan_row_of seq r : message_ok (rec_msg r) → scanMessage (row_of seq r) = Ok (rec_msg r).
Proof.
  intros (Hh & Hc & Hu & Ha). unfold scanMessage, row_of. cbn -[headers_text formatTime].
  rewrite decode_headers_text by done. cbn -[formatTime]. rewrite !parseTime_formatTime by done.
  cbn. by destruct r as [[]].
Qed.

Lemma record_of_row_of seq r :
  message_ok (rec_msg r) → time_in_range (rec_lease r) → record_of (row_of seq r) = r.
Proof.
  intros Hm Hl. unfold record_of. rewrite scan_row_of by done. destruct r as [m l c]. simpl in *.
  f_equal. case_decide as Hz; simpl; [done|]. by rewrite parseTime_formatTime.
Qed.

(** * The messages table *)

Definition row_ok (row : message_row) : Prop :=
  record_ok (record_of row) ∧ row = row_of (mr_seq row) (record_of row).

Record messages_wf (rows : list message_row) (last : Z) : Prop := {
  mw_rows : Forall row_ok rows;
  mw_ids : NoDup (mr_id <$> rows);
  mw_sorted : StronglySorted Z.lt (mr_seq <$> rows);
  mw_last : Forall (fun row => mr_seq row ≤ last)%Z rows;
}.

Definition messages_view (rows : list message_row) : gmap string record :=
  table_view mr_id record_of rows.

Lemma row_of_ok seq r : record_ok r → row_ok (row_of seq r).
Proof.
  intros Hr. unfold row_ok. rewrite record_of_row_of by (by destruct Hr as (? & ? & ?)). done.
Qed.

Section row.
Context (row : message_row) (Hrow : row_ok row).

Lemma row_id : mr_id row = msg_ID (rec_msg (record_of row)).
Proof. exact (f_equal mr_id (proj2 Hrow)). Qed.
Lemma row_queue : mr_queue row = rec_Queue (record_of row).
Proof. exact (f_equal mr_queue (proj2 Hrow)). Qed.
Lemma row_state : mr_state row = rec_State (record_of row).
Proof. exact (f_equal mr_state (proj2 Hrow)). Qed.
Lemma row_available : mr_available_at row = formatTime (msg_AvailableAt (rec_msg (record_of row))).
Proof. exact (f_equal mr_available_at (proj2 Hrow)). Qed.
Lemma row_lease : mr_lease_expires_at row =
  (if decide (rec_lease (record_of row) = zeroTime) then None
   else Some (formatTime (rec_lease (record_of row)))).
Proof. exact (f_equal mr_lease_expires_at (proj2 Hrow)). Qed.
Lemma row_scan : scanMessage row = Ok (rec_msg (record_of row)).
Proof. destruct Hrow as [[Hm _] Heq]. rewrite Heq at 1. by apply scan_row_of. Qed.

(** The statements that set columns, as changes of the record. *)
Lemma row_set f set :
  set row = row_of (mr_seq row) (f (record_of row)) → record_ok (f (record_of row)) →
  row_ok (set row) ∧ record_of (set row) = f (record_of row) ∧ mr_seq (set row) = mr_seq row.
Proof.
  intros -> Hok. split_and!; [by apply row_of_ok| |done].
  destruct Hok as (? & ? & _). by apply record_of_row_of.
Qed.
End row.

Lemma messages_row rows last row : messages_wf rows last → row ∈ rows → row_ok row.
Proof. intros Hwf. by apply (proj1 (Forall_forall _ _) (mw_rows _ _ Hwf)). Qed.

Lemma messages_cases rows last id :
  messages_wf rows last →
  (∃ row, row ∈ rows ∧ mr_id row = id ∧ row_ok row ∧
     messages_view rows !! id = Some (record_of row) ∧ filter (fun r => mr_id r = id) rows = [row]) ∨
  (id ∉ (mr_id <$> rows) ∧ messages_view rows !! id = None ∧ filter (fun r => mr_id r = id) rows = []).
Proof.
  intros Hwf. destruct (table_cases mr_id record_of rows id (mw_ids _ _ Hwf))
    as [(row & Hin & Hid & Hv & Hf)|?]; [left|by right].
  exists row. split_and!; [done..|by eapply messages_row|done|done].
Qed.

Lemma messages_view_ok rows last id r :
  messages_wf rows last → messages_view rows !! id = Some r → msg_ID (rec_msg r) = id ∧ record_ok r.
Proof.
  intros Hwf (row & Hin & <- & <-)%table_view_Some; [|by apply Hwf].
  pose proof (messages_row _ _ _ Hwf Hin) as Hok. rewrite (row_id row Hok). split; [done|apply Hok].
Qed.

(** Statements that change some rows in place. *)
Lemma messages_wf_map rows last (set : message_row → message_row) :
  messages_wf rows last →
  (∀ row, row ∈ rows → row_ok (set row) ∧ mr_id (set row) = mr_id row ∧ mr_seq (set row) = mr_seq row) →
  messages_wf (set <$> rows) last.
Proof.
  intros Hwf Hset. assert (mr_seq <$> (set <$> rows) = mr_seq <$> rows) as Hseq.
  { rewrite <-list_fmap_compose. apply list_fmap_ext. intros i row Hi. simpl.
    apply Hset. by eapply list_elem_of_lookup_2. }
  split.
  - apply Forall_fmap, Forall_forall. intros row Hin. by apply Hset.
  - rewrite table_keys_update; [by apply Hwf|]. intros row Hin. by apply Hset.
  - rewrite Hseq. by apply Hwf.
  - apply Forall_fmap, Forall_forall. intros row Hin. simpl.
    destruct (Hset row Hin) as (_ & _ & ->). by apply (proj1 (Forall_forall _ _) (mw_last _ _ Hwf)).
Qed.

Lemma Forall_sublist_of {A} (P : A → Prop) l1 l2 : l1 `sublist_of` l2 → Forall P l2 → Forall P l1.
Proof.
  rewrite !Forall_forall. intros Hs Hl x Hx. apply Hl. by eapply elem_of_sublist.
Qed.

Lemma StronglySorted_sublist {A} (R : A → A → Prop) l1 l2 :
  l1 `sublist_of` l2 → StronglySorted R l2 → StronglySorted R l1.
Proof.
  induction 1 as [|x l1 l2 Hs IH|x l1 l2 Hs IH]; [done|..]; inversion 1 as [|? ? Hl Hf]; subst.
  - constructor; [by apply IH|]. by eapply Forall_sublist_of.
  - by apply IH.
Qed.

Lemma messages_wf_filter rows last (P : message_row → Prop) `{∀ row, Decision (P row)} :
  messages_wf rows last → messages_wf (filter P rows) last.
Proof.
  intros Hwf. pose proof (sublist_filter P rows) as Hsub. split.
  - eapply Forall_sublist_of; [exact Hsub|apply Hwf].
  - by apply table_keys_filter, Hwf.
  - eapply StronglySorted_sublist; [by apply fmap_sublist|apply Hwf].
  - eapply Forall_sublist_of; [exact Hsub|apply Hwf].
Qed.

Lemma messages_wf_insert rows last row :
  messages_wf rows last → row_ok row → mr_id row ∉ (mr_id <$> rows) → mr_seq row = (last + 1)%Z →
  messages_wf (rows ++ [row]) (last + 1).
Proof.
  intros Hwf Hrow Hni Hseq. split.
  - apply Forall_app. split; [apply Hwf|by apply Forall_singleton].
  - by apply table_keys_insert; [apply Hwf|].
  - rewrite fmap_app. apply StronglySorted_app_2; [|apply Hwf|by repeat constructor].
    intros x y (r & -> & Hr)%list_elem_of_fmap ->%list_elem_of_singleton.
    pose proof (proj1 (Forall_forall _ _) (mw_last _ _ Hwf) r Hr). simpl in *. lia.
  - apply Forall_app. split; [|apply Forall_singleton; simpl; lia].
    eapply Forall_impl; [exact (mw_last _ _ Hwf)|]. intros r Hr. simpl in Hr. lia.
Qed.

(** * Dead letters *)

Definition letter_ok (d : DeadLetter) : Prop :=
  text_ok (dl_Headers d) ∧ time_in_range (dl_PublishedAt d) ∧ time_in_range (dl_FirstFailedAt d) ∧
  time_in_range (dl_DeadLetteredAt d) ∧ time_in_range (dl_ReplayedAt d) ∧ in_int64 (dl_ReplayCount d).

Definition letter_row (d : DeadLetter) : dead_letter_row :=
  dead_letter_values d (headers_text (dl_Headers d)).

Definition no_letter : DeadLetter :=
  mkDeadLetter "" "" "" "" "" "" "" ∅ "" "" 0 zeroTime zeroTime zeroTime "" zeroTime 0.

Definition letter_of (row : dead_letter_row) : DeadLetter :=
  match scanDeadLetter row with Ok d => d | Err _ => no_letter end.

Lemma scan_letter_row d : letter_ok d → scanDeadLetter (letter_row d) = Ok d.
Proof.
  intros (Hh & Hp & Hf & Hd & Hr & _). unfold scanDeadLetter, letter_row, dead_letter_values.
  cbn -[headers_text formatTime]. rewrite decode_headers_text by done. cbn -[formatTime].
  rewrite !parseTime_formatTime by done. by destruct d.
Qed.

Lemma letter_of_row d : letter_ok d → letter_of (letter_row d) = d.
Proof. intros Hd. unfold letter_of. by rewrite scan_letter_row. Qed.

Definition letter_row_ok (row : dead_letter_row) : Prop :=
  letter_ok (letter_of row) ∧ row = letter_row (letter_of row).

Lemma letter_row_row_ok d : letter_ok d → letter_row_ok (letter_row d).
Proof. intros Hd. unfold letter_row_ok. by rewrite letter_of_row. Qed.

Section letter.
Context (row : dead_letter_row) (Hrow : letter_row_ok row).

Lemma letter_id : dr_id row = dl_ID (letter_of row).
Proof. exact (f_equal dr_id (proj2 Hrow)). Qed.
Lemma letter_queue : dr_queue row = dl_Queue (letter_of row).
Proof. exact (f_equal dr_queue (proj2 Hrow)). Qed.
Lemma letter_dead_at : dr_dead_lettered_at row = formatTime (dl_DeadLetteredAt (letter_of row)).
Proof. exact (f_equal dr_dead_lettered_at (proj2 Hrow)). Qed.
Lemma letter_scan : scanDeadLetter row = Ok (letter_of row).
Proof. destruct Hrow as [Hok Heq]. rewrite Heq at 1. by apply scan_letter_row. Qed.
End letter.

Record letters_wf (rows : list dead_letter_row) : Prop := {
  lw_rows : Forall letter_row_ok rows;
  lw_ids : NoDup (dr_id <$> rows);
}.

Definition letters_view (rows : list dead_letter_row) : gmap string DeadLetter :=
  table_view dr_id letter_of rows.

Lemma letters_row rows row : letters_wf rows → row ∈ rows → letter_row_ok row.
Proof. intros Hwf. by apply (proj1 (Forall_forall _ _) (lw_rows _ Hwf)). Qed.

(** * History *)

Definition event_ok (e : HistoryEvent) : Prop := time_in_range (he_At e).

Definition event_row (seq : Z) (e : HistoryEvent) : history_row :=
  mkHistoryRow seq (he_MessageID e) (he_Queue e) (he_From e) (he_To e) (he_Consumer e)
    (he_Detail e) (formatTime (he_At e)).

Definition no_event : HistoryEvent := mkHistoryEvent "" "" "" "" "" "" zeroTime.

Definition event_of (row : history_row) : HistoryEvent :=
  match scanHistory row with Ok e => e | Err _ => no_event end.

Lemma scan_event_row seq e : event_ok e → scanHistory (event_row seq e) = Ok e.
Proof.
  intros He. unfold scanHistory, event_row. cbn -[formatTime].
  rewrite parseTime_formatTime by done. by destruct e.
Qed.

Record history_wf (rows : list history_row) (last : Z) : Prop := {
  hw_rows : Forall (fun row => ∃ e, scanHistory row = Ok e ∧ he_MessageID e = hr_message_id row) rows;
  hw_sorted : StronglySorted Z.lt (hr_id <$> rows);
  hw_last : Forall (fun row => hr_id row ≤ last)%Z rows;
}.

Definition history_view (rows : list history_row) : gmap string (list HistoryEvent) :=
  foldl (fun m row => <[hr_message_id row := slice_at m (hr_message_id row) ++ [event_of row]]> m)
    ∅ rows.

Lemma history_view_snoc rows row :
  history_view (rows ++ [row]) =
  <[hr_message_id row := slice_at (history_view rows) (hr_message_id row) ++ [event_of row]]>
    (history_view rows).
Proof. unfold history_view. by rewrite foldl_app. Qed.

Lemma history_view_slice rows id :
  slice_at (history_view rows) id = event_of <$> filter (fun row => hr_message_id row = id) rows.
Proof.
  induction rows as [|row rows IH] using rev_ind; [done|].
  rewrite history_view_snoc, slice_at_insert, filter_app, fmap_app, filter_cons, filter_nil.
  case_decide as Hid; [subst id; by rewrite IH|]. by rewrite app_nil_r.
Qed.

(** * The tables *)

Definition tables_wf (t : Tables) : Prop :=
  messages_wf (t_messages t) (t_message_seq t) ∧ letters_wf (t_dead_letters t) ∧
  history_wf (t_history t) (t_history_seq t).

Definition tables_view (t : Tables) : astore :=
  mkAStore (list_to_set (qr_name <$> t_queues t)) (messages_view (t_messages t))
    (letters_view (t_dead_letters t)) (history_view (t_history t)).

Definition sqlite_inv (db : Db) : Prop := healthy db ∧ tables_wf (db_tables db).
Definition sqlite_view (db : Db) : astore := tables_view (db_tables db).

Lemma sqlite_inv_ok db : sqlite_inv db → astore_ok (sqlite_view db).
Proof.
  intros (_ & Hm & Hl & _). split; simpl.
  - intros id r Hr. destruct (messages_view_ok _ _ _ _ Hm Hr) as (Hid & _ & _ & Hst & Hlease). done.
  - intros id d (row & Hin & <- & <-)%table_view_Some; [|apply Hl].
    symmetry. by apply letter_id, (letters_row _ _ Hl).
Qed.

(** An evaluation with a contract's outcome. *)
Definition satisfies {A} (p : prog Db A) (R : spec A) (t : Tables) : Prop :=
  ∃ t' r, evals p t (t', r) ∧ tables_wf t' ∧ R (tables_view t) r (tables_view t').

Lemma satisfies_law {A} (p : prog Db A) (R : spec A) db :
  sqlite_inv db → satisfies p R (db_tables db) →
  sqlite_inv (p db).1 ∧ R (sqlite_view db) (p db).2 (sqlite_view (p db).1).
Proof.
  intros (Hh & Hwf) (t' & r & Hp & Hwf' & HR).
  destruct (evals_run _ _ _ _ _ Hp Hh eq_refl) as (db1 & -> & Hh1 & <-). done.
Qed.

(** * Reading one message *)

Lemma evals_loadMessage id t :
  tables_wf t →
  evals (loadMessage id) t
    (t, match messages_view (t_messages t) !! id with
        | Some r => Ok (rec_msg r)
        | None => Err (StorageErr ErrNotFound)
        end).
Proof.
  intros (Hm & _). unfold loadMessage.
  pose proof (evals_statement (fun t => (t, match select_message id t with
    | Some a => Ok a | None => Err (OtherErr SqlErrNoRows) end)) t) as Hq. simpl in Hq.
  unfold select_message in Hq.
  destruct (messages_cases _ _ id Hm) as [(row & _ & _ & Hok & -> & Hf)|(_ & -> & Hf)];
    rewrite Hf in Hq; simpl in Hq.
  - apply (evals_on_error _ _ t t (Ok (rec_msg (record_of row)))).
    eapply evals_bind; [exact Hq|]. rewrite <-(row_scan row Hok). apply evals_lift.
  - apply (evals_on_error translateNoRows _ t t (Err (OtherErr SqlErrNoRows))). by apply evals_bind_err.
Qed.

Lemma Message_satisfies id t : tables_wf t → satisfies (sq_Message id) (message_spec id) t.
Proof.
  intros Hwf. eexists t, _. split; [by apply evals_loadMessage|]. split; [done|]. split; [|done].
  simpl. by destruct (messages_view (t_messages t) !! id).
Qed.

(** * Changing one message *)

Lemma tables_view_messages rows seq t :
  tables_view (put_message_rows rows seq t) = with_messages (fun _ => messages_view rows) (tables_view t).
Proof. done. Qed.

Lemma tables_wf_messages rows seq t :
  tables_wf t → messages_wf rows seq → tables_wf (put_message_rows rows seq t).
Proof. by intros (_ & ? & ?) ?. Qed.

Lemma update_message_spec t row (set : message_row → message_row) (f : record → record) :
  tables_wf t → row ∈ t_messages t → set row = row_of (mr_seq row) (f (record_of row)) →
  record_ok (f (record_of row)) → msg_ID (rec_msg (f (record_of row))) = mr_id row →
  let t' := (update_message (mr_id row) set t).1 in
  tables_wf t' ∧
  tables_view t' = with_messages (insert (mr_id row) (f (record_of row))) (tables_view t).
Proof.
  intros Hwf Hin Hset Hok Hid t'. destruct Hwf as (Hm & Hrest).
  pose proof (messages_row _ _ _ Hm Hin) as Hrow.
  destruct (row_set row f set Hset Hok) as (Hok' & Hrec' & Hseq').
  assert (mr_id (set row) = mr_id row) as Hid' by (rewrite (row_id _ Hok'), Hrec'; done).
  split.
  - apply tables_wf_messages; [done|]. apply messages_wf_map; [done|]. intros r Hr.
    case_decide as Hk; [|split; [by eapply messages_row|done]].
    rewrite (table_key_inj mr_id (t_messages t) r row (mw_ids _ _ Hm) Hr Hin Hk). done.
  - subst t'. unfold update_message. simpl. rewrite tables_view_messages.
    unfold with_messages. simpl. f_equal. unfold messages_view.
    rewrite (table_view_update mr_id record_of) by (try done; apply Hm). by rewrite Hrec'.
Qed.

Lemma evals_update id set t :
  evals (exec (update_message id set)) t
    ((update_message id set t).1, Ok (Z.of_nat (length (filter (fun r => mr_id r = id) (t_messages t))))).
Proof. apply (evals_statement (update_message id set)). Qed.

(** The operations on a leased message: [apply] writes the row of [f]. *)
Lemma leased_satisfies id apply (f : record → record) t :
  tables_wf t →
  (∀ row, row_ok row → rec_State (record_of row) = StateProcessing →
     record_ok (f (record_of row)) ∧ msg_ID (rec_msg (f (record_of row))) = mr_id row ∧
     ∃ set, set row = row_of (mr_seq row) (f (record_of row)) ∧
       ∀ t, evals (apply (rec_msg (record_of row))) t ((update_message (mr_id row) set t).1, Ok tt)) →
  satisfies (transitionLeased id apply) (leased_spec id f) t.
Proof.
  intros Hwf Happly. pose proof (evals_loadMessage id t Hwf) as Hload. destruct Hwf as (Hm & Hrest).
  unfold transitionLeased, satisfies, leased_spec. simpl.
  destruct (messages_cases _ _ id Hm) as [(row & Hin & <- & Hok & Hv & _)|(_ & Hv & _)];
    rewrite Hv in Hload |- *.
  - destruct (decide (rec_State (record_of row) = StateProcessing)) as [Hp|Hp].
    + destruct (Happly row Hok Hp) as (Hrok & Hid & set & Hset & Heval).
      destruct (update_message_spec t row set f) as [Hwf' Hview]; [done..|].
      eexists _, _. split; [|split; [exact Hwf'|split; [done|exact Hview]]].
      apply (evals_transaction _ _ _ t _ (Ok tt)). eapply evals_bind; [exact Hload|].
      rewrite decide_True by done. by apply evals_wrapping.
    + eexists _, _. split; [|split; [|split; [done|reflexivity]]]; [|done].
      eapply (evals_transaction _ _ _ t t (Err _)). eapply evals_bind; [exact Hload|].
      rewrite decide_False by done. apply evals_fails.
  - eexists _, _. split; [|split; [|split; [done|reflexivity]]]; [|done].
    eapply (evals_transaction _ _ _ t t (Err _)). by apply evals_bind_err.
Qed.

(** The UPDATE that ends a lease. *)
Definition released_record (msg : Message) (avail : option Time) (reason : option string)
    (r : record) : record :=
  mkRecord (mkMessage (msg_ID (rec_msg r)) (msg_Exchange (rec_msg r))
    (msg_RoutingKey (rec_msg r)) (msg_Queue (rec_msg r)) (msg_Schema (rec_msg r))
    (msg_Payload (rec_msg r)) (msg_Headers (rec_msg r)) (msg_State msg) (msg_Attempts (rec_msg r))
    (msg_MaxAttempts (rec_msg r)) (default (msg_LastError (rec_msg r)) reason)
    (msg_CreatedAt (rec_msg r)) (msg_UpdatedAt msg)
    (default (msg_AvailableAt (rec_msg r)) avail)) zeroTime "".

Lemma set_released_spec row msg avail reason :
  row_ok row →
  set_released msg (formatTime <$> avail) reason row =
  row_of (mr_seq row) (released_record msg avail reason (record_of row)).
Proof.
  intros [_ Heq]. etrans; [exact (f_equal _ Heq)|].
  unfold set_released, row_of, released_record. cbn [rec_msg rec_lease rec_consumer].
  destruct (decide (zeroTime = zeroTime)) as [_|Hn]; [|by destruct Hn]. by destruct avail, reason.
Qed.

Lemma zeroTime_in_range : time_in_range zeroTime.
Proof. unfold time_in_range, day_ns, second_ns. lia. Qed.

Lemma released_ok msg avail reason r :
  record_ok r → time_in_range (msg_UpdatedAt msg) → (∀ t, avail = Some t → time_in_range t) →
  stored_state (msg_State msg) → record_ok (released_record msg avail reason r).
Proof.
  intros ((Hh & Hc & Hu & Ha) & _) Hnow Hav Hst.
  split_and!; [split_and!; [done..|]|apply zeroTime_in_range|done|done].
  destruct avail; simpl; [by apply Hav|done].
Qed.

(** A lease is ended by transitions from PROCESSING and one UPDATE. *)
Lemma leased_update id apply msg avail reason t (f : record → record) :
  tables_wf t →
  (∀ r, f r = released_record (msg (rec_msg r)) avail reason r) →
  (∀ m, time_in_range (msg_UpdatedAt (msg m)) ∧ stored_state (msg_State (msg m)) ∧
        msg_ID (msg m) = msg_ID m) →
  (∀ t, avail = Some t → time_in_range t) →
  (∀ m t, msg_State m = StateProcessing →
     evals (apply m) t
       ((update_message (msg_ID m) (set_released (msg m) (formatTime <$> avail) reason) t).1, Ok tt)) →
  satisfies (transitionLeased id apply) (leased_spec id f) t.
Proof.
  intros Hwf Hf Hmsg Hav Happly. apply leased_satisfies; [done|]. intros row Hok Hp.
  destruct (Hmsg (rec_msg (record_of row))) as (Hnow & Hst & Hid). rewrite Hf.
  split; [by apply released_ok; [apply Hok|..]|]. split; [simpl; by rewrite (row_id row Hok)|].
  exists (set_released (msg (rec_msg (record_of row))) (formatTime <$> avail) reason).
  split; [by apply set_released_spec|]. intros t'. rewrite (row_id row Hok). by apply Happly.
Qed.

Lemma evals_Transition next now m (t : Tables) :
  lifecycle (msg_State m) next →
  evals (lift (Transition next now m)) t (t, Ok (set_UpdatedAt now (set_State next m))).
Proof. intros Hl. rewrite Transition_lifecycle by done. apply evals_lift. Qed.

(** Run the transitions of a method body, then its UPDATE. *)
Ltac run_transitions Hp :=
  repeat (eapply evals_bind; [apply evals_Transition; simpl; rewrite ?Hp; constructor|]);
  eapply evals_bind; [apply evals_update|]; apply evals_ret.

Lemma Acknowledge_satisfies id at_ t :
  tables_wf t → time_in_range at_ → satisfies (sq_Acknowledge id at_) (leased_spec id (ack_record at_)) t.
Proof.
  intros Hwf Hat.
  apply (leased_update _ _ (fun m => set_UpdatedAt at_ (set_State StateAcknowledged m)) None None);
    [done|by intros [[]]| |done|].
  - intros m. split_and!; [done| |done]. by do 3 right; left.
  - intros m t' Hp. run_transitions Hp.
Qed.

Lemma ScheduleRetry_satisfies req t :
  tables_wf t → time_in_range (rr_Now req) → time_in_range (rr_AvailableAt req) →
  satisfies (sq_ScheduleRetry req) (leased_spec (rr_ID req) (retry_record req)) t.
Proof.
  intros Hwf Hnow Hav.
  apply (leased_update _ _ (fun m => set_UpdatedAt (rr_Now req) (set_State StateRetrying m))
           (Some (rr_AvailableAt req)) (Some (rr_Reason req))); [done|by intros [[]]| |by intros ? [= <-]|].
  - intros m. split_and!; [done| |done]. by do 2 right; left.
  - intros m t' Hp. run_transitions Hp.
Qed.

Lemma Release_satisfies id at_ t :
  tables_wf t → time_in_range at_ → satisfies (sq_Release id at_) (leased_spec id (release_record at_)) t.
Proof.
  intros Hwf Hat.
  apply (leased_update _ _ (fun m => set_UpdatedAt at_ (set_State StateQueued m)) (Some at_) None);
    [done|by intros [[]]| |by intros ? [= <-]|].
  - intros m. split_and!; [done| |done]. by left.
  - intros m t' Hp. run_transitions Hp.
Qed.

Lemma MarkDeadLettered_satisfies id reason at_ t :
  tables_wf t → time_in_range at_ →
  satisfies (sq_MarkDeadLettered id reason at_) (dead_spec id reason at_) t.
Proof.
  intros Hwf Hat. pose proof (evals_loadMessage id t Hwf) as Hload. pose proof Hwf as (Hm & Hrest).
  unfold sq_MarkDeadLettered, satisfies, dead_spec. simpl.
  destruct (messages_cases _ _ id Hm) as [(row & Hin & <- & Hok & Hv & _)|(_ & Hv & _)];
    rewrite Hv in Hload |- *.
  2:{ eexists _, _. split; [|split; [|split; [done|reflexivity]]]; [|done].
      eapply (evals_transaction _ _ _ t t (Err _)). by apply evals_bind_err. }
  destruct (decide (rec_State (record_of row) = StateProcessing)) as [Hp|Hp].
  - set (msg := set_UpdatedAt at_ (set_State StateDeadLettered (rec_msg (record_of row)))).
    destruct (update_message_spec t row (set_released msg None (Some reason)) (dead_record reason at_))
      as [Hwf' Hview]; [done|done| | |by rewrite (row_id row Hok)|].
    + exact (set_released_spec row msg None (Some reason) Hok).
    + apply (released_ok msg None (Some reason)); [apply Hok|done..|]. by do 4 right.
    + eexists _, _. split; [|split; [exact Hwf'|split; [done|exact Hview]]].
      apply (evals_transaction _ _ _ t _ (Ok tt)). eapply evals_bind; [exact Hload|].
      rewrite decide_True by done.
      eapply evals_bind; [apply evals_Transition|].
      { change (lifecycle (rec_State (record_of row)) StateFailed). rewrite Hp. constructor. }
      eapply evals_bind; [apply evals_Transition; constructor|].
      eapply evals_bind; [apply evals_wrapping, evals_update|].
      rewrite (row_id row Hok). apply evals_ret.
  - eexists _, _. split; [|split; [|split; [done|reflexivity]]]; [|done].
    eapply (evals_transaction _ _ _ t t (Err _)). eapply evals_bind; [exact Hload|].
    rewrite decide_False by done. eapply evals_bind; [apply evals_lift|]. apply evals_bind_err.
    assert (Transition StateDeadLettered at_ (rec_msg (record_of row)) =
            Err (InvalidTransitionError (rec_State (record_of row)) StateDeadLettered)) as ->;
      [|apply evals_lift].
    apply Transition_Err. right. split_and!; [done| |done].
    destruct Hok as ((_ & _ & Hst & _) & _). fold (rec_State (record_of row)).
    destruct Hst as [E|[E|[E|[E|E]]]]; rewrite E; inversion 1.
Qed.
