(* ===== verification/SqliteContract.v ===== *)
(** The methods of the SQLite store, one by one against the contract, and the
    instance of [StoreContract] ([Sqlite.v], [SqliteProofs.v]). *)

From S2P Require Import Prelude Errors TimeText TimeProofs HeaderJson HeaderProofs Message.
From S2P Require Import Broker Storage SqlConn SqlConnProofs Sqlite SqliteTables SqliteProofs.

Opaque formatTime parseTime encodeHeaders decodeHeaders.

(** * Append *)

Definition new_record (msg : Message) : record := mkRecord msg zeroTime "".

Lemma new_record_ok msg : message_ok msg → msg_State msg = StateQueued → record_ok (new_record msg).
Proof.
  intros Hm Hs. split_and!; [done|apply zeroTime_in_range|by left|done].
Qed.

Lemma message_values_row msg seq :
  message_values msg (headers_text (msg_Headers msg)) seq = row_of seq (new_record msg).
Proof.
  unfold message_values, row_of, new_record. cbn [rec_msg rec_lease rec_consumer].
  destruct (decide (zeroTime = zeroTime)) as [_|Hn]; [done|by destruct Hn].
Qed.

Definition append_row (msg : Message) (t : Tables) : Tables :=
  put_message_rows (t_messages t ++ [row_of (t_message_seq t + 1) (new_record msg)])
    (t_message_seq t + 1) t.

Lemma evals_append_message msg t :
  evals (append_message msg) t
    (if decide (msg_ID msg ∈ (mr_id <$> t_messages t))
     then (t, Err (StorageErr ErrConflict)) else (append_row msg t, Ok tt)).
Proof.
  pose proof (evals_statement (insert_message (message_values msg (headers_text (msg_Headers msg)))) t)
    as Hex.
  unfold insert_message in Hex. cbv zeta in Hex. rewrite message_values_row in Hex.
  change (mr_id (row_of _ _)) with (msg_ID msg) in Hex.
  unfold append_message. rewrite encode_headers_text. case_decide as Hin.
  - eapply evals_bind; [apply evals_lift|]. apply evals_bind_err.
    eapply (evals_conflict _ _ _ _ (unique_violation codeConstraintUnique "messages.id"));
      [vm_compute; reflexivity|exact Hex].
  - eapply evals_bind; [apply evals_lift|]. eapply evals_bind; [|apply evals_ret].
    apply evals_or_conflict. exact Hex.
Qed.

Lemma append_row_spec msg t :
  tables_wf t → message_ok msg → msg_State msg = StateQueued →
  msg_ID msg ∉ (mr_id <$> t_messages t) →
  tables_wf (append_row msg t) ∧
  tables_view (append_row msg t) = with_messages (insert (msg_ID msg) (new_record msg)) (tables_view t).
Proof.
  intros Hwf Hm Hs Hni. pose proof (new_record_ok msg Hm Hs) as Hok. split.
  - apply tables_wf_messages; [done|]. apply messages_wf_insert; [apply Hwf|by apply row_of_ok|done..].
  - unfold append_row. rewrite tables_view_messages. unfold with_messages; simpl. f_equal.
    unfold messages_view. rewrite (table_view_insert mr_id record_of) by done.
    destruct Hok as (? & ? & _). by rewrite record_of_row_of.
Qed.

(** The loop over the messages: all of them, or a conflict. *)
Lemma evals_append_all ms t :
  tables_wf t → NoDup (msg_ID <$> ms) → Forall message_ok ms →
  Forall (fun msg => msg_State msg = StateQueued) ms →
  ∃ t', tables_wf t' ∧
    (if decide (Exists (fun msg => msg_ID msg ∈ (mr_id <$> t_messages t)) ms)
     then evals (for_each append_message ms) t (t', Err (StorageErr ErrConflict))
     else evals (for_each append_message ms) t (t', Ok tt) ∧
          tables_view t' = with_messages (append_all ms) (tables_view t)).
Proof.
  revert t. induction ms as [|msg ms IH]; intros t Hwf Hnd Hok Hst.
  - exists t. case_decide as Hx; [by apply Exists_nil in Hx|]. split_and!; [done|apply evals_ret|done].
  - apply NoDup_cons in Hnd as [Hni Hnd]. apply Forall_cons in Hok as [Hm Hok].
    apply Forall_cons in Hst as [Hs Hst]. rewrite for_each_cons.
    pose proof (evals_append_message msg t) as Hone. case_decide as Hin.
    { exists t. split; [done|]. rewrite decide_True by (by left). by apply evals_bind_err. }
    destruct (append_row_spec msg t Hwf Hm Hs Hin) as [Hwf' Hview].
    destruct (IH (append_row msg t) Hwf' Hnd Hok Hst) as (t' & Hwt' & Hrest).
    exists t'. split; [done|].
    assert (Exists (fun x => msg_ID x ∈ (mr_id <$> t_messages (append_row msg t))) ms ↔
            Exists (fun x => msg_ID x ∈ (mr_id <$> t_messages t)) (msg :: ms)) as Hiff.
    { rewrite Exists_cons, !Exists_exists. simpl. split.
      - intros (x & Hx & Hx'). rewrite fmap_app in Hx'. right. exists x. split; [done|].
        apply elem_of_app in Hx' as [|Hx']; [done|]. apply list_elem_of_singleton in Hx'.
        destruct Hni. simpl in Hx'. rewrite <-Hx'. by apply list_elem_of_fmap_2.
      - intros [?|(x & Hx & Hx')]; [done|]. exists x. split; [done|]. rewrite fmap_app. set_solver. }
    destruct (decide (Exists _ ms)) as [Hex|Hex].
    + rewrite decide_True by (by apply Hiff). by eapply evals_bind.
    + rewrite decide_False by (by rewrite <-Hiff). destruct Hrest as [Hev Hv].
      split; [by eapply evals_bind|]. rewrite Hv, Hview. done.
Qed.

Lemma Append_satisfies ms t :
  tables_wf t → appendable ms → Forall message_ok ms → satisfies (sq_Append ms) (append_spec ms) t.
Proof.
  intros Hwf [Hnd Hst] Hok. destruct ms as [|m0 ms].
  { exists t, (Ok tt). split; [apply evals_ret|]. split; [done|].
    unfold append_spec. case_decide as Hx; [by apply Exists_nil in Hx|done]. }
  unfold satisfies, sq_Append. set (l := m0 :: ms) in *.
  destruct (evals_append_all l t Hwf Hnd Hok Hst) as (t' & Hwf' & Hloop).
  assert (Exists (fun msg => msg_ID msg ∈ (mr_id <$> t_messages t)) l ↔
          Exists (fun msg => is_Some (a_messages (tables_view t) !! msg_ID msg)) l) as Hiff.
  { apply Exists_proper; [|done]. intros msg. simpl. unfold messages_view.
    rewrite <-not_eq_None_Some, table_view_None. destruct (decide (msg_ID msg ∈ (mr_id <$> t_messages t)));
      naive_solver. }
  unfold append_spec. destruct (decide (Exists (fun msg => msg_ID msg ∈ _) l)) as [Hex|Hex].
  - eexists t, _. split; [|split; [done|]]; [|by rewrite decide_True by (by apply Hiff)].
    eapply (evals_transaction _ _ _ t t' (Err _)).
    eapply evals_bind; [apply evals_wrapping, (evals_statement (fun t => (t, Ok tt)))|exact Hloop].
  - destruct Hloop as [Hloop Hv].
    eexists t', _. split; [|split; [done|]]; [|by rewrite decide_False by (by rewrite <-Hiff)].
    eapply (evals_transaction _ _ _ t t' (Ok tt)).
    eapply evals_bind; [apply evals_wrapping, (evals_statement (fun t => (t, Ok tt)))|exact Hloop].
Qed.

(** * Claim *)

Lemma format_after a b :
  time_in_range a → time_in_range b →
  String.compare (formatTime a) (formatTime b) ≠ Gt ↔ After a b = false.
Proof.
  intros Ha Hb. rewrite formatTime_compare by done. unfold After.
  by rewrite Z.compare_le_iff, Z.ltb_ge.
Qed.

Lemma row_claimable_spec req row :
  row_ok row → time_in_range (cr_Now req) → row_claimable req row ↔ claimable_in req (record_of row).
Proof.
  intros Hok Hnow. unfold row_claimable, claimable_in, claimable.
  rewrite (row_queue row Hok), (row_state row Hok), (row_available row Hok).
  destruct Hok as (((_ & _ & _ & Ha) & _) & _). rewrite format_after by done.
  fold (rec_State (record_of row)).
  rewrite elem_of_cons, list_elem_of_singleton. case_decide; rewrite ?negb_true_iff; naive_solver.
Qed.

Definition claim_row (req : ClaimRequest) (row : message_row) : message_row :=
  row_of (mr_seq row) (claim_record req (record_of row)).

Lemma set_leased_spec req row :
  row_ok row → (cr_Now req + cr_Lease req)%Z ≠ zeroTime →
  set_leased (rec_msg (claim_record req (record_of row))) (cr_Now req + cr_Lease req)
    (cr_Consumer req) row = claim_row req row.
Proof.
  intros [_ Heq] Hl. etrans; [exact (f_equal _ Heq)|].
  unfold set_leased, claim_row, row_of, claim_record. cbn [rec_msg rec_lease rec_consumer].
  destruct (decide ((cr_Now req + cr_Lease req)%Z = zeroTime)); done.
Qed.

Lemma claim_record_ok req r :
  record_ok r → time_in_range (cr_Now req) → time_in_range (cr_Now req + cr_Lease req) →
  record_ok (claim_record req r).
Proof.
  intros ((Hh & Hc & Hu & Ha) & _) Hnow Hl. split_and!; [done..| |done]. by right; left.
Qed.

Lemma claim_row_id req row : row_ok row → mr_id (claim_row req row) = mr_id row.
Proof. intros Hok. symmetry. exact (row_id row Hok). Qed.

(** What the loop does with a candidate. *)
Lemma lease_transitions req m :
  msg_State m = StateQueued ∨ msg_State m = StateRetrying →
  (m' ← (if decide (msg_State m = StateRetrying) then Transition StateQueued (cr_Now req) m else Ok m);
   Transition StateProcessing (cr_Now req) m') =
  Ok (set_UpdatedAt (cr_Now req) (set_State StateProcessing m)).
Proof.
  intros Hst. case_decide as Hr.
  - rewrite Transition_lifecycle by (rewrite Hr; constructor). simpl.
    by rewrite Transition_lifecycle by constructor.
  - destruct Hst as [Hq|]; [|done]. simpl. rewrite Transition_lifecycle by (rewrite Hq; constructor). done.
Qed.

Definition claim_rows (req : ClaimRequest) (ids : list string) (t : Tables) : Tables :=
  put_message_rows ((fun row => if decide (mr_id row ∈ ids) then claim_row req row else row)
    <$> t_messages t) (t_message_seq t) t.

Definition candidate (req : ClaimRequest) (t : Tables) (row : message_row) : Prop :=
  row ∈ t_messages t ∧ row_ok row ∧ claimable_in req (record_of row).

Lemma claimable_state req r :
  claimable_in req r → msg_State (rec_msg r) = StateQueued ∨ msg_State (rec_msg r) = StateRetrying.
Proof. intros [_ Hc]. unfold claimable in Hc. by case_decide. Qed.

(** One candidate more. *)
Lemma claim_rows_cons req row ids t :
  NoDup (mr_id <$> t_messages t) → row ∈ t_messages t → row_ok row → mr_id row ∉ ids →
  (cr_Now req + cr_Lease req)%Z ≠ zeroTime →
  claim_rows req ids (update_message (mr_id row)
    (set_leased (rec_msg (claim_record req (record_of row))) (cr_Now req + cr_Lease req)
       (cr_Consumer req)) t).1 = claim_rows req (mr_id row :: ids) t.
Proof.
  intros Hnd Hin Hok Hni Hl. pose proof (set_leased_spec req row Hok Hl) as Hset.
  set (set := set_leased _ _ _) in *. clearbody set.
  unfold claim_rows, update_message, put_message_rows. simpl. f_equal.
  rewrite <-list_fmap_compose. apply list_fmap_ext. intros i r Hr. simpl.
  apply list_elem_of_lookup_2 in Hr. destruct (decide (mr_id r = mr_id row)) as [E|E].
  - rewrite (table_key_inj mr_id _ r row Hnd Hr Hin E), Hset.
    rewrite claim_row_id, decide_False, decide_True by (done || set_solver). done.
  - destruct (decide (mr_id r ∈ ids)); [rewrite decide_True by set_solver; done|].
    rewrite decide_False by set_solver. done.
Qed.

Lemma evals_lease_each req cands claimed t :
  (cr_Now req + cr_Lease req)%Z ≠ zeroTime → NoDup (mr_id <$> t_messages t) →
  Forall (candidate req t) cands → NoDup (mr_id <$> cands) →
  evals (lease_each req ((fun row => rec_msg (record_of row)) <$> cands) claimed) t
    (claim_rows req (mr_id <$> cands) t,
     Ok (claimed ++ ((fun row => rec_msg (claim_record req (record_of row))) <$> cands))).
Proof.
  intros Hl. revert claimed t. induction cands as [|row cands IH]; intros claimed t Hids Hc Hnd.
  - rewrite app_nil_r. cbn. replace (claim_rows req [] t) with t; [apply evals_ret|].
    destruct t. unfold claim_rows, put_message_rows. simpl. f_equal.
    rewrite <-(list_fmap_id t_messages) at 1. by apply list_fmap_ext.
  - apply Forall_cons in Hc as [(Hin & Hok & Hcl) Hc]. apply NoDup_cons in Hnd as [Hni Hnd].
    pose proof (lease_transitions req _ (claimable_state _ _ Hcl)) as Htr.
    cbn [fmap list_fmap lease_each].
    destruct (if decide _ then _ else _) as [m1|e] eqn:E1; [|done]. cbn in Htr.
    eapply evals_bind; [apply evals_lift|]. eapply evals_bind; [rewrite Htr; apply evals_lift|].
    set (msg := set_Attempts _ _). 
    assert (msg = rec_msg (claim_record req (record_of row))) as -> by done.
    change (msg_ID (rec_msg (claim_record req (record_of row)))) with (msg_ID (rec_msg (record_of row))).
    rewrite <-(row_id row Hok).
    eapply evals_bind; [apply evals_wrapping, evals_update|].
    rewrite <-(claim_rows_cons req row (mr_id <$> cands) t) by done.
    pose proof (IH (claimed ++ [rec_msg (claim_record req (record_of row))])) as HIH.
    setoid_rewrite <-app_assoc in HIH. apply HIH; [..|done].
    + simpl. rewrite table_keys_update; [done|]. intros r Hr. by destruct (decide (mr_id r = mr_id row)).
    + apply Forall_forall. intros r Hr. pose proof (proj1 (Forall_forall _ _) Hc r Hr) as (Hrin & ? & ?).
      split; [|done]. simpl. apply list_elem_of_fmap. exists r. rewrite decide_False; [done|].
      intros E. apply Hni. rewrite <-E. by apply list_elem_of_fmap_2.
Qed.

Lemma scan_rows_Ok {R A} (scan : R → result error A) (f : R → A) rows acc :
  (∀ row, row ∈ rows → scan row = Ok (f row)) → scan_rows scan rows acc = Ok (acc ++ (f <$> rows)).
Proof.
  revert acc. induction rows as [|row rows IH]; intros acc Hs; [by rewrite app_nil_r|].
  cbn [scan_rows]. rewrite Hs by set_solver. cbn. rewrite IH by set_solver. by rewrite <-app_assoc.
Qed.

Lemma evals_scanMessages rows t :
  Forall row_ok rows →
  evals (scanMessages rows) t (t, Ok ((fun row => rec_msg (record_of row)) <$> rows)).
Proof.
  intros Hok. unfold scanMessages.
  rewrite (scan_rows_Ok _ (fun row => rec_msg (record_of row))).
  - eapply evals_bind; [apply evals_lift|]. eapply evals_bind; [apply evals_rows_Err|]. apply evals_ret.
  - intros row Hin. by rewrite (row_scan row) by (by apply (proj1 (Forall_forall _ _) Hok)).
Qed.

(** The rows a sorted, limited SELECT returns. *)
Lemma selected_rows rows last cmp limit (P : message_row → Prop) `{∀ row, Decision (P row)} :
  messages_wf rows last →
  let l := limit_rows limit (sorted_by cmp (filter P rows)) in
  NoDup (mr_id <$> l) ∧ (∀ row, row ∈ l → row ∈ rows ∧ row_ok row ∧ P row) ∧
  ((limit < 0 ∨ Z.of_nat (length l) < limit)%Z → ∀ row, row ∈ rows → P row → row ∈ l).
Proof.
  intros Hwf l. pose proof (sorted_by_perm cmp (filter P rows)) as Hp. split_and!.
  - eapply sublist_NoDup; [|apply fmap_sublist, limit_sublist]. rewrite Hp.
    apply table_keys_filter, Hwf.
  - intros row Hin. pose proof (elem_of_sublist _ _ _ Hin (limit_sublist _ _)) as Hin'.
    rewrite Hp, list_elem_of_filter in Hin'. destruct Hin' as [HP Hr].
    split_and!; [done|by eapply messages_row|done].
  - intros Hl row Hr HP. subst l. rewrite limit_rows_all by done. rewrite Hp, list_elem_of_filter. done.
Qed.

(** The messages of rows, through the view. *)
Lemma messages_of_rows rows view (f : record → record) :
  (∀ row, row ∈ rows → view !! mr_id row = Some (f (record_of row))) →
  messages_of view (mr_id <$> rows) = (fun row => rec_msg (f (record_of row))) <$> rows.
Proof.
  intros Hv. unfold messages_of. induction rows as [|row rows IH]; [done|].
  cbn [fmap list_fmap omap list_omap]. rewrite Hv by set_solver. simpl. f_equal. apply IH. set_solver.
Qed.

Lemma claim_rows_spec req ids t :
  tables_wf t → time_in_range (cr_Now req) → time_in_range (cr_Now req + cr_Lease req) →
  tables_wf (claim_rows req ids t) ∧
  tables_view (claim_rows req ids t) = with_messages (claim_all req ids) (tables_view t).
Proof.
  intros Hwf Hnow Hl. pose proof Hwf as (Hm & _).
  assert (∀ row, row ∈ t_messages t → row_ok (claim_row req row) ∧
    mr_id (claim_row req row) = mr_id row ∧ record_of (claim_row req row) = claim_record req (record_of row))
    as Hrow.
  { intros row Hin. pose proof (messages_row _ _ _ Hm Hin) as Hok.
    pose proof (claim_record_ok req _ (proj1 Hok) Hnow Hl) as Hok'.
    split_and!; [by apply row_of_ok|by apply claim_row_id|].
    destruct Hok' as (? & ? & _). by apply record_of_row_of. }
  assert (messages_wf (t_messages (claim_rows req ids t)) (t_message_seq t)) as Hm'.
  { apply messages_wf_map; [done|]. intros row Hin.
    case_decide; [destruct (Hrow row Hin) as (? & ? & _); done|].
    split_and!; [by eapply messages_row|done|done]. }
  split; [by apply tables_wf_messages|].
  unfold tables_view, with_messages. simpl. f_equal.
  apply table_view_map_eq; [apply Hm'|]. intros id r. rewrite lookup_claim_all. split.
  - intros Hr. assert (∃ r0, messages_view (t_messages t) !! id = Some r0) as [r0 Hr0].
    { case_decide; [|eauto]. destruct (messages_view (t_messages t) !! id); [eauto|done]. }
    pose proof Hr0 as (row & Hin & <- & <-)%table_view_Some; [|apply Hm].
    rewrite Hr0 in Hr. eexists. split; [by apply list_elem_of_fmap_2|]. simpl.
    case_decide; simplify_eq/=; [by destruct (Hrow row Hin) as (_ & ? & ?)|done].
  - intros (r' & (row & -> & Hin)%list_elem_of_fmap & <- & <-).
    pose proof (table_view_row mr_id record_of _ _ (mw_ids _ _ Hm) Hin) as Hv.
    destruct (Hrow row Hin) as (_ & Hid & Hrec).
    destruct (decide (mr_id row ∈ ids)) as [Hin'|Hin'].
    + rewrite Hid, Hrec, decide_True by done. unfold messages_view. by rewrite Hv.
    + rewrite decide_False by done. done.
Qed.

Lemma evals_Claim req t :
  tables_wf t → (0 < cr_Limit req)%Z → time_in_range (cr_Now req) →
  time_in_range (cr_Now req + cr_Lease req) → (cr_Now req + cr_Lease req)%Z ≠ zeroTime →
  let l := select_claimable req t in
  evals (sq_Claim req) t
    (claim_rows req (mr_id <$> l) t,
     Ok ((fun row => rec_msg (claim_record req (record_of row))) <$> l)).
Proof.
  intros Hwf Hlim Hnow Hl Hnz l. pose proof Hwf as (Hm & _).
  destruct (selected_rows _ _ claim_order (cr_Limit req) (row_claimable req) Hm) as (Hnd & Hsel & _).
  fold (select_claimable req t) in Hnd, Hsel. fold l in Hnd, Hsel.
  unfold sq_Claim. rewrite (proj2 (Z.leb_gt _ _)) by lia.
  eapply (evals_transaction _ _ _ t _ (Ok _)). eapply evals_bind; [apply evals_query|].
  eapply evals_bind; [apply evals_scanMessages|].
  { apply Forall_forall. intros row Hin. by apply Hsel. }
  apply (evals_lease_each req l [] t); [done|apply Hm| |done].
  apply Forall_forall. intros row Hin. destruct (Hsel row Hin) as (? & Hok & Hc).
  split_and!; [done..|]. by apply row_claimable_spec.
Qed.

Lemma Claim_satisfies req t :
  tables_wf t → (0 ≤ cr_Limit req)%Z → time_in_range (cr_Now req) →
  time_in_range (cr_Now req + cr_Lease req) → (cr_Now req + cr_Lease req)%Z ≠ zeroTime →
  satisfies (sq_Claim req) (claim_spec req) t.
Proof.
  intros Hwf Hlim Hnow Hl Hnz. destruct (Z.le_gt_cases (cr_Limit req) 0).
  { exists t, (Ok []). unfold sq_Claim. rewrite (proj2 (Z.leb_le _ _)) by lia.
    split; [apply evals_ret|]. split; [done|]. exists []. split_and!.
    - split_and!; [constructor|set_solver|done|simpl; lia].
    - done.
    - unfold with_messages. rewrite claim_all_nil. by destruct (tables_view t). }
  pose proof Hwf as (Hm & _).
  destruct (selected_rows _ _ claim_order (cr_Limit req) (row_claimable req) Hm) as (Hnd & Hsel & Hall).
  fold (select_claimable req t) in Hnd, Hsel, Hall. pose proof (evals_Claim req t Hwf) as Hev.
  set (l := select_claimable req t) in *.
  destruct (claim_rows_spec req (mr_id <$> l) t Hwf Hnow Hl) as [Hwf' Hview].
  eexists _, _. split; [by apply Hev|split; [exact Hwf'|]].
  exists (mr_id <$> l). split_and!; [|f_equal; symmetry|exact Hview].
  - split_and!; [done| | |].
    + intros id (row & -> & Hin)%list_elem_of_fmap. destruct (Hsel row Hin) as (Hr & Hok & Hc).
      exists (record_of row). split; [|by apply row_claimable_spec].
      apply table_view_row; [apply Hm|done].
    + rewrite length_fmap. subst l. unfold select_claimable. rewrite limit_rows_length by lia. lia.
    + rewrite length_fmap. intros Hlt id r Hr Hc.
      pose proof Hr as (row & Hin & <- & <-)%table_view_Some; [|apply Hm].
      apply list_elem_of_fmap_2, Hall; [by right|done|].
      apply row_claimable_spec; [by eapply messages_row|done|done].
  - rewrite Hview. apply (messages_of_rows l _ (claim_record req)). intros row Hin. simpl.
    rewrite lookup_claim_all, decide_True by (by apply list_elem_of_fmap_2).
    unfold messages_view. rewrite (table_view_row mr_id record_of); [done|apply Hm|by apply Hsel].
Qed.

Lemma ExpiredLeases_satisfies now limit t :
  tables_wf t → time_in_range now →
  satisfies (sq_ExpiredLeases now limit) (expired_spec now limit) t.
Proof.
  intros Hwf Hnow. pose proof Hwf as (Hm & _). unfold sq_ExpiredLeases.
  set (lim := if (limit <=? 0)%Z then (-1)%Z else limit).
  destruct (selected_rows _ _ (fun r1 r2 => mr_seq r1 ?= mr_seq r2)%Z lim (row_expired now) Hm)
    as (Hnd & Hsel & Hall). set (l := limit_rows _ _) in *.
  assert (∀ row, row_ok row → row_expired now row ↔ expired now (record_of row)) as Hexp.
  { intros row Hok. unfold row_expired, expired. rewrite (row_state row Hok), (row_lease row Hok).
    destruct Hok as ((_ & Hlr & _) & _). case_decide; [naive_solver|].
    rewrite format_after by done. naive_solver. }
  eexists t, _. split; [|split; [done|split; [|done]]].
  - eapply evals_bind; [apply evals_query|]. apply evals_scanMessages.
    apply Forall_forall. intros row Hin. by apply Hsel.
  - exists (mr_id <$> l). split_and!; [done|f_equal; symmetry| | |].
    + apply (messages_of_rows l _ (fun r => r)). intros row Hin.
      apply (table_view_row mr_id record_of); [apply Hm|by apply Hsel].
    + intros id (row & -> & Hin)%list_elem_of_fmap. destruct (Hsel row Hin) as (Hr & Hok & Hc).
      exists (record_of row). split; [apply table_view_row; [apply Hm|done]|by apply Hexp].
    + intros Hpos. rewrite length_fmap. subst l lim. rewrite (proj2 (Z.leb_gt _ _)) by lia.
      rewrite limit_rows_length by lia. lia.
    + rewrite length_fmap. intros Hcase id r Hr Hx.
      pose proof Hr as (row & Hin & <- & <-)%table_view_Some; [|apply Hm].
      apply list_elem_of_fmap_2, Hall; [|done|apply Hexp; [by eapply messages_row|done]].
      subst lim. destruct (Z.leb_spec limit 0); [by left|right]. lia.
Qed.

(** * Queues *)

Lemma count_queues_zero name t : (count_queues name t =? 0)%Z = negb (bool_decide (name ∈ (qr_name <$> t_queues t))).
Proof.
  unfold count_queues. case_bool_decide as Hin; simpl.
  - apply Z.eqb_neq. apply list_elem_of_fmap in Hin as (row & -> & Hin).
    assert (row ∈ filter (fun r => qr_name r = qr_name row) (t_queues t)) as Hf
      by (by apply list_elem_of_filter).
    destruct (filter _ (t_queues t)); [by apply not_elem_of_nil in Hf|simpl; lia].
  - apply Z.eqb_eq. by rewrite (select_key_None qr_name).
Qed.

Lemma queue_exists name t : name ∈ (qr_name <$> t_queues t) ↔ name ∈ a_queues (tables_view t).
Proof. simpl. by rewrite elem_of_list_to_set. Qed.

(** The first SELECT of [Depth] and [Purge]. *)
Lemma evals_if_exists {A} queue prefix (p q : prog Db A) t out :
  (queue ∉ (qr_name <$> t_queues t) → evals p t out) →
  (queue ∈ (qr_name <$> t_queues t) → evals q t out) →
  evals (n ← wrapping prefix (query (count_queues queue)); if (n =? 0)%Z then p else q) t out.
Proof.
  intros Hp Hq. eapply evals_bind; [apply evals_query|]. rewrite count_queues_zero.
  case_bool_decide; simpl; auto.
Qed.

Definition state_count (states : list string) (state : string) : Z :=
  Z.of_nat (length (filter (fun s => s = state) states)).

Lemma state_count_absent states state : state ∉ states → state_count states state = 0%Z.
Proof.
  intros Hni. unfold state_count. destruct (filter _ states) as [|s l] eqn:E; [done|].
  assert (s ∈ filter (fun s => s = state) states) as [-> ?]%list_elem_of_filter
    by (rewrite E; set_solver). done.
Qed.

(** The loop of [Depth] over the groups. *)
Lemma add_counts states groups depth :
  NoDup groups →
  foldl add_count depth ((fun s => (s, state_count states s)) <$> groups) =
  let at_ s := if decide (s ∈ groups) then state_count states s else 0%Z in
  mkDepth (d_Ready depth + at_ StateQueued) (d_InFlight depth + at_ StateProcessing)
    (d_Scheduled depth + at_ StateRetrying + at_ StateFailed) (d_Total depth).
Proof.
  revert depth. induction groups as [|g groups IH]; intros depth Hnd.
  - destruct depth. simpl. by rewrite !Z.add_0_r.
  - apply NoDup_cons in Hnd as [Hni Hnd]. cbn [fmap list_fmap foldl]. rewrite IH by done.
    destruct depth as [a b c d]. unfold add_count. cbv zeta.
    assert (∀ s, (if decide (s ∈ g :: groups) then state_count states s else 0%Z) =
      ((if decide (s = g) then state_count states g else 0) +
       (if decide (s ∈ groups) then state_count states s else 0))%Z) as Hsplit.
    { intros s. destruct (decide (s = g)) as [->|Hne].
      - rewrite decide_True by set_solver. rewrite decide_False by done. lia.
      - destruct (decide (s ∈ groups)); [rewrite decide_True by set_solver|rewrite decide_False by set_solver];
          done. }
    rewrite !Hsplit. clear Hsplit IH.
    destruct (decide (g = StateQueued)) as [->|H1].
    { simpl. f_equal; lia. }
    destruct (decide (g = StateProcessing)) as [->|H2].
    { simpl. f_equal; lia. }
    rewrite (decide_False (P := StateQueued = g)), (decide_False (P := StateProcessing = g)) by done.
    destruct (decide (g = StateRetrying ∨ g = StateFailed)) as [[-> | ->]|H3].
    1,2: simpl; f_equal; lia.
    rewrite (decide_False (P := StateRetrying = g)), (decide_False (P := StateFailed = g)) by naive_solver.
    simpl. f_equal; lia.
Qed.

Lemma depth_counts queue t :
  foldl add_count (mkDepth 0 0 0 0) (count_states queue t) =
  let n s := Z.of_nat (length (filter (fun row => mr_queue row = queue ∧ mr_state row = s) (t_messages t))) in
  mkDepth (n StateQueued) (n StateProcessing) (n StateRetrying + n StateFailed) 0.
Proof.
  unfold count_states. set (states := mr_state <$> _). fold (state_count states).
  rewrite (add_counts states (remove_dups states)) by apply NoDup_remove_dups. cbv beta zeta.
  assert (∀ s, (if decide (s ∈ remove_dups states) then state_count states s else 0%Z) =
    Z.of_nat (length (filter (fun row => mr_queue row = queue ∧ mr_state row = s) (t_messages t)))) as Hn.
  { intros s. assert (state_count states s =
      Z.of_nat (length (filter (fun row => mr_queue row = queue ∧ mr_state row = s) (t_messages t)))) as <-.
    - unfold state_count, states. f_equal. induction (t_messages t) as [|row rows IH]; [done|].
      rewrite !filter_cons. destruct (decide (mr_queue row = queue)) as [Hq|Hq].
      + cbn [fmap list_fmap]. rewrite filter_cons. destruct (decide (mr_state row = s)) as [Hs|Hs].
        * rewrite decide_True by done. simpl. by rewrite IH.
        * rewrite decide_False by naive_solver. done.
      + rewrite decide_False by naive_solver. done.
    - case_decide as Hin; [done|]. symmetry. apply state_count_absent. by rewrite <-elem_of_remove_dups. }
  by rewrite !Hn.
Qed.

Lemma rows_in_states_count queue states t :
  tables_wf t →
  Z.of_nat (size (in_states queue states (messages_view (t_messages t)))) =
  Z.of_nat (length (filter (fun row => mr_queue row = queue ∧ mr_state row ∈ states) (t_messages t))).
Proof.
  intros (Hm & _). f_equal. symmetry. apply (table_count mr_id record_of); [apply Hm|].
  intros row Hin. pose proof (messages_row _ _ _ Hm Hin) as Hok. simpl.
  by rewrite (row_queue row Hok), (row_state row Hok).
Qed.

Lemma filter_two_states queue s1 s2 (rows : list message_row) :
  s1 ≠ s2 →
  length (filter (fun row => mr_queue row = queue ∧ mr_state row ∈ [s1; s2]) rows) =
  length (filter (fun row => mr_queue row = queue ∧ mr_state row = s1) rows) +
  length (filter (fun row => mr_queue row = queue ∧ mr_state row = s2) rows).
Proof.
  intros Hne. induction rows as [|row rows IH]; [done|]. rewrite !filter_cons.
  destruct (decide (mr_queue row = queue ∧ mr_state row ∈ [s1; s2])) as [[Hq Hs]|Hn].
  - rewrite elem_of_cons, list_elem_of_singleton in Hs. destruct Hs as [Hs|Hs].
    + rewrite decide_True by done. rewrite decide_False by naive_solver. simpl. lia.
    + rewrite decide_False by naive_solver. rewrite decide_True by done. simpl. lia.
  - rewrite !decide_False; [done|..]; intros [? E]; apply Hn; rewrite E; set_solver.
Qed.

Lemma filter_one_state queue s (rows : list message_row) :
  filter (fun row => mr_queue row = queue ∧ mr_state row ∈ [s]) rows =
  filter (fun row => mr_queue row = queue ∧ mr_state row = s) rows.
Proof. apply filter_ext_in. intros row _. by rewrite list_elem_of_singleton. Qed.

Lemma Depth_satisfies queue t : tables_wf t → satisfies (sq_Depth queue) (depth_spec queue) t.
Proof.
  intros Hwf. unfold satisfies, depth_spec, reads.
  destruct (decide (queue ∈ a_queues (tables_view t))) as [Hin|Hin].
  - eexists t, _. split; [|split; [done|split; [|done]]]; [|reflexivity].
    apply evals_if_exists; [by rewrite queue_exists|intros _].
    eapply evals_bind; [apply evals_query|]. cbv zeta. rewrite depth_counts.
    eapply evals_bind; [apply evals_rows_Err|]. unfold depth_of. simpl.
    rewrite !rows_in_states_count by done.
    rewrite !filter_one_state, filter_two_states, Nat2Z.inj_add by done. apply evals_ret.
  - eexists t, _. split; [|split; [done|split; [|done]]]; [|reflexivity].
    apply evals_if_exists; [intros _; apply evals_fails|by rewrite queue_exists].
Qed.

Lemma stored_open row queue :
  row_ok row →
  mr_queue row = queue ∧ mr_state row ∉ [StateAcknowledged; StateDeadLettered] ↔
  open_in queue (record_of row).
Proof.
  intros Hok. rewrite (row_queue row Hok), (row_state row Hok). unfold open_in.
  destruct Hok as ((_ & _ & Hst & _) & _).
  destruct Hst as [E|[E|[E|[E|E]]]]; rewrite E; set_solver.
Qed.

Lemma delete_messages_spec (P : message_row → Prop) (Q : record → Prop)
    `{∀ row, Decision (P row), ∀ r, Decision (Q r)} t :
  tables_wf t → (∀ row, row_ok row → P row ↔ Q (record_of row)) →
  tables_wf (delete_messages P t).1 ∧
  tables_view (delete_messages P t).1 =
    with_messages (fun m => filter (fun kv => ¬ Q kv.2) m) (tables_view t) ∧
  length (filter P (t_messages t)) = size (filter (fun kv => Q kv.2) (messages_view (t_messages t))).
Proof.
  intros Hwf HPQ. pose proof Hwf as (Hm & _). split_and!.
  - apply tables_wf_messages; [done|]. by apply messages_wf_filter.
  - unfold delete_messages. cbn [fst]. rewrite tables_view_messages. unfold with_messages; simpl.
    f_equal. apply table_view_filter; [apply Hm|]. intros row Hin. simpl.
    rewrite HPQ; [done|]. by eapply messages_row.
  - apply table_count; [apply Hm|]. intros row Hin. simpl. apply HPQ. by eapply messages_row.
Qed.

Lemma evals_delete (P : message_row → Prop) `{∀ row, Decision (P row)} prefix t :
  evals (wrapping prefix (exec (delete_messages P))) t
    ((delete_messages P t).1, Ok (Z.of_nat (length (filter P (t_messages t))))).
Proof. apply evals_wrapping, (evals_statement (delete_messages P)). Qed.

Lemma evals_rows_affected prefix n (t : Tables) : evals (wrapping prefix (rows_affected n)) t (t, Ok n).
Proof. apply evals_wrapping, (evals_statement (fun t => (t, Ok n))). Qed.

Lemma Purge_satisfies queue t : tables_wf t → satisfies (sq_Purge queue) (purge_spec queue) t.
Proof.
  intros Hwf. unfold satisfies, purge_spec.
  destruct (decide (queue ∈ a_queues (tables_view t))) as [Hin|Hin].
  - destruct (delete_messages_spec
      (fun row => mr_queue row = queue ∧ mr_state row ∉ [StateAcknowledged; StateDeadLettered])
      (open_in queue) t Hwf) as (Hwf' & Hv & Hn); [by intros; apply stored_open|].
    eexists _, _. split; [|split; [exact Hwf'|split; [reflexivity|exact Hv]]].
    apply evals_if_exists; [by rewrite queue_exists|intros _].
    eapply evals_bind; [apply evals_delete|]. eapply evals_bind; [apply evals_rows_affected|].
    rewrite Hn. apply evals_ret.
  - eexists _, _. split; [|split; [|split; [reflexivity|reflexivity]]]; [|done].
    apply evals_if_exists; [intros _; apply evals_fails|by rewrite queue_exists].
Qed.

(** [INSERT ... ON CONFLICT DO UPDATE] adds a name once. *)
Lemma upsert_keys {R} (key : R → string) (row : R) update rows :
  (∀ r, key (update r) = key r) →
  (list_to_set (key <$> upsert (fun r => bool_decide (key r = key row)) update row rows) : gset string) =
  {[key row]} ∪ list_to_set (key <$> rows).
Proof.
  intros Hup. apply set_eq. intros k. rewrite elem_of_union, elem_of_singleton, !elem_of_list_to_set.
  induction rows as [|r rows IH]; [set_solver|]. cbn [upsert]. case_bool_decide as Hk; simpl.
  - rewrite !elem_of_cons, Hup, Hk. tauto.
  - rewrite !elem_of_cons, IH. tauto.
Qed.

Lemma SaveQueue_satisfies q t : tables_wf t → satisfies (sq_SaveQueue q) (save_queue_spec q) t.
Proof.
  intros Hwf. eexists _, _. split.
  - eapply evals_bind; [|apply evals_ret]. eapply evals_wrapping, (evals_statement (upsert_queue _)).
  - split; [exact Hwf|]. split; [done|]. unfold tables_view. simpl. f_equal.
    by apply (upsert_keys qr_name (mkQueueRow (q_Name q) _ _ _ _ _)).
Qed.

Lemma DeleteQueue_satisfies name t :
  tables_wf t → satisfies (sq_DeleteQueue name) (delete_queue_spec name) t.
Proof.
  intros Hwf. unfold satisfies, delete_queue_spec.
  set (t1 := put_queue_rows (filter (fun row => qr_name row ≠ name) (t_queues t)) t).
  assert (evals (exec (fun t => (put_queue_rows (filter (fun row => qr_name row ≠ name) (t_queues t)) t,
            Ok (count_queues name t)))) t (t1, Ok (count_queues name t))) as Hdel
    by apply (evals_statement (fun t => (put_queue_rows _ t, Ok (count_queues name t)))).
  destruct (decide (name ∈ a_queues (tables_view t))) as [Hin|Hin].
  - destruct (delete_messages_spec (fun row => mr_queue row = name) (fun r => rec_Queue r = name) t1)
      as (Hwf' & Hv & _); [exact Hwf|by intros row Hok; rewrite (row_queue row Hok)|].
    eexists _, (Ok tt). split; [|split; [exact Hwf'|]].
    + eapply (evals_transaction _ _ _ t _ (Ok tt)).
      eapply evals_bind; [apply evals_wrapping, Hdel|]. unfold must_affect.
      eapply evals_bind; [|eapply evals_bind; [apply evals_delete|apply evals_ret]].
      eapply evals_bind; [apply evals_rows_affected|]. rewrite count_queues_zero.
      rewrite bool_decide_eq_true_2 by (by apply queue_exists). apply evals_ret.
    + rewrite Hv. split_and!; [done| |done|done| |].
      * simpl. apply set_eq. intros k. rewrite elem_of_difference, elem_of_singleton.
        rewrite !elem_of_list_to_set, !list_elem_of_fmap. setoid_rewrite list_elem_of_filter.
        naive_solver.
      * intros id. simpl. rewrite map_lookup_filter.
        destruct (messages_view (t_messages t) !! id) as [r|] eqn:Er; [|by left]. simpl.
        destruct (decide (rec_Queue r = name)) as [Hq|Hq].
        -- right. rewrite option_guard_False by naive_solver. by rewrite Hq.
        -- left. by rewrite option_guard_True.
      * intros id r Hr [Hq _]. simpl in Hr. apply map_lookup_filter_Some in Hr as [_ Hr]. by apply Hr.
  - eexists _, _. split; [|split; [|split; [reflexivity|reflexivity]]]; [|done].
    eapply (evals_transaction _ _ _ t _ (Err _)).
    eapply evals_bind; [apply evals_wrapping, Hdel|]. apply evals_bind_err. unfold must_affect.
    eapply evals_bind; [apply evals_rows_affected|]. rewrite count_queues_zero.
    rewrite bool_decide_eq_false_2 by (by rewrite queue_exists). apply evals_fails.
Qed.

(** * Dead letters *)

Lemma tables_view_dead rows t :
  tables_view (put_dead_rows rows t) = with_dead (fun _ => letters_view rows) (tables_view t).
Proof. done. Qed.

Lemma tables_wf_dead rows t : tables_wf t → letters_wf rows → tables_wf (put_dead_rows rows t).
Proof. by intros (? & _ & ?) ?. Qed.

Lemma SaveDeadLetter_satisfies fresh entry t :
  tables_wf t → letter_ok entry →
  satisfies (sq_SaveDeadLetter fresh entry) (save_dead_spec fresh entry) t.
Proof.
  intros Hwf Hok0. unfold satisfies, sq_SaveDeadLetter, save_dead_spec. cbv zeta.
  set (d := if str_empty (dl_ID entry) then _ else entry).
  assert (letter_ok d) as Hok by (subst d; by destruct (str_empty (dl_ID entry))). clearbody d.
  pose proof Hwf as (_ & Hl & _). rewrite encode_headers_text. fold (letter_row d).
  pose proof (evals_statement (insert_dead_letter (letter_row d)) t) as Hex.
  unfold insert_dead_letter in Hex. change (dr_id (letter_row d)) with (dl_ID d) in Hex.
  destruct (table_cases dr_id letter_of _ (dl_ID d) (lw_ids _ Hl)) as [(row & Hin & Hid & Hv & _)|(Hni & Hv & _)].
  - rewrite decide_True in Hex by (rewrite <-Hid; by apply list_elem_of_fmap_2).
    exists t, (Err (StorageErr ErrConflict)). split; [|split; [done|]].
    2:{ rewrite decide_True by (simpl; unfold letters_view; by rewrite Hv). done. }
    eapply evals_bind; [apply evals_lift|]. apply evals_bind_err.
    eapply (evals_conflict _ _ _ _ (unique_violation codeConstraintPrimary "dead_letters.id"));
      [vm_compute; reflexivity|exact Hex].
  - rewrite decide_False in Hex by done.
    eexists _, (Ok d). split; [|split].
    + eapply evals_bind; [apply evals_lift|]. eapply evals_bind; [|apply evals_ret].
      apply evals_or_conflict. exact Hex.
    + apply tables_wf_dead; [done|]. split.
      * apply Forall_app. split; [apply Hl|]. by apply Forall_singleton, letter_row_row_ok.
      * apply table_keys_insert; [apply Hl|done].
    + rewrite decide_False by (simpl; unfold letters_view; rewrite Hv; by intros []).
      split; [done|]. rewrite tables_view_dead. unfold with_dead; simpl. f_equal. unfold letters_view.
      rewrite (table_view_insert dr_id letter_of) by done. by rewrite letter_of_row.
Qed.

Lemma DeadLetter_satisfies id t : tables_wf t → satisfies (sq_DeadLetter id) (dead_letter_spec id) t.
Proof.
  intros Hwf. pose proof Hwf as (_ & Hl & _). unfold satisfies, sq_DeadLetter, dead_letter_spec, reads. simpl.
  pose proof (evals_statement (fun t => (t,
    match head (filter (fun row => dr_id row = id) (t_dead_letters t)) with
    | Some a => Ok a | None => Err (OtherErr SqlErrNoRows) end)) t) as Hq. simpl in Hq.
  unfold letters_view.
  destruct (table_cases dr_id letter_of _ id (lw_ids _ Hl)) as [(row & Hin & _ & -> & Hf)|(_ & -> & Hf)];
    rewrite Hf in Hq; simpl in Hq.
  - eexists t, _. split; [|split; [done|split; reflexivity]].
    apply (evals_on_error _ _ t t (Ok (letter_of row))).
    eapply evals_bind; [exact Hq|]. rewrite <-(letter_scan row) by (by eapply letters_row). apply evals_lift.
  - eexists t, _. split; [|split; [done|split; reflexivity]].
    apply (evals_on_error translateNoRows _ t t (Err (OtherErr SqlErrNoRows))). by apply evals_bind_err.
Qed.

Lemma row_in_queue_spec queue row : letter_row_ok row → row_in_queue queue row ↔ dl_matches queue (letter_of row).
Proof. intros Hok. unfold row_in_queue, dl_matches. by rewrite (letter_queue row Hok). Qed.

Lemma letters_count queue t :
  tables_wf t →
  length (filter (row_in_queue queue) (t_dead_letters t)) =
  size (filter (fun kv => dl_matches queue kv.2) (letters_view (t_dead_letters t))).
Proof.
  intros (_ & Hl & _). apply (table_count dr_id letter_of); [apply Hl|]. intros row Hin.
  apply row_in_queue_spec. by eapply letters_row.
Qed.

Lemma CountDeadLetters_satisfies queue t :
  tables_wf t → satisfies (sq_CountDeadLetters queue) (count_dead_spec queue) t.
Proof.
  intros Hwf. eexists t, _. split; [apply evals_query|]. split; [done|]. split; [|done]. simpl.
  by rewrite letters_count.
Qed.

Lemma select_dead_letters_spec f t :
  tables_wf t →
  let f' := Normalise f in
  let rows := select_dead_letters f' t in
  NoDup (dr_id <$> rows) ∧
  (∀ row, row ∈ rows → row ∈ t_dead_letters t ∧ row_in_queue (df_Queue f') row) ∧
  Z.of_nat (length rows) = Z.min (df_Limit f')
    (Z.max 0 (Z.of_nat (length (filter (row_in_queue (df_Queue f')) (t_dead_letters t))) - df_Offset f')).
Proof.
  intros (_ & Hl & _) f' rows. destruct (Normalise_range f) as [Hlim Hoff]. fold f' in Hlim, Hoff.
  set (sorted := sorted_by newest_first (filter (row_in_queue (df_Queue f')) (t_dead_letters t))).
  assert (rows `sublist_of` sorted) as Hsub.
  { etrans; [apply limit_sublist|]. apply sublist_drop. }
  pose proof (sorted_by_perm newest_first (filter (row_in_queue (df_Queue f')) (t_dead_letters t))) as Hp.
  fold sorted in Hp. split_and!.
  - eapply sublist_NoDup; [|by apply fmap_sublist]. rewrite Hp. apply table_keys_filter, Hl.
  - intros row Hin. pose proof (elem_of_sublist _ _ _ Hin Hsub) as Hin'.
    rewrite Hp, list_elem_of_filter in Hin'. naive_solver.
  - subst rows. unfold select_dead_letters. rewrite limit_rows_length by lia.
    fold sorted. rewrite length_drop, Hp. lia.
Qed.

Lemma evals_DeadLetters f t :
  tables_wf t →
  evals (sq_DeadLetters f) t (t, Ok (letter_of <$> select_dead_letters (Normalise f) t)).
Proof.
  intros Hwf. pose proof Hwf as (_ & Hl & _).
  destruct (select_dead_letters_spec f t Hwf) as (_ & Hsel & _).
  eapply evals_bind; [apply evals_query|].
  rewrite (scan_rows_Ok scanDeadLetter letter_of)
    by (intros row Hin; by eapply letter_scan, letters_row, Hsel).
  eapply evals_bind; [apply evals_lift|]. eapply evals_bind; [apply evals_rows_Err|]. apply evals_ret.
Qed.

Lemma DeadLetters_satisfies f t : tables_wf t → satisfies (sq_DeadLetters f) (dead_letters_spec f) t.
Proof.
  intros Hwf. pose proof Hwf as (_ & Hl & _). pose proof (evals_DeadLetters f t Hwf) as Hev.
  destruct (select_dead_letters_spec f t Hwf) as (Hnd & Hsel & Hlen).
  set (rows := select_dead_letters (Normalise f) t) in *.
  assert (∀ row, row ∈ rows → letter_row_ok row) as Hok.
  { intros row Hin. by eapply letters_row, Hsel. }
  eexists t, _. split; [exact Hev|split; [done|split; [|done]]].
  eexists. split; [reflexivity|]. simpl. split_and!.
  - rewrite <-list_fmap_compose. erewrite list_fmap_ext; [exact Hnd|]. intros i row Hi. simpl.
    symmetry. apply letter_id, Hok. by eapply list_elem_of_lookup_2.
  - intros d (row & -> & Hin)%list_elem_of_fmap. rewrite <-(letter_id row) by (by apply Hok).
    split; [|by apply row_in_queue_spec; [apply Hok|apply Hsel]].
    apply table_view_row; [apply Hl|by apply Hsel].
  - rewrite length_fmap, Hlen, letters_count by done. done.
Qed.

Lemma evals_must_affect prefix n t :
  evals (must_affect prefix n) t
    (t, if (n =? 0)%Z then Err (StorageErr ErrNotFound) else Ok tt).
Proof.
  unfold must_affect. eapply evals_bind; [apply evals_rows_affected|].
  destruct (n =? 0)%Z; [apply evals_fails|apply evals_ret].
Qed.

Lemma set_replayed_spec as_ at_ row :
  letter_row_ok row → time_in_range at_ → (dl_ReplayCount (letter_of row) < max_int64)%Z →
  letter_ok (replayed as_ at_ (letter_of row)) ∧
  set_replayed as_ at_ row = letter_row (replayed as_ at_ (letter_of row)).
Proof.
  intros [(Hh & Hp & Hf & Hd & Hr & Hc) Heq] Hat Hlt.
  assert (wrap64 (dl_ReplayCount (letter_of row) + 1) = dl_ReplayCount (letter_of row) + 1)%Z as Hw.
  { apply wrap64_id. unfold in_int64, max_int64 in *. lia. }
  split.
  - split_and!; [done..|]. simpl. apply wrap64_range.
  - etrans; [exact (f_equal _ Heq)|]. unfold set_replayed, letter_row, dead_letter_values, replayed.
    cbn -[letter_of formatTime headers_text wrap64 max_int64 Z.add]. rewrite Hw.
    rewrite (proj2 (Z.leb_le _ _)) by lia. done.
Qed.

Lemma put_dead_same t : put_dead_rows (t_dead_letters t) t = t.
Proof. by destruct t. Qed.

(** The two statements that change a dead letter, when there is none. *)
Lemma update_dead_absent id set t :
  id ∉ (dr_id <$> t_dead_letters t) → update_dead_letter id set t = (t, Ok 0%Z).
Proof.
  intros Hni. unfold update_dead_letter. rewrite (select_key_None dr_id) by done. simpl. f_equal.
  rewrite <-(put_dead_same t) at 3. f_equal. rewrite <-(list_fmap_id (t_dead_letters t)) at 2.
  apply list_fmap_ext. intros i r Hr. rewrite decide_False; [done|]. intros <-. apply Hni.
  apply list_elem_of_fmap_2. by eapply list_elem_of_lookup_2.
Qed.

Lemma delete_dead_absent id t :
  id ∉ (dr_id <$> t_dead_letters t) → delete_dead_letter id t = (t, Ok 0%Z).
Proof.
  intros Hni. unfold delete_dead_letter. rewrite (select_key_None dr_id) by done. simpl. f_equal.
  rewrite <-(put_dead_same t) at 3. f_equal. apply filter_all. intros row Hr <-. apply Hni.
  by apply list_elem_of_fmap_2.
Qed.

Lemma MarkDeadLetterReplayed_satisfies id as_ at_ t :
  tables_wf t → time_in_range at_ →
  (∀ d, a_dead (tables_view t) !! id = Some d → dl_ReplayCount d < max_int64)%Z →
  satisfies (sq_MarkDeadLetterReplayed id as_ at_) (mark_replayed_spec id as_ at_) t.
Proof.
  intros Hwf Hat Hlt. pose proof Hwf as (_ & Hl & _).
  unfold satisfies, sq_MarkDeadLetterReplayed, mark_replayed_spec. cbv zeta. simpl in Hlt |- *.
  pose proof (evals_statement (update_dead_letter id (set_replayed as_ at_)) t) as Hex.
  unfold letters_view in *.
  destruct (table_cases dr_id letter_of _ id (lw_ids _ Hl)) as [(row & Hin & Hid & Hv & Hf)|(Hni & Hv & Hf)];
    rewrite Hv in Hlt |- *.
  - subst id. pose proof (letters_row _ _ Hl Hin) as Hok. unfold update_dead_letter in Hex. rewrite Hf in Hex.
    destruct (set_replayed_spec as_ at_ row Hok Hat (Hlt _ eq_refl)) as [Hok' Hset].
    eexists _, _. split; [eapply evals_bind; [eapply evals_wrapping; exact Hex|apply evals_must_affect]|].
    split; [|split; [reflexivity|]].
    + apply tables_wf_dead; [done|]. split.
      * apply Forall_fmap, Forall_forall. intros r Hr. simpl. case_decide as E; [|by eapply letters_row].
        rewrite (table_key_inj dr_id _ r row (lw_ids _ Hl) Hr Hin E), Hset. by apply letter_row_row_ok.
      * rewrite table_keys_update; [apply Hl|]. intros r Hr. by case_decide.
    + rewrite tables_view_dead. unfold with_dead; simpl. f_equal. unfold letters_view.
      rewrite (table_view_update dr_id letter_of) by (try done; apply Hl). rewrite Hset.
      by rewrite letter_of_row.
  - rewrite update_dead_absent in Hex by done.
    eexists _, _. split; [eapply evals_bind; [eapply evals_wrapping; exact Hex|apply evals_must_affect]|].
    done.
Qed.

Lemma DeleteDeadLetter_satisfies id t :
  tables_wf t → satisfies (sq_DeleteDeadLetter id) (delete_dead_spec id) t.
Proof.
  intros Hwf. pose proof Hwf as (_ & Hl & _).
  unfold satisfies, sq_DeleteDeadLetter, delete_dead_spec. cbv zeta. simpl.
  pose proof (evals_statement (delete_dead_letter id) t) as Hex. unfold letters_view.
  destruct (table_cases dr_id letter_of _ id (lw_ids _ Hl)) as [(row & Hin & Hid & Hv & Hf)|(Hni & Hv & Hf)];
    rewrite Hv.
  - unfold delete_dead_letter in Hex. rewrite Hf in Hex.
    eexists _, _. split; [eapply evals_bind; [eapply evals_wrapping; exact Hex|apply evals_must_affect]|].
    split; [|split; [reflexivity|]].
    + apply tables_wf_dead; [done|]. split; [|apply table_keys_filter, Hl].
      eapply Forall_sublist_of; [apply sublist_filter|apply Hl].
    + rewrite tables_view_dead. unfold with_dead; simpl. f_equal. unfold letters_view.
      rewrite (table_view_filter dr_id letter_of _ _ (fun kv => kv.1 ≠ id)); [|apply Hl|done].
      apply map_eq. intros k. rewrite map_lookup_filter, lookup_delete.
      destruct (table_view dr_id letter_of (t_dead_letters t) !! k); simpl; [|by case_decide].
      case_decide as E; [by rewrite option_guard_False by naive_solver|].
      by rewrite option_guard_True by naive_solver.
  - rewrite delete_dead_absent in Hex by done.
    eexists _, _. split; [eapply evals_bind; [eapply evals_wrapping; exact Hex|apply evals_must_affect]|].
    done.
Qed.

(** * History *)

Lemma AppendHistory_satisfies e t :
  tables_wf t → event_ok e → satisfies (sq_AppendHistory e) (append_history_spec e) t.
Proof.
  intros Hwf He. pose proof Hwf as (Hm & Hl & Hh).
  pose proof (evals_statement (insert_history (fun seq => event_row seq e)) t) as Hex.
  eexists _, _. split; [eapply evals_bind; [eapply evals_wrapping; exact Hex|apply evals_ret]|].
  split; [|split; [done|]].
  - split_and!; [done|done|]. split.
    + apply Forall_app. split; [apply Hh|]. apply Forall_singleton. exists e.
      by rewrite scan_event_row.
    + simpl. rewrite fmap_app. apply StronglySorted_app_2; [|apply Hh|by repeat constructor].
      intros x y (r & -> & Hr)%list_elem_of_fmap ->%list_elem_of_singleton.
      pose proof (proj1 (Forall_forall _ _) (hw_last _ _ Hh) r Hr). simpl in *. lia.
    + apply Forall_app. split; [|apply Forall_singleton; simpl; lia].
      eapply Forall_impl; [exact (hw_last _ _ Hh)|]. intros r Hr. simpl in *. lia.
  - unfold tables_view, with_history. simpl. f_equal. rewrite history_view_snoc. simpl.
    unfold event_of. by rewrite scan_event_row.
Qed.

Lemma StronglySorted_lt_le {R} (key : R → Z) l :
  StronglySorted Z.lt (key <$> l) → StronglySorted (fun x y => (key x ?= key y)%Z ≠ Gt) l.
Proof.
  induction l as [|x l IH]; [constructor|]. inversion 1 as [|? ? Hs Hf]; subst. constructor; [by apply IH|].
  apply Forall_forall. intros y Hy. apply Z.compare_le_iff.
  pose proof (proj1 (Forall_forall _ _) Hf (key y)) as Hlt. specialize (Hlt ltac:(by apply list_elem_of_fmap_2)).
  lia.
Qed.

(** Lists of the same elements, in the same order of their distinct keys. *)
Lemma perm_by_key {R K} (key : R → K) l1 l2 :
  l1 ≡ₚ l2 → key <$> l1 = key <$> l2 → NoDup (key <$> l2) → l1 = l2.
Proof.
  intros Hp Hk Hnd. apply list_eq. intros i.
  assert (key <$> l1 !! i = key <$> l2 !! i) as Hi by (by rewrite <-!list_lookup_fmap, Hk).
  destruct (l1 !! i) as [x|] eqn:Hx, (l2 !! i) as [y|] eqn:Hy; simpl in Hi; simplify_eq; [|done].
  f_equal. assert (x ∈ l2) as Hin by (rewrite <-Hp; by eapply list_elem_of_lookup_2).
  apply list_elem_of_lookup in Hin as [j Hj]. assert (j = i) as ->; [|congruence].
  eapply NoDup_lookup; [exact Hnd|..]; rewrite list_lookup_fmap; [by rewrite Hj|].
  rewrite Hy. simpl. by f_equal.
Qed.

(** Sorting rows by a key they are already sorted by. *)
Lemma sorted_by_key {R} (key : R → Z) l :
  StronglySorted Z.lt (key <$> l) → sorted_by (fun x y => key x ?= key y)%Z l = l.
Proof.
  intros Hs. set (le := fun x y : R => (key x ?= key y)%Z ≠ Gt).
  assert (∀ m, Sorted le m → Sorted Z.le (key <$> m)) as Hmap.
  { induction 1 as [|x m Hm IH Hhd]; [constructor|]. constructor; [done|].
    destruct Hhd; constructor. by apply Z.compare_le_iff. }
  assert (Total le) as Htot.
  { intros x y. unfold le. rewrite !Z.compare_le_iff. lia. }
  apply (perm_by_key key); [apply sorted_by_perm| |].
  - apply (Sorted_unique Z.le).
    + apply Hmap. unfold sorted_by. by apply Sorted_merge_sort.
    + apply Hmap, StronglySorted_Sorted. by apply StronglySorted_lt_le.
    + by rewrite sorted_by_perm.
  - clear Hmap Htot. induction Hs as [|x m Hm IH Hf]; constructor; [|done].
    intros Hin. pose proof (proj1 (Forall_forall _ _) Hf x Hin). lia.
Qed.

Lemma History_satisfies id t : tables_wf t → satisfies (sq_History id) (history_spec id) t.
Proof.
  intros Hwf. pose proof Hwf as (Hm & Hl & Hh).
  set (rows := filter (fun row => hr_message_id row = id) (t_history t)).
  assert (sorted_by (fun r1 r2 => hr_id r1 ?= hr_id r2)%Z rows = rows) as Hsort.
  { apply sorted_by_key. eapply StronglySorted_sublist; [|apply Hh]. apply fmap_sublist, sublist_filter. }
  eexists t, _. split; [|split; [done|split; [|done]]].
  - eapply evals_bind; [apply evals_query|]. fold rows. rewrite Hsort.
    rewrite (scan_rows_Ok scanHistory event_of).
    + eapply evals_bind; [apply evals_lift|]. eapply evals_bind; [apply evals_rows_Err|]. apply evals_ret.
    + intros row [_ Hin]%list_elem_of_filter. unfold event_of.
      by destruct (proj1 (Forall_forall _ _) (hw_rows _ _ Hh) row Hin) as (e & -> & _).
  - simpl. by rewrite history_view_slice.
Qed.

(** * The contract *)

(** What a caller owes the SQLite store beyond the contract: instants with a
    four-digit year, headers in UTF-8, payloads that are not empty, counters of
    64 bits. *)
Definition sqlite_pre {A} (a : astore) (c : call A) : Prop :=
  match c with
  | CAppend ms => Forall (fun m => message_ok m ∧ msg_Payload m ≠ "") ms
  | CClaim req =>
      time_in_range (cr_Now req) ∧ time_in_range (cr_Now req + cr_Lease req) ∧
      (cr_Now req + cr_Lease req)%Z ≠ zeroTime
  | CAcknowledge _ at_ | CRelease _ at_ | CMarkDeadLettered _ _ at_ => time_in_range at_
  | CScheduleRetry req => time_in_range (rr_Now req) ∧ time_in_range (rr_AvailableAt req)
  | CExpiredLeases now _ => time_in_range now
  | CSaveDeadLetter _ entry => letter_ok entry ∧ dl_Payload entry ≠ ""
  | CMarkDeadLetterReplayed id _ at_ =>
      time_in_range at_ ∧ ∀ d, a_dead a !! id = Some d → (dl_ReplayCount d < max_int64)%Z
  | CAppendHistory e => event_ok e
  | _ => True
  end.

Lemma Sqlite_call {A} (c : call A) db :
  sqlite_inv db → call_pre c → sqlite_pre (sqlite_view db) c →
  sqlite_inv (run_call c db).1 ∧
  call_spec c (sqlite_view db) (run_call c db).2 (sqlite_view (run_call c db).1).
Proof.
  intros Hinv Hpre Hsq. apply satisfies_law; [done|]. destruct Hinv as [_ Hwf]. destruct c; simpl in Hpre, Hsq.
  - by apply SaveQueue_satisfies.
  - by apply DeleteQueue_satisfies.
  - apply Append_satisfies; [done..|]. eapply Forall_impl; [exact Hsq|]. by intros m [? _].
  - by apply Message_satisfies.
  - destruct Hsq as (? & ? & ?). by apply Claim_satisfies.
  - by apply Acknowledge_satisfies.
  - destruct Hsq as [? ?]. by apply ScheduleRetry_satisfies.
  - by apply Release_satisfies.
  - by apply MarkDeadLettered_satisfies.
  - by apply ExpiredLeases_satisfies.
  - by apply Depth_satisfies.
  - by apply Purge_satisfies.
  - destruct Hsq as [? _]. by apply SaveDeadLetter_satisfies.
  - by apply DeadLetters_satisfies.
  - by apply DeadLetter_satisfies.
  - destruct Hsq as [? ?]. by apply MarkDeadLetterReplayed_satisfies.
  - by apply DeleteDeadLetter_satisfies.
  - by apply CountDeadLetters_satisfies.
  - by apply AppendHistory_satisfies.
  - by apply History_satisfies.
Qed.

(** ** The topology tables *)

Lemma evals_listing {A} (r : result error (list A)) (t : Tables) :
  evals (l ← lift r; _ ← rows_Err; mret l) t (t, r).
Proof.
  destruct r as [l|e].
  - eapply evals_bind; [apply evals_lift|]. eapply evals_bind; [apply evals_rows_Err|]. apply evals_ret.
  - apply evals_bind_err, evals_lift.
Qed.

Lemma topology_law {A} (p : prog Db A) :
  (∀ t, ∃ t' r, evals p t (t', r) ∧ t_messages t' = t_messages t ∧ t_message_seq t' = t_message_seq t ∧
     t_dead_letters t' = t_dead_letters t ∧ t_history t' = t_history t ∧
     t_history_seq t' = t_history_seq t ∧ t_queues t' = t_queues t) →
  implements sqlite_inv sqlite_view p topology_spec.
Proof.
  intros Hp db Hinv. apply satisfies_law; [done|]. destruct Hinv as [_ Hwf].
  destruct (Hp (db_tables db)) as (t' & r & Hev & E1 & E2 & E3 & E4 & E5 & E6).
  exists t', r. split; [done|]. unfold tables_wf, tables_view, topology_spec, reads.
  rewrite E1, E2, E3, E4, E5, E6. done.
Qed.

Lemma SaveExchange_law e : implements sqlite_inv sqlite_view (sq_SaveExchange e) topology_spec.
Proof.
  apply topology_law. intros t. eexists _, _. split.
  - eapply evals_bind; [eapply evals_wrapping, (evals_statement (fun t => (_ t, Ok _)))|apply evals_ret].
  - done.
Qed.

Lemma SaveBinding_law b : implements sqlite_inv sqlite_view (sq_SaveBinding b) topology_spec.
Proof.
  apply topology_law. intros t. eexists _, _. split.
  - eapply evals_bind; [eapply evals_wrapping, (evals_statement (fun t => (_ t, Ok _)))|apply evals_ret].
  - done.
Qed.

Lemma DeleteBinding_law spec : implements sqlite_inv sqlite_view (sq_DeleteBinding spec) topology_spec.
Proof.
  apply topology_law. intros t. eexists _, _. split.
  - eapply evals_bind; [eapply evals_wrapping, (evals_statement (delete_bindings spec))|].
    apply evals_must_affect.
  - done.
Qed.

Lemma Exchanges_law : implements sqlite_inv sqlite_view sq_Exchanges topology_spec.
Proof.
  apply topology_law. intros t. eexists t, _. split; [|done].
  eapply evals_bind; [apply evals_query|apply evals_listing].
Qed.

Lemma Queues_law : implements sqlite_inv sqlite_view sq_Queues topology_spec.
Proof.
  apply topology_law. intros t. eexists t, _. split; [|done].
  eapply evals_bind; [apply evals_query|apply evals_listing].
Qed.

Lemma Bindings_law : implements sqlite_inv sqlite_view sq_Bindings topology_spec.
Proof.
  apply topology_law. intros t. eexists t, _. split; [|done].
  eapply evals_bind; [apply evals_query|apply evals_listing].
Qed.

#[export] Instance Sqlite_contract : StoreContract Db := {
  store_inv := sqlite_inv;
  store_view := sqlite_view;
  store_pre _ := sqlite_pre;
  law_ok := sqlite_inv_ok;
  law_SaveExchange := SaveExchange_law;
  law_Exchanges := Exchanges_law;
  law_Queues := Queues_law;
  law_SaveBinding := SaveBinding_law;
  law_Bindings := Bindings_law;
  law_DeleteBinding := DeleteBinding_law;
  law_call _ := Sqlite_call;
}.
