(* ===== verification/SqliteFaults.v ===== *)
(** Faults of the database: every call of the SQLite store is all or nothing
    ([Sqlite.v], [SqlConnProofs.v]). *)

From S2P Require Import Prelude Errors TimeText HeaderJson Message Broker Storage StoreTraces.
From S2P Require Import SqlConn SqlConnProofs Sqlite.

Opaque formatTime parseTime encodeHeaders decodeHeaders.

(** * Programs of the store *)

Lemma tracks_or_conflict {A} prefix (p : prog Db A) : tracks p → tracks (or_conflict prefix p).
Proof. apply tracks_on_error. Qed.
#[local] Hint Resolve tracks_or_conflict : faults.

Lemma tracks_loadMessage id : tracks (loadMessage id).
Proof. unfold loadMessage. auto 6 with faults. Qed.
Lemma tracks_scanMessages rows : tracks (scanMessages rows).
Proof. unfold scanMessages. auto 6 with faults. Qed.
Lemma tracks_append_message msg : tracks (append_message msg).
Proof. unfold append_message. auto 8 with faults. Qed.
Lemma tracks_for_each {A} (f : A → prog Db unit) xs : (∀ x, tracks (f x)) → tracks (for_each f xs).
Proof. intros Hf. induction xs as [|x xs IH]; simpl; auto with faults. Qed.
Lemma tracks_lease_each req candidates claimed : tracks (lease_each req candidates claimed).
Proof.
  revert claimed. induction candidates as [|m candidates IH]; intros claimed; cbn [lease_each];
    auto 10 with faults.
Qed.
Lemma tracks_must_affect prefix n : tracks (must_affect prefix n).
Proof. unfold must_affect. apply tracks_bind; [auto with faults|]. intros a. case_match; auto with faults. Qed.
#[local] Hint Resolve tracks_loadMessage tracks_scanMessages tracks_append_message tracks_for_each
  tracks_lease_each tracks_must_affect : faults.

Lemma pure_must_affect prefix n : pure (must_affect prefix n).
Proof. unfold must_affect. apply pure_bind; [auto with faults|]. intros a. case_match; auto with faults. Qed.
Lemma pure_scanMessages rows : pure (scanMessages rows).
Proof. unfold scanMessages. auto 6 with faults. Qed.
#[local] Hint Resolve pure_must_affect pure_scanMessages : faults.

Lemma atomic_or_conflict {A} prefix (p : prog Db A) : atomic p → atomic (or_conflict prefix p).
Proof. apply atomic_on_error. Qed.
Lemma atomic_transitionLeased id apply :
  (∀ msg, tracks (apply msg)) → atomic (transitionLeased id apply).
Proof.
  intros Happly. apply atomic_transaction. apply tracks_bind; [auto with faults|]. intros msg.
  case_decide; auto with faults.
Qed.

(** * Every call *)

Lemma atomic_call {A} (c : call A) : atomic (run_call c).
Proof.
  destruct c; cbn [run_call st_SaveQueue st_DeleteQueue st_Append st_Message st_Claim st_Acknowledge
    st_ScheduleRetry st_Release st_MarkDeadLettered st_ExpiredLeases st_Depth st_Purge st_SaveDeadLetter
    st_DeadLetters st_DeadLetter st_MarkDeadLetterReplayed st_DeleteDeadLetter st_CountDeadLetters
    st_AppendHistory st_History Sqlite_ops].
  - apply atomic_pure_bind; [apply atomic_wrapping, atomic_exec|auto with faults..].
  - apply atomic_transaction. auto 8 with faults.
  - destruct ms as [|m ms]; [apply (atomic_pure (mret tt)); auto with faults|]. apply atomic_transaction.
    auto 8 with faults.
  - apply atomic_pure; [unfold sq_Message, loadMessage; auto with faults|apply tracks_loadMessage].
  - unfold sq_Claim. case_match; [apply atomic_pure; auto with faults|].
    apply atomic_transaction. auto 8 with faults.
  - apply atomic_transitionLeased. auto 8 with faults.
  - apply atomic_transitionLeased. auto 8 with faults.
  - apply atomic_transitionLeased. auto 8 with faults.
  - apply atomic_transaction. auto 10 with faults.
  - apply atomic_pure; unfold sq_ExpiredLeases; auto 6 with faults.
  - apply atomic_bind_pure; [auto with faults..|]. intros n. case_match; apply atomic_pure; auto 8 with faults.
  - apply atomic_bind_pure; [auto with faults..|]. intros n.
    case_match; [apply atomic_pure; auto with faults|].
    apply atomic_pure_bind; [apply atomic_wrapping, atomic_exec|auto 8 with faults..].
  - unfold sq_SaveDeadLetter. apply atomic_bind_pure; [auto with faults..|]. intros h.
    apply atomic_pure_bind; [apply atomic_or_conflict, atomic_exec|auto with faults..].
  - apply atomic_pure; unfold sq_DeadLetters; auto 8 with faults.
  - apply atomic_pure; unfold sq_DeadLetter; auto 8 with faults.
  - apply atomic_pure_bind; [apply atomic_wrapping, atomic_exec|auto with faults..].
  - apply atomic_pure_bind; [apply atomic_wrapping, atomic_exec|auto with faults..].
  - apply atomic_pure; unfold sq_CountDeadLetters; auto with faults.
  - apply atomic_pure_bind; [apply atomic_wrapping, atomic_exec|auto with faults..].
  - apply atomic_pure; unfold sq_History; auto 8 with faults.
Qed.
