(* ===== verification/SqliteTopology.v ===== *)
(** The SQLite store keeps a topology, with visibility timeouts in whole
    milliseconds ([TopologyStore.v]). *)

From S2P Require Import Prelude Errors TimeText TimeProofs HeaderJson Message Broker BrokerProofs.
From S2P Require Import Storage TopologyStore SqlConn SqlConnProofs Sqlite SqliteTables SqliteProofs SqliteContract.

Opaque formatTime parseTime encodeHeaders decodeHeaders.

(** * Lists and tables *)

Lemma Sorted_fmap_key {R} (k : R → string) l : Sorted (key_le k) l → Sorted String.le (k <$> l).
Proof. induction 1 as [|x l Hl IH Hhd]; constructor; [done|]. by destruct Hhd; constructor. Qed.

Lemma Forall_filtered {R} (P Q : R → Prop) `{∀ r, Decision (Q r)} rows : Forall P rows → Forall P (filter Q rows).
Proof. rewrite !Forall_forall. intros HP r [_ Hr]%list_elem_of_filter. auto. Qed.

Section upsert.
Context {R V : Type} (key : R → string) (val : R → V).

(** [INSERT ... ON CONFLICT DO UPDATE] that leaves the row of a conflict with
    the value of the new row. *)
Lemma table_upsert rows row update (P : R → Prop) :
  NoDup (key <$> rows) → (∀ r, key (update r) = key r) →
  (∀ r, r ∈ rows → key r = key row → val (update r) = val row) →
  Forall P rows → P row → (∀ r, P r → P (update r)) →
  let rows' := upsert (fun r => bool_decide (key r = key row)) update row rows in
  NoDup (key <$> rows') ∧ table_view key val rows' = <[key row := val row]> (table_view key val rows) ∧
  Forall P rows'.
Proof.
  intros Hnd Hkey Hval HP Hrow Hupd rows'. subst rows'. destruct (decide (key row ∈ (key <$> rows))) as [Hin|Hni].
  - rewrite (upsert_present key) by done. apply list_elem_of_fmap in Hin as (r0 & Hk & Hr0). split_and!.
    + rewrite table_keys_update; [done|]. intros r _. by case_decide.
    + rewrite Hk, (table_view_update key val) by done. by rewrite Hval.
    + apply Forall_fmap. eapply Forall_impl; [done|]. intros r Hr. simpl. case_decide; auto.
  - rewrite (upsert_absent key) by done. split_and!.
    + by apply table_keys_insert.
    + by apply table_view_insert.
    + apply Forall_app. by split; [|apply Forall_singleton].
Qed.

Lemma lists_table (name : V → string) rows l :
  NoDup (key <$> rows) → Forall (fun r => name (val r) = key r) rows → l ≡ₚ rows →
  lists name (table_view key val rows) (val <$> l).
Proof.
  intros Hnd Hname Hl. rewrite Forall_forall in Hname. split.
  - assert (name <$> (val <$> l) = key <$> l) as ->; [|by rewrite Hl].
    rewrite <-list_fmap_compose. apply list_fmap_ext. intros i r Hi. apply Hname.
    rewrite <-Hl. by eapply list_elem_of_lookup_2.
  - intros x. rewrite table_view_Some, list_elem_of_fmap by done. setoid_rewrite Hl. split.
    + intros (r & -> & Hr). exists r. split_and!; [done| |done]. symmetry. by apply Hname.
    + intros (r & Hr & _ & <-). eauto.
Qed.
End upsert.

(** * Exchanges *)

Definition no_exchange : Exchange := mkExchange (mkExchangeSpec "" "" false) zeroTime.

Definition exchange_of (row : exchange_row) : Exchange :=
  match scanExchange row with Ok x => x | Err _ => no_exchange end.

Definition exchange_row_ok (row : exchange_row) : Prop := ∃ t, parseTime (xr_created_at row) = Ok t.

Definition exchanges_wf (t : Tables) : Prop :=
  NoDup (xr_name <$> t_exchanges t) ∧ Forall exchange_row_ok (t_exchanges t).

Definition exchanges_view (t : Tables) : gmap string Exchange := table_view xr_name exchange_of (t_exchanges t).

Lemma exchange_of_row row t :
  parseTime (xr_created_at row) = Ok t →
  scanExchange row = Ok (exchange_of row) ∧
  exchange_of row = mkExchange (mkExchangeSpec (xr_name row) (xr_kind row) (xr_durable row)) t.
Proof. intros Ht. unfold exchange_of, scanExchange. by rewrite Ht. Qed.

Lemma SaveExchange_evals x t :
  exchanges_wf t → time_in_range (ex_CreatedAt x) → unchanged (exchanges_view t) (ex_Name x) x →
  ∃ rows, evals (sq_SaveExchange x) t (put_exchange_rows rows t, Ok tt) ∧
    exchanges_wf (put_exchange_rows rows t) ∧
    exchanges_view (put_exchange_rows rows t) = <[ex_Name x := x]> (exchanges_view t).
Proof.
  intros [Hnd Hok] Hc Hun.
  set (row := mkExchangeRow (ex_Name x) (ex_Kind x) (ex_Durable x) (formatTime (ex_CreatedAt x))).
  set (update := fun r => mkExchangeRow (xr_name r) (xr_kind row) (xr_durable row) (xr_created_at r)).
  assert (exchange_of row = x) as Hrow.
  { destruct (exchange_of_row row (ex_CreatedAt x)) as [_ ->]; [by apply parseTime_formatTime|].
    by destruct x as [[] ?]. }
  destruct (table_upsert xr_name exchange_of (t_exchanges t) row update exchange_row_ok) as (Hnd' & Hv & Hok');
    [done|done| |done|by eexists; apply parseTime_formatTime|done|].
  - intros r Hr Hk. pose proof (proj1 (Forall_forall _ _) Hok r Hr) as [tr Htr].
    destruct Hun as [Hn|Hs].
    + apply table_view_None in Hn. destruct Hn. change (ex_Name x) with (xr_name row). rewrite <-Hk.
      by apply list_elem_of_fmap_2.
    + assert (exchanges_view t !! xr_name r = Some (exchange_of r)) as Hr' by (by apply table_view_row).
      change (ex_Name x) with (xr_name row) in Hs. rewrite <-Hk, Hr' in Hs. injection Hs as Hs.
      destruct (exchange_of_row (update r) tr) as [_ ->]; [done|].
      destruct (exchange_of_row r tr Htr) as [_ E]. rewrite E in Hs. rewrite Hrow. subst x. done.
  - eexists. split; [|split; [split; [exact Hnd'|exact Hok']|]].
    + eapply evals_bind; [|apply evals_ret]. eapply evals_wrapping.
      exact (evals_statement (fun t => (put_exchange_rows (upsert _ update row (t_exchanges t)) t, Ok 1%Z)) t).
    + unfold exchanges_view at 1. change (t_exchanges (put_exchange_rows ?l t)) with l. rewrite Hv. by rewrite Hrow.
Qed.

Lemma Exchanges_evals t :
  exchanges_wf t →
  ∃ l, evals sq_Exchanges t (t, Ok l) ∧ lists ex_Name (exchanges_view t) l.
Proof.
  intros [Hnd Hok]. exists (exchange_of <$> sort_by xr_name (t_exchanges t)). split.
  - eapply evals_bind; [apply evals_query|].
    rewrite (scan_rows_Ok scanExchange exchange_of); [apply evals_listing|].
    intros row Hin. rewrite elem_of_sort_by in Hin. destruct (proj1 (Forall_forall _ _) Hok row Hin) as [tr Htr].
    by destruct (exchange_of_row row tr Htr).
  - apply lists_table; [done| |apply sort_by_perm]. eapply Forall_impl; [done|]. intros row [tr Htr].
    by destruct (exchange_of_row row tr Htr) as [_ ->].
Qed.

(** * Queues *)

Definition no_queue : Queue := mkQueue (mkQueueSpec "" false 0 0 "") zeroTime.

Definition queue_of (row : queue_row) : Queue :=
  match scanQueue row with Ok q => q | Err _ => no_queue end.

Definition queue_row_ok (row : queue_row) : Prop :=
  ∃ t, parseTime (qr_created_at row) = Ok t.

Definition queues_wf (t : Tables) : Prop :=
  NoDup (qr_name <$> t_queues t) ∧ Forall queue_row_ok (t_queues t).

Definition queues_view (t : Tables) : gmap string Queue := table_view qr_name queue_of (t_queues t).

(** What is stored for a queue: its timeout in whole milliseconds, and the time
    it was first saved. *)
Definition stored_queue (old : option Queue) (q : Queue) : Queue :=
  mkQueue (mkQueueSpec (q_Name q) (q_Durable q) (q_MaxAttempts q)
             (Z.quot (q_VisibilityTimeout q) millisecond * millisecond) (q_Schema q))
    (match old with Some o => q_CreatedAt o | None => q_CreatedAt q end).

Lemma scan_queue_row row : queue_row_ok row → scanQueue row = Ok (queue_of row).
Proof. intros [t Ht]. unfold queue_of, scanQueue. by rewrite Ht. Qed.

Lemma queue_of_name row : queue_row_ok row → q_Name (queue_of row) = qr_name row.
Proof. intros [t Ht]. unfold queue_of, scanQueue. by rewrite Ht. Qed.

Lemma milliseconds_whole d :
  in_int64 d → wrap64 (Milliseconds d * millisecond) = (Z.quot d millisecond * millisecond)%Z.
Proof.
  intros Hd. unfold Milliseconds. apply wrap64_id. unfold in_int64, millisecond in *.
  pose proof (Z.quot_rem' d 1000000). pose proof (Z.rem_bound_abs d 1000000).
  pose proof (Z.rem_nonneg d 1000000). pose proof (Z.rem_nonpos d 1000000). lia.
Qed.

Definition queue_values (q : Queue) (name created : string) : queue_row :=
  mkQueueRow name (q_Durable q) (q_MaxAttempts q) (Milliseconds (q_VisibilityTimeout q))
    (q_Schema q) created.

Lemma queue_of_values q created t :
  in_int64 (q_VisibilityTimeout q) → parseTime created = Ok t →
  queue_of (queue_values q (q_Name q) created) =
  mkQueue (mkQueueSpec (q_Name q) (q_Durable q) (q_MaxAttempts q)
             (Z.quot (q_VisibilityTimeout q) millisecond * millisecond) (q_Schema q)) t.
Proof.
  intros Hv Ht. unfold queue_of, scanQueue, queue_values. cbn -[wrap64 Milliseconds millisecond].
  rewrite Ht. cbn -[wrap64 Milliseconds millisecond]. by rewrite milliseconds_whole.
Qed.

(** The statement of [SaveQueue], on the view. *)
Lemma upsert_queue_spec q t :
  queues_wf t → time_in_range (q_CreatedAt q) → in_int64 (q_VisibilityTimeout q) →
  let t' := (upsert_queue (queue_values q (q_Name q) (formatTime (q_CreatedAt q))) t).1 in
  queues_wf t' ∧
  queues_view t' = <[q_Name q := stored_queue (queues_view t !! q_Name q) q]> (queues_view t).
Proof.
  intros [Hnd Hok] Hc Hv t'. set (new := queue_values q (q_Name q) (formatTime (q_CreatedAt q))) in *.
  unfold queues_view.
  destruct (table_cases qr_name queue_of _ (q_Name q) Hnd) as [(row & Hin & Hid & Hlk & _)|(Hni & Hlk & _)];
    rewrite Hlk.
  - pose proof (proj1 (Forall_forall _ _) Hok row Hin) as [tr Htr].
    set (update := fun r => queue_values q (qr_name r) (qr_created_at r)).
    assert (t_queues t' = (fun r => if decide (qr_name r = qr_name row) then update r else r) <$> t_queues t) as Ht'.
    { subst t'. rewrite Hid. apply (upsert_present qr_name _ new); [done|].
      change (qr_name new) with (q_Name q). rewrite <-Hid. by apply list_elem_of_fmap_2. }
    split; [split|]; rewrite ?Ht'.
    + rewrite table_keys_update; [done|]. intros r Hr. by case_decide.
    + apply Forall_fmap, Forall_forall. intros r Hr. simpl.
      pose proof (proj1 (Forall_forall _ _) Hok r Hr). by case_decide.
    + rewrite <-Hid, (table_view_update qr_name queue_of) by done. f_equal.
      unfold update. rewrite Hid, (queue_of_values q _ tr) by done. unfold stored_queue. f_equal.
      unfold queue_of, scanQueue. by rewrite Htr.
  - assert (t_queues t' = t_queues t ++ [new]) as Ht' by (by apply (upsert_absent qr_name)).
    split; [split|]; rewrite ?Ht'.
    + by apply table_keys_insert.
    + apply Forall_app. split; [done|]. apply Forall_singleton. exists (q_CreatedAt q).
      by apply parseTime_formatTime.
    + rewrite (table_view_insert qr_name queue_of) by done.
      change (qr_name new) with (q_Name q). f_equal.
      by apply (queue_of_values q), parseTime_formatTime.
Qed.

Lemma evals_Queues t :
  Forall queue_row_ok (t_queues t) → evals sq_Queues t (t, Ok (queue_of <$> sort_by qr_name (t_queues t))).
Proof.
  intros Hok. eapply evals_bind; [apply evals_query|].
  rewrite (scan_rows_Ok scanQueue queue_of); [apply evals_listing|].
  intros row Hin. rewrite elem_of_sort_by in Hin. by apply scan_queue_row, (proj1 (Forall_forall _ _) Hok).
Qed.

(** Both sides list the queues by name. *)
Lemma sorted_queues t :
  queues_wf t →
  queue_of <$> sort_by qr_name (t_queues t) = sort_by q_Name (snd <$> map_to_list (queues_view t)).
Proof.
  intros [Hnd Hok].
  assert (snd <$> map_to_list (queues_view t) ≡ₚ queue_of <$> t_queues t) as Hp.
  { unfold queues_view, table_view. rewrite map_to_list_to_map by (by rewrite table_view_keys).
    rewrite <-list_fmap_compose. done. }
  assert (q_Name <$> (queue_of <$> sort_by qr_name (t_queues t)) = qr_name <$> sort_by qr_name (t_queues t)) as Hk.
  { rewrite <-list_fmap_compose. apply list_fmap_ext. intros i row Hi. simpl. apply queue_of_name.
    apply (proj1 (Forall_forall _ _) Hok), (elem_of_sort_by qr_name). by eapply list_elem_of_lookup_2. }
  assert (q_Name <$> sort_by q_Name (snd <$> map_to_list (queues_view t)) ≡ₚ qr_name <$> t_queues t) as Hk2.
  { rewrite sort_by_perm, Hp, <-(sort_by_perm qr_name (t_queues t)), Hk. by rewrite (sort_by_perm qr_name). }
  apply (perm_by_key q_Name).
  - by rewrite !sort_by_perm, Hp.
  - rewrite Hk. apply (Sorted_unique String.le).
    + apply Sorted_fmap_key, sort_by_sorted.
    + apply Sorted_fmap_key, sort_by_sorted.
    + by rewrite Hk2, sort_by_perm.
  - by rewrite Hk2.
Qed.

Definition whole_ms (d : Duration) : Duration := (Z.quot d millisecond * millisecond)%Z.

Lemma whole_ms_ok d : in_int64 d → in_int64 (whole_ms d) ∧ whole_ms (whole_ms d) = whole_ms d.
Proof.
  intros Hd. split.
  - unfold whole_ms. rewrite <-(milliseconds_whole d Hd). apply wrap64_range.
  - unfold whole_ms. by rewrite Z.quot_mul.
Qed.

Lemma SaveQueue_evals q t :
  queues_wf t → time_in_range (q_CreatedAt q) → in_int64 (q_VisibilityTimeout q) →
  unchanged (queues_view t) (q_Name q) (keep_timeout whole_ms q) →
  ∃ rows, evals (sq_SaveQueue q) t (put_queue_rows rows t, Ok tt) ∧ queues_wf (put_queue_rows rows t) ∧
    queues_view (put_queue_rows rows t) = <[q_Name q := keep_timeout whole_ms q]> (queues_view t).
Proof.
  intros Hwf Hc Hv Hun. destruct (upsert_queue_spec q t Hwf Hc Hv) as [Hwf' Hview].
  eexists. split; [|split; [exact Hwf'|]].
  - eapply evals_bind; [|apply evals_ret]. eapply evals_wrapping, (evals_statement (upsert_queue _)).
  - etransitivity; [exact Hview|]. f_equal. unfold stored_queue, keep_timeout, whole_ms.
    destruct Hun as [-> | ->]; done.
Qed.

Lemma Queues_evals t :
  queues_wf t → ∃ l, evals sq_Queues t (t, Ok l) ∧ lists q_Name (queues_view t) l.
Proof.
  intros Hwf. destruct Hwf as [Hnd Hok]. eexists. split; [by apply evals_Queues|].
  apply lists_table; [done| |apply sort_by_perm]. eapply Forall_impl; [done|]. intros row. apply queue_of_name.
Qed.

(** * Bindings *)

Definition no_binding : Binding := mkBinding (mkBindingSpec "" "" "") zeroTime.

Definition binding_of (row : binding_row) : Binding :=
  match scanBinding row with Ok b => b | Err _ => no_binding end.

Definition binding_row_ok (row : binding_row) : Prop := ∃ t, parseTime (br_created_at row) = Ok t.

(** The columns of the primary key. *)
Definition row_spec (row : binding_row) : BindingSpec :=
  mkBindingSpec (br_exchange row) (br_queue row) (br_routing_key row).

Definition bindings_wf (t : Tables) : Prop :=
  NoDup (row_spec <$> t_bindings t) ∧ Forall binding_row_ok (t_bindings t).

Definition bindings_view (t : Tables) : gset Binding := list_to_set (binding_of <$> t_bindings t).

Lemma binding_of_row row : binding_row_ok row →
  scanBinding row = Ok (binding_of row) ∧ b_Spec (binding_of row) = row_spec row.
Proof. intros [t Ht]. unfold binding_of, scanBinding. by rewrite Ht. Qed.

Lemma elem_of_bindings_view t b : b ∈ bindings_view t ↔ ∃ row, row ∈ t_bindings t ∧ binding_of row = b.
Proof. unfold bindings_view. rewrite elem_of_list_to_set, list_elem_of_fmap. naive_solver. Qed.

(** [ON CONFLICT ... DO NOTHING] *)
Lemma upsert_nothing {R} (same : R → bool) row rows :
  upsert same (fun r => r) row rows = if existsb same rows then rows else rows ++ [row].
Proof.
  induction rows as [|r rows IH]; [done|]. cbn [upsert existsb app]. rewrite IH.
  destruct (same r); [done|]. simpl. by destruct (existsb same rows).
Qed.

Lemma SaveBinding_evals b t :
  bindings_wf t → time_in_range (b_CreatedAt b) →
  (∀ b', b' ∈ bindings_view t → b_Spec b' = b_Spec b → b' = b) →
  ∃ rows, evals (sq_SaveBinding b) t (put_binding_rows rows t, Ok tt) ∧ bindings_wf (put_binding_rows rows t) ∧
    bindings_view (put_binding_rows rows t) = {[b]} ∪ bindings_view t.
Proof.
  intros [Hnd Hok] Hc Hsame.
  set (row := mkBindingRow (b_Exchange b) (b_Queue b) (b_RoutingKey b) (formatTime (b_CreatedAt b))).
  eexists. split.
  { eapply evals_bind; [|apply evals_ret]. eapply evals_wrapping.
    exact (evals_statement (fun t => (put_binding_rows (upsert (binding_key_eq row) (fun r => r) row (t_bindings t)) t,
      Ok 1%Z)) t). }
  assert (binding_of row = b) as Hrow.
  { unfold binding_of, scanBinding. simpl. rewrite (parseTime_formatTime _ Hc). by destruct b as [[] ?]. }
  rewrite upsert_nothing. destruct (existsb (binding_key_eq row) (t_bindings t)) eqn:Hex.
  - split; [by split|]. apply existsb_exists in Hex as (r & Hr & Hkey). apply list_elem_of_In in Hr.
    unfold binding_key_eq in Hkey. apply bool_decide_eq_true in Hkey as (H1 & H2 & H3).
    pose proof (proj1 (Forall_forall _ _) Hok r Hr) as Hrok. destruct (binding_of_row r Hrok) as [_ Hs].
    assert (binding_of r ∈ bindings_view t) as Hin by (apply elem_of_bindings_view; eauto).
    assert (binding_of r = b) as Hb.
    { apply Hsame; [done|]. rewrite Hs. unfold row_spec. rewrite <-H1, <-H2, <-H3. by destruct b as [[] ?]. }
    change (bindings_view (put_binding_rows (t_bindings t) t)) with (bindings_view t). set_solver.
  - split; [split|].
    + simpl. rewrite fmap_app. apply NoDup_app. split_and!; [done| |apply NoDup_singleton].
      intros x Hx ->%list_elem_of_singleton. apply list_elem_of_fmap in Hx as (r & Hr & Hin).
      assert (existsb (binding_key_eq row) (t_bindings t) = true) as Ht; [|congruence].
      apply existsb_exists. exists r. split; [by apply list_elem_of_In|]. apply bool_decide_eq_true.
      by injection Hr.
    + apply Forall_app. split; [exact Hok|]. apply Forall_singleton. eexists. by apply parseTime_formatTime.
    + apply set_eq. intros b'. unfold bindings_view. simpl. rewrite fmap_app. simpl. rewrite Hrow. set_solver.
Qed.

Lemma DeleteBinding_evals spec t :
  bindings_wf t →
  ∃ rows r, evals (sq_DeleteBinding spec) t (put_binding_rows rows t, r) ∧
    bindings_wf (put_binding_rows rows t) ∧
    bindings_view (put_binding_rows rows t) = filter (fun b => b_Spec b ≠ spec) (bindings_view t) ∧
    (r = Ok tt ∨ r = Err (StorageErr ErrNotFound)).
Proof.
  intros [Hnd Hok]. eexists _, _. split.
  { eapply evals_bind; [|apply evals_must_affect]. eapply evals_wrapping, (evals_statement (delete_bindings spec)). }
  split_and!.
  - split; simpl; [|by apply Forall_filtered]. eapply sublist_NoDup; [exact Hnd|].
    apply fmap_sublist, sublist_filter.
  - apply set_eq. intros b. rewrite elem_of_filter, !elem_of_bindings_view. simpl.
    assert (∀ row, row ∈ t_bindings t →
      binding_key_eq (mkBindingRow (bs_Exchange spec) (bs_Queue spec) (bs_RoutingKey spec) "") row = false ↔
      b_Spec (binding_of row) ≠ spec) as Hkey.
    { intros row Hr. destruct (binding_of_row row (proj1 (Forall_forall _ _) Hok row Hr)) as [_ ->].
      unfold binding_key_eq, row_spec. rewrite bool_decide_eq_false. simpl. destruct spec; simpl. naive_solver. }
    setoid_rewrite list_elem_of_filter. split.
    + intros (row & [Hf Hr] & <-). split; [by apply Hkey|eauto].
    + intros (Hne & row & Hr & <-). exists row. split; [|done]. split; [by apply Hkey|done].
  - case_match; auto.
Qed.

Lemma Bindings_evals t :
  bindings_wf t → ∃ l, evals sq_Bindings t (t, Ok l) ∧ NoDup l ∧ ∀ b, b ∈ l ↔ b ∈ bindings_view t.
Proof.
  intros [Hnd Hok]. exists (binding_of <$> sorted_by binding_order (t_bindings t)). split_and!.
  - eapply evals_bind; [apply evals_query|].
    rewrite (scan_rows_Ok scanBinding binding_of); [apply evals_listing|].
    intros row Hin. rewrite sorted_by_perm in Hin.
    by destruct (binding_of_row row (proj1 (Forall_forall _ _) Hok row Hin)).
  - rewrite sorted_by_perm. apply (NoDup_fmap_1 b_Spec). rewrite <-list_fmap_compose.
    erewrite list_fmap_ext; [exact Hnd|]. intros i row Hi. apply (binding_of_row row).
    by eapply Forall_lookup_1.
  - intros b. rewrite elem_of_bindings_view, list_elem_of_fmap. setoid_rewrite sorted_by_perm. naive_solver.
Qed.

(** * The instance *)

Definition topo_wf (t : Tables) : Prop := exchanges_wf t ∧ queues_wf t ∧ bindings_wf t.

Definition sqlite_topology (t : Tables) : topology :=
  mkTopo (exchanges_view t) (queues_view t) (bindings_view t).

(** Deleting a queue leaves the other tables of the topology alone. *)
Lemma DeleteQueue_evals name t :
  queues_wf t →
  ∃ t' r, evals (sq_DeleteQueue name) t (t', r) ∧ queues_wf t' ∧ queues_view t' = delete name (queues_view t) ∧
    t_exchanges t' = t_exchanges t ∧ t_bindings t' = t_bindings t ∧
    (r = Ok tt ∨ r = Err (StorageErr ErrNotFound)).
Proof.
  intros [Hnd Hok]. set (rest := filter (fun row => qr_name row ≠ name) (t_queues t)).
  assert (evals (exec (fun t => (put_queue_rows (filter (fun row => qr_name row ≠ name) (t_queues t)) t,
            Ok (count_queues name t)))) t (put_queue_rows rest t, Ok (count_queues name t))) as Hdel
    by apply (evals_statement (fun t => (put_queue_rows _ t, Ok (count_queues name t)))).
  assert (queues_view (put_queue_rows rest t) = delete name (queues_view t)) as Hview.
  { apply table_view_map_eq; [by apply table_keys_filter|]. intros k v. simpl.
    unfold queues_view. rewrite lookup_delete_Some, table_view_Some by done.
    unfold rest. setoid_rewrite list_elem_of_filter. naive_solver. }
  destruct (decide (count_queues name t = 0)%Z) as [Hz|Hz].
  - eexists t, (Err _). split; [|split_and!; [by split| |done|done|by right]].
    + eapply (evals_transaction _ _ _ t _ (Err (StorageErr ErrNotFound))).
      eapply evals_bind; [apply evals_wrapping, Hdel|]. apply evals_bind_err. unfold must_affect.
      eapply evals_bind; [apply evals_rows_affected|]. rewrite Hz. apply evals_fails.
    + symmetry. apply delete_id. apply table_view_None. intros Hin. apply list_elem_of_fmap in Hin as (row & -> & Hr).
      assert (row ∈ filter (fun r => qr_name r = qr_name row) (t_queues t)) as Hf by (by apply list_elem_of_filter).
      unfold count_queues in Hz. destruct (filter _ (t_queues t)); [set_solver|simpl in Hz; lia].
  - eexists _, (Ok tt). split.
    { eapply (evals_transaction _ _ _ t _ (Ok tt)).
      eapply evals_bind; [apply evals_wrapping, Hdel|]. unfold must_affect.
      eapply evals_bind; [|eapply evals_bind; [apply evals_delete|apply evals_ret]].
      eapply evals_bind; [apply evals_rows_affected|]. rewrite (proj2 (Z.eqb_neq _ _) Hz). apply evals_ret. }
    split_and!; [|exact Hview|done|done|by left].
    split; [by apply table_keys_filter|by apply Forall_filtered].
Qed.

Definition sqlite_topo_ok (db : Db) : Prop := healthy db ∧ topo_wf (db_tables db).

(** A call whose outcome is known runs on every connection without faults. *)
Lemma topo_run {A} (p : prog Db A) db t' r :
  healthy db → evals p (db_tables db) (t', r) → topo_wf t' →
  ∃ db', p db = (db', r) ∧ sqlite_topo_ok db' ∧ sqlite_topology (db_tables db') = sqlite_topology t'.
Proof.
  intros Hh Hev Hwf. destruct (evals_run _ _ _ _ _ Hev Hh eq_refl) as (db' & Heq & Hh' & <-).
  by exists db'.
Qed.

#[export] Instance Sqlite_topology : TopologyStore Db.
Proof.
  refine {| ts_ok := sqlite_topo_ok; ts_view db := sqlite_topology (db_tables db);
            ts_time := time_in_range; ts_duration := in_int64; ts_kept := whole_ms |}.
  - apply whole_ms_ok.
  - intros x db [Hh (Hx & Hq & Hb)] Hc Hun.
    destruct (SaveExchange_evals x _ Hx Hc Hun) as (rows & Hev & Hwf & Hv).
    destruct (topo_run _ db _ _ Hh Hev) as (db' & Heq & Hok & Ht); [done|]. exists db'.
    rewrite Ht. unfold sqlite_topology at 1. by rewrite Hv.
  - intros q db [Hh (Hx & Hq & Hb)] Hc Hd Hun.
    destruct (SaveQueue_evals q _ Hq Hc Hd Hun) as (rows & Hev & Hwf & Hv).
    destruct (topo_run _ db _ _ Hh Hev) as (db' & Heq & Hok & Ht); [done|]. exists db'.
    rewrite Ht. unfold sqlite_topology at 1. by rewrite Hv.
  - intros name db [Hh (Hx & Hq & Hb)].
    destruct (DeleteQueue_evals name _ Hq) as (t' & r & Hev & Hwf & Hv & Ex & Eb & Hr).
    destruct (topo_run _ db _ _ Hh Hev) as (db' & Heq & Hok & Ht).
    { unfold topo_wf, exchanges_wf, bindings_wf. by rewrite Ex, Eb. }
    exists db', r. rewrite Ht. unfold sqlite_topology at 1, exchanges_view at 1, bindings_view at 1.
    by rewrite Hv, Ex, Eb.
  - intros b db [Hh (Hx & Hq & Hb)] Hc _ Hsame.
    destruct (SaveBinding_evals b _ Hb Hc Hsame) as (rows & Hev & Hwf & Hv).
    destruct (topo_run _ db _ _ Hh Hev) as (db' & Heq & Hok & Ht); [done|]. exists db'.
    rewrite Ht. unfold sqlite_topology at 1. by rewrite Hv.
  - intros spec db [Hh (Hx & Hq & Hb)] _.
    destruct (DeleteBinding_evals spec _ Hb) as (rows & r & Hev & Hwf & Hv & Hr).
    destruct (topo_run _ db _ _ Hh Hev) as (db' & Heq & Hok & Ht); [done|]. exists db', r.
    rewrite Ht. unfold sqlite_topology at 1. by rewrite Hv.
  - intros db [Hh (Hx & Hq & Hb)]. destruct (Exchanges_evals _ Hx) as (l & Hev & Hl).
    destruct (topo_run _ db _ _ Hh Hev) as (db' & Heq & Hok & Ht); [done|]. by exists db', l.
  - intros db [Hh (Hx & Hq & Hb)]. destruct (Queues_evals _ Hq) as (l & Hev & Hl).
    destruct (topo_run _ db _ _ Hh Hev) as (db' & Heq & Hok & Ht); [done|]. by exists db', l.
  - intros db [Hh (Hx & Hq & Hb)]. destruct (Bindings_evals _ Hb) as (l & Hev & Hnd & Hl).
    destruct (topo_run _ db _ _ Hh Hev) as (db' & Heq & Hok & Ht); [done|]. by exists db', l.
Defined.
