(* ===== verification/SqliteClaims.v ===== *)
(** What the SQLite store promises: the theorems about [Sqlite.v], [TimeText.v]
    and [HeaderJson.v]. *)

From S2P Require Import Prelude Errors TimeText TimeProofs HeaderJson HeaderProofs Message.
From S2P Require Import Broker Storage StoreTraces SqlConn SqlConnProofs Sqlite SqliteTables.
From S2P Require Import SqliteProofs SqliteContract SqliteFaults SqliteTopology.

Opaque formatTime parseTime encodeHeaders decodeHeaders.

(** A new database, its tables created. *)
Definition sq_New : Db := mkDb false empty_tables 0 (fun _ => None).

Definition sq_reached (cs : list any_call) : Db := (run_calls cs sq_New).1.

Lemma sq_New_inv : sqlite_inv sq_New.
Proof. split; [done|]. split_and!; split; simpl; constructor. Qed.

Lemma sq_reached_inv cs : calls_ok cs sq_New → sqlite_inv (sq_reached cs).
Proof. intros Hok. exact (proj1 (run_calls_refines (S:=Db) cs sq_New sq_New_inv Hok)). Qed.

(** * The contract *)

(** C3: Every sequence of calls on a new database whose callers keep to
    four-digit years, UTF-8 headers and 64-bit counters behaves as the abstract
    store of the contract, as the in-memory store does: each result is one the
    contract allows, the tables show the abstract state it prescribes, and they
    stay well formed (every text column can be read back, ids are unique,
    sequence numbers increase). *)
Theorem sqlite_refines_contract cs :
  calls_ok cs sq_New →
  abstract_run cs (mkAStore ∅ ∅ ∅ ∅) (run_calls cs sq_New).2 (sqlite_view (sq_reached cs)) ∧
  tables_wf (db_tables (sq_reached cs)).
Proof.
  intros Hok. destruct (sq_reached_inv cs Hok) as [_ Hwf]. split; [|done].
  exact (proj2 (run_calls_refines (S:=Db) cs sq_New sq_New_inv Hok)).
Qed.

(** A lease taken in the SQLite store is exclusive: until the message is
    acknowledged, retried, released or dead-lettered, or its queue is emptied,
    no claim returns it again and its row stays as the claim left it. *)
Theorem sqlite_lease_exclusive before after id r :
  calls_ok before sq_New → calls_ok after (sq_reached before) →
  messages_view (t_messages (db_tables (sq_reached before))) !! id = Some r →
  rec_State r = StateProcessing →
  Forall (fun c => ¬ releases id (projT2 c) ∧ ¬ removes (projT2 c) r) after →
  messages_view (t_messages (db_tables (run_calls after (sq_reached before)).1)) !! id = Some r ∧
  id ∉ deliveries after (sq_reached before).
Proof.
  intros Hb Ha Hid Hp Hcs.
  exact (lease_stable_trace (S:=Db) after (sq_reached before) id r (sq_reached_inv before Hb) Ha Hid Hp Hcs).
Qed.

(** C4: Whatever the database reports, a call is all or nothing: compared with
    the same call on a database that reports no fault, either both agree on
    result and tables, or the call reports an error and the tables are exactly
    as before it or exactly as after the undisturbed call; no partly applied
    append, claim, retry or queue deletion is ever visible. *)
Theorem sqlite_calls_atomic {A} (c : call A) db db0 :
  twins db db0 →
  ((run_call c db).2 = (run_call c db0).2 ∧
   db_tables (run_call c db).1 = db_tables (run_call c db0).1) ∨
  (∃ e, (run_call c db).2 = Err e ∧
     (db_tables (run_call c db).1 = db_tables db ∨
      db_tables (run_call c db).1 = db_tables (run_call c db0).1)).
Proof.
  intros Htw. destruct (atomic_call c db db0 Htw) as [[(_ & _ & Ht) Hr]|[[e He] Ht]]; eauto.
Qed.

(** * Claims *)

(** Earlier availability first, then the order of arrival. *)
Definition claim_before (r1 r2 : message_row) : Prop :=
  let t1 := msg_AvailableAt (rec_msg (record_of r1)) in
  let t2 := msg_AvailableAt (rec_msg (record_of r2)) in
  (t1 < t2 ∨ (t1 = t2 ∧ mr_seq r1 ≤ mr_seq r2))%Z.

Lemma claim_order_before r1 r2 :
  row_ok r1 → row_ok r2 → claim_order r1 r2 ≠ Gt ↔ claim_before r1 r2.
Proof.
  intros H1 H2. unfold claim_order, claim_before. rewrite (row_available r1 H1), (row_available r2 H2).
  destruct H1 as (((_ & _ & _ & Ha1) & _) & _), H2 as (((_ & _ & _ & Ha2) & _) & _).
  rewrite formatTime_compare by done. unfold then_by.
  destruct (Z.compare_spec (msg_AvailableAt (rec_msg (record_of r1))) (msg_AvailableAt (rec_msg (record_of r2))));
    rewrite ?Z.compare_le_iff; split; intros; try lia; try done.
Qed.

Lemma StronglySorted_impl_in {R} (P Q : R → R → Prop) l :
  (∀ x y, x ∈ l → y ∈ l → P x y → Q x y) → StronglySorted P l → StronglySorted Q l.
Proof.
  intros HPQ. induction 1 as [|x l Hl IH Hf]; constructor.
  - apply IH. intros y z Hy Hz. apply HPQ; set_solver.
  - apply Forall_forall. intros y Hy. apply HPQ; [set_solver..|]. by apply (proj1 (Forall_forall _ _) Hf).
Qed.


Lemma StronglySorted_map {R S} (Q : S → S → Prop) (f : R → S) l :
  StronglySorted (fun x y => Q (f x) (f y)) l → StronglySorted Q (f <$> l).
Proof. induction 1; simpl; constructor; [done|]. by apply Forall_fmap. Qed.

(** C17: [Claim] on SQLite is fair by availability: of the queued and retrying
    messages of the queue whose time has come it returns the first [Limit] in
    the order of their availability, ties in the order of arrival, each leased
    to the caller with one more attempt. *)
Theorem sq_Claim_order req db :
  sqlite_inv db → (0 < cr_Limit req)%Z → sqlite_pre (sqlite_view db) (CClaim req) →
  ∃ rows, StronglySorted claim_before rows ∧
    rows ≡ₚ filter (fun row => claimable_in req (record_of row)) (t_messages (db_tables db)) ∧
    (sq_Claim req db).2 =
      Ok ((fun row => rec_msg (claim_record req (record_of row))) <$> take (Z.to_nat (cr_Limit req)) rows).
Proof.
  intros [Hh Hwf] Hlim (Hnow & Hl & Hnz). pose proof Hwf as (Hm & _).
  set (P := fun row => claimable_in req (record_of row)).
  set (rows := sorted_by claim_order (filter (row_claimable req) (t_messages (db_tables db)))).
  assert (rows ≡ₚ filter P (t_messages (db_tables db))) as Hp.
  { unfold rows. rewrite sorted_by_perm. erewrite filter_ext_in; [done|]. intros row Hin.
    apply row_claimable_spec; [by eapply messages_row|done]. }
  exists rows. split_and!; [|done|].
  - eapply StronglySorted_impl_in; [|apply (sorted_by_sorted claim_order), _].
    intros x y Hx Hy. fold rows in Hx, Hy. rewrite Hp in Hx, Hy.
    apply list_elem_of_filter in Hx as [_ Hx], Hy as [_ Hy].
    apply claim_order_before; by eapply messages_row.
  - assert (limit_rows (cr_Limit req) rows = take (Z.to_nat (cr_Limit req)) rows) as <-.
    { unfold limit_rows. by rewrite (proj2 (Z.ltb_ge _ _)) by lia. }
    pose proof (evals_Claim req (db_tables db) Hwf Hlim Hnow Hl Hnz) as Hev.
    by destruct (evals_run _ _ _ _ _ Hev Hh eq_refl) as (db' & -> & _).
Qed.

(** * Dead letters *)

(** Newest first, ties by descending id. *)
Definition letter_before (d1 d2 : DeadLetter) : Prop :=
  (dl_DeadLetteredAt d2 < dl_DeadLetteredAt d1)%Z ∨
  (dl_DeadLetteredAt d1 = dl_DeadLetteredAt d2 ∧ String.le (dl_ID d2) (dl_ID d1)).

Lemma newest_first_before r1 r2 :
  letter_row_ok r1 → letter_row_ok r2 → newest_first r1 r2 ≠ Gt ↔ letter_before (letter_of r1) (letter_of r2).
Proof.
  intros H1 H2. unfold newest_first, letter_before.
  rewrite (letter_id r1 H1), (letter_id r2 H2), (letter_dead_at r1 H1), (letter_dead_at r2 H2).
  destruct H1 as ((_ & _ & _ & Hd1 & _) & _), H2 as ((_ & _ & _ & Hd2 & _) & _).
  rewrite formatTime_compare by done. unfold then_by.
  destruct (Z.compare_spec (dl_DeadLetteredAt (letter_of r2)) (dl_DeadLetteredAt (letter_of r1)));
    rewrite ?compare_le; split; intros; naive_solver lia.
Qed.

Definition newest_letters (queue : string) (t : Tables) : list DeadLetter :=
  letter_of <$> sorted_by newest_first (filter (row_in_queue queue) (t_dead_letters t)).

Definition sq_dead_page (queue : string) (n i : nat) (db : Db) : list DeadLetter :=
  match (sq_DeadLetters (mkDeadLetterFilter queue (Z.of_nat n) (Z.of_nat (i * n))) db).2 with
  | Ok ds => ds
  | Err _ => []
  end.

Lemma sq_DeadLetters_eq f db :
  sqlite_inv db →
  (sq_DeadLetters f db).2 = Ok (letter_of <$> select_dead_letters (Normalise f) (db_tables db)).
Proof.
  intros [Hh Hwf]. destruct (evals_run _ _ _ _ _ (evals_DeadLetters f _ Hwf) Hh eq_refl) as (db' & -> & _). done.
Qed.

(** Paging through the dead letters of the SQLite store misses and repeats
    nothing: with a page size of 1 to 500, the first [k] pages concatenated are
    the first [k * n] of the dead letters of the queue (of all queues for the
    empty name), newest first, ties by id; and that list holds every matching
    dead letter exactly once. *)
Theorem sq_DeadLetters_pages queue n k db :
  sqlite_inv db → 1 ≤ n ≤ 500 →
  let all := newest_letters queue (db_tables db) in
  concat ((fun i => sq_dead_page queue n i db) <$> seq 0 k) = take (k * n) all ∧
  StronglySorted letter_before all ∧ NoDup (dl_ID <$> all) ∧
  (∀ d, d ∈ all ↔ a_dead (sqlite_view db) !! dl_ID d = Some d ∧ dl_matches queue d).
Proof.
  intros Hinv Hn all. pose proof Hinv as [_ (_ & Hl & _)].
  set (rows := sorted_by newest_first (filter (row_in_queue queue) (t_dead_letters (db_tables db)))).
  pose proof (sorted_by_perm newest_first (filter (row_in_queue queue) (t_dead_letters (db_tables db)))) as Hp.
  fold rows in Hp.
  assert (∀ row, row ∈ rows → row ∈ t_dead_letters (db_tables db) ∧ letter_row_ok row ∧ row_in_queue queue row)
    as Hrow.
  { intros row Hin. rewrite Hp, list_elem_of_filter in Hin. destruct Hin. split_and!; [done|by eapply letters_row|done]. }
  split_and!.
  - rewrite <-concat_pages. f_equal. apply list_fmap_ext. intros i x _.
    unfold sq_dead_page. rewrite sq_DeadLetters_eq by done. unfold all, newest_letters, select_dead_letters.
    unfold Normalise, maxPageSize, limit_rows. simpl.
    rewrite (proj2 (orb_false_iff _ _)) by (split; [apply Z.leb_gt; lia|apply Z.ltb_ge; lia]).
    rewrite !(proj2 (Z.ltb_ge _ _)) by lia. rewrite !Nat2Z.id. by rewrite fmap_take, fmap_drop.
  - apply StronglySorted_map. eapply StronglySorted_impl_in; [|apply (sorted_by_sorted newest_first)].
    + intros x y Hx Hy. fold rows in Hx, Hy. apply newest_first_before; by apply Hrow.
    + apply (reverse_order (fun r1 r2 => then_by (String.compare (dr_dead_lettered_at r1) (dr_dead_lettered_at r2))
        (String.compare (dr_id r1) (dr_id r2)))), _.
  - unfold all, newest_letters. fold rows. rewrite <-list_fmap_compose.
    rewrite (list_fmap_ext _ dr_id rows) by (intros i row Hi; symmetry; apply letter_id, Hrow;
      by eapply list_elem_of_lookup_2).
    rewrite Hp. apply table_keys_filter, Hl.
  - intros d. unfold all, newest_letters. fold rows. rewrite list_elem_of_fmap. simpl. unfold letters_view. split.
    + intros (row & -> & Hin). destruct (Hrow row Hin) as (Hr & Hok & Hq).
      rewrite <-(letter_id row Hok). split; [apply table_view_row; [apply Hl|done]|by apply row_in_queue_spec].
    + intros [(row & Hr & Hid & <-)%table_view_Some Hq]; [|apply Hl]. exists row. split; [done|].
      rewrite Hp, list_elem_of_filter. split; [|done]. apply row_in_queue_spec; [by eapply letters_row|done].
Qed.

(** * Text columns *)

(** Instants survive their text column: an instant in the years 0 to 9999
    is read back exactly, to the nanosecond. *)
Theorem time_roundtrip t : time_in_range t → parseTime (formatTime t) = Ok t.
Proof. apply parseTime_formatTime. Qed.

(** The texts of instants in the years 0 to 9999 compare, byte by byte as
    SQL compares them, exactly as the instants do; so [available_at <= ?],
    [lease_expires_at <= ?] and the [ORDER BY] clauses mean what they say. *)
Theorem time_text_order s t :
  time_in_range s → time_in_range t → String.compare (formatTime s) (formatTime t) = (s ?= t)%Z.
Proof. apply formatTime_compare. Qed.

(** Headers survive their JSON column: a header map whose keys and values
    are valid UTF-8 is read back as it was, whatever quotes, backslashes,
    control bytes, HTML characters or line separators it contains; the empty
    map is stored as [{}]. *)
Theorem headers_roundtrip headers :
  text_ok headers →
  ∃ raw, encodeHeaders headers = Ok raw ∧ decodeHeaders raw = Ok headers ∧ (headers = ∅ → raw = "{}").
Proof.
  intros Hok. destruct (decode_encodeHeaders headers Hok) as (raw & He & Hd). exists raw.
  split_and!; [done..|]. intros ->. rewrite encodeHeaders_empty in He. congruence.
Qed.

(** * Queues *)

(** The queue table is a map from names to queues: saving a queue replaces
    the one of that name, but for the time it was first saved, keeps its
    visibility timeout in whole milliseconds (any fraction is cut off), leaves
    the other queues alone, and [Queues] lists exactly the map, by name. *)
Theorem sq_SaveQueue_Queues q db :
  healthy db → queues_wf (db_tables db) → time_in_range (q_CreatedAt q) → in_int64 (q_VisibilityTimeout q) →
  let view := queues_view (db_tables db) in
  let db' := (sq_SaveQueue q db).1 in
  let view' := queues_view (db_tables db') in
  (sq_SaveQueue q db).2 = Ok tt ∧ queues_wf (db_tables db') ∧
  view' = <[q_Name q := stored_queue (view !! q_Name q) q]> view ∧
  (sq_Queues db').2 = Ok (sort_by q_Name (snd <$> map_to_list view')).
Proof.
  intros Hh Hwf Hc Hv view db' view'.
  assert (evals (sq_SaveQueue q) (db_tables db)
    ((upsert_queue (queue_values q (q_Name q) (formatTime (q_CreatedAt q))) (db_tables db)).1, Ok tt)) as Hev.
  { eapply evals_bind; [|apply evals_ret]. eapply evals_wrapping, (evals_statement (upsert_queue _)). }
  destruct (evals_run _ _ _ _ _ Hev Hh eq_refl) as (db1 & Heq & Hh1 & Ht1).
  destruct (upsert_queue_spec q (db_tables db) Hwf Hc Hv) as [Hwf' Hview].
  subst view' db'. rewrite Heq. cbn [fst snd]. rewrite <-Ht1 in Hwf', Hview.
  split_and!; [done|done|exact Hview|].
  destruct (evals_run _ _ _ _ _ (evals_Queues _ (proj2 Hwf')) Hh1 eq_refl) as (db2 & -> & _).
  cbn [fst snd]. f_equal. by apply sorted_queues.
Qed.

(** * Witnesses *)

Module SqlSamples.
Definition headers : gmap string string := {["trace" := "a<b & c\d"]}.
Definition msg (id : string) (available : Time) : Message :=
  mkMessage id "erp.events" "invoice.issued" "invoices" "" "{}" headers StateQueued 0 3 "" 100 100 available.
Definition queue : Queue := mkQueue (mkQueueSpec "invoices" true 3 1500000 "") 1.
Definition claim (consumer : string) (limit now : Z) : ClaimRequest :=
  mkClaimRequest "invoices" consumer limit (30 * second) now.
Definition letter (id : string) (at_ : Time) : DeadLetter :=
  mkDeadLetter id "m9" "invoices" "erp.events" "invoice.issued" "" "{}" headers "boom" "handler" 3
    1 2 at_ "" zeroTime 0.

Definition before : list any_call :=
  [existT _ (CSaveQueue queue);
   existT _ (CAppend [msg "m1" 300; msg "m2" 200; msg "m3" 100]);
   existT _ (CClaim (claim "worker-a" 1 250))].
Definition after : list any_call :=
  [existT _ (CClaim (claim "worker-b" 5 2000));
   existT _ (CAcknowledge "m2" 2500);
   existT _ (CScheduleRetry (mkRetryRequest "m1" 1 "boom" 9000 2600));
   existT _ (CDepth "invoices")].
Definition dead : list any_call :=
  [existT _ (CSaveDeadLetter "x" (letter "d1" 50)); existT _ (CSaveDeadLetter "y" (letter "" 70));
   existT _ (CSaveDeadLetter "z" (letter "d3" 60))].
Definition leased_m3 : record :=
  claim_record (claim "worker-a" 1 250) (mkRecord (msg "m3" 100) zeroTime "").

Ltac in_range := split; vm_compute; congruence.

Lemma headers_ok : text_ok headers.
Proof. by apply (bool_decide_eq_true_1 (text_ok headers)). Qed.
Lemma msg_ok id available : time_in_range available → message_ok (msg id available) ∧ "{}" ≠ "".
Proof. intros Ha. split; [|done]. split; [exact headers_ok|]. split_and!; [in_range|in_range|exact Ha]. Qed.

Lemma before_ok : calls_ok before sq_New.
Proof.
  apply calls_ok_static. repeat (apply Forall_cons; split); [by split|..|done].
  - split; [|intros a; repeat (apply Forall_cons; split; [apply msg_ok; in_range|]); done].
    split; [|by repeat constructor]. by apply (bool_decide_eq_true_1 (NoDup ["m1"; "m2"; "m3"])).
  - split; [done|intros a]. split_and!; [in_range|in_range|done].
Qed.

Lemma after_ok db : calls_ok after db.
Proof.
  apply calls_ok_static. repeat (apply Forall_cons; split); [..|done].
  - split; [done|intros a]. split_and!; [in_range|in_range|done].
  - split; [done|intros a]. in_range.
  - split; [done|intros a]. split; in_range.
  - done.
Qed.

Lemma dead_ok : calls_ok dead sq_New.
Proof.
  apply calls_ok_static. repeat (apply Forall_cons; split); [..|done];
    (split; [done|intros a]; split; [|done]; split; [exact headers_ok|]; split_and!; in_range).
Qed.

Lemma m3_leased : messages_view (t_messages (db_tables (sq_reached before))) !! "m3" = Some leased_m3.
Proof. vm_compute. reflexivity. Qed.

(** The database of [before], failing its third statement. *)
Definition faulty : Db :=
  mkDb false (db_tables (sq_reached before)) 0
    (fun n => if decide (n = 2) then Some (errorString "disk I/O error", false) else None).
Definition undisturbed : Db := mkDb false (db_tables (sq_reached before)) 0 (fun _ => None).
Lemma twin_of (t : Tables) faults : twins (mkDb false t 0 faults) (mkDb false t 0 (fun _ => None)).
Proof. done. Qed.
Lemma faulty_twin : twins faulty undisturbed.
Proof. unfold faulty, undisturbed. apply twin_of. Qed.
End SqlSamples.

Lemma sqlite_refines_contract_witness :
  tables_wf (db_tables (sq_reached SqlSamples.before)) ∧
  length (t_messages (db_tables (sq_reached SqlSamples.before))) = 3.
Proof.
  split; [|vm_compute; reflexivity].
  apply (sqlite_refines_contract SqlSamples.before). exact SqlSamples.before_ok.
Defined.

Lemma sqlite_lease_exclusive_witness :
  "m3" ∉ deliveries SqlSamples.after (sq_reached SqlSamples.before).
Proof.
  apply (sqlite_lease_exclusive SqlSamples.before SqlSamples.after "m3" SqlSamples.leased_m3).
  - exact SqlSamples.before_ok.
  - apply SqlSamples.after_ok.
  - exact SqlSamples.m3_leased.
  - reflexivity.
  - unfold SqlSamples.after. repeat (apply Forall_cons; split;
      [split; simpl; first [tauto|intros Hx; discriminate Hx]|]). by apply Forall_nil.
Defined.

Lemma sqlite_calls_atomic_witness :
  let c := CClaim (SqlSamples.claim "worker-b" 5 2000) in
  ∃ e, (run_call c SqlSamples.faulty).2 = Err e ∧
    (db_tables (run_call c SqlSamples.faulty).1 = db_tables SqlSamples.faulty ∨
     db_tables (run_call c SqlSamples.faulty).1 = db_tables (run_call c SqlSamples.undisturbed).1).
Proof.
  intros c. destruct (sqlite_calls_atomic c SqlSamples.faulty SqlSamples.undisturbed)
    as [[Hr _]|He]; [exact SqlSamples.faulty_twin| |exact He].
  exfalso. vm_compute in Hr. discriminate Hr.
Defined.

Lemma sq_Claim_order_witness :
  ∃ rows, StronglySorted claim_before rows ∧
    (sq_Claim (SqlSamples.claim "worker-b" 5 2000) (sq_reached SqlSamples.before)).2 =
      Ok ((fun row => rec_msg (claim_record (SqlSamples.claim "worker-b" 5 2000) (record_of row)))
            <$> take 5 rows).
Proof.
  destruct (sq_Claim_order (SqlSamples.claim "worker-b" 5 2000) (sq_reached SqlSamples.before))
    as (rows & Hs & _ & Heq).
  - apply sq_reached_inv. exact SqlSamples.before_ok.
  - done.
  - split_and!; [SqlSamples.in_range|SqlSamples.in_range|done].
  - exists rows. split; [exact Hs|exact Heq].
Defined.

Lemma sq_DeadLetters_pages_witness :
  dl_ID <$> concat ((fun i => sq_dead_page "invoices" 2 i (sq_reached SqlSamples.dead)) <$> seq 0 2) =
  ["y"; "d3"; "d1"].
Proof.
  destruct (sq_DeadLetters_pages "invoices" 2 2 (sq_reached SqlSamples.dead)) as [-> _].
  - apply sq_reached_inv. exact SqlSamples.dead_ok.
  - lia.
  - vm_compute. reflexivity.
Defined.

Lemma time_roundtrip_witness : parseTime (formatTime 1700000000123456789) = Ok 1700000000123456789%Z.
Proof. apply (time_roundtrip 1700000000123456789). SqlSamples.in_range. Defined.

Lemma time_text_order_witness : String.compare (formatTime 999999999) (formatTime 1000000000) = Lt.
Proof. rewrite (time_text_order 999999999 1000000000); [reflexivity|SqlSamples.in_range..]. Defined.

Lemma headers_roundtrip_witness :
  ∃ raw, encodeHeaders SqlSamples.headers = Ok raw ∧ decodeHeaders raw = Ok SqlSamples.headers.
Proof.
  destruct (headers_roundtrip SqlSamples.headers) as (raw & He & Hd & _).
  - exact SqlSamples.headers_ok.
  - exists raw. split; [exact He|exact Hd].
Defined.

Lemma sq_SaveQueue_Queues_witness :
  (sq_Queues (sq_SaveQueue SqlSamples.queue sq_New).1).2 =
  Ok [mkQueue (mkQueueSpec "invoices" true 3 1000000 "") 1].
Proof.
  destruct (sq_SaveQueue_Queues SqlSamples.queue sq_New) as (_ & _ & -> & ->).
  - split; [reflexivity|reflexivity].
  - split; constructor.
  - SqlSamples.in_range.
  - SqlSamples.in_range.
  - vm_compute. reflexivity.
Defined.
