(* ===== verification/SqliteMigrate.v ===== *)
(** Opening the SQLite store: [internal/storage/sqlite/sqlite.go] (Options, Open,
    dataSourceName) and [internal/storage/sqlite/migrate.go].

    The contents of the connection are here the database's catalog: its tables
    with their columns, its indexes, and the rows of [schema_migrations].  A
    migration is one transaction; what faults leave behind is always the work
    of the first [k] migrations ([migrated]), and the next run goes on from
    there. *)

From S2P Require Import Prelude Errors TimeText SqlConn SqlConnProofs Sqlite.

Local Open Scope Z_scope.

(** * Options *)

Record Options := mkOptions {
  opt_DSN : string;
  opt_BusyTimeout : Duration;
  opt_JournalMode : string;
  opt_Synchronous : string;
  opt_MaxOpenConns : Z;
}.

Definition Options_withDefaults (o : Options) : Options :=
  mkOptions (if str_empty (opt_DSN o) then ":memory:" else opt_DSN o)
    (if opt_BusyTimeout o =? 0 then 5 * second else opt_BusyTimeout o)
    (if str_empty (opt_JournalMode o) then "WAL" else opt_JournalMode o)
    (if str_empty (opt_Synchronous o) then "NORMAL" else opt_Synchronous o)
    (if opt_MaxOpenConns o =? 0 then 1 else opt_MaxOpenConns o).

(** The [%d] verb. *)
Definition fmt_int (n : Z) : string := appendInt n 1.

Definition dataSourceName (o : Options) : string :=
  let params := [
    "_pragma=busy_timeout(" +:+ fmt_int (Milliseconds (opt_BusyTimeout o)) +:+ ")";
    "_pragma=journal_mode(" +:+ opt_JournalMode o +:+ ")";
    "_pragma=synchronous(" +:+ opt_Synchronous o +:+ ")";
    "_pragma=foreign_keys(1)"] in
  let separator := if str_contains (opt_DSN o) "?" then "&" else "?" in
  opt_DSN o +:+ separator +:+ str_join "&" params.

(** * The catalog *)

(** A column with its declaration; the last entry of a table may be a table
    constraint, under the empty name. *)
Abbreviation column := (string * string)%type.

Inductive ddl :=
| CREATE_TABLE (name : string) (columns : list column)
| CREATE_INDEX (name table : string) (columns : list string).

Record migration_row := mkMigrationRow {
  sm_version : Z;
  sm_name : string;
  sm_applied_at : string;
}.

Record Catalog := mkCatalog {
  cat_tables : gmap string (list column);
  cat_indexes : gmap string (string * list string);
  cat_migrations : list migration_row;
}.

Definition no_catalog : Catalog := mkCatalog ∅ ∅ [].

(** [CREATE ... IF NOT EXISTS]; an index needs its table. *)
Definition exec_ddl (d : ddl) (c : Catalog) : Catalog * result error Z :=
  match d with
  | CREATE_TABLE name columns =>
      match cat_tables c !! name with
      | Some _ => (c, Ok 0)
      | None => (mkCatalog (<[name := columns]> (cat_tables c)) (cat_indexes c) (cat_migrations c), Ok 0)
      end
  | CREATE_INDEX name table columns =>
      match cat_indexes c !! name with
      | Some _ => (c, Ok 0)
      | None =>
          match cat_tables c !! table with
          | None => (c, Err (DriverError 1 ("no such table: main." +:+ table)))
          | Some _ => (mkCatalog (cat_tables c) (<[name := (table, columns)]> (cat_indexes c))
                         (cat_migrations c), Ok 0)
          end
      end
  end.

(** [INSERT INTO schema_migrations (version, name, applied_at) VALUES (?, ?, ?)] *)
Definition insert_migration (row : migration_row) (c : Catalog) : Catalog * result error Z :=
  if decide (sm_version row ∈ (sm_version <$> cat_migrations c))
  then (c, Err (unique_violation codeConstraintPrimary "schema_migrations.version"))
  else (mkCatalog (cat_tables c) (cat_indexes c) (cat_migrations c ++ [row]), Ok 1).

(** * Migrations *)

Record migration := mkMigration {
  mig_version : Z;
  mig_name : string;
  mig_statements : list ddl;
}.

Definition mig_topology : migration := mkMigration 1 "topology" [
  CREATE_TABLE "exchanges" [
    ("name", "TEXT PRIMARY KEY"); ("kind", "TEXT NOT NULL");
    ("durable", "INTEGER NOT NULL DEFAULT 0"); ("created_at", "TEXT NOT NULL")];
  CREATE_TABLE "queues" [
    ("name", "TEXT PRIMARY KEY"); ("durable", "INTEGER NOT NULL DEFAULT 0");
    ("max_attempts", "INTEGER NOT NULL"); ("visibility_timeout_ms", "INTEGER NOT NULL");
    ("schema_name", "TEXT NOT NULL DEFAULT ''"); ("created_at", "TEXT NOT NULL")];
  CREATE_TABLE "bindings" [
    ("exchange", "TEXT NOT NULL"); ("queue", "TEXT NOT NULL"); ("routing_key", "TEXT NOT NULL");
    ("created_at", "TEXT NOT NULL"); ("", "PRIMARY KEY (exchange, queue, routing_key)")]].

Definition mig_messages : migration := mkMigration 2 "messages" [
  CREATE_TABLE "messages" [
    ("seq", "INTEGER PRIMARY KEY AUTOINCREMENT"); ("id", "TEXT NOT NULL UNIQUE");
    ("queue", "TEXT NOT NULL"); ("exchange", "TEXT NOT NULL DEFAULT ''");
    ("routing_key", "TEXT NOT NULL DEFAULT ''"); ("schema_name", "TEXT NOT NULL DEFAULT ''");
    ("payload", "BLOB NOT NULL"); ("headers", "TEXT NOT NULL DEFAULT '{}'");
    ("state", "TEXT NOT NULL"); ("attempts", "INTEGER NOT NULL DEFAULT 0");
    ("max_attempts", "INTEGER NOT NULL DEFAULT 0"); ("last_error", "TEXT NOT NULL DEFAULT ''");
    ("created_at", "TEXT NOT NULL"); ("updated_at", "TEXT NOT NULL");
    ("available_at", "TEXT NOT NULL"); ("lease_expires_at", "TEXT");
    ("consumer", "TEXT NOT NULL DEFAULT ''")];
  CREATE_INDEX "idx_messages_ready" "messages" ["queue"; "state"; "available_at"; "seq"];
  CREATE_INDEX "idx_messages_lease" "messages" ["state"; "lease_expires_at"]].

Definition mig_dead_letters : migration := mkMigration 3 "dead_letters" [
  CREATE_TABLE "dead_letters" [
    ("id", "TEXT PRIMARY KEY"); ("message_id", "TEXT NOT NULL"); ("queue", "TEXT NOT NULL");
    ("exchange", "TEXT NOT NULL DEFAULT ''"); ("routing_key", "TEXT NOT NULL DEFAULT ''");
    ("schema_name", "TEXT NOT NULL DEFAULT ''"); ("payload", "BLOB NOT NULL");
    ("headers", "TEXT NOT NULL DEFAULT '{}'"); ("reason", "TEXT NOT NULL");
    ("error_kind", "TEXT NOT NULL DEFAULT ''"); ("attempts", "INTEGER NOT NULL DEFAULT 0");
    ("published_at", "TEXT NOT NULL"); ("first_failed_at", "TEXT NOT NULL");
    ("dead_lettered_at", "TEXT NOT NULL"); ("replayed_as", "TEXT NOT NULL DEFAULT ''");
    ("replayed_at", "TEXT NOT NULL DEFAULT ''"); ("replay_count", "INTEGER NOT NULL DEFAULT 0")];
  CREATE_INDEX "idx_dead_letters_queue" "dead_letters" ["queue"; "dead_lettered_at"]].

Definition mig_message_history : migration := mkMigration 4 "message_history" [
  CREATE_TABLE "message_history" [
    ("id", "INTEGER PRIMARY KEY AUTOINCREMENT"); ("message_id", "TEXT NOT NULL");
    ("queue", "TEXT NOT NULL DEFAULT ''"); ("from_state", "TEXT NOT NULL");
    ("to_state", "TEXT NOT NULL"); ("consumer", "TEXT NOT NULL DEFAULT ''");
    ("detail", "TEXT NOT NULL DEFAULT ''"); ("at", "TEXT NOT NULL")];
  CREATE_INDEX "idx_message_history_message" "message_history" ["message_id"; "id"]].

Definition migrations : list migration :=
  [mig_topology; mig_messages; mig_dead_letters; mig_message_history].

Definition schema_migrations : ddl := CREATE_TABLE "schema_migrations" [
  ("version", "INTEGER PRIMARY KEY"); ("name", "TEXT NOT NULL"); ("applied_at", "TEXT NOT NULL")].

(** [SELECT version FROM schema_migrations] *)
Definition appliedMigrations : prog (Conn Catalog) (gset Z) :=
  rows ← wrapping "sqlite: read migrations: " (query (fun c => sm_version <$> cat_migrations c));
  _ ← rows_Err; mret (list_to_set rows).

(** [now] is what [time.Now] returns. *)
Definition applyMigration (now : Time) (step : migration) : prog (Conn Catalog) unit :=
  let version := fmt_int (mig_version step) in
  transaction ("sqlite: begin migration " +:+ version +:+ ": ") (fun e => e) (
    _ ← for_each (fun d =>
          _ ← wrapping ("sqlite: migration " +:+ version +:+ " (" +:+ mig_name step +:+ "): ")
                (exec (exec_ddl d));
          mret tt) (mig_statements step);
    _ ← wrapping ("sqlite: record migration " +:+ version +:+ ": ")
          (exec (insert_migration (mkMigrationRow (mig_version step) (mig_name step) (formatTime now))));
    mret tt).

(** [clock v] is the time at which migration [v] is recorded. *)
Definition migrate (clock : Z → Time) : prog (Conn Catalog) unit :=
  _ ← wrapping "sqlite: create migration table: " (exec (exec_ddl schema_migrations));
  applied ← appliedMigrations;
  for_each (fun step =>
    if decide (mig_version step ∈ applied) then mret tt
    else applyMigration (clock (mig_version step)) step) migrations.

(** [Open], after [sql.Open], which connects lazily: a failed ping or migration
    closes the connection. *)
Definition Open (clock : Z → Time) : prog (Conn Catalog) unit := fun db =>
  match (_ ← wrapping "sqlite: ping: " (statement (fun c => (c, Ok tt))); migrate clock) db with
  | (db', Err e) => (mkDb true (db_tables db') (db_clock db') (db_faults db'), Err e)
  | ok => ok
  end.

(** * What the migrations leave behind *)

Fixpoint run_ddls (ds : list ddl) (c : Catalog) : option Catalog :=
  match ds with
  | [] => Some c
  | d :: ds' => match exec_ddl d c with (c', Ok _) => run_ddls ds' c' | (_, Err _) => None end
  end.

(** The tables and indexes after the first [k] migrations. *)
Definition objects (k : nat) : Catalog :=
  default no_catalog
    (run_ddls (schema_migrations :: concat (mig_statements <$> take k migrations)) no_catalog).

(** The catalog holds the work of exactly the first [k] migrations. *)
Definition migrated (k : nat) (c : Catalog) : Prop :=
  (k ≤ 4)%nat ∧ cat_tables c = cat_tables (objects k) ∧ cat_indexes c = cat_indexes (objects k) ∧
  ((fun row => (sm_version row, sm_name row)) <$> cat_migrations c) =
    ((fun m => (mig_version m, mig_name m)) <$> take k migrations).

(** The stages a database goes through: new, then with 0 to 4 migrations. *)
Definition stage (c : Catalog) (n : nat) : Prop :=
  match n with O => c = no_catalog | S k => migrated k c end.

Lemma migrated_versions k c :
  migrated k c → sm_version <$> cat_migrations c = mig_version <$> take k migrations.
Proof.
  intros (_ & _ & _ & Hrows). apply (f_equal (fmap fst)) in Hrows.
  by rewrite <-!list_fmap_compose in Hrows.
Qed.

Lemma evals_ddls prefix ds c c' :
  run_ddls ds c = Some c' →
  evals (for_each (fun d => _ ← wrapping prefix (exec (exec_ddl d)); mret tt) ds) c (c', Ok tt).
Proof.
  revert c. induction ds as [|d ds IH]; intros c Hrun; cbn [run_ddls] in Hrun.
  - injection Hrun as <-. apply evals_ret.
  - destruct (exec_ddl d c) as [c1 [n|e]] eqn:Hd; [|done]. rewrite for_each_cons.
    pose proof (evals_statement (exec_ddl d) c) as Hs. rewrite Hd in Hs.
    eapply evals_bind; [|by apply IH]. eapply evals_bind; [|apply evals_ret]. by eapply evals_wrapping.
Qed.

(** The statements of each migration, on the catalog it finds. *)
Lemma next_objects k step rows :
  migrations !! k = Some step →
  run_ddls (mig_statements step) (mkCatalog (cat_tables (objects k)) (cat_indexes (objects k)) rows) =
  Some (mkCatalog (cat_tables (objects (S k))) (cat_indexes (objects (S k))) rows).
Proof. do 4 (destruct k as [|k]; [intros [= <-]; vm_compute; reflexivity|]). done. Qed.

Lemma evals_applyMigration now k step c :
  migrations !! k = Some step → migrated k c →
  ∃ c', evals (applyMigration now step) c (c', Ok tt) ∧ migrated (S k) c'.
Proof.
  intros Hstep Hc. pose proof (migrated_versions k c Hc) as Hv. destruct Hc as (Hk & Ht & Hi & Hrows).
  set (row := mkMigrationRow (mig_version step) (mig_name step) (formatTime now)).
  set (c1 := mkCatalog (cat_tables (objects (S k))) (cat_indexes (objects (S k))) (cat_migrations c)).
  assert (c = mkCatalog (cat_tables (objects k)) (cat_indexes (objects k)) (cat_migrations c)) as Hc
    by (destruct c; simpl in *; by subst).
  assert (mig_version step ∉ (mig_version <$> take k migrations)) as Hni.
  { clear -Hstep. do 4 (destruct k as [|k]; [injection Hstep as <-; vm_compute; set_solver|]). done. }
  assert (take (S k) migrations = take k migrations ++ [step]) as Htake by (by apply take_S_r).
  exists (mkCatalog (cat_tables c1) (cat_indexes c1) (cat_migrations c ++ [row])). split.
  - apply (evals_transaction _ _ _ c _ (Ok tt)).
    eapply evals_bind; [rewrite Hc at 1; by apply evals_ddls, next_objects|].
    pose proof (evals_statement (insert_migration row) c1) as Hs. unfold insert_migration in Hs.
    rewrite decide_False in Hs by (simpl; by rewrite Hv).
    eapply evals_bind; [eapply evals_wrapping; exact Hs|apply evals_ret].
  - split_and!; [|done|done|].
    + apply lookup_lt_Some in Hstep. simpl in Hstep. lia.
    + cbn [cat_migrations]. by rewrite Htake, !fmap_app, Hrows.
Qed.

Lemma tracks_applyMigration now step : atomic (applyMigration now step).
Proof.
  apply atomic_transaction, tracks_bind.
  - induction (mig_statements step) as [|d ds IH]; simpl; auto 8 with faults.
  - intros _. auto 8 with faults.
Qed.

(** A program that is all or nothing, on a connection that may report faults. *)
Lemma atomic_evals {T A} (p : prog (Conn T) A) t t' a db :
  atomic p → evals p t (t', Ok a) → db_closed db = false → db_tables db = t →
  ∃ db' r, p db = (db', r) ∧
    ((r = Ok a ∧ db_closed db' = false ∧ db_tables db' = t') ∨
     (∃ e, r = Err e ∧ (db_tables db' = t ∨ db_tables db' = t'))).
Proof.
  intros Hat Hev Hc Ht. set (db0 := mkDb false t 0 (fun _ => None)).
  assert (healthy db0) as Hh by done.
  destruct (evals_run _ _ _ _ db0 Hev Hh eq_refl) as (db0' & H0 & [Hc0 _] & Ht0).
  destruct (Hat db db0) as [[(_ & Hc' & Ht') Hr]|[[e He] Htb]]; [by split_and!|..];
    destruct (p db) as [db' r]; rewrite H0 in *; simpl in *; subst; eexists _, _; (split; [done|]).
  - left. by rewrite Hc', Ht'.
  - right. eauto.
Qed.

Lemma for_each_skip {S A} (f : A → prog S unit) l1 l2 s :
  (∀ x, x ∈ l1 → f x = mret tt) → for_each f (l1 ++ l2) s = for_each f l2 s.
Proof.
  induction l1 as [|x l1 IH]; intros Hf; [done|]. cbn [app]. rewrite for_each_cons, (Hf x) by set_solver.
  rewrite bind_eq. apply IH. set_solver.
Qed.

Lemma version_fresh k step :
  migrations !! k = Some step → mig_version step ∉ (mig_version <$> take k migrations).
Proof.
  intros Hstep. do 4 (destruct k as [|k]; [injection Hstep as <-; vm_compute; set_solver|]). done.
Qed.

(** The loop of [migrate], from the first migration that is missing. *)
Definition migrate_step (clock : Z → Time) (applied : gset Z) (step : migration) :
    prog (Conn Catalog) unit :=
  if decide (mig_version step ∈ applied) then mret tt
  else applyMigration (clock (mig_version step)) step.

Lemma migrate_step_fresh clock applied step :
  mig_version step ∉ applied →
  migrate_step clock applied step = applyMigration (clock (mig_version step)) step.
Proof. intros Hni. unfold migrate_step. by rewrite decide_False. Qed.

Lemma migrate_loop_faulty clock applied k db :
  migrated k (db_tables db) → db_closed db = false →
  (∀ j step, k ≤ j → migrations !! j = Some step → mig_version step ∉ applied)%nat →
  ∃ k' db' r, for_each (migrate_step clock applied) (drop k migrations) db = (db', r) ∧
    (k ≤ k')%nat ∧ migrated k' (db_tables db') ∧ (r = Ok tt → k' = 4%nat).
Proof.
  remember (4 - k)%nat as n eqn:Hn. revert k db Hn. induction n as [|n IH]; intros k db Hn Hm Hc Hfresh.
  - assert (k = 4%nat) as -> by (destruct Hm; lia). exists 4%nat, db, (Ok tt). done.
  - destruct (lookup_lt_is_Some_2 migrations k) as [step Hstep]; [simpl; lia|].
    rewrite (drop_S _ _ _ Hstep), for_each_cons, (migrate_step_fresh clock applied step)
      by (by eapply Hfresh; [|exact Hstep]).
    destruct (evals_applyMigration (clock (mig_version step)) k step _ Hstep Hm) as (c' & Hev & Hm').
    destruct (atomic_evals _ _ _ _ db (tracks_applyMigration _ _) Hev Hc eq_refl)
      as (db1 & r & Heq & [(-> & Hc1 & Ht1)|(e & -> & Ht1)]); rewrite bind_eq, Heq.
    + destruct (IH (S k) db1) as (k' & db' & r & ? & ? & ? & ?); [lia|by rewrite Ht1|done| |].
      * intros j s' Hj. apply Hfresh. lia.
      * exists k', db', r. split_and!; [done|lia|done|done].
    + destruct Ht1 as [Ht1|Ht1].
      * exists k, db1, (Err e). split_and!; [done|lia|by rewrite Ht1|done].
      * exists (S k), db1, (Err e). split_and!; [done|lia|by rewrite Ht1|done].
Qed.

Lemma migrate_loop_quiet clock applied k c :
  migrated k c →
  (∀ j step, k ≤ j → migrations !! j = Some step → mig_version step ∉ applied)%nat →
  ∃ c', evals (for_each (migrate_step clock applied) (drop k migrations)) c (c', Ok tt) ∧ migrated 4 c'.
Proof.
  remember (4 - k)%nat as n eqn:Hn. revert k c Hn. induction n as [|n IH]; intros k c Hn Hm Hfresh.
  - assert (k = 4%nat) as -> by (destruct Hm; lia). exists c. split; [apply evals_ret|done].
  - destruct (lookup_lt_is_Some_2 migrations k) as [step Hstep]; [simpl; lia|].
    rewrite (drop_S _ _ _ Hstep), for_each_cons, (migrate_step_fresh clock applied step)
      by (by eapply Hfresh; [|exact Hstep]).
    destruct (evals_applyMigration (clock (mig_version step)) k step _ Hstep Hm) as (c1 & Hev & Hm1).
    destruct (IH (S k) c1) as (c' & Hev' & Hm'); [lia|done| |].
    + intros j s' Hj. apply Hfresh. lia.
    + exists c'. split; [|done]. by eapply evals_bind.
Qed.

(** The versions read from a catalog of stage [k]. *)
Lemma applied_versions k c :
  migrated k c →
  (∀ step, step ∈ take k migrations →
     mig_version step ∈ (list_to_set (sm_version <$> cat_migrations c) : gset Z)) ∧
  (∀ j step, k ≤ j → migrations !! j = Some step →
     mig_version step ∉ (list_to_set (sm_version <$> cat_migrations c) : gset Z))%nat.
Proof.
  intros Hm. rewrite (migrated_versions k c Hm). split.
  - intros step Hin. apply elem_of_list_to_set, list_elem_of_fmap_2, Hin.
  - intros j step Hj Hstep. rewrite elem_of_list_to_set. intros Hin. apply (version_fresh j step Hstep).
    eapply elem_of_sublist; [exact Hin|]. apply fmap_sublist.
    rewrite <-(take_drop k (take j migrations)), take_take, Nat.min_l by done. apply sublist_inserts_r. done.
Qed.

Lemma migrate_eq clock :
  migrate clock =
  (_ ← wrapping "sqlite: create migration table: " (exec (exec_ddl schema_migrations));
   applied ← appliedMigrations; for_each (migrate_step clock applied) migrations).
Proof. done. Qed.

(** The first statement of [migrate]. *)
Lemma create_migrations n c :
  stage c n → ∃ k, exec_ddl schema_migrations c = ((exec_ddl schema_migrations c).1, Ok 0) ∧
    migrated k (exec_ddl schema_migrations c).1 ∧ (n ≤ S k)%nat ∧ (k = n - 1)%nat.
Proof.
  destruct n as [|k]; cbn [stage].
  - intros ->. exists 0%nat. split_and!; [done| |lia|lia].
    split_and!; [lia|vm_compute; reflexivity..].
  - intros Hm. exists k. assert (exec_ddl schema_migrations c = (c, Ok 0)) as ->; [|split_and!; [done|done|lia|lia]].
    destruct Hm as (Hk & Ht & _). unfold exec_ddl, schema_migrations. rewrite Ht.
    do 5 (destruct k as [|k]; [done|]). lia.
Qed.

(** The programs of [migrate] before its loop. *)
Lemma evals_create c n :
  stage c n →
  evals (wrapping "sqlite: create migration table: " (exec (exec_ddl schema_migrations))) c
    ((exec_ddl schema_migrations c).1, Ok 0).
Proof.
  intros Hst. destruct (create_migrations n c Hst) as (k & Hcr & _).
  pose proof (evals_statement (exec_ddl schema_migrations) c) as Hs. rewrite Hcr in Hs.
  by apply evals_wrapping.
Qed.

Lemma evals_applied c :
  evals appliedMigrations c (c, Ok (list_to_set (sm_version <$> cat_migrations c))).
Proof.
  eapply evals_bind; [apply evals_query|]. eapply evals_bind; [apply evals_rows_Err|]. apply evals_ret.
Qed.

Lemma atomic_applied : atomic appliedMigrations.
Proof.
  apply pure_atomic; unfold appliedMigrations; auto 8 with faults.
Qed.

Lemma migrate_skips clock k c (d : Conn Catalog) :
  migrated k c →
  let applied := list_to_set (sm_version <$> cat_migrations c) in
  for_each (migrate_step clock applied) migrations d =
  for_each (migrate_step clock applied) (drop k migrations) d.
Proof.
  intros Hm applied. rewrite <-(take_drop k migrations) at 1. apply for_each_skip. intros step Hin.
  unfold migrate_step. rewrite decide_True; [done|]. by apply (proj1 (applied_versions k c Hm)).
Qed.

Lemma migrate_faulty clock db n :
  db_closed db = false → stage (db_tables db) n →
  ∃ n' db' r, migrate clock db = (db', r) ∧ (n ≤ n')%nat ∧ stage (db_tables db') n' ∧ (r = Ok tt → n' = 5%nat).
Proof.
  intros Hc Hst. destruct (create_migrations n _ Hst) as (k & _ & Hm & Hn & Hk). rewrite migrate_eq, bind_eq.
  destruct (atomic_evals _ _ _ _ db (atomic_wrapping _ _ (atomic_exec _)) (evals_create _ n Hst) Hc eq_refl)
    as (db1 & r1 & -> & [(-> & Hc1 & Ht1)|(e & -> & [Ht1|Ht1])]).
  2:{ exists n, db1, (Err e). rewrite Ht1. by split_and!. }
  2:{ exists (S k), db1, (Err e). rewrite Ht1. by split_and!. }
  rewrite <-Ht1 in Hm. rewrite bind_eq.
  destruct (atomic_evals _ _ _ _ db1 atomic_applied (evals_applied _) Hc1 eq_refl)
    as (db2 & r2 & -> & [(-> & Hc2 & Ht2)|(e & -> & [Ht2|Ht2])]).
  2,3: exists (S k), db2, (Err e); rewrite Ht2; by split_and!.
  rewrite (migrate_skips clock k) by done. rewrite <-Ht2 in Hm |- *.
  destruct (migrate_loop_faulty clock _ k db2 Hm Hc2 (proj2 (applied_versions k _ Hm)))
    as (k' & db' & r & Heq & Hle & Hm' & Hok).
  exists (S k'), db', r. split_and!; [done|lia|done|]. intros Hr. by rewrite Hok.
Qed.

Lemma evals_migrate clock c n :
  stage c n → ∃ c', evals (migrate clock) c (c', Ok tt) ∧ migrated 4 c'.
Proof.
  intros Hst. destruct (create_migrations n _ Hst) as (k & _ & Hm & _).
  destruct (migrate_loop_quiet clock _ k _ Hm (proj2 (applied_versions k _ Hm))) as (c' & Hev & Hm').
  exists c'. split; [|done]. rewrite migrate_eq.
  eapply evals_bind; [by eapply evals_create|]. eapply evals_bind; [apply evals_applied|].
  intros db Hdb Ht. rewrite (migrate_skips clock k) by done. by apply Hev.
Qed.

(** * Properties *)

(** C18: Opening a database is safe to interrupt and to repeat.  Whatever faults
    the connection reports, [migrate] leaves the database at the work of a whole
    number of migrations, never fewer than it found; when it succeeds all four
    have been applied, each recorded once; and on a connection that reports no
    fault it succeeds from every such stage, a new database and a finished one
    included. *)
Theorem migrate_resumable clock db n :
  db_closed db = false → stage (db_tables db) n →
  let out := migrate clock db in
  (∃ n', (n ≤ n')%nat ∧ stage (db_tables out.1) n') ∧
  (out.2 = Ok tt → migrated 4 (db_tables out.1)) ∧
  (quiet db → out.2 = Ok tt).
Proof.
  intros Hc Hst out. subst out.
  destruct (migrate_faulty clock db n Hc Hst) as (n' & db' & r & Heq & Hle & Hst' & Hok).
  split_and!.
  - rewrite Heq. eauto.
  - rewrite Heq. simpl. intros Hr. by rewrite (Hok Hr) in Hst'.
  - intros Hq. destruct (evals_migrate clock _ n Hst) as (c' & Hev & _).
    by destruct (evals_run _ _ _ _ db Hev (conj Hc Hq) eq_refl) as (db2 & -> & _).
Qed.

(** The columns the statements of the store name, table by table: the constants
    [messageColumns] and [deadLetterColumns], and the columns of the other
    INSERTs, SELECTs, UPDATEs and ORDER BYs. *)
Definition messageColumns : list string :=
  ["id"; "queue"; "exchange"; "routing_key"; "schema_name"; "payload"; "headers";
   "state"; "attempts"; "max_attempts"; "last_error"; "created_at"; "updated_at"; "available_at"].

Definition deadLetterColumns : list string :=
  ["id"; "message_id"; "queue"; "exchange"; "routing_key"; "schema_name"; "payload"; "headers";
   "reason"; "error_kind"; "attempts"; "published_at"; "first_failed_at"; "dead_lettered_at";
   "replayed_as"; "replayed_at"; "replay_count"].

Definition inserted_columns : list (string * list string) :=
  [("exchanges", ["name"; "kind"; "durable"; "created_at"]);
   ("queues", ["name"; "durable"; "max_attempts"; "visibility_timeout_ms"; "schema_name"; "created_at"]);
   ("bindings", ["exchange"; "queue"; "routing_key"; "created_at"]);
   ("messages", messageColumns);
   ("dead_letters", deadLetterColumns);
   ("message_history", ["message_id"; "queue"; "from_state"; "to_state"; "consumer"; "detail"; "at"]);
   ("schema_migrations", ["version"; "name"; "applied_at"])].

Definition other_columns : list (string * list string) :=
  [("messages", ["seq"; "lease_expires_at"; "consumer"]); ("message_history", ["id"])].

(** A column an INSERT may leave out: nullable, with a default, or the
    AUTOINCREMENT key. *)
Definition may_omit (declaration : string) : bool :=
  negb (str_contains declaration "NOT NULL") && negb (str_contains declaration "PRIMARY KEY")
  || str_contains declaration "DEFAULT" || str_contains declaration "AUTOINCREMENT".

Definition columns_of (c : Catalog) (table : string) : list column :=
  default [] (cat_tables c !! table).

Definition table_accepts (c : Catalog) (used : string * list string) : bool :=
  bool_decide (Forall (fun name => name ∈ (columns_of c used.1).*1) used.2).

Definition insert_complete (c : Catalog) (used : string * list string) : bool :=
  forallb (fun col : column =>
    bool_decide (col.1 = "") || bool_decide (col.1 ∈ used.2) || may_omit col.2) (columns_of c used.1).


(** * Witnesses *)

Definition interrupted : Conn Catalog :=
  mkDb false no_catalog 0 (fun n => if decide (n = 12%nat) then Some (errorString "disk full", true) else None).

Lemma migrate_resumable_witness :
  ∃ n', stage (db_tables (migrate (fun _ => 0) interrupted).1) n' ∧
        (migrate (fun _ => 0) interrupted).2 ≠ Ok tt.
Proof.
  destruct (migrate_resumable (fun _ => 0) interrupted 0) as ((n' & _ & Hst) & _).
  - reflexivity.
  - reflexivity.
  - exists n'. split; [exact Hst|]. vm_compute. discriminate.
Defined.

