(* ===== verification/Memory.v ===== *)
(** The in-memory store: [internal/storage/memory] (store.go, deadletter.go).

    One definition per method, on the struct's own fields: the messages by id,
    per queue the ids in arrival order ([order]) and the number of settled ids
    still in it ([settled]), which [compactLocked] reclaims.  A method holds
    the mutex from its first statement to its return, so each is one atomic
    [prog].  Assignments made before a failing statement stay, as in the
    source; pointers into the store are modelled by looking the id up again,
    and every value handed out is a copy. *)

From S2P Require Import Prelude Errors Message Broker Storage.

Record Store := mkStore {
  mem_closed : bool;
  mem_exchanges : gmap string Exchange;
  mem_queues : gmap string Queue;
  mem_bindings : gmap string Binding;
  mem_messages : gmap string record;
  mem_order : gmap string (list string);
  mem_settled : gmap string Z;
  mem_deadLetters : gmap string DeadLetter;
  mem_deadOrder : list string;
  mem_history : gmap string (list HistoryEvent);
}.

Definition compactionThreshold : Z := 64.

Definition mem_New : Store := mkStore false ∅ ∅ ∅ ∅ ∅ ∅ ∅ [] ∅.

(** ** Field assignments *)

Definition put_closed (b : bool) (s : Store) : Store :=
  mkStore b (mem_exchanges s) (mem_queues s) (mem_bindings s) (mem_messages s) (mem_order s)
    (mem_settled s) (mem_deadLetters s) (mem_deadOrder s) (mem_history s).
Definition put_exchanges (m : gmap string Exchange) (s : Store) : Store :=
  mkStore (mem_closed s) m (mem_queues s) (mem_bindings s) (mem_messages s) (mem_order s)
    (mem_settled s) (mem_deadLetters s) (mem_deadOrder s) (mem_history s).
Definition put_queues (m : gmap string Queue) (s : Store) : Store :=
  mkStore (mem_closed s) (mem_exchanges s) m (mem_bindings s) (mem_messages s) (mem_order s)
    (mem_settled s) (mem_deadLetters s) (mem_deadOrder s) (mem_history s).
Definition put_bindings (m : gmap string Binding) (s : Store) : Store :=
  mkStore (mem_closed s) (mem_exchanges s) (mem_queues s) m (mem_messages s) (mem_order s)
    (mem_settled s) (mem_deadLetters s) (mem_deadOrder s) (mem_history s).
Definition put_messages (m : gmap string record) (s : Store) : Store :=
  mkStore (mem_closed s) (mem_exchanges s) (mem_queues s) (mem_bindings s) m (mem_order s)
    (mem_settled s) (mem_deadLetters s) (mem_deadOrder s) (mem_history s).
Definition put_order (m : gmap string (list string)) (s : Store) : Store :=
  mkStore (mem_closed s) (mem_exchanges s) (mem_queues s) (mem_bindings s) (mem_messages s) m
    (mem_settled s) (mem_deadLetters s) (mem_deadOrder s) (mem_history s).
Definition put_settled (m : gmap string Z) (s : Store) : Store :=
  mkStore (mem_closed s) (mem_exchanges s) (mem_queues s) (mem_bindings s) (mem_messages s)
    (mem_order s) m (mem_deadLetters s) (mem_deadOrder s) (mem_history s).
Definition put_dead (m : gmap string DeadLetter) (l : list string) (s : Store) : Store :=
  mkStore (mem_closed s) (mem_exchanges s) (mem_queues s) (mem_bindings s) (mem_messages s)
    (mem_order s) (mem_settled s) m l (mem_history s).
Definition put_history (m : gmap string (list HistoryEvent)) (s : Store) : Store :=
  mkStore (mem_closed s) (mem_exchanges s) (mem_queues s) (mem_bindings s) (mem_messages s)
    (mem_order s) (mem_settled s) (mem_deadLetters s) (mem_deadOrder s) m.

(** [s.order[queue]] and [s.settled[queue]], as elements of the maps. *)
Definition order_of (s : Store) (queue : string) : list string := slice_at (mem_order s) queue.
Definition settled_of (s : Store) (queue : string) : Z := count_at (mem_settled s) queue.
Definition set_order (queue : string) (ids : list string) (s : Store) : Store :=
  put_order (<[queue := ids]> (mem_order s)) s.
Definition set_settled (queue : string) (n : Z) (s : Store) : Store :=
  put_settled (<[queue := n]> (mem_settled s)) s.
Definition set_entry (id : string) (r : record) (s : Store) : Store :=
  put_messages (<[id := r]> (mem_messages s)) s.

Definition if_open {A} (p : prog Store A) : prog Store A := fun s =>
  if mem_closed s then (s, Err (StorageErr ErrClosed)) else p s.

Definition mem_Close : prog Store unit := modifies (put_closed true).

(** * Topology *)

Definition mem_SaveExchange (e : Exchange) : prog Store unit :=
  if_open (modifies (fun s => put_exchanges (<[ex_Name e := e]> (mem_exchanges s)) s)).

Definition mem_Exchanges : prog Store (list Exchange) :=
  gets (fun s => sort_by ex_Name (snd <$> map_to_list (mem_exchanges s))).

Definition mem_SaveQueue (q : Queue) : prog Store unit :=
  if_open (modifies (fun s => put_queues (<[q_Name q := q]> (mem_queues s)) s)).

Definition mem_Queues : prog Store (list Queue) :=
  gets (fun s => sort_by q_Name (snd <$> map_to_list (mem_queues s))).

Definition mem_DeleteQueue (name : string) : prog Store unit := fun s =>
  match mem_queues s !! name with
  | None => (s, Err (StorageErr ErrNotFound))
  | Some _ =>
      let s := put_queues (delete name (mem_queues s)) s in
      let s := put_messages (foldl (fun m id => delete id m) (mem_messages s) (order_of s name)) s in
      let s := put_order (delete name (mem_order s)) s in
      let s := put_settled (delete name (mem_settled s)) s in
      (s, Ok tt)
  end.

(** memory/store.go: [bindingKey] *)
Definition bindingKey (spec : BindingSpec) : string :=
  bs_Exchange spec +:+ nul +:+ bs_Queue spec +:+ nul +:+ bs_RoutingKey spec.

Definition mem_SaveBinding (b : Binding) : prog Store unit :=
  if_open (modifies (fun s => put_bindings (<[bindingKey (b_Spec b) := b]> (mem_bindings s)) s)).

Definition mem_Bindings : prog Store (list Binding) :=
  gets (fun s => sort_by (fun b => bindingKey (b_Spec b)) (snd <$> map_to_list (mem_bindings s))).

Definition mem_DeleteBinding (spec : BindingSpec) : prog Store unit := fun s =>
  match mem_bindings s !! bindingKey spec with
  | None => (s, Err (StorageErr ErrNotFound))
  | Some _ => (put_bindings (delete (bindingKey spec) (mem_bindings s)) s, Ok tt)
  end.

(** * Messages *)

(** The loop that looks for an id already in use. *)
Fixpoint append_conflict (ms : list Message) (s : Store) : bool :=
  match ms with
  | [] => false
  | msg :: rest =>
      match mem_messages s !! msg_ID msg with
      | Some _ => true
      | None => append_conflict rest s
      end
  end.

(** The body of the loop that stores. *)
Definition append_one (s : Store) (msg : Message) : Store :=
  let s := set_entry (msg_ID msg) (mkRecord (Clone msg) zeroTime "") s in
  set_order (msg_Queue msg) (order_of s (msg_Queue msg) ++ [msg_ID msg]) s.

Definition mem_Append (ms : list Message) : prog Store unit := if_open (fun s =>
  if append_conflict ms s then (s, Err (StorageErr ErrConflict))
  else (foldl append_one s ms, Ok tt)).

Definition mem_Message (id : string) : prog Store Message := fun s =>
  match mem_messages s !! id with
  | None => (s, Err (StorageErr ErrNotFound))
  | Some entry => (s, Ok (Clone (rec_msg entry)))
  end.

Definition isSettledLocked (s : Store) (id : string) : bool :=
  match mem_messages s !! id with
  | None => true
  | Some entry => Terminal (rec_State entry)
  end.

(** [for head < len(index) && settled(index[head]) { head++ }] *)
Fixpoint leading (p : string → bool) (index : list string) : nat :=
  match index with
  | [] => 0
  | id :: rest => if p id then S (leading p rest) else 0
  end.

Definition compactLocked (queue : string) : prog Store unit := fun s =>
  let index := order_of s queue in
  let head := leading (isSettledLocked s) index in
  let '(index, s) :=
    if bool_decide (0 < head) then
      let index := drop head index in
      let s := set_order queue index s in
      (index, set_settled queue (Z.max (settled_of s queue - Z.of_nat head) 0) s)
    else (index, s) in
  let settled := settled_of s queue in
  if ((settled <? compactionThreshold) || (settled * 2 <? Z.of_nat (length index)))%Z then (s, Ok tt)
  else if (Z.of_nat (length index) - settled <? 0)%Z
  then (s, Err (RuntimePanic "runtime error: makeslice: cap out of range"))
  else
    let retained := filter (fun id => isSettledLocked s id = false) index in
    (set_settled queue 0 (set_order queue retained s), Ok tt).

(** [entry.msg.Transition(next, at)] on the entry with this id. *)
Definition entry_Transition (id : string) (next : State) (at_ : Time) : prog Store unit := fun s =>
  match mem_messages s !! id with
  | None => (s, Err (RuntimePanic "runtime error: invalid memory address or nil pointer dereference"))
  | Some entry =>
      match Transition next at_ (rec_msg entry) with
      | Err e => (s, Err e)
      | Ok msg => (set_entry id (mkRecord msg (rec_lease entry) (rec_consumer entry)) s, Ok tt)
      end
  end.

(** The assignments to the fields of an entry that follow the transitions. *)
Definition entry_update (id : string) (f : record → record) : prog Store unit :=
  modifies (fun s => put_messages (alter f id (mem_messages s)) s).

(** The loop of [Claim]. *)
Fixpoint claim_loop (req : ClaimRequest) (index : list string) (claimed : list Message) :
    prog Store (list Message) :=
  match index with
  | [] => mret claimed
  | id :: rest => fun s =>
      if (cr_Limit req <=? Z.of_nat (length claimed))%Z then (s, Ok claimed)
      else match mem_messages s !! id with
      | None => claim_loop req rest claimed s
      | Some entry =>
          if negb (claimable (rec_msg entry) (cr_Now req)) then claim_loop req rest claimed s
          else
            ((if decide (rec_State entry = StateRetrying)
              then entry_Transition id StateQueued (cr_Now req) else mret tt) ≫= fun _ =>
             entry_Transition id StateProcessing (cr_Now req) ≫= fun _ =>
             entry_update id (fun e =>
               mkRecord (set_Attempts (wrap64 (msg_Attempts (rec_msg e) + 1)) (rec_msg e))
                 (cr_Now req + cr_Lease req) (cr_Consumer req)) ≫= fun _ =>
             mem_Message id ≫= fun copy =>
             claim_loop req rest (claimed ++ [copy])) s
      end
  end.

Definition mem_Claim (req : ClaimRequest) : prog Store (list Message) := if_open (
  compactLocked (cr_Queue req) ≫= fun _ =>
  if (cr_Limit req <? 0)%Z then fails (RuntimePanic "runtime error: makeslice: cap out of range")
  else fun s => claim_loop req (order_of s (cr_Queue req)) [] s).

Definition leased (id : string) : prog Store record := fun s =>
  match mem_messages s !! id with
  | None => (s, Err (StorageErr ErrNotFound))
  | Some entry =>
      if decide (rec_State entry = StateProcessing) then (s, Ok entry)
      else (s, Err (StateError id StateProcessing (rec_State entry)))
  end.

(** [entry.lease = time.Time{}; entry.consumer = ""] *)
Definition clear_lease (e : record) : record := mkRecord (rec_msg e) zeroTime "".

Definition bump_settled (queue : string) : prog Store unit :=
  modifies (fun s => set_settled queue (settled_of s queue + 1) s).

Definition mem_Acknowledge (id : string) (at_ : Time) : prog Store unit :=
  leased id ≫= fun entry =>
  entry_Transition id StateAcknowledged at_ ≫= fun _ =>
  bump_settled (rec_Queue entry) ≫= fun _ =>
  entry_update id clear_lease.

Definition mem_ScheduleRetry (req : RetryRequest) : prog Store unit :=
  leased (rr_ID req) ≫= fun _ =>
  entry_Transition (rr_ID req) StateFailed (rr_Now req) ≫= fun _ =>
  entry_Transition (rr_ID req) StateRetrying (rr_Now req) ≫= fun _ =>
  entry_update (rr_ID req) (fun e => clear_lease
    (mkRecord (set_LastError (rr_Reason req) (set_AvailableAt (rr_AvailableAt req) (rec_msg e)))
       (rec_lease e) (rec_consumer e))).

Definition mem_Release (id : string) (at_ : Time) : prog Store unit :=
  leased id ≫= fun _ =>
  entry_Transition id StateQueued at_ ≫= fun _ =>
  entry_update id (fun e => clear_lease
    (mkRecord (set_AvailableAt at_ (rec_msg e)) (rec_lease e) (rec_consumer e))).

Definition mem_MarkDeadLettered (id reason : string) (at_ : Time) : prog Store unit := fun s =>
  match mem_messages s !! id with
  | None => (s, Err (StorageErr ErrNotFound))
  | Some entry =>
      ((if decide (rec_State entry = StateProcessing)
        then entry_Transition id StateFailed at_ else mret tt) ≫= fun _ =>
       entry_Transition id StateDeadLettered at_ ≫= fun _ =>
       bump_settled (rec_Queue entry) ≫= fun _ =>
       entry_update id (fun e => clear_lease
         (mkRecord (set_LastError reason (rec_msg e)) (rec_lease e) (rec_consumer e)))) s
  end.

(** The test that skips an entry in [ExpiredLeases]. *)
Definition lease_live (now : Time) (entry : record) : bool :=
  negb (bool_decide (rec_State entry = StateProcessing)) || IsZero (rec_lease entry)
  || After (rec_lease entry) now.

(** The loop body of [ExpiredLeases]. *)
Definition expired_msg (now : Time) (kv : string * record) : option Message :=
  if lease_live now kv.2 then None else Some (Clone (rec_msg kv.2)).

Definition mem_ExpiredLeases (now : Time) (limit : Z) : prog Store (list Message) := gets (fun s =>
  let expired := omap (expired_msg now) (map_to_list (mem_messages s)) in
  let expired := sort_by msg_ID expired in
  if ((0 <? limit) && (limit <? Z.of_nat (length expired)))%Z
  then take (Z.to_nat limit) expired else expired).

(** The [switch] of [Depth]. *)
Definition depth_add (s : Store) (depth : Depth) (id : string) : Depth :=
  match mem_messages s !! id with
  | None => depth
  | Some entry =>
      let '(mkDepth ready inFlight scheduled total) := depth in
      if decide (rec_State entry = StateQueued) then mkDepth (ready + 1) inFlight scheduled total
      else if decide (rec_State entry = StateProcessing)
      then mkDepth ready (inFlight + 1) scheduled total
      else if decide (rec_State entry = StateRetrying ∨ rec_State entry = StateFailed)
      then mkDepth ready inFlight (scheduled + 1) total
      else depth
  end.

Definition mem_Depth (queue : string) : prog Store Depth := fun s =>
  match mem_queues s !! queue with
  | None => (s, Err (StorageErr ErrNotFound))
  | Some _ =>
      let depth := foldl (depth_add s) (mkDepth 0 0 0 0) (order_of s queue) in
      (s, Ok (mkDepth (d_Ready depth) (d_InFlight depth) (d_Scheduled depth)
                (d_Ready depth + d_InFlight depth + d_Scheduled depth)))
  end.

(** The loop of [Purge]: the messages left, [remaining] and [purged]. *)
Fixpoint purge_loop (index : list string) (m : gmap string record) (remaining : list string)
    (purged : Z) : gmap string record * list string * Z :=
  match index with
  | [] => (m, remaining, purged)
  | id :: rest =>
      match m !! id with
      | None => purge_loop rest m remaining purged
      | Some entry =>
          if Terminal (rec_State entry) then purge_loop rest m (remaining ++ [id]) purged
          else purge_loop rest (delete id m) remaining (purged + 1)
      end
  end.

Definition mem_Purge (queue : string) : prog Store Z := fun s =>
  match mem_queues s !! queue with
  | None => (s, Err (StorageErr ErrNotFound))
  | Some _ =>
      let '(m, remaining, purged) := purge_loop (order_of s queue) (mem_messages s) [] 0 in
      let s := put_messages m s in
      (set_settled queue (Z.of_nat (length remaining)) (set_order queue remaining s), Ok purged)
  end.

(** * Dead letters *)

(** The caller's entry is filled in through the pointer; [fresh] is the value
    [message.NewID] returns. *)
Definition mem_SaveDeadLetter (fresh : string) (entry : DeadLetter) : prog Store DeadLetter :=
  if_open (fun s =>
    let entry := if str_empty (dl_ID entry) then set_dl_ID fresh entry else entry in
    match mem_deadLetters s !! dl_ID entry with
    | Some _ => (s, Err (StorageErr ErrConflict))
    | None =>
        (put_dead (<[dl_ID entry := entry]> (mem_deadLetters s))
           (mem_deadOrder s ++ [dl_ID entry]) s, Ok entry)
    end).

(** The loop of [DeadLetters], over [deadOrder] from its end. *)
Fixpoint dead_loop (filter : DeadLetterFilter) (s : Store) (ids : list string) (skipped : Z)
    (matched : list DeadLetter) : list DeadLetter :=
  match ids with
  | [] => matched
  | id :: rest =>
      match mem_deadLetters s !! id with
      | None => dead_loop filter s rest skipped matched
      | Some entry =>
          if negb (str_empty (df_Queue filter)) && negb (bool_decide (dl_Queue entry = df_Queue filter))
          then dead_loop filter s rest skipped matched
          else if (skipped <? df_Offset filter)%Z
          then dead_loop filter s rest (skipped + 1) matched
          else if (df_Limit filter <=? Z.of_nat (length matched))%Z then matched
          else dead_loop filter s rest skipped (matched ++ [entry])
      end
  end.

Definition mem_DeadLetters (filter : DeadLetterFilter) : prog Store (list DeadLetter) :=
  gets (fun s => dead_loop (Normalise filter) s (reverse (mem_deadOrder s)) 0 []).

Definition mem_DeadLetter (id : string) : prog Store DeadLetter := fun s =>
  match mem_deadLetters s !! id with
  | None => (s, Err (StorageErr ErrNotFound))
  | Some entry => (s, Ok entry)
  end.

Definition mem_MarkDeadLetterReplayed (id replayedAs : string) (at_ : Time) : prog Store unit :=
  fun s =>
  match mem_deadLetters s !! id with
  | None => (s, Err (StorageErr ErrNotFound))
  | Some entry =>
      (put_dead (<[id := replayed replayedAs at_ entry]> (mem_deadLetters s)) (mem_deadOrder s) s,
       Ok tt)
  end.

(** [append(l[:i], l[i+1:]...)] at the first [i] with [l[i] == id]. *)
Fixpoint remove_first (id : string) (l : list string) : list string :=
  match l with
  | [] => []
  | existing :: rest => if decide (existing = id) then rest else existing :: remove_first id rest
  end.

Definition mem_DeleteDeadLetter (id : string) : prog Store unit := fun s =>
  match mem_deadLetters s !! id with
  | None => (s, Err (StorageErr ErrNotFound))
  | Some _ =>
      (put_dead (delete id (mem_deadLetters s)) (remove_first id (mem_deadOrder s)) s, Ok tt)
  end.

Definition mem_CountDeadLetters (queue : string) : prog Store Z := gets (fun s =>
  Z.of_nat (count_if (fun kv : string * DeadLetter =>
                        str_empty queue || bool_decide (dl_Queue kv.2 = queue))
              (map_to_list (mem_deadLetters s)))).

(** * History *)

Definition mem_AppendHistory (e : HistoryEvent) : prog Store unit := if_open (modifies (fun s =>
  put_history (<[he_MessageID e := slice_at (mem_history s) (he_MessageID e) ++ [e]]>
                 (mem_history s)) s)).

Definition mem_History (id : string) : prog Store (list HistoryEvent) :=
  gets (fun s => slice_at (mem_history s) id).

(** The store implements [storage.Store]. *)
#[export] Instance Memory_ops : StoreOps Store := {
  st_SaveExchange := mem_SaveExchange;
  st_Exchanges := mem_Exchanges;
  st_SaveQueue := mem_SaveQueue;
  st_Queues := mem_Queues;
  st_DeleteQueue := mem_DeleteQueue;
  st_SaveBinding := mem_SaveBinding;
  st_Bindings := mem_Bindings;
  st_DeleteBinding := mem_DeleteBinding;
  st_Append := mem_Append;
  st_Message := mem_Message;
  st_Claim := mem_Claim;
  st_Acknowledge := mem_Acknowledge;
  st_ScheduleRetry := mem_ScheduleRetry;
  st_Release := mem_Release;
  st_MarkDeadLettered := mem_MarkDeadLettered;
  st_ExpiredLeases := mem_ExpiredLeases;
  st_Depth := mem_Depth;
  st_Purge := mem_Purge;
  st_SaveDeadLetter := mem_SaveDeadLetter;
  st_DeadLetters := mem_DeadLetters;
  st_DeadLetter := mem_DeadLetter;
  st_MarkDeadLetterReplayed := mem_MarkDeadLetterReplayed;
  st_DeleteDeadLetter := mem_DeleteDeadLetter;
  st_CountDeadLetters := mem_CountDeadLetters;
  st_AppendHistory := mem_AppendHistory;
  st_History := mem_History;
  st_Close := mem_Close;
}.
