(* ===== verification/MemoryProofs.v ===== *)
(** Correctness of the in-memory store ([Memory.v]).

    - [index_wf] and [dead_wf] are the invariants of the message index (the
      per-queue order and the settled counters agree with the messages) and of
      the dead-letter list.
    - Each operation is first computed by an equation that says what it does on
      every branch; the transitions it performs never fail.
    - [Memory_contract] discharges the storage contract, so every theorem about
      the engine holds on this store. *)

From S2P Require Import Prelude Errors Message Broker Storage Memory.

(** * Invariants *)

Definition record_ok (id : string) (r : record) : Prop :=
  msg_ID (rec_msg r) = id ∧ stored_state (rec_State r) ∧
  (rec_State r ≠ StateProcessing → rec_lease r = zeroTime ∧ rec_consumer r = "").

(** Settled, or gone: [isSettledLocked] on the map alone. *)
Definition settled_in (m : gmap string record) (id : string) : bool :=
  match m !! id with None => true | Some entry => Terminal (rec_State entry) end.

Record index_wf (m : gmap string record) (o : gmap string (list string)) (st : gmap string Z) :
    Prop := {
  wf_records : ∀ id r, m !! id = Some r → record_ok id r;
  wf_nodup : ∀ q, NoDup (slice_at o q);
  wf_order : ∀ q id, id ∈ slice_at o q → ∃ r, m !! id = Some r ∧ rec_Queue r = q;
  wf_open : ∀ id r, m !! id = Some r → Terminal (rec_State r) = false →
            id ∈ slice_at o (rec_Queue r);
  wf_settled : ∀ q, count_at st q = Z.of_nat (count_if (settled_in m) (slice_at o q));
}.

Record dead_wf (m : gmap string DeadLetter) (l : list string) : Prop := {
  dead_ids : ∀ id d, m !! id = Some d → dl_ID d = id;
  dead_nodup : NoDup l;
  dead_listed : ∀ id, id ∈ l ↔ is_Some (m !! id);
}.

Definition mem_wf (s : Store) : Prop :=
  index_wf (mem_messages s) (mem_order s) (mem_settled s) ∧
  dead_wf (mem_deadLetters s) (mem_deadOrder s).

(** What the contract calls the invariant: well-formed and not closed. *)
Definition mem_inv (s : Store) : Prop := mem_closed s = false ∧ mem_wf s.

Definition mem_view (s : Store) : astore :=
  mkAStore (dom (mem_queues s)) (mem_messages s) (mem_deadLetters s) (mem_history s).

Lemma stored_state_terminal s :
  stored_state s → Terminal s = bool_decide (settled_state s).
Proof. by intros [->|[->|[->|[->| ->]]]]. Qed.

Lemma slice_at_empty {A} q : slice_at (∅ : gmap string (list A)) q = [].
Proof. unfold slice_at. by rewrite lookup_empty. Qed.

Lemma mem_New_inv : mem_inv mem_New.
Proof.
  split; [done|]. split; split; simpl; try (intros *; by rewrite lookup_empty); intros.
  - rewrite slice_at_empty. constructor.
  - rewrite slice_at_empty in *. set_solver.
  - by rewrite slice_at_empty.
  - constructor.
  - rewrite lookup_empty. split; [set_solver|]. by intros [].
Qed.

(** * The operations, computed *)

Lemma put_messages_id s : put_messages (mem_messages s) s = s.
Proof. by destruct s. Qed.

Lemma entry_Transition_ok id next at_ s r :
  mem_messages s !! id = Some r → lifecycle (rec_State r) next →
  entry_Transition id next at_ s =
  (set_entry id (mkRecord (set_UpdatedAt at_ (set_State next (rec_msg r)))
                   (rec_lease r) (rec_consumer r)) s, Ok tt).
Proof.
  intros Hr Hl. unfold entry_Transition. rewrite Hr.
  by rewrite (Transition_lifecycle next at_ (rec_msg r) Hl).
Qed.

Lemma entry_Transition_err id next at_ s r :
  mem_messages s !! id = Some r → Valid next = true → ¬ lifecycle (rec_State r) next →
  entry_Transition id next at_ s = (s, Err (InvalidTransitionError (rec_State r) next)).
Proof.
  intros Hr Hv Hl. unfold entry_Transition. rewrite Hr.
  destruct (Transition next at_ (rec_msg r)) as [m'|e] eqn:E.
  - by apply Transition_Ok in E as [? _].
  - apply Transition_Err in E as [[? _]|(_ & _ & ->)]; [congruence|done].
Qed.

Lemma set_entry_lookup id r s : mem_messages (set_entry id r s) !! id = Some r.
Proof. apply lookup_insert_eq. Qed.

Lemma set_entry_twice id r r' s : set_entry id r' (set_entry id r s) = set_entry id r' s.
Proof. unfold set_entry, put_messages. simpl. by rewrite insert_insert_eq. Qed.

Lemma entry_update_entry id f r s :
  entry_update id f (set_entry id r s) = (set_entry id (f r) s, Ok tt).
Proof.
  unfold entry_update, modifies, set_entry, put_messages. simpl. do 2 f_equal.
  apply alter_insert_eq.
Qed.

Lemma entry_update_settled id f r q n s :
  entry_update id f (set_settled q n (set_entry id r s)) =
  (set_settled q n (set_entry id (f r) s), Ok tt).
Proof.
  unfold entry_update, modifies, set_entry, set_settled, put_messages, put_settled. simpl.
  do 2 f_equal. apply alter_insert_eq.
Qed.

(** Two transitions in a row leave one time stamp. *)
Lemma transition_twice m s1 s2 t :
  set_UpdatedAt t (set_State s2 (set_UpdatedAt t (set_State s1 m))) =
  set_UpdatedAt t (set_State s2 m).
Proof. done. Qed.

Lemma Acknowledge_eq id at_ s :
  mem_Acknowledge id at_ s =
  match mem_messages s !! id with
  | None => (s, Err (StorageErr ErrNotFound))
  | Some r =>
      if decide (rec_State r = StateProcessing)
      then (set_settled (rec_Queue r) (settled_of s (rec_Queue r) + 1)
              (set_entry id (ack_record at_ r) s), Ok tt)
      else (s, Err (StateError id StateProcessing (rec_State r)))
  end.
Proof.
  unfold mem_Acknowledge, leased. rewrite bind_eq.
  destruct (mem_messages s !! id) as [r|] eqn:Hr; [|done].
  case_decide as Hp; [|done].
  rewrite bind_eq, (entry_Transition_ok _ _ _ _ r), bind_eq by (rewrite ?Hp; auto with broker).
  unfold bump_settled, modifies. by rewrite entry_update_settled.
Qed.

Lemma ScheduleRetry_eq req s :
  mem_ScheduleRetry req s =
  match mem_messages s !! rr_ID req with
  | None => (s, Err (StorageErr ErrNotFound))
  | Some r =>
      if decide (rec_State r = StateProcessing)
      then (set_entry (rr_ID req) (retry_record req r) s, Ok tt)
      else (s, Err (StateError (rr_ID req) StateProcessing (rec_State r)))
  end.
Proof.
  unfold mem_ScheduleRetry, leased. rewrite bind_eq.
  destruct (mem_messages s !! rr_ID req) as [r|] eqn:Hr; [|done].
  case_decide as Hp; [|done].
  rewrite bind_eq, (entry_Transition_ok _ _ _ _ r), bind_eq by (rewrite ?Hp; auto with broker).
  erewrite entry_Transition_ok by (apply set_entry_lookup || constructor).
  by rewrite set_entry_twice, entry_update_entry.
Qed.

Lemma Release_eq id at_ s :
  mem_Release id at_ s =
  match mem_messages s !! id with
  | None => (s, Err (StorageErr ErrNotFound))
  | Some r =>
      if decide (rec_State r = StateProcessing)
      then (set_entry id (release_record at_ r) s, Ok tt)
      else (s, Err (StateError id StateProcessing (rec_State r)))
  end.
Proof.
  unfold mem_Release, leased. rewrite bind_eq.
  destruct (mem_messages s !! id) as [r|] eqn:Hr; [|done].
  case_decide as Hp; [|done].
  rewrite bind_eq, (entry_Transition_ok _ _ _ _ r) by (rewrite ?Hp; auto with broker).
  by rewrite entry_update_entry.
Qed.

Lemma MarkDeadLettered_eq id reason at_ s :
  (∀ r, mem_messages s !! id = Some r → stored_state (rec_State r)) →
  mem_MarkDeadLettered id reason at_ s =
  match mem_messages s !! id with
  | None => (s, Err (StorageErr ErrNotFound))
  | Some r =>
      if decide (rec_State r = StateProcessing)
      then (set_settled (rec_Queue r) (settled_of s (rec_Queue r) + 1)
              (set_entry id (dead_record reason at_ r) s), Ok tt)
      else (s, Err (InvalidTransitionError (rec_State r) StateDeadLettered))
  end.
Proof.
  intros Hst. unfold mem_MarkDeadLettered.
  destruct (mem_messages s !! id) as [r|] eqn:Hr; [|done].
  specialize (Hst r eq_refl). rewrite bind_eq. case_decide as Hp; simpl.
  - rewrite (entry_Transition_ok _ _ _ _ r), bind_eq by (rewrite ?Hp; auto with broker).
    erewrite entry_Transition_ok by (apply set_entry_lookup || constructor).
    rewrite set_entry_twice, bind_eq. unfold bump_settled, modifies.
    by rewrite entry_update_settled.
  - rewrite bind_eq, (entry_Transition_err _ _ _ _ r); [done..|].
    intros Hl. inversion Hl as [| | | | | | | Hf |]. rewrite <-Hf in Hst.
    by destruct Hst as [|[|[|[|]]]].
Qed.

(** * The index under updates *)

Lemma settled_in_insert m id r id' :
  settled_in (<[id := r]> m) id' =
  if decide (id = id') then Terminal (rec_State r) else settled_in m id'.
Proof. unfold settled_in. rewrite lookup_insert. by case_decide. Qed.

(** Writing a record of the same queue: an open message stays in the index, and
    one that becomes settled is counted. *)
Lemma index_wf_update m o st id r r' :
  index_wf m o st → m !! id = Some r → Terminal (rec_State r) = false →
  record_ok id r' → rec_Queue r' = rec_Queue r →
  index_wf (<[id := r']> m) o
    (if Terminal (rec_State r') then <[rec_Queue r := (count_at st (rec_Queue r) + 1)%Z]> st else st).
Proof.
  intros [Hr Hn Ho Hop Hs] Hid Ht Hok Hq. split.
  - intros id' r0. rewrite lookup_insert. case_decide; [|apply Hr]. intros [= <-]. by subst.
  - done.
  - intros q id' Hin. rewrite lookup_insert. case_decide as E; [|by apply Ho].
    subst id'. exists r'. split; [done|]. destruct (Ho q id Hin) as (r0 & ? & ?). congruence.
  - intros id' r0. rewrite lookup_insert. case_decide as E; [|apply Hop].
    intros [= <-] _. subst id'. rewrite Hq. by apply Hop.
  - intros q. assert (∀ id', settled_in (<[id:=r']> m) id' =
      if decide (id = id') then Terminal (rec_State r') else settled_in m id') as Hsi
      by (intros; apply settled_in_insert).
    destruct (Terminal (rec_State r')) eqn:Ht'.
    + rewrite count_at_insert, !Hs. case_decide as Eq; [subst q|].
      * rewrite (count_if_update (settled_in m) (settled_in (<[id:=r']> m)) _ id).
        -- lia.
        -- done.
        -- by apply Hop.
        -- unfold settled_in. by rewrite Hid.
        -- rewrite Hsi. by rewrite decide_True.
        -- intros y _ Hy. rewrite Hsi. by rewrite decide_False by done.
      * f_equal. apply count_if_ext. intros y Hy. rewrite Hsi. case_decide; [|done].
        subst y. destruct (Ho q id Hy) as (r0 & ? & ?). congruence.
    + rewrite Hs. f_equal. apply count_if_ext. intros y Hy. rewrite Hsi. case_decide; [|done].
      subst y. unfold settled_in. by rewrite Hid.
Qed.

(** Replacing the index of one queue by a part of it, and dropping messages of
    that queue outside the part, as long as no open message is left out. *)
Lemma index_wf_restrict m o st q l m' o' st' :
  index_wf m o st →
  (∀ id r, m' !! id = Some r → m !! id = Some r) →
  (∀ id, id ∈ slice_at o q ∨ m' !! id = m !! id) →
  NoDup l → (∀ id, id ∈ l → id ∈ slice_at o q ∧ is_Some (m' !! id)) →
  (∀ id r, m' !! id = Some r → open_in q r → id ∈ l) →
  (∀ q', slice_at o' q' = if decide (q = q') then l else slice_at o q') →
  (∀ q', count_at st' q' = if decide (q = q') then Z.of_nat (count_if (settled_in m') l)
                           else count_at st q') →
  index_wf m' o' st'.
Proof.
  intros [Hr Hn Ho Hop Hs] Hback Hrem Hl Hsub Hkeep Ho' Hst'.
  assert (∀ q' id, q ≠ q' → id ∈ slice_at o q' → m' !! id = m !! id) as Hoth.
  { intros q' id Hne Hin. destruct (Hrem id) as [Hin'|]; [|done].
    destruct (Ho _ _ Hin) as (r & ? & ?), (Ho _ _ Hin') as (r' & ? & ?). congruence. }
  split.
  - intros id r ?%Hback. by apply Hr.
  - intros q'. rewrite Ho'. by case_decide.
  - intros q' id. rewrite Ho'. case_decide as E; intros Hin.
    + destruct (Hsub _ Hin) as [Hin' [r Hid]]. exists r. split; [done|].
      destruct (Ho _ _ Hin') as (r' & ? & <-). apply Hback in Hid. congruence.
    + rewrite (Hoth q') by done. by apply Ho.
  - intros id r Hid Ht. rewrite Ho'. case_decide as E; [by eapply Hkeep|]. apply Hop; auto.
  - intros q'. rewrite Hst', Ho'. case_decide as E; [done|]. rewrite Hs. f_equal.
    apply count_if_ext. intros x Hx. unfold settled_in. by rewrite (Hoth q').
Qed.

Lemma index_wf_reorder m o st q l n :
  index_wf m o st → NoDup l →
  (∀ id, id ∈ l → id ∈ slice_at o q) →
  (∀ id, id ∈ slice_at o q → settled_in m id = false → id ∈ l) →
  n = Z.of_nat (count_if (settled_in m) l) →
  index_wf m (<[q := l]> o) (<[q := n]> st).
Proof.
  intros Hwf Hl Hsub Hkeep ->. eapply (index_wf_restrict m o st q l m); try done.
  - by right.
  - intros id Hid. split; [auto|]. destruct (wf_order _ _ _ Hwf q id) as (r & -> & _); eauto.
  - intros id r Hid [<- Ht]. apply Hkeep; [by eapply wf_open|]. unfold settled_in. by rewrite Hid.
  - intros q'. by rewrite slice_at_insert.
  - intros q'. by rewrite count_at_insert.
Qed.

Lemma leading_spec p l :
  (∀ id, id ∈ take (leading p l) l → p id = true) ∧
  count_if p l = leading p l + count_if p (drop (leading p l) l) ∧
  filter (fun id => p id = false) (drop (leading p l) l) = filter (fun id => p id = false) l.
Proof.
  induction l as [|x l (H1 & H2 & H3)]; simpl; [split_and!; [set_solver|done..]|].
  destruct (p x) eqn:Hx; simpl; (split_and!; [|rewrite ?count_if_cons, ?Hx; lia|]).
  - intros id [->|Hid]%elem_of_cons; [done|by apply H1].
  - rewrite filter_cons_False by congruence. done.
  - set_solver.
  - done.
Qed.

(** The open ids of a queue, in arrival order. *)
Definition open_ids (m : gmap string record) (ids : list string) : list string :=
  filter (fun id => settled_in m id = false) ids.

Lemma open_ids_settled m l : count_if (settled_in m) (open_ids m l) = 0.
Proof. apply count_if_zero. intros x [Hx _]%list_elem_of_filter. done. Qed.

(** Compaction keeps the index well formed and never allocates a negative
    capacity; it drops settled ids only, of one queue, and keeps the rest in
    order. *)
Lemma compactLocked_spec q s :
  index_wf (mem_messages s) (mem_order s) (mem_settled s) →
  ∃ l n, let s' := put_settled n (put_order l s) in
    compactLocked q s = (s', Ok tt) ∧
    index_wf (mem_messages s) l n ∧
    open_ids (mem_messages s) (slice_at l q) = open_ids (mem_messages s) (slice_at (mem_order s) q) ∧
    (∀ q', q' ≠ q → slice_at l q' = slice_at (mem_order s) q').
Proof.
  intros Hwf. unfold compactLocked. simpl.
  assert (isSettledLocked s = settled_in (mem_messages s)) as Hset by done.
  pose proof (leading_spec (settled_in (mem_messages s)) (order_of s q)) as (_ & Hcnt & Hop).
  rewrite Hset. set (h := leading _ _) in *.
  set (step := if bool_decide (0 < h) then _ else _).
  assert (∃ l n, step = (slice_at l q, put_settled n (put_order l s)) ∧
    index_wf (mem_messages s) l n ∧
    open_ids (mem_messages s) (slice_at l q) = open_ids (mem_messages s) (slice_at (mem_order s) q) ∧
    (∀ q', q' ≠ q → slice_at l q' = slice_at (mem_order s) q')) as (l & n & -> & Hwf1 & Hop1 & Hfr).
  { subst step. case_bool_decide.
    - eexists (<[q := drop h (order_of s q)]> (mem_order s)), _.
      rewrite slice_at_insert, decide_True by done. split_and!.
      + unfold set_settled, set_order, put_settled, put_order. simpl. done.
      + apply index_wf_reorder; [done|..].
        * eapply sublist_NoDup; [apply Hwf|]. apply sublist_drop.
        * intros id Hid. eapply elem_of_sublist; [apply Hid|apply sublist_drop].
        * intros id Hid Hid'. change (id ∈ order_of s q) in Hid. rewrite <-(take_drop h (order_of s q)) in Hid.
          apply elem_of_app in Hid as [Hid|]; [|done].
          apply leading_spec in Hid. congruence.
        * unfold settled_of, set_order, put_order. simpl.
          rewrite (wf_settled _ _ _ Hwf). fold (order_of s q). rewrite Hcnt. lia.
      + apply Hop.
      + intros q' Hq'. by rewrite slice_at_insert, decide_False by done.
    - exists (mem_order s), (mem_settled s). by destruct s. }
  clear Hcnt Hop. unfold settled_of. simpl.
  case_match; [by exists l, n|].
  rewrite (wf_settled _ _ _ Hwf1).
  pose proof (count_if_le (settled_in (mem_messages s)) (slice_at l q)) as Hle.
  rewrite (proj2 (Z.ltb_ge _ _)) by lia.
  eexists (<[q := open_ids (mem_messages s) (slice_at l q)]> l), _. split_and!.
  - unfold set_settled, set_order, put_settled, put_order. simpl. done.
  - apply index_wf_reorder; [done|..].
    + apply NoDup_filter, Hwf1.
    + intros id [_ ?]%list_elem_of_filter. done.
    + intros id ? ?. by apply list_elem_of_filter.
    + by rewrite open_ids_settled.
  - rewrite slice_at_insert, decide_True by done. rewrite <-Hop1.
    by apply list_filter_filter_l.
  - intros q' Hq'. rewrite slice_at_insert, decide_False by done. auto.
Qed.

(** * Claiming *)

(** The id denotes a message that can be claimed now. *)
Definition ready_in (req : ClaimRequest) (m : gmap string record) (id : string) : bool :=
  match m !! id with None => false | Some r => claimable (rec_msg r) (cr_Now req) end.

(** The first [k] claimable ids of an index. *)
Definition picks (req : ClaimRequest) (m : gmap string record) (k : nat) (index : list string) :
    list string :=
  take k (filter (fun id => ready_in req m id = true) index).

Lemma claimable_true msg now :
  claimable msg now = true ↔
  (msg_State msg = StateQueued ∨ msg_State msg = StateRetrying) ∧
  After (msg_AvailableAt msg) now = false.
Proof. unfold claimable. case_decide; [|naive_solver]. rewrite negb_true_iff. naive_solver. Qed.

Lemma claim_all_cons req id ids m r : m !! id = Some r → id ∉ ids →
  claim_all req ids (<[id := claim_record req r]> m) = claim_all req (id :: ids) m.
Proof.
  intros Hr Hn. apply map_eq. intros id'. rewrite !lookup_claim_all, lookup_insert.
  destruct (decide (id = id')) as [<-|Hne].
  - rewrite decide_False, decide_True, Hr by set_solver. done.
  - destruct (decide (id' ∈ ids)); [rewrite decide_True by set_solver|rewrite decide_False by set_solver];
      done.
Qed.

Lemma messages_of_cons m id ids r : m !! id = Some r →
  messages_of m (id :: ids) = rec_msg r :: messages_of m ids.
Proof. intros Hr. unfold messages_of. simpl. by rewrite Hr. Qed.

(** One round of the loop on a claimable message. *)
Lemma claim_round_eq {B} req id r s (k : Message → prog Store B) :
  mem_messages s !! id = Some r → claimable (rec_msg r) (cr_Now req) = true →
  ((if decide (rec_State r = StateRetrying)
    then entry_Transition id StateQueued (cr_Now req) else mret tt) ≫= fun _ =>
   entry_Transition id StateProcessing (cr_Now req) ≫= fun _ =>
   entry_update id (fun e =>
     mkRecord (set_Attempts (wrap64 (msg_Attempts (rec_msg e) + 1)) (rec_msg e))
       (cr_Now req + cr_Lease req) (cr_Consumer req)) ≫= fun _ =>
   mem_Message id ≫= k) s =
  k (rec_msg (claim_record req r)) (set_entry id (claim_record req r) s).
Proof.
  intros Hr [Hst _]%claimable_true. fold (rec_State r) in Hst. rewrite bind_eq.
  case_decide as Hret.
  - rewrite (entry_Transition_ok _ _ _ _ r), bind_eq by (rewrite ?Hret; auto with broker).
    erewrite entry_Transition_ok by (apply set_entry_lookup || constructor).
    rewrite set_entry_twice, bind_eq, entry_update_entry, bind_eq.
    unfold mem_Message at 1. by rewrite set_entry_lookup.
  - destruct Hst as [Hst|]; [|done]. simpl. rewrite bind_eq.
    rewrite (entry_Transition_ok _ _ _ _ r), bind_eq by (rewrite ?Hst; auto with broker).
    rewrite entry_update_entry, bind_eq. unfold mem_Message at 1. by rewrite set_entry_lookup.
Qed.

Lemma claim_loop_eq req index claimed s :
  NoDup index →
  let ids := picks req (mem_messages s) (Z.to_nat (cr_Limit req - Z.of_nat (length claimed))) index in
  let m' := claim_all req ids (mem_messages s) in
  claim_loop req index claimed s = (put_messages m' s, Ok (claimed ++ messages_of m' ids)).
Proof.
  revert claimed s. induction index as [|id index IH]; intros claimed s Hn ids m'.
  { subst ids m'. unfold picks. rewrite filter_nil, take_nil, claim_all_nil. simpl.
    by rewrite put_messages_id, app_nil_r. }
  apply NoDup_cons in Hn as [Hid Hn]. cbn [claim_loop].
  case_match eqn:Hlim.
  { apply Z.leb_le in Hlim. subst m' ids. unfold picks.
    replace (Z.to_nat _) with 0 by lia. rewrite take_0, claim_all_nil, put_messages_id. simpl.
    by rewrite app_nil_r. }
  apply Z.leb_gt in Hlim. subst m' ids. unfold picks.
  destruct (mem_messages s !! id) as [r|] eqn:Hr; last first.
  { rewrite filter_cons_False by (unfold ready_in; rewrite Hr; done). by apply IH. }
  destruct (claimable (rec_msg r) (cr_Now req)) eqn:Hc; cbn [negb]; last first.
  { rewrite filter_cons_False by (unfold ready_in; rewrite Hr; congruence). by apply IH. }
  rewrite filter_cons_True by (unfold ready_in; by rewrite Hr).
  rewrite (claim_round_eq req id r s (fun copy => claim_loop req index (claimed ++ [copy]))) by done.
  rewrite IH by done. simpl. unfold picks. rewrite length_app. simpl.
  replace (Z.to_nat (cr_Limit req - Z.of_nat (length claimed)))
    with (S (Z.to_nat (cr_Limit req - Z.of_nat (length claimed + 1)))) by lia.
  rewrite firstn_cons. set (k := Z.to_nat _).
  rewrite (filter_ext_in _ (fun id0 => ready_in req (mem_messages s) id0 = true) index); last first.
  { intros x Hx. unfold ready_in. rewrite lookup_insert_ne by (by intros ->). done. }
  set (rest := take k _).
  assert (id ∉ rest) as Hrest.
  { intros [_ Hin]%subseteq_take%list_elem_of_filter. done. }
  rewrite (claim_all_cons req id rest _ r) by done.
  rewrite <-app_assoc, (messages_of_cons _ id rest (claim_record req r)); [done|].
  by rewrite lookup_claim_all, decide_True, Hr by set_solver.
Qed.

Lemma picks_spec req m k index : NoDup index →
  NoDup (picks req m k index) ∧ length (picks req m k index) ≤ k ∧
  (∀ id, id ∈ picks req m k index → id ∈ index ∧ ready_in req m id = true) ∧
  (length (picks req m k index) < k → ∀ id, id ∈ index → ready_in req m id = true →
   id ∈ picks req m k index).
Proof.
  intros Hn. unfold picks. set (l := filter _ index).
  assert (∀ id, id ∈ l ↔ ready_in req m id = true ∧ id ∈ index) as Hl
    by (intros id; unfold l; by rewrite list_elem_of_filter).
  split_and!.
  - apply (sublist_NoDup _ l); [by apply NoDup_filter|apply sublist_take].
  - rewrite length_take. lia.
  - intros id Hid. apply subseteq_take in Hid. apply Hl in Hid as [? ?]. done.
  - rewrite length_take. intros Hk id Hid Hr. rewrite take_ge by lia. by apply Hl.
Qed.

(** Open ids decide what is claimed: compaction does not show. *)
Lemma picks_open req m k index : picks req m k (open_ids m index) = picks req m k index.
Proof.
  unfold picks, open_ids. f_equal. apply list_filter_filter_l. intros id. unfold ready_in, settled_in.
  destruct (m !! id) as [r|]; [|done]. intros [Hst _]%claimable_true.
  fold (rec_State r) in Hst. by destruct Hst as [-> | ->].
Qed.

(** [Claim], computed: the first claimable ids in arrival order. *)
Lemma Claim_eq req s : mem_inv s → (0 ≤ cr_Limit req)%Z →
  ∃ l n, let ids := picks req (mem_messages s) (Z.to_nat (cr_Limit req)) (order_of s (cr_Queue req)) in
    let m' := claim_all req ids (mem_messages s) in
    mem_Claim req s = (put_messages m' (put_settled n (put_order l s)), Ok (messages_of m' ids)) ∧
    index_wf (mem_messages s) l n ∧
    open_ids (mem_messages s) (slice_at l (cr_Queue req)) =
      open_ids (mem_messages s) (order_of s (cr_Queue req)) ∧
    (∀ q', q' ≠ cr_Queue req → slice_at l q' = order_of s q').
Proof.
  intros [Hopen [Hwf Hdead]] Hlim.
  destruct (compactLocked_spec (cr_Queue req) s Hwf) as (l & n & Hc & Hwf' & Hids & Hfr).
  exists l, n. split_and!; [|done..].
  unfold mem_Claim, if_open. rewrite Hopen, bind_eq, Hc.
  rewrite (proj2 (Z.ltb_ge _ _)) by lia.
  rewrite claim_loop_eq by apply Hwf'. simpl. rewrite Z.sub_0_r.
  unfold order_of. simpl. rewrite <-(picks_open _ _ _ (slice_at l _)), Hids, picks_open. done.
Qed.

(** * The message operations keep the index *)

Lemma index_wf_append m o st msg :
  index_wf m o st → m !! msg_ID msg = None → msg_State msg = StateQueued →
  index_wf (<[msg_ID msg := mkRecord (Clone msg) zeroTime ""]> m)
    (<[msg_Queue msg := slice_at o (msg_Queue msg) ++ [msg_ID msg]]> o) st.
Proof.
  intros [Hr Hn Ho Hop Hs] Hnew Hq.
  assert (∀ q, msg_ID msg ∉ slice_at o q) as Hfresh.
  { intros q (r & ? & _)%Ho. congruence. }
  split.
  - intros id r. rewrite lookup_insert. case_decide; [|apply Hr]. intros [= <-]. subst id.
    split_and!; [done|by left|done].
  - intros q. rewrite slice_at_insert. case_decide; [|done]. apply NoDup_app.
    split_and!; [done| |apply NoDup_singleton]. intros x Hx ->%list_elem_of_singleton.
    by apply (Hfresh (msg_Queue msg)).
  - intros q id. rewrite slice_at_insert, lookup_insert.
    destruct (decide (msg_ID msg = id)) as [<-|Hne].
    + case_decide; [|by intros ?%Hfresh]. intros _. by eexists.
    + case_decide; [|apply Ho]. intros [Hin| ->%list_elem_of_singleton]%elem_of_app; [|done].
      subst q. by apply Ho.
  - intros id r. rewrite lookup_insert. case_decide as E.
    + intros [= <-] _. subst id. rewrite slice_at_insert. simpl.
      rewrite decide_True by done. set_solver.
    + intros Hid Ht. rewrite slice_at_insert. case_decide as Eq; [|by apply Hop].
      rewrite Eq. apply elem_of_app. left. by apply Hop.
  - intros q. rewrite Hs, slice_at_insert. f_equal.
    assert (∀ q, count_if (settled_in (<[msg_ID msg:=mkRecord (Clone msg) zeroTime ""]> m)) (slice_at o q)
                 = count_if (settled_in m) (slice_at o q)) as Hc.
    { intros q'. apply count_if_ext. intros x Hx. rewrite settled_in_insert, decide_False; [done|].
      intros Hx'. subst x. by apply (Hfresh q'). }
    case_decide as E; [|by rewrite Hc]. subst q.
    rewrite count_if_app, Hc, count_if_cons, settled_in_insert, decide_True by done.
    unfold rec_State, Clone. cbn [rec_msg]. rewrite Hq, count_if_nil.
    replace (Terminal StateQueued) with false by done. lia.
Qed.

Lemma append_all_wf ms s :
  index_wf (mem_messages s) (mem_order s) (mem_settled s) → appendable ms →
  Forall (fun msg => mem_messages s !! msg_ID msg = None) ms →
  let s' := foldl append_one s ms in
  index_wf (mem_messages s') (mem_order s') (mem_settled s') ∧
  mem_messages s' = append_all ms (mem_messages s) ∧
  (∃ o, s' = put_order o (put_messages (append_all ms (mem_messages s)) s)).
Proof.
  revert s. induction ms as [|msg ms IH]; intros s Hwf [Hn Hq] Hnew; simpl.
  { split_and!; [done..|]. exists (mem_order s). by destruct s. }
  apply NoDup_cons in Hn as [Hid Hn]. apply Forall_cons in Hq as [Hq Hqs].
  apply Forall_cons in Hnew as [Hnew Hnews].
  destruct (IH (append_one s msg)) as (Hwf' & Hm & o & Heq).
  - by apply index_wf_append.
  - done.
  - apply Forall_forall. intros m' Hm'. simpl. rewrite lookup_insert_ne.
    + by eapply Forall_forall in Hnews.
    + intros Heq. apply Hid. rewrite Heq. by apply list_elem_of_fmap_2.
  - split_and!; [done..|]. exists o. by rewrite Heq.
Qed.

Lemma append_conflict_spec ms s :
  append_conflict ms s = true ↔ Exists (fun msg => is_Some (mem_messages s !! msg_ID msg)) ms.
Proof.
  induction ms as [|msg ms IH]; simpl.
  - split; [done|]. by intros ?%Exists_nil.
  - rewrite Exists_cons. destruct (mem_messages s !! msg_ID msg); [|rewrite IH].
    + split; [eauto|done].
    + split; [by right|]. by intros [[]|?].
Qed.

Lemma index_wf_claim req ids m o st :
  index_wf m o st → (∀ id, id ∈ ids → ready_in req m id = true) →
  index_wf (claim_all req ids m) o st.
Proof.
  intros [Hr Hn Ho Hop Hs] Hready.
  assert (∀ id, settled_in (claim_all req ids m) id = settled_in m id) as Hset.
  { intros id. unfold settled_in. rewrite lookup_claim_all. case_decide as Hid; [|done].
    apply Hready in Hid. unfold ready_in in Hid. destruct (m !! id) as [r|]; [|done].
    apply claimable_true in Hid as [Hst _]. fold (rec_State r) in Hst. simpl.
    by destruct Hst as [-> | ->]. }
  assert (∀ id r, claim_all req ids m !! id = Some r →
            ∃ r0, m !! id = Some r0 ∧ rec_Queue r = rec_Queue r0 ∧ record_ok id r) as Hold.
  { intros id r. rewrite lookup_claim_all. case_decide; [|eauto].
    destruct (m !! id) as [r0|] eqn:E; [|done]. intros [= <-]. exists r0.
    split_and!; [done..|]. apply Hr in E as (? & ? & ?).
    split_and!; [done|by right; left|done]. }
  split; [|done|..].
  - intros id r. intros (r0 & _ & _ & ?)%Hold. done.
  - intros q id (r & Hid & Hq)%Ho. rewrite lookup_claim_all, Hid. case_decide; eauto.
  - intros id r Hid Ht. destruct (Hold id r Hid) as (r0 & Hid0 & Hq & _). rewrite Hq. apply Hop; [done|].
    specialize (Hset id). unfold settled_in in Hset. rewrite Hid, Hid0 in Hset. congruence.
  - intros q. rewrite Hs. f_equal. by apply count_if_ext.
Qed.

(** Open messages are exactly the open ids of the index. *)
Lemma open_ids_spec m o st q id : index_wf m o st →
  id ∈ open_ids m (slice_at o q) ↔ ∃ r, m !! id = Some r ∧ open_in q r.
Proof.
  intros Hwf. unfold open_ids, open_in. rewrite list_elem_of_filter. unfold settled_in. split.
  - intros [Hset Hin]. destruct (wf_order _ _ _ Hwf _ _ Hin) as (r & Hid & Hq).
    rewrite Hid in Hset. eauto.
  - intros (r & Hid & <- & Ht). rewrite Hid. split; [done|]. by eapply wf_open.
Qed.

(** * Purging, counting and deleting a queue *)

Lemma purge_loop_eq index m remaining purged :
  NoDup index → (∀ id, id ∈ index → is_Some (m !! id)) →
  ∃ m', purge_loop index m remaining purged =
    (m', remaining ++ filter (fun id => settled_in m id = true) index,
     (purged + Z.of_nat (length (open_ids m index)))%Z) ∧
  ∀ id, m' !! id = if decide (id ∈ open_ids m index) then None else m !! id.
Proof.
  revert m remaining purged.
  induction index as [|id index IH]; intros m remaining purged Hn Hall.
  { exists m. split; [|intros; by rewrite decide_False by set_solver].
    simpl. by rewrite app_nil_r, Z.add_0_r. }
  apply NoDup_cons in Hn as [Hid Hn]. destruct (Hall id) as [r Hr]; [set_solver|].
  cbn [purge_loop]. rewrite Hr. unfold open_ids. rewrite !filter_cons.
  assert (settled_in m id = Terminal (rec_State r)) as Hset by (unfold settled_in; by rewrite Hr).
  rewrite Hset. destruct (Terminal (rec_State r)) eqn:Ht.
  - rewrite (decide_True (P:=true=true)), (decide_False (P:=true=false)) by done.
    destruct (IH m (remaining ++ [id]) purged Hn) as (m' & -> & Hm'); [set_solver|].
    exists m'. by rewrite <-app_assoc.
  - rewrite (decide_True (P:=false=false)), (decide_False (P:=false=true)) by done.
    assert (∀ x, x ∈ index → settled_in (delete id m) x = settled_in m x) as Hsame.
    { intros x Hx. unfold settled_in. by rewrite lookup_delete_ne by (by intros ->). }
    destruct (IH (delete id m) remaining (purged + 1)%Z Hn) as (m' & -> & Hm').
    { intros x Hx. rewrite lookup_delete_ne by (by intros ->). set_solver. }
    assert (open_ids (delete id m) index = open_ids m index) as Ho
      by (apply filter_ext_in; intros x Hx; by rewrite Hsame).
    exists m'. split.
    + rewrite Ho. f_equal; [|unfold open_ids; cbn [length]; lia]. do 2 f_equal.
      apply filter_ext_in. intros x Hx. by rewrite Hsame.
    + intros x. rewrite Hm', Ho, lookup_delete. fold (open_ids m index).
      destruct (decide (x = id)) as [->|Hne].
      * rewrite (decide_True (P:=id = id)), (decide_True (P:=id ∈ _ :: _)) by set_solver.
        by case_decide.
      * rewrite (decide_False (P:=id = x)) by congruence.
        destruct (decide (x ∈ open_ids m index)).
        -- by rewrite decide_True by set_solver.
        -- by rewrite decide_False by set_solver.
Qed.

(** Filtering the open messages of a queue out of the map is removing its open ids. *)
Lemma filter_open_eq m o st q m' : index_wf m o st →
  (∀ id, m' !! id = if decide (id ∈ open_ids m (slice_at o q)) then None else m !! id) →
  m' = filter (fun kv => ¬ open_in q kv.2) m.
Proof.
  intros Hwf Hm'. apply map_eq. intros id. rewrite Hm', map_lookup_filter.
  pose proof (open_ids_spec m o st q id Hwf) as Hop.
  destruct (m !! id) as [r|] eqn:Hr; simpl; [|by case_decide].
  destruct (decide (open_in q r)) as [Ho|Ho].
  - rewrite decide_True by (apply Hop; eauto). by rewrite option_guard_False by auto.
  - rewrite decide_False; [by rewrite option_guard_True|]. rewrite Hop. naive_solver.
Qed.

Lemma Purge_implements queue :
  implements mem_inv mem_view (mem_Purge queue) (purge_spec queue).
Proof.
  intros s [Hopen [Hwf Hdead]]. unfold mem_Purge, purge_spec. simpl.
  destruct (mem_queues s !! queue) as [q|] eqn:Hq; last first.
  { rewrite decide_False by (rewrite not_elem_of_dom; done). done. }
  rewrite decide_True by (by apply elem_of_dom).
  destruct (purge_loop_eq (order_of s queue) (mem_messages s) [] 0) as (m' & -> & Hm').
  { apply Hwf. }
  { intros id Hid. destruct (wf_order _ _ _ Hwf _ _ Hid) as (r & -> & _). eauto. }
  pose proof (filter_open_eq _ _ _ _ _ Hwf Hm') as Hm. simpl.
  assert (∀ id, settled_in (mem_messages s) id = true → m' !! id = mem_messages s !! id) as Hkeep.
  { intros id Hid. rewrite Hm', decide_False; [done|].
    intros [? _]%list_elem_of_filter. congruence. }
  split; [split; [done|]; split; [|done]|split].
  - simpl. eapply (index_wf_restrict _ _ _ queue
               (filter (fun id => settled_in (mem_messages s) id = true) (order_of s queue)));
      [done|..].
    + intros id r. rewrite Hm'. by case_decide.
    + intros id. rewrite Hm'. case_decide as Hin; [left|by right].
      by apply list_elem_of_filter in Hin as [_ ?].
    + apply NoDup_filter, Hwf.
    + intros id [Hset Hin]%list_elem_of_filter. split; [done|]. rewrite Hkeep by done.
      destruct (wf_order _ _ _ Hwf _ _ Hin) as (r & -> & _). eauto.
    + intros id r. rewrite Hm. intros [_ Hno]%map_lookup_filter_Some Ho. done.
    + intros q'. by rewrite slice_at_insert.
    + intros q'. rewrite count_at_insert. case_decide; [|done]. f_equal. symmetry.
      apply count_if_full. intros x [Hx _]%list_elem_of_filter.
      unfold settled_in. by rewrite Hkeep.
  - f_equal. rewrite Z.add_0_l. f_equal. symmetry.
    apply size_filter_list; [apply NoDup_filter, Hwf|]. intros id. by eapply open_ids_spec.
  - unfold with_messages, mem_view. simpl. by rewrite Hm.
Qed.

Lemma DeleteQueue_implements queue :
  implements mem_inv mem_view (mem_DeleteQueue queue) (delete_queue_spec queue).
Proof.
  intros s [Hopen [Hwf Hdead]]. unfold mem_DeleteQueue, delete_queue_spec. simpl.
  destruct (mem_queues s !! queue) as [q|] eqn:Hq; last first.
  { rewrite decide_False by (rewrite not_elem_of_dom; done). done. }
  rewrite decide_True by (by apply elem_of_dom). unfold order_of. simpl.
  pose proof (lookup_foldl_delete (mem_messages s) (slice_at (mem_order s) queue)) as Hm.
  set (m' := foldl _ _ _) in *. clearbody m'.
  assert (∀ id r, m' !! id = Some r → ¬ open_in queue r) as Hno.
  { intros id r. rewrite Hm. case_decide as Hin; [done|]. intros Hid [<- Ht].
    by eapply Hin, wf_open. }
  split; [split; [done|]; split; [|done]|].
  - simpl. eapply (index_wf_restrict _ _ _ queue []); [done|..].
    + intros id r. rewrite Hm. by case_decide.
    + intros id. rewrite Hm. case_decide; auto.
    + constructor.
    + intros id ?%elem_of_nil. done.
    + intros id r ? ?. by edestruct Hno.
    + intros q'. by rewrite slice_at_delete.
    + intros q'. by rewrite count_at_delete.
  - split_and!; [done|apply dom_delete_L|done..| |done].
    intros id. rewrite Hm. case_decide as Hin; [right|by left].
    destruct (wf_order _ _ _ Hwf _ _ Hin) as (r & -> & <-). done.
Qed.

(** The ids of an index whose message is in one of the states. *)
Definition in_state (m : gmap string record) (states : list State) (id : string) : bool :=
  match m !! id with None => false | Some r => bool_decide (rec_State r ∈ states) end.

Lemma depth_add_fold s ids d :
  foldl (depth_add s) d ids =
  mkDepth (d_Ready d + Z.of_nat (count_if (in_state (mem_messages s) [StateQueued]) ids))
    (d_InFlight d + Z.of_nat (count_if (in_state (mem_messages s) [StateProcessing]) ids))
    (d_Scheduled d + Z.of_nat (count_if (in_state (mem_messages s) [StateRetrying; StateFailed]) ids))
    (d_Total d).
Proof.
  revert d. induction ids as [|id ids IH]; intros d; cbn [foldl].
  { rewrite !count_if_nil. destruct d; simpl. f_equal; lia. }
  rewrite IH, !count_if_cons. unfold in_state, depth_add.
  destruct (mem_messages s !! id) as [r|]; [|done]. destruct d as [a b c t].
  destruct (decide (rec_State r = StateQueued)) as [->|]; [compute_tests; cbn -[count_if]; f_equal; lia|].
  destruct (decide (rec_State r = StateProcessing)) as [->|]; [compute_tests; cbn -[count_if]; f_equal; lia|].
  case_decide as H.
  - destruct H as [-> | ->]; compute_tests; cbn -[count_if]; f_equal; lia.
  - rewrite !bool_decide_eq_false_2 by set_solver. cbn -[count_if]. f_equal; lia.
Qed.

Lemma in_states_count m o st q states :
  index_wf m o st → Forall (fun s => Terminal s = false) states →
  size (in_states q states m) = count_if (in_state m states) (slice_at o q).
Proof.
  intros Hwf Hst. unfold in_states, count_if. apply size_filter_list.
  - apply NoDup_filter, Hwf.
  - intros id. rewrite list_elem_of_filter. unfold in_state. split.
    + intros [Hs Hin]. destruct (wf_order _ _ _ Hwf _ _ Hin) as (r & Hid & Hq).
      rewrite Hid in *. apply bool_decide_eq_true in Hs. eauto.
    + intros (r & Hid & <- & Hs). simpl in Hs. rewrite Hid, bool_decide_eq_true. split; [done|].
      eapply wf_open; [done..|]. by eapply Forall_forall in Hst.
Qed.

Lemma Depth_implements queue :
  implements mem_inv mem_view (mem_Depth queue) (depth_spec queue).
Proof.
  intros s Hinv. pose proof Hinv as [Hopen [Hwf Hdead]]. unfold mem_Depth, depth_spec, reads. simpl.
  destruct (mem_queues s !! queue) as [q|] eqn:Hq; simpl; last first.
  { by rewrite decide_False by (rewrite not_elem_of_dom; done). }
  rewrite decide_True by (by apply elem_of_dom). split_and!; [done| |done].
  rewrite depth_add_fold. unfold depth_of. simpl. unfold order_of.
  by rewrite !(in_states_count _ _ _ _ _ Hwf) by (repeat constructor).
Qed.

(** ** Expired leases *)

Lemma lease_live_spec now r : lease_live now r = false ↔ expired now r.
Proof.
  unfold lease_live, expired, IsZero.
  rewrite !orb_false_iff, negb_false_iff, bool_decide_eq_true, bool_decide_eq_false. naive_solver.
Qed.

Lemma messages_of_ids m l :
  (∀ msg, msg ∈ l → ∃ r, m !! msg_ID msg = Some r ∧ rec_msg r = msg) →
  messages_of m (msg_ID <$> l) = l.
Proof.
  induction l as [|msg l IH]; intros Hl; [done|]. cbn [fmap list_fmap].
  destruct (Hl msg) as (r & Hr & Hm); [set_solver|].
  rewrite (messages_of_cons _ _ _ r Hr), Hm. f_equal. apply IH. set_solver.
Qed.

(** The expired messages, sorted by id. *)
Definition expired_list (now : Time) (m : gmap string record) : list Message :=
  sort_by msg_ID (omap (expired_msg now) (map_to_list m)).

Lemma elem_of_expired_list now m o st msg : index_wf m o st →
  msg ∈ expired_list now m ↔
  ∃ r, m !! msg_ID msg = Some r ∧ rec_msg r = msg ∧ expired now r.
Proof.
  intros Hwf. unfold expired_list. rewrite elem_of_sort_by, list_elem_of_omap.
  unfold expired_msg. split.
  - intros ([id r] & Hin%elem_of_map_to_list & Hf). simpl in Hf.
    destruct (lease_live now r) eqn:E; simplify_eq. apply lease_live_spec in E.
    destruct (wf_records _ _ _ Hwf _ _ Hin) as [<- _]. eauto.
  - intros (r & Hid & Hm & E%lease_live_spec). exists (msg_ID msg, r).
    rewrite elem_of_map_to_list. split; [done|]. simpl. by rewrite E, <-Hm.
Qed.

Lemma expired_list_NoDup now m o st : index_wf m o st → NoDup (msg_ID <$> expired_list now m).
Proof.
  intros Hwf. unfold expired_list. rewrite sort_by_perm.
  apply (sublist_NoDup _ (map_to_list m).*1); [apply NoDup_fst_map_to_list|].
  assert (∀ kv, kv ∈ map_to_list m → msg_ID (rec_msg kv.2) = kv.1) as Hids.
  { intros [id r] Hin%elem_of_map_to_list. by eapply wf_records in Hin as [? _]. }
  revert Hids. generalize (map_to_list m) as kvs.
  induction kvs as [|[id r] kvs IH]; intros Hids; [done|]. simpl. unfold expired_msg at 1. simpl.
  assert (msg_ID (rec_msg r) = id) as Hid by (apply (Hids (id, r)); set_solver).
  destruct (lease_live now r); simpl; unfold Clone; rewrite ?Hid; constructor; apply IH; set_solver.
Qed.

Lemma ExpiredLeases_implements now limit :
  implements mem_inv mem_view (mem_ExpiredLeases now limit) (expired_spec now limit).
Proof.
  intros s Hinv. pose proof Hinv as [_ [Hwf _]]. split; [done|]. split; [|done].
  unfold mem_ExpiredLeases, gets. cbn [fst snd]. fold (expired_list now (mem_messages s)).
  pose proof (fun msg => elem_of_expired_list now _ _ _ msg Hwf) as Hl.
  pose proof (expired_list_NoDup now _ _ _ Hwf) as Hn.
  set (l := expired_list _ _) in *. clearbody l.
  set (res := if (_ && _)%Z then _ else _).
  assert (res `sublist_of` l) as Hsub.
  { unfold res. case_match; [apply sublist_take|done]. }
  assert (∀ msg, msg ∈ res → msg ∈ l) as Hin by (intros; by eapply elem_of_sublist).
  exists (msg_ID <$> res). split_and!.
  - eapply sublist_NoDup; [exact Hn|]. by apply fmap_sublist.
  - simpl. rewrite messages_of_ids; [done|]. intros msg (r & ? & ? & _)%Hin%Hl. eauto.
  - intros id (msg & -> & (r & Hr & _ & He)%Hin%Hl)%list_elem_of_fmap. eauto.
  - intros Hlim. rewrite length_fmap. unfold res. case_match eqn:E.
    + rewrite length_take. lia.
    + apply andb_false_iff in E as [?%Z.ltb_ge|?%Z.ltb_ge]; lia.
  - intros Hlim id r Hid He. rewrite length_fmap in Hlim.
    assert (res = l) as ->.
    { unfold res in *. case_match eqn:E; [|done].
      apply andb_true_iff in E as [E1%Z.ltb_lt E2%Z.ltb_lt].
      rewrite length_take in Hlim. lia. }
    destruct (wf_records _ _ _ Hwf _ _ Hid) as [Hids _]. rewrite <-Hids.
    apply list_elem_of_fmap_2, Hl. exists r. by rewrite Hids.
Qed.

(** * The contract, operation by operation *)

Lemma Append_implements ms : appendable ms →
  implements mem_inv mem_view (mem_Append ms) (append_spec ms).
Proof.
  intros Hms s [Hopen [Hwf Hdead]]. unfold mem_Append, if_open, append_spec. rewrite Hopen. simpl.
  destruct (append_conflict ms s) eqn:Hc.
  - apply append_conflict_spec in Hc. by rewrite decide_True.
  - assert (¬ Exists (λ msg, is_Some (mem_messages s !! msg_ID msg)) ms) as Hn.
    { rewrite <-append_conflict_spec. congruence. }
    rewrite decide_False by done.
    destruct (append_all_wf ms s Hwf Hms) as (Hwf' & Hm & o & Heq).
    { apply Forall_forall. intros msg Hin. apply eq_None_not_Some. intros Hs. apply Hn.
      apply Exists_exists. eauto. }
    cbv zeta in *. rewrite Heq in *. by split.
Qed.

Lemma Claim_implements req : (0 ≤ cr_Limit req)%Z →
  implements mem_inv mem_view (mem_Claim req) (claim_spec req).
Proof.
  intros Hlim s Hinv. destruct (Claim_eq req s Hinv Hlim) as (l & n & -> & Hwf' & _).
  destruct Hinv as [Hopen [Hwf Hdead]]. cbn [fst snd].
  set (ids := picks _ _ _ _).
  destruct (picks_spec req (mem_messages s) (Z.to_nat (cr_Limit req)) (order_of s (cr_Queue req)))
    as (Hn & Hlen & Hin & Hall); [apply Hwf|]. fold ids in Hn, Hlen, Hin, Hall.
  split; [split; [done|]; split; [|done]|].
  - apply index_wf_claim; [done|]. intros id Hid. by apply Hin.
  - exists ids. split_and!; [|done..]. split_and!; [done| |lia|].
    + intros id [Hid Hr]%Hin. destruct (wf_order _ _ _ Hwf _ _ Hid) as (r & Hid' & Hq).
      exists r. split; [done|]. split; [done|]. unfold ready_in in Hr. by rewrite Hid' in Hr.
    + intros Hlt id r Hid [Hq Hc]. simpl in Hid. apply Hall; [lia| |].
      * unfold order_of. rewrite <-Hq. eapply wf_open; [done..|].
        apply claimable_true in Hc as [Hst _]. fold (rec_State r) in Hst.
        by destruct Hst as [-> | ->].
      * unfold ready_in. by rewrite Hid.
Qed.

Lemma record_ok_released id r msg :
  msg_ID msg = id → stored_state (msg_State msg) → msg_State msg ≠ StateProcessing →
  r = mkRecord msg zeroTime "" → record_ok id r.
Proof. by intros ? ? ? ->. Qed.

(** The leased operations share their shape: an open record of the queue is
    replaced, and counted when it becomes settled. *)
Lemma leased_implements (p : prog Store unit) id f :
  (∀ s, p s = match mem_messages s !! id with
    | None => (s, Err (StorageErr ErrNotFound))
    | Some r =>
        if decide (rec_State r = StateProcessing)
        then (put_settled (if Terminal (rec_State (f r))
                           then <[rec_Queue r := (settled_of s (rec_Queue r) + 1)%Z]> (mem_settled s)
                           else mem_settled s) (set_entry id (f r) s), Ok tt)
        else (s, Err (StateError id StateProcessing (rec_State r)))
    end) →
  (∀ r, record_ok id r → record_ok id (f r) ∧ rec_Queue (f r) = rec_Queue r) →
  implements mem_inv mem_view p (leased_spec id f).
Proof.
  intros Hp Hf s Hinv. pose proof Hinv as [Hopen [Hwf Hdead]]. rewrite Hp.
  unfold leased_spec. simpl.
  destruct (mem_messages s !! id) as [r|] eqn:Hr; [|done]. case_decide as Hst; [|done].
  split; [|done]. split; [done|]. split; [|done]. simpl.
  destruct (Hf r) as [Hok Hq]; [by eapply wf_records|].
  eapply index_wf_update; try done. by rewrite Hst.
Qed.

Ltac solve_leased :=
  intros r (? & ? & ?); split; [|done];
  eapply record_ok_released; [| | |reflexivity]; simpl;
  [done|unfold stored_state; tauto|done].

Lemma Acknowledge_implements id at_ :
  implements mem_inv mem_view (mem_Acknowledge id at_) (leased_spec id (ack_record at_)).
Proof. apply leased_implements; [intros s; apply Acknowledge_eq|]. solve_leased. Qed.

Lemma ScheduleRetry_implements req :
  implements mem_inv mem_view (mem_ScheduleRetry req) (leased_spec (rr_ID req) (retry_record req)).
Proof. apply leased_implements; [intros s; apply ScheduleRetry_eq|]. solve_leased. Qed.

Lemma Release_implements id at_ :
  implements mem_inv mem_view (mem_Release id at_) (leased_spec id (release_record at_)).
Proof. apply leased_implements; [intros s; apply Release_eq|]. solve_leased. Qed.

Lemma MarkDeadLettered_implements id reason at_ :
  implements mem_inv mem_view (mem_MarkDeadLettered id reason at_) (dead_spec id reason at_).
Proof.
  intros s Hinv. pose proof Hinv as [Hopen [Hwf Hdead]]. rewrite MarkDeadLettered_eq.
  - unfold dead_spec. simpl. destruct (mem_messages s !! id) as [r|] eqn:Hr; [|done].
    case_decide as Hst; [|done]. split; [|done]. split; [done|]. split; [|done]. simpl.
    eapply (index_wf_update _ _ _ id r (dead_record reason at_ r)); try done; [by rewrite Hst|].
    eapply wf_records in Hr as (? & _); [|done].
    eapply record_ok_released; [| | |reflexivity]; [done|unfold stored_state; simpl; tauto|done].
  - intros r Hr. by eapply wf_records in Hr as (_ & ? & _).
Qed.

Lemma Message_implements id :
  implements mem_inv mem_view (mem_Message id) (message_spec id).
Proof.
  intros s Hinv. unfold mem_Message, message_spec, reads. simpl.
  by destruct (mem_messages s !! id).
Qed.

(** ** Dead letters *)

Lemma SaveDeadLetter_implements fresh entry :
  implements mem_inv mem_view (mem_SaveDeadLetter fresh entry) (save_dead_spec fresh entry).
Proof.
  intros s Hinv. pose proof Hinv as [Hopen [Hwf [Hids Hn Hl]]].
  unfold mem_SaveDeadLetter, if_open, save_dead_spec. rewrite Hopen.
  set (e := if str_empty (dl_ID entry) then _ else _). clearbody e. simpl.
  destruct (mem_deadLetters s !! dl_ID e) as [d|] eqn:Hd.
  { by rewrite decide_True by eauto. }
  rewrite decide_False by (by intros []). split; [|done].
  split; [done|]. split; [done|]. simpl. split.
  - intros id d. rewrite lookup_insert. case_decide; [|apply Hids]. intros [= <-]. done.
  - apply NoDup_app. split_and!; [done| |apply NoDup_singleton].
    intros x Hx ->%list_elem_of_singleton. apply Hl in Hx. rewrite Hd in Hx. by destruct Hx.
  - intros id. rewrite elem_of_app, list_elem_of_singleton, lookup_insert, Hl.
    case_decide; subst; naive_solver.
Qed.

Lemma elem_of_remove_first id l x : NoDup l → x ∈ remove_first id l ↔ x ∈ l ∧ x ≠ id.
Proof.
  induction 1 as [|y l Hy Hn IH]; simpl; [set_solver|]. case_decide; set_solver.
Qed.

Lemma remove_first_NoDup id l : NoDup l → NoDup (remove_first id l).
Proof.
  induction 1 as [|y l Hy Hn IH]; simpl; [constructor|]. case_decide; [done|].
  apply NoDup_cons. split; [|done]. rewrite elem_of_remove_first by done. naive_solver.
Qed.

Lemma DeleteDeadLetter_implements id :
  implements mem_inv mem_view (mem_DeleteDeadLetter id) (delete_dead_spec id).
Proof.
  intros s Hinv. pose proof Hinv as [Hopen [Hwf [Hids Hn Hl]]].
  unfold mem_DeleteDeadLetter, delete_dead_spec. simpl.
  destruct (mem_deadLetters s !! id) as [d|] eqn:Hd; [|done]. split; [|done].
  split; [done|]. split; [done|]. simpl. split.
  - intros id' d'. rewrite lookup_delete. case_decide; [done|apply Hids].
  - by apply remove_first_NoDup.
  - intros x. rewrite elem_of_remove_first, lookup_delete, Hl by done. case_decide; [subst|].
    + split; [naive_solver|]. by intros [].
    + naive_solver.
Qed.

Lemma MarkDeadLetterReplayed_implements id as_ at_ :
  implements mem_inv mem_view (mem_MarkDeadLetterReplayed id as_ at_) (mark_replayed_spec id as_ at_).
Proof.
  intros s Hinv. pose proof Hinv as [Hopen [Hwf [Hids Hn Hl]]].
  unfold mem_MarkDeadLetterReplayed, mark_replayed_spec. simpl.
  destruct (mem_deadLetters s !! id) as [d|] eqn:Hd; [|done]. split; [|done].
  split; [done|]. split; [done|]. simpl. split; [|done|].
  - intros id' d'. rewrite lookup_insert. case_decide; [|apply Hids]. intros [= <-]. subst.
    by apply Hids in Hd.
  - intros x. rewrite Hl, lookup_insert. case_decide; [subst; rewrite Hd|]; naive_solver.
Qed.

(** The dead letters of a queue, newest first. *)
Definition newest_dead (queue : string) (m : gmap string DeadLetter) (order : list string) :
    list DeadLetter :=
  filter (dl_matches queue) (omap (fun id => m !! id) (reverse order)).

(** The paging loop is [drop] and [take] on the matching entries. *)
Lemma dead_loop_eq f s ids skipped matched :
  (0 ≤ skipped)%Z →
  dead_loop f s ids skipped matched =
  matched ++ take (Z.to_nat (df_Limit f - Z.of_nat (length matched)))
    (drop (Z.to_nat (df_Offset f - skipped))
       (filter (dl_matches (df_Queue f)) (omap (fun id => mem_deadLetters s !! id) ids))).
Proof.
  revert skipped matched. induction ids as [|id ids IH]; intros skipped matched Hsk.
  { cbn [dead_loop omap list_omap]. by rewrite filter_nil, drop_nil, take_nil, app_nil_r. }
  cbn [dead_loop omap list_omap]. destruct (mem_deadLetters s !! id) as [d|]; [|by apply IH].
  rewrite filter_cons. unfold str_empty.
  assert (negb (bool_decide (df_Queue f = "")) && negb (bool_decide (dl_Queue d = df_Queue f)) = true
          ↔ ¬ dl_matches (df_Queue f) d) as Hm.
  { unfold dl_matches. repeat case_bool_decide; simpl; naive_solver. }
  destruct (negb _ && negb _) eqn:E.
  { rewrite decide_False by (by apply Hm). by apply IH. }
  rewrite decide_True; last first.
  { destruct (decide (dl_matches (df_Queue f) d)) as [|Hno]; [done|]. apply Hm in Hno. congruence. }
  case_match eqn:Hoff.
  - apply Z.ltb_lt in Hoff. rewrite IH by lia.
    replace (Z.to_nat (df_Offset f - skipped)) with (S (Z.to_nat (df_Offset f - (skipped + 1)))) by lia.
    done.
  - apply Z.ltb_ge in Hoff. replace (Z.to_nat (df_Offset f - skipped)) with 0 by lia.
    case_match eqn:Hlim.
    + apply Z.leb_le in Hlim. replace (Z.to_nat (df_Limit f - _)) with 0 by lia.
      by rewrite take_0, app_nil_r.
    + apply Z.leb_gt in Hlim. rewrite IH by lia. rewrite length_app. simpl.
      replace (Z.to_nat (df_Offset f - skipped)) with 0 by lia. rewrite !drop_0.
      replace (Z.to_nat (df_Limit f - Z.of_nat (length matched)))
        with (S (Z.to_nat (df_Limit f - Z.of_nat (length matched + 1)))) by lia.
      by rewrite <-app_assoc.
Qed.

Lemma DeadLetters_eq f s :
  mem_DeadLetters f s =
  (s, Ok (take (Z.to_nat (df_Limit (Normalise f))) (drop (Z.to_nat (df_Offset (Normalise f)))
            (newest_dead (df_Queue f) (mem_deadLetters s) (mem_deadOrder s))))).
Proof.
  unfold mem_DeadLetters, gets. rewrite dead_loop_eq by done. simpl.
  by rewrite !Z.sub_0_r.
Qed.

Lemma newest_dead_ids m l : dead_wf m l → dl_ID <$> omap (fun id => m !! id) (reverse l) = reverse l.
Proof.
  intros [Hids Hn Hl]. assert (∀ id, id ∈ reverse l → is_Some (m !! id)) as Hall.
  { intros id Hid. apply Hl. by apply elem_of_reverse. }
  revert Hall. generalize (reverse l) as k. induction k as [|id k IH]; intros Hall; [done|].
  simpl. destruct (Hall id) as [d Hd]; [set_solver|]. rewrite Hd. simpl.
  f_equal; [by apply Hids|]. apply IH. set_solver.
Qed.

Lemma newest_dead_spec queue m l : dead_wf m l →
  NoDup (dl_ID <$> newest_dead queue m l) ∧
  (∀ d, d ∈ newest_dead queue m l ↔ m !! dl_ID d = Some d ∧ dl_matches queue d) ∧
  size (filter (fun kv => dl_matches queue kv.2) m) = length (newest_dead queue m l).
Proof.
  intros Hwf. pose proof Hwf as [Hids Hn Hl]. unfold newest_dead.
  assert (NoDup (dl_ID <$> filter (dl_matches queue) (omap (fun id => m !! id) (reverse l)))) as Hnd.
  { eapply sublist_NoDup; [|apply fmap_sublist, sublist_filter].
    rewrite newest_dead_ids by done. by rewrite reverse_Permutation. }
  assert (∀ d, d ∈ filter (dl_matches queue) (omap (fun id => m !! id) (reverse l)) ↔
            m !! dl_ID d = Some d ∧ dl_matches queue d) as Hin.
  { intros d. rewrite list_elem_of_filter, list_elem_of_omap. split.
    - intros [Hm (id & _ & Hid)]. by rewrite (Hids _ _ Hid).
    - intros [Hid Hm]. split; [done|]. exists (dl_ID d). split; [|done].
      apply elem_of_reverse, Hl. eauto. }
  split_and!; [done..|]. rewrite <-(length_fmap dl_ID). apply size_filter_list; [done|].
  intros id. rewrite list_elem_of_fmap. setoid_rewrite Hin. split.
  - intros (d & -> & ? & ?). eauto.
  - intros (d & Hid & Hm). exists d. by rewrite (Hids _ _ Hid).
Qed.

Lemma DeadLetters_implements f :
  implements mem_inv mem_view (mem_DeadLetters f) (dead_letters_spec f).
Proof.
  intros s Hinv. pose proof Hinv as [Hopen [Hwf Hdead]]. rewrite DeadLetters_eq. split; [done|].
  split; [|done]. cbn [snd].
  destruct (newest_dead_spec (df_Queue f) _ _ Hdead) as (Hn & Hin & Hsize).
  destruct (Normalise_range f) as [Hlim Hoff].
  set (L := newest_dead _ _ _) in *. eexists. split_and!; [done|..].
  - eapply sublist_NoDup; [exact Hn|]. apply fmap_sublist.
    etrans; [apply sublist_take|apply sublist_drop].
  - intros d Hd. apply subseteq_take, subseteq_drop, Hin in Hd. done.
  - rewrite length_take, length_drop. simpl. rewrite Hsize. simpl in *. lia.
Qed.

Lemma CountDeadLetters_implements queue :
  implements mem_inv mem_view (mem_CountDeadLetters queue) (count_dead_spec queue).
Proof.
  intros s Hinv. split; [done|]. split; [|done]. unfold mem_CountDeadLetters, gets. simpl.
  do 2 f_equal. unfold count_if. rewrite <-(length_fmap fst). symmetry. apply size_filter_list.
  - eapply sublist_NoDup; [apply (NoDup_fst_map_to_list (mem_deadLetters s))|].
    apply fmap_sublist, sublist_filter.
  - intros id. rewrite list_elem_of_fmap. setoid_rewrite list_elem_of_filter.
    unfold dl_matches, str_empty.
    setoid_rewrite orb_true_iff. setoid_rewrite bool_decide_eq_true. split.
    + intros ([id' d] & -> & Hm & Hin%elem_of_map_to_list). eauto.
    + intros (d & Hd & Hm). exists (id, d). by rewrite elem_of_map_to_list.
Qed.

(** ** The instance *)

(** Operations outside the view: they change neither the index nor the dead letters. *)
Ltac solve_frame p :=
  intros s Hinv; pose proof Hinv as [Hopen [Hwf Hdead]];
  unfold p, if_open; rewrite ?Hopen; repeat case_match; done.

Lemma SaveExchange_implements e :
  implements mem_inv mem_view (mem_SaveExchange e) topology_spec.
Proof. solve_frame mem_SaveExchange. Qed.

Lemma SaveBinding_implements b :
  implements mem_inv mem_view (mem_SaveBinding b) topology_spec.
Proof. solve_frame mem_SaveBinding. Qed.

Lemma DeleteBinding_implements spec :
  implements mem_inv mem_view (mem_DeleteBinding spec) topology_spec.
Proof. solve_frame mem_DeleteBinding. Qed.

Lemma SaveQueue_implements q :
  implements mem_inv mem_view (mem_SaveQueue q) (save_queue_spec q).
Proof.
  intros s Hinv. pose proof Hinv as [Hopen [Hwf Hdead]]. unfold mem_SaveQueue, if_open.
  rewrite Hopen. split; [done|]. split; [done|]. unfold mem_view. simpl. by rewrite dom_insert_L.
Qed.

Lemma AppendHistory_implements e :
  implements mem_inv mem_view (mem_AppendHistory e) (append_history_spec e).
Proof. solve_frame mem_AppendHistory. Qed.

Lemma gets_topology_implements {A} (f : Store → A) :
  implements mem_inv mem_view (gets f) topology_spec.
Proof. by intros s Hinv. Qed.

Lemma mem_inv_view_ok s : mem_inv s → astore_ok (mem_view s).
Proof. intros [_ [Hwf Hdead]]. split; [apply Hwf|apply Hdead]. Qed.

Lemma DeadLetter_implements id :
  implements mem_inv mem_view (mem_DeadLetter id) (dead_letter_spec id).
Proof.
  intros s Hinv. unfold mem_DeadLetter, dead_letter_spec, reads. simpl.
  by destruct (mem_deadLetters s !! id).
Qed.

Lemma History_implements id :
  implements mem_inv mem_view (mem_History id) (history_spec id).
Proof. by intros s Hinv. Qed.

Lemma Memory_call {A} (c : call A) s :
  mem_inv s → call_pre c → True →
  mem_inv (run_call c s).1 ∧ call_spec c (mem_view s) (run_call c s).2 (mem_view (run_call c s).1).
Proof.
  intros Hinv Hpre _. revert s Hinv. change (implements mem_inv mem_view (run_call c) (call_spec c)).
  destruct c;
    first [apply SaveQueue_implements | apply DeleteQueue_implements | by apply Append_implements
          | apply Message_implements | by apply Claim_implements | apply Acknowledge_implements
          | apply ScheduleRetry_implements | apply Release_implements
          | apply MarkDeadLettered_implements | apply ExpiredLeases_implements
          | apply Depth_implements | apply Purge_implements | apply SaveDeadLetter_implements
          | apply DeadLetters_implements | apply DeadLetter_implements
          | apply MarkDeadLetterReplayed_implements | apply DeleteDeadLetter_implements
          | apply CountDeadLetters_implements | apply AppendHistory_implements
          | apply History_implements].
Qed.

#[export] Instance Memory_contract : StoreContract Store := {
  store_inv := mem_inv;
  store_view := mem_view;
  store_pre _ _ _ := True;
  law_ok := mem_inv_view_ok;
  law_SaveExchange := SaveExchange_implements;
  law_Exchanges := gets_topology_implements _;
  law_Queues := gets_topology_implements _;
  law_SaveBinding := SaveBinding_implements;
  law_Bindings := gets_topology_implements _;
  law_DeleteBinding := DeleteBinding_implements;
  law_call _ := Memory_call;
}.

#[export] Instance Memory_unrestricted : Unrestricted Store := fun _ _ _ => I.
