(* ===== verification/MemoryClaims.v ===== *)
(** What the in-memory store promises: the theorems about [Memory.v], each on
    the state any sequence of calls leads to. *)

From S2P Require Import Prelude Errors Message Broker Storage StoreTraces Memory MemoryProofs.

(** The store after a sequence of calls on a new one. *)
Definition reached (cs : list any_call) : Store := (run_calls cs mem_New).1.

Lemma reached_inv cs : calls_pre cs → mem_inv (reached cs).
Proof.
  intros Hpre. exact (proj1 (run_calls_refines (S:=Store) cs mem_New mem_New_inv (calls_pre_ok _ _ Hpre))).
Qed.

(** * Properties *)

(** C2: Every sequence of calls on a new in-memory store, of any length and
    with any arguments a caller may pass, behaves as the abstract store of the
    contract: each result is one the contract allows, the final state shows
    the abstract state it prescribes, and the internal index (arrival order,
    settled counters, dead-letter list) is consistent with the messages. *)
Theorem memory_refines_contract cs :
  calls_pre cs →
  abstract_run cs (mkAStore ∅ ∅ ∅ ∅) (run_calls cs mem_New).2 (mem_view (reached cs)) ∧
  mem_wf (reached cs) ∧ mem_closed (reached cs) = false.
Proof.
  intros Hpre. destruct (reached_inv cs Hpre) as [Hc Hwf]. split_and!; [|done..].
  exact (proj2 (run_calls_refines (S:=Store) cs mem_New mem_New_inv (calls_pre_ok _ _ Hpre))).
Qed.

(** No message is lost and none moves backwards: once a message is in the
    store, after any further calls it is still there with the same identity,
    queue, payload, headers and creation time, its state reached along the
    edges of the life cycle, and bit for bit the same if it was settled;
    unless one of the calls purged or deleted its queue (and a purge leaves
    settled messages alone). *)
Theorem memory_conserves_messages before after id r :
  calls_pre before → calls_pre after →
  mem_messages (reached before) !! id = Some r →
  (∃ r', mem_messages (run_calls after (reached before)).1 !! id = Some r' ∧ evolves r r') ∨
  any_removes after r.
Proof.
  intros Hb Ha Hid.
  exact (trace_conserves (S:=Store) after (reached before) id r (reached_inv before Hb)
    (calls_pre_ok _ _ Ha) Hid).
Qed.

(** C5: A lease is exclusive: while a message is leased, no claim by any
    consumer on any queue returns it, and its record (holder, expiry, attempts
    and content) stays as the claim left it, through any calls that are not an
    acknowledgement, retry, release or dead-lettering of that very message or
    the removal of its queue's messages. *)
Theorem memory_lease_exclusive before after id r :
  calls_pre before → calls_pre after →
  mem_messages (reached before) !! id = Some r → rec_State r = StateProcessing →
  Forall (fun c => ¬ releases id (projT2 c) ∧ ¬ removes (projT2 c) r) after →
  mem_messages (run_calls after (reached before)).1 !! id = Some r ∧
  id ∉ deliveries after (reached before).
Proof.
  intros Hb Ha Hid Hp Hcs.
  exact (lease_stable_trace (S:=Store) after (reached before) id r (reached_inv before Hb)
    (calls_pre_ok _ _ Ha) Hid Hp Hcs).
Qed.

(** C16: [Claim] is first in, first out and exact: in a well-formed store it
    returns copies of the first [Limit] messages of the queue, in arrival
    order, among those queued or awaiting a retry whose time has come; these
    become leased to the caller until [Now + Lease] with one more attempt, no
    other message changes, the arrival order of open messages of every queue
    stays, and the call never fails. *)
Theorem Claim_correct req s :
  mem_inv s → (0 ≤ cr_Limit req)%Z →
  let ids := take (Z.to_nat (cr_Limit req))
               (filter (fun id => ready_in req (mem_messages s) id = true)
                  (order_of s (cr_Queue req))) in
  ∃ s', mem_Claim req s = (s', Ok (messages_of (mem_messages s') ids)) ∧
    (∀ id, mem_messages s' !! id =
           if decide (id ∈ ids) then claim_record req <$> mem_messages s !! id
           else mem_messages s !! id) ∧
    (∀ q, open_ids (mem_messages s) (order_of s' q) = open_ids (mem_messages s) (order_of s q)) ∧
    mem_inv s'.
Proof.
  intros Hinv Hlim ids. pose proof (Claim_implements req Hlim s Hinv) as [Hinv' _].
  destruct (Claim_eq req s Hinv Hlim) as (l & n & Heq & Hwf & Hopen & Hfr).
  rewrite Heq in Hinv'. eexists. split_and!; [exact Heq| | |exact Hinv'].
  - intros id. apply lookup_claim_all.
  - intros q. unfold order_of. simpl. destruct (decide (q = cr_Queue req)) as [->|Hne]; [done|].
    by rewrite Hfr.
Qed.

(** Compaction is invisible and safe: in a well-formed store it never
    asks for a negative capacity, changes no message, drops only settled ids
    from the index of the one queue, keeps the open ones in order and leaves
    the settled counter equal to the number of settled ids still indexed. *)
Theorem compactLocked_correct q s :
  mem_wf s →
  ∃ s', compactLocked q s = (s', Ok tt) ∧
    mem_messages s' = mem_messages s ∧ mem_wf s' ∧
    (∀ q', open_ids (mem_messages s) (order_of s' q') = open_ids (mem_messages s) (order_of s q')) ∧
    settled_of s' q = Z.of_nat (count_if (isSettledLocked s') (order_of s' q)).
Proof.
  intros [Hwf Hdead]. destruct (compactLocked_spec q s Hwf) as (l & n & Heq & Hwf' & Hopen & Hfr).
  eexists. split_and!; [exact Heq|done|done| |apply Hwf'].
  intros q'. unfold order_of. simpl. destruct (decide (q' = q)) as [->|Hne]; [done|]. by rewrite Hfr.
Qed.

(** The [i]-th page of [n] dead letters of a queue. *)
Definition dead_page (queue : string) (n i : nat) (s : Store) : list DeadLetter :=
  match (mem_DeadLetters (mkDeadLetterFilter queue (Z.of_nat n) (Z.of_nat (i * n))) s).2 with
  | Ok ds => ds
  | Err _ => []
  end.

(** Paging through the dead letters misses and repeats nothing: with a
    page size of 1 to 500, the first [k] pages concatenated are the dead
    letters of the queue (of all queues for the empty name) from the newest
    on, as far as [k] pages reach; and that list holds every matching dead
    letter exactly once. *)
Theorem DeadLetters_pages queue n k s :
  mem_wf s → 1 ≤ n ≤ 500 →
  concat ((fun i => dead_page queue n i s) <$> seq 0 k) =
    take (k * n) (newest_dead queue (mem_deadLetters s) (mem_deadOrder s)) ∧
  NoDup (dl_ID <$> newest_dead queue (mem_deadLetters s) (mem_deadOrder s)) ∧
  (∀ d, d ∈ newest_dead queue (mem_deadLetters s) (mem_deadOrder s) ↔
        mem_deadLetters s !! dl_ID d = Some d ∧ (queue = "" ∨ dl_Queue d = queue)).
Proof.
  intros [_ Hdead] Hn. destruct (newest_dead_spec queue _ _ Hdead) as (Hnd & Hin & _).
  split_and!; [|done|done]. rewrite <-concat_pages. f_equal. apply list_fmap_ext. intros i x _.
  unfold dead_page. rewrite DeadLetters_eq. unfold Normalise, maxPageSize. simpl.
  rewrite (proj2 (orb_false_iff _ _)) by (split; [apply Z.leb_gt; lia|apply Z.ltb_ge; lia]).
  rewrite (proj2 (Z.ltb_ge _ _)) by lia. by rewrite !Nat2Z.id.
Qed.

(** * Witnesses *)

Module Samples.
Definition msg (id queue : string) : Message :=
  mkMessage id "erp.events" "invoice.issued" queue "" "{}" ∅ StateQueued 0 3 "" 100 100 100.
Definition queue : Queue := mkQueue (mkQueueSpec "invoices" true 3 (30 * second) "") 1.
Definition claim (consumer : string) (limit now : Z) : ClaimRequest :=
  mkClaimRequest "invoices" consumer limit (30 * second) now.
Definition letter (id : string) : DeadLetter :=
  mkDeadLetter id "m9" "invoices" "erp.events" "invoice.issued" "" "{}" ∅ "boom" "handler" 3
    1 2 3 "" zeroTime 0.

Definition before : list any_call :=
  [existT _ (CSaveQueue queue);
   existT _ (CAppend [msg "m1" "invoices"; msg "m2" "invoices"; msg "m3" "invoices"]);
   existT _ (CClaim (claim "worker-a" 2 1000))].
Definition after : list any_call :=
  [existT _ (CClaim (claim "worker-b" 5 2000));
   existT _ (CAcknowledge "m2" 2500);
   existT _ (CScheduleRetry (mkRetryRequest "m3" 1 "boom" 9000 2600));
   existT _ (CDepth "invoices")].
Definition leased_m1 : record :=
  claim_record (claim "worker-a" 2 1000) (mkRecord (msg "m1" "invoices") zeroTime "").
Definition dead : list any_call :=
  [existT _ (CSaveDeadLetter "x" (letter "d1")); existT _ (CSaveDeadLetter "y" (letter ""));
   existT _ (CSaveDeadLetter "z" (letter "d3"))].

Lemma before_pre : calls_pre before.
Proof.
  repeat (apply Forall_cons; split); try done. split; [|by repeat constructor].
  by apply (bool_decide_eq_true_1 (NoDup ["m1"; "m2"; "m3"])).
Qed.
Lemma after_pre : calls_pre after.
Proof. repeat (apply Forall_cons; split); done. Qed.
Lemma dead_pre : calls_pre dead.
Proof. repeat (apply Forall_cons; split); done. Qed.
Lemma m1_leased : mem_messages (reached before) !! "m1" = Some leased_m1.
Proof. vm_compute. reflexivity. Qed.
End Samples.

Lemma memory_refines_contract_witness :
  mem_wf (reached (Samples.before ++ Samples.after)) ∧
  length (mem_order (reached Samples.before) !!! "invoices") = 3.
Proof.
  split; [|reflexivity].
  apply (memory_refines_contract (Samples.before ++ Samples.after)).
  apply Forall_app. split; [exact Samples.before_pre|exact Samples.after_pre].
Defined.

Lemma memory_conserves_messages_witness :
  (∃ r', mem_messages (run_calls Samples.after (reached Samples.before)).1 !! "m1" = Some r' ∧
         evolves Samples.leased_m1 r') ∨ any_removes Samples.after Samples.leased_m1.
Proof.
  apply (memory_conserves_messages Samples.before Samples.after "m1" Samples.leased_m1).
  - exact Samples.before_pre.
  - exact Samples.after_pre.
  - exact Samples.m1_leased.
Defined.

Lemma memory_lease_exclusive_witness :
  mem_messages (run_calls Samples.after (reached Samples.before)).1 !! "m1" = Some Samples.leased_m1 ∧
  "m1" ∉ deliveries Samples.after (reached Samples.before).
Proof.
  apply (memory_lease_exclusive Samples.before Samples.after "m1" Samples.leased_m1).
  - exact Samples.before_pre.
  - exact Samples.after_pre.
  - exact Samples.m1_leased.
  - reflexivity.
  - unfold Samples.after. repeat (apply Forall_cons; split; 
      [split; simpl; first [tauto|intros Hx; discriminate Hx]|]). by apply Forall_nil.
Defined.

Lemma Claim_correct_witness :
  ∃ s', mem_Claim (Samples.claim "worker-b" 5 2000) (reached Samples.before) =
          (s', Ok (messages_of (mem_messages s') ["m3"])) ∧ mem_inv s'.
Proof.
  destruct (Claim_correct (Samples.claim "worker-b" 5 2000) (reached Samples.before))
    as (s' & Heq & _ & _ & Hinv).
  - apply reached_inv. exact Samples.before_pre.
  - simpl. lia.
  - exists s'. split; [|exact Hinv]. rewrite Heq. reflexivity.
Defined.

Lemma compactLocked_correct_witness :
  ∃ s', compactLocked "invoices" (reached (Samples.before ++ Samples.after)) = (s', Ok tt) ∧ mem_wf s'.
Proof.
  destruct (compactLocked_correct "invoices" (reached (Samples.before ++ Samples.after)))
    as (s' & Heq & _ & Hwf & _).
  - apply reached_inv, Forall_app. split; [exact Samples.before_pre|exact Samples.after_pre].
  - exists s'. split; [exact Heq|exact Hwf].
Defined.

Lemma DeadLetters_pages_witness :
  dl_ID <$> concat ((fun i => dead_page "invoices" 2 i (reached Samples.dead)) <$> seq 0 2) =
  ["d3"; "y"; "d1"].
Proof.
  destruct (DeadLetters_pages "invoices" 2 2 (reached Samples.dead)) as [-> _].
  - apply reached_inv. exact Samples.dead_pre.
  - lia.
  - reflexivity.
Defined.
