(* ===== verification/MemoryTopology.v ===== *)
(** The in-memory store keeps a topology exactly ([TopologyStore.v]). *)

From S2P Require Import Prelude Errors Message Broker BrokerProofs Storage TopologyStore Memory.

Record memory_topo_ok (s : Store) : Prop := {
  mt_open : mem_closed s = false;
  mt_exchanges : ∀ n x, mem_exchanges s !! n = Some x → ex_Name x = n;
  mt_queues : ∀ n q, mem_queues s !! n = Some q → q_Name q = n;
  mt_bindings : ∀ k b, mem_bindings s !! k = Some b → bindingKey (b_Spec b) = k ∧ spec_named (b_Spec b);
}.

Definition memory_topology (s : Store) : topology :=
  mkTopo (mem_exchanges s) (mem_queues s) (list_to_set (map_to_list (mem_bindings s)).*2).

Lemma elem_of_memory_bindings (m : gmap string Binding) b :
  b ∈ (list_to_set (map_to_list m).*2 : gset Binding) ↔ ∃ k, m !! k = Some b.
Proof.
  rewrite elem_of_list_to_set, list_elem_of_fmap. split.
  - intros ([k b'] & -> & Hin%elem_of_map_to_list). eauto.
  - intros [k Hk%elem_of_map_to_list]. by exists (k, b).
Qed.

Lemma values_NoDup {A} (name : A → string) (m : gmap string A) :
  (∀ k x, m !! k = Some x → name x = k) → NoDup (name <$> (map_to_list m).*2).
Proof.
  intros Hname. assert (name <$> (map_to_list m).*2 = (map_to_list m).*1) as ->.
  { rewrite <-list_fmap_compose. apply list_fmap_ext. intros i [k x] Hi. simpl. apply Hname.
    apply elem_of_map_to_list. by eapply list_elem_of_lookup_2. }
  apply NoDup_fst_map_to_list.
Qed.

Lemma lists_values {A} (name : A → string) (m : gmap string A) :
  (∀ n x, m !! n = Some x → name x = n) → lists name m (sort_by name (map_to_list m).*2).
Proof.
  intros Hname. split.
  - rewrite sort_by_perm. by apply values_NoDup.
  - intros x. rewrite elem_of_sort_by, list_elem_of_fmap. split.
    + intros ([k x'] & -> & Hin%elem_of_map_to_list). simpl. by rewrite (Hname k x' Hin).
    + intros Hx. exists (name x, x). split; [done|]. by apply elem_of_map_to_list.
Qed.

Lemma keep_timeout_id q : keep_timeout (fun d => d) q = q.
Proof. by destruct q as [[] ?]. Qed.

(** Two stored bindings with the same key are the same. *)
Lemma memory_key b b' s :
  memory_topo_ok s → spec_named (b_Spec b) → mem_bindings s !! bindingKey (b_Spec b) = Some b' →
  b_Spec b' = b_Spec b.
Proof. intros [_ _ _ Hb] Hn Hlk. destruct (Hb _ _ Hlk) as [Hk Hn']. by apply named_key_inj. Qed.

Lemma memory_SaveBinding b s :
  memory_topo_ok s → spec_named (b_Spec b) →
  (∀ b', b' ∈ tp_bindings (memory_topology s) → b_Spec b' = b_Spec b → b' = b) →
  ∃ s', mem_SaveBinding b s = (s', Ok tt) ∧ memory_topo_ok s' ∧
    memory_topology s' = mkTopo (mem_exchanges s) (mem_queues s) ({[b]} ∪ tp_bindings (memory_topology s)).
Proof.
  intros Hok Hn Hsame. unfold mem_SaveBinding, if_open. rewrite (mt_open _ Hok). eexists. split; [done|].
  split.
  - destruct Hok. split; simpl; try done. intros k b'. rewrite lookup_insert. case_decide; [|apply mt_bindings0].
    intros [= <-]. done.
  - unfold memory_topology. simpl. f_equal. apply set_eq. intros b'.
    rewrite elem_of_union, elem_of_singleton, !elem_of_memory_bindings. split.
    + intros [k Hk]. rewrite lookup_insert in Hk. case_decide; [left; congruence|eauto].
    + intros [->|[k Hk]]; [exists (bindingKey (b_Spec b)); by rewrite lookup_insert_eq|].
      destruct (decide (bindingKey (b_Spec b) = k)) as [<-|Hne]; [|exists k; by rewrite lookup_insert_ne].
      exists (bindingKey (b_Spec b)). rewrite lookup_insert_eq. f_equal. symmetry. apply Hsame.
      * apply elem_of_memory_bindings. eauto.
      * by eapply memory_key.
Qed.

Lemma memory_DeleteBinding spec s :
  memory_topo_ok s → spec_named spec →
  ∃ s' r, mem_DeleteBinding spec s = (s', r) ∧ memory_topo_ok s' ∧
    memory_topology s' = mkTopo (mem_exchanges s) (mem_queues s)
      (filter (fun b => b_Spec b ≠ spec) (tp_bindings (memory_topology s))) ∧
    (r = Ok tt ∨ r = Err (StorageErr ErrNotFound)).
Proof.
  intros Hok Hn. unfold mem_DeleteBinding.
  assert (∀ b, mem_bindings s !! bindingKey spec = Some b → b_Spec b = spec) as Hspec.
  { intros b. exact (memory_key (mkBinding spec 0) b s Hok Hn). }
  destruct (mem_bindings s !! bindingKey spec) as [b0|] eqn:Hb.
  - eexists _, _. split; [done|]. split_and!; [..|by left].
    + destruct Hok. split; simpl; try done. intros k b. rewrite lookup_delete_Some. intros [_ Hk]. by apply mt_bindings0.
    + unfold memory_topology. simpl. f_equal. apply set_eq. intros b.
      rewrite elem_of_filter, !elem_of_memory_bindings. split.
      * intros [k [Hne Hk]%lookup_delete_Some]. split; [|eauto]. intros <-. apply Hne.
        by destruct (mt_bindings _ Hok _ _ Hk).
      * intros [Hne [k Hk]]. exists k. rewrite lookup_delete_ne; [done|]. intros <-. apply Hne. apply Hspec. congruence.
  - eexists _, _. split; [done|]. split_and!; [done| |by right].
    unfold memory_topology. f_equal. apply set_eq. intros b. rewrite elem_of_filter. split; [|naive_solver].
    intros Hin. split; [|done]. intros <-. apply elem_of_memory_bindings in Hin as [k Hk].
    destruct (mt_bindings _ Hok _ _ Hk) as [E _]. rewrite E in Hb. congruence.
Qed.

#[export] Instance Memory_topology : TopologyStore Store.
Proof.
  refine {| ts_ok := memory_topo_ok; ts_view := memory_topology; ts_time _ := True;
            ts_duration _ := True; ts_kept d := d |}.
  - done.
  - intros x s Hok _ Hx. eexists. split; [cbn; unfold mem_SaveExchange, if_open; by rewrite (mt_open _ Hok)|].
    split; [|done]. destruct Hok. split; simpl; try done. intros n y. rewrite lookup_insert.
    case_decide; [intros [= <-]; done|apply mt_exchanges0].
  - intros q s Hok _ _ Hq. rewrite keep_timeout_id.
    eexists. split; [cbn; unfold mem_SaveQueue, if_open; by rewrite (mt_open _ Hok)|].
    split; [|done]. destruct Hok. split; simpl; try done. intros n y. rewrite lookup_insert.
    case_decide; [intros [= <-]; done|apply mt_queues0].
  - intros name s Hok. cbn. unfold mem_DeleteQueue. destruct (mem_queues s !! name) as [q|] eqn:Hq.
    + eexists _, _. split; [done|]. split_and!; [|done|by left].
      destruct Hok. split; simpl; try done. intros n y [_ Hn]%lookup_delete_Some. by apply mt_queues0.
    + eexists _, _. split; [done|]. split_and!; [done| |by right].
      unfold memory_topology. simpl. by rewrite delete_id.
  - intros b s Hok _ Hn Hsame. by apply memory_SaveBinding.
  - intros spec s Hok Hn. by apply memory_DeleteBinding.
  - intros s Hok. eexists _, _. split_and!; [done..|]. apply lists_values, mt_exchanges. done.
  - intros s Hok. eexists _, _. split_and!; [done..|]. apply lists_values, mt_queues. done.
  - intros s Hok. eexists _, _. split_and!; [done..| |].
    + rewrite sort_by_perm. eapply (NoDup_fmap_1 (fun b => bindingKey (b_Spec b))).
      apply values_NoDup. intros k b Hb. by destruct (mt_bindings _ Hok _ _ Hb).
    + intros b. rewrite elem_of_sort_by. cbn. by rewrite elem_of_list_to_set.
Defined.
