(* ===== verification/Conformance.v ===== *)
(** The conformance suite of the stores: [internal/storage/storagetest/suite.go].

    A test is a program on a store that stops at the first [t.Fatal] with its
    text (of [t.Fatalf], the format).  Both back ends are run through all of
    it, each test on a store of its own. *)

From S2P Require Import Prelude Errors MessageId Message Broker TimeText Storage StoreTraces.
From S2P Require Import SqlConn Sqlite SqlConnProofs SqliteTables SqliteProofs SqliteContract.
From S2P Require Import SqliteFaults SqliteClaims Memory MemoryProofs.

Local Open Scope Z_scope.

(** [time.Date(2025, time.June, 18, 9, 0, 0, 0, time.UTC)] *)
Definition base : Time := make_time 2025 6 18 9 0 0 0.

Section suite.
Context {S : Type} `{StoreOps S}.

(** What [message.NewID] draws: the entropy of the [i]-th message, and the id
    given to a dead letter without one. *)
Context (entropy : nat → list N) (fresh : string).

Definition Fatal (text : string) : prog S unit := fails (errorString text).

(** [if err := ...; err != nil { t.Fatalf(...) }] *)
Definition must {A} (text : string) (p : prog S A) : prog S A := fun s =>
  match p s with
  | (s', Err _) => (s', Err (errorString text))
  | ok => ok
  end.

(** [if !cond { t.Fatalf(...) }] *)
Definition expect (text : string) (cond : bool) : prog S unit := if cond then mret tt else Fatal text.

(** [if err := ...; !errors.Is(err, target) { t.Fatalf(...) }] *)
Definition must_be {A} (target : storage_sentinel) (p : prog S A) : prog S unit :=
  r ← attempting p;
  match r with
  | Err e => expect "expected another error" (errors_Is e (SStorage target))
  | Ok _ => Fatal "expected another error"
  end.

Definition queue_name : string := "invoice-processing".

Definition seedQueue (name : string) : prog S Queue :=
  let queue := mkQueue (mkQueueSpec name true 3 (30 * second) "") base in
  _ ← must "save queue: %v" (st_SaveQueue queue);
  mret queue.

Definition invoice_payload (id : string) : string :=
  "{" +:+ dquote +:+ "invoice_id" +:+ dquote +:+ ":" +:+ dquote +:+ id +:+ dquote +:+ "}".

(** The body of the loop of [seedMessages]. *)
Definition seed_message (queue : string) (i : nat) : result error Message :=
  let msg := New (mkPublication "erp.events" "invoice.issued" (invoice_payload "INV-1")
                    {["tenant" := "acme"]} "")
               queue (base + Z.of_nat i * millisecond) (entropy i) in
  Transition StateQueued base (set_AvailableAt base (set_MaxAttempts 3 msg)).

Fixpoint seed_loop (queue : string) (indices : list nat) (messages : list Message) : prog S (list Message) :=
  match indices with
  | [] => mret messages
  | i :: rest => fun s =>
      match seed_message queue i with
      | Err _ => (s, Err (errorString "transition: %v"))
      | Ok msg => seed_loop queue rest (messages ++ [msg]) s
      end
  end.

Definition seedMessages (queue : string) (count : nat) : prog S (list Message) :=
  messages ← seed_loop queue (seq 0 count) [];
  _ ← must "append: %v" (st_Append messages);
  mret messages.

(** [xs[0]] on a list whose length has been checked. *)
Definition at_index {A} (i : nat) (xs : list A) : prog S A :=
  match xs !! i with
  | Some x => mret x
  | None => fails (RuntimePanic "runtime error: index out of range")
  end.

Definition claim_request (consumer : string) (limit : Z) (lease : Duration) (now : Time) : ClaimRequest :=
  mkClaimRequest queue_name consumer limit lease now.

Definition claimOne (queue : string) (now : Time) : prog S Message :=
  claimed ← must "claim: %v" (st_Claim (mkClaimRequest queue "worker-1" 1 (30 * second) now));
  _ ← expect "expected one claimed message, got %d" (bool_decide (length claimed = 1%nat));
  at_index 0 claimed.

(** * The tests *)

Definition testTopologyRoundTrip : prog S unit :=
  let exchange := mkExchange (mkExchangeSpec "erp.events" ExchangeTopic true) base in
  _ ← must "save exchange: %v" (st_SaveExchange exchange);
  queue ← seedQueue queue_name;
  let spec := mkBindingSpec "erp.events" (q_Name queue) "invoice.*" in
  let binding := mkBinding spec base in
  _ ← must "save binding: %v" (st_SaveBinding binding);
  exchanges ← must "exchanges: %v" st_Exchanges;
  _ ← expect "unexpected exchanges %+v" (bool_decide ((ex_Kind <$> exchanges) = [ExchangeTopic]));
  queues ← must "queues: %v" st_Queues;
  _ ← expect "unexpected queues %+v" (bool_decide ((q_VisibilityTimeout <$> queues) = [30 * second]));
  bindings ← must "bindings: %v" st_Bindings;
  _ ← expect "unexpected bindings %+v" (bool_decide ((b_RoutingKey <$> bindings) = ["invoice.*"]));
  _ ← must "delete binding: %v" (st_DeleteBinding spec);
  must_be ErrNotFound (st_DeleteBinding spec).

Definition testAppendAndFetch : prog S unit :=
  _ ← seedQueue queue_name; seeded ← seedMessages queue_name 1;
  first ← at_index 0 seeded;
  fetched ← must "message: %v" (st_Message (msg_ID first));
  _ ← expect "expected QUEUED, got %s" (bool_decide (msg_State fetched = StateQueued));
  _ ← expect "payload not preserved: %s" (bool_decide (msg_Payload fetched = invoice_payload "INV-1"));
  _ ← expect "headers not preserved: %+v" (bool_decide (msg_Headers fetched !! "tenant" = Some "acme"));
  _ ← expect "timestamp drift: %s != %s" (bool_decide (msg_CreatedAt fetched = msg_CreatedAt first));
  must_be ErrNotFound (st_Message "does-not-exist").

Definition testAppendRejectsDuplicates : prog S unit :=
  _ ← seedQueue queue_name; seeded ← seedMessages queue_name 1;
  must_be ErrConflict (st_Append seeded).

Definition testClaimRespectsOrderAndLimit : prog S unit :=
  _ ← seedQueue queue_name; seeded ← seedMessages queue_name 5;
  claimed ← must "claim: %v" (st_Claim (claim_request "worker-1" 2 minute base));
  _ ← expect "expected 2 messages, got %d" (bool_decide (length claimed = 2%nat));
  _ ← expect "expected first in first out delivery order"
        (bool_decide ((msg_ID <$> claimed) = (msg_ID <$> take 2 seeded)));
  for_each (fun msg =>
    _ ← expect "expected PROCESSING, got %s" (bool_decide (msg_State msg = StateProcessing));
    expect "expected attempt counter 1, got %d" (msg_Attempts msg =? 1)) claimed.

Definition testClaimSkipsFutureAvailability : prog S unit :=
  _ ← seedQueue queue_name; seeded ← seedMessages queue_name 1;
  claimed ← claimOne queue_name base;
  _ ← must "schedule retry: %v" (st_ScheduleRetry
        (mkRetryRequest (msg_ID claimed) 1 "downstream timeout" (base + minute) base));
  early ← must "claim: %v" (st_Claim (claim_request "" 10 minute (base + 30 * second)));
  _ ← expect "expected no messages before backoff elapsed, got %d" (bool_decide (length early = 0%nat));
  late ← must "claim: %v" (st_Claim (claim_request "" 10 minute (base + 2 * minute)));
  _ ← expect "expected retried message to become claimable, got %d"
        (bool_decide ((msg_ID <$> late) = (msg_ID <$> seeded)));
  msg ← at_index 0 late;
  expect "expected attempt counter 2, got %d" (msg_Attempts msg =? 2).

Definition testClaimIsExclusive : prog S unit :=
  _ ← seedQueue queue_name; _ ← seedMessages queue_name 1;
  _ ← claimOne queue_name base;
  second_ ← must "claim: %v" (st_Claim (claim_request "" 10 minute base));
  expect "expected leased message to be invisible, got %d" (bool_decide (length second_ = 0%nat)).

Definition testAcknowledge : prog S unit :=
  _ ← seedQueue queue_name; _ ← seedMessages queue_name 1;
  claimed ← claimOne queue_name base;
  _ ← must "acknowledge: %v" (st_Acknowledge (msg_ID claimed) (base + second));
  stored ← must "message: %v" (st_Message (msg_ID claimed));
  expect "expected ACKNOWLEDGED, got %s" (bool_decide (msg_State stored = StateAcknowledged)).

Definition testAcknowledgeRequiresLease : prog S unit :=
  _ ← seedQueue queue_name; seeded ← seedMessages queue_name 1;
  first ← at_index 0 seeded;
  r ← attempting (st_Acknowledge (msg_ID first) base);
  match r with
  | Err e => expect "expected StateError, got %v" (errors_As_StateError e)
  | Ok _ => Fatal "expected StateError, got %v"
  end.

Definition testScheduleRetry : prog S unit :=
  _ ← seedQueue queue_name; _ ← seedMessages queue_name 1;
  claimed ← claimOne queue_name base;
  _ ← must "schedule retry: %v" (st_ScheduleRetry
        (mkRetryRequest (msg_ID claimed) 1 "connection refused" (base + 2 * second) (base + second)));
  stored ← must "message: %v" (st_Message (msg_ID claimed));
  _ ← expect "expected RETRYING, got %s" (bool_decide (msg_State stored = StateRetrying));
  _ ← expect "expected failure reason to be recorded, got %q"
        (bool_decide (msg_LastError stored = "connection refused"));
  expect "unexpected availability %s" (bool_decide (msg_AvailableAt stored = base + 2 * second)).

Definition testRelease : prog S unit :=
  _ ← seedQueue queue_name; _ ← seedMessages queue_name 1;
  claimed ← claimOne queue_name base;
  _ ← must "release: %v" (st_Release (msg_ID claimed) (base + second));
  again ← must "claim: %v" (st_Claim (claim_request "" 1 minute (base + 2 * second)));
  expect "expected released message to be claimable again" (bool_decide (length again = 1%nat)).

Definition testMarkDeadLettered : prog S unit :=
  _ ← seedQueue queue_name; _ ← seedMessages queue_name 1;
  claimed ← claimOne queue_name base;
  _ ← must "mark dead lettered: %v"
        (st_MarkDeadLettered (msg_ID claimed) "retries exhausted" (base + second));
  stored ← must "message: %v" (st_Message (msg_ID claimed));
  expect "expected DEAD_LETTERED, got %s" (bool_decide (msg_State stored = StateDeadLettered)).

Definition testExpiredLeases : prog S unit :=
  _ ← seedQueue queue_name; _ ← seedMessages queue_name 1;
  claimed ← claimOne queue_name base;
  none ← must "expired leases: %v" (st_ExpiredLeases (base + 10 * second) 0);
  _ ← expect "expected live lease to be untouched, got %d" (bool_decide (length none = 0%nat));
  expired ← must "expired leases: %v" (st_ExpiredLeases (base + minute) 0);
  _ ← expect "expected the expired lease to be reported, got %+v"
        (bool_decide ((msg_ID <$> expired) = [msg_ID claimed]));
  first ← at_index 0 expired;
  _ ← expect "expired leases must not change state, got %s"
        (bool_decide (msg_State first = StateProcessing));
  _ ← must "release: %v" (st_Release (msg_ID claimed) (base + minute));
  settled ← must "expired leases: %v" (st_ExpiredLeases (base + 2 * minute) 0);
  expect "expected released message to drop its lease, got %d" (bool_decide (length settled = 0%nat)).

Definition testDepth : prog S unit :=
  _ ← seedQueue queue_name; _ ← seedMessages queue_name 3;
  claimed ← claimOne queue_name base;
  _ ← must "schedule retry: %v" (st_ScheduleRetry
        (mkRetryRequest (msg_ID claimed) 1 "boom" (base + 60 * minute) base));
  _ ← claimOne queue_name base;
  depth ← must "depth: %v" (st_Depth queue_name);
  _ ← expect "unexpected depth %+v" (bool_decide (depth = mkDepth 1 1 1 3));
  must_be ErrNotFound (st_Depth "unknown").

Definition testPurge : prog S unit :=
  _ ← seedQueue queue_name; _ ← seedMessages queue_name 4;
  claimed ← claimOne queue_name base;
  _ ← must "acknowledge: %v" (st_Acknowledge (msg_ID claimed) base);
  purged ← must "purge: %v" (st_Purge queue_name);
  _ ← expect "expected 3 purged messages, got %d" (purged =? 3);
  depth ← must "depth: %v" (st_Depth queue_name);
  expect "expected empty queue, got %+v" (d_Total depth =? 0).

Definition testDeadLetterLifecycle : prog S unit :=
  _ ← seedQueue queue_name;
  let entry := mkDeadLetter "" "abc123" queue_name "erp.events" "invoice.issued" ""
    (invoice_payload "INV-9") {["tenant" := "acme"]} "downstream returned 500" "handler" 3
    base (base + second) (base + 10 * second) "" zeroTime 0 in
  entry ← must "save dead letter: %v" (st_SaveDeadLetter fresh entry);
  _ ← expect "expected generated dead letter identifier" (negb (str_empty (dl_ID entry)));
  fetched ← must "dead letter: %v" (st_DeadLetter (dl_ID entry));
  _ ← expect "unexpected dead letter %+v"
        (bool_decide (dl_Reason fetched = dl_Reason entry) && (dl_Attempts fetched =? 3));
  listed ← must "dead letters: %v" (st_DeadLetters (mkDeadLetterFilter queue_name 0 0));
  _ ← expect "expected 1 dead letter, got %d" (bool_decide (length listed = 1%nat));
  count ← must "count dead letters: %v" (st_CountDeadLetters queue_name);
  _ ← expect "expected count 1, got %d" (count =? 1);
  _ ← must "mark replayed: %v" (st_MarkDeadLetterReplayed (dl_ID entry) "replay-1" (base + minute));
  replayed ← must "dead letter: %v" (st_DeadLetter (dl_ID entry));
  _ ← expect "expected replay metadata to be recorded, got %+v"
        (bool_decide (dl_ReplayedAs replayed = "replay-1") && (dl_ReplayCount replayed =? 1));
  _ ← expect "unexpected replay timestamp %s" (bool_decide (dl_ReplayedAt replayed = base + minute));
  _ ← must_be ErrNotFound (st_MarkDeadLetterReplayed "missing" "replay-2" base);
  _ ← must "delete dead letter: %v" (st_DeleteDeadLetter (dl_ID entry));
  must_be ErrNotFound (st_DeadLetter (dl_ID entry)).

Definition testHistory : prog S unit :=
  _ ← seedQueue queue_name; seeded ← seedMessages queue_name 1;
  first ← at_index 0 seeded;
  let events := [
    mkHistoryEvent (msg_ID first) queue_name StateCreated StateQueued "" "" base;
    mkHistoryEvent (msg_ID first) queue_name StateQueued StateProcessing "worker-1" "" (base + second)] in
  _ ← for_each (fun event => must "append history: %v" (st_AppendHistory event)) events;
  stored ← must "history: %v" (st_History (msg_ID first));
  _ ← expect "expected 2 history events, got %d" (bool_decide (length stored = 2%nat));
  second_ ← at_index 1 stored;
  expect "unexpected history event %+v"
    (bool_decide (he_Consumer second_ = "worker-1" ∧ he_To second_ = StateProcessing)).

(** [Run]: the tests by name. *)
Definition tests : list (string * prog S unit) := [
  ("TopologyRoundTrip", testTopologyRoundTrip);
  ("AppendAndFetch", testAppendAndFetch);
  ("AppendRejectsDuplicates", testAppendRejectsDuplicates);
  ("ClaimRespectsOrderAndLimit", testClaimRespectsOrderAndLimit);
  ("ClaimSkipsFutureAvailability", testClaimSkipsFutureAvailability);
  ("ClaimIsExclusive", testClaimIsExclusive);
  ("Acknowledge", testAcknowledge);
  ("AcknowledgeRequiresLease", testAcknowledgeRequiresLease);
  ("ScheduleRetry", testScheduleRetry);
  ("Release", testRelease);
  ("MarkDeadLettered", testMarkDeadLettered);
  ("ExpiredLeases", testExpiredLeases);
  ("Depth", testDepth);
  ("Purge", testPurge);
  ("DeadLetterLifecycle", testDeadLetterLifecycle);
  ("History", testHistory)].

(** Every test on a store of its own; the names of those that fail. *)
Definition Run (factory : S) : list (string * error) :=
  omap (fun '(name, test) => match (test factory).2 with
                             | Ok _ => None
                             | Err e => Some (name, e)
                             end) tests.
End suite.

Definition sample_entropy (i : nat) : list N := [N.of_nat i; 7; 42; 0; 255; 19; 3; 88; 4; 200]%N.

(** Both back ends pass the whole conformance suite: run on a fresh
    in-memory store and on a freshly migrated SQLite database that answers
    every statement, none of its sixteen tests stops at a [t.Fatal]. *)
Theorem stores_conform :
  length (tests (S := Store) sample_entropy "dl") = 16%nat ∧
  Run sample_entropy "dl" mem_New = [] ∧ Run sample_entropy "dl" sq_New = [].
Proof. split_and!; vm_compute; reflexivity. Qed.
