(* ===== verification/Float64.v ===== *)
(** Go's [float64] and the functions of package math the program uses.

    A [float64] is NaN, an infinity, or a finite number [m * 2^e]; the sign of
    a zero, which nothing here observes, is not kept.  Every arithmetic
    operation is the exact result rounded to nearest, ties to even, with 53
    bits of precision and exponents from -1074 ([round64]), which is what IEEE
    754 and the Go specification prescribe.  [Pow] follows the algorithm of
    Go's math.Pow for a non-negative integral exponent (repeated squaring on
    the fraction and the exponent of [Frexp]). *)

From S2P Require Import Prelude.

Local Open Scope Z_scope.

Inductive float64 : Type :=
| NaN
| Inf (negative : bool)
| Fin (m e : Z).

(** Number of bits of a positive integer. *)
Definition bits (a : Z) : Z := Z.log2 a + 1.

(** [a / 2^n] rounded to nearest, ties to even. *)
Definition round_shift (a n : Z) : Z :=
  let q := a / 2 ^ n in
  let r := a mod 2 ^ n in
  let half := 2 ^ (n - 1) in
  if (half <? r) || ((half =? r) && Z.odd q) then q + 1 else q.

(** The [float64] nearest to [m * 2^e]. *)
Definition round64 (m e : Z) : float64 :=
  if m =? 0 then Fin 0 0
  else
    let a := Z.abs m in
    let shift := Z.max (bits a - 53) (-1074 - e) in
    let '(q, e') := if shift <=? 0 then (a, e) else (round_shift a shift, e + shift) in
    if 1024 <? bits q + e' then Inf (m <? 0) else Fin (Z.sgn m * q) e'.

(** [float64(n)] for an integer. *)
Definition of_int (n : Z) : float64 := round64 n 0.

Definition fneg (x : float64) : bool :=
  match x with Inf b => b | Fin m _ => m <? 0 | NaN => false end.

Definition fmul (x y : float64) : float64 :=
  match x, y with
  | NaN, _ | _, NaN => NaN
  | Inf a, Inf b => Inf (xorb a b)
  | Inf a, Fin m _ | Fin m _, Inf a => if m =? 0 then NaN else Inf (xorb a (m <? 0))
  | Fin m e, Fin n f => round64 (m * n) (e + f)
  end.

(** The two numbers on the smaller of their exponents. *)
Definition align (m e n f : Z) : Z * Z * Z :=
  let g := Z.min e f in (m * 2 ^ (e - g), n * 2 ^ (f - g), g).

Definition fadd (x y : float64) : float64 :=
  match x, y with
  | NaN, _ | _, NaN => NaN
  | Inf a, Inf b => if Bool.eqb a b then Inf a else NaN
  | Inf a, Fin _ _ | Fin _ _, Inf a => Inf a
  | Fin m e, Fin n f => let '(a, b, g) := align m e n f in round64 (a + b) g
  end.

Definition fopp (x : float64) : float64 :=
  match x with NaN => NaN | Inf b => Inf (negb b) | Fin m e => Fin (- m) e end.
Definition fsub (x y : float64) : float64 := fadd x (fopp y).

(** The quotient of positive numbers: 64 bits of it and a bit that says whether
    anything is left determine the rounding. *)
Definition fdiv_pos (m e n f : Z) : float64 :=
  let k := 64 + bits n in
  let q := m * 2 ^ k / n in
  round64 (2 * q + (if m * 2 ^ k mod n =? 0 then 0 else 1)) (e - f - k - 1).

Definition fdiv (x y : float64) : float64 :=
  match x, y with
  | NaN, _ | _, NaN | Inf _, Inf _ => NaN
  | Inf a, Fin n _ => Inf (xorb a (n <? 0))
  | Fin _ _, Inf _ => Fin 0 0
  | Fin m e, Fin n f =>
      if n =? 0 then (if m =? 0 then NaN else Inf (m <? 0))
      else if m =? 0 then Fin 0 0
      else let q := fdiv_pos (Z.abs m) e (Z.abs n) f in
           if xorb (m <? 0) (n <? 0) then fopp q else q
  end.

(** [x < y]; every comparison with NaN is false. *)
Definition flt (x y : float64) : bool :=
  match x, y with
  | NaN, _ | _, NaN => false
  | Inf a, Inf b => a && negb b
  | Inf a, Fin _ _ => a
  | Fin _ _, Inf b => negb b
  | Fin m e, Fin n f => let '(a, b, _) := align m e n f in a <? b
  end.

Definition feq (x y : float64) : bool :=
  match x, y with
  | NaN, _ | _, NaN => false
  | Inf a, Inf b => Bool.eqb a b
  | Fin m e, Fin n f => let '(a, b, _) := align m e n f in a =? b
  | _, _ => false
  end.

Definition fle (x y : float64) : bool := flt x y || feq x y.

(** [math.IsInf(x, 0)] *)
Definition IsInf (x : float64) : bool := match x with Inf _ => true | _ => false end.

(** Truncation towards zero of [m * 2^e]. *)
Definition trunc (m e : Z) : Z := Z.quot (m * 2 ^ Z.max e 0) (2 ^ Z.max (- e) 0).

(** [math.Frexp] of a non-zero finite number: fraction in [1/2, 1) and exponent. *)
Definition Frexp (x : float64) : float64 * Z :=
  match x with
  | Fin m e => if m =? 0 then (x, 0) else let d := bits (Z.abs m) in (Fin m (- d), e + d)
  | _ => (x, 0)
  end.

(** [math.Ldexp] *)
Definition Ldexp (frac : float64) (exp : Z) : float64 :=
  match frac with Fin m e => round64 m (e + exp) | _ => frac end.

Definition f_one : float64 := Fin 1 0.
Definition f_two : float64 := Fin 1 1.
Definition f_half : float64 := Fin 1 (-1).

(** The loop of [math.Pow]: [i] is consumed bit by bit, so 64 rounds are enough
    for an [int64]; [fuel] bounds them. *)
Fixpoint pow_loop (fuel : nat) (i : Z) (a1 : float64) (ae : Z) (x1 : float64) (xe : Z) :
    float64 * Z :=
  match fuel with
  | O => (a1, ae)
  | S fuel' =>
      if i =? 0 then (a1, ae)
      else if (xe <? - 2 ^ 12) || (2 ^ 12 <? xe) then (a1, ae + xe)
      else
        let '(a1, ae) := if Z.odd i then (fmul a1 x1, ae + xe) else (a1, ae) in
        let x1 := fmul x1 x1 in
        let xe := 2 * xe in
        let '(x1, xe) := if flt x1 f_half then (fadd x1 x1, xe - 1) else (x1, xe) in
        pow_loop fuel' (Z.shiftr i 1) a1 ae x1 xe
  end.

(** [math.Pow(x, float64(n))] for [0 <= n]: [yi] is [float64(n)] as an integer. *)
Definition Pow (x : float64) (n : Z) : float64 :=
  let yi := match of_int n with Fin m e => trunc m e | _ => 0 end in
  if (yi =? 0) || feq x f_one then f_one
  else if yi =? 1 then x
  else match x with
  | NaN => NaN
  | Inf negative => Inf (negative && Z.odd yi)
  | Fin m _ =>
      if m =? 0 then Fin 0 0
      else if 2 ^ 63 <=? yi then
        (if feq x (fopp f_one) then f_one
         else if flt (Fin (Z.abs m) (match x with Fin _ e => e | _ => 0 end)) f_one then Fin 0 0
         else Inf false)
      else
        let '(x1, xe) := Frexp x in
        let '(a1, ae) := pow_loop 64 yi f_one 0 x1 xe in
        Ldexp a1 ae
  end.

