(* ===== verification/FloatProofs.v ===== *)
(** Bounds on [float64] results.

    [dle m e n f] is [m * 2^e <= n * 2^f].  Rounding is monotone with respect
    to representable numbers: a result is at least (at most) any representable
    number that the exact value is at least (at most).  [Pow_ge_one]: a power
    with base at least one and a non-negative integral exponent is at least
    one, or overflows to plus infinity; it is never NaN. *)

From S2P Require Import Prelude Float64.

Local Open Scope Z_scope.

Definition dle (m e n f : Z) : Prop := m * 2 ^ (e - Z.min e f) ≤ n * 2 ^ (f - Z.min e f).

(** Any common exponent will do. *)
Lemma dle_at g m e n f : g ≤ e → g ≤ f → dle m e n f ↔ m * 2 ^ (e - g) ≤ n * 2 ^ (f - g).
Proof.
  intros He Hf. unfold dle. set (h := Z.min e f).
  assert (g ≤ h ∧ h ≤ e ∧ h ≤ f) as (Hg & Hh & Hh') by lia.
  replace (e - g) with ((e - h) + (h - g)) by lia.
  replace (f - g) with ((f - h) + (h - g)) by lia.
  rewrite !Z.pow_add_r by lia. pose proof (Z.pow_pos_nonneg 2 (h - g) ltac:(lia) ltac:(lia)).
  rewrite !Z.mul_assoc. split; intros; [nia|]. eapply Z.mul_le_mono_pos_r; [|eassumption]. lia.
Qed.

Lemma dle_refl m e : dle m e m e.
Proof. unfold dle. lia. Qed.

Lemma dle_trans m e n f k g : dle m e n f → dle n f k g → dle m e k g.
Proof.
  set (h := Z.min e (Z.min f g)). rewrite !(dle_at h) by lia. lia.
Qed.

Lemma dle_int m n e : dle m e n e ↔ m ≤ n.
Proof.
  rewrite (dle_at e) by lia. rewrite Z.sub_diag. lia.
Qed.

(** The same number on a lower exponent. *)
Lemma dle_lower m e k : 0 ≤ k → dle (m * 2 ^ k) e m (e + k) ∧ dle m (e + k) (m * 2 ^ k) e.
Proof.
  intros Hk. rewrite !(dle_at e) by lia.
  replace (e + k - e) with k by lia. rewrite Z.sub_diag. lia.
Qed.

(** Shifting both sides. *)
Lemma dle_shift m e n f k : dle m e n f ↔ dle m (e + k) n (f + k).
Proof.
  set (h := Z.min e f). rewrite (dle_at h), (dle_at (h + k)) by lia.
  replace (e + k - (h + k)) with (e - h) by lia. by replace (f + k - (h + k)) with (f - h) by lia.
Qed.

Lemma flt_false m e n f : flt (Fin m e) (Fin n f) = false ↔ dle n f m e.
Proof.
  simpl. rewrite Z.ltb_ge. unfold dle. by rewrite (Z.min_comm f e).
Qed.

(** ** Rounding *)

Lemma round_shift_lower a s k : 0 < s → k * 2 ^ s ≤ a → k ≤ round_shift a s.
Proof.
  intros Hs Hk. assert (k ≤ a / 2 ^ s) as Hq.
  { apply Z.div_le_lower_bound; [apply Z.pow_pos_nonneg; lia|]. lia. }
  unfold round_shift. case_match; lia.
Qed.

Lemma round_shift_upper a s k : 0 < s → a ≤ k * 2 ^ s → round_shift a s ≤ k.
Proof.
  intros Hs Hk. pose proof (Z.pow_pos_nonneg 2 s ltac:(lia) ltac:(lia)) as Hp.
  pose proof (Z.div_mod a (2 ^ s) ltac:(lia)) as Hd.
  pose proof (Z.mod_pos_bound a (2 ^ s) Hp) as Hm.
  unfold round_shift. case_match eqn:E.
  - assert (0 < a mod 2 ^ s) as Hr.
    { pose proof (Z.pow_pos_nonneg 2 (s - 1) ltac:(lia) ltac:(lia)).
      apply orb_true_iff in E as [E%Z.ltb_lt|[E%Z.eqb_eq _]%andb_true_iff]; lia. }
    assert (a / 2 ^ s < k); [|lia]. nia.
  - nia.
Qed.

Lemma bits_spec a : 0 < a → 2 ^ (bits a - 1) ≤ a < 2 ^ bits a.
Proof. intros Ha. unfold bits. rewrite Z.add_simpl_r. apply Z.log2_spec, Ha. Qed.

(** The pieces of [round64] on a positive number. *)
Definition rounded (m e : Z) : Z * Z :=
  let shift := Z.max (bits m - 53) (-1074 - e) in
  if shift <=? 0 then (m, e) else (round_shift m shift, e + shift).

Lemma round64_pos m e : 0 < m →
  round64 m e = let '(q, e') := rounded m e in
                if 1024 <? bits q + e' then Inf false else Fin q e'.
Proof.
  intros Hm. unfold round64, rounded. rewrite (proj2 (Z.eqb_neq m 0)) by lia.
  rewrite Z.abs_eq, Z.sgn_pos, (proj2 (Z.ltb_ge m 0)) by lia.
  destruct (Z.max _ _ <=? 0); by rewrite Z.mul_1_l.
Qed.

(** When the last place of the result is coarser than that of a representable
    number, the result has all its 53 bits. *)
Lemma normal_mantissa m e f s :
  0 < m → s = Z.max (bits m - 53) (-1074 - e) → 0 < s → -1074 ≤ f → f < e + s →
  2 ^ 52 * 2 ^ s ≤ m.
Proof.
  intros Hm -> Hs Hf Hlt. assert (Z.max (bits m - 53) (-1074 - e) = bits m - 53) as -> by lia.
  rewrite <-Z.pow_add_r by lia. replace (52 + (bits m - 53)) with (bits m - 1) by lia.
  by apply bits_spec.
Qed.

(** A number with a 53-bit mantissa is below [2^52] on a coarser last place. *)
Lemma fine_below n f g : n < 2 ^ 53 → f < g → dle n f (2 ^ 52) g.
Proof.
  intros Hn Hf. rewrite (dle_at f) by lia. rewrite Z.sub_diag, Z.pow_0_r, Z.mul_1_r.
  replace (g - f) with (1 + (g - f - 1)) by lia. rewrite Z.pow_add_r by lia.
  pose proof (Z.pow_pos_nonneg 2 (g - f - 1) ltac:(lia) ltac:(lia)). nia.
Qed.

Lemma rounded_lower m e n f q e' :
  0 < m → 0 < n < 2 ^ 53 → -1074 ≤ f → dle n f m e → rounded m e = (q, e') →
  0 < q ∧ dle n f q e'.
Proof.
  intros Hm Hn Hf Hle. unfold rounded. set (s := Z.max _ _).
  destruct (Z.leb_spec s 0) as [Hs|Hs]; intros [= <- <-]; [done|].
  destruct (Z.lt_ge_cases f (e + s)) as [Hc|Hc].
  - assert (2 ^ 52 ≤ round_shift m s) as Hq.
    { apply round_shift_lower; [done|]. by eapply normal_mantissa. }
    split; [lia|]. eapply dle_trans; [apply (fine_below n f (e + s)); [lia|done]|]. by apply dle_int.
  - assert (n * 2 ^ (f - (e + s)) ≤ round_shift m s) as Hq.
    { apply round_shift_lower; [done|]. rewrite (dle_at e) in Hle by lia.
      rewrite Z.sub_diag, Z.pow_0_r, Z.mul_1_r in Hle. rewrite <-Z.mul_assoc, <-Z.pow_add_r by lia.
      by replace (f - (e + s) + s) with (f - e) by lia. }
    pose proof (Z.pow_pos_nonneg 2 (f - (e + s)) ltac:(lia) ltac:(lia)).
    split; [nia|]. eapply dle_trans; [|apply dle_int, Hq].
    pose proof (proj2 (dle_lower n (e + s) (f - (e + s)) ltac:(lia))) as Hl.
    by replace (e + s + (f - (e + s))) with f in Hl by lia.
Qed.

Lemma rounded_upper m e n f q e' :
  0 < m → 0 < n < 2 ^ 53 → -1074 ≤ f → dle m e n f → rounded m e = (q, e') → dle q e' n f.
Proof.
  intros Hm Hn Hf Hle. unfold rounded. set (s := Z.max _ _).
  destruct (Z.leb_spec s 0) as [Hs|Hs]; intros [= <- <-]; [done|].
  destruct (Z.lt_ge_cases f (e + s)) as [Hc|Hc].
  - exfalso. assert (2 ^ 52 * 2 ^ s ≤ m) as Hq by (by eapply normal_mantissa).
    assert (dle (2 ^ 52) (e + s) n f) as Hbad.
    { eapply dle_trans; [|exact Hle]. eapply dle_trans; [apply (dle_lower (2 ^ 52) e s); lia|].
      by apply dle_int. }
    rewrite (dle_at f), Z.sub_diag in Hbad by lia.
    replace (e + s - f) with (1 + (e + s - f - 1)) in Hbad by lia. rewrite Z.pow_add_r in Hbad by lia.
    pose proof (Z.pow_pos_nonneg 2 (e + s - f - 1) ltac:(lia) ltac:(lia)). nia.
  - assert (round_shift m s ≤ n * 2 ^ (f - (e + s))) as Hq.
    { apply round_shift_upper; [done|]. rewrite (dle_at e) in Hle by lia.
      rewrite Z.sub_diag, Z.pow_0_r, Z.mul_1_r in Hle. rewrite <-Z.mul_assoc, <-Z.pow_add_r by lia.
      by replace (f - (e + s) + s) with (f - e) by lia. }
    eapply dle_trans; [apply dle_int, Hq|].
    pose proof (proj1 (dle_lower n (e + s) (f - (e + s)) ltac:(lia))) as Hl.
    by replace (e + s + (f - (e + s))) with f in Hl by lia.
Qed.

(** A positive number at most one has no overflow. *)
Lemma no_overflow q e' : 0 < q → dle q e' 1 0 → bits q + e' ≤ 1.
Proof.
  intros Hq Hle. destruct (Z.lt_ge_cases 1 (bits q + e')) as [Hc|]; [exfalso|lia].
  pose proof (bits_spec q Hq) as [Hb _].
  assert (dle (2 ^ (bits q - 1)) e' 1 0) as Hd by (eapply dle_trans; [by apply dle_int|done]).
  assert (0 ≤ bits q - 1) by (unfold bits; pose proof (Z.log2_nonneg q); lia).
  set (g := Z.min e' 0). rewrite (dle_at g) in Hd by lia.
  rewrite <-Z.pow_add_r, Z.mul_1_l in Hd by lia.
  apply Z.pow_le_mono_r_iff in Hd; lia.
Qed.

Lemma round64_lower m e n f :
  0 < m → 0 < n < 2 ^ 53 → -1074 ≤ f → dle n f m e →
  round64 m e = Inf false ∨ ∃ q e', round64 m e = Fin q e' ∧ 0 < q ∧ dle n f q e'.
Proof.
  intros Hm Hn Hf Hle. rewrite round64_pos by done. destruct (rounded m e) as [q e'] eqn:E.
  destruct (rounded_lower _ _ _ _ _ _ Hm Hn Hf Hle E) as [Hq Hd].
  case_match; [by left|]. right. eauto.
Qed.

Lemma round64_unit m e n f :
  0 < m → 0 < n < 2 ^ 53 → -1074 ≤ f → dle n f m e → dle m e 1 0 →
  ∃ q e', round64 m e = Fin q e' ∧ 0 < q ∧ dle n f q e' ∧ dle q e' 1 0.
Proof.
  intros Hm Hn Hf Hle Hup. rewrite round64_pos by done. destruct (rounded m e) as [q e'] eqn:E.
  destruct (rounded_lower _ _ _ _ _ _ Hm Hn Hf Hle E) as [Hq Hd].
  assert (dle q e' 1 0) as Hu by (eapply rounded_upper; [| | | |exact E]; done || lia).
  pose proof (no_overflow q e' Hq Hu). rewrite (proj2 (Z.ltb_ge _ _)) by lia. eauto 6.
Qed.

(** ** Powers *)

Lemma dle_mul n1 f1 m1 e1 n2 f2 m2 e2 :
  0 ≤ n1 → 0 ≤ n2 → dle n1 f1 m1 e1 → dle n2 f2 m2 e2 →
  dle (n1 * n2) (f1 + f2) (m1 * m2) (e1 + e2).
Proof.
  intros Hn1 Hn2 H1 H2. set (g1 := Z.min f1 e1). set (g2 := Z.min f2 e2).
  rewrite (dle_at g1) in H1 by lia. rewrite (dle_at g2) in H2 by lia.
  rewrite (dle_at (g1 + g2)) by lia.
  replace (f1 + f2 - (g1 + g2)) with ((f1 - g1) + (f2 - g2)) by lia.
  replace (e1 + e2 - (g1 + g2)) with ((e1 - g1) + (e2 - g2)) by lia.
  rewrite !Z.pow_add_r by lia.
  pose proof (Z.pow_pos_nonneg 2 (f1 - g1) ltac:(lia) ltac:(lia)).
  pose proof (Z.pow_pos_nonneg 2 (f2 - g2) ltac:(lia) ltac:(lia)).
  transitivity ((n1 * 2 ^ (f1 - g1)) * (n2 * 2 ^ (f2 - g2))); [nia|].
  transitivity ((m1 * 2 ^ (e1 - g1)) * (m2 * 2 ^ (e2 - g2))); [|nia].
  apply Z.mul_le_mono_nonneg; nia.
Qed.

Lemma dle_one_pow j k : j ≤ k → dle 1 j 1 k.
Proof.
  intros Hjk. rewrite (dle_at j) by lia. rewrite Z.sub_diag, !Z.mul_1_l.
  apply Z.pow_le_mono_r; lia.
Qed.

(** Between [2^-k] and one. *)
Definition unit_range (k : Z) (x : float64) : Prop :=
  ∃ m e, x = Fin m e ∧ 0 < m ∧ dle 1 (- k) m e ∧ dle m e 1 0.

Lemma fmul_unit j k x y :
  0 ≤ j → 0 ≤ k → j + k ≤ 1074 → unit_range j x → unit_range k y → unit_range (j + k) (fmul x y).
Proof.
  intros Hj Hk Hjk (m & e & -> & Hm & Hl & Hu) (n & f & -> & Hn & Hl' & Hu'). simpl.
  destruct (round64_unit (m * n) (e + f) 1 (- (j + k))) as (q & e' & -> & Hq & Hd & Hd').
  - nia.
  - lia.
  - lia.
  - replace (- (j + k)) with (- j + - k) by lia. apply (dle_mul 1 (- j) m e 1 (- k) n f); done || lia.
  - apply (dle_mul m e 1 0 n f 1 0); done || lia.
  - by exists q, e'.
Qed.

(** Doubling a fraction below one half. *)
Lemma fadd_unit x : unit_range 2 x → flt x f_half = true → unit_range 1 (fadd x x).
Proof.
  intros (m & e & -> & Hm & Hl & Hu) Hlt. simpl. rewrite Z.min_id, Z.sub_diag, Z.mul_1_r.
  assert (dle (m + m) e 1 0) as Hup.
  { simpl in Hlt. apply Z.ltb_lt in Hlt. set (g := Z.min e (-1)) in *.
    rewrite (dle_at g) by lia. replace (0 - g) with (1 + (-1 - g)) by lia.
    rewrite (Z.pow_add_r 2 1) by lia. lia. }
  assert (dle 1 (-1) (m + m) e) as Hlow.
  { change (- (2)) with (-2) in Hl. set (g := Z.min e (-2)). rewrite (dle_at g) in Hl by lia. rewrite (dle_at g) by lia.
    replace (-1 - g) with (1 + (-2 - g)) by lia. rewrite (Z.pow_add_r 2 1) by lia. lia. }
  destruct (round64_unit (m + m) e 1 (-1)) as (q & e' & -> & Hq & Hd & Hd'); [lia..|done|done|].
  by exists q, e'.
Qed.

(** 64 rounds are enough: more change nothing. *)
Lemma pow_loop_enough fuel extra i a1 ae x1 xe :
  0 ≤ i < 2 ^ Z.of_nat fuel → pow_loop (fuel + extra) i a1 ae x1 xe = pow_loop fuel i a1 ae x1 xe.
Proof.
  revert i a1 ae x1 xe. induction fuel as [|fuel IH]; intros i a1 ae x1 xe Hi.
  - assert (i = 0) as -> by (simpl in Hi; lia). by destruct extra.
  - cbn [pow_loop Nat.add]. destruct (i =? 0); [done|]. destruct (_ || _); [done|].
    assert (0 ≤ Z.shiftr i 1 < 2 ^ Z.of_nat fuel) as Hs.
    { rewrite Z.shiftr_div_pow2 by lia. change (2 ^ 1) with 2.
      rewrite Nat2Z.inj_succ, Z.pow_succ_r in Hi by lia.
      split; [apply Z.div_pos; lia|apply Z.div_lt_upper_bound; lia]. }
    destruct (Z.odd i), (flt _ _); by apply IH.
Qed.

Lemma pow_loop_range fuel i a1 ae x1 xe k :
  0 ≤ k → k ≤ ae → k + Z.of_nat fuel ≤ 1000 → 1 ≤ xe → unit_range k a1 → unit_range 1 x1 →
  ∃ k', unit_range k' (pow_loop fuel i a1 ae x1 xe).1 ∧ k' ≤ (pow_loop fuel i a1 ae x1 xe).2.
Proof.
  revert i a1 ae x1 xe k. induction fuel as [|fuel IH]; intros i a1 ae x1 xe k Hk Hae Hf Hxe Ha Hx.
  { simpl. eauto. }
  cbn [pow_loop]. case_match; [simpl; eauto|]. case_match; [exists k; simpl; split; [done|lia]|].
  set (x2 := fmul x1 x1).
  assert (unit_range 2 x2) as Hx2 by (apply (fmul_unit 1 1); done || lia).
  assert (∃ k', k' ≤ k + 1 ∧ 0 ≤ k' ∧
    k' ≤ (if Z.odd i then (fmul a1 x1, ae + xe) else (a1, ae)).2 ∧
    unit_range k' (if Z.odd i then (fmul a1 x1, ae + xe) else (a1, ae)).1) as (k' & Hk1 & Hk2 & Hk3 & Ha').
  { destruct (Z.odd i); simpl.
    - exists (k + 1). split_and!; [lia..|]. apply fmul_unit; done || lia.
    - exists k. split_and!; done || lia. }
  destruct (if Z.odd i then _ else _) as [a2 ae2]. simpl in Hk3, Ha'.
  assert (unit_range 1 (if flt x2 f_half then (fadd x2 x2, 2 * xe - 1) else (x2, 2 * xe)).1 ∧
    1 ≤ (if flt x2 f_half then (fadd x2 x2, 2 * xe - 1) else (x2, 2 * xe)).2) as [Hx3 Hxe3].
  { destruct (flt x2 f_half) eqn:E; simpl; split; [by apply fadd_unit|lia| |lia].
    destruct Hx2 as (m & e & -> & Hm & Hl & Hu). exists m, e. split_and!; [done..| |done].
    by apply (flt_false m e 1 (-1)). }
  destruct (if flt x2 f_half then _ else _) as [x3 xe3]. simpl in Hx3, Hxe3.
  apply (IH _ _ _ _ _ k'); done || lia.
Qed.

Definition at_least (n f : Z) (x : float64) : Prop :=
  x = Inf false ∨ ∃ m e, x = Fin m e ∧ 0 < m ∧ dle n f m e.

Lemma Frexp_unit m e : 0 < m → dle 1 0 m e →
  unit_range 1 (Frexp (Fin m e)).1 ∧ 1 ≤ (Frexp (Fin m e)).2.
Proof.
  intros Hm Hle. simpl. rewrite (proj2 (Z.eqb_neq m 0)) by lia. rewrite Z.abs_eq by lia. simpl.
  pose proof (bits_spec m Hm) as [Hb1 Hb2].
  assert (1 ≤ bits m) by (unfold bits; pose proof (Z.log2_nonneg m); lia).
  split.
  - exists m, (- bits m). split_and!; [done..| |].
    + rewrite (dle_at (- bits m)) by lia. rewrite Z.sub_diag.
      replace (- (1) - - bits m) with (bits m - 1) by lia. lia.
    + rewrite (dle_at (- bits m)) by lia. rewrite Z.sub_diag.
      replace (0 - - bits m) with (bits m) by lia. lia.
  - destruct (Z.le_gt_cases 1 (e + bits m)) as [|Hc]; [done|exfalso].
    rewrite (dle_at e) in Hle by lia. rewrite Z.sub_diag, Z.mul_1_r, Z.mul_1_l in Hle.
    assert (2 ^ bits m ≤ 2 ^ (0 - e)) by (apply Z.pow_le_mono_r; lia). lia.
Qed.

(** A power of a number that is at least one is at least one, or overflows. *)
Lemma Pow_ge_one x n : at_least 1 0 x → at_least 1 0 (Pow x n).
Proof.
  intros Hx. unfold Pow. set (yi := match of_int n with Fin m e => _ | _ => _ end).
  case_match eqn:E0; [right; exists 1, 0; split_and!; [done|lia|apply dle_refl]|].
  case_match; [done|].
  destruct Hx as [->|(m & e & -> & Hm & Hle)]; [by left|].
  rewrite (proj2 (Z.eqb_neq m 0)) by lia.
  case_match.
  { rewrite Z.abs_eq by lia. case_match eqn:E1.
    { right. exists 1, 0. split_and!; [done|lia|apply dle_refl]. }
    case_match eqn:E2; [|by left]. apply (flt_false m e 1 0) in Hle. change f_one with (Fin 1 0) in E2.
    congruence. }
  destruct (Frexp_unit m e Hm Hle) as [Hx1 Hxe].
  destruct (Frexp (Fin m e)) as [x1 xe]. simpl in Hx1, Hxe.
  destruct (pow_loop_range 64 yi f_one 0 x1 xe 0) as (k & Ha & Hk); [lia..| |done|].
  { exists 1, 0. split_and!; [done|lia|apply dle_refl..]. }
  destruct (pow_loop 64 yi f_one 0 x1 xe) as [a1 ae]. simpl in Ha, Hk.
  destruct Ha as (m' & e' & -> & Hm' & Hl & _). simpl.
  apply round64_lower; [done|lia|lia|].
  eapply dle_trans; [apply (dle_one_pow 0 (- k + ae)); lia|]. by apply dle_shift.
Qed.

(** * Integers *)

(** Integers below [2^53] convert exactly. *)
Lemma of_int_exact z : 0 < z < 2 ^ 53 → of_int z = Fin z 0.
Proof.
  intros Hz. unfold of_int. rewrite round64_pos by lia. unfold rounded.
  assert (bits z ≤ 53) as Hb.
  { unfold bits. assert (Z.log2 z < 53) by (apply Z.log2_lt_pow2; lia). lia. }
  rewrite (proj2 (Z.leb_le _ _)) by lia. rewrite (proj2 (Z.ltb_ge _ _)) by lia. done.
Qed.

Lemma trunc_lower a q e : 0 ≤ q → dle a 0 q e → a ≤ trunc q e.
Proof.
  intros Hq Hle. unfold trunc. pose proof (Z.pow_pos_nonneg 2 (Z.max e 0) ltac:(lia) ltac:(lia)).
  pose proof (Z.pow_pos_nonneg 2 (Z.max (- e) 0) ltac:(lia) ltac:(lia)).
  rewrite Z.quot_div_nonneg by nia. apply Z.div_le_lower_bound; [lia|].
  rewrite (dle_at (Z.min e 0)) in Hle by lia.
  replace (0 - Z.min e 0) with (Z.max (- e) 0) in Hle by lia.
  replace (e - Z.min e 0) with (Z.max e 0) in Hle by lia. lia.
Qed.

Lemma trunc_upper b q e : 0 ≤ q → dle q e b 0 → trunc q e ≤ b.
Proof.
  intros Hq Hle. unfold trunc. pose proof (Z.pow_pos_nonneg 2 (Z.max e 0) ltac:(lia) ltac:(lia)).
  pose proof (Z.pow_pos_nonneg 2 (Z.max (- e) 0) ltac:(lia) ltac:(lia)).
  rewrite Z.quot_div_nonneg by nia. apply Z.div_le_upper_bound; [lia|].
  rewrite (dle_at (Z.min e 0)) in Hle by lia.
  replace (0 - Z.min e 0) with (Z.max (- e) 0) in Hle by lia.
  replace (e - Z.min e 0) with (Z.max e 0) in Hle by lia. lia.
Qed.

Lemma bits_mul_pow2 a k : 0 < a → 0 ≤ k → bits (a * 2 ^ k) = bits a + k.
Proof. intros Ha Hk. unfold bits. rewrite Z.log2_mul_pow2 by done. lia. Qed.

Lemma round_shift_exact a n : 0 < n → round_shift (a * 2 ^ n) n = a.
Proof.
  intros Hn. unfold round_shift. pose proof (Z.pow_pos_nonneg 2 n ltac:(lia) ltac:(lia)).
  rewrite Z.div_mul, Z.mod_mul by lia.
  pose proof (Z.pow_pos_nonneg 2 (n - 1) ltac:(lia) ltac:(lia)).
  rewrite (proj2 (Z.ltb_ge _ _)) by lia. by rewrite (proj2 (Z.eqb_neq _ _)) by lia.
Qed.

(** An integer below [2^53] is rounded to itself, whatever its exponent. *)
Lemma round64_exact n j :
  0 < n < 2 ^ 53 → 0 ≤ j ≤ 1000 → ∃ i, 0 ≤ i ≤ j ∧ round64 (n * 2 ^ j) (- j) = Fin (n * 2 ^ i) (- i).
Proof.
  intros Hn Hj. pose proof (Z.pow_pos_nonneg 2 j ltac:(lia) ltac:(lia)).
  pose proof (bits_spec n ltac:(lia)) as Hb.
  assert (0 < bits n ≤ 53) as Hb53.
  { unfold bits. pose proof (Z.log2_nonneg n). assert (Z.log2 n < 53) by (apply Z.log2_lt_pow2; lia). lia. }
  rewrite round64_pos by nia. unfold rounded. rewrite bits_mul_pow2 by lia.
  destruct (Z.leb_spec (Z.max (bits n + j - 53) (-1074 - - j)) 0).
  - exists j. rewrite bits_mul_pow2 by lia. split; [lia|]. by rewrite (proj2 (Z.ltb_ge _ _)) by lia.
  - rewrite Z.max_l by lia. set (s := bits n + j - 53) in *. exists (j - s). split; [lia|].
    assert (n * 2 ^ j = n * 2 ^ (j - s) * 2 ^ s) as ->.
    { rewrite <-Z.mul_assoc, <-Z.pow_add_r by lia. do 2 f_equal. lia. }
    rewrite round_shift_exact, bits_mul_pow2 by lia.
    rewrite (proj2 (Z.ltb_ge _ _)) by lia. f_equal; lia.
Qed.

Lemma trunc_exact n i : 0 ≤ n → 0 ≤ i → trunc (n * 2 ^ i) (- i) = n.
Proof.
  intros Hn Hi. unfold trunc. rewrite Z.max_r, Z.max_l, Z.pow_0_r by lia.
  replace (- - i) with i by lia. rewrite Z.mul_1_r. apply Z.quot_mul.
  pose proof (Z.pow_pos_nonneg 2 i). lia.
Qed.

(** The product and the quotient of integers are exact when they are integers
    below [2^53]. *)
Lemma fmul_int m n j : 0 < m → 0 < n → m * n < 2 ^ 53 → 0 ≤ j ≤ 1000 →
  ∃ i, 0 ≤ i ≤ j ∧ fmul (Fin m 0) (Fin (n * 2 ^ j) (- j)) = Fin (m * n * 2 ^ i) (- i).
Proof. intros Hm Hn Hb Hj. cbn [fmul]. rewrite Z.mul_assoc. apply round64_exact; [nia|done]. Qed.

Lemma fdiv_int m n : 0 < n < 2 ^ 53 → 0 < m < 2 ^ 53 → (n | m) →
  ∃ i, 0 ≤ i ≤ 1000 ∧ fdiv (Fin m 0) (Fin n 0) = Fin (m / n * 2 ^ i) (- i).
Proof.
  intros Hn Hm [q ->]. assert (0 < q) by nia.
  assert (0 < bits n ≤ 53) as Hb53.
  { unfold bits. pose proof (Z.log2_nonneg n). assert (Z.log2 n < 53) by (apply Z.log2_lt_pow2; lia). lia. }
  unfold fdiv. rewrite !(proj2 (Z.eqb_neq _ 0)) by lia. rewrite !(proj2 (Z.ltb_ge _ 0)) by lia.
  rewrite !Z.abs_eq by lia. cbn [xorb]. unfold fdiv_pos. set (k := 64 + bits n).
  replace (q * n * 2 ^ k) with (q * 2 ^ k * n) by lia. rewrite Z.div_mul, Z.mod_mul, Z.div_mul by lia.
  rewrite Z.eqb_refl. replace (2 * (q * 2 ^ k) + 0) with (q * 2 ^ (k + 1)) by (rewrite Z.pow_add_r; lia).
  replace (0 - 0 - k - 1) with (- (k + 1)) by lia.
  destruct (round64_exact q (k + 1)) as (i & Hi & ->); [nia|lia|]. exists i. split; [lia|done].
Qed.
