(* ===== verification/DurationText.v ===== *)
(** Durations as text: [time.Duration.String] and [time.ParseDuration] of the
    Go library, as [internal/config] and [internal/api] use them.

    A duration is printed with the largest units that fit, ["1h2m3.5s"], ["1.5ms"],
    ["0s"].  The parser reads any sequence of decimal numbers with units; it
    accumulates in 64 bits with overflow checks, and computes fractions in
    [float64]. *)

From S2P Require Import Prelude Errors TimeText Float64.

Local Open Scope Z_scope.

Definition microsecond : Duration := 1000.
Definition hour : Duration := 60 * minute.

(** * Printing *)

(** [fmtFrac]: the last [prec] digits of [v] as a fraction in front of [tail],
    without trailing zeros, and the rest of [v]. *)
Fixpoint fmtFrac (prec : nat) (v : Z) (print : bool) (tail : string) : string * Z :=
  match prec with
  | O => (if print then String "." tail else tail, v)
  | S prec' =>
      let print := print || negb (v mod 10 =? 0) in
      fmtFrac prec' (v / 10) print (if print then String (digit v) tail else tail)
  end.

(** [fmtInt] *)
Definition fmtInt (v : Z) (tail : string) : string := appendInt v 1 +:+ tail.

(** The micro sign, U+00B5, and the Greek letter mu, U+03BC, in UTF-8. *)
Definition micro_sign : string := String (ascii_of_N 194) (String (ascii_of_N 181) "").
Definition greek_mu : string := String (ascii_of_N 206) (String (ascii_of_N 188) "").

(** [Duration.String] on the absolute value. *)
Definition format_abs (u : Z) : string :=
  if u <? second then
    if u =? 0 then "0s"
    else
      let '(prec, unit) := if u <? microsecond then (0%nat, "ns")
                           else if u <? millisecond then (3%nat, micro_sign +:+ "s")
                           else (6%nat, "ms") in
      let '(tail, v) := fmtFrac prec u false unit in fmtInt v tail
  else
    let '(tail, seconds) := fmtFrac 9 u false "s" in
    let tail := fmtInt (seconds mod 60) tail in
    let minutes := seconds / 60 in
    if 0 <? minutes then
      let tail := fmtInt (minutes mod 60) (String "m" tail) in
      let hours := minutes / 60 in
      if 0 <? hours then fmtInt hours (String "h" tail) else tail
    else tail.

Definition Duration_String (d : Duration) : string :=
  if d <? 0 then String "-" (format_abs (- d)) else format_abs d.

(** * Parsing *)

Inductive duration_error :=
| invalid_duration
| missing_unit
| unknown_unit (unit : string).

(** The texts, with package time's [quote] of the whole input. *)
Definition duration_error_text (quote : string → string) (orig : string) (e : duration_error) : string :=
  match e with
  | invalid_duration => "time: invalid duration " +:+ quote orig
  | missing_unit => "time: missing unit in duration " +:+ quote orig
  | unknown_unit u => "time: unknown unit " +:+ quote u +:+ " in duration " +:+ quote orig
  end.

(** [leadingInt]: [None] on overflow. *)
Fixpoint leadingInt (x : Z) (s : string) : option (Z * string) :=
  match s with
  | EmptyString => Some (x, s)
  | String c s' =>
      match digit_value c with
      | None => Some (x, s)
      | Some d =>
          if 2 ^ 63 / 10 <? x then None
          else let x := x * 10 + d in
               if 2 ^ 63 <? x then None else leadingInt x s'
      end
  end.

(** [leadingFraction]: digits beyond 63 bits are read and ignored. *)
Fixpoint leadingFraction (x : Z) (scale : float64) (overflow : bool) (s : string) :
    Z * float64 * string :=
  match s with
  | EmptyString => (x, scale, s)
  | String c s' =>
      match digit_value c with
      | None => (x, scale, s)
      | Some d =>
          if overflow then leadingFraction x scale true s'
          else if (2 ^ 63 - 1) / 10 <? x then leadingFraction x scale true s'
          else let y := x * 10 + d in
               if 2 ^ 63 <? y then leadingFraction x scale true s'
               else leadingFraction y (fmul scale (Fin 10 0)) false s'
      end
  end.

Definition unit_char (c : ascii) : bool :=
  negb (bool_decide (c = "."%char)) && negb (bool_decide (is_Some (digit_value c))).

(** The unit: up to the next digit or point. *)
Fixpoint span_unit (s : string) : string * string :=
  match s with
  | String c s' => if unit_char c then let '(u, rest) := span_unit s' in (String c u, rest) else ("", s)
  | EmptyString => ("", "")
  end.

Definition unitMap (u : string) : option Z :=
  if decide (u = "ns") then Some nanosecond
  else if decide (u = "us") then Some microsecond
  else if decide (u = micro_sign +:+ "s") then Some microsecond
  else if decide (u = greek_mu +:+ "s") then Some microsecond
  else if decide (u = "ms") then Some millisecond
  else if decide (u = "s") then Some second
  else if decide (u = "m") then Some minute
  else if decide (u = "h") then Some hour
  else None.

(** [uint64(float64(f) * (float64(unit) / scale))]: at most the number of
    nanoseconds in an hour, so that the conversion is a truncation. *)
Definition fraction_ns (f : Z) (scale : float64) (unit : Z) : Z :=
  match fmul (of_int f) (fdiv (of_int unit) scale) with
  | Fin m e => trunc m e
  | _ => 0
  end.

(** The optional point and the digits after it, and whether there were any. *)
Definition read_fraction (s : string) : Z * float64 * string * bool :=
  match s with
  | String c s' =>
      if decide (c = "."%char) then
        let '(f, scale, rest) := leadingFraction 0 (Fin 1 0) false s' in
        (f, scale, rest, negb (bool_decide (String.length s' = String.length rest)))
      else (0, Fin 1 0, s, false)
  | EmptyString => (0, Fin 1 0, s, false)
  end.

(** The body of the loop: one number with its unit, in nanoseconds. *)
Definition read_term (s : string) : result duration_error (Z * string) :=
  match s with
  | EmptyString => Err invalid_duration
  | String c _ =>
      if unit_char c then Err invalid_duration
      else match leadingInt 0 s with
      | None => Err invalid_duration
      | Some (v, s1) =>
          let pre := negb (bool_decide (String.length s = String.length s1)) in
          let '(f, scale, s2, post) := read_fraction s1 in
          if negb pre && negb post then Err invalid_duration
          else
            let '(u, s3) := span_unit s2 in
            if decide (u = "") then Err missing_unit
            else match unitMap u with
            | None => Err (unknown_unit u)
            | Some unit =>
                if 2 ^ 63 / unit <? v then Err invalid_duration
                else
                  let v := v * unit in
                  if 0 <? f then
                    let v := v + fraction_ns f scale unit in
                    if 2 ^ 63 <? v then Err invalid_duration else Ok (v, s3)
                  else Ok (v, s3)
            end
      end
  end.

(** The loop; every round consumes at least the unit, so [fuel] is the length. *)
Fixpoint parse_terms (fuel : nat) (d : Z) (s : string) : result duration_error Z :=
  match s with
  | EmptyString => Ok d
  | _ =>
      match fuel with
      | O => Err invalid_duration
      | S fuel' =>
          match read_term s with
          | Err e => Err e
          | Ok (v, rest) =>
              let d := d + v in
              if 2 ^ 63 <? d then Err invalid_duration else parse_terms fuel' d rest
          end
      end
  end.

(** The sign, which may be a [+]. *)
Definition read_sign (s : string) : bool * string :=
  match s with
  | String c s' =>
      if decide (c = "-"%char) then (true, s')
      else if decide (c = "+"%char) then (false, s') else (false, s)
  | EmptyString => (false, s)
  end.

Definition ParseDuration (orig : string) : result duration_error Duration :=
  let '(neg, s) := read_sign orig in
  if decide (s = "0") then Ok 0
  else if decide (s = "") then Err invalid_duration
  else match parse_terms (String.length s) 0 s with
  | Err e => Err e
  | Ok d =>
      if (neg : bool) then Ok (- d)
      else if 2 ^ 63 - 1 <? d then Err invalid_duration else Ok d
  end.
