(* ===== verification/DurationProofs.v ===== *)
(** A duration is read back from its text ([DurationText.v]). *)

From S2P Require Import Prelude Errors TimeText TimeProofs Float64 FloatProofs DurationText.

Local Open Scope Z_scope.

(** * Numbers *)

Lemma digits_mod w n : digits w (n mod 10 ^ Z.of_nat w) = digits w n.
Proof.
  revert n. induction w as [|w IH]; intros n; [done|]. cbn [digits].
  rewrite Nat2Z.inj_succ, Z.pow_succ_r by lia.
  pose proof (Z.pow_pos_nonneg 10 (Z.of_nat w) ltac:(lia) ltac:(lia)).
  assert (n mod (10 * 10 ^ Z.of_nat w) / 10 = (n / 10) mod 10 ^ Z.of_nat w) as ->.
  { rewrite Z.rem_mul_r by lia. rewrite (Z.mul_comm 10), Z.div_add, Z.div_small by (try apply Z.mod_pos_bound; lia).
    lia. }
  rewrite IH. unfold digit. do 5 f_equal.
  rewrite Z.rem_mul_r by lia. rewrite (Z.mul_comm 10 (_ mod _)), Z_mod_plus_full. apply Z.mod_mod. lia.
Qed.

Lemma count_digits_ge fuel n :
  0 ≤ n < 2 ^ Z.of_nat fuel → n < 10 ^ Z.of_nat (count_digits fuel n).
Proof.
  revert n. induction fuel as [|fuel IH]; intros n Hn; cbn [count_digits]; [simpl in *; lia|].
  destruct (Z.leb_spec n 0); [simpl; lia|].
  rewrite Nat2Z.inj_succ, Z.pow_succ_r in Hn |- * by lia.
  assert (n / 10 < 10 ^ Z.of_nat (count_digits fuel (n / 10))).
  { apply IH. split; [apply Z.div_pos; lia|apply Z.div_lt_upper_bound; lia]. }
  pose proof (Z.div_mod n 10 ltac:(lia)). pose proof (Z.mod_pos_bound n 10 ltac:(lia)). lia.
Qed.

(** A number is printed with enough digits. *)
Lemma appendInt_width n : 0 ≤ n → ∃ w, (1 ≤ w)%nat ∧ n < 10 ^ Z.of_nat w ∧ appendInt n 1 = digits w n.
Proof.
  intros Hn. unfold appendInt. rewrite (proj2 (Z.ltb_ge n 0)), Z.abs_eq by lia.
  eexists. split; [apply Nat.le_max_l|]. split; [|done].
  eapply Z.lt_le_trans; [apply (count_digits_ge (S (Z.to_nat (Z.log2 n))))|apply Z.pow_le_mono_r; lia].
  split; [done|]. rewrite Nat2Z.inj_succ, Z2Nat.id by apply Z.log2_nonneg.
  destruct (Z.eq_dec n 0) as [->|]; [done|]. apply Z.log2_spec. lia.
Qed.

Lemma leadingInt_digits w n x s :
  0 ≤ x → 0 ≤ n < 10 ^ Z.of_nat w → x * 10 ^ Z.of_nat w + n ≤ 2 ^ 63 →
  leadingInt x (digits w n +:+ s) = leadingInt (x * 10 ^ Z.of_nat w + n) s.
Proof.
  revert n x s. induction w as [|w IH]; intros n x s Hx Hn Hb.
  - simpl in *. f_equal. lia.
  - cbn [digits]. rewrite str_app_assoc, str_app_cons.
    rewrite Nat2Z.inj_succ, Z.pow_succ_r in Hn, Hb |- * by lia.
    pose proof (Z.div_mod n 10 ltac:(lia)). pose proof (Z.mod_pos_bound n 10 ltac:(lia)).
    rewrite IH; [|lia| |lia].
    + cbn [leadingInt]. rewrite digit_value_digit.
      replace ((x * 10 ^ Z.of_nat w + n / 10) * 10 + n mod 10) with (x * (10 * 10 ^ Z.of_nat w) + n) by lia.
      rewrite !(proj2 (Z.ltb_ge _ _)); [done|lia|].
      apply Z.div_le_lower_bound; lia.
    + split; [apply Z.div_pos; lia|apply Z.div_lt_upper_bound; lia].
Qed.

Lemma leadingFraction_digits w n x scale s :
  0 ≤ x → 0 ≤ n < 10 ^ Z.of_nat w → x * 10 ^ Z.of_nat w + n < 2 ^ 53 →
  0 < scale → scale * 10 ^ Z.of_nat w < 2 ^ 53 →
  leadingFraction x (Fin scale 0) false (digits w n +:+ s) =
  leadingFraction (x * 10 ^ Z.of_nat w + n) (Fin (scale * 10 ^ Z.of_nat w) 0) false s.
Proof.
  revert n x scale s. induction w as [|w IH]; intros n x scale s Hx Hn Hb Hs Hsb.
  - simpl in *. f_equal; [|f_equal]; lia.
  - cbn [digits]. rewrite str_app_assoc, str_app_cons.
    rewrite Nat2Z.inj_succ, Z.pow_succ_r in Hn, Hb, Hsb |- * by lia.
    pose proof (Z.div_mod n 10 ltac:(lia)). pose proof (Z.mod_pos_bound n 10 ltac:(lia)).
    pose proof (Z.pow_pos_nonneg 10 (Z.of_nat w) ltac:(lia) ltac:(lia)).
    rewrite IH; [|lia| |lia|lia|lia].
    + cbn [leadingFraction]. rewrite digit_value_digit.
      replace ((x * 10 ^ Z.of_nat w + n / 10) * 10 + n mod 10) with (x * (10 * 10 ^ Z.of_nat w) + n) by lia.
      rewrite !(proj2 (Z.ltb_ge _ _)); [|lia|apply Z.div_le_lower_bound; lia].
      f_equal. cbn [fmul]. rewrite Z.add_0_r.
      change (round64 ?m 0) with (of_int m). rewrite of_int_exact by lia. f_equal. lia.
    + split; [apply Z.div_pos; lia|apply Z.div_lt_upper_bound; lia].
Qed.

(** * Fractions *)

Lemma fmtFrac_printing prec v tail :
  fmtFrac prec v true tail = (String "." (digits prec v +:+ tail), v / 10 ^ Z.of_nat prec).
Proof.
  revert v tail. induction prec as [|prec IH]; intros v tail; cbn [fmtFrac].
  - by rewrite Z.div_1_r.
  - cbn [orb]. rewrite IH. cbn [digits]. rewrite str_app_assoc, str_app_cons.
    rewrite Nat2Z.inj_succ, Z.pow_succ_r, Z.div_div by lia. done.
Qed.

(** What [fmtFrac] prints of [v]: nothing, or [k] digits that are the fraction. *)
Definition fraction_text (k : nat) (f : Z) : string := if k is O then "" else String "." (digits k f).

Lemma fmtFrac_spec prec v tail : 0 ≤ v →
  ∃ k f, (k ≤ prec)%nat ∧ 0 ≤ f < 10 ^ Z.of_nat k ∧
    f * 10 ^ Z.of_nat (prec - k) = v mod 10 ^ Z.of_nat prec ∧
    fmtFrac prec v false tail = (fraction_text k f +:+ tail, v / 10 ^ Z.of_nat prec).
Proof.
  revert v tail. induction prec as [|prec IH]; intros v tail Hv; cbn [fmtFrac].
  { exists 0%nat, 0. rewrite Z.div_1_r, Z.mod_1_r. done. }
  cbn [orb]. pose proof (Z.pow_pos_nonneg 10 (Z.of_nat prec) ltac:(lia) ltac:(lia)).
  destruct (Z.eqb_spec (v mod 10) 0) as [E|E]; cbn [negb].
  - destruct (IH (v / 10) tail) as (k & f & Hk & Hf & Hm & ->); [apply Z.div_pos; lia|].
    exists k, f. split; [lia|]. split; [done|].
    rewrite Nat2Z.inj_succ, Z.pow_succ_r, Z.div_div by lia. split; [|done].
    rewrite Nat.sub_succ_l, Nat2Z.inj_succ, Z.pow_succ_r by lia.
    rewrite Z.rem_mul_r by lia. lia.
  - exists (S prec), (v mod 10 ^ Z.of_nat (S prec)). split; [lia|]. split; [|split].
    + apply Z.mod_pos_bound. lia.
    + rewrite Nat.sub_diag. lia.
    + rewrite fmtFrac_printing. unfold fraction_text. rewrite digits_mod. cbn [digits].
      rewrite str_app_cons, str_app_assoc, str_app_cons.
      by rewrite Nat2Z.inj_succ, Z.pow_succ_r, Z.div_div by lia.
Qed.

Lemma fraction_ns_exact k f unit :
  0 < f → (10 ^ k | unit) → 0 < unit < 2 ^ 53 → 0 ≤ k → f < 10 ^ k →
  fraction_ns f (Fin (10 ^ k) 0) unit = f * (unit / 10 ^ k).
Proof.
  intros Hf Hdiv Hu Hk Hfk. unfold fraction_ns. pose proof (Z.pow_pos_nonneg 10 k ltac:(lia) Hk).
  assert (10 ^ k ≤ unit) by (apply Z.divide_pos_le; [lia|done]).
  rewrite !of_int_exact by lia. destruct (fdiv_int unit (10 ^ k)) as (i & Hi & ->); [lia|lia|done|].
  destruct Hdiv as [q ->]. rewrite Z.div_mul by lia.
  destruct (fmul_int f q i) as (j & Hj & ->); [lia|nia|nia|lia|]. apply trunc_exact; nia.
Qed.

(** * Terms *)

(** A text that is empty or starts like a number. *)
Definition number_next (s : string) : Prop :=
  match s with EmptyString => True | String c _ => unit_char c = false end.

Lemma span_unit_app u s :
  str_forall unit_char u = true → number_next s → span_unit (u +:+ s) = (u, s).
Proof.
  intros Hu Hs. induction u as [|c u IH].
  - destruct s as [|c s]; [done|]. change ("" +:+ String c s) with (String c s). cbn. by rewrite Hs.
  - cbn [str_forall] in Hu. apply andb_prop in Hu as [Hc Hu]. rewrite str_app_cons. cbn [span_unit].
    by rewrite Hc, IH.
Qed.

Lemma leadingInt_stop x s : (if s is String c _ then digit_value c = None else True) → leadingInt x s = Some (x, s).
Proof. destruct s as [|c s]; [done|]. intros Hc. cbn [leadingInt]. by rewrite Hc. Qed.

Lemma leadingFraction_stop x scale s :
  (if s is String c _ then digit_value c = None else True) → leadingFraction x scale false s = (x, scale, s).
Proof. destruct s as [|c s]; [done|]. intros Hc. cbn [leadingFraction]. by rewrite Hc. Qed.

Lemma unit_char_digit c : unit_char c = true → digit_value c = None.
Proof.
  unfold unit_char. intros [_ H]%andb_prop. destruct (digit_value c); [|done].
  rewrite bool_decide_true in H by eauto. done.
Qed.

Lemma length_digits w n : String.length (digits w n) = w.
Proof.
  revert n. induction w as [|w IH]; intros n; [done|]. cbn [digits].
  assert (∀ s c, String.length (s +:+ String c "") = S (String.length s)) as ->.
  { intros s c. induction s as [|d s IHs]; [done|]. rewrite str_app_cons. cbn [String.length]. by f_equal. }
  by rewrite IH.
Qed.

Lemma length_app (s t : string) : String.length (s +:+ t) = (String.length s + String.length t)%nat.
Proof. induction s as [|c s IH]; [done|]. rewrite str_app_cons. cbn [String.length plus]. by f_equal. Qed.

Lemma digits_head w n s : (1 ≤ w)%nat →
  ∃ c rest, digits w n +:+ s = String c rest ∧ unit_char c = false ∧ c ≠ "-"%char ∧ c ≠ "+"%char.
Proof.
  revert n s. induction w as [|w IH]; intros n s Hw; [lia|]. cbn [digits]. rewrite str_app_assoc, str_app_cons.
  destruct w as [|w]; [|apply IH; lia]. exists (digit n), s. split; [done|].
  assert (is_Some (digit_value (digit n))) as Hd by (rewrite digit_value_digit; eauto). split_and!.
  - unfold unit_char. by rewrite andb_comm, (bool_decide_true (is_Some _)).
  - intros E. rewrite E in Hd. by destruct Hd.
  - intros E. rewrite E in Hd. by destruct Hd.
Qed.

Lemma appendInt_head n s : 0 ≤ n →
  ∃ c rest, appendInt n 1 +:+ s = String c rest ∧ unit_char c = false ∧ c ≠ "-"%char ∧ c ≠ "+"%char.
Proof. intros Hn. destruct (appendInt_width n Hn) as (w & Hw & _ & ->). by apply digits_head. Qed.

(** The fraction of a printed number, in front of its unit. *)
Lemma read_fraction_text k f u s :
  (k ≤ 9)%nat → 0 ≤ f < 10 ^ Z.of_nat k → str_forall unit_char u = true → u ≠ "" →
  ∃ post, read_fraction (fraction_text k f +:+ u +:+ s) = (f, Fin (10 ^ Z.of_nat k) 0, u +:+ s, post).
Proof.
  intros Hk Hf Hu Hne. destruct u as [|c u]; [done|]. cbn [str_forall] in Hu. apply andb_prop in Hu as [Hc Hu].
  destruct k as [|k]; cbn [fraction_text].
  - change ("" +:+ ?x) with x. rewrite str_app_cons. cbn [read_fraction].
    destruct (decide (c = "."%char)) as [->|]; [done|]. simpl in Hf. replace f with 0 by lia. eauto.
  - rewrite str_app_cons. cbn [read_fraction]. rewrite decide_True by done.
    assert (10 ^ Z.of_nat (S k) ≤ 10 ^ 9) by (apply Z.pow_le_mono_r; lia).
    rewrite leadingFraction_digits by lia. rewrite leadingFraction_stop.
    + rewrite Z.mul_0_l, !Z.add_0_l, Z.mul_1_l. eauto.
    + rewrite str_app_cons. by apply unit_char_digit.
Qed.

(** A printed number with its unit is read back. *)
Lemma read_term_text v k f u unit s :
  0 ≤ v → (k ≤ 9)%nat → 0 ≤ f < 10 ^ Z.of_nat k → str_forall unit_char u = true → u ≠ "" →
  unitMap u = Some unit → (10 ^ Z.of_nat k | unit) → 0 < unit < 2 ^ 53 → number_next s →
  v * unit + f * (unit / 10 ^ Z.of_nat k) ≤ 2 ^ 63 →
  read_term (fmtInt v (fraction_text k f +:+ u +:+ s)) =
    Ok (v * unit + f * (unit / 10 ^ Z.of_nat k), s).
Proof.
  intros Hv Hk Hf Hu Hne Hunit Hdiv Hub Hs Hb. unfold fmtInt.
  destruct (appendInt_head v (fraction_text k f +:+ u +:+ s) Hv) as (c & rest & E & Hc & _ & _).
  unfold read_term. rewrite E, Hc, <-E. clear E Hc c rest.
  destruct (appendInt_width v Hv) as (w & Hw & Hvw & ->).
  assert (0 ≤ f * (unit / 10 ^ Z.of_nat k)).
  { apply Z.mul_nonneg_nonneg; [lia|]. apply Z.div_pos; [lia|]. apply Z.pow_pos_nonneg; lia. }
  assert (v ≤ 2 ^ 63) by nia.
  rewrite leadingInt_digits by lia. rewrite leadingInt_stop.
  2:{ destruct k as [|k]; cbn [fraction_text]; [|done]. change ("" +:+ ?x) with x.
      destruct u as [|c u]; [done|]. rewrite str_app_cons. apply unit_char_digit.
      cbn [str_forall] in Hu. by apply andb_prop in Hu as [? _]. }
  rewrite Z.mul_0_l, Z.add_0_l.
  rewrite bool_decide_false by (rewrite length_app, length_digits; lia). cbn [negb andb].
  destruct (read_fraction_text k f u s Hk Hf Hu Hne) as [post ->].
  rewrite span_unit_app by done. rewrite decide_False by done. rewrite Hunit.
  rewrite (proj2 (Z.ltb_ge (2 ^ 63 / unit) v)) by (apply Z.div_le_lower_bound; lia).
  destruct (Z.ltb_spec 0 f).
  - rewrite fraction_ns_exact by (done || lia). by rewrite (proj2 (Z.ltb_ge _ _)) by lia.
  - replace f with 0 by lia. by rewrite Z.mul_0_l, Z.add_0_r.
Qed.

(** * The loop *)

Lemma leadingInt_length x s y rest : leadingInt x s = Some (y, rest) → (String.length rest ≤ String.length s)%nat.
Proof.
  revert x. induction s as [|c s IH]; intros x; cbn [leadingInt]; [by intros [= _ <-]|].
  repeat case_match; intros E; simplify_eq/=; [apply IH in E; lia|lia].
Qed.

Lemma leadingFraction_length x scale over s y sc rest :
  leadingFraction x scale over s = (y, sc, rest) → (String.length rest ≤ String.length s)%nat.
Proof.
  revert x scale over. induction s as [|c s IH]; intros x scale over; cbn [leadingFraction]; [by intros [= _ _ <-]|].
  repeat case_match; intros E; simplify_eq/=; try (apply IH in E); lia.
Qed.

Lemma span_unit_length s u rest :
  span_unit s = (u, rest) → String.length s = (String.length u + String.length rest)%nat.
Proof.
  revert u. induction s as [|c s IH]; intros u; cbn [span_unit]; [by intros [= <- <-]|].
  case_match; [|by intros [= <- <-]]. destruct (span_unit s) as [u' rest'] eqn:E. intros [= <- ->].
  cbn [String.length plus]. f_equal. by apply IH.
Qed.

(** A round of the loop consumes input. *)
Lemma read_term_length s v rest : read_term s = Ok (v, rest) → (String.length rest < String.length s)%nat.
Proof.
  unfold read_term. destruct s as [|c s]; [done|]. case_match; [done|].
  destruct (leadingInt 0 (String c s)) as [[x s1]|] eqn:E1; [|done]. apply leadingInt_length in E1.
  destruct (read_fraction s1) as [[[f scale] s2] post] eqn:E2.
  assert (String.length s2 ≤ String.length s1)%nat as H2.
  { unfold read_fraction in E2. destruct s1 as [|c1 s1]; [by simplify_eq|].
    case_match; [|by simplify_eq]. destruct (leadingFraction _ _ _ s1) as [[??] ?] eqn:E3.
    apply leadingFraction_length in E3. simplify_eq/=. lia. }
  case_match; [done|]. destruct (span_unit s2) as [u s3] eqn:E3. apply span_unit_length in E3.
  case_match; [done|]. destruct u as [|? u]; [done|]. cbn [String.length] in E3.
  repeat case_match; intros; simplify_eq/=; lia.
Qed.

(** More fuel than the text is long changes nothing. *)
Lemma parse_terms_enough n m d s :
  (String.length s ≤ n)%nat → (String.length s ≤ m)%nat → parse_terms n d s = parse_terms m d s.
Proof.
  revert m d s. induction n as [|n IH]; intros m d s Hn Hm.
  - destruct s; [|simpl in Hn; lia]. by destruct m.
  - destruct m as [|m]; [destruct s; [done|simpl in Hm; lia]|].
    cbn [parse_terms]. destruct s as [|c s]; [done|].
    destruct (read_term (String c s)) as [[v rest]|e] eqn:E; [|done]. apply read_term_length in E.
    case_match; [done|]. apply IH; lia.
Qed.

Lemma parse_terms_term d s v rest :
  read_term s = Ok (v, rest) → d + v ≤ 2 ^ 63 →
  parse_terms (String.length s) d s = parse_terms (String.length rest) (d + v) rest.
Proof.
  intros E Hd. pose proof (read_term_length _ _ _ E) as Hlt. destruct s as [|c s]; [done|].
  cbn [parse_terms String.length]. rewrite E. rewrite (proj2 (Z.ltb_ge _ _)) by lia.
  apply parse_terms_enough; simpl in *; lia.
Qed.

(** A term without a fraction in front of more terms. *)
Lemma parse_whole v u unit d s :
  0 ≤ v → str_forall unit_char u = true → u ≠ "" → unitMap u = Some unit → 0 < unit < 2 ^ 53 →
  number_next s → 0 ≤ d → d + v * unit ≤ 2 ^ 63 →
  parse_terms (String.length (fmtInt v (u +:+ s))) d (fmtInt v (u +:+ s)) =
    parse_terms (String.length s) (d + v * unit) s.
Proof.
  intros Hv Hu Hne Hunit Hub Hs Hd Hb. apply parse_terms_term; [|done].
  pose proof (read_term_text v 0 0 u unit s Hv ltac:(lia) ltac:(simpl; lia) Hu Hne Hunit) as E.
  rewrite Z.mul_0_l, Z.add_0_r in E. apply E; [apply Z.divide_1_l|done|done|lia].
Qed.

(** The last term, whose unit is [10^prec] nanoseconds. *)
Lemma parse_fraction v w prec u tail d :
  0 ≤ v → w = v / 10 ^ Z.of_nat prec ∨ w = v / 10 ^ Z.of_nat prec mod 60 → (prec ≤ 9)%nat →
  str_forall unit_char u = true → u ≠ "" → unitMap u = Some (10 ^ Z.of_nat prec) →
  (fmtFrac prec v false u).1 = tail → 0 ≤ d →
  d + (w * 10 ^ Z.of_nat prec + v mod 10 ^ Z.of_nat prec) ≤ 2 ^ 63 →
  parse_terms (String.length (fmtInt w tail)) d (fmtInt w tail) =
    Ok (d + (w * 10 ^ Z.of_nat prec + v mod 10 ^ Z.of_nat prec)).
Proof.
  intros Hv Hw Hp Hu Hne Hunit <- Hd Hb.
  destruct (fmtFrac_spec prec v u Hv) as (k & f & Hk & Hf & Hm & ->). cbn [fst].
  pose proof (Z.pow_pos_nonneg 10 (Z.of_nat prec) ltac:(lia) ltac:(lia)).
  assert (10 ^ Z.of_nat prec = 10 ^ Z.of_nat (prec - k) * 10 ^ Z.of_nat k) as Epow.
  { rewrite <-Z.pow_add_r by lia. f_equal. lia. }
  assert (10 ^ Z.of_nat prec / 10 ^ Z.of_nat k = 10 ^ Z.of_nat (prec - k)) as Ediv.
  { rewrite Epow. apply Z.div_mul. pose proof (Z.pow_pos_nonneg 10 (Z.of_nat k)). lia. }
  assert (0 ≤ w) as Hw0.
  { pose proof (Z.div_pos v (10 ^ Z.of_nat prec)). destruct Hw as [->| ->]; [lia|]. apply Z.mod_pos_bound; lia. }
  assert (10 ^ Z.of_nat prec ≤ 10 ^ 9) by (apply Z.pow_le_mono_r; lia).
  assert (u = u +:+ "") as Eu by (clear; induction u as [|c u IH]; [done|by rewrite str_app_cons, <-IH]).
  erewrite (parse_terms_term d _ _ ""); cycle 1.
  - rewrite Eu at 1. apply (read_term_text w k f u (10 ^ Z.of_nat prec) ""); try done; [lia| |lia|].
    + exists (10 ^ Z.of_nat (prec - k)). lia.
    + rewrite Ediv, Hm. lia.
  - rewrite Ediv, Hm. lia.
  - rewrite Ediv, Hm. done.
Qed.

Lemma number_next_fmtInt v s : 0 ≤ v → number_next (fmtInt v s).
Proof. intros Hv. unfold fmtInt. by destruct (appendInt_head v s Hv) as (c & rest & -> & Hc & _). Qed.

(** Durations below a second: one term. *)
Lemma parse_small prec unit u :
  0 ≤ u ≤ 2 ^ 63 → (prec ≤ 9)%nat → str_forall unit_char unit = true → unit ≠ "" →
  unitMap unit = Some (10 ^ Z.of_nat prec) →
  let text := let '(tail, v) := fmtFrac prec u false unit in fmtInt v tail in
  parse_terms (String.length text) 0 text = Ok u.
Proof.
  intros Hu Hp Hc Hne Hunit. destruct (fmtFrac prec u false unit) as [tail v] eqn:E. cbv zeta.
  destruct (fmtFrac_spec prec u unit ltac:(lia)) as (k & f & _ & _ & _ & E'). rewrite E in E'. simplify_eq.
  pose proof (Z.div_mod u (10 ^ Z.of_nat prec) ltac:(pose proof (Z.pow_pos_nonneg 10 (Z.of_nat prec)); lia)).
  rewrite (parse_fraction u _ prec unit); [f_equal; lia|lia|by left|done|done|done|done|by rewrite E|lia|lia].
Qed.

(** The texts of [format_abs] from a second on: the seconds, the minutes in
    front of them, the hours in front of those. *)
Definition seconds_text (u : Z) : string := fmtInt (u / 1000000000 mod 60) (fmtFrac 9 u false "s").1.
Definition minutes_text (u : Z) : string :=
  fmtInt (u / 1000000000 / 60 mod 60) (String "m" (seconds_text u)).
Definition hours_text (u : Z) : string :=
  fmtInt (u / 1000000000 / 60 / 60) (String "h" (minutes_text u)).

Lemma format_abs_large u : second ≤ u →
  format_abs u = if u / 1000000000 / 60 <=? 0 then seconds_text u
                 else if u / 1000000000 / 60 / 60 <=? 0 then minutes_text u else hours_text u.
Proof.
  intros Hu. unfold format_abs. rewrite (proj2 (Z.ltb_ge u second)) by done.
  destruct (fmtFrac_spec 9 u "s") as (k & f & _ & _ & _ & E); [unfold second in Hu; lia|].
  unfold hours_text, minutes_text, seconds_text. rewrite E. cbn [fst].
  change (10 ^ Z.of_nat 9) with 1000000000. rewrite !Z.ltb_antisym.
  destruct (u / 1000000000 / 60 <=? 0); [done|]. cbn [negb]. by destruct (u / 1000000000 / 60 / 60 <=? 0).
Qed.

Lemma parse_seconds u d : 0 ≤ u → 0 ≤ d → d + u mod 60000000000 ≤ 2 ^ 63 →
  parse_terms (String.length (seconds_text u)) d (seconds_text u) = Ok (d + u mod 60000000000).
Proof.
  intros Hu Hd Hb.
  assert (u mod 60000000000 = u / 1000000000 mod 60 * 10 ^ Z.of_nat 9 + u mod 10 ^ Z.of_nat 9) as E.
  { change (10 ^ Z.of_nat 9) with 1000000000. change 60000000000 with (1000000000 * 60).
    rewrite Z.rem_mul_r by lia. lia. }
  rewrite E in Hb |- *. apply (parse_fraction u _ 9 "s"); done || (try right; done || lia).
Qed.

Lemma parse_minutes u d : 0 ≤ u → 0 ≤ d → d + u mod 3600000000000 ≤ 2 ^ 63 →
  parse_terms (String.length (minutes_text u)) d (minutes_text u) = Ok (d + u mod 3600000000000).
Proof.
  intros Hu Hd Hb. unfold minutes_text. rewrite Z.div_div by lia. change (1000000000 * 60) with 60000000000.
  pose proof (Z.mod_pos_bound u 60000000000 ltac:(done)).
  pose proof (Z.mod_pos_bound (u / 60000000000) 60 ltac:(done)).
  assert (u mod 3600000000000 = u / 60000000000 mod 60 * 60000000000 + u mod 60000000000) as E.
  { change 3600000000000 with (60000000000 * 60). rewrite Z.rem_mul_r by lia. lia. }
  change (String "m" ?x) with ("m" +:+ x). rewrite (parse_whole _ "m" 60000000000); try done; [|lia| |lia].
  - rewrite parse_seconds by lia. f_equal. lia.
  - apply number_next_fmtInt. apply Z.mod_pos_bound. done.
Qed.

Lemma parse_hours u : 0 ≤ u ≤ 2 ^ 63 →
  parse_terms (String.length (hours_text u)) 0 (hours_text u) = Ok u.
Proof.
  intros Hu. unfold hours_text. rewrite !Z.div_div by lia. change (1000000000 * (60 * 60)) with 3600000000000.
  pose proof (Z.div_mod u 3600000000000 ltac:(done)). pose proof (Z.mod_pos_bound u 3600000000000 ltac:(done)).
  pose proof (Z.div_pos u 3600000000000 ltac:(lia) ltac:(done)).
  change (String "h" ?x) with ("h" +:+ x). rewrite (parse_whole _ "h" 3600000000000); try done; [| |lia].
  - rewrite parse_minutes by lia. f_equal. lia.
  - apply number_next_fmtInt. apply Z.mod_pos_bound. done.
Qed.

Lemma below_unit u n : 0 ≤ u → 0 < n → u / n ≤ 0 → u < n.
Proof. intros Hu Hn Hd. pose proof (Z.div_mod u n ltac:(lia)). pose proof (Z.mod_pos_bound u n Hn). nia. Qed.

(** A text of [format_abs] starts with a digit. *)
Lemma format_abs_head u : 0 ≤ u →
  match format_abs u with String c _ => c ≠ "-"%char ∧ c ≠ "+"%char | EmptyString => False end.
Proof.
  intros Hu. assert (∀ v s, 0 ≤ v →
    match fmtInt v s with String c _ => c ≠ "-"%char ∧ c ≠ "+"%char | EmptyString => False end) as Hint.
  { intros v s Hv. unfold fmtInt. destruct (appendInt_head v s Hv) as (c & rest & -> & _ & ? & ?). done. }
  destruct (Z.lt_ge_cases u second) as [Hs|Hs].
  - assert (∀ p t, let '(tail, v) := fmtFrac p u false t in
      match fmtInt v tail with String c _ => c ≠ "-"%char ∧ c ≠ "+"%char | EmptyString => False end) as Hfrac.
    { intros p t. destruct (fmtFrac_spec p u t Hu) as (? & ? & _ & _ & _ & ->). apply Hint.
      apply Z.div_pos; [lia|apply Z.pow_pos_nonneg; lia]. }
    unfold format_abs. rewrite (proj2 (Z.ltb_lt _ _)) by done. destruct (u =? 0); [done|].
    destruct (u <? microsecond); [|destruct (u <? millisecond)].
    + specialize (Hfrac 0%nat "ns"). by destruct (fmtFrac 0 u false "ns").
    + specialize (Hfrac 3%nat (micro_sign +:+ "s")). by destruct (fmtFrac 3 u false (micro_sign +:+ "s")).
    + specialize (Hfrac 6%nat "ms"). by destruct (fmtFrac 6 u false "ms").
  - rewrite format_abs_large by done. unfold hours_text, minutes_text, seconds_text.
    destruct (_ <=? 0); [|destruct (_ <=? 0)]; apply Hint;
      repeat first [lia | apply Z.mod_pos_bound; done | apply Z.div_pos; [|done]].
Qed.

(** The text of an absolute value is read back by the loop. *)
Lemma parse_format_abs u : 0 ≤ u ≤ 2 ^ 63 →
  parse_terms (String.length (format_abs u)) 0 (format_abs u) = Ok u.
Proof.
  intros Hu. destruct (Z.lt_ge_cases u second) as [Hs|Hs].
  - unfold format_abs. rewrite (proj2 (Z.ltb_lt _ _)) by done.
    destruct (Z.eqb_spec u 0) as [->|]; [by vm_compute|].
    destruct (u <? microsecond); [|destruct (u <? millisecond)].
    + apply (parse_small 0 "ns"); done || lia.
    + apply (parse_small 3 (micro_sign +:+ "s")); done || lia.
    + apply (parse_small 6 "ms"); done || lia.
  - rewrite format_abs_large by done. change second with 1000000000 in Hs.
    pose proof (Z.div_pos u 60000000000 ltac:(lia) ltac:(done)).
    rewrite !Z.div_div by lia. change (1000000000 * 60) with 60000000000.
    change (60000000000 * 60) with 3600000000000.
    destruct (Z.leb_spec (u / 60000000000) 0); [|destruct (Z.leb_spec (u / 3600000000000) 0)].
    + pose proof (below_unit u 60000000000 ltac:(lia) ltac:(lia) H0).
      rewrite parse_seconds; rewrite ?Z.mod_small; done || lia.
    + pose proof (below_unit u 3600000000000 ltac:(lia) ltac:(lia) H1).
      rewrite parse_minutes; rewrite ?Z.mod_small; done || lia.
    + by apply parse_hours.
Qed.

(** A duration is read back from its text, the least [int64] included. *)
Lemma Parse_String d : in_int64 d → ParseDuration (Duration_String d) = Ok d.
Proof.
  unfold in_int64. intros Hd.
  assert (∀ u, 0 ≤ u ≤ 2 ^ 63 → read_sign (format_abs u) = (false, format_abs u) ∧ format_abs u ≠ "0" ∧ format_abs u ≠ "")
    as Htext.
  { intros u Hu. pose proof (parse_format_abs u Hu) as Hp. pose proof (format_abs_head u ltac:(lia)) as Hh.
    split_and!; [|intros E; by rewrite E in Hp|intros E; by rewrite E in Hh].
    destruct (format_abs u) as [|c s]; [done|]. destruct Hh as [Hm Hpl].
    unfold read_sign. by rewrite !decide_False. }
  unfold Duration_String, ParseDuration. destruct (Z.ltb_spec d 0).
  - unfold read_sign. rewrite decide_True by done. destruct (Htext (- d) ltac:(lia)) as (_ & H0 & H1).
    rewrite !decide_False by done. rewrite parse_format_abs by lia. f_equal. lia.
  - destruct (Htext d ltac:(lia)) as (-> & H0 & H1). rewrite !decide_False by done.
    rewrite parse_format_abs by lia. by rewrite (proj2 (Z.ltb_ge _ _)) by lia.
Qed.

(** * What [ParseDuration] returns is a [time.Duration] *)

Definition nonneg (x : float64) : Prop :=
  match x with NaN => True | Inf negative => negative = false | Fin m _ => 0 ≤ m end.

Lemma round64_nonneg m e : 0 ≤ m → nonneg (round64 m e).
Proof.
  intros Hm. unfold round64. destruct (Z.eqb_spec m 0) as [|Hne]; [done|].
  set (shift := Z.max _ _). assert (m <? 0 = false) as -> by lia.
  destruct (Z.leb_spec shift 0) as [Hs|Hs]; (case_match; [done|]); simpl; rewrite Z.sgn_pos by lia; [lia|].
  pose proof (round_shift_lower (Z.abs m) shift 0 Hs). lia.
Qed.

Lemma fmul_nonneg x y : nonneg x → nonneg y → nonneg (fmul x y).
Proof.
  destruct x as [|a|m e], y as [|b|n f]; simpl; intros Hx Hy; try done.
  - by subst.
  - subst a. destruct (Z.eqb_spec n 0); [done|]. simpl. lia.
  - subst b. destruct (Z.eqb_spec m 0); [done|]. simpl. lia.
  - apply round64_nonneg. lia.
Qed.

Lemma fdiv_nonneg x y : nonneg x → nonneg y → nonneg (fdiv x y).
Proof.
  destruct x as [|a|m e], y as [|b|n f]; simpl; intros Hx Hy; try done.
  - subst a. simpl. lia.
  - destruct (Z.eqb_spec n 0); destruct (Z.eqb_spec m 0); simpl; try done; [lia|].
    assert (xorb (m <? 0) (n <? 0) = false) as ->.
    { assert (m <? 0 = false) as -> by lia. by assert (n <? 0 = false) as -> by lia. }
    unfold fdiv_pos. apply round64_nonneg.
    assert (0 ≤ Z.abs m * 2 ^ (64 + bits (Z.abs n)) / Z.abs n); [|case_match; lia].
    apply Z.div_pos; [|lia]. apply Z.mul_nonneg_nonneg; [lia|]. apply Z.pow_nonneg. lia.
Qed.

Lemma fraction_ns_nonneg f scale unit : 0 ≤ f → nonneg scale → 0 ≤ unit → 0 ≤ fraction_ns f scale unit.
Proof.
  intros Hf Hs Hu. unfold fraction_ns.
  pose proof (fmul_nonneg (of_int f) (fdiv (of_int unit) scale)) as Hm.
  destruct (fmul _ _) as [| |m e]; [done..|]. simpl in Hm.
  assert (0 ≤ m) by (apply Hm; [|apply fdiv_nonneg; [|done]]; by apply round64_nonneg).
  unfold trunc. apply Z.quot_pos; [|apply Z.pow_pos_nonneg; lia].
  apply Z.mul_nonneg_nonneg; [lia|]. apply Z.pow_nonneg. lia.
Qed.

Lemma digit_value_nonneg c d : digit_value c = Some d → 0 ≤ d.
Proof. unfold digit_value. case_match; [|done]. intros [= <-]. lia. Qed.

Lemma leadingInt_nonneg x s v rest : 0 ≤ x → leadingInt x s = Some (v, rest) → 0 ≤ v.
Proof.
  revert x. induction s as [|c s IH]; intros x Hx; simpl; [by intros [= <- <-]|].
  destruct (digit_value c) as [d|] eqn:Hd; [|by intros [= <- <-]]. apply digit_value_nonneg in Hd.
  case_match; [done|]. case_match; [done|]. apply IH. lia.
Qed.

Lemma leadingFraction_nonneg x scale over s f scale' rest : 0 ≤ x → nonneg scale →
  leadingFraction x scale over s = (f, scale', rest) → 0 ≤ f ∧ nonneg scale'.
Proof.
  revert x scale over. induction s as [|c s IH]; intros x scale over Hx Hs; simpl; [by intros [= <- <- <-]|].
  destruct (digit_value c) as [d|] eqn:Hd; [|by intros [= <- <- <-]]. apply digit_value_nonneg in Hd.
  destruct over; [by apply IH|]. case_match; [by apply IH|]. case_match; [by apply IH|].
  apply IH; [lia|]. apply fmul_nonneg; [done|]. simpl. lia.
Qed.

Lemma unitMap_pos u unit : unitMap u = Some unit → 0 < unit.
Proof. unfold unitMap. repeat (case_decide; [intros [= <-]; vm_compute; done|]). done. Qed.

Lemma read_term_nonneg s v rest : read_term s = Ok (v, rest) → 0 ≤ v.
Proof.
  unfold read_term. destruct s as [|c s]; [done|]. case_match; [done|].
  destruct (leadingInt 0 (String c s)) as [[v0 s1]|] eqn:Hi; [|done]. apply leadingInt_nonneg in Hi; [|done].
  destruct (read_fraction s1) as [[[f scale] s2] post] eqn:Hf.
  assert (0 ≤ f ∧ nonneg scale) as [Hf0 Hsc].
  { unfold read_fraction in Hf. destruct s1 as [|c1 s1]; [injection Hf as <- <- <- <-; simpl; lia|].
    case_decide; [|injection Hf as <- <- <- <-; simpl; lia].
    destruct (leadingFraction 0 (Fin 1 0) false s1) as [[f' scale'] rest'] eqn:Hl.
    injection Hf as <- <- <- <-. eapply leadingFraction_nonneg; [..|exact Hl]; simpl; lia. }
  destruct (negb _ && negb post); [done|]. destruct (span_unit s2) as [u s3]. destruct (decide (u = "")); [done|].
  destruct (unitMap u) as [unit|] eqn:Hu; [|done]. apply unitMap_pos in Hu.
  case_match; [done|]. pose proof (fraction_ns_nonneg f scale unit Hf0 Hsc).
  case_match; [|intros [= <- _]; nia]. case_match; [done|]. intros [= <- _]. nia.
Qed.

Lemma parse_terms_range fuel d s r : 0 ≤ d ≤ 2 ^ 63 → parse_terms fuel d s = Ok r → 0 ≤ r ≤ 2 ^ 63.
Proof.
  revert d s. induction fuel as [|fuel IH]; intros d s Hd; (destruct s as [|c s]; [by intros [= <-]|]); [done|].
  cbn [parse_terms]. destruct (read_term (String c s)) as [[v rest]|] eqn:Hr; [|done].
  apply read_term_nonneg in Hr. destruct (Z.ltb_spec (2 ^ 63) (d + v)); [done|]. apply IH. lia.
Qed.

Lemma ParseDuration_range s d : ParseDuration s = Ok d → in_int64 d.
Proof.
  unfold ParseDuration. destruct (read_sign s) as [neg s']. unfold in_int64.
  case_decide; [intros [= <-]; lia|]. case_decide; [done|].
  destruct (parse_terms _ 0 s') as [r|] eqn:Hp; [|done]. apply parse_terms_range in Hp; [|lia].
  destruct neg; [intros [= <-]; lia|]. destruct (Z.ltb_spec (2 ^ 63 - 1) r); [done|]. intros [= <-]. lia.
Qed.
