(* ===== verification/Retry.v ===== *)
(** The retry policy: [internal/retry/policy.go].

    Durations are 64-bit integers, the scale and jitter computations are on
    [float64] ([Float64.v]).  Two things the language leaves open are
    arguments: [unrepresentable], the integer the conversion of a [float64]
    that does not fit yields, and the texts of numbers in error messages.  A
    [Randomiser] is the value its [Float64] method returns at this call. *)

From S2P Require Import Prelude Errors Float64.

Local Open Scope Z_scope.

Record Policy := mkPolicy {
  p_MaxAttempts : Z;
  p_InitialInterval : Duration;
  p_MaxInterval : Duration;
  p_Multiplier : float64;
  p_JitterFraction : float64;
}.

Module Defaults.
Definition defaultMaxAttempts : Z := 3.
Definition defaultInitialInterval : Duration := 500 * millisecond.
Definition defaultMaxInterval : Duration := 5 * minute.
Definition defaultMultiplier : float64 := f_two.
(** The [float64] nearest to 1/5. *)
Definition defaultJitterFraction : float64 := Fin 3602879701896397 (-54).
End Defaults.

Definition Default : Policy :=
  mkPolicy Defaults.defaultMaxAttempts Defaults.defaultInitialInterval Defaults.defaultMaxInterval
    Defaults.defaultMultiplier Defaults.defaultJitterFraction.

Definition f_zero : float64 := Fin 0 0.

Definition WithDefaults (p : Policy) : Policy :=
  mkPolicy
    (if p_MaxAttempts p <=? 0 then p_MaxAttempts Default else p_MaxAttempts p)
    (if p_InitialInterval p <=? 0 then p_InitialInterval Default else p_InitialInterval p)
    (if p_MaxInterval p <=? 0 then p_MaxInterval Default else p_MaxInterval p)
    (if fle (p_Multiplier p) f_zero then p_Multiplier Default else p_Multiplier p)
    (if flt (p_JitterFraction p) f_zero then f_zero else p_JitterFraction p).

Section policy.
(** [Duration.String], [%d] and [%.2f]. *)
Context (fmt_duration : Duration → string) (fmt_int : Z → string) (fmt_float : float64 → string).
(** [int64(x)] when the truncated [x] is not an [int64]. *)
Context (unrepresentable : float64 → Z).

Definition Policy_Validate (p : Policy) : result error unit :=
  if p_MaxAttempts p <? 1 then
    Err (errorString ("retry: max_attempts must be at least 1, got " +:+ fmt_int (p_MaxAttempts p)))
  else if p_InitialInterval p <=? 0 then
    Err (errorString ("retry: initial_interval must be positive, got "
                        +:+ fmt_duration (p_InitialInterval p)))
  else if p_MaxInterval p <? p_InitialInterval p then
    Err (errorString ("retry: max_interval " +:+ fmt_duration (p_MaxInterval p)
                        +:+ " must not be shorter than initial_interval "
                        +:+ fmt_duration (p_InitialInterval p)))
  else if flt (p_Multiplier p) f_one then
    Err (errorString ("retry: multiplier must be at least 1, got " +:+ fmt_float (p_Multiplier p)))
  else if flt (p_JitterFraction p) f_zero || flt f_one (p_JitterFraction p) then
    Err (errorString ("retry: jitter_fraction must be within [0,1], got "
                        +:+ fmt_float (p_JitterFraction p)))
  else Ok tt.

Definition ShouldRetry (p : Policy) (attempts : Z) : bool := attempts <? p_MaxAttempts p.

(** [time.Duration(x)] *)
Definition to_duration (x : float64) : Duration :=
  match x with
  | Fin m e =>
      let t := trunc m e in
      if (- 2 ^ 63 <=? t) && (t <? 2 ^ 63) then t else wrap64 (unrepresentable x)
  | _ => wrap64 (unrepresentable x)
  end.

Definition Backoff (p : Policy) (attempt : Z) : Duration :=
  let attempt := if attempt <? 1 then 1 else attempt in
  let scaled := fmul (of_int (p_InitialInterval p)) (Pow (p_Multiplier p) (attempt - 1)) in
  if flt (of_int (p_MaxInterval p)) scaled || IsInf scaled then p_MaxInterval p
  else to_duration scaled.

(** [random] is the value of [source.Float64()]. *)
Definition BackoffWithJitter (p : Policy) (attempt : Z) (random : float64) : Duration :=
  let base := Backoff p attempt in
  if feq (p_JitterFraction p) f_zero then base
  else
    let spread := fmul (of_int base) (p_JitterFraction p) in
    let offset := fmul spread (fsub (fmul f_two random) f_one) in
    let jittered := to_duration (fadd (of_int base) offset) in
    if jittered <? 0 then 0
    else if p_MaxInterval p <? jittered then p_MaxInterval p
    else jittered.

Definition NextAttemptAt (p : Policy) (now : Time) (attempt : Z) (random : float64) : Time :=
  now + BackoffWithJitter p attempt random.
End policy.
