(* ===== verification/RetryProofs.v ===== *)
(** Bounds of the retry policy ([Retry.v]). *)

From S2P Require Import Prelude Errors Float64 FloatProofs Retry.

Local Open Scope Z_scope.

Section bounds.
Context (fmt_duration : Duration → string) (fmt_int : Z → string) (fmt_float : float64 → string).
Context (unrepresentable : float64 → Z).

(** What [Validate] accepts. *)
Lemma Validate_Ok p : Policy_Validate fmt_duration fmt_int fmt_float p = Ok tt →
  1 ≤ p_MaxAttempts p ∧ 0 < p_InitialInterval p ≤ p_MaxInterval p ∧
  flt (p_Multiplier p) f_one = false ∧ flt (p_JitterFraction p) f_zero = false ∧
  flt f_one (p_JitterFraction p) = false.
Proof.
  unfold Policy_Validate.
  case_match eqn:H1; [done|]. case_match eqn:H2; [done|]. case_match eqn:H3; [done|].
  case_match eqn:H4; [done|]. case_match eqn:H5; [done|]. intros _.
  apply Z.ltb_ge in H1, H3. apply Z.leb_gt in H2. apply orb_false_iff in H5 as [??].
  split_and!; done || lia.
Qed.

Lemma multiplier_ge_one x : x ≠ NaN → flt x f_one = false → at_least 1 0 x.
Proof.
  intros Hn Hf. destruct x as [|[]|m e]; [done|done|by left|]. right.
  exists m, e. apply (flt_false m e 1 0) in Hf. split_and!; [done| |done].
  rewrite (dle_at (Z.min e 0)) in Hf by lia.
  pose proof (Z.pow_pos_nonneg 2 (0 - Z.min e 0) ltac:(lia) ltac:(lia)).
  pose proof (Z.pow_pos_nonneg 2 (e - Z.min e 0) ltac:(lia) ltac:(lia)). nia.
Qed.

Lemma fmul_at_least i x : 0 < i < 2 ^ 53 → at_least 1 0 x → at_least i 0 (fmul (Fin i 0) x).
Proof.
  intros Hi [->|(m & e & -> & Hm & Hle)]; simpl.
  - left. rewrite (proj2 (Z.eqb_neq i 0)), (proj2 (Z.ltb_ge i 0)) by lia. done.
  - apply round64_lower; [nia|lia|lia|]. replace i with (i * 1) at 1 by lia.
    replace 0 with (0 + 0) at 1 by lia. apply dle_mul; [lia..|apply dle_refl|done].
Qed.

Lemma Backoff_range p attempt :
  Policy_Validate fmt_duration fmt_int fmt_float p = Ok tt →
  p_Multiplier p ≠ NaN → p_MaxInterval p < 2 ^ 53 →
  p_InitialInterval p ≤ Backoff unrepresentable p attempt ≤ p_MaxInterval p.
Proof.
  intros (_ & Hi & Hm & _)%Validate_Ok Hn Hmax. unfold Backoff.
  set (n := (if attempt <? 1 then 1 else attempt) - 1).
  rewrite !of_int_exact by lia.
  pose proof (fmul_at_least (p_InitialInterval p) (Pow (p_Multiplier p) n) ltac:(lia)
    (Pow_ge_one _ n (multiplier_ge_one _ Hn Hm))) as Hs.
  set (scaled := fmul _ _) in *. clearbody scaled.
  destruct (flt _ scaled) eqn:Hf; simpl; [lia|].
  destruct Hs as [->|(q & e & -> & Hq & Hle)]; [simpl; lia|]. cbn [IsInf to_duration].
  apply flt_false in Hf.
  pose proof (trunc_lower _ q e ltac:(lia) Hle). pose proof (trunc_upper _ q e ltac:(lia) Hf).
  rewrite (proj2 (Z.leb_le _ _)), (proj2 (Z.ltb_lt _ _)) by lia. simpl. lia.
Qed.

Lemma BackoffWithJitter_range p attempt random :
  Policy_Validate fmt_duration fmt_int fmt_float p = Ok tt →
  p_Multiplier p ≠ NaN → p_MaxInterval p < 2 ^ 53 →
  0 ≤ BackoffWithJitter unrepresentable p attempt random ≤ p_MaxInterval p.
Proof.
  intros Hv Hn Hmax. pose proof (Backoff_range p attempt Hv Hn Hmax).
  apply Validate_Ok in Hv as (_ & Hi & _). unfold BackoffWithJitter.
  case_match; [lia|]. case_match eqn:H1; [lia|]. apply Z.ltb_ge in H1.
  case_match eqn:H2; [lia|]. apply Z.ltb_ge in H2. lia.
Qed.
End bounds.

(** * Properties *)

(** C34: For every validated policy whose multiplier is a number and whose
    maximum is below [2^53] ns (over a hundred days), and for every attempt
    number whatsoever, the back-off lies between the initial and the maximum
    interval, with float rounding and overflow of the power taken into
    account; and the next attempt is never scheduled before now nor later than
    the maximum interval from now, whatever the random source returns. *)
Theorem backoff_within_bounds fd fi ff unrepresentable p attempt random now :
  Policy_Validate fd fi ff p = Ok tt → p_Multiplier p ≠ NaN → p_MaxInterval p < 2 ^ 53 →
  p_InitialInterval p ≤ Backoff unrepresentable p attempt ≤ p_MaxInterval p ∧
  now ≤ NextAttemptAt unrepresentable p now attempt random ≤ now + p_MaxInterval p.
Proof.
  intros Hv Hn Hmax. split; [by eapply Backoff_range|]. unfold NextAttemptAt.
  pose proof (BackoffWithJitter_range fd fi ff unrepresentable p attempt random Hv Hn Hmax). lia.
Qed.

(** The first [n] attempts of the default policy, doubling up to the cap. *)
Definition doubling (attempt : Z) : Duration :=
  Z.min (Defaults.defaultInitialInterval * 2 ^ (attempt - 1)) Defaults.defaultMaxInterval.

Lemma default_table :
  forallb (fun n => Backoff (fun _ => 0) Default (Z.of_nat n) =? doubling (Z.of_nat n)) (seq 1 128)
  = true.
Proof. vm_compute. reflexivity. Qed.

(** The default policy passes its own validation, filling in defaults
    leaves it as it is, and its back-off doubles exactly from 500 ms at each
    attempt until it reaches the cap of five minutes (attempts 1 to 128). *)
Theorem default_policy_doubles fd fi ff attempt :
  1 ≤ attempt ≤ 128 →
  Policy_Validate fd fi ff Default = Ok tt ∧ WithDefaults Default = Default ∧
  Backoff (fun _ => 0) Default attempt =
    Z.min (Defaults.defaultInitialInterval * 2 ^ (attempt - 1)) Defaults.defaultMaxInterval.
Proof.
  intros Ha. split_and!; [done..|].
  pose proof (proj1 (forallb_forall _ _) default_table (Z.to_nat attempt)) as H.
  rewrite in_seq, Z2Nat.id in H by lia. apply Z.eqb_eq, H. lia.
Qed.

(** A policy whose multiplier is not a number passes validation. *)
Definition nan_policy : Policy := mkPolicy 3 (500 * millisecond) (5 * minute) NaN f_zero.

(** The hypothesis on the multiplier cannot be dropped: [Validate]
    accepts a multiplier that is not a number, and then the back-off of every
    attempt but the first is whatever the conversion of NaN to an integer
    yields on the platform, which may be negative. *)
Theorem nan_multiplier_accepted fd fi ff unrepresentable attempt :
  2 ≤ attempt < 2 ^ 53 →
  Policy_Validate fd fi ff (WithDefaults nan_policy) = Ok tt ∧
  Backoff unrepresentable (WithDefaults nan_policy) attempt = wrap64 (unrepresentable NaN).
Proof.
  intros Ha. split; [done|]. unfold Backoff. rewrite (proj2 (Z.ltb_ge attempt 1)) by lia.
  unfold Pow. rewrite (of_int_exact (attempt - 1)) by lia.
  assert (trunc (attempt - 1) 0 = attempt - 1) as ->.
  { unfold trunc. simpl. by rewrite Z.mul_1_r, Z.quot_1_r. }
  rewrite (proj2 (Z.eqb_neq (attempt - 1) 0)) by lia. cbn [orb p_Multiplier WithDefaults nan_policy].
  by destruct (attempt - 1 =? 1).
Qed.

(** * Witnesses *)

Lemma backoff_within_bounds_witness :
  500000000 ≤ Backoff (fun _ => -1) Default 7 ≤ 300000000000 ∧
  1000 ≤ NextAttemptAt (fun _ => -1) Default 1000 7 f_half ≤ 1000 + 300000000000.
Proof.
  apply (backoff_within_bounds (fun _ => "") (fun _ => "") (fun _ => "") (fun _ => -1) Default).
  - reflexivity.
  - discriminate.
  - reflexivity.
Defined.

Lemma default_policy_doubles_witness : Backoff (fun _ => 0) Default 4 = 4000000000.
Proof.
  destruct (default_policy_doubles (fun _ => "") (fun _ => "") (fun _ => "") 4) as (_ & _ & ->);
    [lia|reflexivity].
Defined.

Lemma nan_multiplier_accepted_witness :
  Backoff (fun _ => - 2 ^ 63) (WithDefaults nan_policy) 2 = - 2 ^ 63.
Proof.
  destruct (nan_multiplier_accepted (fun _ => "") (fun _ => "") (fun _ => "") (fun _ => - 2 ^ 63) 2)
    as [_ ->]; [lia|reflexivity].
Defined.
