(* ===== verification/Logging.v ===== *)
(** Choosing a log level and format: [internal/logging/logging.go].

    The logger itself only writes; what can fail is the reading of the level
    and of the format. *)

From S2P Require Import Prelude Errors.

Definition ascii_string (l : list N) : string := foldr (fun n s => String (ascii_of_N n) s) "" l.

(** * Package strings *)

Definition lower_byte (c : ascii) : ascii :=
  let n := N_of_ascii c in if ((65 <=? n) && (n <=? 90))%N then ascii_of_N (n + 32) else c.

(** [strings.ToLower], as far as a comparison with an ASCII word can tell: of
    the letters outside ASCII only U+0130 and U+212A have an ASCII letter as
    their lower case. *)
Fixpoint ToLower (s : string) : string :=
  match s with
  | EmptyString => ""
  | String c s1 =>
      let other := String (lower_byte c) (ToLower s1) in
      match s1 with
      | EmptyString => other
      | String d s2 =>
          if bool_decide (N_of_ascii c = 196%N ∧ N_of_ascii d = 176%N) then String "i" (ToLower s2)
          else match s2 with
          | EmptyString => other
          | String e s3 =>
              if bool_decide (N_of_ascii c = 226%N ∧ N_of_ascii d = 132%N ∧ N_of_ascii e = 170%N)
              then String "k" (ToLower s3) else other
          end
      end
  end.

(** The white space of [unicode.IsSpace], in UTF-8. *)
Definition spaces : list string := ascii_string <$> [
  [9]; [10]; [11]; [12]; [13]; [32]; [194; 133]; [194; 160]; [225; 154; 128];
  [226; 128; 128]; [226; 128; 129]; [226; 128; 130]; [226; 128; 131]; [226; 128; 132];
  [226; 128; 133]; [226; 128; 134]; [226; 128; 135]; [226; 128; 136]; [226; 128; 137];
  [226; 128; 138]; [226; 128; 168]; [226; 128; 169]; [226; 128; 175]; [226; 129; 159];
  [227; 128; 128]]%N.

Fixpoint str_rev (s : string) : string :=
  match s with EmptyString => "" | String c s' => str_rev s' +:+ String c "" end.

Fixpoint str_drop (n : nat) (s : string) : string :=
  match n, s with
  | S n', String _ s' => str_drop n' s'
  | _, _ => s
  end.

(** Prefixes of the given texts removed, as often as the text is long at most. *)
Fixpoint trim_prefixes (fuel : nat) (cut : list string) (s : string) : string :=
  match fuel with
  | O => s
  | S fuel' =>
      match List.find (fun p => str_has_prefix p s) cut with
      | Some p => trim_prefixes fuel' cut (str_drop (String.length p) s)
      | None => s
      end
  end.

(** [strings.TrimSpace] *)
Definition TrimSpace (s : string) : string :=
  let s := trim_prefixes (String.length s) spaces s in
  str_rev (trim_prefixes (String.length s) (str_rev <$> spaces) (str_rev s)).

(** * The package *)

Definition FormatJSON : string := "json".
Definition FormatText : string := "text".

Inductive Level := LevelDebug | LevelInfo | LevelWarn | LevelError.
Inductive Handler := JSONHandler | TextHandler.

Definition ParseLevel (raw : string) : result error Level :=
  let level := ToLower (TrimSpace raw) in
  if decide (level = "debug") then Ok LevelDebug
  else if decide (level ∈ [""; "info"]) then Ok LevelInfo
  else if decide (level ∈ ["warn"; "warning"]) then Ok LevelWarn
  else if decide (level = "error") then Ok LevelError
  else Err (errorString ("logging: unsupported level " +:+ quote raw)).

Module logging.
Record Options := mkOptions {
  lo_Level : string;
  lo_Format : string;
  lo_Service : string;
  lo_Version : string;
}.

(** [logging.New]: the level, the handler and its attributes. *)
Definition New (opts : Options) : result error (Level * Handler * list (string * string)) :=
  level ← ParseLevel (lo_Level opts);
  let format := ToLower (TrimSpace (lo_Format opts)) in
  handler ← (if decide (format ∈ [""; FormatJSON]) then Ok JSONHandler
             else if decide (format = FormatText) then Ok TextHandler
             else Err (errorString ("logging: unsupported format " +:+ quote (lo_Format opts))));
  Ok (level, handler,
      (if str_empty (lo_Service opts) then [] else [("service", lo_Service opts)]) ++
      (if str_empty (lo_Version opts) then [] else [("version", lo_Version opts)])).
End logging.
