(* ===== verification/Config.v ===== *)
(** The configuration of the broker: [internal/config] (config.go, duration.go).

    Decoding YAML is the work of a third-party package: [Load] has what the
    file holds, the decoder and the environment as arguments.  The decoder
    gets the defaults and returns them with the document's fields set. *)

From S2P Require Import Prelude Errors Float64 DurationText Retry Logging.

Local Open Scope Z_scope.

(** * Durations *)

(** [node.Decode(&raw)] gives [raw], or fails; the text of the node is shown then. *)
Definition UnmarshalYAML (node_Value : string) (raw : result error string) : result error Duration :=
  match raw with
  | Err _ => Err (errorString ("config: " +:+ node_Value +:+ " is not a duration string"))
  | Ok raw =>
      match ParseDuration raw with
      | Err e => Err (wrapError ("config: invalid duration " +:+ quote raw +:+ ": ")
                        (errorString (duration_error_text quote raw e)) "")
      | Ok parsed => Ok parsed
      end
  end.

Definition MarshalYAML (d : Duration) : string := Duration_String d.

Definition orDefault (value fallback : Duration) : Duration := if value =? 0 then fallback else value.

(** * The document *)

Definition envAddress : string := "RABBITMQ_LITE_ADDRESS".
Definition envStorageDSN : string := "RABBITMQ_LITE_STORAGE_DSN".
Definition envLogLevel : string := "RABBITMQ_LITE_LOG_LEVEL".
Definition envLogFormat : string := "RABBITMQ_LITE_LOG_FORMAT".

Module config.
Record Server := mkServer {
  sv_Address : string;
  sv_ReadTimeout : Duration;
  sv_WriteTimeout : Duration;
  sv_IdleTimeout : Duration;
  sv_ShutdownTimeout : Duration;
  sv_MaxBodyBytes : Z;
}.

Record Storage := mkStorage {
  sg_Driver : string;
  sg_DSN : string;
  sg_BusyTimeout : Duration;
  sg_JournalMode : string;
  sg_Synchronous : string;
  sg_MaxOpenConns : Z;
}.

Record Engine := mkEngine {
  en_ReclaimInterval : Duration;
  en_VisibilityTimeout : Duration;
  en_MaxAttempts : Z;
}.

Record Retry := mkRetry {
  rt_MaxAttempts : Z;
  rt_InitialInterval : Duration;
  rt_MaxInterval : Duration;
  rt_Multiplier : float64;
  rt_JitterFraction : float64;
}.

Record Logging := mkLogging {
  lg_Level : string;
  lg_Format : string;
}.

Record ExchangeDeclaration := mkExchangeDeclaration {
  ed_Name : string;
  ed_Kind : string;
  ed_Durable : bool;
}.

Record QueueDeclaration := mkQueueDeclaration {
  qd_Name : string;
  qd_Durable : bool;
  qd_MaxAttempts : Z;
  qd_VisibilityTimeout : Duration;
  qd_Schema : string;
}.

Record BindingDeclaration := mkBindingDeclaration {
  bd_Exchange : string;
  bd_Queue : string;
  bd_RoutingKey : string;
}.

Record Topology := mkTopology {
  tp_Exchanges : list ExchangeDeclaration;
  tp_Queues : list QueueDeclaration;
  tp_Bindings : list BindingDeclaration;
}.

(** [Schemas] has one field, the directory. *)
Record Config := mkConfig {
  c_Server : Server;
  c_Storage : Storage;
  c_Engine : Engine;
  c_Retry : Retry;
  c_Schemas : string;
  c_Logging : Logging;
  c_Topology : Topology;
}.

Definition Default : Config := mkConfig
  (mkServer ":8080" (10 * second) (15 * second) (60 * second) (20 * second) (2 ^ 20))
  (mkStorage "sqlite" "data/broker.db" (5 * second) "WAL" "NORMAL" 1)
  (mkEngine (5 * second) (30 * second) 3)
  (mkRetry 3 (500 * millisecond) (5 * minute) f_two Defaults.defaultJitterFraction)
  "schemas"
  (mkLogging "info" "json")
  (mkTopology [] [] []).

Definition set_Address (v : string) (s : Server) : Server :=
  mkServer v (sv_ReadTimeout s) (sv_WriteTimeout s) (sv_IdleTimeout s) (sv_ShutdownTimeout s)
    (sv_MaxBodyBytes s).
Definition set_DSN (v : string) (s : Storage) : Storage :=
  mkStorage (sg_Driver s) v (sg_BusyTimeout s) (sg_JournalMode s) (sg_Synchronous s) (sg_MaxOpenConns s).

(** [if value := os.Getenv(name); value != ""] *)
Definition overridden (getenv : string → string) (name current : string) : string :=
  if str_empty (getenv name) then current else getenv name.

Definition applyEnvironment (getenv : string → string) (c : Config) : Config := mkConfig
  (set_Address (overridden getenv envAddress (sv_Address (c_Server c))) (c_Server c))
  (set_DSN (overridden getenv envStorageDSN (sg_DSN (c_Storage c))) (c_Storage c))
  (c_Engine c) (c_Retry c) (c_Schemas c)
  (mkLogging (overridden getenv envLogLevel (lg_Level (c_Logging c)))
             (overridden getenv envLogFormat (lg_Format (c_Logging c))))
  (c_Topology c).

Definition RetryPolicy (c : Config) : Policy :=
  let r := c_Retry c in
  WithDefaults (mkPolicy (rt_MaxAttempts r)
    (orDefault (rt_InitialInterval r) (500 * millisecond))
    (orDefault (rt_MaxInterval r) (5 * minute))
    (rt_Multiplier r) (rt_JitterFraction r)).

Definition MaxBodyBytes (c : Config) : Z :=
  if sv_MaxBodyBytes (c_Server c) <=? 0 then 2 ^ 20 else sv_MaxBodyBytes (c_Server c).

Section validate.
(** [%d] and [%.2f]. *)
Context (fmt_int : Z → string) (fmt_float : float64 → string).

Definition Validate (c : Config) : result error unit :=
  let server := c_Server c in let storage := c_Storage c in let topology := c_Topology c in
  if str_empty (sv_Address server) then Err (errorString "config: server.address must not be empty")
  else if negb (bool_decide (sg_Driver storage ∈ ["sqlite"; "memory"]))
  then Err (errorString ("config: unsupported storage driver " +:+ quote (sg_Driver storage)))
  else if bool_decide (sg_Driver storage = "sqlite") && str_empty (sg_DSN storage)
  then Err (errorString "config: storage.dsn is required for the sqlite driver")
  else if en_MaxAttempts (c_Engine c) <? 1
  then Err (errorString "config: engine.max_attempts must be at least 1")
  else if flt (rt_JitterFraction (c_Retry c)) f_zero || flt f_one (rt_JitterFraction (c_Retry c))
  then Err (errorString ("config: retry.jitter_fraction must be within [0,1], got "
                           +:+ fmt_float (rt_JitterFraction (c_Retry c))))
  else
    Policy_Validate Duration_String fmt_int fmt_float (RetryPolicy c) ≫= fun _ =>
    if negb (bool_decide (ToLower (lg_Format (c_Logging c)) ∈ ["json"; "text"]))
    then Err (errorString ("config: unsupported logging format " +:+ quote (lg_Format (c_Logging c))))
    else
      ParseLevel (lg_Level (c_Logging c)) ≫= fun _ =>
      if existsb (fun x => str_empty (ed_Name x) || str_empty (ed_Kind x)) (tp_Exchanges topology)
      then Err (errorString "config: topology exchange requires a name and a kind")
      else if existsb (fun q => str_empty (qd_Name q)) (tp_Queues topology)
      then Err (errorString "config: topology queue requires a name")
      else Ok tt.

(** [Load(path)]: [file] is what reading the path gives, [yaml] the decoder on
    the document and the target. *)
Definition Load (path : string) (file : result error string)
    (yaml : string → Config → result error Config) (getenv : string → string) : result error Config :=
  cfg ← (if str_empty path then Ok Default
         else match file with
         | Err err => Err (wrapError ("config: read " +:+ path +:+ ": ") err "")
         | Ok document =>
             match yaml document Default with
             | Err err => Err (wrapError ("config: parse " +:+ path +:+ ": ") err "")
             | Ok cfg => Ok cfg
             end
         end);
  let cfg := applyEnvironment getenv cfg in
  Validate cfg ≫= fun _ => Ok cfg.

Definition String (c : Config) : string :=
  "address=" +:+ sv_Address (c_Server c) +:+ " driver=" +:+ sg_Driver (c_Storage c) +:+
  " dsn=" +:+ sg_DSN (c_Storage c) +:+ " max_attempts=" +:+ fmt_int (rt_MaxAttempts (c_Retry c)).
End validate.
End config.
