(* ===== verification/Engine.v ===== *)
(** The delivery engine: [internal/engine] (engine.go, consumer.go,
    dispatcher.go, pull.go, deadletter.go, maintenance.go, validation.go,
    metrics.go), over any store that implements [StoreOps].

    The state is the engine's own fields: the store, the topology registry,
    the consumers, the wake-up signals (a channel of capacity one per queue: a
    boolean), whether it is running, and the calls made on the metrics sink.
    The clock, the wall clock, the entropy source and the random source are
    streams of [env]; the state counts how many values of each were taken.
    Logging is left out.  The schema validator and the retry policy are fixed
    when the engine is created.

    A method is one [prog]: the statements of the source in order.  Its calls
    on the store and the registry are atomic there, the method as a whole is
    not; what must hold under any interleaving of methods is proved at the
    level of single store calls (StoreTraces.v). *)

From S2P Require Import Prelude Errors MessageId Message Broker Storage Float64 Retry.

(** * Data *)

Record Delivery := mkDelivery {
  dv_Message : Message;
  dv_Attempt : Z;
  dv_Queue : string;
}.

(** [Permanent(err)] *)
Definition Permanent (err : error) : error := PermanentError err.
Definition isPermanent (err : error) : bool := errors_As_Permanent err.

(** The handler is not data: [cs_HasHandler] says whether it is nil, and the
    error a call of it returns is an argument of [process]. *)
Record ConsumerSpec := mkConsumerSpec {
  cs_Name : string;
  cs_Queue : string;
  cs_Concurrency : Z;
  cs_Prefetch : Z;
  cs_ProcessingTimeout : Duration;
  cs_HasHandler : bool;
}.

Definition ConsumerSpec_withDefaults (visibilityTimeout : Duration) (s : ConsumerSpec) : ConsumerSpec :=
  let concurrency := if (cs_Concurrency s <? 1)%Z then 1%Z else cs_Concurrency s in
  mkConsumerSpec (cs_Name s) (cs_Queue s) concurrency
    (if (cs_Prefetch s <? 1)%Z then concurrency else cs_Prefetch s)
    (if (cs_ProcessingTimeout s <=? 0)%Z then visibilityTimeout else cs_ProcessingTimeout s)
    (cs_HasHandler s).

Record PublishResult := mkPublishResult {
  pr_Exchange : string;
  pr_RoutingKey : string;
  pr_MessageIDs : list string;
  pr_Queues : list string;
}.

Record PullRequest := mkPullRequest {
  pl_Queue : string;
  pl_Consumer : string;
  pl_Limit : Z;
  pl_Lease : Duration;
}.

Definition defaultPullLimit : Z := 10.
Definition maxPullLimit : Z := 200.

Definition PullRequest_withDefaults (visibilityTimeout : Duration) (r : PullRequest) : PullRequest :=
  let limit := if (pl_Limit r <=? 0)%Z then defaultPullLimit else pl_Limit r in
  let limit := if (maxPullLimit <? limit)%Z then maxPullLimit else limit in
  mkPullRequest (pl_Queue r)
    (if str_empty (pl_Consumer r) then "anonymous" else pl_Consumer r)
    limit
    (if (pl_Lease r <=? 0)%Z then visibilityTimeout else pl_Lease r).

Record ReplayResult := mkReplayResult {
  rp_DeadLetterID : string;
  rp_OriginalMessageID : string;
  rp_MessageID : string;
  rp_Queue : string;
}.

(** The calls on the [Metrics] interface. *)
Inductive metric :=
| MessagePublished (queue : string) (latency : Duration)
| MessageDelivered (queue : string)
| MessageAcknowledged (queue : string) (latency : Duration)
| MessageRetried (queue : string)
| MessageDeadLettered (queue kind : string)
| MessageRejected (queue : string)
| QueueDepth (queue : string) (ready inFlight scheduled : Z).

Definition errorKindHandler : string := "handler".
Definition errorKindPermanent : string := "permanent".
Definition errorKindExpired : string := "lease_expired".
Definition errorKindValidation : string := "validation".
Definition headerConsumer : string := "x-consumer".
Definition headerReplayOf : string := "x-replay-of".
Definition headerDeadLetterID : string := "x-dead-letter-id".
Definition defaultReclaimInterval : Duration := (5 * second)%Z.
Definition reclaimBatchSize : Z := 256.

(** * State *)

Record Engine (S : Type) := mkEngine {
  e_store : S;
  e_registry : Registry;
  e_consumers : gmap string ConsumerSpec;
  e_signals : gmap string bool;
  e_running : bool;
  e_metrics : list metric;
  e_ticks : nat;
  e_walls : nat;
  e_draws : nat;
  e_randoms : nat;
}.
Arguments mkEngine {S}.
Arguments e_store {S}. Arguments e_registry {S}. Arguments e_consumers {S}.
Arguments e_signals {S}. Arguments e_running {S}. Arguments e_metrics {S}.
Arguments e_ticks {S}. Arguments e_walls {S}. Arguments e_draws {S}. Arguments e_randoms {S}.

(** What the engine reads from the outside, value by value. *)
Record env := mkEnv {
  env_clock : nat → Time;
  env_wall : nat → Time;
  env_entropy : nat → list N;
  env_random : nat → float64;
}.

Section engine.
Context {S : Type} `{StoreOps S} (E : env).
(** [Options.Retry] after [New], [Options.Schemas.Validate] when there is a
    schema registry, and the platform's conversion of unrepresentable floats. *)
Context (policy : Policy).
Context (schemas : option (string → string → result error unit)).
Context (unrepresentable : float64 → Z).

Abbreviation M := (prog (Engine S)).

(** ** Field assignments and reads *)

Definition put_store (s : S) (e : Engine S) : Engine S :=
  mkEngine s (e_registry e) (e_consumers e) (e_signals e) (e_running e) (e_metrics e)
    (e_ticks e) (e_walls e) (e_draws e) (e_randoms e).
Definition put_registry (r : Registry) (e : Engine S) : Engine S :=
  mkEngine (e_store e) r (e_consumers e) (e_signals e) (e_running e) (e_metrics e)
    (e_ticks e) (e_walls e) (e_draws e) (e_randoms e).
Definition put_consumers (c : gmap string ConsumerSpec) (e : Engine S) : Engine S :=
  mkEngine (e_store e) (e_registry e) c (e_signals e) (e_running e) (e_metrics e)
    (e_ticks e) (e_walls e) (e_draws e) (e_randoms e).
Definition put_signals (g : gmap string bool) (e : Engine S) : Engine S :=
  mkEngine (e_store e) (e_registry e) (e_consumers e) g (e_running e) (e_metrics e)
    (e_ticks e) (e_walls e) (e_draws e) (e_randoms e).
Definition put_running (b : bool) (e : Engine S) : Engine S :=
  mkEngine (e_store e) (e_registry e) (e_consumers e) (e_signals e) b (e_metrics e)
    (e_ticks e) (e_walls e) (e_draws e) (e_randoms e).

Definition on_store {A} (p : prog S A) : M A := fun e =>
  let '(s, r) := p (e_store e) in (put_store s e, r).

Definition registry_do {A} (f : Registry → result error (A * Registry)) : M A := fun e =>
  match f (e_registry e) with
  | Ok (a, r) => (put_registry r e, Ok a)
  | Err err => (e, Err err)
  end.
Definition registry_get {A} (f : Registry → result error A) : M A := fun e =>
  (e, f (e_registry e)).

(** One more value taken from a stream. *)
Definition tick (e : Engine S) : Engine S :=
  mkEngine (e_store e) (e_registry e) (e_consumers e) (e_signals e) (e_running e) (e_metrics e)
    (1 + e_ticks e) (e_walls e) (e_draws e) (e_randoms e).
Definition tick_wall (e : Engine S) : Engine S :=
  mkEngine (e_store e) (e_registry e) (e_consumers e) (e_signals e) (e_running e) (e_metrics e)
    (e_ticks e) (1 + e_walls e) (e_draws e) (e_randoms e).
Definition tick_draw (e : Engine S) : Engine S :=
  mkEngine (e_store e) (e_registry e) (e_consumers e) (e_signals e) (e_running e) (e_metrics e)
    (e_ticks e) (e_walls e) (1 + e_draws e) (e_randoms e).
Definition tick_random (e : Engine S) : Engine S :=
  mkEngine (e_store e) (e_registry e) (e_consumers e) (e_signals e) (e_running e) (e_metrics e)
    (e_ticks e) (e_walls e) (e_draws e) (1 + e_randoms e).

(** [e.clock()], [time.Now()], and the next values of the two sources. *)
Definition clock : M Time := fun e => (tick e, Ok (env_clock E (e_ticks e))).
Definition time_Now : M Time := fun e => (tick_wall e, Ok (env_wall E (e_walls e))).
Definition entropy : M (list N) := fun e => (tick_draw e, Ok (env_entropy E (e_draws e))).
Definition random : M float64 := fun e => (tick_random e, Ok (env_random E (e_randoms e))).

Definition emit (m : metric) : M unit := modifies (fun e =>
  mkEngine (e_store e) (e_registry e) (e_consumers e) (e_signals e) (e_running e)
    (e_metrics e ++ [m]) (e_ticks e) (e_walls e) (e_draws e) (e_randoms e)).

(** message/id.go: [NewID] *)
Definition NewID : M string :=
  t ← time_Now; bytes ← entropy; mret (newIDAt t bytes).

(** ** Start and Shutdown

    The state they change; the goroutines they start and wait for are in
    Lifecycle.v. *)
Definition Engine_Start : M unit := fun e =>
  if e_running e then (e, Ok tt) else (put_running true e, Ok tt).

(** [timed_out] is the error of the caller's context when it ends before the
    consumers have stopped. *)
Definition Engine_Shutdown (timed_out : option error) : M unit :=
  modifies (fun e => put_running false (put_consumers ∅ e)) ≫= fun _ =>
  match timed_out with
  | None => mret tt
  | Some err => fails (wrapError "engine: shutdown timed out: " err "")
  end.

(** ** Topology *)

(** [fmt.Errorf(prefix + "%w", err)] on the error of a store call. *)
Definition wrapping {A} (prefix : string) (p : prog S A) : M A :=
  r ← (attempting (on_store p) : M _);
  match r with Ok a => mret a | Err err => fails (wrapError prefix err "") end.

Definition Engine_Restore : M unit :=
  exchanges ← wrapping "engine: restore exchanges: " st_Exchanges;
  queues ← wrapping "engine: restore queues: " st_Queues;
  bindings ← wrapping "engine: restore bindings: " st_Bindings;
  modifies (fun e => put_registry (Registry_Restore exchanges queues bindings (e_registry e)) e).

(** [now] is the value of the registry's clock. *)
Definition Engine_DeclareExchange (spec : ExchangeSpec) (now : Time) : M Exchange :=
  exchange ← (registry_do (Registry_DeclareExchange spec now) : M _);
  (if ex_Durable exchange then on_store (st_SaveExchange exchange) else mret tt) ≫= fun _ =>
  mret exchange.

Definition Engine_DeclareQueue (spec : QueueSpec) (now : Time) : M Queue :=
  queue ← (registry_do (Registry_DeclareQueue spec now) : M _);
  (if q_Durable queue then on_store (st_SaveQueue queue) else mret tt) ≫= fun _ =>
  mret queue.

Definition Engine_Bind (spec : BindingSpec) (now : Time) : M Binding :=
  binding ← (registry_do (Registry_Bind spec now) : M _);
  on_store (st_SaveBinding binding) ≫= fun _ =>
  mret binding.

(** [if err != nil && !errors.Is(err, storage.ErrNotFound) { return err }] *)
Definition ignore_missing (p : prog S unit) : M unit :=
  r ← (attempting (on_store p) : M _);
  match r with
  | Ok _ => mret tt
  | Err err => if errors_Is err (SStorage ErrNotFound) then mret tt else fails err
  end.

Definition registry_forget (f : Registry → result error Registry) : M unit :=
  registry_do (fun r => r' ← f r; Ok (tt, r')).

Definition Engine_Unbind (spec : BindingSpec) : M unit :=
  registry_forget (Registry_Unbind spec) ≫= fun _ =>
  ignore_missing (st_DeleteBinding spec).

Definition Engine_DeleteQueue (name : string) : M unit :=
  registry_forget (Registry_DeleteQueue name) ≫= fun _ =>
  ignore_missing (st_DeleteQueue name).

(** ** History and signals *)

(** A failure to record is only logged. *)
Definition recordHistory (event : HistoryEvent) : M unit :=
  attempting (on_store (st_AppendHistory event)) ≫= fun _ => mret tt.

Definition queueSignal (queue : string) : M unit := modifies (fun e =>
  match e_signals e !! queue with
  | Some _ => e
  | None => put_signals (<[queue := false]> (e_signals e)) e
  end).

(** A send on a full channel is dropped by the [default] case. *)
Definition notify_one (g : gmap string bool) (queue : string) : gmap string bool :=
  match g !! queue with None => g | Some _ => <[queue := true]> g end.

Definition notify (queues : list string) : M unit :=
  modifies (fun e => put_signals (foldl notify_one (e_signals e) queues) e).

(** ** Validation *)

Definition parkRejected (msg : Message) (cause : error) (now : Time) : M unit :=
  fresh ← NewID;
  attempting (on_store (st_SaveDeadLetter fresh
    (mkDeadLetter "" (msg_ID msg) (msg_Queue msg) (msg_Exchange msg) (msg_RoutingKey msg)
       (msg_Schema msg) (msg_Payload msg) (msg_Headers msg) (Error cause) errorKindValidation 0
       (msg_CreatedAt msg) now now "" zeroTime 0))) ≫= fun _ => mret tt.

Definition validate (msg : Message) (now : Time) : M unit :=
  match schemas with
  | None => mret tt
  | Some schema_Validate =>
      if str_empty (msg_Schema msg) then mret tt
      else match schema_Validate (msg_Schema msg) (msg_Payload msg) with
      | Ok _ => mret tt
      | Err err =>
          let msg := match Transition StateFailed now msg with Ok m => m | Err _ => msg end in
          parkRejected msg err now ≫= fun _ => fails err
      end
  end.

(** ** Publishing *)

(** The loop over the routed queues. *)
Fixpoint publish_loop (pub : Publication) (now : Time) (queues : list Queue)
    (messages : list Message) : M (list Message) :=
  match queues with
  | [] => mret messages
  | queue :: rest =>
      bytes ← entropy;
      let msg := New pub (q_Name queue) now bytes in
      let msg := set_MaxAttempts (q_MaxAttempts queue) msg in
      let msg := if str_empty (msg_Schema msg) then set_Schema (q_Schema queue) msg else msg in
      valid ← (attempting (validate msg now) : M _);
      match valid with
      | Err err => emit (MessageRejected (q_Name queue)) ≫= fun _ => fails err
      | Ok _ =>
          msg ← (lift (Transition StateQueued now msg) : M _);
          publish_loop pub now rest (messages ++ [msg])
      end
  end.

Definition queued_event (now : Time) (msg : Message) : HistoryEvent :=
  mkHistoryEvent (msg_ID msg) (msg_Queue msg) StateCreated StateQueued "" "" now.

Definition Engine_Publish (pub : Publication) : M PublishResult :=
  queues ← (registry_get (Registry_Route (pub_Exchange pub) (pub_RoutingKey pub)) : M _);
  started ← time_Now;
  now ← clock;
  messages ← publish_loop pub now queues [];
  on_store (st_Append messages) ≫= fun _ =>
  for_each (fun msg => recordHistory (queued_event now msg)) messages ≫= fun _ =>
  finished ← time_Now;
  let names := msg_Queue <$> messages in
  for_each (fun queue => emit (MessagePublished queue (finished - started))) names ≫= fun _ =>
  notify names ≫= fun _ =>
  mret (mkPublishResult (pub_Exchange pub) (pub_RoutingKey pub) (msg_ID <$> messages) names).

(** ** Dead letters *)

Definition classify (cause : error) : string :=
  if errors_Is cause (SEngine errLeaseExpired) then errorKindExpired
  else if isPermanent cause then errorKindPermanent
  else errorKindHandler.

Fixpoint first_failure (events : list HistoryEvent) (fallback : Time) : Time :=
  match events with
  | [] => fallback
  | event :: rest =>
      if bool_decide (he_To event = StateRetrying) || bool_decide (he_To event = StateFailed)
      then he_At event else first_failure rest fallback
  end.

Definition firstFailureAt (messageID : string) (fallback : Time) : M Time :=
  events ← (attempting (on_store (st_History messageID)) : M _);
  mret (match events with Err _ => fallback | Ok events => first_failure events fallback end).

Definition deadLetter (consumer : string) (delivery : Delivery) (cause : error) (now : Time) : M unit :=
  let msg := dv_Message delivery in
  firstFailed ← firstFailureAt (msg_ID msg) now;
  fresh ← NewID;
  let record := mkDeadLetter "" (msg_ID msg) (dv_Queue delivery) (msg_Exchange msg)
    (msg_RoutingKey msg) (msg_Schema msg) (msg_Payload msg) (msg_Headers msg) (Error cause)
    (classify cause) (dv_Attempt delivery) (msg_CreatedAt msg) firstFailed now "" zeroTime 0 in
  saved ← (attempting (on_store (st_SaveDeadLetter fresh record)) : M _);
  match saved with
  | Err _ => mret tt
  | Ok _ =>
      marked ← (attempting (on_store (st_MarkDeadLettered (msg_ID msg) (Error cause) now)) : M _);
      match marked with
      | Err _ => mret tt
      | Ok _ =>
          recordHistory (mkHistoryEvent (msg_ID msg) (dv_Queue delivery) StateFailed
            StateDeadLettered consumer (Error cause) now) ≫= fun _ =>
          emit (MessageDeadLettered (dv_Queue delivery) (dl_ErrorKind record))
      end
  end.

Definition Engine_ReplayDeadLetter (id : string) : M ReplayResult :=
  record ← (on_store (st_DeadLetter id) : M _);
  queue ← (registry_get (Registry_Queue (dl_Queue record)) : M _);
  now ← clock;
  bytes ← entropy;
  let replay := New (mkPublication (dl_Exchange record) (dl_RoutingKey record) (dl_Payload record)
                       (dl_Headers record) (dl_Schema record)) (q_Name queue) now bytes in
  let replay := set_MaxAttempts (q_MaxAttempts queue) replay in
  let replay := SetHeader headerReplayOf (dl_MessageID record) replay in
  let replay := SetHeader headerDeadLetterID (dl_ID record) replay in
  replay ← (lift (Transition StateQueued now replay) : M _);
  on_store (st_Append [replay]) ≫= fun _ =>
  recordHistory (mkHistoryEvent (msg_ID replay) (msg_Queue replay) StateCreated StateQueued ""
    ("replayed from dead letter " +:+ dl_ID record) now) ≫= fun _ =>
  attempting (on_store (st_MarkDeadLetterReplayed (dl_ID record) (msg_ID replay) now)) ≫= fun _ =>
  notify [q_Name queue] ≫= fun _ =>
  mret (mkReplayResult (dl_ID record) (dl_MessageID record) (msg_ID replay) (q_Name queue)).

(** ** Failure, acknowledgement and release *)

Definition fail (consumer : string) (delivery : Delivery) (cause : error) : M unit :=
  now ← clock;
  if negb (negb (isPermanent cause) && ShouldRetry policy (dv_Attempt delivery))
  then deadLetter consumer delivery cause now
  else
    r ← random;
    let availableAt := NextAttemptAt unrepresentable policy now (dv_Attempt delivery) r in
    scheduled ← (attempting (on_store (st_ScheduleRetry
      (mkRetryRequest (msg_ID (dv_Message delivery)) (dv_Attempt delivery) (Error cause)
         availableAt now))) : M _);
    match scheduled with
    | Err _ => mret tt
    | Ok _ =>
        recordHistory (mkHistoryEvent (msg_ID (dv_Message delivery)) (dv_Queue delivery)
          StateFailed StateRetrying consumer (Error cause) now) ≫= fun _ =>
        emit (MessageRetried (dv_Queue delivery))
    end.

Definition acknowledge (consumer : ConsumerSpec) (delivery : Delivery) (started : Time) : M unit :=
  now ← clock;
  acked ← (attempting (on_store (st_Acknowledge (msg_ID (dv_Message delivery)) now)) : M _);
  match acked with
  | Err _ => mret tt
  | Ok _ =>
      recordHistory (mkHistoryEvent (msg_ID (dv_Message delivery)) (dv_Queue delivery)
        StateProcessing StateAcknowledged (cs_Name consumer) "" now) ≫= fun _ =>
      emit (MessageAcknowledged (dv_Queue delivery) (now - started))
  end.

(** [outcome] is the error the handler returns, [None] for nil. *)
Definition process (consumer : ConsumerSpec) (delivery : Delivery) (outcome : option error) : M unit :=
  started ← clock;
  match outcome with
  | None => acknowledge consumer delivery started
  | Some err => fail (cs_Name consumer) delivery err
  end.

Definition releaseUndispatched (id : string) : M unit :=
  now ← clock;
  attempting (on_store (st_Release id now)) ≫= fun _ => mret tt.

(** [submit msg] is what [pool.Submit] returns, [ctx_done] whether the context
    is cancelled when it is asked afterwards. *)
Definition handOff (consumer : ConsumerSpec) (submit : Message → option error) (ctx_done : bool)
    (msg : Message) : M unit :=
  now ← clock;
  recordHistory (mkHistoryEvent (msg_ID msg) (msg_Queue msg) StateQueued StateProcessing
    (cs_Name consumer) "" now) ≫= fun _ =>
  emit (MessageDelivered (msg_Queue msg)) ≫= fun _ =>
  match submit msg with
  | None => mret tt
  | Some err =>
      releaseUndispatched (msg_ID msg) ≫= fun _ =>
      if errors_Is err (SOther ErrPoolStopped) || ctx_done then mret tt else fails err
  end.

(** The messages claimed and the error with which the hand-off stopped. *)
Definition claimBatch (consumer : ConsumerSpec) (submit : Message → option error) (ctx_done : bool) :
    M (list Message * result error unit) :=
  queue ← (registry_get (Registry_Queue (cs_Queue consumer)) : M _);
  now ← clock;
  messages ← (on_store (st_Claim (mkClaimRequest (cs_Queue consumer) (cs_Name consumer)
                (cs_Prefetch consumer) (q_VisibilityTimeout queue) now)) : M _);
  r ← (attempting (for_each (handOff consumer submit ctx_done) messages) : M _);
  mret (messages, r).

(** How a turn of the dispatcher's loop ends: the loop returns, goes on at once,
    or waits for a signal, the context or the poll interval. *)
Inductive turn := TurnReturn | TurnContinue | TurnWait.

(** One turn of the loop of [dispatch]; [ctx_done'] is whether the context is
    cancelled when it is asked after the batch. *)
Definition dispatch_turn (consumer : ConsumerSpec) (submit : Message → option error)
    (ctx_done ctx_done' : bool) : M turn :=
  r ← (attempting (claimBatch consumer submit ctx_done) : M _);
  let '(claimed, failed) :=
    match r with
    | Err _ => (0, true)
    | Ok (messages, r) => (length messages, negb (is_ok r))
    end in
  mret (if failed && ctx_done' then TurnReturn
        else if decide (0 < claimed) then TurnContinue else TurnWait).

(** ** Consumers *)

(** The part of [Subscribe] under the mutex. *)
Definition register_consumer (spec : ConsumerSpec) : M ConsumerSpec := fun e =>
  if negb (e_running e) then (e, Err (EngineErr ErrNotRunning))
  else match e_consumers e !! cs_Name spec with
  | Some _ => (e, Err (EngineErr ErrConsumerExists))
  | None => (put_consumers (<[cs_Name spec := spec]> (e_consumers e)) e, Ok spec)
  end.

Definition Engine_Subscribe (spec : ConsumerSpec) : M ConsumerSpec :=
  (if cs_HasHandler spec then mret tt else fails (EngineErr ErrHandlerRequired)) ≫= fun _ =>
  queue ← (registry_get (Registry_Queue (cs_Queue spec)) : M _);
  register_consumer (ConsumerSpec_withDefaults (q_VisibilityTimeout queue) spec).

Definition Engine_Unsubscribe (name : string) : M unit := fun e =>
  match e_consumers e !! name with
  | None => (e, Err (EngineErr ErrConsumerNotFound))
  | Some _ => (put_consumers (delete name (e_consumers e)) e, Ok tt)
  end.

(** ** Pull consumers *)

Definition Engine_Pull (req : PullRequest) : M (list Message) :=
  queue ← (registry_get (Registry_Queue (pl_Queue req)) : M _);
  let req := PullRequest_withDefaults (q_VisibilityTimeout queue) req in
  now ← clock;
  claimed ← (on_store (st_Claim (mkClaimRequest (pl_Queue req) (pl_Consumer req) (pl_Limit req)
               (pl_Lease req) now)) : M _);
  for_each (fun msg => recordHistory (mkHistoryEvent (msg_ID msg) (msg_Queue msg) StateQueued
    StateProcessing (pl_Consumer req) "" now)) claimed ≫= fun _ =>
  mret claimed.

Definition Engine_Ack (id : string) : M unit :=
  msg ← (on_store (st_Message id) : M _);
  now ← clock;
  on_store (st_Acknowledge id now) ≫= fun _ =>
  recordHistory (mkHistoryEvent id (msg_Queue msg) StateProcessing StateAcknowledged "" "" now).

Definition Engine_Nack (id reason : string) (requeue : bool) : M unit :=
  msg ← (on_store (st_Message id) : M _);
  let reason := if str_empty reason then "negatively acknowledged by consumer" else reason in
  if requeue then
    now ← clock;
    on_store (st_Release id now) ≫= fun _ =>
    recordHistory (mkHistoryEvent id (msg_Queue msg) StateProcessing StateQueued "" reason now)
      ≫= fun _ =>
    notify [msg_Queue msg]
  else
    fail "" (mkDelivery msg (msg_Attempts msg) (msg_Queue msg)) (errorString reason) ≫= fun _ =>
    notify [msg_Queue msg].

(** ** Maintenance *)

Definition requeueExpired (msg : Message) (now : Time) : M bool :=
  released ← (attempting (on_store (st_Release (msg_ID msg) now)) : M _);
  match released with
  | Err _ => mret false
  | Ok _ =>
      recordHistory (mkHistoryEvent (msg_ID msg) (msg_Queue msg) StateProcessing StateQueued ""
        (Error (EngineErr errLeaseExpired)) now) ≫= fun _ =>
      mret true
  end.

(** The loop of [reclaim]. *)
Fixpoint reclaim_loop (now : Time) (expired : list Message) (requeued : list string) :
    M (list string) :=
  match expired with
  | [] => mret requeued
  | msg :: rest =>
      if ShouldRetry policy (msg_Attempts msg) then
        ok ← requeueExpired msg now;
        reclaim_loop now rest (if ok : bool then requeued ++ [msg_Queue msg] else requeued)
      else
        deadLetter (default "" (Header headerConsumer msg))
          (mkDelivery msg (msg_Attempts msg) (msg_Queue msg)) (EngineErr errLeaseExpired) now
          ≫= fun _ =>
        reclaim_loop now rest requeued
  end.

Definition reclaim : M unit :=
  now ← clock;
  expired ← (attempting (on_store (st_ExpiredLeases now reclaimBatchSize)) : M _);
  match expired with
  | Err _ => mret tt
  | Ok expired => requeued ← reclaim_loop now expired []; notify requeued
  end.

Definition RefreshQueueDepths : M unit :=
  names ← (gets (fun e => Registry_QueueNames (e_registry e)) : M _);
  for_each (fun name =>
    depth ← (attempting (on_store (st_Depth name)) : M _);
    match depth with
    | Err _ => mret tt
    | Ok d => emit (QueueDepth name (d_Ready d) (d_InFlight d) (d_Scheduled d))
    end) names.

(** ** Pass-through reads *)

Definition Engine_Message (id : string) : M Message := on_store (st_Message id).
Definition Engine_History (id : string) : M (list HistoryEvent) := on_store (st_History id).
Definition Engine_Depth (queue : string) : M Depth := on_store (st_Depth queue).
Definition Engine_Purge (queue : string) : M Z := on_store (st_Purge queue).
Definition Engine_DeadLetters (f : DeadLetterFilter) : M (list DeadLetter) := on_store (st_DeadLetters f).
Definition Engine_DeadLetter (id : string) : M DeadLetter := on_store (st_DeadLetter id).
Definition Engine_DiscardDeadLetter (id : string) : M unit := on_store (st_DeleteDeadLetter id).
Definition Engine_CountDeadLetters (queue : string) : M Z := on_store (st_CountDeadLetters queue).

Definition Engine_Ping : M unit :=
  wrapping "engine: storage probe failed: " st_Queues ≫= fun _ => mret tt.
End engine.

(** [New(opts)]: the engine and its effective policy and reclaim interval. *)
Definition Engine_New {S} (fmt_duration : Duration → string) (fmt_int : Z → string)
    (fmt_float : float64 → string) (store : option S) (retry : Policy) (reclaimInterval : Duration) :
    result error (Engine S * Policy * Duration) :=
  match store with
  | None => Err (errorString "engine: store is required")
  | Some s =>
      let policy := WithDefaults retry in
      Policy_Validate fmt_duration fmt_int fmt_float policy ≫= fun _ =>
      Ok (mkEngine s NewRegistry ∅ ∅ false [] 0 0 0 0, policy,
          if (reclaimInterval <=? 0)%Z then defaultReclaimInterval else reclaimInterval)
  end.
