(* ===== verification/EngineProofs.v ===== *)
(** Functional correctness of the engine ([Engine.v]) on any store that meets
    the storage contract.

    Each operation is computed on the abstract store: its result, and the
    queues, messages, dead letters and history it leaves behind.  Whatever the
    operation, the invariant of the store is kept. *)

From S2P Require Import Prelude Errors MessageId Message Broker BrokerProofs Storage StoreTraces.
From S2P Require Import Float64 Retry Engine.

Section engine_proofs.
Context {S : Type} `{HS : Unrestricted S} (E : env) (policy : Policy).
Context (schemas : option (string → string → result error unit)).
Context (unrepresentable : float64 → Z).

Definition eview (e : Engine S) : astore := store_view (e_store e).
Definition einv (e : Engine S) : Prop := store_inv (e_store e).

(** [runs p e Q]: running [p] on [e] ends in a result and a state satisfying [Q]. *)
Definition runs {A} (p : prog (Engine S) A) (e : Engine S)
    (Q : result error A → Engine S → Prop) : Prop := Q (p e).2 (p e).1.

Lemma runs_bind {A B} (p : prog (Engine S) A) (f : A → prog (Engine S) B) e Q :
  runs p e (fun r e' => match r with Ok a => runs (f a) e' Q | Err x => Q (Err x) e' end) →
  runs (p ≫= f) e Q.
Proof. unfold runs. rewrite bind_eq. by destruct (p e) as [e' [a|x]]. Qed.

Lemma runs_ret {A} (a : A) e (Q : result error A → Engine S → Prop) :
  Q (Ok a) e → runs (mret a) e Q.
Proof. done. Qed.

Lemma runs_mono {A} (p : prog (Engine S) A) e (Q Q' : result error A → Engine S → Prop) :
  runs p e Q → (∀ r e', Q r e' → Q' r e') → runs p e Q'.
Proof. unfold runs. auto. Qed.

(** A store call inside the engine, its error passed on or inspected. *)
Lemma runs_store {A} (p : prog S A) (R : spec A) e Q :
  implements store_inv store_view p R → einv e →
  (∀ s r, store_inv s → R (eview e) r (store_view s) → Q r (put_store s e)) →
  runs (on_store p) e Q.
Proof.
  intros Hp Hinv HQ. destruct (Hp _ Hinv) as [Hi HR]. unfold runs, on_store.
  destruct (p (e_store e)) as [s r]. simpl in *. auto.
Qed.

Lemma runs_attempt {A} (p : prog S A) (R : spec A) e Q :
  implements store_inv store_view p R → einv e →
  (∀ s r, store_inv s → R (eview e) r (store_view s) → Q (Ok r) (put_store s e)) →
  runs (attempting (on_store p)) e Q.
Proof.
  intros Hp Hinv HQ. destruct (Hp _ Hinv) as [Hi HR]. unfold runs, attempting, on_store.
  destruct (p (e_store e)) as [s r]. simpl in *. auto.
Qed.

(** Recording history never fails and only adds the event. *)
Lemma runs_history ev e Q : einv e →
  (∀ s, store_inv s → store_view s = with_history ev (eview e) → Q (Ok tt) (put_store s e)) →
  runs (recordHistory ev) e Q.
Proof.
  intros Hinv HQ. unfold recordHistory. apply runs_bind.
  eapply runs_attempt; [apply law_AppendHistory|done|]. intros s r Hi [-> Hv]. by apply HQ.
Qed.

Ltac on_call law := eapply runs_store; [apply law|done|].
Ltac try_call law := eapply runs_attempt; [apply law|done|].

(** ** Acknowledging *)

Definition ack_event (id queue consumer : string) (now : Time) : HistoryEvent :=
  mkHistoryEvent id queue StateProcessing StateAcknowledged consumer "" now.

Lemma Ack_runs id e : einv e →
  let now := env_clock E (e_ticks e) in
  runs (Engine_Ack E id) e (fun r e' => einv e' ∧
  match a_messages (eview e) !! id with
  | None => r = Err (StorageErr ErrNotFound) ∧ eview e' = eview e
  | Some rec =>
      if decide (rec_State rec = StateProcessing)
      then r = Ok tt ∧
           eview e' = with_history (ack_event id (rec_Queue rec) "" now)
                        (with_messages (insert id (ack_record now rec)) (eview e))
      else r = Err (StateError id StateProcessing (rec_State rec)) ∧ eview e' = eview e
  end).
Proof.
  intros Hinv now. unfold Engine_Ack. apply runs_bind.
  on_call (law_Message id). intros s1 r1 Hi1 [-> Hv1].
  destruct (a_messages (eview e) !! id) as [rec|] eqn:Hid; [|done].
  apply runs_bind, runs_bind. on_call (law_Acknowledge id now). intros s2 r2 Hi2 Hspec2.
  unfold leased_spec, eview in *. simpl in Hspec2. rewrite Hv1, Hid in Hspec2.
  case_decide; destruct Hspec2 as [-> Hv2]; [|by rewrite <-Hv2].
  apply runs_history; [done|]. intros s3 Hi3 Hv3. split; [done|]. split; [done|].
  unfold eview in *. simpl in *. by rewrite Hv3, Hv2.
Qed.

(** ** Failing *)

(** The id the next dead letter gets. *)
Definition next_id (e : Engine S) : string :=
  newIDAt (env_wall E (e_walls e)) (env_entropy E (e_draws e)).

(** The record [deadLetter] saves. *)
Definition dead_letter_of (fresh : string) (delivery : Delivery) (cause : error)
    (firstFailed now : Time) : DeadLetter :=
  let msg := dv_Message delivery in
  mkDeadLetter fresh (msg_ID msg) (dv_Queue delivery) (msg_Exchange msg) (msg_RoutingKey msg)
    (msg_Schema msg) (msg_Payload msg) (msg_Headers msg) (Error cause) (classify cause)
    (dv_Attempt delivery) (msg_CreatedAt msg) firstFailed now "" zeroTime 0.

(** What dead-lettering does to the store: the record is saved first (unless
    its id is taken), then the message is settled if it is leased. *)
Definition dead_effect (fresh consumer : string) (delivery : Delivery) (cause : error) (now : Time)
    (a : astore) : astore :=
  let id := msg_ID (dv_Message delivery) in
  if decide (is_Some (a_dead a !! fresh)) then a
  else
    let a1 := with_dead (insert fresh (dead_letter_of fresh delivery cause
                (first_failure (slice_at (a_history a) id) now) now)) a in
    match a_messages a !! id with
    | Some rec =>
        if decide (rec_State rec = StateProcessing)
        then with_history (mkHistoryEvent id (dv_Queue delivery) StateFailed StateDeadLettered
               consumer (Error cause) now)
               (with_messages (insert id (dead_record (Error cause) now rec)) a1)
        else a1
    | None => a1
    end.

Lemma deadLetter_runs consumer delivery cause now e : einv e →
  runs (deadLetter E consumer delivery cause now) e (fun r e' => einv e' ∧ r = Ok tt ∧
    e_registry e' = e_registry e ∧ e_consumers e' = e_consumers e ∧
    e_walls e' = 1 + e_walls e ∧ e_draws e' = 1 + e_draws e ∧
    eview e' = dead_effect (next_id e) consumer delivery cause now (eview e)).
Proof.
  intros Hinv. unfold deadLetter, firstFailureAt. apply runs_bind, runs_bind.
  try_call (law_History (msg_ID (dv_Message delivery))). intros s0 r0 Hi0 [-> Hv0].
  apply runs_ret. apply runs_bind, runs_bind, runs_bind, runs_ret. apply runs_bind.
  set (rec0 := mkDeadLetter "" _ _ _ _ _ _ _ _ _ _ _ _ _ _ _ _).
  change (newIDAt _ _) with (next_id e).
  try_call (law_SaveDeadLetter (next_id e) rec0). intros s1 r1 Hi1 Hspec1.
  unfold save_dead_spec in Hspec1. change (str_empty (dl_ID rec0)) with true in Hspec1.
  unfold eview in *. simpl in Hspec1.
  rewrite Hv0 in Hspec1. unfold dead_effect.
  case_decide; destruct Hspec1 as [-> Hv1]; [apply runs_ret; simpl; by rewrite Hv1|].
  apply runs_bind.
  try_call (law_MarkDeadLettered (msg_ID (dv_Message delivery)) (Error cause) now).
  intros s2 r2 Hi2 Hspec2. unfold dead_spec, eview in Hspec2. simpl in Hspec2.
  rewrite Hv1 in Hspec2. simpl in Hspec2.
  destruct (a_messages (store_view (e_store e)) !! msg_ID (dv_Message delivery)) as [rec|];
    [case_decide|]; destruct Hspec2 as [-> Hv2];
    [|apply runs_ret; simpl; by rewrite Hv2..].
  apply runs_bind, runs_history; [done|]. intros s3 Hi3 Hv3. unfold runs, emit. simpl.
  split_and!; [done..|]. unfold eview in Hv3. simpl in Hv3. by rewrite Hv3, Hv2.
Qed.

Definition retry_effect (consumer queue : string) (req : RetryRequest) (a : astore) : astore :=
  match a_messages a !! rr_ID req with
  | Some rec =>
      if decide (rec_State rec = StateProcessing)
      then with_history (mkHistoryEvent (rr_ID req) queue StateFailed StateRetrying consumer
             (rr_Reason req) (rr_Now req))
             (with_messages (insert (rr_ID req) (retry_record req rec)) a)
      else a
  | None => a
  end.

(** What a failed delivery leads to. *)
Definition fail_effect (e : Engine S) (consumer : string) (delivery : Delivery) (cause : error)
    (a : astore) : astore :=
  let now := env_clock E (e_ticks e) in
  if negb (isPermanent cause) && ShouldRetry policy (dv_Attempt delivery)
  then retry_effect consumer (dv_Queue delivery)
         (mkRetryRequest (msg_ID (dv_Message delivery)) (dv_Attempt delivery) (Error cause)
            (NextAttemptAt unrepresentable policy now (dv_Attempt delivery)
               (env_random E (e_randoms e))) now) a
  else dead_effect (next_id e) consumer delivery cause now a.

Lemma fail_runs consumer delivery cause e : einv e →
  runs (fail E policy unrepresentable consumer delivery cause) e (fun r e' => einv e' ∧ r = Ok tt ∧
    e_registry e' = e_registry e ∧
    eview e' = fail_effect e consumer delivery cause (eview e)).
Proof.
  intros Hinv. unfold fail, fail_effect. apply runs_bind. unfold runs at 1. cbn [clock fst snd].
  destruct (negb (isPermanent cause) && ShouldRetry policy (dv_Attempt delivery)) eqn:Hr; simpl negb;
    cbn match.
  - apply runs_bind. unfold runs at 1. cbn [random fst snd].
    apply runs_bind. set (req := mkRetryRequest _ _ _ _ _).
    try_call (law_ScheduleRetry req). intros s1 r1 Hi1 Hspec1.
    unfold leased_spec, eview in Hspec1. simpl in Hspec1. unfold retry_effect, eview. simpl.
    destruct (a_messages (store_view (e_store e)) !! msg_ID (dv_Message delivery)) as [rec|];
      [case_decide|]; destruct Hspec1 as [-> Hv1]; [|apply runs_ret; done..].
    apply runs_bind, runs_history; [done|]. intros s2 Hi2 Hv2. unfold runs, emit. simpl.
    split_and!; [done..|]. unfold eview in Hv2. simpl in Hv2. by rewrite Hv2, Hv1.
  - eapply runs_mono; [by apply (deadLetter_runs consumer delivery cause _ (tick e))|].
    intros r e' (Hi' & -> & Hreg & _ & _ & _ & Hv'). by split_and!.
Qed.

(** ** Nacking and processing *)

Definition nack_reason (reason : string) : string :=
  if str_empty reason then "negatively acknowledged by consumer" else reason.

Definition delivery_of (msg : Message) : Delivery := mkDelivery msg (msg_Attempts msg) (msg_Queue msg).

Lemma notify_runs queues e Q :
  (∀ g, Q (Ok tt) (put_signals g e)) → runs (notify queues) e Q.
Proof. intros HQ. apply HQ. Qed.

Lemma Nack_requeue_runs id reason e : einv e →
  let now := env_clock E (e_ticks e) in
  runs (Engine_Nack E policy unrepresentable id reason true) e (fun r e' => einv e' ∧
  match a_messages (eview e) !! id with
  | None => r = Err (StorageErr ErrNotFound) ∧ eview e' = eview e
  | Some rec =>
      if decide (rec_State rec = StateProcessing)
      then r = Ok tt ∧
           eview e' = with_history (mkHistoryEvent id (rec_Queue rec) StateProcessing StateQueued ""
                        (nack_reason reason) now)
                        (with_messages (insert id (release_record now rec)) (eview e))
      else r = Err (StateError id StateProcessing (rec_State rec)) ∧ eview e' = eview e
  end).
Proof.
  intros Hinv now. unfold Engine_Nack. apply runs_bind.
  on_call (law_Message id). intros s1 r1 Hi1 [-> Hv1].
  destruct (a_messages (eview e) !! id) as [rec|] eqn:Hid; [|done].
  apply runs_bind, runs_bind. on_call (law_Release id now). intros s2 r2 Hi2 Hspec2.
  unfold leased_spec, eview in *. simpl in Hspec2. rewrite Hv1, Hid in Hspec2.
  case_decide; destruct Hspec2 as [-> Hv2]; [|by rewrite <-Hv2].
  apply runs_bind, runs_history; [done|]. intros s3 Hi3 Hv3. apply notify_runs. intros g.
  split; [done|]. split; [done|]. unfold eview in *. simpl in *. by rewrite Hv3, Hv2.
Qed.

Lemma Nack_fail_runs id reason e : einv e →
  runs (Engine_Nack E policy unrepresentable id reason false) e (fun r e' => einv e' ∧
  match a_messages (eview e) !! id with
  | None => r = Err (StorageErr ErrNotFound) ∧ eview e' = eview e
  | Some rec =>
      r = Ok tt ∧
      eview e' = fail_effect e "" (delivery_of (rec_msg rec)) (errorString (nack_reason reason)) (eview e)
  end).
Proof.
  intros Hinv. unfold Engine_Nack. apply runs_bind.
  on_call (law_Message id). intros s1 r1 Hi1 [-> Hv1].
  destruct (a_messages (eview e) !! id) as [rec|] eqn:Hid; [|done].
  apply runs_bind. eapply runs_mono; [by apply fail_runs|]. intros r e' (Hi' & -> & _ & Hv').
  apply notify_runs. intros g. split; [done|]. split; [done|].
  unfold eview in *. simpl in *. rewrite Hv', Hv1. done.
Qed.

(** The outcome of a handler. *)
Lemma process_runs consumer delivery outcome e : einv e →
  runs (process E policy unrepresentable consumer delivery outcome) e (fun r e' => einv e' ∧ r = Ok tt ∧
    match outcome with
    | Some err => eview e' = fail_effect (tick e) (cs_Name consumer) delivery err (eview e)
    | None =>
        let id := msg_ID (dv_Message delivery) in
        let now := env_clock E (1 + e_ticks e) in
        eview e' = match a_messages (eview e) !! id with
          | Some rec =>
              if decide (rec_State rec = StateProcessing)
              then with_history (ack_event id (dv_Queue delivery) (cs_Name consumer) now)
                     (with_messages (insert id (ack_record now rec)) (eview e))
              else eview e
          | None => eview e
          end
    end).
Proof.
  intros Hinv. unfold process. apply runs_bind. unfold runs at 1. cbn [clock fst snd].
  destruct outcome as [err|].
  { eapply runs_mono; [by apply (fail_runs _ _ _ (tick e))|].
    intros r e' (Hi' & -> & _ & Hv'). by split_and!. }
  unfold acknowledge. apply runs_bind. unfold runs at 1. cbn [clock fst snd]. apply runs_bind.
  try_call (law_Acknowledge (msg_ID (dv_Message delivery)) (env_clock E (e_ticks (tick e)))).
  intros s1 r1 Hi1 Hspec1. unfold leased_spec, eview in Hspec1. simpl in Hspec1. unfold eview.
  destruct (a_messages (store_view (e_store e)) !! msg_ID (dv_Message delivery)) as [rec|];
    [case_decide|]; destruct Hspec1 as [-> Hv1]; [|by apply runs_ret..].
  apply runs_bind, runs_history; [done|]. intros s2 Hi2 Hv2. unfold runs, emit. simpl.
  split_and!; [done..|]. unfold eview in Hv2. simpl in Hv2. by rewrite Hv2, Hv1.
Qed.

(** ** Claiming *)

Definition histories (a : astore) (evs : list HistoryEvent) : astore :=
  foldl (fun a ev => with_history ev a) a evs.

Lemma histories_frame a evs :
  a_messages (histories a evs) = a_messages a ∧ a_dead (histories a evs) = a_dead a ∧
  a_queues (histories a evs) = a_queues a.
Proof.
  unfold histories. revert a. induction evs as [|ev evs IH]; intros a; [done|]. simpl.
  destruct (IH (with_history ev a)) as (-> & -> & ->). done.
Qed.

Lemma history_kept ev a evs id :
  ev ∈ slice_at (a_history a) id → ev ∈ slice_at (a_history (histories a evs)) id.
Proof.
  unfold histories. revert a. induction evs as [|ev' evs IH]; intros a Hin; [done|]. simpl. apply IH.
  simpl. rewrite slice_at_insert. case_decide; [subst; set_solver|done].
Qed.

Lemma histories_in ev a evs : ev ∈ evs → ev ∈ slice_at (a_history (histories a evs)) (he_MessageID ev).
Proof.
  revert a. induction evs as [|ev' evs IH]; intros a; [set_solver|].
  intros [->|Hin]%elem_of_cons; [|by apply IH].
  apply (history_kept ev' (with_history ev' a) evs). simpl.
  rewrite slice_at_insert, decide_True by done. set_solver.
Qed.

Lemma runs_histories {X} (ev : X → HistoryEvent) xs e Q : einv e →
  (∀ s, store_inv s → store_view s = histories (eview e) (ev <$> xs) → Q (Ok tt) (put_store s e)) →
  runs (for_each (fun x => recordHistory (ev x)) xs) e Q.
Proof.
  revert e Q. induction xs as [|x xs IH]; intros e Q Hinv HQ.
  { apply runs_ret. specialize (HQ (e_store e) Hinv eq_refl). by destruct e. }
  cbn [for_each]. apply runs_bind, runs_history; [done|]. intros s Hi Hv.
  apply IH; [done|]. intros s' Hi' Hv'. apply (HQ s' Hi').
  rewrite Hv'. simpl. unfold eview at 1. simpl. by rewrite Hv.
Qed.

Definition pull_claim (queue : Queue) (req : PullRequest) (now : Time) : ClaimRequest :=
  let req := PullRequest_withDefaults (q_VisibilityTimeout queue) req in
  mkClaimRequest (pl_Queue req) (pl_Consumer req) (pl_Limit req) (pl_Lease req) now.

Lemma pull_limit queue req now : (1 ≤ cr_Limit (pull_claim queue req now) ≤ maxPullLimit)%Z.
Proof.
  unfold pull_claim, PullRequest_withDefaults, maxPullLimit, defaultPullLimit. simpl.
  repeat case_match; try lia.
Qed.

Definition claimed_event (consumer : string) (now : Time) (msg : Message) : HistoryEvent :=
  mkHistoryEvent (msg_ID msg) (msg_Queue msg) StateQueued StateProcessing consumer "" now.

Lemma Pull_runs req e : einv e →
  let now := env_clock E (e_ticks e) in
  runs (Engine_Pull E req) e (fun r e' => einv e' ∧
  match Registry_Queue (pl_Queue req) (e_registry e) with
  | Err err => r = Err err ∧ eview e' = eview e
  | Ok queue =>
      let creq := pull_claim queue req now in
      ∃ ids, claim_picks creq (a_messages (eview e)) ids ∧
        let claimed := with_messages (claim_all creq ids) (eview e) in
        r = Ok (messages_of (a_messages claimed) ids) ∧
        eview e' = histories claimed
          (claimed_event (cr_Consumer creq) now <$> messages_of (a_messages claimed) ids)
  end).
Proof.
  intros Hinv now. unfold Engine_Pull. apply runs_bind. unfold runs at 1, registry_get. simpl fst; simpl snd.
  destruct (Registry_Queue (pl_Queue req) (e_registry e)) as [queue|err]; [|done].
  apply runs_bind. unfold runs at 1. cbn [clock fst snd]. apply runs_bind.
  pose proof (pull_limit queue req now) as Hlim.
  eapply runs_store; [apply (law_Claim (pull_claim queue req now)); lia|done|].
  intros s1 r1 Hi1 (ids & Hp & -> & Hv1).
  apply runs_bind, (runs_histories (claimed_event (cr_Consumer (pull_claim queue req now)) now)); [done|].
  intros s2 Hi2 Hv2. apply runs_ret. split; [done|]. exists ids. rewrite Hv1. split_and!; [done..|].
  unfold eview in *. simpl in *. by rewrite Hv2, Hv1.
Qed.

(** ** Reclaiming expired leases *)

(** The ids of the next [n] dead letters are new. *)
Definition fresh_window (e : Engine S) (n : nat) : Prop :=
  let ids := (fun k => newIDAt (env_wall E (e_walls e + k)) (env_entropy E (e_draws e + k))) <$> seq 0 n in
  NoDup ids ∧ ∀ id, id ∈ ids → a_dead (eview e) !! id = None.

(** What becomes of an expired message. *)
Definition reclaimed (now : Time) (rec : record) : record :=
  if ShouldRetry policy (msg_Attempts (rec_msg rec)) then release_record now rec
  else dead_record (Error (EngineErr errLeaseExpired)) now rec.

Lemma requeueExpired_runs msg now e rec : einv e →
  a_messages (eview e) !! msg_ID msg = Some rec → rec_State rec = StateProcessing →
  runs (requeueExpired msg now) e (fun r e' => einv e' ∧ r = Ok true ∧
    e_registry e' = e_registry e ∧ e_walls e' = e_walls e ∧ e_draws e' = e_draws e ∧
    a_messages (eview e') = <[msg_ID msg := release_record now rec]> (a_messages (eview e)) ∧
    a_dead (eview e') = a_dead (eview e)).
Proof.
  intros Hinv Hid Hp. unfold requeueExpired. apply runs_bind.
  try_call (law_Release (msg_ID msg) now). intros s1 r1 Hi1 Hspec1. unfold leased_spec in Hspec1.
  rewrite Hid, decide_True in Hspec1 by done. destruct Hspec1 as [-> Hv1].
  apply runs_bind, runs_history; [done|]. intros s2 Hi2 Hv2. apply runs_ret.
  unfold eview in *. simpl in *. split_and!; [done..| |]; by rewrite Hv2, Hv1.
Qed.

Lemma fresh_window_keep e e' n :
  fresh_window e (1 + n) → e_walls e' = e_walls e → e_draws e' = e_draws e →
  a_dead (eview e') = a_dead (eview e) → fresh_window e' n.
Proof.
  unfold fresh_window. intros [Hn Hf] -> -> ->. rewrite Nat.add_comm, seq_app, fmap_app in Hn, Hf.
  apply NoDup_app in Hn as [Hn _]. split; [done|]. intros id Hid. apply Hf. set_solver.
Qed.

Lemma fresh_window_next e n : fresh_window e (1 + n) →
  a_dead (eview e) !! next_id e = None ∧
  ∀ e' d, e_walls e' = 1 + e_walls e → e_draws e' = 1 + e_draws e →
    a_dead (eview e') = <[next_id e := d]> (a_dead (eview e)) → fresh_window e' n.
Proof.
  unfold fresh_window, next_id. simpl. intros [Hn Hf].
  assert (∀ x : nat, x + 0 = x) as Hz by lia. rewrite !Hz in Hn, Hf.
  apply NoDup_cons in Hn as [Hid Hn].
  split; [apply Hf; set_solver|]. intros e' d Hw Hd Hv. rewrite Hw, Hd, Hv.
  rewrite <-seq_shift, <-list_fmap_compose in Hn, Hid, Hf.
  assert (∀ l : list nat,
    (fun k => newIDAt (env_wall E (e_walls e + k)) (env_entropy E (e_draws e + k))) ∘ Datatypes.S <$> l =
    (fun k => newIDAt (env_wall E (Datatypes.S (e_walls e) + k))
                (env_entropy E (Datatypes.S (e_draws e) + k))) <$> l) as Heq.
  { intros l. apply list_fmap_ext. intros i x _. simpl. by rewrite !Nat.add_succ_r. }
  rewrite Heq in Hn, Hid, Hf. split; [done|]. intros id Hin. rewrite lookup_insert_ne.
  - apply Hf. set_solver.
  - intros Heq'. apply Hid. by rewrite Heq'.
Qed.

(** The dead letter [reclaim] leaves for a message. *)
Definition expiry_recorded (a : astore) (msg : Message) : Prop :=
  ∃ k d, a_dead a !! k = Some d ∧ dl_MessageID d = msg_ID msg ∧ dl_Queue d = msg_Queue msg ∧
    dl_Payload d = msg_Payload msg ∧ dl_ErrorKind d = errorKindExpired ∧
    dl_Attempts d = msg_Attempts msg.

Definition reclaim_map (now : Time) (ids : list string) (m : gmap string record) : gmap string record :=
  map_imap (fun id rec => Some (if decide (id ∈ ids) then reclaimed now rec else rec)) m.

Lemma reclaim_map_cons now id ids m rec : m !! id = Some rec → id ∉ ids →
  reclaim_map now ids (<[id := reclaimed now rec]> m) = reclaim_map now (id :: ids) m.
Proof.
  intros Hid Hn. apply map_eq. intros i. unfold reclaim_map. rewrite !map_lookup_imap, lookup_insert.
  destruct (decide (id = i)) as [<-|Hne].
  - rewrite Hid. simpl. rewrite decide_False, decide_True by set_solver. done.
  - destruct (m !! i); simpl; [|done]. f_equal.
    destruct (decide (i ∈ ids)); [rewrite decide_True by set_solver|rewrite decide_False by set_solver]; done.
Qed.

Lemma reclaim_map_nil now m : reclaim_map now [] m = m.
Proof.
  apply map_eq. intros i. unfold reclaim_map. rewrite map_lookup_imap.
  by destruct (m !! i).
Qed.

Lemma reclaim_loop_runs now msgs requeued e :
  einv e → NoDup (msg_ID <$> msgs) → fresh_window e (length msgs) →
  (∀ msg, msg ∈ msgs → ∃ rec, a_messages (eview e) !! msg_ID msg = Some rec ∧ rec_msg rec = msg ∧
                              rec_State rec = StateProcessing) →
  runs (reclaim_loop E policy now msgs requeued) e (fun r e' => einv e' ∧
    r = Ok (requeued ++ (msg_Queue <$> filter (fun msg => ShouldRetry policy (msg_Attempts msg) = true) msgs)) ∧
    a_messages (eview e') = reclaim_map now (msg_ID <$> msgs) (a_messages (eview e)) ∧
    a_dead (eview e) ⊆ a_dead (eview e') ∧
    ∀ msg, msg ∈ msgs → ShouldRetry policy (msg_Attempts msg) = false → expiry_recorded (eview e') msg).
Proof.
  revert requeued e. induction msgs as [|msg msgs IH]; intros requeued e Hinv Hn Hf Hall.
  { apply runs_ret. rewrite app_nil_r, reclaim_map_nil. split_and!; try done. set_solver. }
  apply NoDup_cons in Hn as [Hid Hn]. destruct (Hall msg) as (rec & Hrec & Hmsg & Hp); [set_solver|].
  assert (∀ e1, a_messages (eview e1) = <[msg_ID msg := reclaimed now rec]> (a_messages (eview e)) →
    ∀ m, m ∈ msgs → ∃ rec0, a_messages (eview e1) !! msg_ID m = Some rec0 ∧ rec_msg rec0 = m ∧
                            rec_State rec0 = StateProcessing) as Hall'.
  { intros e1 -> m Hm. destruct (Hall m) as (r0 & ? & ? & ?); [set_solver|]. exists r0.
    rewrite lookup_insert_ne; [done|]. intros Heq. apply Hid. rewrite Heq. by apply list_elem_of_fmap_2. }
  assert (msg_ID <$> msg :: msgs = msg_ID msg :: (msg_ID <$> msgs)) as -> by done.
  rewrite <-(reclaim_map_cons now _ _ _ rec) by done. cbn [reclaim_loop].
  destruct (ShouldRetry policy (msg_Attempts msg)) eqn:Hr.
  - rewrite filter_cons_True by done. apply runs_bind.
    eapply runs_mono; [by apply (requeueExpired_runs msg now e rec)|].
    intros r e1 (Hi1 & -> & _ & Hw & Hd & Hm1 & Hdead1).
    assert (a_messages (eview e1) = <[msg_ID msg := reclaimed now rec]> (a_messages (eview e))) as Hm1'.
    { unfold reclaimed. by rewrite Hmsg, Hr. }
    eapply runs_mono; [apply IH; [done..|by eapply fresh_window_keep|by apply Hall']|].
    intros r e2 (Hi2 & -> & Hm2 & Hsub & Hexp). rewrite Hm2, Hm1', <-app_assoc. split_and!; [done..| |].
    + by rewrite <-Hdead1.
    + intros m [->|Hm]%elem_of_cons ?; [congruence|by apply Hexp].
  - rewrite filter_cons_False by congruence. apply runs_bind.
    eapply runs_mono; [by apply deadLetter_runs|]. intros r e1 (Hi1 & -> & _ & _ & Hw & Hd & Hv1).
    destruct (fresh_window_next e (length msgs) Hf) as [Hnone Hnext].
    unfold dead_effect in Hv1. cbn [dv_Message] in Hv1.
    rewrite Hrec, decide_False, decide_True in Hv1 by (done || (rewrite Hnone; by intros [])).
    assert (a_messages (eview e1) = <[msg_ID msg := reclaimed now rec]> (a_messages (eview e))) as Hm1'.
    { rewrite Hv1. unfold reclaimed. by rewrite Hmsg, Hr. }
    assert (∃ d, a_dead (eview e1) = <[next_id e := d]> (a_dead (eview e)) ∧
              dl_MessageID d = msg_ID msg ∧ dl_Queue d = msg_Queue msg ∧ dl_Payload d = msg_Payload msg ∧
              dl_ErrorKind d = errorKindExpired ∧ dl_Attempts d = msg_Attempts msg) as (d & Hdead1 & Hd').
    { eexists. split; [by rewrite Hv1|]. done. }
    eapply runs_mono; [apply IH; [done..|by eapply Hnext|by apply Hall']|].
    intros r e2 (Hi2 & -> & Hm2 & Hsub & Hexp). rewrite Hm2, Hm1'. split_and!; [done..| |].
    + etrans; [|exact Hsub]. rewrite Hdead1. by apply insert_subseteq.
    + intros m [->|Hm]%elem_of_cons ?; [|by apply Hexp]. exists (next_id e), d. split; [|done].
      eapply lookup_weaken; [|exact Hsub]. by rewrite Hdead1, lookup_insert_eq.
Qed.

Lemma fresh_window_le e n m : n ≤ m → fresh_window e m → fresh_window e n.
Proof.
  unfold fresh_window. intros Hle. replace m with (n + (m - n)) by lia. rewrite seq_app, fmap_app.
  intros [[Hn _]%NoDup_app Hf]. split; [done|]. intros id Hid. apply Hf. set_solver.
Qed.

(** The messages a list of stored ids denotes. *)
Lemma messages_of_spec a ids : astore_ok a →
  (∀ id, id ∈ ids → is_Some (a_messages a !! id)) →
  msg_ID <$> messages_of (a_messages a) ids = ids ∧
  ∀ msg, msg ∈ messages_of (a_messages a) ids →
    ∃ rec, a_messages a !! msg_ID msg = Some rec ∧ rec_msg rec = msg ∧ msg_ID msg ∈ ids.
Proof.
  intros Hok. unfold messages_of. induction ids as [|id ids IH]; intros Hall; [split; [done|set_solver]|].
  destruct (Hall id) as [rec Hrec]; [set_solver|]. destruct IH as [IH1 IH2]; [set_solver|]. simpl.
  rewrite Hrec. simpl. destruct (aok_messages a Hok _ _ Hrec) as [Hid _]. split.
  - rewrite Hid. f_equal. exact IH1.
  - intros msg [->|Hm]%elem_of_cons; [exists rec; rewrite Hid; set_solver|].
    destruct (IH2 msg Hm) as (r & ? & ? & ?). exists r. set_solver.
Qed.

Lemma reclaim_runs e : einv e → fresh_window e (Z.to_nat reclaimBatchSize) →
  let now := env_clock E (e_ticks e) in
  runs (reclaim E policy) e (fun r e' => einv e' ∧ r = Ok tt ∧
    ∃ ids, NoDup ids ∧ length ids ≤ Z.to_nat reclaimBatchSize ∧
      (∀ id, id ∈ ids → ∃ rec, a_messages (eview e) !! id = Some rec ∧ expired now rec) ∧
      (length ids < Z.to_nat reclaimBatchSize →
       ∀ id rec, a_messages (eview e) !! id = Some rec → expired now rec → id ∈ ids) ∧
      a_messages (eview e') = reclaim_map now ids (a_messages (eview e)) ∧
      a_dead (eview e) ⊆ a_dead (eview e') ∧
      ∀ id rec, id ∈ ids → a_messages (eview e) !! id = Some rec →
        ShouldRetry policy (msg_Attempts (rec_msg rec)) = false →
        expiry_recorded (eview e') (rec_msg rec)).
Proof.
  intros Hinv Hfresh now. unfold reclaim. apply runs_bind. unfold runs at 1. cbn [clock fst snd].
  apply runs_bind. try_call (law_ExpiredLeases now reclaimBatchSize).
  intros s1 r1 Hi1 [(ids & Hn & -> & Hex & Hlen & Hall) Hv1].
  change (eview (tick e)) with (eview e) in *.
  destruct (messages_of_spec (eview e) ids (law_ok _ Hinv)) as [Hids Hmsgs].
  { intros id (rec & -> & _)%Hex. eauto. }
  set (msgs := messages_of (a_messages (eview e)) ids) in *.
  assert (length msgs = length ids) as Hl by (by rewrite <-Hids, length_fmap).
  assert (Z.of_nat (length ids) ≤ reclaimBatchSize)%Z as Hlen' by (by apply Hlen).
  assert (eview (put_store s1 (tick e)) = eview e) as Hv1' by done.
  apply runs_bind. eapply runs_mono; [apply (reclaim_loop_runs now msgs [])|].
  - done.
  - by rewrite Hids.
  - eapply (fresh_window_le _ _ (Z.to_nat reclaimBatchSize)); [rewrite Hl; lia|].
    unfold fresh_window in *. by rewrite Hv1'.
  - intros msg (rec & Hrec & Hm & Hid)%Hmsgs. exists rec. rewrite Hv1'. split_and!; [done..|].
    apply Hex in Hid as (rec' & Hrec' & Hp & _). by simplify_eq.
  - intros r e2 (Hi2 & -> & Hm2 & Hsub & Hexp). apply notify_runs. intros g.
    change (eview (put_signals g e2)) with (eview e2). rewrite Hids, Hv1' in Hm2. rewrite Hv1' in Hsub.
    split; [done|]. split; [done|]. exists ids. split_and!; [done|lia|done| |done|done|].
    + intros Hlt. apply Hall. right. lia.
    + intros id rec Hid Hrec Hr. apply Hexp; [|done].
      unfold msgs, messages_of. apply list_elem_of_omap. exists id. by rewrite Hrec.
Qed.

(** ** A dispatcher's batch *)

(** The ids claimed: none, and then nothing else happens; or some. *)
Lemma claimBatch_runs consumer submit ctx_done e queue :
  let creq := mkClaimRequest (cs_Queue consumer) (cs_Name consumer) (cs_Prefetch consumer)
                (q_VisibilityTimeout queue) (env_clock E (e_ticks e)) in
  einv e → (1 ≤ cs_Prefetch consumer)%Z → reg_queues (e_registry e) !! cs_Queue consumer = Some queue →
  ∃ ids, claim_picks creq (a_messages (eview e)) ids ∧
    match ids with
    | [] => (claimBatch E consumer submit ctx_done e).2 = Ok ([], Ok tt) ∧
            a_messages (eview (claimBatch E consumer submit ctx_done e).1) = a_messages (eview e)
    | _ => ∃ messages r, (claimBatch E consumer submit ctx_done e).2 = Ok (messages, r) ∧
                         length messages = length ids
    end.
Proof.
  intros creq Hinv Hpre Hq. unfold claimBatch. rewrite bind_eq. unfold registry_get, Registry_Queue.
  rewrite Hq. cbn [from_option]. rewrite bind_eq. cbn [clock]. rewrite bind_eq.
  destruct (law_Claim creq ltac:(simpl; lia) (e_store e) Hinv) as [Hi (ids & Hp & Hr & Hv)].
  exists ids. split; [exact Hp|]. unfold on_store. cbn [tick e_store].
  destruct (st_Claim creq (e_store e)) as [s1 r1] eqn:Hs. cbn [fst snd] in *. subst r1.
  assert (length (messages_of (a_messages (store_view s1)) ids) = length ids) as Hlen.
  { destruct (messages_of_spec (store_view s1) ids (law_ok _ Hi)) as [Hids _].
    - intros id Hid. rewrite Hv. cbn [with_messages a_messages].
      rewrite lookup_claim_all, decide_True by done.
      destruct (proj1 (proj2 Hp) id Hid) as (r & Hr & _). unfold eview in Hr. rewrite Hr. by eexists.
    - by rewrite <-Hids at 2; rewrite length_fmap. }
  fold creq. rewrite Hs. destruct ids as [|id ids].
  - simpl. split; [done|]. unfold eview. simpl. rewrite Hv. apply claim_all_nil.
  - rewrite bind_eq. unfold attempting.
    destruct (for_each _ _ _) as [e2 r2]. simpl. eexists _, r2. split; [done|]. exact Hlen.
Qed.
End engine_proofs.
