(* ===== verification/EnginePublish.v ===== *)
(** Publishing and replaying ([Engine_Publish], [Engine_ReplayDeadLetter]) on
    any store that meets the contract. *)

From S2P Require Import Prelude Errors MessageId Message Broker BrokerProofs Storage StoreTraces.
From S2P Require Import Float64 Retry Engine EngineProofs.

Section publish_proofs.
Context {S : Type} `{HS : Unrestricted S} (E : env).
Context (schemas : option (string → string → result error unit)).

(** The schema a publication is validated against in a queue. *)
Definition effective_schema (pub : Publication) (q : Queue) : string :=
  if str_empty (pub_Schema pub) then q_Schema q else pub_Schema pub.

(** The message created for a queue, before validation. *)
Definition created (pub : Publication) (now : Time) (q : Queue) (bytes : list N) : Message :=
  set_Schema (effective_schema pub q)
    (set_MaxAttempts (q_MaxAttempts q) (New pub (q_Name q) now bytes)).

(** The message stored for a queue. *)
Definition published (pub : Publication) (now : Time) (q : Queue) (bytes : list N) : Message :=
  set_State StateQueued (created pub now q bytes).

Fixpoint publish_batch (pub : Publication) (now : Time) (draw : nat) (queues : list Queue) :
    list Message :=
  match queues with
  | [] => []
  | q :: rest => published pub now q (env_entropy E draw) :: publish_batch pub now (1 + draw) rest
  end.

(** The schema check of a queue. *)
Definition schema_check (pub : Publication) (q : Queue) : result error unit :=
  match schemas with
  | None => Ok tt
  | Some v =>
      if str_empty (effective_schema pub q) then Ok tt
      else v (effective_schema pub q) (pub_Payload pub)
  end.

(** The code's conditional assignment of the schema. *)
Lemma created_eq pub now q bytes :
  (let msg := set_MaxAttempts (q_MaxAttempts q) (New pub (q_Name q) now bytes) in
   if str_empty (msg_Schema msg) then set_Schema (q_Schema q) msg else msg) = created pub now q bytes.
Proof. unfold created, effective_schema. simpl. by case_match. Qed.

Lemma created_queued pub now q bytes :
  Transition StateQueued now (created pub now q bytes) = Ok (published pub now q bytes).
Proof.
  rewrite Transition_lifecycle; [done|]. unfold created. simpl. constructor.
Qed.

Lemma publish_batch_queues pub now draw queues :
  msg_Queue <$> publish_batch pub now draw queues = q_Name <$> queues.
Proof. revert draw. induction queues as [|q queues IH]; intros draw; [done|]. simpl. by rewrite IH. Qed.

Lemma publish_batch_queued pub now draw queues :
  Forall (fun msg => msg_State msg = StateQueued) (publish_batch pub now draw queues).
Proof. revert draw. induction queues as [|q queues IH]; intros draw; simpl; by constructor. Qed.

Definition parked (fresh : string) (msg : Message) (cause : error) (now : Time) : DeadLetter :=
  mkDeadLetter fresh (msg_ID msg) (msg_Queue msg) (msg_Exchange msg) (msg_RoutingKey msg)
    (msg_Schema msg) (msg_Payload msg) (msg_Headers msg) (Error cause) errorKindValidation 0
    (msg_CreatedAt msg) now now "" zeroTime 0.

(** Parking a rejected message saves one dead letter, unless its id is taken. *)
Definition park_effect (fresh : string) (msg : Message) (cause : error) (now : Time) (a : astore) : astore :=
  if decide (is_Some (a_dead a !! fresh)) then a
  else with_dead (insert fresh (parked fresh msg cause now)) a.

Lemma validate_runs pub now q bytes e : einv e →
  let msg := created pub now q bytes in
  runs (validate E schemas msg now) e (fun r e' => einv e' ∧
    r = schema_check pub q ∧ e_registry e' = e_registry e ∧ e_signals e' = e_signals e ∧
    match schema_check pub q with
    | Ok _ => e' = e
    | Err err => eview e' = park_effect (next_id E e) msg err now (eview e)
    end).
Proof.
  intros Hinv msg. unfold validate, schema_check. destruct schemas as [v|]; [|by apply runs_ret].
  change (msg_Schema msg) with (effective_schema pub q). change (msg_Payload msg) with (pub_Payload pub).
  destruct (str_empty (effective_schema pub q)); [by apply runs_ret|].
  destruct (v (effective_schema pub q) (pub_Payload pub)) as [[]|err]; [by apply runs_ret|].
  rewrite (Transition_lifecycle StateFailed now msg) by constructor.
  apply runs_bind. unfold parkRejected. apply runs_bind, runs_bind, runs_bind, runs_ret, runs_bind.
  set (rec0 := mkDeadLetter "" _ _ _ _ _ _ _ _ _ _ _ _ _ _ _ _).
  change (newIDAt _ _) with (next_id E e).
  eapply runs_attempt; [apply (law_SaveDeadLetter (next_id E e) rec0)|done|].
  intros s1 r1 Hi1 Hspec1. unfold save_dead_spec in Hspec1.
  change (str_empty (dl_ID rec0)) with true in Hspec1. unfold eview in Hspec1. simpl in Hspec1.
  apply runs_ret. unfold runs, fails. simpl. split_and!; [done..|]. unfold park_effect, eview. simpl.
  case_decide; by destruct Hspec1 as [_ ->].
Qed.

(** The loop when every queue accepts the payload. *)
Lemma publish_loop_ok pub now queues acc e : einv e →
  Forall (fun q => schema_check pub q = Ok tt) queues →
  runs (publish_loop E schemas pub now queues acc) e (fun r e' => einv e' ∧
    r = Ok (acc ++ publish_batch pub now (e_draws e) queues) ∧
    e_registry e' = e_registry e ∧ e_signals e' = e_signals e ∧ eview e' = eview e).
Proof.
  revert acc e. induction queues as [|q queues IH]; intros acc e Hinv Hall.
  { apply runs_ret. simpl. by rewrite app_nil_r. }
  apply Forall_cons in Hall as [Hq Hall]. cbn [publish_loop]. apply runs_bind.
  unfold runs at 1. cbn [entropy fst snd]. cbv zeta. rewrite created_eq.
  apply runs_bind. unfold runs at 1, attempting.
  pose proof (validate_runs pub now q (env_entropy E (e_draws e)) (tick_draw e) Hinv) as Hv.
  unfold runs in Hv. destruct (validate _ _ _ _ _) as [e1 r1]. simpl in Hv.
  destruct Hv as (_ & -> & _ & _ & Hv). rewrite Hq in *. subst e1. cbn [fst snd].
  apply runs_bind. unfold runs at 1, lift. rewrite created_queued. cbn [fst snd].
  eapply runs_mono; [by apply (IH _ (tick_draw e))|].
  intros r e' (Hi' & -> & Hreg & Hsig & Hv'). split_and!; [done| |done..].
  by rewrite <-app_assoc.
Qed.

(** The loop when [q] is the first queue to reject the payload. *)
Lemma publish_loop_rejected pub now before q after acc err e : einv e →
  Forall (fun q => schema_check pub q = Ok tt) before → schema_check pub q = Err err →
  runs (publish_loop E schemas pub now (before ++ q :: after) acc) e (fun r e' => einv e' ∧
    r = Err err ∧ e_registry e' = e_registry e ∧ e_signals e' = e_signals e ∧
    ∃ bytes fresh, eview e' = park_effect fresh (created pub now q bytes) err now (eview e)).
Proof.
  revert acc e. induction before as [|q0 before IH]; intros acc e Hinv Hall Hq.
  - cbn [app publish_loop]. apply runs_bind.
    unfold runs at 1. cbn [entropy fst snd]. cbv zeta. rewrite created_eq.
    apply runs_bind. unfold runs at 1, attempting.
    pose proof (validate_runs pub now q (env_entropy E (e_draws e)) (tick_draw e) Hinv) as Hv.
    unfold runs in Hv. destruct (validate _ _ _ _ _) as [e1 r1]. simpl in Hv.
    destruct Hv as (Hi1 & -> & Hreg & Hsig & Hv). rewrite Hq in *. cbn [fst snd].
    apply runs_bind. unfold runs, emit, modifies, fails. simpl.
    split_and!; [done..|]. eexists _, _. exact Hv.
  - apply Forall_cons in Hall as [Hq0 Hall]. cbn [app publish_loop]. apply runs_bind.
    unfold runs at 1. cbn [entropy fst snd]. cbv zeta. rewrite created_eq.
    apply runs_bind. unfold runs at 1, attempting.
    pose proof (validate_runs pub now q0 (env_entropy E (e_draws e)) (tick_draw e) Hinv) as Hv.
    unfold runs in Hv. destruct (validate _ _ _ _ _) as [e1 r1]. simpl in Hv.
    destruct Hv as (_ & -> & _ & _ & Hv). rewrite Hq0 in *. subst e1. cbn [fst snd].
    apply runs_bind. unfold runs at 1, lift. rewrite created_queued. cbn [fst snd].
    by apply (IH _ (tick_draw e)).
Qed.

Lemma runs_emits {X} (m : X → metric) xs (e : Engine S) Q :
  (∀ ms, Q (Ok tt) (mkEngine (e_store e) (e_registry e) (e_consumers e) (e_signals e) (e_running e)
                      ms (e_ticks e) (e_walls e) (e_draws e) (e_randoms e))) →
  runs (for_each (fun x => emit (m x)) xs) e Q.
Proof.
  revert e. induction xs as [|x xs IH]; intros e HQ.
  - apply runs_ret. specialize (HQ (e_metrics e)). by destruct e.
  - cbn [for_each]. apply runs_bind. apply IH. intros ms. apply HQ.
Qed.

(** What a successful publication leaves behind. *)
Definition publish_effect (batch : list Message) (now : Time) (a : astore) : astore :=
  histories (with_messages (append_all batch) a) (queued_event now <$> batch).

Lemma Publish_runs pub queues e : einv e →
  let now := env_clock E (e_ticks e) in
  let batch := publish_batch pub now (e_draws e) queues in
  Registry_Route (pub_Exchange pub) (pub_RoutingKey pub) (e_registry e) = Ok queues →
  Forall (fun q => schema_check pub q = Ok tt) queues → NoDup (msg_ID <$> batch) →
  runs (Engine_Publish E schemas pub) e (fun r e' => einv e' ∧ e_registry e' = e_registry e ∧
    if decide (Exists (fun msg => is_Some (a_messages (eview e) !! msg_ID msg)) batch)
    then r = Err (StorageErr ErrConflict) ∧ eview e' = eview e
    else r = Ok (mkPublishResult (pub_Exchange pub) (pub_RoutingKey pub)
                   (msg_ID <$> batch) (q_Name <$> queues)) ∧
         eview e' = publish_effect batch now (eview e) ∧
         e_signals e' = foldl notify_one (e_signals e) (q_Name <$> queues)).
Proof.
  intros Hinv now batch Hroute Hall Hn. unfold Engine_Publish. apply runs_bind.
  unfold runs at 1, registry_get. cbn [fst snd]. rewrite Hroute.
  apply runs_bind. unfold runs at 1. cbn [time_Now fst snd].
  apply runs_bind. unfold runs at 1. cbn [clock fst snd]. apply runs_bind.
  eapply runs_mono; [by apply (publish_loop_ok pub now queues [] (tick (tick_wall e)))|].
  intros r1 e1 (Hi1 & -> & Hreg1 & Hsig1 & Hv1). cbn [app].
  change (publish_batch pub now (e_draws (tick (tick_wall e))) queues) with batch.
  change (eview (tick (tick_wall e))) with (eview e) in Hv1.
  apply runs_bind. eapply runs_store; [apply (law_Append batch)|done|].
  { split; [done|apply publish_batch_queued]. }
  intros s2 r2 Hi2 Hspec2. unfold append_spec in Hspec2. rewrite Hv1 in Hspec2.
  case_decide; destruct Hspec2 as [-> Hv2].
  { split_and!; done. }
  apply runs_bind, (runs_histories (queued_event now)); [done|]. intros s3 Hi3 Hv3.
  apply runs_bind. unfold runs at 1. cbn [time_Now fst snd].
  apply runs_bind, runs_emits. intros ms. apply runs_bind. apply runs_ret.
  split; [done|]. split; [by simpl|].
  assert (msg_Queue <$> batch = q_Name <$> queues) as Hq by apply publish_batch_queues.
  rewrite Hq. split_and!; [done| |].
  - unfold publish_effect, eview in *. simpl in *. by rewrite Hv3, Hv2.
  - simpl. by rewrite Hsig1.
Qed.

Lemma Publish_unroutable pub err e : einv e →
  Registry_Route (pub_Exchange pub) (pub_RoutingKey pub) (e_registry e) = Err err →
  Engine_Publish E schemas pub e = (e, Err err).
Proof.
  intros Hinv Hroute. unfold Engine_Publish. rewrite bind_eq. unfold registry_get. by rewrite Hroute.
Qed.

Lemma Publish_rejected_runs pub before q after err e : einv e →
  let now := env_clock E (e_ticks e) in
  Registry_Route (pub_Exchange pub) (pub_RoutingKey pub) (e_registry e) = Ok (before ++ q :: after) →
  Forall (fun q => schema_check pub q = Ok tt) before → schema_check pub q = Err err →
  runs (Engine_Publish E schemas pub) e (fun r e' => einv e' ∧ r = Err err ∧
    e_registry e' = e_registry e ∧ e_signals e' = e_signals e ∧
    ∃ bytes fresh, eview e' = park_effect fresh (created pub now q bytes) err now (eview e)).
Proof.
  intros Hinv now Hroute Hall Hq. unfold Engine_Publish. apply runs_bind.
  unfold runs at 1, registry_get. cbn [fst snd]. rewrite Hroute.
  apply runs_bind. unfold runs at 1. cbn [time_Now fst snd].
  apply runs_bind. unfold runs at 1. cbn [clock fst snd]. apply runs_bind.
  eapply runs_mono; [by apply (publish_loop_rejected pub now before q after [] err (tick (tick_wall e)))|].
  by intros r1 e1 (Hi1 & -> & Hreg1 & Hsig1 & Hv1).
Qed.

(** ** Replaying *)

(** The message a replay publishes. *)
Definition replay_of (d : DeadLetter) (q : Queue) (now : Time) (bytes : list N) : Message :=
  set_State StateQueued
    (SetHeader headerDeadLetterID (dl_ID d) (SetHeader headerReplayOf (dl_MessageID d)
      (set_MaxAttempts (q_MaxAttempts q)
        (New (mkPublication (dl_Exchange d) (dl_RoutingKey d) (dl_Payload d) (dl_Headers d)
                (dl_Schema d)) (q_Name q) now bytes)))).

Definition replay_effect (d : DeadLetter) (replay : Message) (now : Time) (a : astore) : astore :=
  with_dead (insert (dl_ID d) (replayed (msg_ID replay) now d))
    (with_history (mkHistoryEvent (msg_ID replay) (msg_Queue replay) StateCreated StateQueued ""
                     ("replayed from dead letter " +:+ dl_ID d) now)
       (with_messages (append_all [replay]) a)).

Lemma Replay_runs id e : einv e →
  let now := env_clock E (e_ticks e) in
  runs (Engine_ReplayDeadLetter E id) e (fun r e' => einv e' ∧ e_registry e' = e_registry e ∧
  match a_dead (eview e) !! id with
  | None => r = Err (StorageErr ErrNotFound) ∧ eview e' = eview e
  | Some d =>
      match Registry_Queue (dl_Queue d) (e_registry e) with
      | Err err => r = Err err ∧ eview e' = eview e
      | Ok q =>
          let replay := replay_of d q now (env_entropy E (e_draws e)) in
          match a_messages (eview e) !! msg_ID replay with
          | Some _ => r = Err (StorageErr ErrConflict) ∧ eview e' = eview e
          | None =>
              r = Ok (mkReplayResult id (dl_MessageID d) (msg_ID replay) (q_Name q)) ∧
              eview e' = replay_effect d replay now (eview e)
          end
      end
  end).
Proof.
  intros Hinv now. unfold Engine_ReplayDeadLetter. apply runs_bind.
  eapply runs_store; [apply (law_DeadLetter id)|done|]. intros s1 r1 Hi1 [-> Hv1].
  destruct (a_dead (eview e) !! id) as [d|] eqn:Hd; [|done].
  pose proof (aok_dead _ (law_ok _ Hinv) id d Hd) as Hid.
  apply runs_bind. unfold runs at 1, registry_get. cbn [fst snd].
  change (e_registry (put_store s1 e)) with (e_registry e).
  destruct (Registry_Queue (dl_Queue d) (e_registry e)) as [q|err]; [|done].
  apply runs_bind. unfold runs at 1. cbn [clock fst snd].
  apply runs_bind. unfold runs at 1. cbn [entropy fst snd]. cbv zeta.
  apply runs_bind. unfold runs at 1, lift.
  rewrite Transition_lifecycle by constructor. cbn [fst snd].
  set (replay := replay_of d q now (env_entropy E (e_draws e))).
  set (msg := set_UpdatedAt _ _). assert (msg = replay) as -> by done.
  apply runs_bind. eapply runs_store; [apply (law_Append [replay])|done|].
  { split; [apply NoDup_singleton|by apply Forall_singleton]. }
  intros s2 r2 Hi2 Hspec2. unfold append_spec, eview in Hspec2. simpl in Hspec2. rewrite Hv1 in Hspec2.
  cbv zeta. fold replay. destruct (a_messages (eview e) !! msg_ID replay) as [x|] eqn:Hx.
  { rewrite decide_True in Hspec2 by (apply Exists_cons; left; eauto).
    destruct Hspec2 as [-> Hv2]. by split_and!. }
  rewrite decide_False in Hspec2 by (rewrite Exists_cons, Exists_nil; intros [[]|[]]; congruence).
  destruct Hspec2 as [-> Hv2]. apply runs_bind, runs_history; [done|]. intros s3 Hi3 Hv3.
  apply runs_bind.
  eapply runs_attempt; [apply (law_MarkDeadLetterReplayed (dl_ID d) (msg_ID replay) now)|done|].
  intros s4 r4 Hi4 Hspec4. unfold mark_replayed_spec, eview in *. simpl in *.
  rewrite Hv3 in Hspec4. simpl in Hspec4. rewrite Hv2 in Hspec4. simpl in Hspec4.
  rewrite Hid, Hd in Hspec4. destruct Hspec4 as [-> Hv4].
  apply runs_bind, notify_runs. intros g. apply runs_ret. simpl. rewrite Hid.
  split_and!; [done..|]. unfold eview. simpl. rewrite Hv4. unfold replay_effect. by rewrite Hid.
Qed.
End publish_proofs.
