(* ===== verification/EngineSafety.v ===== *)
(** Safety of the engine under any sequence of operations.

    [eop] is an operation of the engine as data, [run_op] its effect.  Every
    operation acts on the store through calls of the storage interface of
    which [allowed] says what they may be ([op_steps]): messages are only
    removed by the deletion or purge of their queue, a message is only marked
    dead-lettered after its dead letter was saved, and dead letters are only
    deleted by a discard.  The theorems about sequences of operations follow
    call by call. *)

From S2P Require Import Prelude Errors MessageId Message Broker BrokerProofs Storage StoreTraces.
From S2P Require Import Float64 Retry Engine EngineProofs EnginePublish.

(** * Abstract steps *)

(** A dead letter for this message with this reason exists. *)
Definition backed (a : astore) (id reason : string) : Prop :=
  ∃ k d, a_dead a !! k = Some d ∧ dl_MessageID d = id ∧ dl_Reason d = reason.

(** Every dead-lettered message has its dead letter. *)
Definition dead_backed (a : astore) : Prop :=
  ∀ id r, a_messages a !! id = Some r → rec_State r = StateDeadLettered →
    backed a id (msg_LastError (rec_msg r)).

(** The calls an operation may make: [del], [pur] are the queue it may delete
    or purge, [disc] whether it may delete dead letters. *)
Record permits := mkPermits {
  may_delete : string → Prop;
  may_purge : string → Prop;
  may_discard : Prop;
}.

Definition allowed (P : permits) (a : astore) {A} (c : call A) : Prop :=
  call_pre c ∧
  match c with
  | CMarkDeadLettered id reason _ => backed a id reason
  | CDeleteDeadLetter _ => may_discard P
  | CDeleteQueue name => may_delete P name
  | CPurge name => may_purge P name
  | _ => True
  end.

Inductive astep (P : permits) : astore → astore → Prop :=
| astep_call A (c : call A) a r a' : allowed P a c → call_spec c a r a' → astep P a a'.

Definition nothing : permits := mkPermits (fun _ => False) (fun _ => False) False.

(** The states a step can write are those of the contract. *)
Lemma record_ok_insert a id f r :
  astore_ok a → a_messages a !! id = Some r →
  msg_ID (rec_msg (f r)) = id → stored_state (rec_State (f r)) →
  (rec_State (f r) ≠ StateProcessing → rec_lease (f r) = zeroTime ∧ rec_consumer (f r) = "") →
  astore_ok (with_messages (insert id (f r)) a).
Proof.
  intros [Hm Hd] Hr Hid Hst Hl. split; [|done]. intros id' r'. simpl. rewrite lookup_insert.
  case_decide as E; [intros [= <-]; by subst|apply Hm].
Qed.

Ltac written := eapply record_ok_insert; [done..| |unfold stored_state; simpl; tauto|done];
  simpl; by eapply aok_messages.

Lemma leased_ok id f a r a' : astore_ok a → leased_spec id f a r a' →
  (∀ r0, a_messages a !! id = Some r0 → astore_ok (with_messages (insert id (f r0)) a)) → astore_ok a'.
Proof.
  intros Hok. unfold leased_spec. destruct (a_messages a !! id) as [r0|] eqn:Hr.
  - case_decide; intros [_ ->] Hw; [by apply Hw|done].
  - by intros [_ ->].
Qed.

Lemma append_ok ms a : astore_ok a → Forall (fun msg => msg_State msg = StateQueued) ms →
  astore_ok (with_messages (append_all ms) a).
Proof.
  intros Hok Hq. revert a Hok. induction Hq as [|msg ms Hq Hqs IH]; intros a Hok; [by destruct a|].
  specialize (IH (with_messages (insert (msg_ID msg) (mkRecord (Clone msg) zeroTime "")) a)).
  apply IH. destruct Hok as [Hm Hd]. split; [|done]. intros id r. simpl. rewrite lookup_insert.
  case_decide as E; [|apply Hm]. intros [= <-]. subst id.
  split_and!; [done| |done]. unfold rec_State. simpl. unfold Clone. rewrite Hq. by left.
Qed.

Lemma submap_ok a a' : astore_ok a →
  (∀ id r, a_messages a' !! id = Some r → a_messages a !! id = Some r) →
  (∀ id d, a_dead a' !! id = Some d → dl_ID d = id) → astore_ok a'.
Proof. intros [Hm Hd] Hsub Hdead. split; [|done]. intros id r ?%Hsub. by apply Hm. Qed.

Lemma claim_ok req ids a : astore_ok a → astore_ok (with_messages (claim_all req ids) a).
Proof.
  intros [Hm Hd]. split; [|done]. intros id r. simpl. unfold claim_all. rewrite map_lookup_imap.
  destruct (a_messages a !! id) as [r0|] eqn:Hr; [|done]. simpl. intros [= <-].
  case_decide; [|by apply Hm]. destruct (Hm _ _ Hr) as (? & _ & _).
  split_and!; [done| |done]. unfold stored_state. simpl. tauto.
Qed.

Lemma call_spec_ok {A} (c : call A) a r a' :
  astore_ok a → call_pre c → call_spec c a r a' → astore_ok a'.
Proof.
  intros Hok Hpre. destruct c; simpl in *;
    try (unfold message_spec, expired_spec, depth_spec, dead_letters_spec, dead_letter_spec,
           count_dead_spec, history_spec, reads; by intros [_ ->]).
  - intros [_ ->]. destruct Hok. by split.
  - unfold delete_queue_spec. case_decide; [|by intros [_ ->]].
    intros (_ & _ & Hd & _ & Hm & _). eapply submap_ok; [done| |rewrite Hd; apply Hok].
    intros id r0. destruct (Hm id) as [->|[-> _]]; done.
  - unfold append_spec. case_decide; intros [_ ->]; [done|]. apply append_ok; [done|]. apply Hpre.
  - intros (ids & _ & _ & ->). by apply claim_ok.
  - intros Hs. eapply leased_ok; [done..|]. intros r0 Hr0. written.
  - intros Hs. eapply leased_ok; [done..|]. intros r0 Hr0. written.
  - intros Hs. eapply leased_ok; [done..|]. intros r0 Hr0. written.
  - unfold dead_spec. destruct (a_messages a !! id) as [r0|] eqn:Hr0; [|by intros [_ ->]].
    case_decide; intros [_ ->]; [|done]. eapply (record_ok_insert a id (dead_record reason at_)); try done.
    + simpl. by eapply aok_messages.
    + unfold stored_state. simpl. tauto.
  - unfold purge_spec. case_decide; intros [_ ->]; [|done]. eapply submap_ok; [done| |apply Hok].
    intros id r0. simpl. by intros [? _]%map_lookup_filter_Some.
  - unfold save_dead_spec. case_decide; intros [_ ->]; [done|]. eapply submap_ok; [done..|]. simpl.
    intros id d. rewrite lookup_insert. case_decide; [by intros [= <-]|apply Hok].
  - unfold mark_replayed_spec. destruct (a_dead a !! id) as [d|] eqn:Hd; intros [_ ->]; [|done].
    eapply submap_ok; [done..|]. simpl. intros id' d'. rewrite lookup_insert.
    case_decide; [|apply Hok]. intros [= <-]. subst. by apply Hok in Hd.
  - unfold delete_dead_spec. destruct (a_dead a !! id) as [d|] eqn:Hd; intros [_ ->]; [|done].
    eapply submap_ok; [done..|]. simpl. intros id' d' [_ ?]%lookup_delete_Some. by apply Hok.
  - intros [_ ->]. destruct Hok. by split.
Qed.

(** ** Dead letters stay behind their messages *)

Lemma backed_call {A} (c : call A) P a r a' id reason :
  ¬ may_discard P → allowed P a c → call_spec c a r a' → backed a id reason → backed a' id reason.
Proof.
  intros Hno [_ Hal] Hspec (k & d & Hk & Hid & Hre).
  assert (a_dead a' = a_dead a → backed a' id reason) as Hsame.
  { intros Heq. exists k, d. by rewrite Heq. }
  destruct c; simpl in Hspec, Hal;
    try (apply Hsame; revert Hspec;
         unfold message_spec, expired_spec, depth_spec, dead_letters_spec, dead_letter_spec,
           count_dead_spec, history_spec, reads, leased_spec, dead_spec, append_spec, purge_spec,
           save_queue_spec, append_history_spec;
         repeat case_match; by intros [_ ->]).
  - revert Hspec. unfold delete_queue_spec. case_decide.
    + intros (_ & _ & Hd & _). by apply Hsame.
    + intros [_ ->]. by apply Hsame.
  - destruct Hspec as (ids & _ & _ & ->). by apply Hsame.
  - revert Hspec. unfold save_dead_spec. set (e := if str_empty _ then _ else _). clearbody e.
    case_decide as Hex; intros [_ ->]; [by apply Hsame|].
    exists k, d. simpl. rewrite lookup_insert_ne; [done|]. intros Heq. apply Hex. rewrite Heq. eauto.
  - revert Hspec. unfold mark_replayed_spec. destruct (a_dead a !! id0) as [d0|] eqn:E; intros [_ ->];
      [|by apply Hsame].
    destruct (decide (id0 = k)) as [->|Hne].
    + exists k, (replayed replayedAs at_ d0). simpl. rewrite lookup_insert_eq. simplify_eq. done.
    + exists k, d. simpl. by rewrite lookup_insert_ne.
  - done.
Qed.

Lemma leased_dead i f a r a' id rec :
  leased_spec i f a r a' → (∀ r0, rec_State (f r0) ≠ StateDeadLettered) →
  a_messages a' !! id = Some rec → rec_State rec = StateDeadLettered → a_messages a !! id = Some rec.
Proof.
  unfold leased_spec. intros Hspec Hf Hid Hst. revert Hspec.
  case_match; [case_decide|]; intros [_ ->]; [|done..].
  simpl in Hid. rewrite lookup_insert in Hid. case_decide; [|done]. simplify_eq. by destruct (Hf r0).
Qed.

Lemma append_dead ms a id rec :
  Forall (fun msg => msg_State msg = StateQueued) ms →
  append_all ms (a_messages a) !! id = Some rec → rec_State rec = StateDeadLettered →
  a_messages a !! id = Some rec.
Proof.
  unfold append_all. generalize (a_messages a) as m. intros m Hq. revert m.
  induction Hq as [|msg ms Hq Hqs IH]; intros m Hid Hst; [done|]. apply IH in Hid; [|done].
  rewrite lookup_insert in Hid. case_decide; [|done]. simplify_eq.
  unfold rec_State, Clone in Hst. simpl in Hst. by rewrite Hq in Hst.
Qed.

(** A record that is dead-lettered after a call was so before, or the call
    marked it, with its reason. *)
Lemma dead_origin {A} (c : call A) P a r a' id rec :
  allowed P a c → call_spec c a r a' →
  a_messages a' !! id = Some rec → rec_State rec = StateDeadLettered →
  a_messages a !! id = Some rec ∨ backed a id (msg_LastError (rec_msg rec)).
Proof.
  intros [Hpre Hal] Hspec Hid Hst.
  destruct c; simpl in Hspec, Hpre, Hal;
    try (left; revert Hspec;
         unfold message_spec, expired_spec, depth_spec, dead_letters_spec, dead_letter_spec,
           count_dead_spec, history_spec, reads, save_queue_spec, append_history_spec,
           save_dead_spec, mark_replayed_spec, delete_dead_spec;
         repeat case_match; repeat case_decide; by intros [_ ->]);
    try (left; by eapply leased_dead).
  - left. revert Hspec. unfold delete_queue_spec. case_decide; [|by intros [_ ->]].
    intros (_ & _ & _ & _ & Hm & _). destruct (Hm id) as [<-|[Hn _]]; [done|congruence].
  - left. revert Hspec. unfold append_spec. case_decide; intros [_ ->]; [done|].
    eapply append_dead; [apply Hpre|done..].
  - left. destruct Hspec as (ids & _ & _ & ->). simpl in Hid. unfold claim_all in Hid.
    rewrite map_lookup_imap in Hid. destruct (a_messages a !! id); [|done]. simpl in Hid.
    case_decide; by simplify_eq.
  - revert Hspec. unfold dead_spec. case_match; [case_decide|]; intros [_ ->]; [|by left..].
    simpl in Hid. rewrite lookup_insert in Hid. case_decide; [|by left]. simplify_eq. by right.
  - left. revert Hspec. unfold purge_spec. case_decide; intros [_ ->]; [|done].
    simpl in Hid. by apply map_lookup_filter_Some in Hid as [? _].
Qed.

Lemma astep_ok P a a' : astep P a a' → astore_ok a → astore_ok a'.
Proof. intros [A c a0 r a1 [Hpre _] Hspec] Hok. by eapply call_spec_ok. Qed.

Lemma astep_dead_backed P a a' :
  ¬ may_discard P → astep P a a' → dead_backed a → dead_backed a'.
Proof.
  intros Hno [A c a0 r a1 Hal Hspec] Hb id rec Hid Hst.
  eapply backed_call; [done..|].
  destruct (dead_origin c P _ _ _ id rec Hal Hspec Hid Hst) as [Hid0|]; [by apply Hb|done].
Qed.

Lemma astep_conserves P a a' id rec :
  astep P a a' → astore_ok a → a_messages a !! id = Some rec →
  (∃ rec', a_messages a' !! id = Some rec' ∧ evolves rec rec') ∨
  may_delete P (rec_Queue rec) ∨ (may_purge P (rec_Queue rec) ∧ ¬ settled_state (rec_State rec)).
Proof.
  intros [A c a0 r a1 [_ Hal] Hspec] Hok Hid.
  destruct (call_conserves c _ _ _ Hok Hspec id rec Hid) as [?|[_ Hg]]; [by left|right].
  destruct c; simpl in Hg, Hal; try done; subst; [by left|right]. destruct Hg as [<- ?]. done.
Qed.

(** ** Sequences of steps *)

Lemma asteps_ok P a a' : rtc (astep P) a a' → astore_ok a → astore_ok a'.
Proof. induction 1; eauto using astep_ok. Qed.

Lemma asteps_dead_backed P a a' :
  ¬ may_discard P → rtc (astep P) a a' → dead_backed a → dead_backed a'.
Proof. intros Hno. induction 1; eauto using astep_dead_backed. Qed.

Lemma asteps_conserves P a a' id rec :
  rtc (astep P) a a' → astore_ok a → a_messages a !! id = Some rec →
  (∃ rec', a_messages a' !! id = Some rec' ∧ evolves rec rec') ∨
  may_delete P (rec_Queue rec) ∨ (may_purge P (rec_Queue rec) ∧ ¬ settled_state (rec_State rec)).
Proof.
  intros Hs. revert rec. induction Hs as [a|a a1 a2 H1 Hs IH]; intros rec Hok Hid; [left; eauto with broker|].
  destruct (astep_conserves P a a1 id rec H1 Hok Hid) as [(r1 & Hr1 & He1)|?]; [|by right].
  assert (rec_Queue r1 = rec_Queue rec) as Hq.
  { destruct He1 as [->|(_ & (_ & Hq & _) & _)]; done. }
  destruct (IH r1 (astep_ok _ _ _ H1 Hok) Hr1) as [(r2 & Hr2 & He2)|[Hg|[Hg Hns]]].
  - left. exists r2. split; [done|]. by eapply evolves_trans.
  - right. left. by rewrite <-Hq.
  - right. right. rewrite <-Hq. split; [done|].
    destruct He1 as [->|(? & _ & _)]; done.
Qed.

(** * Operations as steps *)

Section safety.
Context {S : Type} `{HS : Unrestricted S} (E : env) (policy : Policy).
Context (schemas : option (string → string → result error unit)).
Context (unrepresentable : float64 → Z).

(** Run on [e], the operation keeps the store's invariant, acts on the store by
    permitted calls only, and leaves the consumers alone. *)
Definition steps_at {A} (P : permits) (p : prog (Engine S) A) (e : Engine S) : Prop :=
  einv e → einv (p e).1 ∧ rtc (astep P) (eview e) (eview (p e).1) ∧
           e_consumers (p e).1 = e_consumers e.

Lemma steps_same {A} P (p : prog (Engine S) A) e :
  e_store (p e).1 = e_store e → e_consumers (p e).1 = e_consumers e → steps_at P p e.
Proof.
  intros Hs Hc Hinv. unfold einv, eview in *. rewrite Hs. by split_and!.
Qed.

Lemma steps_bind {A B} P (p : prog (Engine S) A) (f : A → prog (Engine S) B) e :
  steps_at P p e → (∀ a, (p e).2 = Ok a → steps_at P (f a) (p e).1) → steps_at P (p ≫= f) e.
Proof.
  intros Hp Hf Hinv. destruct (Hp Hinv) as (Hi & Hs & Hc). rewrite bind_eq.
  destruct (p e) as [e1 [a|x]]; simpl in *; [|done].
  destruct (Hf a eq_refl Hi) as (Hi2 & Hs2 & Hc2). split_and!; [done|by etrans|congruence].
Qed.

Lemma steps_call {A} P (c : call A) e :
  (∀ a, allowed P a c) → steps_at P (on_store (run_call c)) e.
Proof.
  intros Hal Hinv. destruct (Hal (eview e)) as [Hpre _].
  destruct (law_implements c Hpre (e_store e) Hinv) as [Hi Hspec]. unfold on_store.
  destruct (run_call c (e_store e)) as [s r] eqn:Hrun. simpl in *. split_and!; [done| |done].
  apply rtc_once. by econstructor.
Qed.

Lemma steps_try {A} P (p : prog (Engine S) A) e : steps_at P p e → steps_at P (attempting p) e.
Proof.
  intros Hp Hinv. destruct (Hp Hinv) as (Hi & Hs & Hc). unfold attempting.
  by destruct (p e) as [e1 r].
Qed.

Lemma steps_topology {A} P (p : prog S A) e :
  implements store_inv store_view p topology_spec → steps_at P (on_store p) e.
Proof.
  intros Hp Hinv. destruct (Hp _ Hinv) as [Hi [_ Hv]]. unfold on_store, einv, eview.
  destruct (p (e_store e)) as [s r]. simpl in *. rewrite Hv. by split_and!.
Qed.

Lemma steps_each {X} P (f : X → prog (Engine S) unit) xs e :
  (∀ x e', steps_at P (f x) e') → steps_at P (for_each f xs) e.
Proof.
  intros Hf. revert e. induction xs as [|x xs IH]; intros e; [by apply steps_same|].
  cbn [for_each]. apply steps_bind; [apply Hf|]. intros [] _. apply IH.
Qed.

Lemma steps_history P ev e : steps_at P (recordHistory ev) e.
Proof.
  unfold recordHistory. apply steps_bind; [|by intros; apply steps_same].
  apply steps_try, (steps_call P (CAppendHistory ev)). by intros.
Qed.

Lemma steps_registry {A} P (f : Registry → result error (A * Registry)) e :
  steps_at P (registry_do f) e.
Proof. apply steps_same; unfold registry_do; by repeat case_match. Qed.

(** Calls that any operation may make at any time. *)
Ltac stp :=
  lazymatch goal with
  | |- steps_at _ (_ ≫= _) _ => apply steps_bind; [|intros ? ?]
  | |- steps_at _ (recordHistory _) _ => apply steps_history
  | |- steps_at _ (attempting _) _ => apply steps_try
  | |- steps_at _ (registry_do _) _ => apply steps_registry
  | |- steps_at _ (match ?x with _ => _ end) _ => destruct x
  | |- steps_at _ (for_each _ _) _ => apply steps_each; intros ? ?
  | |- steps_at ?P (on_store (st_Message ?i)) _ => apply (steps_call P (CMessage i)); by intros
  | |- steps_at ?P (on_store (st_History ?i)) _ => apply (steps_call P (CHistory i)); by intros
  | |- steps_at ?P (on_store (st_Depth ?i)) _ => apply (steps_call P (CDepth i)); by intros
  | |- steps_at ?P (on_store (st_DeadLetter ?i)) _ => apply (steps_call P (CDeadLetter i)); by intros
  | |- steps_at ?P (on_store (st_Acknowledge ?i ?t)) _ => apply (steps_call P (CAcknowledge i t)); by intros
  | |- steps_at ?P (on_store (st_Release ?i ?t)) _ => apply (steps_call P (CRelease i t)); by intros
  | |- steps_at ?P (on_store (st_ScheduleRetry ?r)) _ => apply (steps_call P (CScheduleRetry r)); by intros
  | |- steps_at ?P (on_store (st_ExpiredLeases ?n ?l)) _ => apply (steps_call P (CExpiredLeases n l)); by intros
  | |- steps_at ?P (on_store (st_SaveQueue ?q)) _ => apply (steps_call P (CSaveQueue q)); by intros
  | |- steps_at ?P (on_store (st_SaveDeadLetter ?f ?d)) _ => apply (steps_call P (CSaveDeadLetter f d)); by intros
  | |- steps_at ?P (on_store (st_MarkDeadLetterReplayed ?i ?a ?t)) _ =>
      apply (steps_call P (CMarkDeadLetterReplayed i a t)); by intros
  | |- _ => by apply steps_same
  end.

Lemma steps_deadLetter P consumer delivery cause now e :
  steps_at P (deadLetter E consumer delivery cause now) e.
Proof.
  intros Hinv. destruct (deadLetter_runs E consumer delivery cause now e Hinv)
    as (Hi & _ & _ & Hc & _ & _ & Hv). split_and!; [done| |done]. rewrite Hv. unfold dead_effect.
  set (id := msg_ID (dv_Message delivery)). set (fresh := next_id E e).
  case_decide as Hex; [done|]. set (d := dead_letter_of _ _ _ _ _).
  set (a1 := with_dead (insert fresh d) (eview e)).
  assert (astep P (eview e) a1) as H1.
  { apply (astep_call P _ (CSaveDeadLetter fresh (set_dl_ID "" d)) _ (Ok d)); [done|].
    simpl. unfold save_dead_spec. simpl. by rewrite decide_False. }
  destruct (a_messages (eview e) !! id) as [rec|] eqn:Hrec; [|by apply rtc_once].
  case_decide as Hp; [|by apply rtc_once].
  eapply rtc_l; [exact H1|]. eapply rtc_l; [|eapply rtc_once].
  - apply (astep_call P _ (CMarkDeadLettered id (Error cause) now) _ (Ok tt)).
    + split; [done|]. exists fresh, d. simpl. by rewrite lookup_insert_eq.
    + simpl. unfold dead_spec. simpl. rewrite Hrec, decide_True by done. done.
  - eapply (astep_call P unit (CAppendHistory (mkHistoryEvent _ _ _ _ _ _ _)) _ (Ok tt)); by repeat split.
Qed.

Lemma steps_fail P consumer delivery cause e :
  steps_at P (fail E policy unrepresentable consumer delivery cause) e.
Proof. unfold fail. repeat (apply steps_deadLetter || stp). Qed.

Lemma steps_process P consumer delivery outcome e :
  steps_at P (process E policy unrepresentable consumer delivery outcome) e.
Proof. unfold process, acknowledge. repeat (apply steps_fail || stp). Qed.

Lemma steps_Ack P id e : steps_at P (Engine_Ack E id) e.
Proof. unfold Engine_Ack. repeat stp. Qed.

Lemma steps_Nack P id reason requeue e :
  steps_at P (Engine_Nack E policy unrepresentable id reason requeue) e.
Proof. unfold Engine_Nack. repeat (apply steps_fail || stp). Qed.

Lemma steps_reclaim_loop P now msgs requeued e :
  steps_at P (reclaim_loop E policy now msgs requeued) e.
Proof.
  revert requeued e. induction msgs as [|msg msgs IH]; intros requeued e; [by apply steps_same|].
  cbn [reclaim_loop]. destruct (ShouldRetry policy (msg_Attempts msg)).
  - apply steps_bind; [unfold requeueExpired; repeat stp|]. intros; apply IH.
  - apply steps_bind; [apply steps_deadLetter|]. intros; apply IH.
Qed.

Lemma steps_reclaim P e : steps_at P (reclaim E policy) e.
Proof. unfold reclaim. repeat (apply steps_reclaim_loop || stp). Qed.

Lemma steps_Pull P req e : steps_at P (Engine_Pull E req) e.
Proof.
  unfold Engine_Pull. apply steps_bind; [by apply steps_same|intros queue _].
  apply steps_bind; [by apply steps_same|intros now _].
  apply steps_bind; [|intros; repeat stp]. apply (steps_call P (CClaim _)). intros a. split; [|done].
  pose proof (pull_limit queue req now) as Hl. unfold pull_claim in Hl. simpl in *. lia.
Qed.

Lemma steps_claimBatch P consumer submit done e : (1 ≤ cs_Prefetch consumer)%Z →
  steps_at P (claimBatch E consumer submit done) e.
Proof.
  intros Hpre. unfold claimBatch. do 2 (apply steps_bind; [by apply steps_same|intros ? ?]).
  apply steps_bind; [|intros; unfold handOff, releaseUndispatched; repeat stp].
  apply (steps_call P (CClaim _)). intros. split; [|done]. simpl. lia.
Qed.

(** The ids of a publication's messages are pairwise distinct. *)
Definition distinct_ids (pub : Publication) (e : Engine S) : Prop :=
  match Registry_Route (pub_Exchange pub) (pub_RoutingKey pub) (e_registry e) with
  | Ok queues =>
      NoDup (msg_ID <$> publish_batch E pub (env_clock E (e_ticks e)) (e_draws e) queues)
  | Err _ => True
  end.

#[export] Instance distinct_ids_dec pub e : Decision (distinct_ids pub e).
Proof. unfold distinct_ids. case_match; apply _. Defined.

Lemma steps_validate P msg now e : steps_at P (validate E schemas msg now) e.
Proof. unfold validate, parkRejected, NewID. repeat stp. Qed.

Lemma steps_publish_loop P pub now queues acc e :
  steps_at P (publish_loop E schemas pub now queues acc) e.
Proof.
  revert acc e. induction queues as [|q queues IH]; intros acc e; [by apply steps_same|].
  cbn [publish_loop]. apply steps_bind; [by apply steps_same|intros bytes _].
  apply steps_bind; [apply steps_try, steps_validate|intros valid _]. destruct valid; [|repeat stp].
  apply steps_bind; [by apply steps_same|]. intros; apply IH.
Qed.

(** The loop either finds every queue content, or stops at the first that is not. *)
Lemma schema_cases pub queues :
  Forall (fun q => schema_check schemas pub q = Ok tt) queues ∨
  ∃ before q after err, queues = before ++ q :: after ∧
    Forall (fun q => schema_check schemas pub q = Ok tt) before ∧ schema_check schemas pub q = Err err.
Proof.
  induction queues as [|q queues IH]; [left; by constructor|].
  destruct (schema_check schemas pub q) as [[]|err] eqn:Hq.
  - destruct IH as [IH|(before & q' & after & err & -> & Hb & Hq')]; [left; by constructor|].
    right. exists (q :: before), q', after, err. split_and!; [done|by constructor|done].
  - right. exists [], q, queues, err. split_and!; [done|constructor|done].
Qed.

Lemma publish_loop_result pub now queues acc e ms : einv e →
  (publish_loop E schemas pub now queues acc e).2 = Ok ms →
  ms = acc ++ publish_batch E pub now (e_draws e) queues.
Proof.
  intros Hinv Hr. destruct (schema_cases pub queues) as [Hall|(before & q & after & err & -> & Hb & Hq)].
  - destruct (publish_loop_ok E schemas pub now queues acc e Hinv Hall) as (_ & Hr' & _). congruence.
  - destruct (publish_loop_rejected E schemas pub now before q after acc err e Hinv Hb Hq) as (_ & Hr' & _).
    congruence.
Qed.

Lemma steps_Publish P pub e : distinct_ids pub e → steps_at P (Engine_Publish E schemas pub) e.
Proof.
  intros Hd Hinv. pose proof Hinv as Hinv0. revert Hinv. unfold Engine_Publish.
  apply steps_bind; [by apply steps_same|].
  intros queues Hroute. unfold registry_get in Hroute. simpl in Hroute. unfold distinct_ids in Hd.
  rewrite Hroute in Hd. apply steps_bind; [by apply steps_same|intros started _].
  apply steps_bind; [by apply steps_same|intros now [= <-]].
  apply steps_bind; [apply steps_publish_loop|intros messages Hms].
  apply publish_loop_result in Hms; [|exact Hinv0].
  apply steps_bind; [|intros; repeat stp; by apply steps_same].
  apply (steps_call P (CAppend messages)).
  intros a. split; [|done]. subst messages. split; [done|apply publish_batch_queued].
Qed.

Lemma steps_Replay P id e : steps_at P (Engine_ReplayDeadLetter E id) e.
Proof.
  unfold Engine_ReplayDeadLetter. apply steps_bind; [repeat stp|intros record _].
  apply steps_bind; [by apply steps_same|intros queue _].
  apply steps_bind; [by apply steps_same|intros now _].
  apply steps_bind; [by apply steps_same|intros bytes _].
  apply steps_bind; [by apply steps_same|intros replay Hr].
  apply steps_bind; [|intros; repeat stp].
  apply (steps_call P (CAppend [replay])). intros a. split; [|done].
  split; [apply NoDup_singleton|]. apply Forall_singleton.
  unfold lift in Hr. apply Transition_Ok in Hr as [_ ->]. done.
Qed.

Lemma steps_ignore P (p : prog S unit) e :
  steps_at P (on_store p) e → steps_at P (ignore_missing p) e.
Proof.
  intros Hp. unfold ignore_missing. apply steps_bind; [by apply steps_try|]. intros; repeat stp.
Qed.

(** * Operations as data *)

Inductive eop :=
| OpDeclareExchange (spec : ExchangeSpec) (now : Time)
| OpDeclareQueue (spec : QueueSpec) (now : Time)
| OpBind (spec : BindingSpec) (now : Time)
| OpUnbind (spec : BindingSpec)
| OpDeleteQueue (name : string)
| OpPublish (pub : Publication)
| OpPull (req : PullRequest)
| OpAck (id : string)
| OpNack (id reason : string) (requeue : bool)
| OpSubscribe (spec : ConsumerSpec)
| OpUnsubscribe (name : string)
| OpClaimBatch (name : string) (submit : Message → option error) (ctx_done : bool)
| OpProcess (consumer : ConsumerSpec) (delivery : Delivery) (outcome : option error)
| OpReclaim
| OpRefreshQueueDepths
| OpReplay (id : string)
| OpDiscard (id : string)
| OpPurge (queue : string)
| OpStart
| OpShutdown (timed_out : option error).

(** The state an operation leaves; a registered consumer's dispatcher is the
    only caller of [claimBatch]. *)
Definition run_op (op : eop) (e : Engine S) : Engine S :=
  match op with
  | OpDeclareExchange spec now => (Engine_DeclareExchange spec now e).1
  | OpDeclareQueue spec now => (Engine_DeclareQueue spec now e).1
  | OpBind spec now => (Engine_Bind spec now e).1
  | OpUnbind spec => (Engine_Unbind spec e).1
  | OpDeleteQueue name => (Engine_DeleteQueue name e).1
  | OpPublish pub => (Engine_Publish E schemas pub e).1
  | OpPull req => (Engine_Pull E req e).1
  | OpAck id => (Engine_Ack E id e).1
  | OpNack id reason requeue => (Engine_Nack E policy unrepresentable id reason requeue e).1
  | OpSubscribe spec => (Engine_Subscribe spec e).1
  | OpUnsubscribe name => (Engine_Unsubscribe name e).1
  | OpClaimBatch name submit ctx_done =>
      match e_consumers e !! name with
      | Some consumer => (claimBatch E consumer submit ctx_done e).1
      | None => e
      end
  | OpProcess consumer delivery outcome =>
      (process E policy unrepresentable consumer delivery outcome e).1
  | OpReclaim => (reclaim E policy e).1
  | OpRefreshQueueDepths => (RefreshQueueDepths e).1
  | OpReplay id => (Engine_ReplayDeadLetter E id e).1
  | OpDiscard id => (Engine_DiscardDeadLetter id e).1
  | OpPurge queue => (Engine_Purge queue e).1
  | OpStart => (Engine_Start e).1
  | OpShutdown timed_out => (Engine_Shutdown timed_out e).1
  end.

(** Before a publication: its new ids are distinct. *)
Definition op_pre (op : eop) (e : Engine S) : Prop :=
  match op with OpPublish pub => distinct_ids pub e | _ => True end.

Definition op_permits (op : eop) : permits :=
  mkPermits (fun q => op = OpDeleteQueue q) (fun q => op = OpPurge q)
    (match op with OpDiscard _ => True | _ => False end).

(** Consumers are registered with their defaults filled in. *)
Definition consumers_ok (e : Engine S) : Prop :=
  ∀ name spec, e_consumers e !! name = Some spec → (1 ≤ cs_Prefetch spec)%Z.

Definition engine_ok (e : Engine S) : Prop := einv e ∧ consumers_ok e.

Lemma withDefaults_prefetch v spec : (1 ≤ cs_Prefetch (ConsumerSpec_withDefaults v spec))%Z.
Proof. unfold ConsumerSpec_withDefaults. simpl. repeat case_match; lia. Qed.

Lemma op_same P e e' :
  engine_ok e → e_store e' = e_store e → consumers_ok e' →
  engine_ok e' ∧ rtc (astep P) (eview e) (eview e').
Proof. intros [Hi _] Hs Hc. unfold engine_ok, einv, eview in *. rewrite Hs. by split. Qed.

Lemma op_done {A} P (p : prog (Engine S) A) e :
  engine_ok e → steps_at P p e → engine_ok (p e).1 ∧ rtc (astep P) (eview e) (eview (p e).1).
Proof.
  intros [Hi Hc] Hs. destruct (Hs Hi) as (Hi' & Hst & Hc'). split; [|done]. split; [done|].
  unfold consumers_ok. by rewrite Hc'.
Qed.

Lemma subscribe_store spec (e : Engine S) : e_store (Engine_Subscribe spec e).1 = e_store e.
Proof.
  unfold Engine_Subscribe, registry_get, register_consumer. rewrite bind_eq.
  destruct (cs_HasHandler spec); [|done]. simpl. rewrite bind_eq.
  destruct (Registry_Queue _ _); [|done]. by repeat case_match.
Qed.

Lemma subscribe_consumers spec (e : Engine S) : consumers_ok e → consumers_ok (Engine_Subscribe spec e).1.
Proof.
  intros Hc. unfold Engine_Subscribe, registry_get, register_consumer. rewrite bind_eq.
  destruct (cs_HasHandler spec); [|done]. simpl. rewrite bind_eq.
  destruct (Registry_Queue _ _) as [q|]; [|done]. case_match; [done|]. case_match; [done|].
  intros name spec'. simpl. rewrite lookup_insert. case_decide; [|apply Hc].
  intros [= <-]. apply withDefaults_prefetch.
Qed.

(** Every operation keeps the engine well formed and acts by permitted calls. *)
Lemma op_steps op e : engine_ok e → op_pre op e →
  engine_ok (run_op op e) ∧ rtc (astep (op_permits op)) (eview e) (eview (run_op op e)).
Proof.
  intros Hok Hpre. destruct op; cbn [run_op]; cbn [op_pre] in Hpre;
    lazymatch goal with
    | |- context [Engine_Subscribe] => idtac
    | |- context [Engine_Unsubscribe] => idtac
    | |- context [claimBatch] => idtac
    | |- context [Engine_Shutdown] => idtac
    | |- _ => apply op_done; [done|]
    end.
  - unfold Engine_DeclareExchange. repeat (apply steps_topology, law_SaveExchange || stp).
  - unfold Engine_DeclareQueue. repeat stp.
  - unfold Engine_Bind. repeat (apply steps_topology, law_SaveBinding || stp).
  - unfold Engine_Unbind, registry_forget.
    repeat (apply steps_ignore, steps_topology, law_DeleteBinding || stp).
  - unfold Engine_DeleteQueue, registry_forget.
    apply steps_bind; [stp|intros ? ?]. apply steps_ignore, (steps_call _ (CDeleteQueue name)).
    by intros.
  - by apply steps_Publish.
  - apply steps_Pull.
  - apply steps_Ack.
  - apply steps_Nack.
  - apply op_same; [done|apply subscribe_store|]. apply subscribe_consumers, Hok.
  - unfold Engine_Unsubscribe. case_match; [|by split]. apply op_same; [done..|].
    intros n spec'. simpl. intros [_ ?]%lookup_delete_Some. by eapply Hok.
  - destruct (e_consumers e !! name) as [spec|] eqn:Hc; [|by split]. apply op_done; [done|].
    apply steps_claimBatch. by eapply Hok.
  - apply steps_process.
  - apply steps_reclaim.
  - unfold RefreshQueueDepths. repeat stp.
  - apply steps_Replay.
  - apply (steps_call _ (CDeleteDeadLetter id)). by intros.
  - apply (steps_call _ (CPurge queue)). by intros.
  - unfold Engine_Start. apply steps_same; by case_match.
  - apply op_same; [done|by destruct timed_out|]. destruct timed_out; intros n c; simpl; by rewrite lookup_empty.
Qed.

(** * Traces of operations *)

Fixpoint run_ops (ops : list eop) (e : Engine S) : Engine S :=
  match ops with [] => e | op :: rest => run_ops rest (run_op op e) end.

Fixpoint ops_pre (ops : list eop) (e : Engine S) : Prop :=
  match ops with [] => True | op :: rest => op_pre op e ∧ ops_pre rest (run_op op e) end.

Lemma run_ops_ok ops e : engine_ok e → ops_pre ops e → engine_ok (run_ops ops e).
Proof.
  revert e. induction ops as [|op ops IH]; intros e Hok Hpre; [done|]. destruct Hpre as [Hp Hps].
  apply IH; [|done]. by apply op_steps.
Qed.

Lemma run_ops_dead_backed ops e : engine_ok e → ops_pre ops e →
  (∀ id, OpDiscard id ∉ ops) → dead_backed (eview e) → dead_backed (eview (run_ops ops e)).
Proof.
  revert e. induction ops as [|op ops IH]; intros e Hok Hpre Hno Hb; [done|].
  destruct Hpre as [Hp Hps]. destruct (op_steps op e Hok Hp) as [Hok' Hs]. apply IH; [done..|set_solver|].
  eapply asteps_dead_backed; [|exact Hs|done]. simpl. destruct op; try tauto.
  intros _. eapply Hno. by left.
Qed.

Lemma run_ops_conserves ops e id rec : engine_ok e → ops_pre ops e →
  a_messages (eview e) !! id = Some rec →
  (∃ rec', a_messages (eview (run_ops ops e)) !! id = Some rec' ∧ evolves rec rec') ∨
  OpDeleteQueue (rec_Queue rec) ∈ ops ∨
  (OpPurge (rec_Queue rec) ∈ ops ∧ ¬ settled_state (rec_State rec)).
Proof.
  revert e rec. induction ops as [|op ops IH]; intros e rec Hok Hpre Hid; [left; eauto with broker|].
  destruct Hpre as [Hp Hps]. destruct (op_steps op e Hok Hp) as [Hok' Hs].
  destruct (asteps_conserves _ _ _ id rec Hs (law_ok _ (proj1 Hok)) Hid) as [(r1 & Hr1 & He1)|Hg]; last first.
  { right. simpl in Hg. destruct Hg as [<-|[<- ?]]; set_solver. }
  assert (rec_Queue r1 = rec_Queue rec) as Hq.
  { destruct He1 as [->|(_ & (_ & Hq & _) & _)]; done. }
  destruct (IH _ r1 Hok' Hps Hr1) as [(r2 & Hr2 & He2)|Hg].
  - left. exists r2. split; [done|]. by eapply evolves_trans.
  - right. rewrite Hq in Hg. destruct Hg as [?|[? Hns]]; [set_solver|]. right. split; [set_solver|].
    destruct He1 as [->|(? & _ & _)]; done.
Qed.
End safety.
