(* ===== verification/EngineClaims.v ===== *)
(** What the engine promises, on any store that meets the storage contract;
    the witnesses run it on the in-memory store. *)

From S2P Require Import Prelude Errors MessageId Message Broker BrokerProofs Storage StoreTraces.
From S2P Require Import Memory MemoryProofs Float64 Retry RetryProofs.
From S2P Require Import Engine EngineProofs EnginePublish EngineSafety.

Lemma elem_of_publish_batch E pub now draw queues msg :
  msg ∈ publish_batch E pub now draw queues ↔
  ∃ i q, queues !! i = Some q ∧ msg = published pub now q (env_entropy E (draw + i)).
Proof.
  revert draw. induction queues as [|q queues IH]; intros draw; simpl.
  - split; [set_solver|]. intros (i & q & Hq & _). by rewrite lookup_nil in Hq.
  - rewrite elem_of_cons, IH. split.
    + intros [->|(i & q' & Hq & ->)].
      * exists 0, q. by rewrite Nat.add_0_r.
      * exists (Datatypes.S i), q'. by rewrite Nat.add_succ_r.
    + intros ([|i] & q' & Hq & ->); simpl in Hq.
      * left. simplify_eq. by rewrite Nat.add_0_r.
      * right. exists i, q'. by rewrite Nat.add_succ_r.
Qed.

(** * Properties *)

Section claims.
Context {S : Type} `{HS : Unrestricted S} (E : env) (policy : Policy).
Context (schemas : option (string → string → result error unit)).
Context (unrepresentable : float64 → Z).

(** C1: No sequence of engine operations loses a message or moves one
    backwards: through any declarations, publications, pulls,
    acknowledgements, negative acknowledgements, subscriptions, dispatches,
    handler outcomes, lease reclamations, replays, discards and shutdowns, a
    stored message stays in the store with its identity, payload and headers,
    its state moving along the life cycle and unchanged once settled; only
    deleting its queue, or purging it while the message is open, removes it. *)
Theorem engine_never_loses_messages ops e id rec :
  engine_ok e → ops_pre E policy schemas unrepresentable ops e →
  a_messages (eview e) !! id = Some rec →
  (∃ rec', a_messages (eview (run_ops E policy schemas unrepresentable ops e)) !! id = Some rec' ∧
           evolves rec rec') ∨
  OpDeleteQueue (rec_Queue rec) ∈ ops ∨
  (OpPurge (rec_Queue rec) ∈ ops ∧ ¬ settled_state (rec_State rec)).
Proof. apply run_ops_conserves. Qed.

(** C7: Every dead-lettered message is accounted for: in every state the
    engine reaches from one where this holds (a new engine on an empty store,
    for one), by any operations other than discarding dead letters, each
    message in state DEAD_LETTERED has a dead letter that names it and carries
    the reason the message was given. *)
Theorem dead_letters_accounted ops e :
  engine_ok e → ops_pre E policy schemas unrepresentable ops e →
  (∀ id, OpDiscard id ∉ ops) →
  (∀ id rec, a_messages (eview e) !! id = Some rec → rec_State rec = StateDeadLettered →
     backed (eview e) id (msg_LastError (rec_msg rec))) →
  ∀ id rec, a_messages (eview (run_ops E policy schemas unrepresentable ops e)) !! id = Some rec →
    rec_State rec = StateDeadLettered →
    ∃ k d, a_dead (eview (run_ops E policy schemas unrepresentable ops e)) !! k = Some d ∧
      dl_MessageID d = id ∧ dl_Reason d = msg_LastError (rec_msg rec).
Proof.
  intros Hok Hpre Hno Hb id rec Hid Hst.
  exact (run_ops_dead_backed E policy schemas unrepresentable ops e Hok Hpre Hno Hb id rec Hid Hst).
Qed.


(** A publication that a queue's schema rejects stores no message at all,
    not even for the queues before it that accept; the caller gets the
    validation error, nobody is woken, and the payload is parked as one dead
    letter of kind "validation" with no attempts (unless its id is taken). *)
Theorem Publish_rejected pub before q after err e :
  let now := env_clock E (e_ticks e) in
  einv e →
  Registry_Route (pub_Exchange pub) (pub_RoutingKey pub) (e_registry e) = Ok (before ++ q :: after) →
  Forall (fun q => schema_check schemas pub q = Ok tt) before → schema_check schemas pub q = Err err →
  let '(e', r) := Engine_Publish E schemas pub e in
  r = Err err ∧ a_messages (eview e') = a_messages (eview e) ∧ e_signals e' = e_signals e ∧
  ∃ fresh d, (a_dead (eview e') = <[fresh := d]> (a_dead (eview e)) ∨
              is_Some (a_dead (eview e) !! fresh) ∧ a_dead (eview e') = a_dead (eview e)) ∧
    dl_ID d = fresh ∧ dl_Queue d = q_Name q ∧ dl_Payload d = pub_Payload pub ∧
    dl_ErrorKind d = "validation" ∧ dl_Attempts d = 0%Z ∧ dl_Reason d = Error err.
Proof.
  intros now Hinv Hroute Hall Hq.
  pose proof (Publish_rejected_runs E schemas pub before q after err e Hinv Hroute Hall Hq) as Hr.
  unfold runs in Hr. destruct (Engine_Publish E schemas pub e) as [e' r]. simpl in Hr.
  destruct Hr as (_ & -> & _ & Hsig & bytes & fresh & Hv). unfold park_effect in Hv.
  split; [done|]. case_decide; rewrite Hv; (split_and!; [done..|]);
    exists fresh, (parked fresh (created pub now q bytes) err now); split_and!; auto.
Qed.

(** Acknowledging: exactly when the message exists and is leased it
    succeeds, the message becomes ACKNOWLEDGED at the time of the clock with
    its lease cleared, and the history gains that one event; an unknown id and
    a message in any other state are errors that say so and change nothing. *)
Theorem Ack_correct id e :
  let now := env_clock E (e_ticks e) in
  einv e →
  let '(e', r) := Engine_Ack E id e in
  einv e' ∧
  match a_messages (eview e) !! id with
  | None => r = Err (StorageErr ErrNotFound) ∧ eview e' = eview e
  | Some rec =>
      if decide (rec_State rec = StateProcessing)
      then r = Ok tt ∧
           eview e' = with_history
             (mkHistoryEvent id (rec_Queue rec) StateProcessing StateAcknowledged "" "" now)
             (with_messages (insert id (ack_record now rec)) (eview e))
      else r = Err (StateError id StateProcessing (rec_State rec)) ∧ eview e' = eview e
  end.
Proof.
  intros now Hinv. pose proof (Ack_runs E id e Hinv) as Hr. unfold runs in Hr.
  by destruct (Engine_Ack E id e) as [e' r].
Qed.


(** C20: The reclaim pass settles every lease it sees exactly once: of the
    messages whose lease has ended (all of them when there are fewer than 256,
    256 of them otherwise) those with attempts left go back to their queue, to
    be claimed from now on, and the others are dead-lettered with a dead
    letter of kind "lease_expired"; every other message stays as it is, so no
    live lease is touched (the ids of the new dead letters being free). *)
Theorem reclaim_correct e :
  let now := env_clock E (e_ticks e) in
  einv e → fresh_window E e 256 →
  let '(e', r) := reclaim E policy e in
  einv e' ∧ r = Ok tt ∧
  ∃ ids, NoDup ids ∧ length ids ≤ 256 ∧
    (∀ id, id ∈ ids → ∃ rec, a_messages (eview e) !! id = Some rec ∧ expired now rec) ∧
    (length ids < 256 → ∀ id rec, a_messages (eview e) !! id = Some rec → expired now rec → id ∈ ids) ∧
    (∀ id, id ∉ ids → a_messages (eview e') !! id = a_messages (eview e) !! id) ∧
    (∀ id rec, id ∈ ids → a_messages (eview e) !! id = Some rec →
       if (msg_Attempts (rec_msg rec) <? p_MaxAttempts policy)%Z
       then a_messages (eview e') !! id = Some (release_record now rec)
       else a_messages (eview e') !! id =
              Some (dead_record (Error (EngineErr errLeaseExpired)) now rec) ∧
            expiry_recorded (eview e') (rec_msg rec)).
Proof.
  intros now Hinv Hf. pose proof (reclaim_runs E policy e Hinv Hf) as Hr. unfold runs in Hr.
  destruct (reclaim E policy e) as [e' r]. simpl in Hr.
  destruct Hr as (Hi & -> & ids & Hn & Hlen & Hex & Hall & Hm & _ & Hexp).
  split; [done|]. split; [done|]. exists ids. unfold reclaim_map in Hm.
  split_and!; [done..| |]; rewrite Hm.
  - intros id Hid. rewrite map_lookup_imap. destruct (a_messages (eview e) !! id); simpl; [|done].
    by rewrite decide_False.
  - intros id rec Hid Hrec. rewrite map_lookup_imap, Hrec. simpl. rewrite decide_True by done.
    unfold reclaimed, ShouldRetry. case_match eqn:Ha; [done|]. split; [done|]. by apply (Hexp id).
Qed.

(** C31: Replaying a dead letter: an unknown id, a queue that no longer exists
    and a taken message id are errors that change nothing; otherwise one new
    queued message enters the dead letter's queue with its payload, schema and
    headers plus the two headers that name the original message and the dead
    letter, the dead letter stays and records the replay, and every other
    message is as before. *)
Theorem Replay_correct id e :
  let now := env_clock E (e_ticks e) in
  einv e →
  let '(e', r) := Engine_ReplayDeadLetter E id e in
  einv e' ∧
  match a_dead (eview e) !! id with
  | None => r = Err (StorageErr ErrNotFound) ∧ eview e' = eview e
  | Some d =>
      match reg_queues (e_registry e) !! dl_Queue d with
      | None => r = Err (BrokerErr ErrQueueNotFound) ∧ eview e' = eview e
      | Some q =>
          let replay := replay_of d q now (env_entropy E (e_draws e)) in
          if decide (is_Some (a_messages (eview e) !! msg_ID replay))
          then r = Err (StorageErr ErrConflict) ∧ eview e' = eview e
          else r = Ok (mkReplayResult id (dl_MessageID d) (msg_ID replay) (q_Name q)) ∧
               msg_Payload replay = dl_Payload d ∧ msg_State replay = StateQueued ∧
               Header "x-replay-of" replay = Some (dl_MessageID d) ∧
               Header "x-dead-letter-id" replay = Some id ∧
               a_messages (eview e') = <[msg_ID replay := mkRecord replay zeroTime ""]> (a_messages (eview e)) ∧
               a_dead (eview e') = <[id := replayed (msg_ID replay) now d]> (a_dead (eview e))
      end
  end.
Proof.
  intros now Hinv. pose proof (Replay_runs E id e Hinv) as Hr. unfold runs in Hr.
  destruct (Engine_ReplayDeadLetter E id e) as [e' r]. cbn [fst snd] in Hr. destruct Hr as (Hi & _ & Hr).
  split; [done|]. destruct (a_dead (eview e) !! id) as [d|] eqn:Hd; [|done].
  pose proof (aok_dead _ (law_ok _ Hinv) id d Hd) as Hid. unfold Registry_Queue in Hr.
  destruct (reg_queues (e_registry e) !! dl_Queue d) as [q|]; [|done]. cbv zeta in *. fold now in Hr.
  destruct (a_messages (eview e) !! msg_ID (replay_of d q now _)) as [x|] eqn:Hx.
  - rewrite decide_True by eauto. done.
  - rewrite decide_False by (by intros []). destruct Hr as [-> Hv]. rewrite Hv.
    split_and!; [done..| | |done|].
    + unfold replay_of, Header. simpl. by rewrite lookup_insert_ne, lookup_insert_eq.
    + unfold replay_of, Header. simpl. by rewrite lookup_insert_eq, Hid.
    + unfold replay_effect. simpl. by rewrite Hid.
Qed.

(** Pulling: an unknown queue is an error; otherwise between one and 200
    messages are asked for whatever the request says, and the call returns
    claimable messages of that queue, each once, as many as there are up to
    the limit, now leased to the caller; no other message changes. *)
Theorem Pull_correct req e :
  let now := env_clock E (e_ticks e) in
  einv e →
  let '(e', r) := Engine_Pull E req e in
  einv e' ∧
  match reg_queues (e_registry e) !! pl_Queue req with
  | None => r = Err (BrokerErr ErrQueueNotFound) ∧ eview e' = eview e
  | Some q =>
      let creq := pull_claim q req now in
      (1 ≤ cr_Limit creq ≤ 200)%Z ∧
      ∃ ids, claim_picks creq (a_messages (eview e)) ids ∧
        a_messages (eview e') = claim_all creq ids (a_messages (eview e)) ∧
        r = Ok (messages_of (a_messages (eview e')) ids) ∧ a_dead (eview e') = a_dead (eview e)
  end.
Proof.
  intros now Hinv. pose proof (Pull_runs E req e Hinv) as Hr. unfold runs in Hr.
  destruct (Engine_Pull E req e) as [e' r]. simpl in Hr. destruct Hr as (Hi & Hr).
  split; [done|]. unfold Registry_Queue in Hr.
  destruct (reg_queues (e_registry e) !! pl_Queue req) as [q|]; [|done].
  split; [apply pull_limit|]. destruct Hr as (ids & Hp & -> & Hv). exists ids. rewrite Hv.
  edestruct histories_frame as (-> & -> & _). done.
Qed.

(** C32: A dispatcher never sleeps on work: a turn of its loop ends in waiting
    exactly when no message of its queue could be claimed at that moment, and
    then it has changed no message. *)
Theorem dispatch_waits_only_when_idle consumer submit ctx_done ctx_done' e queue :
  let now := env_clock E (e_ticks e) in
  let creq := mkClaimRequest (cs_Queue consumer) (cs_Name consumer) (cs_Prefetch consumer)
                (q_VisibilityTimeout queue) now in
  einv e → (1 ≤ cs_Prefetch consumer)%Z → reg_queues (e_registry e) !! cs_Queue consumer = Some queue →
  let '(e', r) := dispatch_turn E consumer submit ctx_done ctx_done' e in
  einv e' ∧
  (r = Ok TurnWait ↔ ∀ id rec, a_messages (eview e) !! id = Some rec → ¬ claimable_in creq rec) ∧
  (r = Ok TurnWait → a_messages (eview e') = a_messages (eview e)).
Proof.
  intros now creq Hinv Hpre Hq.
  pose proof (steps_claimBatch E (mkPermits (fun _ => False) (fun _ => False) False)
    consumer submit ctx_done e Hpre Hinv) as (Hinv' & _ & _).
  unfold dispatch_turn. rewrite bind_eq. unfold attempting.
  pose proof (claimBatch_runs E consumer submit ctx_done e queue Hinv Hpre Hq) as (ids & Hpick & Hr).
  destruct (claimBatch E consumer submit ctx_done e) as [e' r]. simpl in *.
  destruct ids as [|id ids].
  - destruct Hr as [-> Hm]. simpl. split; [done|]. split; [|done]. split; [|done]. intros _ id rec Hid Hc.
    destruct Hpick as (_ & _ & _ & Hall). assert (id ∈ []) as Hin by (apply (Hall ltac:(simpl; lia) id rec); done).
    set_solver.
  - destruct Hr as (messages & r' & -> & Hlen). simpl in Hlen. split; [done|].
    assert ((if negb (is_ok r') && ctx_done' then TurnReturn
             else if decide (0 < length messages) then TurnContinue else TurnWait) ≠ TurnWait) as Hne.
    { destruct (negb _ && _); [done|]. by rewrite decide_True by lia. }
    split; [split|]; [by intros [= ?]| |by intros [= ?]]. intros Hnone. exfalso.
    destruct Hpick as (_ & Hin & _). destruct (Hin id) as (rec & Hrec & Hc); [set_solver|].
    by apply (Hnone id rec).
Qed.

(** C39: A negative acknowledgement without requeue reports success whatever
    the state of the message.  When the message is already settled (or merely
    queued) and has used up its attempts, the message rightly stays as it is,
    but a dead letter for it is saved all the same. *)
Theorem nack_of_settled_message_leaves_dead_letter id reason e rec :
  einv e → a_messages (eview e) !! id = Some rec → rec_State rec ≠ StateProcessing →
  (p_MaxAttempts policy ≤ msg_Attempts (rec_msg rec))%Z → a_dead (eview e) !! next_id E e = None →
  let '(e', r) := Engine_Nack E policy unrepresentable id reason false e in
  r = Ok tt ∧ a_messages (eview e') = a_messages (eview e) ∧
  ∃ d, a_dead (eview e') = <[dl_ID d := d]> (a_dead (eview e)) ∧ dl_ID d = next_id E e ∧
       dl_MessageID d = id.
Proof.
  intros Hinv Hid Hst Hatt Hnone.
  pose proof (Nack_fail_runs E policy unrepresentable id reason e Hinv) as Hr. unfold runs in Hr.
  destruct (Engine_Nack E policy unrepresentable id reason false e) as [e' r]. simpl in Hr.
  destruct Hr as (_ & Hr). rewrite Hid in Hr. destruct Hr as [-> Hv].
  pose proof (aok_messages _ (law_ok _ Hinv) id rec Hid) as (Hmid & _ & _).
  unfold fail_effect, ShouldRetry in Hv. simpl in Hv. rewrite (proj2 (Z.ltb_ge _ _)) in Hv by done.
  unfold dead_effect in Hv. simpl in Hv.
  rewrite decide_False, Hmid, Hid, decide_False in Hv by (done || (rewrite Hnone; by intros [])).
  rewrite Hv. split_and!; [done..|]. eexists (dead_letter_of _ _ _ _ _). split; [done|].
  split; [done|]. exact Hmid.
Qed.
End claims.

(** * Witnesses *)

Module Samples.
Definition E : env := mkEnv (fun n => 1000000000 + Z.of_nat n)%Z (fun n => 1000000000 + Z.of_nat n)%Z
  (fun n => [N.of_nat n; 1; 2; 3; 4; 5; 6; 7; 8; 9])%N (fun _ => f_half).
Definition overflow (_ : float64) : Z := 0%Z.
(** A validator that rejects everything but the empty object. *)
Definition strict : option (string → string → result error unit) :=
  Some (fun schema payload =>
    if decide (payload = "{}") then Ok tt else Err (ValidationError schema [mkViolation "" "not empty"])).
Definition new : Engine Store := mkEngine mem_New NewRegistry ∅ ∅ false [] 0 0 0 0.
Definition pub (payload : string) : Publication :=
  mkPublication "erp.events" "invoice.issued" payload ∅ "".
Definition audit : Queue := mkQueue (mkQueueSpec "audit" true 3 second "") 1.
Definition invoices : Queue := mkQueue (mkQueueSpec "invoices" true 3 second "invoice") 1.
Definition topology : list eop :=
  [OpDeclareExchange (mkExchangeSpec "erp.events" ExchangeTopic true) 1;
   OpDeclareQueue (q_Spec audit) 1;
   OpDeclareQueue (q_Spec invoices) 1;
   OpBind (mkBindingSpec "erp.events" "invoices" "invoice.#") 1;
   OpBind (mkBindingSpec "erp.events" "audit" "#") 1].
Definition traffic : list eop := [OpPublish (pub "{}"); OpPull (mkPullRequest "invoices" "w" 1 1)].

Abbreviation run ops := (run_ops E Default strict overflow ops new).
Abbreviation pre ops := (ops_pre E Default strict overflow ops new).

Definition ready : Engine Store := run topology.
Definition busy : Engine Store := run (topology ++ traffic).
(** The leased message and its id. *)
Definition leased_id : string :=
  hd "" (fst <$> map_to_list (in_states "invoices" [StateProcessing] (a_messages (eview busy)))).

Lemma new_ok : engine_ok new.
Proof. split; [exact mem_New_inv|]. intros name spec. simpl. by rewrite lookup_empty. Qed.
Lemma topology_pre : pre topology.
Proof. do 5 (split; [exact I|]). exact I. Qed.
Lemma ready_ok : engine_ok ready.
Proof. apply run_ops_ok; [exact new_ok|exact topology_pre]. Qed.
Lemma busy_pre : pre (topology ++ traffic).
Proof.
  do 5 (split; [exact I|]). split; [|split; exact I].
  apply (bool_decide_eq_true_1 (distinct_ids _ _ _)). vm_compute. reflexivity.
Qed.
Lemma busy_ok : engine_ok busy.
Proof. apply run_ops_ok; [exact new_ok|exact busy_pre]. Qed.
Definition leased_record : record :=
  default (mkRecord (New (pub "") "" 0%Z []) zeroTime "") (a_messages (eview busy) !! leased_id).
Definition delivery : Delivery :=
  mkDelivery (rec_msg leased_record) (msg_Attempts (rec_msg leased_record)) "invoices".
Lemma leased_stored : a_messages (eview busy) !! leased_id = Some leased_record.
Proof. vm_compute. reflexivity. Qed.

Lemma registry_ready : registry_ok (e_registry ready).
Proof.
  apply registry_reachable_ok.
  eapply rtc_l; [eapply (step_declare_exchange (mkExchangeSpec "erp.events" ExchangeTopic true) 1); vm_compute; reflexivity|].
  eapply rtc_l; [eapply (step_declare_queue (q_Spec audit) 1); vm_compute; reflexivity|].
  eapply rtc_l; [eapply (step_declare_queue (q_Spec invoices) 1); vm_compute; reflexivity|].
  eapply rtc_l; [eapply (step_bind (mkBindingSpec "erp.events" "invoices" "invoice.#") 1); vm_compute; reflexivity|].
  eapply rtc_l; [eapply (step_bind (mkBindingSpec "erp.events" "audit" "#") 1); vm_compute; reflexivity|].
  apply rtc_refl.
Qed.

(** After a rejected publication; after the acknowledgement. *)
Definition parked : Engine Store := run (topology ++ [OpPublish (pub "x")]).
Definition parked_id : string := hd "" (fst <$> map_to_list (a_dead (eview parked))).
Definition acked : Engine Store := run (topology ++ traffic ++ [OpAck leased_id]).
Definition acknowledged : record := default leased_record (a_messages (eview acked) !! leased_id).
(** The default policy with a single attempt. *)
Definition once : Policy :=
  mkPolicy 1 (p_InitialInterval Default) (p_MaxInterval Default) (p_Multiplier Default)
    (p_JitterFraction Default).

Definition parked_letter : DeadLetter :=
  default (mkDeadLetter "" "" "" "" "" "" "" ∅ "" "" 0 0 0 0 "" 0 0) (a_dead (eview parked) !! parked_id).

Lemma acknowledged_stored : a_messages (eview acked) !! leased_id = Some acknowledged.
Proof. vm_compute. reflexivity. Qed.
Lemma acknowledged_state : rec_State acknowledged = StateAcknowledged.
Proof. vm_compute. reflexivity. Qed.
Lemma parked_stored : a_dead (eview parked) !! parked_id = Some parked_letter.
Proof. vm_compute. reflexivity. Qed.
Definition worker : ConsumerSpec := mkConsumerSpec "w2" "invoices" 1 4 second true.
Lemma nothing_claimable :
  map_Forall (fun _ rec => ¬ claimable_in (mkClaimRequest (cs_Queue worker) (cs_Name worker) (cs_Prefetch worker)
      (q_VisibilityTimeout invoices) (env_clock E (e_ticks busy))) rec) (a_messages (eview busy)).
Proof. unfold claimable_in. apply (bool_decide_eq_true_1 _). vm_compute. reflexivity. Qed.
Lemma parked_inv : einv parked.
Proof.
  apply run_ops_ok; [exact new_ok|]. do 5 (split; [exact I|]). split; [|exact I].
  apply (bool_decide_eq_true_1 (distinct_ids _ _ _)). vm_compute. reflexivity.
Qed.
Lemma acked_inv : einv acked.
Proof.
  apply run_ops_ok; [exact new_ok|]. do 5 (split; [exact I|]). split; [|do 2 (split; [exact I|]); exact I].
  apply (bool_decide_eq_true_1 (distinct_ids _ _ _)). vm_compute. reflexivity.
Qed.
End Samples.

Lemma engine_never_loses_messages_witness :
  let ops := [OpReclaim; OpAck Samples.leased_id; OpPurge "invoices"] in
  engine_ok Samples.busy ∧
  a_messages (eview Samples.busy) !! Samples.leased_id = Some Samples.leased_record ∧
  ((∃ rec', a_messages (eview (run_ops Samples.E Default Samples.strict Samples.overflow ops Samples.busy))
              !! Samples.leased_id = Some rec' ∧ evolves Samples.leased_record rec') ∨
   OpDeleteQueue (rec_Queue Samples.leased_record) ∈ ops ∨
   (OpPurge (rec_Queue Samples.leased_record) ∈ ops ∧ ¬ settled_state (rec_State Samples.leased_record))).
Proof.
  intros ops. split; [exact Samples.busy_ok|]. split; [exact Samples.leased_stored|].
  apply (engine_never_loses_messages Samples.E Default Samples.strict Samples.overflow ops Samples.busy).
  - exact Samples.busy_ok.
  - do 3 (split; [exact I|]). exact I.
  - exact Samples.leased_stored.
Defined.

(** The leased message fails permanently: it is dead-lettered and accounted for. *)
Lemma dead_letters_accounted_witness :
  let ops := [OpProcess (mkConsumerSpec "w" "invoices" 1 1 1 true) Samples.delivery
                (Some (Permanent (errorString "boom")))] in
  let e' := run_ops Samples.E Default Samples.strict Samples.overflow ops Samples.busy in
  ∃ k d, a_dead (eview e') !! k = Some d ∧ dl_MessageID d = Samples.leased_id ∧ dl_Reason d = "permanent failure: boom".
Proof.
  intros ops e'.
  assert (∃ rec, a_messages (eview e') !! Samples.leased_id = Some rec ∧
            rec_State rec = StateDeadLettered ∧ msg_LastError (rec_msg rec) = "permanent failure: boom")
    as (rec & Hrec & Hst & Herr).
  { eexists. split; [vm_compute; reflexivity|]. split; reflexivity. }
  destruct (dead_letters_accounted Samples.E Default Samples.strict Samples.overflow ops Samples.busy)
    with (id := Samples.leased_id) (rec := rec) as (k & d & Hd & Hid & Hr).
  - exact Samples.busy_ok.
  - split; exact I.
  - intros id Hin. apply list_elem_of_singleton in Hin. discriminate Hin.
  - intros id r Hid Hs. exfalso.
    assert (map_Forall (fun _ r => rec_State r ≠ StateDeadLettered) (a_messages (eview Samples.busy))) as Hall
      by (apply (bool_decide_eq_true_1 _); vm_compute; reflexivity).
    exact (Hall id r Hid Hs).
  - exact Hrec.
  - exact Hst.
  - exists k, d. split; [exact Hd|]. split; [exact Hid|]. exact (eq_trans Hr Herr).
Defined.



(** "x" is rejected by the schema of the second queue. *)
Lemma Publish_rejected_witness :
  let '(e', r) := Engine_Publish Samples.E Samples.strict (Samples.pub "x") Samples.ready in
  r = Err (ValidationError "invoice" [mkViolation "" "not empty"]) ∧
  a_messages (eview e') = a_messages (eview Samples.ready).
Proof.
  pose proof (Publish_rejected Samples.E Samples.strict (Samples.pub "x") [Samples.audit] Samples.invoices []
    (ValidationError "invoice" [mkViolation "" "not empty"]) Samples.ready) as Hp.
  destruct (Engine_Publish Samples.E Samples.strict (Samples.pub "x") Samples.ready) as [e' r].
  destruct Hp as (Hr & Hm & _).
  - exact (proj1 Samples.ready_ok).
  - vm_compute. reflexivity.
  - apply (bool_decide_eq_true_1 _). vm_compute. reflexivity.
  - vm_compute. reflexivity.
  - split; [exact Hr|exact Hm].
Defined.

(** The leased message is acknowledged once; the second time is an error. *)
Lemma Ack_correct_witness :
  (Engine_Ack Samples.E Samples.leased_id Samples.busy).2 = Ok tt ∧
  (Engine_Ack Samples.E Samples.leased_id Samples.acked).2 =
    Err (StateError Samples.leased_id StateProcessing StateAcknowledged).
Proof.
  split.
  - pose proof (Ack_correct Samples.E Samples.leased_id Samples.busy (proj1 Samples.busy_ok)) as Ha.
    destruct (Engine_Ack Samples.E Samples.leased_id Samples.busy) as [e' r].
    rewrite Samples.leased_stored, decide_True in Ha by (vm_compute; reflexivity).
    exact (proj1 (proj2 Ha)).
  - pose proof (Ack_correct Samples.E Samples.leased_id Samples.acked Samples.acked_inv) as Ha.
    destruct (Engine_Ack Samples.E Samples.leased_id Samples.acked) as [e' r].
    rewrite Samples.acknowledged_stored, decide_False in Ha by (vm_compute; discriminate).
    rewrite Samples.acknowledged_state in Ha. exact (proj1 (proj2 Ha)).
Defined.


(** The lease of the pulled message has ended; the pass requeues it. *)
Lemma reclaim_correct_witness :
  let '(e', r) := reclaim Samples.E Default Samples.busy in
  r = Ok tt ∧ a_messages (eview e') !! Samples.leased_id = Some (release_record 1000000002 Samples.leased_record).
Proof.
  pose proof (reclaim_correct Samples.E Default Samples.busy) as Hc.
  assert (a_messages (eview (reclaim Samples.E Default Samples.busy).1) !! Samples.leased_id ≠ Some Samples.leased_record)
    as Hmoved by (vm_compute; discriminate).
  destruct (reclaim Samples.E Default Samples.busy) as [e' r].
  destruct Hc as (_ & Hr & ids & _ & _ & _ & _ & Hout & Hin).
  - exact (proj1 Samples.busy_ok).
  - split; [apply (bool_decide_eq_true_1 _); vm_compute; reflexivity|]. intros id _. vm_compute. reflexivity.
  - split; [exact Hr|]. destruct (decide (Samples.leased_id ∈ ids)) as [Hid|Hid].
    + specialize (Hin _ _ Hid Samples.leased_stored).
      assert ((msg_Attempts (rec_msg Samples.leased_record) <? p_MaxAttempts Default)%Z = true) as Hretry
        by (vm_compute; reflexivity).
      assert (env_clock Samples.E (e_ticks Samples.busy) = 1000000002%Z) as Hnow by (vm_compute; reflexivity).
      rewrite Hretry, Hnow in Hin. exact Hin.
    + specialize (Hout _ Hid). rewrite Samples.leased_stored in Hout. contradiction.
Defined.

Lemma Replay_correct_witness :
  (Engine_ReplayDeadLetter Samples.E Samples.parked_id Samples.parked).2 =
    Ok (mkReplayResult Samples.parked_id "0000000003e801010203040506070809"
          "0000000003e803010203040506070809" "invoices").
Proof.
  pose proof (Replay_correct Samples.E Samples.parked_id Samples.parked Samples.parked_inv) as Hp.
  destruct (Engine_ReplayDeadLetter Samples.E Samples.parked_id Samples.parked) as [e' r].
  assert (reg_queues (e_registry Samples.parked) !! dl_Queue Samples.parked_letter = Some Samples.invoices)
    as Hq by (vm_compute; reflexivity).
  rewrite Samples.parked_stored, Hq in Hp. cbv zeta in Hp. rewrite decide_False in Hp
    by (vm_compute; intros [x Hx]; discriminate Hx).
  destruct Hp as (_ & -> & _). vm_compute. reflexivity.
Defined.

(** A pull that asks for nothing in particular claims the message waiting in
    the other queue; a pull on an unknown queue is refused. *)
Lemma Pull_correct_witness :
  (∃ ids e', Engine_Pull Samples.E (mkPullRequest "audit" "" 0 0) Samples.busy =
               (e', Ok (messages_of (a_messages (eview e')) ids)) ∧
             claim_picks (pull_claim Samples.audit (mkPullRequest "audit" "" 0 0) 1000000002)
               (a_messages (eview Samples.busy)) ids) ∧
  (Engine_Pull Samples.E (mkPullRequest "missing" "w" 5 0) Samples.busy).2 = Err (BrokerErr ErrQueueNotFound).
Proof.
  split.
  - pose proof (Pull_correct Samples.E (mkPullRequest "audit" "" 0 0) Samples.busy (proj1 Samples.busy_ok)) as Hp.
    destruct (Engine_Pull Samples.E (mkPullRequest "audit" "" 0 0) Samples.busy) as [e' r].
    assert (reg_queues (e_registry Samples.busy) !! "audit" = Some Samples.audit) as Hq
      by (vm_compute; reflexivity).
    cbn [pl_Queue] in Hp. rewrite Hq in Hp. destruct Hp as (_ & _ & ids & Hpick & Hm & -> & _).
    assert (env_clock Samples.E (e_ticks Samples.busy) = 1000000002%Z) as Hnow by (vm_compute; reflexivity).
    rewrite Hnow in Hpick. exists ids, e'. split; [reflexivity|exact Hpick].
  - pose proof (Pull_correct Samples.E (mkPullRequest "missing" "w" 5 0) Samples.busy (proj1 Samples.busy_ok)) as Hp.
    destruct (Engine_Pull Samples.E (mkPullRequest "missing" "w" 5 0) Samples.busy) as [e' r].
    assert (reg_queues (e_registry Samples.busy) !! "missing" = None) as Hq by (vm_compute; reflexivity).
    cbn [pl_Queue] in Hp. rewrite Hq in Hp. exact (proj1 (proj2 Hp)).
Defined.

(** With a single attempt allowed, a negative acknowledgement of the
    acknowledged message. *)
Lemma nack_of_settled_message_leaves_dead_letter_witness :
  let '(e', r) := Engine_Nack Samples.E Samples.once Samples.overflow Samples.leased_id "" false Samples.acked in
  r = Ok tt ∧ a_messages (eview e') = a_messages (eview Samples.acked).
Proof.
  pose proof (nack_of_settled_message_leaves_dead_letter Samples.E Samples.once Samples.overflow
    Samples.leased_id "" Samples.acked Samples.acknowledged) as Hn.
  destruct (Engine_Nack Samples.E Samples.once Samples.overflow Samples.leased_id "" false Samples.acked)
    as [e' r].
  destruct Hn as (Hr & Hm & _).
  - exact Samples.acked_inv.
  - exact Samples.acknowledged_stored.
  - rewrite Samples.acknowledged_state. discriminate.
  - vm_compute. discriminate.
  - vm_compute. reflexivity.
  - split; [exact Hr|exact Hm].
Defined.

(** The only message of the queue is leased: its dispatcher waits. *)
Lemma dispatch_waits_only_when_idle_witness :
  (dispatch_turn Samples.E Samples.worker (fun _ => None) false false Samples.busy).2 = Ok TurnWait.
Proof.
  pose proof (dispatch_waits_only_when_idle Samples.E Samples.worker (fun _ => None) false false Samples.busy
    Samples.invoices) as Hd.
  destruct (dispatch_turn Samples.E Samples.worker (fun _ => None) false false Samples.busy) as [e' r].
  destruct Hd as (_ & Hw & _).
  - exact (proj1 Samples.busy_ok).
  - vm_compute. discriminate.
  - vm_compute. reflexivity.
  - apply Hw. exact Samples.nothing_claimable.
Defined.
