(* ===== verification/Metrics.v ===== *)
(** The metrics: [internal/metrics] (registry.go, collector.go).

    A registry keeps its counters, gauges and histograms under the key of their
    series; a pointer to one of them is that key.  Counters and gauges are
    64-bit integers that wrap, bucket counts are [uint64], sums are [float64].
    A nil label map reads as the empty one.

    [%q] is [quote], which is exact for labels of ASCII text (validated queue
    names and the kinds of the engine); [%g] and [FormatFloat] are an argument
    of [Write].  The collector turns a call of the engine's [Metrics] interface
    into updates: [collected] is the registry after a sequence of calls. *)

From S2P Require Import Prelude Errors TimeText Float64 DurationText Engine.

Local Open Scope Z_scope.

Module metrics.
Abbreviation Labels := (gmap string string).

Record Counter := mkCounter {
  ct_name : string;
  ct_labels : Labels;
  ct_value : Z;
}.

Record Gauge := mkGauge {
  ga_name : string;
  ga_labels : Labels;
  ga_value : Z;
}.

Record Histogram := mkHistogram {
  hi_name : string;
  hi_labels : Labels;
  hi_bounds : list float64;
  hi_buckets : list Z;
  hi_count : Z;
  hi_sum : float64;
}.

Record Registry := mkRegistry {
  rg_counters : gmap string Counter;
  rg_gauges : gmap string Gauge;
  rg_histograms : gmap string Histogram;
  rg_help : gmap string string;
}.

(** A decimal literal: the [float64] nearest to [n / d]. *)
Definition decimal (n d : Z) : float64 := fdiv (of_int n) (of_int d).

Definition DefaultBuckets : list float64 := [
  decimal 5 10000; decimal 1 1000; decimal 25 10000; decimal 5 1000; decimal 1 100; decimal 25 1000;
  decimal 5 100; decimal 1 10; decimal 25 100; decimal 5 10; decimal 1 1; decimal 25 10; decimal 5 1;
  decimal 10 1].

Definition NewRegistry : Registry := mkRegistry ∅ ∅ ∅ ∅.

(** * Series *)

(** [fmt.Sprintf("%s=%q", name, labels[name])] *)
Definition label_pair (labels : Labels) (name : string) : string :=
  name +:+ "=" +:+ quote (default "" (labels !! name)).

Definition renderLabels (labels : Labels) : string :=
  if decide (labels = ∅) then ""
  else str_join "," (label_pair labels <$> sort_strings (fst <$> map_to_list labels)).

Definition seriesKey (name : string) (labels : Labels) : string := name +:+ "{" +:+ renderLabels labels +:+ "}".

Definition renderSeries (name : string) (labels : Labels) : string :=
  let rendered := renderLabels labels in
  if str_empty rendered then name else name +:+ "{" +:+ rendered +:+ "}".

(** * Registering: the pointer and the registry *)

Definition put_help (name help : string) (r : Registry) : Registry :=
  mkRegistry (rg_counters r) (rg_gauges r) (rg_histograms r) (<[name := help]> (rg_help r)).
Definition put_counters (f : gmap string Counter → gmap string Counter) (r : Registry) : Registry :=
  mkRegistry (f (rg_counters r)) (rg_gauges r) (rg_histograms r) (rg_help r).
Definition put_gauges (f : gmap string Gauge → gmap string Gauge) (r : Registry) : Registry :=
  mkRegistry (rg_counters r) (f (rg_gauges r)) (rg_histograms r) (rg_help r).
Definition put_histograms (f : gmap string Histogram → gmap string Histogram) (r : Registry) : Registry :=
  mkRegistry (rg_counters r) (rg_gauges r) (f (rg_histograms r)) (rg_help r).

(** [if existing, ok := m[key]; ok { return existing }; m[key] = fresh] *)
Definition find_or_add {A} (key : string) (fresh : A) (m : gmap string A) : gmap string A :=
  match m !! key with Some _ => m | None => <[key := fresh]> m end.

Definition Registry_Counter (name help : string) (labels : Labels) (r : Registry) : string * Registry :=
  let key := seriesKey name labels in
  (key, put_counters (find_or_add key (mkCounter name labels 0)) (put_help name help r)).

Definition Registry_Gauge (name help : string) (labels : Labels) (r : Registry) : string * Registry :=
  let key := seriesKey name labels in
  (key, put_gauges (find_or_add key (mkGauge name labels 0)) (put_help name help r)).

Definition new_histogram (name : string) (bounds : list float64) (labels : Labels) : Histogram :=
  let bounds := match bounds with [] => DefaultBuckets | _ => bounds end in
  mkHistogram name labels bounds (replicate (length bounds) 0) 0 (Fin 0 0).

Definition Registry_Histogram (name help : string) (bounds : list float64) (labels : Labels) (r : Registry) :
    string * Registry :=
  let key := seriesKey name labels in
  (key, put_histograms (find_or_add key (new_histogram name bounds labels)) (put_help name help r)).

(** * Updating through a pointer *)

Definition Counter_Add (delta : Z) (key : string) (r : Registry) : Registry :=
  put_counters (alter (fun c => mkCounter (ct_name c) (ct_labels c) (wrap64 (ct_value c + delta))) key) r.
Definition Counter_Inc : string → Registry → Registry := Counter_Add 1.

Definition Gauge_Set (value : Z) (key : string) (r : Registry) : Registry :=
  put_gauges (alter (fun g => mkGauge (ga_name g) (ga_labels g) value) key) r.
Definition Gauge_Add (delta : Z) (key : string) (r : Registry) : Registry :=
  put_gauges (alter (fun g => mkGauge (ga_name g) (ga_labels g) (wrap64 (ga_value g + delta))) key) r.

Definition Observe (value : float64) (h : Histogram) : Histogram :=
  mkHistogram (hi_name h) (hi_labels h) (hi_bounds h)
    (zip_with (fun bound n => if fle value bound then wrapU64 (n + 1) else n) (hi_bounds h) (hi_buckets h))
    (wrapU64 (hi_count h + 1)) (fadd (hi_sum h) value).

(** [Duration.Seconds] *)
Definition Seconds (d : Duration) : float64 :=
  fadd (of_int (Z.quot d second)) (fdiv (of_int (Z.rem d second)) (of_int second)).

Definition ObserveDuration (elapsed : Duration) (key : string) (r : Registry) : Registry :=
  put_histograms (alter (Observe (Seconds elapsed)) key) r.

Definition Count (h : Histogram) : Z := hi_count h.

(** The loop of [Quantile]. *)
Fixpoint quantile_loop (target : float64) (bounds : list float64) (buckets : list Z) : float64 :=
  match bounds, buckets with
  | bound :: bounds', n :: buckets' =>
      if fle target (of_int n) then bound else quantile_loop target bounds' buckets'
  | _, _ => Inf false
  end.

Definition Quantile (quantile : float64) (h : Histogram) : float64 :=
  if hi_count h =? 0 then Fin 0 0
  else quantile_loop (fmul quantile (of_int (hi_count h))) (hi_bounds h) (hi_buckets h).

(** * The text *)

Definition newline : string := String (ascii_of_N 10) "".
Definition print_d (n : Z) : string := appendInt n 1.

Definition hasSeries {A} (series : gmap string A) (name : string) : bool :=
  existsb (fun key => str_has_prefix (name +:+ "{") key) (fst <$> map_to_list series).

Definition sortedKeys {A} (series : gmap string A) (name : string) : list string :=
  sort_strings (filter (fun key => str_has_prefix (name +:+ "{") key = true) (fst <$> map_to_list series)).

Definition names (r : Registry) : list string := sort_strings (fst <$> map_to_list (rg_help r)).

Definition writeHeader (name help kind : string) : string :=
  (if str_empty help then "" else "# HELP " +:+ name +:+ " " +:+ help +:+ newline) +:+
  "# TYPE " +:+ name +:+ " " +:+ kind +:+ newline.

(** A line of the text: a series and its value. *)
Definition sample (series value : string) : string := series +:+ " " +:+ value +:+ newline.

Section write.
Context (print_g : float64 → string).

Definition bucket_sample (h : Histogram) (bound : float64) (n : Z) : string :=
  sample (renderSeries (hi_name h +:+ "_bucket") (<["le" := print_g bound]> (hi_labels h))) (print_d n).

Definition writeHistogram (h : Histogram) : list string :=
  zip_with (bucket_sample h) (hi_bounds h) (hi_buckets h) ++ [
  sample (renderSeries (hi_name h +:+ "_bucket") (<["le" := "+Inf"]> (hi_labels h))) (print_d (hi_count h));
  sample (renderSeries (hi_name h +:+ "_sum") (hi_labels h)) (print_g (hi_sum h));
  sample (renderSeries (hi_name h +:+ "_count") (hi_labels h)) (print_d (hi_count h))].

Definition counter_sample (c : Counter) : string :=
  sample (renderSeries (ct_name c) (ct_labels c)) (print_d (ct_value c)).
Definition gauge_sample (g : Gauge) : string :=
  sample (renderSeries (ga_name g) (ga_labels g)) (print_d (ga_value g)).

(** The samples under one name, and what is written in front of them. *)
Definition section (r : Registry) (name : string) : string * list string :=
  let help := default "" (rg_help r !! name) in
  if hasSeries (rg_counters r) name then
    (writeHeader name help "counter",
     omap (fun key => counter_sample <$> rg_counters r !! key) (sortedKeys (rg_counters r) name))
  else if hasSeries (rg_gauges r) name then
    (writeHeader name help "gauge",
     omap (fun key => gauge_sample <$> rg_gauges r !! key) (sortedKeys (rg_gauges r) name))
  else if hasSeries (rg_histograms r) name then
    (writeHeader name help "histogram",
     mjoin (omap (fun key => writeHistogram <$> rg_histograms r !! key) (sortedKeys (rg_histograms r) name)))
  else ("", []).

Definition str_concat (l : list string) : string := foldr String.append "" l.

Definition Write (r : Registry) : string :=
  str_concat ((fun name => let '(header, samples) := section r name in
                 header +:+ str_concat samples +:+ newline) <$> names r).
End write.

(** * collector.go *)

Definition metricPublished : string := "rabbitmq_lite_messages_published_total".
Definition metricDelivered : string := "rabbitmq_lite_messages_delivered_total".
Definition metricAcknowledged : string := "rabbitmq_lite_messages_acknowledged_total".
Definition metricRetried : string := "rabbitmq_lite_messages_retried_total".
Definition metricDeadLettered : string := "rabbitmq_lite_messages_dead_lettered_total".
Definition metricRejected : string := "rabbitmq_lite_messages_rejected_total".
Definition metricPublishTime : string := "rabbitmq_lite_publish_duration_seconds".
Definition metricHandleTime : string := "rabbitmq_lite_handler_duration_seconds".
Definition metricQueueDepth : string := "rabbitmq_lite_queue_depth".
Definition metricInFlight : string := "rabbitmq_lite_queue_in_flight".
Definition metricScheduled : string := "rabbitmq_lite_queue_scheduled".

Definition of_queue (queue : string) : Labels := {["queue" := queue]}.

(** [c.registry.Counter(...).Inc()] and the like. *)
Definition inc (name help : string) (labels : Labels) (r : Registry) : Registry :=
  let '(key, r) := Registry_Counter name help labels r in Counter_Inc key r.
Definition set (name help : string) (labels : Labels) (value : Z) (r : Registry) : Registry :=
  let '(key, r) := Registry_Gauge name help labels r in Gauge_Set value key r.
Definition observe (name help : string) (labels : Labels) (elapsed : Duration) (r : Registry) : Registry :=
  let '(key, r) := Registry_Histogram name help DefaultBuckets labels r in ObserveDuration elapsed key r.

(** A method of [Collector]. *)
Definition collect (r : Registry) (m : metric) : Registry :=
  match m with
  | MessagePublished queue latency =>
      let r := inc metricPublished "Messages accepted by the broker and written to a queue." (of_queue queue) r in
      observe metricPublishTime "Time spent routing, validating and persisting a publication." ∅ latency r
  | MessageDelivered queue => inc metricDelivered "Deliveries handed to a consumer." (of_queue queue) r
  | MessageAcknowledged queue latency =>
      let r := inc metricAcknowledged "Deliveries acknowledged by a consumer." (of_queue queue) r in
      observe metricHandleTime "Time a consumer spent handling a delivery." (of_queue queue) latency r
  | MessageRetried queue =>
      inc metricRetried "Deliveries that failed and were scheduled for another attempt." (of_queue queue) r
  | MessageDeadLettered queue kind =>
      inc metricDeadLettered "Messages moved to the dead letter store." (<["kind" := kind]> (of_queue queue)) r
  | MessageRejected queue => inc metricRejected "Publications rejected before entering a queue." (of_queue queue) r
  | QueueDepth queue ready inFlight scheduled =>
      let r := set metricQueueDepth "Messages ready for delivery." (of_queue queue) ready r in
      let r := set metricInFlight "Messages currently leased by a consumer." (of_queue queue) inFlight r in
      set metricScheduled "Messages waiting for a retry backoff to elapse." (of_queue queue) scheduled r
  end.

Definition collected (calls : list metric) : Registry := foldl collect NewRegistry calls.
End metrics.
