(* ===== verification/MetricsProofs.v ===== *)
(** The metrics count what the engine did ([Metrics.v]): keys of series do not
    collide, every counter is the number of its events, histograms count their
    observations, and the text shows every series once. *)

From S2P Require Import Prelude Errors TimeText TimeProofs Float64 DurationText Engine Metrics.

Local Open Scope Z_scope.
Import metrics.

(** * Quoting *)

Definition all_bytes : list ascii := ascii_of_nat <$> seq 0 256.

Lemma elem_of_all_bytes c : c ∈ all_bytes.
Proof.
  apply list_elem_of_fmap. exists (nat_of_ascii c). split; [by rewrite ascii_nat_embedding|].
  apply elem_of_seq. pose proof (nat_ascii_bounded c). lia.
Qed.

(** The texts of two different bytes are not prefixes of each other, and none
    begins with the quote. *)
Definition codes : list (ascii * string) := (fun c => (c, quote_byte c)) <$> all_bytes.
Definition codes_apart (codes : list (ascii * string)) : bool :=
  forallb (fun '(c, qc) =>
    forallb (fun '(d, qd) => negb (str_has_prefix qc qd) || Ascii.eqb c d) codes &&
    match qc with String x _ => negb (Ascii.eqb x (ascii_of_N 34)) | EmptyString => false end) codes.

Lemma codes_apart_true : codes_apart codes = true.
Proof. vm_compute. reflexivity. Qed.

Lemma forallb_elem {A} (f : A → bool) l x : forallb f l = true → x ∈ l → f x = true.
Proof. rewrite forallb_forall. intros H Hx. apply H. by apply list_elem_of_In. Qed.

Lemma elem_of_codes c : (c, quote_byte c) ∈ codes.
Proof. apply list_elem_of_fmap. exists c. split; [done|]. apply elem_of_all_bytes. Qed.

Lemma codes_apart_at c :
  forallb (fun '(d, qd) => negb (str_has_prefix (quote_byte c) qd) || Ascii.eqb c d) codes = true ∧
  match quote_byte c with String x _ => x ≠ ascii_of_N 34 | EmptyString => False end.
Proof.
  destruct (andb_prop _ _ (forallb_elem _ _ _ codes_apart_true (elem_of_codes c))) as [H1 H2].
  split; [exact H1|]. destruct (quote_byte c) as [|x rest]; [done|]. by apply negb_true_iff, Ascii.eqb_neq in H2.
Qed.

Lemma quote_byte_apart c d : str_has_prefix (quote_byte c) (quote_byte d) = true → c = d.
Proof.
  intros Hp. pose proof (forallb_elem _ _ _ (proj1 (codes_apart_at c)) (elem_of_codes d)) as H.
  cbv beta iota in H. rewrite Hp in H. by apply Ascii.eqb_eq.
Qed.

Lemma quote_byte_head c : ∃ x rest, quote_byte c = String x rest ∧ x ≠ ascii_of_N 34.
Proof. destruct (codes_apart_at c) as [_ H]. destruct (quote_byte c) as [|x rest]; [done|]. eauto. Qed.

Lemma append_prefix s t u v : s +:+ u = t +:+ v → str_has_prefix s t = true ∨ str_has_prefix t s = true.
Proof.
  revert t. induction s as [|c s IH]; intros [|d t] E; simpl in *; auto. injection E as -> E.
  rewrite !bool_decide_eq_true_2 by done. simpl. eauto.
Qed.

Lemma append_inj s u v : s +:+ u = s +:+ v → u = v.
Proof. induction s as [|c s IH]; [done|]. intros [= E]. auto. Qed.

(** A quoted text and what follows it can be told apart. *)
Lemma quote_split a b x y : quote a +:+ x = quote b +:+ y → a = b ∧ x = y.
Proof.
  unfold quote. rewrite !str_app_assoc. intros E%append_inj. revert b E.
  induction a as [|c a IH]; intros [|d b] E; simpl in E.
  - injection E as E. done.
  - exfalso. destruct (quote_byte_head d) as (z & rest & Hd & Hz). rewrite Hd in E. simpl in E. injection E as E _. by rewrite <-E in Hz.
  - exfalso. destruct (quote_byte_head c) as (z & rest & Hd & Hz). rewrite Hd in E. simpl in E. injection E as E _. by rewrite E in Hz.
  - rewrite !str_app_assoc in E. assert (c = d) as ->.
    { destruct (append_prefix _ _ _ _ E) as [H|H]; apply quote_byte_apart in H; done. }
    apply append_inj in E. destruct (IH b E) as [-> ->]. done.
Qed.

(** * The series of the collector *)

Inductive series :=
| Published (queue : string)
| Delivered (queue : string)
| Acknowledged (queue : string)
| Retried (queue : string)
| DeadLettered (queue kind : string)
| Rejected (queue : string).

#[export] Instance series_eq_dec : EqDecision series.
Proof. solve_decision. Defined.

Definition series_name (s : series) : string :=
  match s with
  | Published _ => metricPublished
  | Delivered _ => metricDelivered
  | Acknowledged _ => metricAcknowledged
  | Retried _ => metricRetried
  | DeadLettered _ _ => metricDeadLettered
  | Rejected _ => metricRejected
  end.

Definition series_labels (s : series) : Labels :=
  match s with
  | DeadLettered q kind => <["kind" := kind]> (of_queue q)
  | Published q | Delivered q | Acknowledged q | Retried q | Rejected q => of_queue q
  end.

Definition key (s : series) : string := seriesKey (series_name s) (series_labels s).

(** The series an event counts in. *)
Definition event_series (m : metric) : option series :=
  match m with
  | MessagePublished q _ => Some (Published q)
  | MessageDelivered q => Some (Delivered q)
  | MessageAcknowledged q _ => Some (Acknowledged q)
  | MessageRetried q => Some (Retried q)
  | MessageDeadLettered q kind => Some (DeadLettered q kind)
  | MessageRejected q => Some (Rejected q)
  | QueueDepth _ _ _ _ => None
  end.

Lemma render_queue q : renderLabels (of_queue q) = "queue=" +:+ quote q.
Proof.
  unfold renderLabels, of_queue. rewrite decide_False by apply map_non_empty_singleton.
  rewrite map_to_list_singleton. unfold sort_strings, label_pair. simpl. by rewrite lookup_singleton_eq.
Qed.

Lemma render_dead q kind :
  renderLabels (<["kind" := kind]> (of_queue q)) = "kind=" +:+ quote kind +:+ ",queue=" +:+ quote q.
Proof.
  unfold renderLabels. rewrite decide_False by apply insert_non_empty.
  assert (sort_strings (fst <$> map_to_list (<["kind" := kind]> (of_queue q))) = ["kind"; "queue"]) as ->.
  { vm_compute. reflexivity. }
  simpl. unfold label_pair, of_queue. rewrite lookup_insert_eq, lookup_insert_ne, lookup_singleton_eq by done.
  simpl. by rewrite !str_app_assoc.
Qed.

Lemma key_inj s s' : key s = key s' → s = s'.
Proof.
  assert (∀ a b : string, "queue=" +:+ quote a +:+ "}" = "queue=" +:+ quote b +:+ "}" → a = b) as Hq.
  { intros a b E%append_inj. by apply quote_split in E as [-> _]. }
  unfold key, seriesKey. destruct s, s'; cbn [series_name series_labels];
    rewrite ?render_queue, ?render_dead, ?str_app_assoc; intros E;
    first [by do 2 apply append_inj in E; apply Hq in E; subst
          |exfalso; clear Hq; unfold metricPublished, metricDelivered, metricAcknowledged, metricRetried,
             metricDeadLettered, metricRejected in E; discriminate E|idtac].
  do 3 apply append_inj in E. apply quote_split in E as [-> E]. apply append_inj in E.
  by apply quote_split in E as [-> _].
Qed.

(** * Counters *)

Definition counter_value (k : string) (r : Registry) : Z := default 0 (ct_value <$> rg_counters r !! k).

Lemma wrapU64_succ n : wrapU64 (wrapU64 n + 1) = wrapU64 (n + 1).
Proof. unfold wrapU64. by rewrite Z.add_mod_idemp_l by lia. Qed.

Lemma inc_counters name help labels r k :
  counter_value k (inc name help labels r) =
  if decide (k = seriesKey name labels) then wrap64 (counter_value k r + 1) else counter_value k r.
Proof.
  unfold counter_value, inc, Counter_Inc, Counter_Add. simpl. unfold find_or_add.
  destruct (rg_counters r !! seriesKey name labels) as [c|] eqn:Hc; rewrite lookup_alter; case_decide as Hk;
    try (rewrite decide_False by congruence); try (rewrite decide_True by done); subst.
  - by rewrite Hc.
  - done.
  - by rewrite lookup_insert_eq, Hc.
  - by rewrite lookup_insert_ne.
Qed.

Lemma set_counters name help labels v r : rg_counters (set name help labels v r) = rg_counters r.
Proof. done. Qed.
Lemma observe_counters name help labels d r : rg_counters (observe name help labels d r) = rg_counters r.
Proof. done. Qed.

Lemma collect_counter r m s :
  counter_value (key s) (collect r m) =
  if decide (event_series m = Some s) then wrap64 (counter_value (key s) r + 1) else counter_value (key s) r.
Proof.
  assert (∀ s' help, counter_value (key s) (inc (series_name s') help (series_labels s') r) =
    if decide (Some s' = Some s) then wrap64 (counter_value (key s) r + 1) else counter_value (key s) r) as Hinc.
  { intros s' help. rewrite inc_counters. fold (key s'). destruct (decide (Some s' = Some s)) as [[= ->]|Hne].
    - by rewrite decide_True.
    - rewrite decide_False; [done|]. intros E%key_inj. congruence. }
  destruct m; cbn [event_series]; rewrite <-?Hinc with (help := ""); try done.
Qed.

Lemma collected_snoc calls m : collected (calls ++ [m]) = collect (collected calls) m.
Proof. unfold collected. by rewrite foldl_app. Qed.

Lemma collected_counter calls s :
  counter_value (key s) (collected calls) =
  wrap64 (Z.of_nat (count_if (fun m => bool_decide (event_series m = Some s)) calls)).
Proof.
  induction calls as [|m calls IH] using rev_ind; [done|]. rewrite collected_snoc, collect_counter, IH, count_if_app.
  rewrite count_if_cons, count_if_nil. case_decide as Hm.
  - rewrite bool_decide_eq_true_2, wrap64_add_l by done. f_equal. lia.
  - rewrite bool_decide_eq_false_2 by done. f_equal. lia.
Qed.

(** * Histograms *)

(** A new histogram after the observations. *)
Definition observed (name : string) (bounds : list float64) (labels : Labels) (values : list float64) : Histogram :=
  foldl (fun h v => Observe v h) (new_histogram name bounds labels) values.

(** How many of the values are at most the bound. *)
Definition at_most (values : list float64) (bound : float64) : Z :=
  Z.of_nat (count_if (fun v => fle v bound) values).

Lemma observed_counts name bounds labels values :
  bounds ≠ [] →
  let h := observed name bounds labels values in
  hi_name h = name ∧ hi_labels h = labels ∧ hi_bounds h = bounds ∧
  hi_count h = wrapU64 (Z.of_nat (length values)) ∧
  hi_buckets h = (fun b => wrapU64 (at_most values b)) <$> bounds.
Proof.
  intros Hb. unfold observed. induction values as [|v values IH] using rev_ind.
  - simpl. unfold new_histogram. destruct bounds as [|b bounds]; [done|]. split_and!; try done. cbn [hi_buckets].
    clear Hb. induction (b :: bounds) as [|b' l IHl]; [done|]. simpl. by rewrite IHl.
  - rewrite foldl_app. destruct IH as (Hn & Hl & Hbs & Hc & Hk). cbn zeta. simpl.
    rewrite Hn, Hl, Hbs, Hc, Hk. split_and!; try done.
    + rewrite wrapU64_succ, length_app. f_equal. simpl. lia.
    + clear. induction bounds as [|b bounds IHb]; [done|]. simpl. f_equal; [|done].
      unfold at_most. rewrite count_if_app, count_if_cons, count_if_nil. destruct (fle v b).
      * rewrite wrapU64_succ. f_equal. lia.
      * f_equal. lia.
Qed.

Lemma quantile_loop_spec target bounds (counts : float64 → Z) :
  (∃ i b, bounds !! i = Some b ∧ quantile_loop target bounds (counts <$> bounds) = b ∧
     fle target (of_int (counts b)) = true ∧
     ∀ j b', (j < i)%nat → bounds !! j = Some b' → fle target (of_int (counts b')) = false) ∨
  (quantile_loop target bounds (counts <$> bounds) = Inf false ∧
   ∀ b, b ∈ bounds → fle target (of_int (counts b)) = false).
Proof.
  induction bounds as [|b bounds IH]; simpl; [right; split; [done|set_solver]|].
  destruct (fle target (of_int (counts b))) eqn:Hb.
  - left. exists 0%nat, b. split_and!; try done. intros j b' Hj. lia.
  - destruct IH as [(i & b' & Hi & Hq & Hle & Hlt)|[Hq Hall]].
    + left. exists (S i), b'. split_and!; try done. intros [|j] b'' Hj Hb''; simpl in *; [congruence|].
      apply (Hlt j); [lia|done].
    + right. split; [done|]. intros b' [->|Hin]%elem_of_cons; auto.
Qed.

Lemma observe_histograms name help labels d r k :
  rg_histograms (observe name help labels d r) !! k =
  if decide (k = seriesKey name labels)
  then Some (Observe (Seconds d) (default (new_histogram name DefaultBuckets labels) (rg_histograms r !! k)))
  else rg_histograms r !! k.
Proof.
  unfold observe, ObserveDuration. simpl. unfold find_or_add.
  destruct (rg_histograms r !! seriesKey name labels) as [c|] eqn:Hc; rewrite lookup_alter; case_decide as Hk;
    try (rewrite decide_False by congruence); try (rewrite decide_True by done); subst.
  - by rewrite Hc.
  - done.
  - by rewrite lookup_insert_eq, Hc.
  - by rewrite lookup_insert_ne.
Qed.

Lemma set_gauges name help labels v r k :
  ga_value <$> rg_gauges (set name help labels v r) !! k =
  if decide (k = seriesKey name labels) then Some v else ga_value <$> rg_gauges r !! k.
Proof.
  unfold set, Gauge_Set. simpl. unfold find_or_add.
  destruct (rg_gauges r !! seriesKey name labels) as [c|] eqn:Hc; rewrite lookup_alter; case_decide as Hk;
    try (rewrite decide_False by congruence); try (rewrite decide_True by done); subst.
  - by rewrite Hc.
  - done.
  - by rewrite lookup_insert_eq.
  - by rewrite lookup_insert_ne.
Qed.

Lemma inc_histograms name help labels r : rg_histograms (inc name help labels r) = rg_histograms r.
Proof. done. Qed.
Lemma set_histograms name help labels v r : rg_histograms (set name help labels v r) = rg_histograms r.
Proof. done. Qed.
Lemma inc_gauges name help labels r : rg_gauges (inc name help labels r) = rg_gauges r.
Proof. done. Qed.
Lemma observe_gauges name help labels d r : rg_gauges (observe name help labels d r) = rg_gauges r.
Proof. done. Qed.

#[local] Opaque observe set inc.

Lemma queue_key_inj name q q' : seriesKey name (of_queue q) = seriesKey name (of_queue q') → q = q'.
Proof.
  unfold seriesKey. rewrite !render_queue, !str_app_assoc. intros E. do 3 apply append_inj in E.
  by apply quote_split in E as [-> _].
Qed.

(** The time a publication took, and the time a delivery of the queue took. *)
Definition publish_time (m : metric) : option float64 :=
  match m with MessagePublished _ d => Some (Seconds d) | _ => None end.
Definition handle_time (q : string) (m : metric) : option float64 :=
  match m with
  | MessageAcknowledged q' d => if decide (q' = q) then Some (Seconds d) else None
  | _ => None
  end.

(** A histogram exists once something was observed. *)
Definition histogram_of (name : string) (labels : Labels) (values : list float64) : option Histogram :=
  match values with [] => None | _ => Some (observed name DefaultBuckets labels values) end.

Lemma histogram_of_snoc name labels values v :
  Some (Observe v (default (new_histogram name DefaultBuckets labels) (histogram_of name labels values))) =
  histogram_of name labels (values ++ [v]).
Proof.
  unfold histogram_of, observed. destruct values as [|v0 values]; [done|]. cbn [app]. 
  change (v0 :: values ++ [v]) with ((v0 :: values) ++ [v]). by rewrite foldl_app.
Qed.

Lemma publish_handle_apart q :
  seriesKey metricPublishTime ∅ ≠ seriesKey metricHandleTime (of_queue q).
Proof. unfold seriesKey, metricPublishTime, metricHandleTime. discriminate. Qed.

Lemma collected_histograms calls :
  rg_histograms (collected calls) !! seriesKey metricPublishTime ∅ =
    histogram_of metricPublishTime ∅ (omap publish_time calls) ∧
  ∀ q, rg_histograms (collected calls) !! seriesKey metricHandleTime (of_queue q) =
    histogram_of metricHandleTime (of_queue q) (omap (handle_time q) calls).
Proof.
  induction calls as [|m calls [IHp IHh]] using rev_ind; [done|].
  rewrite collected_snoc. setoid_rewrite omap_app. split; [|intros q; specialize (IHh q)].
  - destruct m; simpl; rewrite ?app_nil_r, ?set_histograms, ?inc_histograms; try done.
    + rewrite observe_histograms, decide_True by done. rewrite <-histogram_of_snoc, <-IHp. done.
    + rewrite observe_histograms, decide_False by apply publish_handle_apart. done.
  - destruct m as [| |queue latency| | | |]; simpl; rewrite ?app_nil_r, ?set_histograms, ?inc_histograms; try done.
    + rewrite observe_histograms, decide_False; [done|]. intros E. by apply (publish_handle_apart q).
    + rewrite observe_histograms. case_decide as Hk.
      * apply queue_key_inj in Hk as ->. rewrite decide_True by done. by rewrite <-histogram_of_snoc, <-IHh.
      * rewrite decide_False; [by rewrite app_nil_r|]. by intros ->.
Qed.

(** * Gauges *)

Definition depth_of_queue (q : string) (m : metric) : option (Z * Z * Z) :=
  match m with
  | QueueDepth q' ready inFlight scheduled => if decide (q' = q) then Some (ready, inFlight, scheduled) else None
  | _ => None
  end.

Definition gauge_value (name q : string) (r : Registry) : option Z :=
  ga_value <$> rg_gauges r !! seriesKey name (of_queue q).

Lemma gauge_keys_apart q q' :
  seriesKey metricQueueDepth (of_queue q) ≠ seriesKey metricInFlight (of_queue q') ∧
  seriesKey metricQueueDepth (of_queue q) ≠ seriesKey metricScheduled (of_queue q') ∧
  seriesKey metricInFlight (of_queue q) ≠ seriesKey metricScheduled (of_queue q').
Proof. unfold seriesKey, metricQueueDepth, metricInFlight, metricScheduled. split_and!; discriminate. Qed.

Lemma collected_gauges calls q :
  let depth := last (omap (depth_of_queue q) calls) in
  let r := collected calls in
  gauge_value metricQueueDepth q r = (fun d => d.1.1) <$> depth ∧
  gauge_value metricInFlight q r = (fun d => d.1.2) <$> depth ∧
  gauge_value metricScheduled q r = (fun d => d.2) <$> depth.
Proof.
  cbv zeta. induction calls as [|m calls IH] using rev_ind; [done|]. rewrite collected_snoc, omap_app.
  destruct m as [| | | | | |queue ready inFlight scheduled]; simpl; unfold gauge_value in *;
    rewrite ?app_nil_r, ?observe_gauges, ?inc_gauges; try exact IH.
  rewrite !set_gauges. destruct (gauge_keys_apart q queue) as (H1 & H2 & H3).
  destruct (gauge_keys_apart queue q) as (H4 & H5 & H6).
  assert (∀ n, seriesKey n (of_queue q) = seriesKey n (of_queue queue) ↔ queue = q) as Hn.
  { intros n. split; [by intros E%queue_key_inj|by intros ->]. }
  pose proof (Hn metricQueueDepth) as N1. pose proof (Hn metricInFlight) as N2.
  pose proof (Hn metricScheduled) as N3. clear Hn. revert IH H1 H2 H3 H4 H5 H6 N1 N2 N3.
  generalize (seriesKey metricQueueDepth (of_queue q)) (seriesKey metricInFlight (of_queue q))
    (seriesKey metricScheduled (of_queue q)) (seriesKey metricQueueDepth (of_queue queue))
    (seriesKey metricInFlight (of_queue queue)) (seriesKey metricScheduled (of_queue queue)).
  intros a1 a2 a3 b1 b2 b3 IH H1 H2 H3 H4 H5 H6 N1 N2 N3. destruct (decide (queue = q)) as [Hq|Hq].
  - rewrite last_snoc, !(decide_True _ _ (proj2 N1 Hq)), !(decide_True _ _ (proj2 N2 Hq)),
      !(decide_True _ _ (proj2 N3 Hq)), !decide_False by congruence. done.
  - rewrite app_nil_r, !decide_False by (congruence || tauto). exact IH.
Qed.

(** * The text *)

Lemma filter_disjoint_app {A} (P Q : A → Prop) `{∀ x, Decision (P x), ∀ x, Decision (Q x)} (l : list A) :
  (∀ x, x ∈ l → P x → ¬ Q x) → filter P l ++ filter Q l ≡ₚ filter (fun x => P x ∨ Q x) l.
Proof.
  induction l as [|x l IH]; intros Hd; [done|]. rewrite !filter_cons.
  assert (filter P l ++ filter Q l ≡ₚ filter (fun x => P x ∨ Q x) l) as IHl by (apply IH; set_solver).
  assert (P x → ¬ Q x) as Hx by (apply Hd; set_solver).
  destruct (decide (P x)), (decide (Q x)); try (by exfalso; apply Hx).
  - rewrite decide_True by auto. simpl. by rewrite IHl.
  - rewrite decide_True by auto. rewrite <-IHl. by rewrite Permutation_middle.
  - rewrite decide_False by tauto. done.
Qed.

Lemma list_filter_all {A} (P : A → Prop) `{∀ x, Decision (P x)} (l : list A) : (∀ x, x ∈ l → P x) → filter P l = l.
Proof.
  induction l as [|x l IH]; intros Hl; [done|]. rewrite filter_cons, decide_True by set_solver.
  f_equal. apply IH. set_solver.
Qed.

Lemma list_filter_none {A} (P : A → Prop) `{∀ x, Decision (P x)} (l : list A) : (∀ x, x ∈ l → ¬ P x) → filter P l = [].
Proof.
  induction l as [|x l IH]; intros Hl; [done|]. rewrite filter_cons, decide_False by set_solver.
  apply IH. set_solver.
Qed.

(** Keys that each belong to one of the names are found, name by name, once. *)
Lemma sections_perm {A B} (P : A → B → Prop) `{∀ n k, Decision (P n k)} (ns : list A) (ks : list B) :
  NoDup ns → (∀ n n' k, n ∈ ns → n' ∈ ns → k ∈ ks → P n k → P n' k → n = n') →
  (∀ k, k ∈ ks → ∃ n, n ∈ ns ∧ P n k) →
  mjoin ((fun n => filter (P n) ks) <$> ns) ≡ₚ ks.
Proof.
  intros Hnd Huniq Hall.
  assert (∀ ms, ms ⊆ ns → NoDup ms →
    mjoin ((fun n => filter (P n) ks) <$> ms) ≡ₚ filter (fun k => Exists (fun n => P n k) ms) ks) as Hsub.
  { induction ms as [|m ms IH]; intros Hs Hm; simpl.
    - rewrite list_filter_none; [done|]. intros x _ Hx. by apply Exists_nil in Hx.
    - apply NoDup_cons in Hm as [Hm Hms]. rewrite IH; [|set_solver|done]. rewrite filter_disjoint_app.
      + apply Permutation_refl', list_filter_iff. intros k. by rewrite Exists_cons.
      + intros k Hk Hp (m' & Hm' & Hp')%Exists_exists. apply Hm.
        rewrite (Huniq m m' k); [done|set_solver..|done|done]. }
  rewrite Hsub by done. rewrite list_filter_all; [done|].
  intros k Hk. apply Exists_exists. by apply Hall.
Qed.

Definition counter_names : list string :=
  [metricPublished; metricDelivered; metricAcknowledged; metricRetried; metricDeadLettered; metricRejected].
Definition histogram_names : list string := [metricPublishTime; metricHandleTime].
Definition gauge_names : list string := [metricQueueDepth; metricInFlight; metricScheduled].
Definition all_names : list string := counter_names ++ gauge_names ++ histogram_names.

(** A section's prefix finds the series of its own name only. *)
Lemma prefix_own n m rest :
  n ∈ all_names → m ∈ all_names → str_has_prefix (n +:+ "{") (m +:+ "{" +:+ rest) = true → n = m.
Proof.
  intros Hn Hm.
  assert (Forall (fun n => Forall (fun m => ∀ rest, str_has_prefix (n +:+ "{") (m +:+ "{" +:+ rest) = true → n = m)
    all_names) all_names) as Hall by (repeat constructor; vm_compute; intros; try reflexivity; discriminate).
  rewrite Forall_forall in Hall. specialize (Hall n Hn). rewrite Forall_forall in Hall. by apply Hall.
Qed.

Lemma prefix_self n rest : str_has_prefix (n +:+ "{") (n +:+ "{" +:+ rest) = true.
Proof. induction n as [|c n IH]; [done|]. simpl. by rewrite bool_decide_eq_true_2. Qed.

(** The entries of one kind: under their own key, with one of the kind's names,
    which has its help text. *)
Definition entries_ok {A} (name : A → string) (labels : A → Labels) (ns : list string)
    (m : gmap string A) (help : gmap string string) : Prop :=
  ∀ k x, m !! k = Some x → k = seriesKey (name x) (labels x) ∧ name x ∈ ns ∧ is_Some (help !! name x).

Record registry_ok (r : Registry) : Prop := {
  ro_counters : entries_ok ct_name ct_labels counter_names (rg_counters r) (rg_help r);
  ro_gauges : entries_ok ga_name ga_labels gauge_names (rg_gauges r) (rg_help r);
  ro_histograms : entries_ok hi_name hi_labels histogram_names (rg_histograms r) (rg_help r);
  ro_help : ∀ n, is_Some (rg_help r !! n) → n ∈ all_names;
}.

Lemma entries_help {A} (name : A → string) labels ns (m : gmap string A) help n h :
  entries_ok name labels ns m help → entries_ok name labels ns m (<[n := h]> help).
Proof.
  intros Hok k x Hx. destruct (Hok k x Hx) as (? & ? & ?). split_and!; try done.
  rewrite lookup_insert. case_decide; [by eexists|done].
Qed.

Lemma entries_updated {A} (name : A → string) labels ns (m : gmap string A) help fresh (f : A → A) :
  entries_ok name labels ns m help → name fresh ∈ ns → is_Some (help !! name fresh) →
  (∀ x, name (f x) = name x ∧ labels (f x) = labels x) →
  entries_ok name labels ns
    (alter f (seriesKey (name fresh) (labels fresh)) (find_or_add (seriesKey (name fresh) (labels fresh)) fresh m)) help.
Proof.
  intros Hok Hn Hh Hf. assert (entries_ok name labels ns
    (find_or_add (seriesKey (name fresh) (labels fresh)) fresh m) help) as Hadd.
  { unfold find_or_add. case_match; [done|]. intros k x. rewrite lookup_insert.
    case_decide as Hk; [|apply Hok]. intros [= <-]. done. }
  set (m' := find_or_add _ fresh m) in *. clearbody m'.
  intros k x. rewrite lookup_alter. case_decide as Hk; [subst k|apply Hadd].
  destruct (m' !! _) as [y|] eqn:Hy; [|done]. intros [= <-].
  destruct (Hf y) as [-> ->]. by apply Hadd.
Qed.

#[local] Transparent observe set inc.

Lemma inc_ok name help labels r : name ∈ counter_names → registry_ok r → registry_ok (inc name help labels r).
Proof.
  intros Hn [Hc Hg Hh Hp]. split; cbn [inc Registry_Counter Counter_Inc Counter_Add put_counters put_help
    rg_counters rg_gauges rg_histograms rg_help].
  - apply (entries_updated ct_name ct_labels counter_names (rg_counters r) _ (mkCounter name labels 0));
      [by apply entries_help|done|rewrite lookup_insert_eq; by eexists|done].
  - by apply entries_help.
  - by apply entries_help.
  - intros n. rewrite lookup_insert. case_decide; [|apply Hp]. intros _. subst. set_solver.
Qed.

Lemma set_ok name help labels v r : name ∈ gauge_names → registry_ok r → registry_ok (set name help labels v r).
Proof.
  intros Hn [Hc Hg Hh Hp]. split; cbn [set Registry_Gauge Gauge_Set put_gauges put_help
    rg_counters rg_gauges rg_histograms rg_help].
  - by apply entries_help.
  - apply (entries_updated ga_name ga_labels gauge_names (rg_gauges r) _ (mkGauge name labels 0));
      [by apply entries_help|done|rewrite lookup_insert_eq; by eexists|done].
  - by apply entries_help.
  - intros n. rewrite lookup_insert. case_decide; [|apply Hp]. intros _. subst. set_solver.
Qed.

Lemma observe_ok name help labels d r :
  name ∈ histogram_names → registry_ok r → registry_ok (observe name help labels d r).
Proof.
  intros Hn [Hc Hg Hh Hp]. split; cbn [observe Registry_Histogram ObserveDuration put_histograms put_help
    rg_counters rg_gauges rg_histograms rg_help].
  - by apply entries_help.
  - by apply entries_help.
  - apply (entries_updated hi_name hi_labels histogram_names (rg_histograms r) _ (new_histogram name DefaultBuckets labels));
      [by apply entries_help|done|cbn [new_histogram hi_name]; rewrite lookup_insert_eq; by eexists|done].
  - intros n. rewrite lookup_insert. case_decide; [|apply Hp]. intros _. subst. set_solver.
Qed.

#[local] Opaque observe set inc.

Lemma collected_ok calls : registry_ok (collected calls).
Proof.
  induction calls as [|m calls IH] using rev_ind.
  - split; [intros k x Hx; done..|]. by intros n [h Hn].
  - rewrite collected_snoc. destruct m; cbn [collect];
      repeat first [apply inc_ok; [set_solver|]|apply set_ok; [set_solver|]|apply observe_ok; [set_solver|]]; done.
Qed.

(** The series of one kind, section by section and all together. *)
Section kind.
Context {A B : Type} (name : A → string) (labels : A → Labels) (ns : list string).
Context (m : gmap string A) (help : gmap string string) (show : A → B).
Context (Hok : entries_ok name labels ns m help) (Hns : ns ⊆ all_names).
Context (Hhelp : ∀ n, is_Some (help !! n) → n ∈ all_names).

Definition shown (n : string) : list B := omap (fun k => show <$> m !! k) (sortedKeys m n).

Lemma hasSeries_elem n : hasSeries m n = true ↔ ∃ k x, m !! k = Some x ∧ str_has_prefix (n +:+ "{") k = true.
Proof using Type.
  unfold hasSeries. rewrite existsb_exists. split.
  - intros (k & Hk%list_elem_of_In & Hp). apply list_elem_of_fmap in Hk as ([k' x] & -> & Hx%elem_of_map_to_list). eauto.
  - intros (k & x & Hx & Hp). exists k. split; [|done]. apply list_elem_of_In, list_elem_of_fmap.
    exists (k, x). split; [done|]. by apply elem_of_map_to_list.
Qed.

Lemma hasSeries_name n : n ∈ all_names → hasSeries m n = true → n ∈ ns.
Proof using Hok Hns.
  intros Hn (k & x & Hx & Hp)%hasSeries_elem. destruct (Hok k x Hx) as (-> & Hx' & _).
  apply prefix_own in Hp as ->; [done|done|by apply Hns].
Qed.

Lemma shown_nil n : hasSeries m n = false → shown n = [].
Proof using Type.
  intros Hn. unfold shown, sortedKeys. rewrite list_filter_none; [done|].
  intros k ([k' x] & -> & Hx%elem_of_map_to_list)%list_elem_of_fmap Hp.
  enough (hasSeries m n = true) by congruence. apply hasSeries_elem. eauto.
Qed.

Lemma omap_entries (l : list (string * A)) :
  (∀ k x, (k, x) ∈ l → m !! k = Some x) → omap (fun k => show <$> m !! k) l.*1 = show <$> l.*2.
Proof.
  induction l as [|[k x] l IH]; intros Hl; [done|]. simpl. rewrite (Hl k x) by set_solver. simpl.
  f_equal. apply IH. set_solver.
Qed.

Lemma shown_all names :
  NoDup names → (∀ n, n ∈ names ↔ is_Some (help !! n)) →
  mjoin (shown <$> names) ≡ₚ show <$> (map_to_list m).*2.
Proof.
  intros Hnd Hnames. rewrite <-omap_entries by (intros k x; apply elem_of_map_to_list).
  transitivity (omap (fun k => show <$> m !! k)
    (mjoin ((fun n => filter (fun k => str_has_prefix (n +:+ "{") k = true) (map_to_list m).*1) <$> names))).
  - clear Hnd Hnames. induction names as [|n names IH]; [done|]. simpl. rewrite omap_app. apply Permutation_app; [|done].
    unfold shown, sortedKeys. by rewrite sort_strings_perm.
  - apply omap_Permutation, sections_perm; [done| |].
    + intros n n' k Hn Hn' ([k' x] & -> & Hx%elem_of_map_to_list)%list_elem_of_fmap Hp Hp'. simpl in *.
      destruct (Hok k' x Hx) as (-> & Hx' & _).
      apply Hnames, Hhelp in Hn. apply Hnames, Hhelp in Hn'.
      apply prefix_own in Hp as ->; [|done|by apply Hns]. apply prefix_own in Hp' as ->; [done|done|by apply Hns].
    + intros k ([k' x] & -> & Hx%elem_of_map_to_list)%list_elem_of_fmap. simpl.
      destruct (Hok k' x Hx) as (-> & Hx' & Hh). exists (name x). split; [by apply Hnames|apply prefix_self].
Qed.
End kind.

(** Every sample there is to show. *)
Definition all_samples (print_g : float64 → string) (r : Registry) : list string :=
  (counter_sample <$> (map_to_list (rg_counters r)).*2) ++ (gauge_sample <$> (map_to_list (rg_gauges r)).*2) ++
  mjoin (writeHistogram print_g <$> (map_to_list (rg_histograms r)).*2).

Lemma kinds_disjoint n :
  (n ∈ counter_names → n ∉ gauge_names ∧ n ∉ histogram_names) ∧ (n ∈ gauge_names → n ∉ histogram_names).
Proof.
  assert (Forall (fun n => n ∉ gauge_names ∧ n ∉ histogram_names) counter_names ∧
    Forall (fun n => n ∉ histogram_names) gauge_names) as [H1 H2] by (apply (bool_decide_unpack _); vm_compute; exact I).
  rewrite Forall_forall in H1, H2. split; auto.
Qed.

Lemma names_sub : counter_names ⊆ all_names ∧ gauge_names ⊆ all_names ∧ histogram_names ⊆ all_names.
Proof.
  unfold all_names. generalize counter_names gauge_names histogram_names. intros x y z. split_and!; set_solver.
Qed.

Lemma section_samples print_g r n :
  registry_ok r → n ∈ all_names →
  (section print_g r n).2 = shown (rg_counters r) counter_sample n ++ shown (rg_gauges r) gauge_sample n ++
    mjoin (shown (rg_histograms r) (writeHistogram print_g) n).
Proof.
  intros [Hc Hg Hh Hp] Hn. destruct (kinds_disjoint n) as [D1 D2].
  destruct names_sub as (Sc & Sg & Sh).
  pose proof (hasSeries_name _ _ _ _ _ Hc Sc n Hn) as Nc. pose proof (hasSeries_name _ _ _ _ _ Hg Sg n Hn) as Ng.
  pose proof (hasSeries_name _ _ _ _ _ Hh Sh n Hn) as Nh. unfold section.
  destruct (hasSeries (rg_counters r) n) eqn:Ec; [|destruct (hasSeries (rg_gauges r) n) eqn:Eg].
  - destruct (D1 (Nc eq_refl)) as [Dg Dh].
    rewrite (shown_nil (rg_gauges r)), (shown_nil (rg_histograms r)); [by rewrite app_nil_r|..];
      apply not_true_iff_false; tauto.
  - rewrite (shown_nil (rg_counters r)), (shown_nil (rg_histograms r)); [by rewrite app_nil_r| |done].
    apply not_true_iff_false. specialize (D2 (Ng eq_refl)). tauto.
  - rewrite (shown_nil (rg_counters r)), (shown_nil (rg_gauges r)) by done.
    destruct (hasSeries (rg_histograms r) n) eqn:Eh; [done|]. by rewrite shown_nil.
Qed.

Lemma mjoin_split {X B} (f g h : X → list B) (l : list X) :
  mjoin ((fun x => f x ++ g x ++ h x) <$> l) ≡ₚ mjoin (f <$> l) ++ mjoin (g <$> l) ++ mjoin (h <$> l).
Proof. induction l as [|x l IH]; [done|]. simpl. rewrite IH. solve_Permutation. Qed.

Lemma mjoin_mjoin {X B} (f : X → list (list B)) (l : list X) :
  mjoin ((fun x => mjoin (f x)) <$> l) = mjoin (mjoin (f <$> l)).
Proof. induction l as [|x l IH]; [done|]. rewrite !fmap_cons. simpl. rewrite join_app. f_equal. exact IH. Qed.

(** * Properties *)

(** C22: The collector is exact: after any sequence of calls on the engine's
    metrics interface, the counter of every series (a queue's published,
    delivered, acknowledged, retried and rejected messages, its dead letters by
    kind) is the number of calls that belong to it, modulo 2^64 and never mixed
    up with another series whatever the queue is called; the two histograms hold
    exactly the times reported to them; and the gauges of a queue show the last
    depth reported for it. *)
Theorem collector_exact calls q :
  (∀ s, counter_value (key s) (collected calls) =
     wrap64 (Z.of_nat (count_if (fun m => bool_decide (event_series m = Some s)) calls))) ∧
  rg_histograms (collected calls) !! seriesKey metricPublishTime ∅ =
    histogram_of metricPublishTime ∅ (omap publish_time calls) ∧
  rg_histograms (collected calls) !! seriesKey metricHandleTime (of_queue q) =
    histogram_of metricHandleTime (of_queue q) (omap (handle_time q) calls) ∧
  (gauge_value metricQueueDepth q (collected calls), gauge_value metricInFlight q (collected calls),
   gauge_value metricScheduled q (collected calls)) =
  let depth := last (omap (depth_of_queue q) calls) in
  ((fun d => d.1.1) <$> depth, (fun d => d.1.2) <$> depth, (fun d => d.2) <$> depth).
Proof.
  destruct (collected_histograms calls) as [Hp Hh]. destruct (collected_gauges calls q) as (-> & -> & ->).
  split; [intros s; apply collected_counter|]. split_and!; [done|apply Hh|done].
Qed.

(** A histogram counts its observations: after any observations (fewer than
    2^64) the count is their number and each bucket the number of observations
    that are at most its bound, so that the buckets grow with the bounds; and
    [Quantile] returns the first bound below which at least the wanted share of
    the observations lies, positive infinity when no bound is large enough, and
    0 for an empty histogram. *)
Theorem histogram_correct name bounds labels values quantile :
  bounds ≠ [] → Z.of_nat (length values) < 2 ^ 64 →
  let h := observed name bounds labels values in
  let target := fmul quantile (of_int (Z.of_nat (length values))) in
  Count h = Z.of_nat (length values) ∧
  (∀ i b, bounds !! i = Some b → hi_buckets h !! i = Some (at_most values b)) ∧
  (values = [] → Quantile quantile h = Fin 0 0) ∧
  (values ≠ [] →
   (∃ i b, bounds !! i = Some b ∧ Quantile quantile h = b ∧ fle target (of_int (at_most values b)) = true ∧
      ∀ j b', (j < i)%nat → bounds !! j = Some b' → fle target (of_int (at_most values b')) = false) ∨
   (Quantile quantile h = Inf false ∧ ∀ b, b ∈ bounds → fle target (of_int (at_most values b)) = false)).
Proof.
  intros Hb Hlen h target. destruct (observed_counts name bounds labels values Hb) as (_ & _ & Hbs & Hc & Hk).
  fold h in Hbs, Hc, Hk.
  assert (∀ b, wrapU64 (at_most values b) = at_most values b) as Hsmall.
  { intros b. unfold wrapU64, at_most. pose proof (count_if_le (fun v => fle v b) values). apply Z.mod_small. lia. }
  assert (hi_buckets h = at_most values <$> bounds) as Hk'.
  { rewrite Hk. apply list_fmap_ext. intros _ b _. apply Hsmall. }
  assert (hi_count h = Z.of_nat (length values)) as Hc' by (rewrite Hc; unfold wrapU64; apply Z.mod_small; lia).
  split; [done|]. split; [intros i b Hi; by rewrite Hk', list_lookup_fmap, Hi|]. unfold Quantile. rewrite Hc'. split.
  - by intros ->.
  - intros Hne. rewrite (proj2 (Z.eqb_neq _ _)) by (destruct values; [done|]; simpl; lia).
    rewrite Hbs, Hk'. apply quantile_loop_spec.
Qed.

(** The metrics page is complete: whatever was reported, the samples that
    [Write] prints, section by section, are every sample of every counter,
    gauge and histogram there is, each exactly once, although the sections find
    their series by comparing a prefix of the key. *)
Theorem Write_complete print_g calls :
  mjoin ((fun n => (section print_g (collected calls) n).2) <$> names (collected calls)) ≡ₚ
  all_samples print_g (collected calls).
Proof.
  pose proof (collected_ok calls) as Hok. set (r := collected calls) in *. clearbody r.
  assert (NoDup (names r)) as Hnd by (unfold names; rewrite sort_strings_perm; apply NoDup_fst_map_to_list).
  assert (∀ n, n ∈ names r ↔ is_Some (rg_help r !! n)) as Hin.
  { intros n. unfold names. rewrite elem_of_sort_strings, list_elem_of_fmap. split.
    - intros ([k h] & -> & Hk%elem_of_map_to_list). by exists h.
    - intros [h Hh]. exists (n, h). split; [done|]. by apply elem_of_map_to_list. }
  transitivity (mjoin ((fun n => shown (rg_counters r) counter_sample n ++ shown (rg_gauges r) gauge_sample n ++
    mjoin (shown (rg_histograms r) (writeHistogram print_g) n)) <$> names r)).
  { apply Permutation_refl'. f_equal. apply list_fmap_ext. intros i n Hn. apply section_samples; [done|].
    apply (ro_help _ Hok), Hin. by eapply list_elem_of_lookup_2. }
  rewrite mjoin_split, mjoin_mjoin. unfold all_samples. destruct Hok as [Hc Hg Hh Hp].
  destruct names_sub as (Sc & Sg & Sh).
  rewrite (shown_all _ _ _ _ _ counter_sample Hc Sc Hp _ Hnd Hin).
  rewrite (shown_all _ _ _ _ _ gauge_sample Hg Sg Hp _ Hnd Hin).
  by rewrite (shown_all _ _ _ _ _ (writeHistogram print_g) Hh Sh Hp _ Hnd Hin).
Qed.

(** * Witness *)

Lemma histogram_correct_witness :
  let h := observed "latency" DefaultBuckets ∅ (Seconds <$> [millisecond; 300 * millisecond; 2 * second]) in
  Count h = 3 ∧ hi_buckets h !! 9%nat = Some 2.
Proof.
  destruct (histogram_correct "latency" DefaultBuckets ∅ (Seconds <$> [millisecond; 300 * millisecond; 2 * second])
    f_half) as (Hc & Hk & _); [discriminate|vm_compute; reflexivity|].
  split; [exact Hc|]. rewrite (Hk 9%nat (decimal 5 10)); [vm_compute; reflexivity|reflexivity].
Defined.
