(* ===== verification/Restart.v ===== *)
(** A restart: the topology that [Engine.Restore] rebuilds from a store is the
    durable part of the one that was declared, whichever back end keeps it
    ([TopologyStore.v]). *)

From S2P Require Import Prelude Errors TimeText Message Broker BrokerProofs Storage TopologyStore.
From S2P Require Import SqlConn SqlConnProofs Sqlite SqliteTables SqliteTopology Memory MemoryTopology Engine.

(** * Restoring from lists *)

(** Inserting the values of a map under their own names gives the map back. *)
Lemma foldl_insert_named {A} (name : A → string) (m0 : gmap string A) l k :
  NoDup (name <$> l) →
  foldl (fun m x => <[name x := x]> m) m0 l !! k =
  match list_find (fun x => name x = k) l with Some (_, x) => Some x | None => m0 !! k end.
Proof.
  revert m0. induction l as [|x l IH]; intros m0 Hn; [done|].
  apply NoDup_cons in Hn as [Hx Hn]. simpl. rewrite IH by done. rewrite lookup_insert.
  destruct (decide (name x = k)) as [<-|Hne].
  - replace (list_find (fun y => name y = name x) l) with (@None (nat * A)); [done|].
    symmetry. apply list_find_None, Forall_forall. intros y Hy Heq. apply Hx. rewrite <-Heq.
    by apply list_elem_of_fmap_2.
  - by destruct (list_find _ l) as [[? ?]|].
Qed.

Lemma foldl_insert_lists {A} (name : A → string) (m : gmap string A) l :
  (∀ k x, m !! k = Some x → name x = k) → lists name m l →
  foldl (fun m x => <[name x := x]> m) ∅ l = m.
Proof.
  intros Hname [Hn Hl]. apply map_eq. intros k. rewrite foldl_insert_named, lookup_empty by done.
  destruct (list_find _ _) as [[i x]|] eqn:Hf.
  - apply list_find_Some in Hf as (Hi & <- & _). apply list_elem_of_lookup_2, Hl in Hi. done.
  - apply list_find_None in Hf. destruct (m !! k) as [x|] eqn:Hx; [|done]. exfalso.
    rewrite Forall_forall in Hf. pose proof (Hname k x Hx) as Hk. apply (Hf x); [|done].
    apply Hl. by rewrite Hk.
Qed.

Lemma slice_at_grouped_filter (m : gmap string (list Binding)) l n :
  slice_at (foldl (fun m b => <[b_Exchange b := slice_at m (b_Exchange b) ++ [b]]> m) m l) n =
  slice_at m n ++ filter (fun b => b_Exchange b = n) l.
Proof.
  revert m. induction l as [|x l IH]; intros m; simpl; [by rewrite app_nil_r|].
  rewrite IH, slice_at_insert, filter_cons. case_decide as Hx; [|done].
  subst n. by rewrite <-app_assoc.
Qed.

Lemma slice_at_grouped (m : gmap string (list Binding)) l n b :
  b ∈ slice_at (foldl (fun m b => <[b_Exchange b := slice_at m (b_Exchange b) ++ [b]]> m) m l) n ↔
  b ∈ slice_at m n ∨ (b ∈ l ∧ b_Exchange b = n).
Proof. rewrite slice_at_grouped_filter, elem_of_app, list_elem_of_filter. naive_solver. Qed.

(** * What a declaration does to the registry *)

Definition ex_is_durable (kv : string * Exchange) : Prop := ex_Durable kv.2 = true.
Definition q_is_durable (kv : string * Queue) : Prop := q_Durable kv.2 = true.

(** The durable entries after an entry was added, or stored again as it was. *)
Lemma filter_upsert {A} (P : string * A → Prop) `{∀ kv, Decision (P kv)} (m : gmap string A) k x :
  m !! k = None ∨ m !! k = Some x →
  filter P (<[k := x]> m) = if decide (P (k, x)) then <[k := x]> (filter P m) else filter P m.
Proof.
  intros Hwas. case_decide as Hp; [by rewrite map_filter_insert_True|].
  rewrite map_filter_insert_False by done. destruct Hwas as [Hn|Hx]; [by rewrite delete_id|].
  apply map_filter_delete_not. intros y Hy. simplify_eq. done.
Qed.

Lemma unchanged_filter {A} (P : string * A → Prop) `{∀ kv, Decision (P kv)} (m : gmap string A) k x :
  m !! k = None ∨ m !! k = Some x → unchanged (filter P m) k x.
Proof.
  unfold unchanged. rewrite map_lookup_filter. intros [-> | ->]; [by left|]. simpl.
  case_guard; simpl; auto.
Qed.

(** A registry whose entries are stored under their names, its bindings under
    their exchange and once each.  Every well-formed registry is keyed; so is a
    restored one, even where a binding's exchange was not durable. *)
Record registry_keyed (r : Registry) : Prop := {
  rk_exchanges : ∀ n x, rt_exchanges (reg_routing r) !! n = Some x → ex_Name x = n;
  rk_queues : ∀ n q, reg_queues r !! n = Some q → q_Name q = n;
  rk_keys : ∀ n, NoDup (Binding_key <$> slice_at (rt_bindings (reg_routing r)) n);
  rk_bindings : ∀ n b, b ∈ slice_at (rt_bindings (reg_routing r)) n → b_Exchange b = n ∧ spec_named (b_Spec b);
}.

Lemma registry_ok_keyed r : registry_ok r → registry_keyed r.
Proof.
  intros Hok. split.
  - intros n x Hx. by destruct (ok_exchanges _ Hok _ _ Hx).
  - intros n q Hq. by destruct (ok_queues _ Hok _ _ Hq).
  - apply (ok_binding_keys _ Hok).
  - intros n b Hb. destruct (ok_bindings _ Hok _ _ Hb) as (? & (e & _ & Hv%valid_named) & _). done.
Qed.

(** A declaration adds an entry or finds it there. *)
Lemma DeclareExchange_adds spec now r ex r' :
  registry_keyed r → Registry_DeclareExchange spec now r = Ok (ex, r') →
  registry_keyed r' ∧
  reg_queues r' = reg_queues r ∧ rt_bindings (reg_routing r') = rt_bindings (reg_routing r) ∧
  rt_exchanges (reg_routing r') = <[ex_Name ex := ex]> (rt_exchanges (reg_routing r)) ∧ ex_Spec ex = spec ∧
  ((rt_exchanges (reg_routing r) !! ex_Name ex = None ∧ ex_CreatedAt ex = now) ∨
   rt_exchanges (reg_routing r) !! ex_Name ex = Some ex).
Proof.
  intros Hok Hd. unfold Registry_DeclareExchange, declareExchange in Hd.
  apply result_bind_Ok in Hd as ([ex' t] & Hd & [= <- <-]). apply result_bind_Ok in Hd as ([] & _ & Hd).
  destruct (rt_exchanges (reg_routing r) !! es_Name spec) as [old|] eqn:Hold.
  - case_decide; [|done]. simplify_eq. pose proof (rk_exchanges _ Hok _ _ Hold) as Hname.
    rewrite Hname, Hold, insert_id by done. split_and!; auto. by destruct Hok.
  - simplify_eq. split_and!; [|done..|by left]. destruct Hok. split; simpl; try done.
    intros n x. rewrite lookup_insert. case_decide; [by intros [= <-]|apply rk_exchanges0].
Qed.

Lemma DeclareQueue_adds spec now r q r' :
  registry_keyed r → Registry_DeclareQueue spec now r = Ok (q, r') →
  registry_keyed r' ∧
  reg_routing r' = reg_routing r ∧ reg_queues r' = <[q_Name q := q]> (reg_queues r) ∧
  q_Spec q = QueueSpec_withDefaults spec ∧
  ((reg_queues r !! q_Name q = None ∧ q_CreatedAt q = now) ∨ reg_queues r !! q_Name q = Some q).
Proof.
  intros Hok Hd. unfold Registry_DeclareQueue in Hd. cbv zeta in Hd.
  apply result_bind_Ok in Hd as ([] & _ & Hd).
  destruct (reg_queues r !! qs_Name (QueueSpec_withDefaults spec)) as [old|] eqn:Hold.
  - case_decide; [|done]. simplify_eq. pose proof (rk_queues _ Hok _ _ Hold) as Hname.
    rewrite Hname, Hold, insert_id by done. split_and!; auto.
  - simplify_eq. split_and!; [|done..|by left]. destruct Hok. split; simpl; try done.
    intros n x. rewrite lookup_insert. case_decide; [by intros [= <-]|apply rk_queues0].
Qed.

Lemma Bind_adds spec now r b r' :
  registry_keyed r → Registry_Bind spec now r = Ok (b, r') →
  registry_keyed r' ∧
  reg_queues r' = reg_queues r ∧ rt_exchanges (reg_routing r') = rt_exchanges (reg_routing r) ∧
  b_Spec b = spec ∧ spec_named spec ∧
  (∀ n x, x ∈ slice_at (rt_bindings (reg_routing r')) n ↔
          x ∈ slice_at (rt_bindings (reg_routing r)) n ∨ (x = b ∧ n = bs_Exchange spec)) ∧
  (b_CreatedAt b = now ∨ b ∈ slice_at (rt_bindings (reg_routing r)) (bs_Exchange spec)).
Proof.
  intros Hok Hd. unfold Registry_Bind, bind in Hd. destruct (reg_queues r !! bs_Queue spec); [|done].
  apply result_bind_Ok in Hd as ([b' t] & Hd & [= <- <-]). apply result_bind_Ok in Hd as (ex & _ & Hd).
  apply result_bind_Ok in Hd as ([] & Hv%valid_named & Hd).
  destruct (find_binding _ _) as [b0|] eqn:Hf; injection Hd as <- <-; cbn in *.
  - apply find_binding_Some in Hf as [Hin Hkey]. destruct (rk_bindings _ Hok _ _ Hin) as [_ Hn].
    split_and!; [by destruct Hok|done|done|by apply named_key_inj|done| |by right]. naive_solver.
  - apply find_binding_None in Hf.
    assert (∀ n x, x ∈ slice_at (<[bs_Exchange spec := slice_at (rt_bindings (reg_routing r)) (bs_Exchange spec) ++
      [mkBinding spec now]]> (rt_bindings (reg_routing r))) n ↔
      x ∈ slice_at (rt_bindings (reg_routing r)) n ∨ x = mkBinding spec now ∧ n = bs_Exchange spec) as Hin.
    { intros n x. rewrite slice_at_insert. case_decide as Hn; [|naive_solver].
      subst n. rewrite elem_of_app, list_elem_of_singleton. naive_solver. }
    split_and!; [|done..|exact Hin|by left]. destruct Hok. split; simpl; try done.
    + intros n. rewrite slice_at_insert. case_decide as Hn; [subst n|apply rk_keys0].
      rewrite fmap_app. apply NoDup_app. split_and!; [done| |apply NoDup_singleton].
      intros k Hk ->%list_elem_of_singleton. done.
    + intros n x [Hx|[-> ->]]%Hin; [by apply rk_bindings0|done].
Qed.

(** Removing the binding with a given specification. *)
Lemma Unbind_removes spec r r' :
  registry_keyed r → spec_named spec → Registry_Unbind spec r = Ok r' →
  registry_keyed r' ∧
  reg_queues r' = reg_queues r ∧ rt_exchanges (reg_routing r') = rt_exchanges (reg_routing r) ∧
  ∀ n x, x ∈ slice_at (rt_bindings (reg_routing r')) n ↔
         x ∈ slice_at (rt_bindings (reg_routing r)) n ∧ b_Spec x ≠ spec.
Proof.
  intros Hok Hn Hd. unfold Registry_Unbind, unbind in Hd. apply result_bind_Ok in Hd as (t & Hd & [= <-]).
  set (bs := slice_at (rt_bindings (reg_routing r)) (bs_Exchange spec)) in *.
  pose proof (rk_keys _ Hok (bs_Exchange spec)) as Hnd. fold bs in Hnd.
  destruct (binding_index _ bs) as [i|] eqn:Hi; simplify_eq.
  apply binding_index_Some in Hi as (b0 & Heq & Hkey).
  assert (∀ n x, x ∈ slice_at (<[bs_Exchange spec := take i bs ++ drop (i + 1) bs]> (rt_bindings (reg_routing r))) n →
    x ∈ slice_at (rt_bindings (reg_routing r)) n) as Hsub.
  { intros n x. rewrite slice_at_insert. case_decide as He; [|done]. subst n. fold bs. rewrite Heq at 3. set_solver. }
  split_and!; [|done..|].
  { destruct Hok. split; simpl; try done; [|intros n x Hx; by apply rk_bindings0, Hsub].
    intros n. rewrite slice_at_insert. case_decide; [|apply rk_keys0].
    eapply sublist_NoDup; [exact Hnd|]. apply fmap_sublist. rewrite Heq at 3. apply sublist_app; [done|].
    by apply sublist_cons. }
  assert (∀ x m, x ∈ slice_at (rt_bindings (reg_routing r)) m →
    Binding_key x = BindingSpec_key spec ↔ b_Spec x = spec) as Hsame.
  { intros x m Hx. destruct (rk_bindings _ Hok _ _ Hx) as (_ & Hv). split.
    - by apply named_key_inj.
    - unfold Binding_key. by intros ->. }
  intros n x. cbn. rewrite slice_at_insert. case_decide as He; last first.
  { split; [|naive_solver]. intros Hx. split; [done|]. intros <-. apply He.
    by destruct (rk_bindings _ Hok _ _ Hx) as [? _]. }
  subst n. fold bs. pose proof (Hsame x (bs_Exchange spec)) as Hsame'. fold bs in Hsame'.
  rewrite Heq, fmap_app, fmap_cons in Hnd. apply NoDup_app in Hnd as (_ & Hd1 & [Hd2 _]%NoDup_cons).
  assert (x ∈ bs ↔ x ∈ take i bs ∨ x = b0 ∨ x ∈ drop (i + 1) bs) as Hsplit.
  { rewrite Heq at 1. rewrite elem_of_app, elem_of_cons. done. }
  rewrite elem_of_app. split.
  - intros Hx. assert (x ∈ bs) as Hin by naive_solver. split; [done|]. rewrite <-Hsame' by done. rewrite <-Hkey.
    intros E. destruct Hx as [Hx|Hx].
    + apply (Hd1 (Binding_key x)); [by apply list_elem_of_fmap_2|]. rewrite E. set_solver.
    + apply Hd2. rewrite <-E. by apply list_elem_of_fmap_2.
  - intros [Hin Hne]. apply Hsplit in Hin as Hcase. destruct Hcase as [?|[->|?]]; [by left| |by right].
    destruct Hne. by apply Hsame'.
Qed.

(** * The store follows the registry *)

Section restart.
Context {S : Type} `{TopologyStore S}.

Abbreviation kept_queue := (keep_timeout ts_kept).

(** What the store is to hold of a registry. *)
Definition durable_part (r : Registry) (B : gset Binding) : topology :=
  mkTopo (filter ex_is_durable (rt_exchanges (reg_routing r)))
         (kept_queue <$> filter q_is_durable (reg_queues r)) B.

Record synced (r : Registry) (s : S) : Prop := {
  sy_registry : registry_keyed r;
  sy_ok : ts_ok s;
  sy_exchange_times : ∀ n x, rt_exchanges (reg_routing r) !! n = Some x → ts_time (ex_CreatedAt x);
  sy_queue_times : ∀ n q, reg_queues r !! n = Some q →
    ts_time (q_CreatedAt q) ∧ ts_duration (q_VisibilityTimeout q);
  sy_binding_times : ∀ n b, b ∈ slice_at (rt_bindings (reg_routing r)) n → ts_time (b_CreatedAt b);
  sy_view : ts_view s = durable_part r (tp_bindings (ts_view s));
  sy_bindings : ∀ b, b ∈ tp_bindings (ts_view s) ↔
    b ∈ slice_at (rt_bindings (reg_routing r)) (b_Exchange b);
}.

Lemma synced_exchanges r s : synced r s →
  tp_exchanges (ts_view s) = filter ex_is_durable (rt_exchanges (reg_routing r)).
Proof. intros Hs. by rewrite (sy_view _ _ Hs). Qed.
Lemma synced_queues r s : synced r s →
  tp_queues (ts_view s) = kept_queue <$> filter q_is_durable (reg_queues r).
Proof. intros Hs. by rewrite (sy_view _ _ Hs). Qed.

Lemma synced_new s : ts_ok s → ts_view s = no_topology → synced NewRegistry s.
Proof.
  intros Hok Hv. split; [apply registry_ok_keyed, NewRegistry_ok|done|..].
  - intros n x Hx. simpl in Hx. by rewrite lookup_empty in Hx.
  - intros n q Hq. simpl in Hq. by rewrite lookup_empty in Hq.
  - intros n b Hb. unfold slice_at in Hb. simpl in Hb. rewrite lookup_empty in Hb. set_solver.
  - rewrite Hv. unfold durable_part, no_topology. simpl. by rewrite !map_filter_empty, fmap_empty.
  - intros b. rewrite Hv. unfold slice_at. simpl. rewrite lookup_empty. set_solver.
Qed.

(** A declaration that the registry accepts is stored, and the two stay in step. *)
Lemma DeclareExchange_runs spec now e x r :
  synced (e_registry e) (e_store e) → ts_time now →
  Registry_DeclareExchange spec now (e_registry e) = Ok (x, r) →
  ∃ s', Engine_DeclareExchange spec now e = (put_store s' (put_registry r e), Ok x) ∧ synced r s'.
Proof.
  intros Hs Hnow Hd. unfold Engine_DeclareExchange, registry_do. rewrite bind_eq, Hd, bind_eq.
  destruct (DeclareExchange_adds _ _ _ _ _ (sy_registry _ _ Hs) Hd) as (Hok & Hq & Hb & He & _ & Hwas).
  assert (ts_time (ex_CreatedAt x)) as Hx.
  { destruct Hwas as [[_ ->]|Hold]; [done|]. by eapply (sy_exchange_times _ _ Hs). }
  assert (rt_exchanges (reg_routing (e_registry e)) !! ex_Name x = None ∨
          rt_exchanges (reg_routing (e_registry e)) !! ex_Name x = Some x) as Hwas' by naive_solver.
  assert (∀ n y, rt_exchanges (reg_routing r) !! n = Some y → ts_time (ex_CreatedAt y)) as Htimes.
  { intros n y. rewrite He, lookup_insert. case_decide; [by intros [= <-]|apply (sy_exchange_times _ _ Hs)]. }
  destruct (ex_Durable x) eqn:Hdur.
  - destruct (ts_SaveExchange x (e_store e)) as (s' & Heq & Hok' & Hv'); [apply Hs|done| |].
    { rewrite (synced_exchanges _ _ Hs). by apply unchanged_filter. }
    exists s'. unfold on_store. simpl. rewrite Heq. split; [done|].
    destruct Hs. split; rewrite ?Hv', ?Hq, ?Hb; try done.
    simpl. rewrite sy_view0. unfold durable_part. simpl. rewrite He, Hq. f_equal.
    by rewrite filter_upsert, decide_True.
  - exists (e_store e). split; [by destruct e|]. destruct Hs. split; rewrite ?Hq, ?Hb; try done.
    rewrite sy_view0 at 1. unfold durable_part. rewrite He, Hq. f_equal.
    rewrite filter_upsert, decide_False; [done| |done]. unfold ex_is_durable. simpl. congruence.
Qed.

Lemma DeclareQueue_runs spec now e q r :
  synced (e_registry e) (e_store e) → ts_time now →
  ts_duration (qs_VisibilityTimeout (QueueSpec_withDefaults spec)) →
  Registry_DeclareQueue spec now (e_registry e) = Ok (q, r) →
  ∃ s', Engine_DeclareQueue spec now e = (put_store s' (put_registry r e), Ok q) ∧ synced r s'.
Proof.
  intros Hs Hnow Hdur Hd. unfold Engine_DeclareQueue, registry_do. rewrite bind_eq, Hd, bind_eq.
  destruct (DeclareQueue_adds _ _ _ _ _ (sy_registry _ _ Hs) Hd) as (Hok & Hr & Hq & Hspec & Hwas).
  assert (ts_time (q_CreatedAt q) ∧ ts_duration (q_VisibilityTimeout q)) as Hqt.
  { destruct Hwas as [[_ ->]|Hold]; [|by eapply (sy_queue_times _ _ Hs)].
    split; [done|]. unfold q_VisibilityTimeout. by rewrite Hspec. }
  assert (reg_queues (e_registry e) !! q_Name q = None ∨ reg_queues (e_registry e) !! q_Name q = Some q)
    as Hwas' by naive_solver.
  assert (∀ n y, reg_queues r !! n = Some y → ts_time (q_CreatedAt y) ∧ ts_duration (q_VisibilityTimeout y))
    as Htimes.
  { intros n y. rewrite Hq, lookup_insert. case_decide; [by intros [= <-]|apply (sy_queue_times _ _ Hs)]. }
  destruct (q_Durable q) eqn:Hdurable.
  - destruct (ts_SaveQueue q (e_store e)) as (s' & Heq & Hok' & Hv'); [apply Hs|apply Hqt|apply Hqt| |].
    { rewrite (synced_queues _ _ Hs). unfold unchanged. rewrite lookup_fmap.
      destruct (unchanged_filter q_is_durable (reg_queues (e_registry e)) (q_Name q) q Hwas') as [-> | ->]; auto. }
    exists s'. unfold on_store. simpl. rewrite Heq. split; [done|].
    destruct Hs. split; rewrite ?Hv', ?Hr; try done.
    simpl. rewrite sy_view0. unfold durable_part. simpl. rewrite Hq, Hr. f_equal.
    by rewrite filter_upsert, decide_True, fmap_insert.
  - exists (e_store e). split; [by destruct e|]. destruct Hs. split; rewrite ?Hr; try done.
    rewrite sy_view0 at 1. unfold durable_part. rewrite Hq, Hr. do 2 f_equal.
    rewrite filter_upsert, decide_False; [done| |done]. unfold q_is_durable. simpl. congruence.
Qed.

Lemma Bind_runs spec now e b r :
  synced (e_registry e) (e_store e) → ts_time now →
  Registry_Bind spec now (e_registry e) = Ok (b, r) →
  ∃ s', Engine_Bind spec now e = (put_store s' (put_registry r e), Ok b) ∧ synced r s'.
Proof.
  intros Hs Hnow Hd. unfold Engine_Bind, registry_do. rewrite bind_eq, Hd, bind_eq.
  destruct (Bind_adds _ _ _ _ _ (sy_registry _ _ Hs) Hd) as (Hok & Hq & He & Hspec & Hn & Hin & Hwas).
  assert (ts_time (b_CreatedAt b)) as Hb.
  { destruct Hwas as [->|Hold]; [done|]. by eapply (sy_binding_times _ _ Hs). }
  assert (b ∈ slice_at (rt_bindings (reg_routing r)) (bs_Exchange spec)) as Hbin by (apply Hin; by right).
  destruct (ts_SaveBinding b (e_store e)) as (s' & Heq & Hok' & Hv'); [apply Hs|done|by rewrite Hspec| |].
  { intros b' Hb' Hsame. apply (sy_bindings _ _ Hs) in Hb'.
    assert (b_Exchange b' = bs_Exchange spec) as Hx by (unfold b_Exchange; by rewrite Hsame, Hspec).
    rewrite Hx in Hb'. assert (b' ∈ slice_at (rt_bindings (reg_routing r)) (bs_Exchange spec)) as Hb''
      by (apply Hin; by left).
    pose proof (rk_keys _ Hok (bs_Exchange spec)) as Hnd.
    apply list_elem_of_lookup in Hb'' as [i Hi]. apply list_elem_of_lookup in Hbin as [j Hj].
    assert (i = j) as ->; [|congruence]. eapply NoDup_lookup; [exact Hnd|..]; rewrite list_lookup_fmap;
      [by rewrite Hi|rewrite Hj; simpl; unfold Binding_key; by rewrite Hsame]. }
  exists s'. unfold on_store. simpl. rewrite Heq. split; [done|]. destruct Hs.
  split; rewrite ?Hv', ?Hq, ?He; try done.
  - intros n x Hx. apply Hin in Hx as [Hx|[-> _]]; [by eapply sy_binding_times0|done].
  - simpl. rewrite sy_view0. unfold durable_part. simpl. by rewrite Hq, He.
  - intros x. simpl. rewrite elem_of_union, elem_of_singleton, sy_bindings0, Hin. split; [|naive_solver].
    intros [->|?]; [|by left]. right. split; [done|]. unfold b_Exchange. by rewrite Hspec.
Qed.

Lemma Unbind_synced spec e :
  synced (e_registry e) (e_store e) → spec_named spec →
  let e' := (Engine_Unbind spec e).1 in synced (e_registry e') (e_store e').
Proof.
  intros Hs Hn. unfold Engine_Unbind. cbv zeta. rewrite bind_eq. unfold registry_forget, registry_do.
  destruct (Registry_Unbind spec (e_registry e)) as [r|] eqn:Hd; [|done]. simpl.
  destruct (Unbind_removes _ _ _ (sy_registry _ _ Hs) Hn Hd) as (Hok & Hq & He & Hin).
  destruct (ts_DeleteBinding spec (e_store e)) as (s' & res & Heq & Hok' & Hv' & Hres); [apply Hs|done|].
  assert (synced r s') as Hdone.
  { destruct Hs. split; rewrite ?Hv', ?Hq, ?He; try done.
    - intros n x [Hx _]%Hin. by eapply sy_binding_times0.
    - simpl. rewrite sy_view0. unfold durable_part. simpl. by rewrite Hq, He.
    - intros x. simpl. rewrite elem_of_filter, sy_bindings0, Hin. naive_solver. }
  unfold ignore_missing. rewrite bind_eq. unfold attempting, on_store. simpl. rewrite Heq. simpl.
  by destruct Hres as [-> | ->].
Qed.

Lemma DeleteQueue_synced name e :
  synced (e_registry e) (e_store e) →
  let e' := (Engine_DeleteQueue name e).1 in synced (e_registry e') (e_store e').
Proof.
  intros Hs. unfold Engine_DeleteQueue. cbv zeta. rewrite bind_eq. unfold registry_forget, registry_do.
  destruct (Registry_DeleteQueue name (e_registry e)) as [r|] eqn:Hd; [|done]. simpl.
  destruct (ts_DeleteQueue name (e_store e)) as (s' & res & Heq & Hok' & Hv' & Hres); [apply Hs|].
  assert (synced r s') as Hdone.
  { unfold Registry_DeleteQueue in Hd. destruct (reg_queues (e_registry e) !! name) as [q|] eqn:Hq; [|done].
    case_bool_decide; [done|]. simplify_eq. destruct Hs. split; rewrite ?Hv'; try done.
    - destruct sy_registry0. split; try done. intros n q' Hn. simpl in Hn.
      apply lookup_delete_Some in Hn as [_ Hn]. by apply rk_queues0.
    - intros n q' Hn. simpl in Hn. apply lookup_delete_Some in Hn as [_ Hn]. by eapply sy_queue_times0.
    - simpl. rewrite sy_view0. unfold durable_part. simpl. f_equal.
      by rewrite map_filter_delete, fmap_delete. }
  unfold ignore_missing. rewrite bind_eq. unfold attempting, on_store. simpl. rewrite Heq. simpl.
  by destruct Hres as [-> | ->].
Qed.

(** * Operations on the topology *)

Inductive topo_op :=
| TopoDeclareExchange (spec : ExchangeSpec) (now : Time)
| TopoDeclareQueue (spec : QueueSpec) (now : Time)
| TopoBind (spec : BindingSpec) (now : Time)
| TopoUnbind (spec : BindingSpec)
| TopoDeleteQueue (name : string).

Definition run_topo (op : topo_op) (e : Engine S) : Engine S :=
  match op with
  | TopoDeclareExchange spec now => (Engine_DeclareExchange spec now e).1
  | TopoDeclareQueue spec now => (Engine_DeclareQueue spec now e).1
  | TopoBind spec now => (Engine_Bind spec now e).1
  | TopoUnbind spec => (Engine_Unbind spec e).1
  | TopoDeleteQueue name => (Engine_DeleteQueue name e).1
  end.

(** Times and timeouts are ones the store can keep, and a binding to be removed
    is named without a NUL. *)
Definition op_keepable (op : topo_op) : Prop :=
  match op with
  | TopoDeclareExchange _ now | TopoBind _ now => ts_time now
  | TopoDeclareQueue spec now =>
      ts_time now ∧ ts_duration (qs_VisibilityTimeout (QueueSpec_withDefaults spec))
  | TopoUnbind spec => spec_named spec
  | TopoDeleteQueue _ => True
  end.

(** An engine on a store, and the engine of a new process after [Restore]. *)
Definition engine_on (s : S) : Engine S := mkEngine s NewRegistry ∅ ∅ false [] 0 0 0 0.
Definition restarted (e : Engine S) : Engine S := (Engine_Restore (engine_on (e_store e))).1.

Lemma run_topo_synced ops e :
  Forall op_keepable ops → synced (e_registry e) (e_store e) →
  synced (e_registry (foldl (fun e op => run_topo op e) e ops))
         (e_store (foldl (fun e op => run_topo op e) e ops)).
Proof.
  intros Hops. revert e. induction Hops as [|op ops Hop Hops IH]; intros e Hs; [done|]. simpl. apply IH.
  destruct op as [spec now|spec now|spec now|spec|name]; simpl in *;
    [| | |by apply Unbind_synced|by apply DeleteQueue_synced].
  - destruct (Registry_DeclareExchange spec now (e_registry e)) as [[x r]|err] eqn:Hd.
    + by destruct (DeclareExchange_runs _ _ _ _ _ Hs Hop Hd) as (s' & -> & Hs').
    + unfold Engine_DeclareExchange, registry_do. by rewrite bind_eq, Hd.
  - destruct Hop as [Hnow Hdur]. destruct (Registry_DeclareQueue spec now (e_registry e)) as [[q r]|err] eqn:Hd.
    + by destruct (DeclareQueue_runs _ _ _ _ _ Hs Hnow Hdur Hd) as (s' & -> & Hs').
    + unfold Engine_DeclareQueue, registry_do. by rewrite bind_eq, Hd.
  - destruct (Registry_Bind spec now (e_registry e)) as [[b r]|err] eqn:Hd.
    + by destruct (Bind_runs _ _ _ _ _ Hs Hop Hd) as (s' & -> & Hs').
    + unfold Engine_Bind, registry_do. by rewrite bind_eq, Hd.
Qed.

(** * The restored registry *)

Lemma Restore_runs s :
  ts_ok s →
  ∃ e xs qs bs, Engine_Restore (engine_on s) = (e, Ok tt) ∧ ts_ok (e_store e) ∧ ts_view (e_store e) = ts_view s ∧
    lists ex_Name (tp_exchanges (ts_view s)) xs ∧ lists q_Name (tp_queues (ts_view s)) qs ∧
    NoDup bs ∧ (∀ b, b ∈ bs ↔ b ∈ tp_bindings (ts_view s)) ∧ e_registry e = Registry_Restore xs qs bs NewRegistry.
Proof.
  intros Hok. destruct (ts_Exchanges s Hok) as (s1 & xs & E1 & Hok1 & V1 & L1).
  destruct (ts_Queues s1 Hok1) as (s2 & qs & E2 & Hok2 & V2 & L2).
  destruct (ts_Bindings s2 Hok2) as (s3 & bs & E3 & Hok3 & V3 & N3 & L3).
  rewrite V1 in L2. rewrite V2, V1 in L3. unfold Engine_Restore, wrapping, attempting, on_store.
  unfold mbind, prog_bind, put_store, mret, prog_ret. simpl. rewrite E1. simpl. rewrite E2. simpl. rewrite E3. simpl.
  eexists _, xs, qs, bs. split_and!; [done|done|simpl; congruence|done..].
Qed.

Lemma restored_registry e :
  synced (e_registry e) (e_store e) →
  let r := e_registry e in
  let r' := e_registry (restarted e) in
  rt_exchanges (reg_routing r') = filter ex_is_durable (rt_exchanges (reg_routing r)) ∧
  reg_queues r' = kept_queue <$> filter q_is_durable (reg_queues r) ∧
  ∀ n b, b ∈ slice_at (rt_bindings (reg_routing r')) n ↔ b ∈ slice_at (rt_bindings (reg_routing r)) n.
Proof.
  intros Hs r r'. subst r r'. unfold restarted.
  destruct (Restore_runs (e_store e)) as (e' & xs & qs & bs & -> & _ & _ & Lx & Lq & _ & Lb & Hr); [apply Hs|].
  cbn [fst]. rewrite Hr. rewrite (synced_exchanges _ _ Hs) in Lx. rewrite (synced_queues _ _ Hs) in Lq.
  unfold Registry_Restore. cbn. split_and!.
  - apply foldl_insert_lists; [|done]. intros k x [Hk _]%map_lookup_filter_Some.
    by apply (rk_exchanges _ (sy_registry _ _ Hs)).
  - apply foldl_insert_lists; [|done]. intros k x. rewrite lookup_fmap.
    destruct (filter q_is_durable (reg_queues (e_registry e)) !! k) as [q|] eqn:Hq; [|done]. intros [= <-].
    apply map_lookup_filter_Some in Hq as [Hq _]. exact (rk_queues _ (sy_registry _ _ Hs) _ _ Hq).
  - intros n b. rewrite slice_at_grouped. rewrite Lb, (sy_bindings _ _ Hs).
    unfold slice_at at 1. rewrite lookup_empty. split.
    + intros [Hin|[Hin <-]]; [set_solver|done].
    + intros Hin. right. by destruct (rk_bindings _ (sy_registry _ _ Hs) _ _ Hin) as [-> _].
Qed.

(** The restored registry and the store are in step again. *)
Lemma restored_synced e :
  synced (e_registry e) (e_store e) → synced (e_registry (restarted e)) (e_store (restarted e)).
Proof.
  intros Hs. destruct (restored_registry e Hs) as (Hx & Hq & Hb).
  destruct (Restore_runs (e_store e)) as (e' & xs & qs & bs & E & Hok & Hv & _ & _ & Hnd & Hbs & Hr); [apply Hs|].
  assert (restarted e = e') as He by (unfold restarted; by rewrite E). rewrite He in *. destruct Hs.
  split; rewrite ?Hx, ?Hq, ?Hv; try done.
  - split; rewrite ?Hx, ?Hq.
    + intros n x [Hn _]%map_lookup_filter_Some. by apply (rk_exchanges _ sy_registry0).
    + intros n q. rewrite lookup_fmap. destruct (filter q_is_durable _ !! n) as [q0|] eqn:Hq0; [|done].
      intros [= <-]. apply map_lookup_filter_Some in Hq0 as [Hq0 _]. exact (rk_queues _ sy_registry0 _ _ Hq0).
    + intros n. rewrite Hr. simpl. rewrite slice_at_grouped_filter. unfold slice_at. rewrite lookup_empty. simpl.
      apply NoDup_fmap_2_strong; [|by apply NoDup_filter].
      intros b1 b2 [Hn1 H1]%list_elem_of_filter [Hn2 H2]%list_elem_of_filter Hkey.
      apply Hbs, sy_bindings0 in H1. apply Hbs, sy_bindings0 in H2. rewrite Hn1 in H1. rewrite Hn2 in H2.
      apply list_elem_of_lookup in H1 as [i Hi]. apply list_elem_of_lookup in H2 as [j Hj].
      assert (i = j) as ->; [|congruence]. eapply NoDup_lookup; [apply (rk_keys _ sy_registry0 n)|..];
        rewrite list_lookup_fmap; [by rewrite Hi|by rewrite Hj; simpl; rewrite Hkey].
    + intros n b Hin%Hb. by apply (rk_bindings _ sy_registry0).
  - intros n x [Hn _]%map_lookup_filter_Some. by eapply sy_exchange_times0.
  - intros n q. rewrite lookup_fmap. destruct (filter q_is_durable _ !! n) as [q0|] eqn:Hq0; [|done].
    intros [= <-]. apply map_lookup_filter_Some in Hq0 as [Hq0 _]. destruct (sy_queue_times0 _ _ Hq0) as [Ht Hd].
    split; [done|]. by apply ts_kept_ok.
  - intros n b Hin%Hb. by eapply sy_binding_times0.
  - rewrite sy_view0 at 1. unfold durable_part. rewrite Hx, Hq. f_equal.
    + apply map_eq. intros n. rewrite !map_lookup_filter. destruct (_ !! n) as [x|]; simpl; [|done].
      repeat (case_guard; simpl); done.
    + apply map_eq. intros n. rewrite !lookup_fmap, !map_lookup_filter, lookup_fmap, map_lookup_filter.
      destruct (reg_queues (e_registry e) !! n) as [q|] eqn:Hn; simpl; [|done].
      destruct (decide (q_is_durable (n, q))) as [Hd|Hd]; [|by rewrite option_guard_False].
      rewrite option_guard_True by done. simpl. rewrite option_guard_True by done. simpl. f_equal.
      destruct (sy_queue_times0 _ _ Hn) as [_ Hdur]. pose proof (proj2 (ts_kept_ok _ Hdur)) as Hidem.
      unfold keep_timeout, q_VisibilityTimeout in *. simpl. by rewrite Hidem.
  - intros b. rewrite Hb. apply sy_bindings0.
Qed.

(** Sorted lists of distinct names with the same members are equal. *)
Lemma sorted_names_eq l1 l2 :
  NoDup l1 → NoDup l2 → Sorted String.le l1 → Sorted String.le l2 → (∀ x, x ∈ l1 ↔ x ∈ l2) → l1 = l2.
Proof. intros ? ? ? ? Hin. apply (Sorted_unique String.le); [done..|]. by apply NoDup_Permutation. Qed.

Lemma Sorted_filter_le (P : string → Prop) `{∀ x, Decision (P x)} l :
  Sorted String.le l → Sorted String.le (filter P l).
Proof.
  intros Hs%(Sorted_StronglySorted _). apply StronglySorted_Sorted. induction Hs as [|x l _ IH Hx]; [constructor|].
  rewrite filter_cons. case_decide; [|done]. constructor; [done|]. rewrite Forall_forall in Hx |- *.
  intros y [_ Hy]%list_elem_of_filter. auto.
Qed.

Definition durable_queue (r : Registry) (name : string) : Prop :=
  match reg_queues r !! name with Some q => q_Durable q = true | None => False end.
#[export] Instance durable_queue_dec r name : Decision (durable_queue r name).
Proof. unfold durable_queue. destruct (reg_queues r !! name); apply _. Defined.

Lemma restored_route e ex key :
  synced (e_registry e) (e_store e) →
  let r := e_registry e in
  let r' := e_registry (restarted e) in
  route ex key (queueExistsLocked r') (reg_routing r') =
  filter (durable_queue r) (route ex key (queueExistsLocked r) (reg_routing r)).
Proof.
  intros Hs r r'. destruct (restored_registry e Hs) as (_ & Hq & Hb). fold r r' in Hq, Hb.
  destruct (route_spec ex key (queueExistsLocked r) (reg_routing r)) as (Hn & Hsort & Hin).
  destruct (route_spec ex key (queueExistsLocked r') (reg_routing r')) as (Hn' & Hsort' & Hin').
  apply sorted_names_eq; [done|by apply NoDup_filter|done|by apply Sorted_filter_le|].
  intros x. rewrite list_elem_of_filter, Hin, Hin'. unfold wanted.
  assert (queueExistsLocked r' x = true ↔ durable_queue r x) as Hx'.
  { unfold queueExistsLocked, durable_queue. rewrite bool_decide_eq_true, Hq, lookup_fmap, map_lookup_filter.
    destruct (reg_queues r !! x) as [q|]; simpl; [|split; [by intros []|done]].
    unfold q_is_durable. simpl. case_guard as Hd; simpl; split; try done. }
  assert (durable_queue r x → queueExistsLocked r x = true) as Hx.
  { unfold queueExistsLocked, durable_queue. intros Hd. apply bool_decide_eq_true.
    by destruct (reg_queues r !! x). }
  setoid_rewrite Hb. setoid_rewrite Hx'. split.
  - intros (b & ? & ? & Hd & ?). split; [done|]. exists b. auto.
  - intros (Hd & b & ? & ? & _ & ?). by exists b.
Qed.

(** The durable queues behind names, which are all registered. *)
Lemma omap_durable r (names : list string) :
  (∀ n, n ∈ names → is_Some (reg_queues r !! n)) →
  omap (fun n => (kept_queue <$> filter q_is_durable (reg_queues r)) !! n) (filter (durable_queue r) names) =
    kept_queue <$> filter (fun q => q_Durable q = true) (omap (fun n => reg_queues r !! n) names) ∧
  length (filter (durable_queue r) names) =
    length (filter (fun q => q_Durable q = true) (omap (fun n => reg_queues r !! n) names)).
Proof.
  induction names as [|n names IH]; intros Hall; [done|].
  destruct IH as [IH1 IH2]; [intros; apply Hall; set_solver|].
  destruct (Hall n) as [q Hq]; [set_solver|]. rewrite filter_cons. simpl. rewrite Hq, filter_cons.
  destruct (decide (q_Durable q = true)) as [Hd|Hd].
  - rewrite decide_True by (unfold durable_queue; by rewrite Hq). simpl. rewrite lookup_fmap.
    rewrite (proj2 (map_lookup_filter_Some q_is_durable (reg_queues r) n q)) by done.
    split; [cbn; f_equal; exact IH1|f_equal; exact IH2].
  - rewrite decide_False by (unfold durable_queue; by rewrite Hq). done.
Qed.

Lemma restored_exchange e name ex :
  synced (e_registry e) (e_store e) →
  rt_exchanges (reg_routing (e_registry e)) !! name = Some ex →
  rt_exchanges (reg_routing (e_registry (restarted e))) !! name = if ex_Durable ex then Some ex else None.
Proof.
  intros Hs Hex. destruct (restored_registry e Hs) as (-> & _ & _). destruct (ex_Durable ex) eqn:Hd.
  - by apply map_lookup_filter_Some.
  - apply map_lookup_filter_None. right. intros x Hx. simplify_eq. unfold ex_is_durable. simpl. congruence.
Qed.

(** * Properties *)

End restart.

(** The key of a binding joins its parts with NUL: where a routing key has a NUL
    in it, a specification that names no queue there is can have the key of
    somebody's binding.  [Unbind] then removes that binding from the registry;
    the SQLite store, which compares the three columns, keeps it, so that it
    comes back with the next start. *)
Module AmbiguousKey.
Definition nul : string := String (ascii_of_N 0) "".
Definition db : Db := mkDb false empty_tables 0 (fun _ => None).
Definition bound : Engine Db := foldl (fun e op => run_topo op e) (engine_on db) [
  TopoDeclareExchange (mkExchangeSpec "events" ExchangeDirect true) 1000;
  TopoDeclareQueue (mkQueueSpec "orders" true 3 (30 * second) "") 2000;
  TopoBind (mkBindingSpec "events" "orders" ("eu" +:+ nul +:+ "new")) 3000].
Definition other : BindingSpec := mkBindingSpec "events" ("orders" +:+ nul +:+ "eu") "new".
Definition reach (e : Engine Db) : bool := is_ok (Registry_Route "events" ("eu" +:+ nul +:+ "new") (e_registry e)).

Theorem unbind_of_another_key :
  let e := (Engine_Unbind other bound).1 in
  (Engine_Unbind other bound).2 = Ok tt ∧ reach bound = true ∧ reach e = false ∧ reach (restarted e) = true.
Proof. vm_compute. auto. Qed.
End AmbiguousKey.

(** * Witness *)

Module RestartSamples.
Definition db : Db := mkDb false empty_tables 0 (fun _ => None).
Definition ops : list topo_op := [
  TopoDeclareExchange (mkExchangeSpec "erp.events" ExchangeTopic true) 1000;
  TopoDeclareQueue (mkQueueSpec "invoices" true 3 1500000 "") 2000;
  TopoDeclareQueue (mkQueueSpec "scratch" false 3 1500000 "") 2000;
  TopoBind (mkBindingSpec "erp.events" "invoices" "invoice.*") 3000;
  TopoBind (mkBindingSpec "erp.events" "scratch" "#") 3000;
  TopoBind (mkBindingSpec "erp.events" "invoices" "order.*") 3000;
  TopoUnbind (mkBindingSpec "erp.events" "invoices" "order.*")].
Definition before : Engine Db := foldl (fun e op => run_topo op e) (engine_on db) ops.

Lemma ops_keepable : Forall (op_keepable (S := Db)) ops.
Proof.
  repeat constructor; vm_compute; try congruence; reflexivity.
Qed.
End RestartSamples.

