(* ===== verification/Schema.v ===== *)
(** The schema registry: [internal/schema] (registry.go, violation.go).

    Compiling a JSON schema and checking a document against it are the work of
    a third-party package (jsonschema); decoding the version header is the
    work of encoding/json.  Both are arguments of the definitions here, as is
    what a walk of the schema directory finds. *)

From S2P Require Import Prelude Errors.

(** * Violations *)

(** [*jsonschema.ValidationError]: where in the document, the text of the error
    kind, and the errors that caused it. *)
Inductive jsonschema_error :=
| JError (InstanceLocation : list string) (detail : string) (Causes : list jsonschema_error).

Definition instancePath (location : list string) : string :=
  match location with [] => "" | _ => "/" +:+ str_join "/" location end.

(** The order of the [sort.Slice] call: by path, then by detail. *)
Definition violation_le (x y : Violation) : Prop :=
  if decide (v_Path x = v_Path y) then String.le (v_Detail x) (v_Detail y)
  else String.le (v_Path x) (v_Path y).
#[export] Instance violation_le_dec : RelDecision violation_le.
Proof. intros x y. unfold violation_le. case_decide; apply _. Defined.

Definition sort_violations (l : list Violation) : list Violation := merge_sort violation_le l.

Fixpoint collectViolations (err : jsonschema_error) : list Violation :=
  match err with
  | JError location detail [] => [mkViolation (instancePath location) detail]
  | JError location detail causes => sort_violations (concat (map collectViolations causes))
  end.

(** * The registry *)

Record Definition_ := mkDefinition {
  df_Name : string;
  df_Version : Z;
  df_Title : string;
  df_Description : string;
  df_Source : string;
}.

Definition schemaFileSuffix : string := ".schema.json".

(** What the compiled schema's [Validate] returns when it is not nil. *)
Inductive check_error :=
| CheckFailed (err : jsonschema_error)
| CheckOther (err : error).

(** The packages the registry calls. *)
Record packages (json compiled : Type) := mkPackages {
  UnmarshalJSON : string → result error json;
  AddResource : string → json → result error unit;
  Compile : string → json → result error compiled;
  compiled_Title : compiled → string;
  compiled_Description : compiled → string;
  compiled_Validate : compiled → json → option check_error;
  unmarshal_version : string → result error Z;
}.
Arguments UnmarshalJSON {json compiled}. Arguments AddResource {json compiled}.
Arguments Compile {json compiled}. Arguments compiled_Title {json compiled}.
Arguments compiled_Description {json compiled}. Arguments compiled_Validate {json compiled}.
Arguments unmarshal_version {json compiled}.

Record entry (compiled : Type) := mkEntry { en_definition : Definition_; en_compiled : compiled }.
Arguments mkEntry {compiled}. Arguments en_definition {compiled}. Arguments en_compiled {compiled}.

(** One callback of [filepath.WalkDir]: the path, the name, whether it is a
    directory, the error the walk met, and what reading the file gives. *)
Record walk_entry := mkWalk {
  wk_path : string;
  wk_name : string;
  wk_IsDir : bool;
  wk_err : option error;
  wk_content : result error string;
}.

Section schema.
Context {json compiled : Type} (pk : packages json compiled).

(** [Registry.entries] *)
Abbreviation SchemaRegistry := (gmap string (entry compiled)).
Definition NewSchemaRegistry : SchemaRegistry := ∅.

Definition versionOf (document : string) : Z :=
  match unmarshal_version pk document with
  | Err _ => 1
  | Ok version => if (version <? 1)%Z then 1 else version
  end.

(** [fmt.Errorf(verb + name + ": %w", err)] *)
Definition wrapping_name {A} (verb name : string) (r : result error A) : result error A :=
  match r with Ok a => Ok a | Err err => Err (wrapError (verb +:+ name +:+ ": ") err "") end.

Definition Register (name document : string) : prog SchemaRegistry Definition_ := fun r =>
  match
    (if str_empty name then Err (errorString "schema: name is required") else Ok tt) ≫= fun _ =>
    wrapping_name "schema: parse " name (UnmarshalJSON pk document) ≫= fun decoded =>
    let resource := name +:+ schemaFileSuffix in
    wrapping_name "schema: add " name (AddResource pk resource decoded) ≫= fun _ =>
    wrapping_name "schema: compile " name (Compile pk resource decoded) ≫= fun schema =>
    Ok (mkEntry (mkDefinition name (versionOf document) (compiled_Title pk schema)
                   (compiled_Description pk schema) "") schema)
  with
  | Err err => (r, Err err)
  | Ok e => (<[name := e]> r, Ok (en_definition e))
  end.

Definition set_Source (path : string) (d : Definition_) : Definition_ :=
  mkDefinition (df_Name d) (df_Version d) (df_Title d) (df_Description d) path.

(** [strings.HasSuffix] and [strings.TrimSuffix] *)
Definition HasSuffix (s suffix : string) : bool :=
  bool_decide (String.length suffix ≤ String.length s) &&
  bool_decide (String.substring (String.length s - String.length suffix) (String.length suffix) s = suffix).
Definition TrimSuffix (s suffix : string) : string :=
  if HasSuffix s suffix then String.substring 0 (String.length s - String.length suffix) s else s.

(** The callback of the walk, over the entries in order. *)
Fixpoint load_loop (entries : list walk_entry) (loaded : list Definition_) :
    prog SchemaRegistry (list Definition_) :=
  match entries with
  | [] => mret loaded
  | w :: rest =>
      match wk_err w with
      | Some err => fails err
      | None =>
          if wk_IsDir w || negb (HasSuffix (wk_name w) schemaFileSuffix) then load_loop rest loaded
          else match wk_content w with
          | Err err => fails (wrapError ("schema: read " +:+ wk_path w +:+ ": ") err "")
          | Ok document =>
              definition ← Register (TrimSuffix (wk_name w) schemaFileSuffix) document;
              load_loop rest (loaded ++ [set_Source (wk_path w) definition])
          end
      end
  end.

Definition LoadDirectory (walk : list walk_entry) : prog SchemaRegistry (list Definition_) :=
  loaded ← load_loop walk [];
  mret (sort_by df_Name loaded).

Definition Definitions (r : SchemaRegistry) : list Definition_ :=
  sort_by df_Name ((fun '(_, e) => en_definition e) <$> map_to_list r).

Definition Has (name : string) (r : SchemaRegistry) : bool :=
  match r !! name with Some _ => true | None => false end.

Definition Validate (r : SchemaRegistry) (name payload : string) : result error unit :=
  if str_empty name then Ok tt else
  match r !! name with
  | None => Err (wrapError "" (OtherErr ErrSchemaNotFound) (": " +:+ name))
  | Some registered =>
      if str_empty payload
      then Err (ValidationError name [mkViolation "" (Error (OtherErr ErrEmptyPayload))])
      else match UnmarshalJSON pk payload with
      | Err _ => Err (ValidationError name [mkViolation "" "payload is not valid JSON"])
      | Ok document =>
          match compiled_Validate pk (en_compiled registered) document with
          | None => Ok tt
          | Some (CheckFailed err) => Err (ValidationError name (collectViolations err))
          | Some (CheckOther err) => Err err
          end
      end
  end.
End schema.
