(* ===== verification/SchemaProofs.v ===== *)
(** What the schema registry promises, for any behaviour of the packages it
    calls. *)

From S2P Require Import Prelude Errors Schema.

(** * Reports of violations *)

Fixpoint jsonschema_error_nested_ind (P : jsonschema_error → Prop)
    (step : ∀ location detail causes, Forall P causes → P (JError location detail causes))
    (err : jsonschema_error) : P err :=
  match err with
  | JError location detail causes =>
      step location detail causes
        ((fix go l := match l return Forall P l with
                      | [] => Forall_nil_2 P
                      | e :: l => Forall_cons_2 P e l (jsonschema_error_nested_ind P step e) (go l)
                      end) causes)
  end.

(** The errors without causes, which are the ones to report. *)
Fixpoint leaves (err : jsonschema_error) : list Violation :=
  match err with
  | JError location detail [] => [mkViolation (instancePath location) detail]
  | JError location detail causes => concat (map leaves causes)
  end.

#[export] Instance violation_le_total : Total violation_le.
Proof.
  intros x y. unfold violation_le. destruct (decide (v_Path x = v_Path y)) as [He|Hn].
  - rewrite (decide_True _ _ (eq_sym He)). apply (total String.le).
  - rewrite decide_False by congruence. apply (total String.le).
Qed.
#[export] Instance violation_le_antisymm : AntiSymm (=) violation_le.
Proof.
  intros [px dx] [py dy]. unfold violation_le. simpl. destruct (decide (px = py)) as [->|Hn].
  - rewrite decide_True by done. intros. f_equal. by apply (anti_symm String.le).
  - rewrite decide_False by congruence. intros. destruct Hn. by apply (anti_symm String.le).
Qed.
#[export] Instance violation_le_trans : Transitive violation_le.
Proof.
  intros [px dx] [py dy] [pz dz]. unfold violation_le. simpl.
  destruct (decide (px = py)) as [->|Hxy], (decide (py = pz)) as [->|Hyz];
    rewrite ?decide_True by done; intros Hle1 Hle2; try (case_decide; [done|]); try done; try by etrans.
  case_decide as Hxz; [subst; destruct Hxy; by apply (anti_symm String.le)|by etrans].
Qed.

Lemma sort_violations_perm l : sort_violations l ≡ₚ l.
Proof. apply merge_sort_Permutation. Qed.
Lemma sort_violations_sorted l : Sorted violation_le (sort_violations l).
Proof. apply Sorted_merge_sort, _. Qed.

Lemma collect_leaves err : collectViolations err ≡ₚ leaves err.
Proof.
  induction err as [location detail causes IH] using jsonschema_error_nested_ind.
  destruct causes as [|c cs]; [done|].
  change (sort_violations (concat (map collectViolations (c :: cs))) ≡ₚ concat (map leaves (c :: cs))).
  rewrite sort_violations_perm. induction IH as [|x l Hx _ IHl]; [done|]. simpl. by rewrite Hx, IHl.
Qed.

Lemma collect_sorted err : Sorted violation_le (collectViolations err).
Proof.
  destruct err as [location detail [|c cs]]; [|apply sort_violations_sorted]. repeat constructor.
Qed.

Lemma leaves_not_nil err : leaves err ≠ [].
Proof.
  induction err as [location detail causes IH] using jsonschema_error_nested_ind.
  destruct causes as [|c cs]; [done|]. apply Forall_cons in IH as [Hc _]. simpl.
  by destruct (leaves c).
Qed.

(** * Registering *)

Section registry.
Context {json compiled : Type} (pk : packages json compiled).

(** The entry a successful [Register] stores. *)
Lemma Register_stores name document r r' d :
  Register pk name document r = (r', Ok d) →
  ∃ decoded schema, UnmarshalJSON pk document = Ok decoded ∧
    Compile pk (name +:+ schemaFileSuffix) decoded = Ok schema ∧ name ≠ "" ∧
    d = mkDefinition name (versionOf pk document) (compiled_Title pk schema)
          (compiled_Description pk schema) "" ∧
    r' = <[name := mkEntry d schema]> r.
Proof.
  unfold Register, wrapping_name. destruct name as [|c name]; simpl; [done|].
  destruct (UnmarshalJSON pk document) as [decoded|]; simpl; [|done].
  destruct (AddResource pk _ decoded); simpl; [|done].
  destruct (Compile pk _ decoded) as [schema|] eqn:Hc; simpl; [|done].
  intros [= <- <-]. exists decoded, schema. by split_and!.
Qed.

Lemma Register_fails name document r r' err :
  Register pk name document r = (r', Err err) → r' = r.
Proof. unfold Register. case_match; naive_solver. Qed.

Lemma versionOf_positive document : (1 ≤ versionOf pk document)%Z.
Proof. unfold versionOf. repeat case_match; lia. Qed.
End registry.

(** * Loading a directory *)

Section loading.
Context {json compiled : Type} (pk : packages json compiled).

(** The files [LoadDirectory] registers. *)
Definition is_schema_file (w : walk_entry) : bool :=
  negb (wk_IsDir w) && HasSuffix (wk_name w) schemaFileSuffix.
Definition schema_name (w : walk_entry) : string := TrimSuffix (wk_name w) schemaFileSuffix.

(** What was loaded so far: a definition per schema file, named and placed
    after it, its name registered. *)
Lemma load_loop_spec walk loaded r r' ds :
  load_loop pk walk loaded r = (r', Ok ds) →
  ∃ new, ds = loaded ++ new ∧
    Forall2 (fun w d => df_Name d = schema_name w ∧ df_Source d = wk_path w)
      (filter (fun w => is_schema_file w = true) walk) new ∧
    dom r' = dom r ∪ list_to_set (df_Name <$> new).
Proof.
  revert loaded r. induction walk as [|w walk IH]; intros loaded r.
  - intros [= <- <-]. exists []. rewrite app_nil_r. split_and!; [done|constructor|set_solver].
  - simpl. destruct (wk_err w) as [err|]; [done|]. rewrite filter_cons.
    assert (is_schema_file w = negb (wk_IsDir w || negb (HasSuffix (wk_name w) schemaFileSuffix))) as Hfile
      by (unfold is_schema_file; by destruct (wk_IsDir w), (HasSuffix _ _)).
    destruct (wk_IsDir w || negb (HasSuffix (wk_name w) schemaFileSuffix)) eqn:Hb.
    + rewrite decide_False by (by rewrite Hfile). apply IH.
    + rewrite decide_True by (by rewrite Hfile).
      destruct (wk_content w) as [document|]; [|done]. rewrite bind_eq.
      destruct (Register pk _ document r) as [r1 [d|]] eqn:Hreg; [|done].
      apply Register_stores in Hreg as (? & schema & _ & _ & _ & -> & ->).
      intros (new & -> & Hf & Hd)%IH. rewrite <-app_assoc. eexists (_ :: new). split; [done|].
      split; [by constructor|]. rewrite Hd, dom_insert_L. simpl. set_solver.
Qed.
End loading.

(** * Properties *)

(** The report of a failed check is canonical: it lists exactly the errors
    that have no further cause, with their paths, at least one, sorted by path
    and detail; two error trees with the same leaves give the same report,
    whatever the order in which the validator found them. *)
Theorem collectViolations_canonical err :
  collectViolations err ≡ₚ leaves err ∧ Sorted violation_le (collectViolations err) ∧
  collectViolations err ≠ [] ∧
  ∀ err', leaves err' ≡ₚ leaves err → collectViolations err' = collectViolations err.
Proof.
  split; [apply collect_leaves|]. split; [apply collect_sorted|]. split.
  - intros Hnil. apply (leaves_not_nil err), Permutation_nil_r. by rewrite <-(collect_leaves err), Hnil.
  - intros err' Hp. apply (Sorted_unique violation_le); [apply collect_sorted..|]. by rewrite !collect_leaves.
Qed.

(** A registered schema decides: after [Register] has succeeded for a name,
    a payload passes exactly when it is not empty, decodes, and the compiled
    schema accepts it; an empty or undecodable payload and a failed check are
    validation errors that name the schema and carry at least one violation;
    validation against every other name is as before.  The version recorded is
    at least one. *)
Theorem Register_Validate {json compiled} (pk : packages json compiled) name document r r' d :
  Register pk name document r = (r', Ok d) →
  Has name r' = true ∧ df_Name d = name ∧ (1 ≤ df_Version d)%Z ∧
  (∀ other payload, other ≠ name → Validate pk r' other payload = Validate pk r other payload) ∧
  ∃ decoded schema, UnmarshalJSON pk document = Ok decoded ∧
    Compile pk (name +:+ schemaFileSuffix) decoded = Ok schema ∧
  ∀ payload,
    (Validate pk r' name payload = Ok tt ↔
       payload ≠ "" ∧ ∃ doc, UnmarshalJSON pk payload = Ok doc ∧ compiled_Validate pk schema doc = None) ∧
    (∀ err, Validate pk r' name payload = Err err →
       (∃ vs, errors_As_Validation err = Some (name, vs) ∧ vs ≠ []) ∨
       ∃ doc, UnmarshalJSON pk payload = Ok doc ∧ compiled_Validate pk schema doc = Some (CheckOther err)).
Proof.
  intros (decoded & schema & Hu & Hc & Hne & -> & ->)%Register_stores.
  unfold Has, Validate. rewrite lookup_insert_eq. split_and!; [done..|apply versionOf_positive| |].
  { intros other payload Hother. by rewrite lookup_insert_ne. }
  exists decoded, schema. split_and!; [done..|]. intros payload.
  destruct name as [|c name]; [done|]. cbn [str_empty en_compiled].
  destruct payload as [|p payload]; cbn [str_empty].
  { split; [split; [done|by intros [? _]]|]. intros err [= <-]. left. eexists. by split. }
  destruct (UnmarshalJSON pk (String p payload)) as [doc|] eqn:Hp.
  2: { split; [split; [done|by intros (_ & ? & ? & _)]|]. intros err [= <-]. left. eexists. by split. }
  destruct (compiled_Validate pk schema doc) as [[e|e]|] eqn:Hv.
  - split; [split; [done|intros (_ & ? & ? & ?); congruence]|]. intros err [= <-]. left. eexists. split; [done|].
    intros Hnil. apply (leaves_not_nil e), Permutation_nil_r. by rewrite <-(collect_leaves e), Hnil.
  - split; [split; [done|intros (_ & ? & ? & ?); congruence]|]. intros err [= <-]. right. by exists doc.
  - split; [|done]. split; [|done]. intros _. split; [done|]. by exists doc.
Qed.

(** Loading a directory that succeeds registers every schema file of the
    walk and nothing else: one definition per file, with the file's name less
    the suffix and its path as the source, returned in name order, and the
    names registered afterwards are those of before and of the files. *)
Theorem LoadDirectory_correct {json compiled} (pk : packages json compiled) walk r r' ds :
  LoadDirectory pk walk r = (r', Ok ds) →
  Sorted (key_le df_Name) ds ∧
  (∃ loaded, ds ≡ₚ loaded ∧
     Forall2 (fun w d => df_Name d = schema_name w ∧ df_Source d = wk_path w)
       (filter (fun w => is_schema_file w = true) walk) loaded) ∧
  (∀ name, Has name r' = true ↔ Has name r = true ∨ name ∈ df_Name <$> ds).
Proof.
  unfold LoadDirectory. rewrite bind_eq.
  destruct (load_loop pk walk [] r) as [r1 [loaded|]] eqn:Hl; [|done]. intros [= <- <-].
  apply load_loop_spec in Hl as (new & -> & Hf & Hd). simpl. split; [apply sort_by_sorted|]. split.
  - exists new. by rewrite sort_by_perm.
  - intros name. rewrite sort_by_perm.
    assert (∀ q : gmap string (entry compiled), Has name q = true ↔ name ∈ dom q) as Hhas.
    { intros q. unfold Has. rewrite elem_of_dom. destruct (q !! name) as [x|]; split; try done. }
    rewrite !Hhas, Hd, elem_of_union, elem_of_list_to_set. done.
Qed.

(** * Witnesses *)

(** A validator whose documents are strings and whose schemas forbid a given
    document. *)
Module SchemaSamples.
Definition pk : packages string string :=
  mkPackages string string Ok (fun _ _ => Ok tt) (fun _ d => Ok d) (fun d => d) (fun _ => "")
    (fun forbidden doc =>
       if decide (doc = forbidden)
       then Some (CheckFailed (JError [] "" [JError ["total"] "is negative" []; JError ["id"] "is missing" []]))
       else None)
    (fun _ => Ok 3%Z).
Definition walk : list walk_entry :=
  [mkWalk "schemas" "schemas" true None (Ok "");
   mkWalk "schemas/order.schema.json" "order.schema.json" false None (Ok "bad");
   mkWalk "schemas/README.md" "README.md" false None (Ok "text");
   mkWalk "schemas/invoice.schema.json" "invoice.schema.json" false None (Ok "wrong")].
End SchemaSamples.

Lemma Register_Validate_witness :
  ∃ r' d, Register SchemaSamples.pk "order" "bad" NewSchemaRegistry = (r', Ok d) ∧
    (1 ≤ df_Version d)%Z ∧ Validate SchemaSamples.pk r' "order" "good" = Ok tt ∧
    Validate SchemaSamples.pk r' "order" "bad" =
      Err (ValidationError "order" [mkViolation "/id" "is missing"; mkViolation "/total" "is negative"]).
Proof.
  eexists _, _. split; [reflexivity|].
  destruct (Register_Validate SchemaSamples.pk "order" "bad" NewSchemaRegistry
    (Register SchemaSamples.pk "order" "bad" NewSchemaRegistry).1
    (mkDefinition "order" 3 "bad" "" "") eq_refl)
    as (_ & _ & Hv & _ & decoded & schema & Hu & Hc & Hok).
  split; [exact Hv|]. split; [|vm_compute; reflexivity]. injection Hu as <-. injection Hc as <-.
  apply (Hok "good"). split; [discriminate|]. exists "good". split; reflexivity.
Defined.

Lemma LoadDirectory_correct_witness :
  ∃ r' ds, LoadDirectory SchemaSamples.pk SchemaSamples.walk NewSchemaRegistry = (r', Ok ds) ∧
    Sorted (key_le df_Name) ds ∧ df_Name <$> ds = ["invoice"; "order"].
Proof.
  eexists _, _. split; [vm_compute; reflexivity|]. split; [|reflexivity].
  apply (LoadDirectory_correct SchemaSamples.pk SchemaSamples.walk NewSchemaRegistry
    (LoadDirectory SchemaSamples.pk SchemaSamples.walk NewSchemaRegistry).1).
  vm_compute. reflexivity.
Defined.
