(* ===== verification/App.v ===== *)
(** Assembling the broker: [internal/app] (app.go, topology.go).

    Go's [storage.Store] is an interface value: [AnyStore] is a store of either
    back end, with the methods of the one it holds.  The process keeps the
    store it opened, so that the paths on which [Build] fails can be asked
    whether they closed it.

    The file system, the directory walk and [sqlite.Open] (whose connection and
    migrations are in SqliteMigrate.v) are arguments.  [Run], the listener and the
    order in which [Shutdown] waits are in Brokerd.v. *)

From S2P Require Import Prelude Errors Message Broker Storage Float64 DurationText Retry Logging Config.
From S2P Require Import SqlConn Sqlite SqliteMigrate Memory Schema Engine.

Inductive AnyStore :=
| MemoryStore (s : Store)
| SqliteStore (db : Db).

(** A method call on the interface value. *)
Definition dispatch {A} (m : prog Store A) (q : prog Db A) : prog AnyStore A := fun s =>
  match s with
  | MemoryStore s => let '(s', r) := m s in (MemoryStore s', r)
  | SqliteStore db => let '(db', r) := q db in (SqliteStore db', r)
  end.

#[export] Instance AnyStore_ops : StoreOps AnyStore := {
  st_SaveExchange e := dispatch (st_SaveExchange e) (st_SaveExchange e);
  st_Exchanges := dispatch st_Exchanges st_Exchanges;
  st_SaveQueue q := dispatch (st_SaveQueue q) (st_SaveQueue q);
  st_Queues := dispatch st_Queues st_Queues;
  st_DeleteQueue n := dispatch (st_DeleteQueue n) (st_DeleteQueue n);
  st_SaveBinding b := dispatch (st_SaveBinding b) (st_SaveBinding b);
  st_Bindings := dispatch st_Bindings st_Bindings;
  st_DeleteBinding b := dispatch (st_DeleteBinding b) (st_DeleteBinding b);
  st_Append ms := dispatch (st_Append ms) (st_Append ms);
  st_Message id := dispatch (st_Message id) (st_Message id);
  st_Claim req := dispatch (st_Claim req) (st_Claim req);
  st_Acknowledge id t := dispatch (st_Acknowledge id t) (st_Acknowledge id t);
  st_ScheduleRetry req := dispatch (st_ScheduleRetry req) (st_ScheduleRetry req);
  st_Release id t := dispatch (st_Release id t) (st_Release id t);
  st_MarkDeadLettered id r t := dispatch (st_MarkDeadLettered id r t) (st_MarkDeadLettered id r t);
  st_ExpiredLeases t n := dispatch (st_ExpiredLeases t n) (st_ExpiredLeases t n);
  st_Depth q := dispatch (st_Depth q) (st_Depth q);
  st_Purge q := dispatch (st_Purge q) (st_Purge q);
  st_SaveDeadLetter f d := dispatch (st_SaveDeadLetter f d) (st_SaveDeadLetter f d);
  st_DeadLetters f := dispatch (st_DeadLetters f) (st_DeadLetters f);
  st_DeadLetter id := dispatch (st_DeadLetter id) (st_DeadLetter id);
  st_MarkDeadLetterReplayed id a t :=
    dispatch (st_MarkDeadLetterReplayed id a t) (st_MarkDeadLetterReplayed id a t);
  st_DeleteDeadLetter id := dispatch (st_DeleteDeadLetter id) (st_DeleteDeadLetter id);
  st_CountDeadLetters q := dispatch (st_CountDeadLetters q) (st_CountDeadLetters q);
  st_AppendHistory e := dispatch (st_AppendHistory e) (st_AppendHistory e);
  st_History id := dispatch (st_History id) (st_History id);
  st_Close := dispatch st_Close st_Close;
}.

(** * topology.go *)

Section topology.
Context {S : Type} `{StoreOps S}.

(** [fmt.Errorf("app: ...: %w", err)] *)
Definition naming {A} (prefix : string) (p : prog (Engine S) A) : prog (Engine S) A := fun e =>
  match p e with
  | (e', Err err) => (e', Err (wrapError prefix err ""))
  | ok => ok
  end.

Definition declared_exchange (d : config.ExchangeDeclaration) (now : Time) : prog (Engine S) unit :=
  kind ← naming ("app: exchange " +:+ config.ed_Name d +:+ ": ") (lift (ParseExchangeKind (config.ed_Kind d)));
  _ ← naming ("app: declare exchange " +:+ config.ed_Name d +:+ ": ")
        (Engine_DeclareExchange (mkExchangeSpec (config.ed_Name d) kind (config.ed_Durable d)) now);
  mret tt.

(** The specification a declaration stands for: the engine's settings are the
    defaults of a queue's. *)
Definition declared_spec (engine : config.Engine) (d : config.QueueDeclaration) : QueueSpec :=
  mkQueueSpec (config.qd_Name d) (config.qd_Durable d)
    (if (config.qd_MaxAttempts d =? 0)%Z then config.en_MaxAttempts engine else config.qd_MaxAttempts d)
    (if (config.qd_VisibilityTimeout d =? 0)%Z then config.en_VisibilityTimeout engine
     else config.qd_VisibilityTimeout d)
    (config.qd_Schema d).

Definition declared_queue (engine : config.Engine) (d : config.QueueDeclaration) (now : Time) :
    prog (Engine S) unit :=
  _ ← naming ("app: declare queue " +:+ config.qd_Name d +:+ ": ")
        (Engine_DeclareQueue (declared_spec engine d) now);
  mret tt.

Definition declared_binding (d : config.BindingDeclaration) (now : Time) : prog (Engine S) unit :=
  _ ← naming ("app: bind " +:+ config.bd_Exchange d +:+ " to " +:+ config.bd_Queue d +:+ ": ")
        (Engine_Bind (mkBindingSpec (config.bd_Exchange d) (config.bd_Queue d) (config.bd_RoutingKey d)) now);
  mret tt.

(** [now i] is the registry's clock at the [i]-th declaration of its kind. *)
Definition declareTopology (cfg : config.Config) (now : nat → Time) : prog (Engine S) unit :=
  let topology := config.c_Topology cfg in
  for_each (fun '(i, d) => declared_exchange d (now i)) (imap pair (config.tp_Exchanges topology)) ≫= fun _ =>
  for_each (fun '(i, d) => declared_queue (config.c_Engine cfg) d (now i))
    (imap pair (config.tp_Queues topology)) ≫= fun _ =>
  for_each (fun '(i, d) => declared_binding d (now i)) (imap pair (config.tp_Bindings topology)).
End topology.

(** * app.go *)

(** [filepath.Dir]: the directory of a path; it is an argument with [os.MkdirAll]. *)
Record file_system := mkFileSystem {
  fs_Dir : string → string;
  fs_MkdirAll : string → result error unit;
  (** [os.Stat] of the schema directory fails with [os.ErrNotExist]. *)
  fs_missing : string → bool;
  fs_walk : string → list walk_entry;
}.

Section build.
Context (fs : file_system).
Context (sqlite_Open : Options → result error Db).
Context {json compiled : Type} (pk : packages json compiled).
(** [%d] and [%.2f] *)
Context (fmt_int : Z → string) (fmt_float : float64 → string).

Definition openStore (cfg : config.Storage) : result error AnyStore :=
  if decide (config.sg_Driver cfg = "memory") then Ok (MemoryStore mem_New)
  else if decide (config.sg_Driver cfg = "sqlite") then
    let directory := fs_Dir fs (config.sg_DSN cfg) in
    (if negb (bool_decide (directory ∈ ["."; ""])) then
       match fs_MkdirAll fs directory with
       | Err err => Err (wrapError "app: create storage directory: " err "")
       | Ok _ => Ok tt
       end
     else Ok tt) ≫= fun _ =>
    db ← sqlite_Open (mkOptions (config.sg_DSN cfg) (config.sg_BusyTimeout cfg)
                        (config.sg_JournalMode cfg) (config.sg_Synchronous cfg) (config.sg_MaxOpenConns cfg));
    Ok (SqliteStore db)
  else Err (errorString ("app: unsupported storage driver " +:+ quote (config.sg_Driver cfg))).

Definition loadSchemas (directory : string) : result error (gmap string (entry compiled)) :=
  let registry := NewSchemaRegistry in
  if str_empty directory then Ok registry
  else if fs_missing fs directory then Ok registry
  else match LoadDirectory pk (fs_walk fs directory) registry with
  | (_, Err err) => Err err
  | (registry, Ok _) => Ok registry
  end.

Record Application := mkApplication {
  ap_Config : config.Config;
  ap_Engine : Engine AnyStore;
  ap_policy : Policy;
  ap_reclaimInterval : Duration;
  ap_Schemas : gmap string (entry compiled);
  ap_MaxBodyBytes : Z;
}.

(** What the process holds open: the store, once it is opened. *)
Abbreviation process := (option AnyStore).

(** [_ = store.Close(); return nil, err] *)
Definition close_and_fail {A} (s : AnyStore) (err : error) : process * result error A :=
  (Some (st_Close s).1, Err err).

Definition Build (cfg : config.Config) (version : string) (now : nat → Time) : prog process Application := fun p =>
  match logging.New (logging.mkOptions (config.lg_Level (config.c_Logging cfg))
          (config.lg_Format (config.c_Logging cfg)) "rabbitmq-lite" version) with
  | Err err => (p, Err err)
  | Ok _ =>
      match openStore (config.c_Storage cfg) with
      | Err err => (p, Err err)
      | Ok store =>
          match loadSchemas (config.c_Schemas cfg) with
          | Err err => close_and_fail store err
          | Ok schemas =>
              match Engine_New Duration_String fmt_int fmt_float (Some store) (config.RetryPolicy cfg)
                      (config.en_ReclaimInterval (config.c_Engine cfg)) with
              | Err err => close_and_fail store err
              | Ok (instance, policy, interval) =>
                  match (Engine_Restore ≫= fun _ => declareTopology cfg now) instance with
                  | (instance, Err err) => close_and_fail (e_store instance) err
                  | (instance, Ok _) =>
                      (Some (e_store instance),
                       Ok (mkApplication cfg instance policy interval schemas (config.MaxBodyBytes cfg)))
                  end
              end
          end
      end
  end.

(** [Shutdown]: [server] is what [http.Server.Shutdown] returns, [timed_out] the
    error of the context in [Engine.Shutdown]; the errors [errors.Join] gets. *)
Definition Shutdown (server timed_out : option error) (a : Application) : AnyStore * list error :=
  let failures := match server with None => [] | Some err => [wrapError "http server: " err ""] end in
  let '(e, r) := Engine_Shutdown timed_out (ap_Engine a) in
  let failures := failures ++ match r with Ok _ => [] | Err err => [wrapError "engine: " err ""] end in
  let '(s, r) := st_Close (e_store e) in
  (s, failures ++ match r with Ok _ => [] | Err err => [wrapError "storage: " err ""] end).

(** The grace period [Shutdown] gives both. *)
Definition shutdown_grace (cfg : config.Config) : Duration :=
  let timeout := config.sv_ShutdownTimeout (config.c_Server cfg) in
  if (timeout <=? 0)%Z then (20 * second)%Z else timeout.
End build.
