(* ===== verification/AppProofs.v ===== *)
(** The assembly of the broker: a configuration that loads is accepted by the
    components it configures, a topology that could be declared once can be
    declared again after a restart, and a failed start leaves no store open
    ([Config.v], [App.v]). *)

From S2P Require Import Prelude Errors TimeText Message Broker BrokerProofs Storage TopologyStore Float64.
From S2P Require Import DurationText DurationProofs Retry Logging Config SqlConn SqlConnProofs Sqlite SqliteTables.
From S2P Require Import SqliteTopology SqliteMigrate Memory MemoryTopology Schema Engine Restart App.

(** * Loops *)

Section loops.
Context {S A : Type} (f : A → prog S unit).

Lemma for_each_inv (P : list A → S → Prop) seen xs s s' :
  P seen s → (∀ seen x s1 s2, x ∈ xs → P seen s1 → f x s1 = (s2, Ok tt) → P (seen ++ [x]) s2) →
  for_each f xs s = (s', Ok tt) → P (seen ++ xs) s'.
Proof.
  revert seen s. induction xs as [|x xs IH]; intros seen s HP Hstep; simpl.
  - intros [= <-]. by rewrite app_nil_r.
  - rewrite bind_eq. destruct (f x s) as [s1 [[]|err]] eqn:E; [|done]. intros Hrest.
    replace (seen ++ x :: xs) with ((seen ++ [x]) ++ xs) by (by rewrite <-app_assoc).
    apply (IH _ s1); [|intros seen' y ? ? ?; apply Hstep; set_solver|done]. eapply Hstep; [set_solver|done..].
Qed.

Lemma for_each_runs (P : list A → S → Prop) seen xs s :
  P seen s → (∀ seen x s1, x ∈ xs → P seen s1 → ∃ s2, f x s1 = (s2, Ok tt) ∧ P (seen ++ [x]) s2) →
  ∃ s', for_each f xs s = (s', Ok tt) ∧ P (seen ++ xs) s'.
Proof.
  revert seen s. induction xs as [|x xs IH]; intros seen s HP Hstep; simpl.
  - exists s. by rewrite app_nil_r.
  - destruct (Hstep seen x s) as (s1 & E & HP1); [set_solver|done|].
    destruct (IH (seen ++ [x]) s1 HP1) as (s' & Hr & HP').
    { intros seen' y ? ?. apply Hstep. set_solver. }
    exists s'. rewrite bind_eq, E. split; [done|]. by rewrite <-app_assoc in HP'.
Qed.
End loops.

Lemma elem_of_imap_pair {A} (xs : list A) i x : (i, x) ∈ imap pair xs → x ∈ xs.
Proof.
  rewrite elem_of_lookup_imap. intros (j & y & [= -> ->] & Hj). by eapply list_elem_of_lookup_2.
Qed.

Lemma imap_pair_snd {A} (xs : list A) : (imap pair xs).*2 = xs.
Proof.
  apply list_eq. intros i. rewrite list_lookup_fmap, list_lookup_imap. by destruct (xs !! i).
Qed.

(** The loops of topology.go, with the clock read at each step. *)
Section indexed.
Context {S A : Type} (f : nat → A → prog S unit) (P : list A → S → Prop).
Abbreviation loop := (for_each (fun '(i, x) => f i x)).

Lemma loop_inv xs s s' :
  P [] s → (∀ i seen x s1 s2, x ∈ xs → P seen s1 → f i x s1 = (s2, Ok tt) → P (seen ++ [x]) s2) →
  loop (imap pair xs) s = (s', Ok tt) → P xs s'.
Proof.
  intros HP Hstep Hrun. rewrite <-(imap_pair_snd xs).
  refine (for_each_inv _ (fun seen => P seen.*2) [] (imap pair xs) s s' HP _ Hrun).
  intros seen [i x] s1 s2 Hx%elem_of_imap_pair HPs E. rewrite fmap_app. by eapply Hstep.
Qed.

Lemma loop_runs xs s :
  P [] s → (∀ i seen x s1, x ∈ xs → P seen s1 → ∃ s2, f i x s1 = (s2, Ok tt) ∧ P (seen ++ [x]) s2) →
  ∃ s', loop (imap pair xs) s = (s', Ok tt) ∧ P xs s'.
Proof.
  intros HP Hstep.
  destruct (for_each_runs (fun '(i, x) => f i x) (fun seen => P seen.*2) [] (imap pair xs) s HP) as (s' & E & HP').
  - intros seen [i x] s1 Hx%elem_of_imap_pair HPs. rewrite fmap_app. by apply Hstep.
  - exists s'. split; [done|]. simpl in HP'. by rewrite imap_pair_snd in HP'.
Qed.
End indexed.

(** * Declaring the topology *)

Section topology.
Context {S : Type} `{TopologyStore S}.
Implicit Types (r : Registry) (e : Engine S).

(** A declaration has its entry in a registry. *)
Definition exchange_in r (d : config.ExchangeDeclaration) : Prop :=
  ∃ kind x, ParseExchangeKind (config.ed_Kind d) = Ok kind ∧
    let spec := mkExchangeSpec (config.ed_Name d) kind (config.ed_Durable d) in
    ExchangeSpec_Validate spec = Ok tt ∧
    rt_exchanges (reg_routing r) !! config.ed_Name d = Some x ∧ ex_Spec x = spec.

Definition queue_in (engine : config.Engine) r (d : config.QueueDeclaration) : Prop :=
  ∃ q, let spec := QueueSpec_withDefaults (declared_spec engine d) in
    QueueSpec_Validate spec = Ok tt ∧ reg_queues r !! config.qd_Name d = Some q ∧ q_Spec q = spec.

Definition binding_spec (d : config.BindingDeclaration) : BindingSpec :=
  mkBindingSpec (config.bd_Exchange d) (config.bd_Queue d) (config.bd_RoutingKey d).

Definition binding_in r (d : config.BindingDeclaration) : Prop :=
  ∃ x, rt_exchanges (reg_routing r) !! config.bd_Exchange d = Some x ∧
    BindingSpec_Validate (binding_spec d) (ex_Kind x) = Ok tt ∧
    is_Some (reg_queues r !! config.bd_Queue d) ∧
    binding_spec d ∈ (b_Spec <$> slice_at (rt_bindings (reg_routing r)) (config.bd_Exchange d)).

(** Entries are only added. *)
Definition extends r r' : Prop :=
  (∀ n x, rt_exchanges (reg_routing r) !! n = Some x → rt_exchanges (reg_routing r') !! n = Some x) ∧
  (∀ n q, reg_queues r !! n = Some q → reg_queues r' !! n = Some q) ∧
  (∀ n b, b ∈ slice_at (rt_bindings (reg_routing r)) n → b ∈ slice_at (rt_bindings (reg_routing r')) n).

Lemma extends_refl r : extends r r.
Proof. by split_and!. Qed.
Lemma extends_trans r1 r2 r3 : extends r1 r2 → extends r2 r3 → extends r1 r3.
Proof. intros (? & ? & ?) (? & ? & ?). split_and!; eauto. Qed.

Lemma exchange_in_extends r r' d : extends r r' → exchange_in r d → exchange_in r' d.
Proof. intros (Hx & _) (kind & x & ? & ? & ? & ?). exists kind, x. eauto. Qed.
Lemma queue_in_extends en r r' d : extends r r' → queue_in en r d → queue_in en r' d.
Proof. intros (_ & Hq & _) (q & ? & ? & ?). exists q. eauto. Qed.
Lemma binding_in_extends r r' d : extends r r' → binding_in r d → binding_in r' d.
Proof.
  intros (Hx & Hq & Hb) (x & ? & ? & [q ?] & Hin). exists x. split_and!; eauto.
  apply list_elem_of_fmap in Hin as (b & -> & ?). apply list_elem_of_fmap. eauto.
Qed.

(** Every entry has the specification of an entry of the same name in [r0]. *)
Record agrees r0 r : Prop := {
  ag_exchanges : ∀ n x, rt_exchanges (reg_routing r) !! n = Some x →
     ∃ y, rt_exchanges (reg_routing r0) !! n = Some y ∧ ex_Spec y = ex_Spec x;
  ag_queues : ∀ n q, reg_queues r !! n = Some q → ∃ p, reg_queues r0 !! n = Some p ∧ q_Spec p = q_Spec q;
  ag_bindings : ∀ n b, b ∈ slice_at (rt_bindings (reg_routing r)) n →
     ∃ c, c ∈ slice_at (rt_bindings (reg_routing r0)) n ∧ b_Spec c = b_Spec b;
}.

(** The declarations that have been made so far. *)
Record declared (en : config.Engine) (xs : list config.ExchangeDeclaration)
    (qs : list config.QueueDeclaration) (bs : list config.BindingDeclaration) r : Prop := {
  dc_exchanges : ∀ d, d ∈ xs → exchange_in r d;
  dc_queues : ∀ d, d ∈ qs → queue_in en r d;
  dc_bindings : ∀ d, d ∈ bs → binding_in r d;
}.

Definition declares (cfg : config.Config) r : Prop :=
  declared (config.c_Engine cfg) (config.tp_Exchanges (config.c_Topology cfg))
    (config.tp_Queues (config.c_Topology cfg)) (config.tp_Bindings (config.c_Topology cfg)) r.

Lemma declared_nil en r : declared en [] [] [] r.
Proof. split; set_solver. Qed.

Lemma declared_extends en xs qs bs r r' : extends r r' → declared en xs qs bs r → declared en xs qs bs r'.
Proof.
  intros He []. split; intros d Hd.
  - by eapply exchange_in_extends, dc_exchanges0.
  - by eapply queue_in_extends, dc_queues0.
  - by eapply binding_in_extends, dc_bindings0.
Qed.

(** A registry has no entries but those that were declared. *)
Record only (xs : list config.ExchangeDeclaration) (qs : list config.QueueDeclaration) r : Prop := {
  on_exchanges : ∀ n, is_Some (rt_exchanges (reg_routing r) !! n) → n ∈ config.ed_Name <$> xs;
  on_queues : ∀ n, is_Some (reg_queues r !! n) → n ∈ config.qd_Name <$> qs;
}.

(** One declaration that succeeded. *)
Lemma declared_exchange_inv d now e e' :
  synced (e_registry e) (e_store e) → ts_time now → declared_exchange d now e = (e', Ok tt) →
  synced (e_registry e') (e_store e') ∧ extends (e_registry e) (e_registry e') ∧
  exchange_in (e_registry e') d ∧ reg_queues (e_registry e') = reg_queues (e_registry e) ∧
  (∀ n, is_Some (rt_exchanges (reg_routing (e_registry e')) !! n) →
        is_Some (rt_exchanges (reg_routing (e_registry e)) !! n) ∨ n = config.ed_Name d).
Proof.
  intros Hs Hnow. unfold declared_exchange. rewrite bind_eq. unfold naming, lift.
  destruct (ParseExchangeKind (config.ed_Kind d)) as [kind|] eqn:Hkind; [|done]. rewrite bind_eq.
  set (spec := mkExchangeSpec (config.ed_Name d) kind (config.ed_Durable d)).
  destruct (Registry_DeclareExchange spec now (e_registry e)) as [[x r]|err] eqn:Hd; last first.
  { unfold Engine_DeclareExchange, registry_do. by rewrite bind_eq, Hd. }
  destruct (DeclareExchange_runs _ _ _ _ _ Hs Hnow Hd) as (s' & -> & Hs'). intros [= <-].
  destruct (DeclareExchange_adds _ _ _ _ _ (sy_registry _ _ Hs) Hd) as (_ & Hq & Hb & He & Hspec & Hwas).
  assert (ex_Name x = config.ed_Name d) as Hname by (unfold ex_Name; by rewrite Hspec).
  assert (ExchangeSpec_Validate spec = Ok tt) as Hval.
  { unfold Registry_DeclareExchange, declareExchange in Hd. apply result_bind_Ok in Hd as ([] & Hd & _).
    by apply result_bind_Ok in Hd as ([] & Hv & _). }
  simpl. split; [done|]. split; [split_and!|split; [|split; [done|]]].
  - intros n y Hy. rewrite He, lookup_insert. case_decide as Hn; [|done]. subst n. destruct Hwas as [[? _]|?]; congruence.
  - by rewrite Hq.
  - by rewrite Hb.
  - exists kind, x. split; [done|]. cbv zeta. fold spec. split; [done|]. split; [|done].
    by rewrite He, Hname, lookup_insert_eq.
  - intros n [y Hy]. rewrite He, lookup_insert in Hy. case_decide; [right; congruence|left; eauto].
Qed.

Lemma declared_queue_inv en d now e e' :
  synced (e_registry e) (e_store e) → ts_time now →
  ts_duration (qs_VisibilityTimeout (QueueSpec_withDefaults (declared_spec en d))) →
  declared_queue en d now e = (e', Ok tt) →
  synced (e_registry e') (e_store e') ∧ extends (e_registry e) (e_registry e') ∧
  queue_in en (e_registry e') d ∧ reg_routing (e_registry e') = reg_routing (e_registry e) ∧
  (∀ n, is_Some (reg_queues (e_registry e') !! n) →
        is_Some (reg_queues (e_registry e) !! n) ∨ n = config.qd_Name d).
Proof.
  intros Hs Hnow Hdur. unfold declared_queue. rewrite bind_eq. unfold naming.
  destruct (Registry_DeclareQueue (declared_spec en d) now (e_registry e)) as [[q r]|err] eqn:Hd; last first.
  { unfold Engine_DeclareQueue, registry_do. by rewrite bind_eq, Hd. }
  destruct (DeclareQueue_runs _ _ _ _ _ Hs Hnow Hdur Hd) as (s' & -> & Hs'). intros [= <-].
  destruct (DeclareQueue_adds _ _ _ _ _ (sy_registry _ _ Hs) Hd) as (_ & Hr & Hq & Hspec & Hwas).
  assert (q_Name q = config.qd_Name d) as Hname by (unfold q_Name; by rewrite Hspec).
  assert (QueueSpec_Validate (QueueSpec_withDefaults (declared_spec en d)) = Ok tt) as Hval.
  { unfold Registry_DeclareQueue in Hd. by apply result_bind_Ok in Hd as ([] & Hv & _). }
  simpl. split; [done|]. split; [split_and!|split; [|split; [done|]]].
  - by rewrite Hr.
  - intros n y Hy. rewrite Hq, lookup_insert. case_decide as Hn; [|done]. subst n. destruct Hwas as [[? _]|?]; congruence.
  - by rewrite Hr.
  - exists q. split_and!; [done| |done]. by rewrite Hq, Hname, lookup_insert_eq.
  - intros n [y Hy]. rewrite Hq, lookup_insert in Hy. case_decide; [right; congruence|left; eauto].
Qed.

Lemma declared_binding_inv d now e e' :
  synced (e_registry e) (e_store e) → ts_time now → declared_binding d now e = (e', Ok tt) →
  synced (e_registry e') (e_store e') ∧ extends (e_registry e) (e_registry e') ∧
  binding_in (e_registry e') d ∧ reg_queues (e_registry e') = reg_queues (e_registry e) ∧
  rt_exchanges (reg_routing (e_registry e')) = rt_exchanges (reg_routing (e_registry e)).
Proof.
  intros Hs Hnow. unfold declared_binding. rewrite bind_eq. unfold naming. fold (binding_spec d).
  destruct (Registry_Bind (binding_spec d) now (e_registry e)) as [[b r]|err] eqn:Hd; last first.
  { unfold Engine_Bind, registry_do. by rewrite bind_eq, Hd. }
  destruct (Bind_runs _ _ _ _ _ Hs Hnow Hd) as (s' & -> & Hs'). intros [= <-].
  destruct (Bind_adds _ _ _ _ _ (sy_registry _ _ Hs) Hd) as (_ & Hq & Hx & Hspec & _ & Hin & _).
  simpl. split; [done|]. split; [split_and!|split; [|split; [done|done]]].
  - by rewrite Hx.
  - by rewrite Hq.
  - intros n y Hy. apply Hin. by left.
  - unfold Registry_Bind, bind, exchange in Hd. cbn in Hd.
    destruct (reg_queues (e_registry e) !! config.bd_Queue d) as [q|] eqn:Hqd; [|done].
    destruct (rt_exchanges (reg_routing (e_registry e)) !! config.bd_Exchange d) as [x|] eqn:Hxd; [|done].
    apply result_bind_Ok in Hd as ([b' t] & (y & [= <-] & ([] & Hv & _)%result_bind_Ok)%result_bind_Ok & _).
    exists x. rewrite Hx, Hq. split_and!; [done|done|eauto|]. apply list_elem_of_fmap. exists b.
    split; [done|]. apply Hin. by right.
Qed.

(** * The first start *)

Lemma loop_elem {A} (x : A) seen d : d ∈ seen ++ [x] ↔ d ∈ seen ∨ d = x.
Proof. by rewrite elem_of_app, list_elem_of_singleton. Qed.

Section first_start.
Context (cfg : config.Config) (now : nat → Time).
Let en := config.c_Engine cfg.
Let tp := config.c_Topology cfg.

Definition timeout_of (d : config.QueueDeclaration) : Duration :=
  qs_VisibilityTimeout (QueueSpec_withDefaults (declared_spec en d)).

Context (Hnow : ∀ i, ts_time (now i)).
Context (Hdur : ∀ d, d ∈ config.tp_Queues tp → ts_duration (timeout_of d)).

Definition first_run xs qs bs e : Prop :=
  synced (e_registry e) (e_store e) ∧ declared en xs qs bs (e_registry e) ∧ only xs qs (e_registry e).

Lemma first_exchanges e e' :
  first_run [] [] [] e →
  for_each (fun '(i, d) => declared_exchange d (now i)) (imap pair (config.tp_Exchanges tp)) e = (e', Ok tt) →
  first_run (config.tp_Exchanges tp) [] [] e'.
Proof.
  intros Hstart. apply (loop_inv (fun i d => declared_exchange d (now i)) (fun xs => first_run xs [] [])); [done|].
  intros i seen d e1 e2 _ (Hs & Hd & Ho) E.
  destruct (declared_exchange_inv _ _ _ _ Hs (Hnow i) E) as (Hs' & He & Hin & Hq & Hx).
  split; [done|]. destruct (declared_extends _ _ _ _ _ _ He Hd) as [Dx Dq Db], Ho as [Ox Oq]. split; split.
  - intros d' [Hd'| ->]%loop_elem; [by apply Dx|done].
  - done.
  - done.
  - intros n [Hn| ->]%Hx; rewrite fmap_app, elem_of_app; [left; by apply Ox|right; set_solver].
  - by rewrite Hq.
Qed.

Lemma first_queues xs e e' :
  first_run xs [] [] e →
  for_each (fun '(i, d) => declared_queue en d (now i)) (imap pair (config.tp_Queues tp)) e = (e', Ok tt) →
  first_run xs (config.tp_Queues tp) [] e'.
Proof.
  intros Hstart. apply (loop_inv (fun i d => declared_queue en d (now i)) (fun qs => first_run xs qs [])); [done|].
  intros i seen d e1 e2 Hin (Hs & Hd & Ho) E.
  destruct (declared_queue_inv _ _ _ _ _ Hs (Hnow i) (Hdur _ Hin) E) as (Hs' & He & Hqin & Hr & Hx).
  split; [done|]. destruct (declared_extends _ _ _ _ _ _ He Hd) as [Dx Dq Db], Ho as [Ox Oq]. split; split.
  - done.
  - intros d' [Hd'| ->]%loop_elem; [by apply Dq|done].
  - done.
  - by rewrite Hr.
  - intros n [Hn| ->]%Hx; rewrite fmap_app, elem_of_app; [left; by apply Oq|right; set_solver].
Qed.

Lemma first_bindings xs qs e e' :
  first_run xs qs [] e →
  for_each (fun '(i, d) => declared_binding d (now i)) (imap pair (config.tp_Bindings tp)) e = (e', Ok tt) →
  first_run xs qs (config.tp_Bindings tp) e'.
Proof.
  intros Hstart. apply (loop_inv (fun i d => declared_binding d (now i)) (fun bs => first_run xs qs bs)); [done|].
  intros i seen d e1 e2 _ (Hs & Hd & Ho) E.
  destruct (declared_binding_inv _ _ _ _ Hs (Hnow i) E) as (Hs' & He & Hbin & Hq & Hx).
  split; [done|]. destruct (declared_extends _ _ _ _ _ _ He Hd) as [Dx Dq Db], Ho as [Ox Oq]. split; split.
  - done.
  - done.
  - intros d' [Hd'| ->]%loop_elem; [by apply Db|done].
  - by rewrite Hx.
  - by rewrite Hq.
Qed.

Lemma declareTopology_inv s0 e :
  ts_ok s0 → ts_view s0 = no_topology → declareTopology cfg now (engine_on s0) = (e, Ok tt) →
  first_run (config.tp_Exchanges tp) (config.tp_Queues tp) (config.tp_Bindings tp) e.
Proof.
  intros Hok Hv. unfold declareTopology. fold tp en. rewrite bind_eq.
  destruct (for_each _ (imap pair (config.tp_Exchanges tp)) _) as [e1 [[]|]] eqn:E1; [|done]. rewrite bind_eq.
  destruct (for_each _ (imap pair (config.tp_Queues tp)) _) as [e2 [[]|]] eqn:E2; [|done]. intros E3.
  apply (first_bindings _ _ e2); [|done]. apply (first_queues _ e1); [|done].
  apply (first_exchanges (engine_on s0)); [|done].
  split; [by apply synced_new|]. split; [apply declared_nil|]. split; intros n; simpl; rewrite lookup_empty; by intros [].
Qed.
End first_start.

(** * A later start *)

(** A declaration that a registry has is accepted by a registry that agrees with it. *)
Lemma declared_exchange_again d now e r0 :
  synced (e_registry e) (e_store e) → ts_time now → agrees r0 (e_registry e) → exchange_in r0 d →
  ∃ e', declared_exchange d now e = (e', Ok tt) ∧ agrees r0 (e_registry e').
Proof.
  intros Hs Hnow [Ax Aq Ab] (kind & x & Hkind & Hval & Hx & Hspec).
  set (spec := mkExchangeSpec (config.ed_Name d) kind (config.ed_Durable d)) in *.
  assert (∃ y r, Registry_DeclareExchange spec now (e_registry e) = Ok (y, r)) as (y & r & Hd).
  { unfold Registry_DeclareExchange, declareExchange. rewrite Hval. simpl.
    destruct (rt_exchanges (reg_routing (e_registry e)) !! config.ed_Name d) as [y|] eqn:Hy; [|eauto].
    destruct (Ax _ _ Hy) as (y0 & Hy0 & Hs0). rewrite decide_True by congruence. eauto. }
  destruct (DeclareExchange_runs _ _ _ _ _ Hs Hnow Hd) as (s' & E & _).
  destruct (DeclareExchange_adds _ _ _ _ _ (sy_registry _ _ Hs) Hd) as (_ & Hq & Hb & He & Hys & _).
  eexists. unfold declared_exchange, naming, lift. rewrite bind_eq, Hkind, bind_eq. fold spec. rewrite E.
  split; [done|]. simpl. split; [|by rewrite Hq|by rewrite Hb]. intros n z. rewrite He, lookup_insert.
  case_decide as Hn; [|apply Ax]. intros [= <-]. exists x. unfold ex_Name in Hn. rewrite Hys in Hn. simpl in Hn.
  subst n. split; [done|congruence].
Qed.

Lemma declared_queue_again en d now e r0 :
  synced (e_registry e) (e_store e) → ts_time now →
  ts_duration (qs_VisibilityTimeout (QueueSpec_withDefaults (declared_spec en d))) →
  agrees r0 (e_registry e) → queue_in en r0 d →
  ∃ e', declared_queue en d now e = (e', Ok tt) ∧ agrees r0 (e_registry e').
Proof.
  intros Hs Hnow Hdur [Ax Aq Ab] (x & Hval & Hx & Hspec).
  set (spec := QueueSpec_withDefaults (declared_spec en d)) in *.
  assert (∃ y r, Registry_DeclareQueue (declared_spec en d) now (e_registry e) = Ok (y, r)) as (y & r & Hd).
  { unfold Registry_DeclareQueue. fold spec. rewrite Hval. simpl.
    destruct (reg_queues (e_registry e) !! config.qd_Name d) as [y|] eqn:Hy; [|eauto].
    destruct (Aq _ _ Hy) as (y0 & Hy0 & Hs0). rewrite decide_True by congruence. eauto. }
  destruct (DeclareQueue_runs _ _ _ _ _ Hs Hnow Hdur Hd) as (s' & E & _).
  destruct (DeclareQueue_adds _ _ _ _ _ (sy_registry _ _ Hs) Hd) as (_ & Hr & Hq & Hys & _).
  eexists. unfold declared_queue, naming. rewrite bind_eq, E.
  split; [done|]. simpl. split; [by rewrite Hr| |by rewrite Hr]. intros n z. rewrite Hq, lookup_insert.
  case_decide as Hn; [|apply Aq]. intros [= <-]. exists x. unfold q_Name in Hn. rewrite Hys in Hn. simpl in Hn.
  subst n. split; [done|]. by rewrite Hys.
Qed.

Lemma declared_binding_again d now e r0 :
  synced (e_registry e) (e_store e) → ts_time now → agrees r0 (e_registry e) → binding_in r0 d →
  is_Some (rt_exchanges (reg_routing (e_registry e)) !! config.bd_Exchange d) →
  is_Some (reg_queues (e_registry e) !! config.bd_Queue d) →
  ∃ e', declared_binding d now e = (e', Ok tt) ∧ agrees r0 (e_registry e').
Proof.
  intros Hs Hnow [Ax Aq Ab] (x & Hx & Hval & _ & Hin) [y Hy] [q Hq].
  destruct (Ax _ _ Hy) as (y0 & Hy0 & Hys). simplify_eq.
  assert (∃ b r, Registry_Bind (binding_spec d) now (e_registry e) = Ok (b, r)) as (b & r & Hd).
  { unfold Registry_Bind, bind, exchange. simpl. rewrite Hq, Hy. simpl.
    unfold ex_Kind in *. rewrite <-Hys, Hval. simpl. destruct (find_binding _ _); eauto. }
  destruct (Bind_runs _ _ _ _ _ Hs Hnow Hd) as (s' & E & _).
  destruct (Bind_adds _ _ _ _ _ (sy_registry _ _ Hs) Hd) as (_ & Hqs & Hxs & Hspec & _ & Hins & _).
  eexists. unfold declared_binding, naming. fold (binding_spec d). rewrite bind_eq, E.
  split; [done|]. simpl. split; [by rewrite Hxs|by rewrite Hqs|]. intros n z [Hz|[-> ->]]%Hins; [by apply Ab|].
  apply list_elem_of_fmap in Hin as (c & Hc & Hcin). exists c. split; [done|congruence].
Qed.

(** A restored registry agrees with the one that was stored, where the store
    keeps the timeouts. *)
Lemma restored_agrees e :
  synced (e_registry e) (e_store e) →
  (∀ n q, reg_queues (e_registry e) !! n = Some q → ts_kept (q_VisibilityTimeout q) = q_VisibilityTimeout q) →
  agrees (e_registry e) (e_registry (restarted e)).
Proof.
  intros Hs Hkept. destruct (restored_registry e Hs) as (Hx & Hq & Hb). split.
  - intros n x. rewrite Hx. intros [? _]%map_lookup_filter_Some. eauto.
  - intros n q. rewrite Hq, lookup_fmap. destruct (filter _ _ !! n) as [p|] eqn:Hp; [|done]. intros [= <-].
    apply map_lookup_filter_Some in Hp as [Hp _]. exists p. split; [done|]. unfold keep_timeout. simpl.
    rewrite (Hkept _ _ Hp). unfold q_Name, q_Durable, q_MaxAttempts, q_VisibilityTimeout, q_Schema.
    by destruct (q_Spec p).
  - intros n b Hin%Hb. eauto.
Qed.

Section later_start.
Context (cfg : config.Config) (now : nat → Time) (r0 : Registry).
Let en := config.c_Engine cfg.
Let tp := config.c_Topology cfg.
Context (Hnow : ∀ i, ts_time (now i)).
Context (Hdur : ∀ d, d ∈ config.tp_Queues tp → ts_duration (timeout_of cfg d)).
Context (Hr0 : declares cfg r0) (Honly : only (config.tp_Exchanges tp) (config.tp_Queues tp) r0).

Definition later_run xs qs bs e : Prop :=
  synced (e_registry e) (e_store e) ∧ declared en xs qs bs (e_registry e) ∧ agrees r0 (e_registry e).

Lemma later_exchanges e :
  later_run [] [] [] e →
  ∃ e', for_each (fun '(i, d) => declared_exchange d (now i)) (imap pair (config.tp_Exchanges tp)) e = (e', Ok tt) ∧
    later_run (config.tp_Exchanges tp) [] [] e' ∧ extends (e_registry e) (e_registry e').
Proof.
  intros Hstart. apply (loop_runs (fun i d => declared_exchange d (now i))
    (fun xs e' => later_run xs [] [] e' ∧ extends (e_registry e) (e_registry e'))); [by split; [|apply extends_refl]|].
  intros i seen d e1 Hin ((Hs & Hd & Ha) & Hext).
  destruct (declared_exchange_again d _ _ _ Hs (Hnow i) Ha) as (e2 & E & Ha2); [by apply Hr0|].
  destruct (declared_exchange_inv _ _ _ _ Hs (Hnow i) E) as (Hs' & He & Hx & _).
  exists e2. split; [done|]. split; [|by eapply extends_trans]. split; [done|]. split; [|done].
  destruct (declared_extends _ _ _ _ _ _ He Hd) as [Dx Dq Db]. split; [|done|done].
  intros d' [Hd'| ->]%loop_elem; [by apply Dx|done].
Qed.

Lemma later_queues xs e :
  later_run xs [] [] e →
  ∃ e', for_each (fun '(i, d) => declared_queue en d (now i)) (imap pair (config.tp_Queues tp)) e = (e', Ok tt) ∧
    later_run xs (config.tp_Queues tp) [] e' ∧ extends (e_registry e) (e_registry e').
Proof.
  intros Hstart. apply (loop_runs (fun i d => declared_queue en d (now i))
    (fun qs e' => later_run xs qs [] e' ∧ extends (e_registry e) (e_registry e'))); [by split; [|apply extends_refl]|].
  intros i seen d e1 Hin ((Hs & Hd & Ha) & Hext).
  destruct (declared_queue_again en d _ _ _ Hs (Hnow i) (Hdur _ Hin) Ha) as (e2 & E & Ha2); [by apply Hr0|].
  destruct (declared_queue_inv _ _ _ _ _ Hs (Hnow i) (Hdur _ Hin) E) as (Hs' & He & Hx & _).
  exists e2. split; [done|]. split; [|by eapply extends_trans]. split; [done|]. split; [|done].
  destruct (declared_extends _ _ _ _ _ _ He Hd) as [Dx Dq Db]. split; [done| |done].
  intros d' [Hd'| ->]%loop_elem; [by apply Dq|done].
Qed.

Lemma later_bindings e :
  later_run (config.tp_Exchanges tp) (config.tp_Queues tp) [] e →
  ∃ e', for_each (fun '(i, d) => declared_binding d (now i)) (imap pair (config.tp_Bindings tp)) e = (e', Ok tt) ∧
    later_run (config.tp_Exchanges tp) (config.tp_Queues tp) (config.tp_Bindings tp) e' ∧
    extends (e_registry e) (e_registry e').
Proof.
  intros Hstart. apply (loop_runs (fun i d => declared_binding d (now i))
    (fun bs e' => later_run (config.tp_Exchanges tp) (config.tp_Queues tp) bs e' ∧
                  extends (e_registry e) (e_registry e'))); [by split; [|apply extends_refl]|].
  intros i seen d e1 Hin ((Hs & Hd & Ha) & Hext).
  destruct (dc_bindings _ _ _ _ _ Hr0 d Hin) as (x & Hx & _ & Hq & _).
  destruct (declared_binding_again d _ _ _ Hs (Hnow i) Ha) as (e2 & E & Ha2); [by apply Hr0| | |].
  { assert (config.bd_Exchange d ∈ config.ed_Name <$> config.tp_Exchanges tp) as (dx & -> & Hdx)%list_elem_of_fmap
      by (apply (on_exchanges _ _ _ Honly); eauto).
    destruct (dc_exchanges _ _ _ _ _ Hd dx Hdx) as (? & y & _ & _ & ? & _). eauto. }
  { apply (on_queues _ _ _ Honly) in Hq as (dq & -> & Hdq)%list_elem_of_fmap.
    destruct (dc_queues _ _ _ _ _ Hd dq Hdq) as (y & _ & ? & _). eauto. }
  destruct (declared_binding_inv _ _ _ _ Hs (Hnow i) E) as (Hs' & He & Hbin & _).
  exists e2. split; [done|]. split; [|by eapply extends_trans]. split; [done|]. split; [|done].
  destruct (declared_extends _ _ _ _ _ _ He Hd) as [Dx Dq Db]. split; [done|done|].
  intros d' [Hd'| ->]%loop_elem; [by apply Db|done].
Qed.

Lemma declareTopology_runs e :
  synced (e_registry e) (e_store e) → agrees r0 (e_registry e) →
  ∃ e', declareTopology cfg now e = (e', Ok tt) ∧ extends (e_registry e) (e_registry e') ∧
    later_run (config.tp_Exchanges tp) (config.tp_Queues tp) (config.tp_Bindings tp) e'.
Proof.
  intros Hs Ha. destruct (later_exchanges e) as (e1 & E1 & R1 & X1).
  { split; [done|]. split; [apply declared_nil|done]. }
  destruct (later_queues _ _ R1) as (e2 & E2 & R2 & X2).
  destruct (later_bindings _ R2) as (e3 & E3 & R3 & X3).
  exists e3. unfold declareTopology. fold tp en. rewrite bind_eq, E1, bind_eq, E2, E3. split; [done|].
  split; [|done]. by eapply extends_trans, extends_trans.
Qed.

(** The declared entries have the same specifications in every registry that has them. *)
Lemma declares_agrees r :
  declares cfg r →
  (∀ n b, b ∈ slice_at (rt_bindings (reg_routing r0)) n →
     ∃ c, c ∈ slice_at (rt_bindings (reg_routing r)) n ∧ b_Spec c = b_Spec b) →
  agrees r r0.
Proof.
  intros Hd Hb. split; [| |done].
  - intros n x Hx. assert (n ∈ config.ed_Name <$> config.tp_Exchanges tp) as (d & -> & Hin)%list_elem_of_fmap
      by (apply (on_exchanges _ _ _ Honly); eauto).
    destruct (dc_exchanges _ _ _ _ _ Hd d Hin) as (k1 & y & Hk1 & _ & Hy & Hys).
    destruct (dc_exchanges _ _ _ _ _ Hr0 d Hin) as (k2 & z & Hk2 & _ & Hz & Hzs).
    simplify_eq. exists y. split; [done|congruence].
  - intros n x Hx. assert (n ∈ config.qd_Name <$> config.tp_Queues tp) as (d & -> & Hin)%list_elem_of_fmap
      by (apply (on_queues _ _ _ Honly); eauto).
    destruct (dc_queues _ _ _ _ _ Hd d Hin) as (y & _ & Hy & Hys).
    destruct (dc_queues _ _ _ _ _ Hr0 d Hin) as (z & _ & Hz & Hzs).
    simplify_eq. exists y. split; [done|congruence].
Qed.
End later_start.

(** The specifications of the queues a publication is routed to. *)
Definition routed (name key : string) r : result error (list QueueSpec) :=
  match Registry_Route name key r with
  | Ok queues => Ok (map q_Spec queues)
  | Err err => Err err
  end.

(** Registries that agree with each other route alike. *)
Lemma agrees_wanted r1 r2 kind key n x :
  agrees r1 r2 → wanted kind key (queueExistsLocked r2) (slice_at (rt_bindings (reg_routing r2)) n) x →
  wanted kind key (queueExistsLocked r1) (slice_at (rt_bindings (reg_routing r1)) n) x.
Proof.
  intros [_ Aq Ab] (b & Hb & <- & Hd & Hm). destruct (Ab _ _ Hb) as (c & Hc & Hs). exists c.
  unfold b_Queue, b_RoutingKey, queueExistsLocked in *. rewrite Hs. split_and!; try done.
  apply bool_decide_eq_true in Hd as [q Hq]. destruct (Aq _ _ Hq) as (p & Hp & _).
  apply bool_decide_eq_true. eauto.
Qed.

Lemma agrees_route r1 r2 name key :
  agrees r1 r2 → agrees r2 r1 →
  routed name key r1 = routed name key r2.
Proof.
  intros A1 A2. unfold routed, Registry_Route, exchange.
  destruct (rt_exchanges (reg_routing r1) !! name) as [x1|] eqn:H1; last first.
  { destruct (rt_exchanges (reg_routing r2) !! name) as [x2|] eqn:H2; [|done].
    destruct (ag_exchanges _ _ A1 _ _ H2) as (? & ? & _). congruence. }
  destruct (ag_exchanges _ _ A2 _ _ H1) as (x2 & -> & Hs). simpl.
  assert (route x1 key (queueExistsLocked r1) (reg_routing r1) =
          route x2 key (queueExistsLocked r2) (reg_routing r2)) as Hr.
  { destruct (route_spec x1 key (queueExistsLocked r1) (reg_routing r1)) as (N1 & S1 & I1).
    destruct (route_spec x2 key (queueExistsLocked r2) (reg_routing r2)) as (N2 & S2 & I2).
    apply sorted_names_eq; [done..|]. intros y. rewrite I1, I2. unfold ex_Kind, ex_Name. rewrite Hs.
    split; by apply agrees_wanted. }
  rewrite <-Hr. case_bool_decide as Hlen; [done|]. simpl. f_equal. clear Hr Hlen.
  induction (route x1 key _ _) as [|n names IH]; [done|]. simpl.
  destruct (reg_queues r1 !! n) as [q1|] eqn:Q1.
  - destruct (ag_queues _ _ A2 _ _ Q1) as (q2 & -> & Hq). simpl. f_equal; [done|exact IH].
  - destruct (reg_queues r2 !! n) as [q2|] eqn:Q2; [|done].
    destruct (ag_queues _ _ A1 _ _ Q2) as (? & ? & _). congruence.
Qed.

End topology.
