(* ===== verification/AppClaims.v ===== *)
(** What the assembly guarantees: a configuration that loads is accepted by the
    components it configures and a start that fails leaves no store open; and
    the limits of declaring a topology again ([AppProofs.v]). *)

From S2P Require Import Prelude Errors TimeText Message Broker BrokerProofs Storage TopologyStore Float64.
From S2P Require Import DurationText DurationProofs Retry Logging Config SqlConn SqlConnProofs Sqlite SqliteTables.
From S2P Require Import SqliteTopology SqliteMigrate Memory MemoryTopology Schema Engine Restart App AppProofs.

(** * Log formats *)

(** A lower-case letter that no letter outside ASCII has as its lower case comes
    from one byte. *)
Lemma ToLower_cons s c r :
  ToLower s = String c r → c ≠ "i"%char → c ≠ "k"%char →
  ∃ d s', s = String d s' ∧ lower_byte d = c ∧ ToLower s' = r.
Proof.
  intros Hs Hi Hk. destruct s as [|d s']; [done|]. exists d, s'. split; [done|].
  destruct s' as [|d2 s2]; [simpl in Hs; by simplify_eq|]. cbn [ToLower] in Hs.
  case_bool_decide; [by simplify_eq|]. destruct s2 as [|d3 s3]; [by simplify_eq|].
  case_bool_decide; by simplify_eq.
Qed.

Lemma lower_byte_letter n c :
  (97 ≤ n ≤ 122)%N → lower_byte c = ascii_of_N n → c = ascii_of_N n ∨ c = ascii_of_N (n - 32).
Proof.
  intros Hn Hc. apply (f_equal N_of_ascii) in Hc. rewrite N_ascii_embedding in Hc by lia.
  unfold lower_byte in Hc. pose proof (N_ascii_bounded c) as Hb.
  destruct ((65 <=? N_of_ascii c) && (N_of_ascii c <=? 90))%N eqn:E.
  - apply andb_true_iff in E as [? ?]. rewrite !N.leb_le in *.
    rewrite N_ascii_embedding in Hc by lia. right. rewrite <-(ascii_N_embedding c). f_equal. lia.
  - left. rewrite <-(ascii_N_embedding c). by f_equal.
Qed.

Lemma lower_letters (w : list N) s :
  Forall (fun n => (97 ≤ n ≤ 122)%N ∧ n ≠ 105%N ∧ n ≠ 107%N) w → ToLower s = ascii_string w →
  ∃ v, s = ascii_string v ∧ Forall2 (fun n m => m = n ∨ m = (n - 32)%N) w v.
Proof.
  intros Hw. revert s. induction Hw as [|n w (Hn & Hi & Hk) _ IH]; intros s Hs; simpl in Hs.
  - exists []. split; [|constructor]. destruct s as [|d s']; [done|]. exfalso.
    destruct s' as [|? [|? ?]]; cbn [ToLower] in Hs; repeat case_bool_decide; done.
  - apply ToLower_cons in Hs as (d & s' & -> & Hd & (v & -> & Hv)%IH).
    + destruct (lower_byte_letter n d Hn Hd) as [-> | ->]; [exists (n :: v)|exists ((n - 32)%N :: v)];
        (split; [done|]); constructor; auto.
    + intros E%(f_equal N_of_ascii). rewrite N_ascii_embedding in E by lia. by vm_compute in E.
    + intros E%(f_equal N_of_ascii). rewrite N_ascii_embedding in E by lia. by vm_compute in E.
Qed.

(** A format the configuration accepts has nothing to trim. *)
Lemma format_trimmed s : ToLower s ∈ ["json"; "text"] → TrimSpace s = s.
Proof.
  intros Hs. assert (∃ w, ToLower s = ascii_string w ∧ (w = [106; 115; 111; 110]%N ∨ w = [116; 101; 120; 116]%N))
    as (w & E & Hw).
  { rewrite !elem_of_cons in Hs. destruct Hs as [-> |[-> |Hs]]; [| |set_solver].
    - exists [106; 115; 111; 110]%N. auto.
    - exists [116; 101; 120; 116]%N. auto. }
  apply lower_letters in E as (v & -> & Hv).
  - destruct Hw as [-> | ->]; repeat (apply Forall2_cons_inv_l in Hv as (? & ? & [-> | ->] & Hv & ->));
      apply Forall2_nil_inv_l in Hv as ->; vm_compute; reflexivity.
  - destruct Hw as [-> | ->]; repeat constructor; vm_compute; congruence.
Qed.

(** * Configurations *)

Section loaded.
Context (fmt_int : Z → string) (fmt_float : float64 → string).
Abbreviation Load := (config.Load fmt_int fmt_float).
Abbreviation Validate := (config.Validate fmt_int fmt_float).

(** What [Validate] has checked. *)
Record valid (c : config.Config) : Prop := {
  va_address : config.sv_Address (config.c_Server c) ≠ "";
  va_driver : config.sg_Driver (config.c_Storage c) = "memory" ∨
    (config.sg_Driver (config.c_Storage c) = "sqlite" ∧ config.sg_DSN (config.c_Storage c) ≠ "");
  va_attempts : (1 ≤ config.en_MaxAttempts (config.c_Engine c))%Z;
  va_policy : Policy_Validate Duration_String fmt_int fmt_float (config.RetryPolicy c) = Ok tt;
  va_format : ToLower (config.lg_Format (config.c_Logging c)) ∈ ["json"; "text"];
  va_level : is_ok (ParseLevel (config.lg_Level (config.c_Logging c)));
}.

Lemma str_empty_spec s : str_empty s = false → s ≠ "".
Proof. by intros H ->. Qed.

Lemma Validate_valid c : Validate c = Ok tt → valid c.
Proof.
  unfold config.Validate. destruct (str_empty (config.sv_Address _)) eqn:Ha; [done|].
  case_bool_decide as Hdr; simpl; [|done].
  destruct (bool_decide (config.sg_Driver _ = "sqlite") && _) eqn:Hdsn; [done|].
  destruct (_ <? 1)%Z eqn:Hat; [done|]. destruct (flt (config.rt_JitterFraction _) _ || _); [done|].
  intros ([] & Hp & H)%result_bind_Ok. case_bool_decide as Hf; simpl in H; [|done].
  apply result_bind_Ok in H as (l & Hl & _). apply Z.ltb_ge in Hat.
  split; [by apply str_empty_spec| |done|done|done|by rewrite Hl].
  rewrite !elem_of_cons in Hdr. destruct Hdr as [Hs|[Hm|?]]; [right|by left|set_solver].
  rewrite bool_decide_eq_true_2 in Hdsn by done. split; [done|]. by apply str_empty_spec.
Qed.

Lemma Load_valid path file yaml getenv c : Load path file yaml getenv = Ok c → valid c.
Proof.
  unfold config.Load. intros (c0 & _ & ([] & Hv & [= <-])%result_bind_Ok)%result_bind_Ok. by apply Validate_valid.
Qed.

Lemma WithDefaults_idem p : WithDefaults (WithDefaults p) = WithDefaults p.
Proof.
  assert (fle (p_Multiplier Default) f_zero = false) as Hm by (vm_compute; reflexivity).
  assert (flt f_zero f_zero = false) as Hz by (vm_compute; reflexivity).
  unfold WithDefaults. destruct p as [a i m f j]. cbn.
  destruct (a <=? 0)%Z eqn:Ea, (i <=? 0)%Z eqn:Ei, (m <=? 0)%Z eqn:Em, (fle f f_zero) eqn:Ef, (flt j f_zero) eqn:Ej;
    rewrite ?Ea, ?Ei, ?Em, ?Ef, ?Ej, ?Hm, ?Hz; reflexivity.
Qed.

Lemma RetryPolicy_idem c : WithDefaults (config.RetryPolicy c) = config.RetryPolicy c.
Proof. apply WithDefaults_idem. Qed.

Lemma valid_logger c service version :
  valid c → is_ok (logging.New (logging.mkOptions (config.lg_Level (config.c_Logging c))
                                  (config.lg_Format (config.c_Logging c)) service version)).
Proof.
  intros [_ _ _ _ Hf Hl]. unfold logging.New. simpl. destruct (ParseLevel _) as [l|]; [|done]. simpl.
  rewrite (format_trimmed _ Hf). rewrite !elem_of_cons in Hf. destruct Hf as [-> |[-> |?]]; [done|done|set_solver].
Qed.
End loaded.

(** * Starting *)

Definition store_closed (s : AnyStore) : bool :=
  match s with MemoryStore s => mem_closed s | SqliteStore db => db_closed db end.

Lemma Close_closes (s : AnyStore) : store_closed (st_Close s).1 = true ∧ is_ok (st_Close s).2.
Proof. by destruct s. Qed.

Section starting.
Context (fs : file_system) (sqlite_Open : Options → result error Db).
Context {json compiled : Type} (pk : packages json compiled).
Context (fmt_int : Z → string) (fmt_float : float64 → string).
Abbreviation Build := (Build fs sqlite_Open pk fmt_int fmt_float).

(** What can fail once the configuration is valid. *)
Inductive start_error (cfg : config.Config) (now : nat → Time) (err : error) : Prop :=
| NoDirectory e :
    fs_MkdirAll fs (fs_Dir fs (config.sg_DSN (config.c_Storage cfg))) = Err e →
    err = wrapError "app: create storage directory: " e "" → start_error cfg now err
| NoDatabase opts : sqlite_Open opts = Err err → start_error cfg now err
| BadSchemas : loadSchemas fs pk (config.c_Schemas cfg) = Err err → start_error cfg now err
| BadTopology store e :
    openStore fs sqlite_Open (config.c_Storage cfg) = Ok store →
    (Engine_Restore ≫= fun _ => declareTopology cfg now) (engine_on store) = (e, Err err) →
    start_error cfg now err.

Lemma openStore_valid cfg now :
  valid fmt_int fmt_float cfg →
  match openStore fs sqlite_Open (config.c_Storage cfg) with
  | Err err => start_error cfg now err
  | Ok _ => True
  end.
Proof.
  intros Hv. unfold openStore. destruct (va_driver _ _ _ Hv) as [-> |[-> _]]; [by rewrite decide_True|].
  rewrite decide_False, decide_True by done. cbv zeta.
  destruct (sqlite_Open _) as [db|err] eqn:Ho; case_bool_decide; simpl;
    try (destruct (fs_MkdirAll _ _) as [[]|e] eqn:Hm; simpl); eauto using NoDirectory, NoDatabase.
Qed.

(** C30: A configuration that [Load] accepts is accepted by everything [Build]
    configures with it: the logger, the driver switch and the engine's policy
    never refuse it, so that a start fails only on the storage directory, in
    [sqlite.Open], on the schemas, or while the topology is restored and
    declared; and whenever it fails after the store was opened, the store has
    been closed.  A start that succeeds runs with the configured retry policy
    and with a positive reclaim interval and body limit, on the store that is
    open. *)
Theorem Build_loaded path file yaml getenv cfg version now :
  config.Load fmt_int fmt_float path file yaml getenv = Ok cfg →
  match Build cfg version now None with
  | (p, Err err) => start_error cfg now err ∧ match p with Some s => store_closed s = true | None => True end
  | (p, Ok app) =>
      p = Some (e_store (ap_Engine app)) ∧ ap_policy app = config.RetryPolicy cfg ∧
      Policy_Validate Duration_String fmt_int fmt_float (ap_policy app) = Ok tt ∧
      (0 < ap_reclaimInterval app)%Z ∧ (0 < ap_MaxBodyBytes app)%Z
  end.
Proof.
  intros Hl%Load_valid. unfold App.Build.
  pose proof (valid_logger _ _ _ "rabbitmq-lite" version Hl) as Hlog.
  destruct (logging.New _) as [lg|]; [|done]. pose proof (openStore_valid cfg now Hl) as Hopen.
  destruct (openStore fs sqlite_Open (config.c_Storage cfg)) as [store|err] eqn:Ho; [|done].
  destruct (loadSchemas _ _ _) as [schemas|err] eqn:Hs; [|by split; [apply BadSchemas|apply Close_closes]].
  unfold Engine_New. rewrite RetryPolicy_idem, (va_policy _ _ _ Hl). simpl. fold (engine_on store).
  destruct ((Engine_Restore ≫= fun _ => declareTopology cfg now) (engine_on store)) as [e [[]|err]] eqn:Hd.
  - simpl. split; [done|]. split; [done|]. split; [apply (va_policy _ _ _ Hl)|]. split.
    + destruct (_ <=? 0)%Z eqn:Hr; [done|]. by apply Z.leb_gt in Hr.
    + unfold config.MaxBodyBytes. destruct (_ <=? 0)%Z eqn:Hr; [done|]. by apply Z.leb_gt in Hr.
  - split; [by eapply BadTopology|]. apply Close_closes.
Qed.

(** [Shutdown] closes the store, whatever failed before. *)
Lemma Shutdown_closes server timed_out (a : Application (compiled := compiled)) :
  let '(s, failures) := Shutdown server timed_out a in
  store_closed s = true ∧ length failures = length (omap id [server; timed_out]).
Proof.
  unfold Shutdown. destruct (Close_closes (e_store (ap_Engine a))) as [Hc Hok].
  destruct timed_out, server; simpl; unfold modifies; simpl;
    destruct (e_store (ap_Engine a)); simpl in *; done.
Qed.
End starting.

(** * Limits of a restart *)

Section shortened.
Context {S : Type} `{TopologyStore S}.

(** A durable queue whose configured visibility timeout the store does not
    keep as it is (on SQLite, one that is not a whole number of milliseconds)
    can be declared once and never again: after a restart the queue has the
    shortened timeout, its declaration conflicts with it, and the start fails
    with the wrapped [ErrQueueExists]. *)
Theorem shortened_timeout_refused cfg s0 d now now' e1 :
  ts_ok s0 → ts_view s0 = no_topology → ts_time now → ts_duration (timeout_of cfg d) →
  config.qd_Durable d = true → ts_kept (timeout_of cfg d) ≠ timeout_of cfg d →
  declared_queue (config.c_Engine cfg) d now (engine_on s0) = (e1, Ok tt) →
  ∃ e2, declared_queue (config.c_Engine cfg) d now' (restarted e1) =
          (e2, Err (wrapError ("app: declare queue " +:+ config.qd_Name d +:+ ": ") (BrokerErr ErrQueueExists) "")).
Proof.
  intros Hok Hv Hnow Hdur Hdurable Hkept E.
  destruct (declared_queue_inv _ d now (engine_on s0) e1 (synced_new s0 Hok Hv) Hnow Hdur E) as (Hs & _ & (q & Hval & Hq & Hspec) & _).
  destruct (restored_registry e1 Hs) as (_ & Hqs & _).
  assert (reg_queues (e_registry (restarted e1)) !! config.qd_Name d = Some (keep_timeout ts_kept q)) as Hq'.
  { rewrite Hqs, lookup_fmap, map_lookup_filter, Hq. simpl. rewrite option_guard_True; [done|].
    unfold q_is_durable, q_Durable. simpl. by rewrite Hspec. }
  eexists. unfold declared_queue, naming, Engine_DeclareQueue, registry_do. rewrite bind_eq, bind_eq.
  unfold Registry_DeclareQueue. rewrite Hval. simpl. rewrite Hq', decide_False; [done|].
  intros Heq%(f_equal qs_VisibilityTimeout). simpl in Heq. unfold q_VisibilityTimeout in Heq. rewrite Hspec in Heq.
  by apply Hkept.
Qed.
End shortened.

(** * Round trips *)

(** A duration survives the configuration file: every duration a 64-bit
    count of nanoseconds can hold, written as [Duration.String] prints it, is
    read back as itself. *)
Theorem config_duration_roundtrip d node :
  in_int64 d → UnmarshalYAML node (Ok (MarshalYAML d)) = Ok d.
Proof. intros Hd. unfold UnmarshalYAML, MarshalYAML. by rewrite Parse_String. Qed.

(** * Witnesses *)

Module AppSamples.
Definition db : Db := mkDb false empty_tables 0 (fun _ => None).
Definition fs : file_system := mkFileSystem (fun _ => "data") (fun _ => Ok tt) (fun _ => true) (fun _ => []).
Definition pk : packages string string :=
  mkPackages string string Ok (fun _ _ => Ok tt) (fun _ d => Ok d) (fun d => d) (fun _ => "") (fun _ _ => None)
    (fun _ => Ok 1%Z).
Definition topology : config.Topology := config.mkTopology
  [config.mkExchangeDeclaration "erp.events" "topic" true; config.mkExchangeDeclaration "scratch" "fanout" false]
  [config.mkQueueDeclaration "invoices" true 0 0 "invoice";
   config.mkQueueDeclaration "probe" false 5 (2 * second) ""]
  [config.mkBindingDeclaration "erp.events" "invoices" "invoice.*"; config.mkBindingDeclaration "scratch" "probe" ""].

(** The decoder's answer for a document with that topology. *)
Definition yaml (_ : string) (c : config.Config) : result error config.Config :=
  Ok (config.mkConfig (config.c_Server c) (config.c_Storage c) (config.c_Engine c) (config.c_Retry c)
        (config.c_Schemas c) (config.c_Logging c) topology).
Definition getenv (name : string) : string := if decide (name = "RABBITMQ_LITE_LOG_FORMAT") then "Text" else "".
Definition fmt_int (_ : Z) : string := "n".
Definition fmt_float (_ : float64) : string := "x".
Definition loaded : result error config.Config :=
  config.Load fmt_int fmt_float "broker.yaml" (Ok "document") yaml getenv.
Definition cfg : config.Config := match loaded with Ok c => c | Err _ => config.Default end.
Definition now (_ : nat) : Time := 1000%Z.
Definition later (_ : nat) : Time := 9000%Z.
Definition brief : config.QueueDeclaration := config.mkQueueDeclaration "brief" true 0 1500000 "".

Lemma db_ok : ts_ok db.
Proof. split; [done|]. split; [|split]; (split || idtac); constructor. Qed.
Lemma clocks_ok i : ts_time (S := Db) (now i) ∧ ts_time (S := Db) (later i).
Proof. split; split; vm_compute; congruence. Qed.
End AppSamples.


Lemma Build_loaded_witness :
  ∃ app, (Build AppSamples.fs (fun _ => Ok AppSamples.db) AppSamples.pk AppSamples.fmt_int AppSamples.fmt_float
            AppSamples.cfg "1.0" AppSamples.now None).2 = Ok app ∧ ap_policy app = Retry.Default.
Proof.
  pose proof (Build_loaded AppSamples.fs (fun _ => Ok AppSamples.db) AppSamples.pk AppSamples.fmt_int
    AppSamples.fmt_float "broker.yaml" (Ok "document") AppSamples.yaml AppSamples.getenv AppSamples.cfg "1.0"
    AppSamples.now) as HB.
  destruct (Build _ _ _ _ _ _ _ _ None) as [p r] eqn:E.
  assert (is_ok r) as Hr by (replace r with ((p, r).2) by done; rewrite <-E; vm_compute; reflexivity).
  clear E. destruct r as [app|]; [|by destruct Hr]. exists app. split; [reflexivity|].
  destruct HB as (_ & -> & _); [vm_compute; reflexivity|]. vm_compute. reflexivity.
Defined.

Lemma shortened_timeout_refused_witness :
  ∃ e1 e2 : Engine Db,
    declared_queue (config.c_Engine AppSamples.cfg) AppSamples.brief 1000 (engine_on AppSamples.db) = (e1, Ok tt) ∧
    declared_queue (config.c_Engine AppSamples.cfg) AppSamples.brief 9000 (restarted e1) =
      (e2, Err (wrapError "app: declare queue brief: " (BrokerErr ErrQueueExists) "")).
Proof.
  destruct (declared_queue (config.c_Engine AppSamples.cfg) AppSamples.brief 1000 (engine_on AppSamples.db))
    as [e1 r] eqn:E.
  assert (r = Ok tt) as -> by (replace r with ((e1, r).2) by done; rewrite <-E; vm_compute; reflexivity).
  destruct (shortened_timeout_refused AppSamples.cfg AppSamples.db AppSamples.brief 1000 9000 e1) as (e2 & E2);
    [apply AppSamples.db_ok|reflexivity|apply (AppSamples.clocks_ok 0)|split; vm_compute; congruence|reflexivity| |exact E|].
  - vm_compute. congruence.
  - exists e1, e2. split; [reflexivity|exact E2].
Defined.

Lemma config_duration_roundtrip_witness : UnmarshalYAML "1m30.5s" (Ok (MarshalYAML 90500000000)) = Ok 90500000000%Z.
Proof. apply (config_duration_roundtrip 90500000000). split; vm_compute; congruence. Defined.
