(* ===== verification/Json.v ===== *)
(** Decoding a JSON text into a Go struct: package encoding/json as
    [internal/api/responses.go] uses it ([json.NewDecoder], with
    [DisallowUnknownFields], on a request body).

    The decoder reads the first value of the stream and ignores what follows
    it.  A value is first scanned as a whole ([read_value]: white space, nesting
    up to 10000 levels, numbers by the JSON grammar, strings with their escapes,
    invalid UTF-8 replaced by U+FFFD), then stored member by member: a member
    finds its field by the exact name or else without regard to case, a [null]
    leaves the field as it is (a [RawMessage] gets the text), the last of
    repeated members counts, and the first mismatch is the error.

    A member keeps the text of its value, which is what a [RawMessage] gets.
    The text of an error is left to the caller ([json_error]). *)

From S2P Require Import Prelude Errors HeaderJson.

Local Open Scope N_scope.

Inductive json :=
| JNull
| JBool (b : bool)
| JNumber (literal : string)
| JString (s : string)
| JArray (items : list json)
| JObject (members : list (string * (string * json))).

(** A value and the text behind it; the text ends too early; or is not JSON. *)
Inductive scan (A : Type) :=
| Scanned (a : A) (rest : string)
| TooShort
| Malformed.
Arguments Scanned {A}. Arguments TooShort {A}. Arguments Malformed {A}.

Definition scan_bind {A B} (r : scan A) (f : A → string → scan B) : scan B :=
  match r with Scanned a rest => f a rest | TooShort => TooShort | Malformed => Malformed end.

(** * Scanning *)

Definition is_space (c : ascii) : bool :=
  let n := N_of_ascii c in (n =? 32) || (n =? 9) || (n =? 13) || (n =? 10).

Fixpoint skip_space (s : string) : string :=
  match s with
  | String c s' => if is_space c then skip_space s' else s
  | EmptyString => ""
  end.

Definition is_digit (c : ascii) : bool := within 48 57 c.

Fixpoint take_digits (s : string) : string * string :=
  match s with
  | String c s' => if is_digit c then let '(ds, rest) := take_digits s' in (String c ds, rest) else ("", s)
  | EmptyString => ("", "")
  end.

(** At least one digit. *)
Definition read_digits1 (s : string) : scan string :=
  match s with
  | EmptyString => TooShort
  | String c _ => if is_digit c then let '(ds, rest) := take_digits s in Scanned ds rest else Malformed
  end.

Definition read_int (s : string) : scan string :=
  match s with
  | EmptyString => TooShort
  | String c s' =>
      if N_of_ascii c =? 48 then Scanned (String c "") s'
      else if within 49 57 c then let '(ds, rest) := take_digits s in Scanned ds rest
      else Malformed
  end.

Definition read_frac (s : string) : scan string :=
  match s with
  | String c s' =>
      if N_of_ascii c =? 46 then scan_bind (read_digits1 s') (fun ds rest => Scanned (String c ds) rest)
      else Scanned "" s
  | EmptyString => Scanned "" s
  end.

Definition read_exp (s : string) : scan string :=
  match s with
  | String c s' =>
      if (N_of_ascii c =? 101) || (N_of_ascii c =? 69) then
        match s' with
        | EmptyString => TooShort
        | String d s'' =>
            if (N_of_ascii d =? 43) || (N_of_ascii d =? 45)
            then scan_bind (read_digits1 s'') (fun ds rest => Scanned (String c (String d ds)) rest)
            else scan_bind (read_digits1 s') (fun ds rest => Scanned (String c ds) rest)
        end
      else Scanned "" s
  | EmptyString => Scanned "" s
  end.

Definition read_number (s : string) : scan string :=
  let '(sign, s) := match s with
    | String c s' => if N_of_ascii c =? 45 then (String c "", s') else ("", s)
    | EmptyString => ("", s)
    end in
  scan_bind (read_int s) (fun i s => scan_bind (read_frac s) (fun f s => scan_bind (read_exp s) (fun e s =>
    Scanned (sign +:+ i +:+ f +:+ e) s))).

(** The rest of a word such as [true]. *)
Fixpoint read_word (w s : string) : scan unit :=
  match w, s with
  | EmptyString, _ => Scanned tt s
  | String a w', String b s' => if Ascii.eqb a b then read_word w' s' else Malformed
  | String _ _, EmptyString => TooShort
  end.

(** ** Strings *)

Definition high_surrogate (r : N) : bool := (55296 <=? r) && (r <? 56320).
Definition low_surrogate (r : N) : bool := (56320 <=? r) && (r <? 57344).

(** [utf8.AppendRune] of a code point above U+FFFF. *)
Definition encode_rune4 (r : N) : string :=
  String (byte (240 + r / 262144)) (String (byte (128 + r / 4096 mod 64))
    (String (byte (128 + r / 64 mod 64)) (String (byte (128 + r mod 64)) ""))).

Definition replacement : string := encode_rune 65533.

Definition prepend_scan (pre : string) (r : scan string) : scan string :=
  scan_bind r (fun body rest => Scanned (pre +:+ body) rest).

(** What a text cut short inside an escape is: incomplete, unless what is there
    is wrong already. *)
Fixpoint cut_hex (s : string) : scan string :=
  match s with
  | EmptyString => TooShort
  | String c s' => if hex_value c then cut_hex s' else Malformed
  end.

(** After the opening quote. *)
Fixpoint read_text (s : string) : scan string :=
  match s with
  | EmptyString => TooShort
  | String a s1 =>
      let n := N_of_ascii a in
      if n =? 34 then Scanned "" s1
      else if n =? 92 then
        match s1 with
        | EmptyString => TooShort
        | String e s2 =>
            if N_of_ascii e =? 117 then
              match s2 with
              | String h1 (String h2 (String h3 (String h4 s6))) =>
                  match hex4 h1 h2 h3 h4 with
                  | None => Malformed
                  | Some r =>
                      let alone := prepend_scan (encode_rune r) (read_text s6) in
                      if high_surrogate r then
                        match s6 with
                        | String b1 (String b2 (String g1 (String g2 (String g3 (String g4 s12))))) =>
                            if (N_of_ascii b1 =? 92) && (N_of_ascii b2 =? 117) then
                              match hex4 g1 g2 g3 g4 with
                              | Some r2 =>
                                  if low_surrogate r2
                                  then prepend_scan (encode_rune4 (65536 + (r - 55296) * 1024 + (r2 - 56320)))
                                         (read_text s12)
                                  else alone
                              | None => Malformed
                              end
                            else alone
                        | _ => alone
                        end
                      else alone
                  end
              | _ => cut_hex s2
              end
            else match unescape e with
            | Some b => prepend_scan (String b "") (read_text s2)
            | None => Malformed
            end
        end
      else if n <? 32 then Malformed
      else if n <? 128 then prepend_scan (String a "") (read_text s1)
      else
        match s1 with
        | EmptyString => TooShort
        | String b s2 =>
            if rune2 a b then prepend_scan (String a (String b "")) (read_text s2) else
            match s2 with
            | EmptyString => prepend_scan replacement (read_text s1)
            | String c s3 =>
                if rune3 a b c then prepend_scan (String a (String b (String c ""))) (read_text s3) else
                match s3 with
                | EmptyString => prepend_scan replacement (read_text s1)
                | String d s4 =>
                    if rune4 a b c d
                    then prepend_scan (String a (String b (String c (String d "")))) (read_text s4)
                    else prepend_scan replacement (read_text s1)
                end
            end
        end
  end.

(** ** Values *)

Definition maxNestingDepth : N := 10000.

(** The first [n] bytes. *)
Fixpoint str_take (n : nat) (s : string) : string :=
  match n, s with
  | S n', String c s' => String c (str_take n' s')
  | _, _ => ""
  end.

(** The text between two positions. *)
Definition text_between (s rest : string) : string := str_take (String.length s - String.length rest) s.

(** [fuel] bounds the calls; twice the length of the text and two more are
    enough (JsonProofs.v: [read_value_enough]). *)
Fixpoint read_value (fuel : nat) (depth : N) (s : string) : scan json :=
  match fuel with
  | O => Malformed
  | S fuel =>
      match skip_space s with
      | EmptyString => TooShort
      | String c s' =>
          let n := N_of_ascii c in
          if n =? 123 then
            if maxNestingDepth <=? depth then Malformed else
            match skip_space s' with
            | EmptyString => TooShort
            | String d s'' =>
                if N_of_ascii d =? 125 then Scanned (JObject []) s''
                else scan_bind (read_members fuel (depth + 1) s') (fun ms rest => Scanned (JObject ms) rest)
            end
          else if n =? 91 then
            if maxNestingDepth <=? depth then Malformed else
            match skip_space s' with
            | EmptyString => TooShort
            | String d s'' =>
                if N_of_ascii d =? 93 then Scanned (JArray []) s''
                else scan_bind (read_items fuel (depth + 1) s') (fun xs rest => Scanned (JArray xs) rest)
            end
          else if n =? 34 then scan_bind (read_text s') (fun t rest => Scanned (JString t) rest)
          else if n =? 116 then scan_bind (read_word "rue" s') (fun _ rest => Scanned (JBool true) rest)
          else if n =? 102 then scan_bind (read_word "alse" s') (fun _ rest => Scanned (JBool false) rest)
          else if n =? 110 then scan_bind (read_word "ull" s') (fun _ rest => Scanned JNull rest)
          else scan_bind (read_number (String c s')) (fun l rest => Scanned (JNumber l) rest)
      end
  end
with read_members (fuel : nat) (depth : N) (s : string) : scan (list (string * (string * json))) :=
  match fuel with
  | O => Malformed
  | S fuel =>
      match skip_space s with
      | EmptyString => TooShort
      | String q s1 =>
          if negb (N_of_ascii q =? 34) then Malformed else
          scan_bind (read_text s1) (fun key s2 =>
          match skip_space s2 with
          | EmptyString => TooShort
          | String colon s3 =>
              if negb (N_of_ascii colon =? 58) then Malformed else
              let start := skip_space s3 in
              scan_bind (read_value fuel depth start) (fun v s4 =>
              let m := (key, (text_between start s4, v)) in
              match skip_space s4 with
              | EmptyString => TooShort
              | String d s5 =>
                  if N_of_ascii d =? 125 then Scanned [m] s5
                  else if N_of_ascii d =? 44
                  then scan_bind (read_members fuel depth s5) (fun ms rest => Scanned (m :: ms) rest)
                  else Malformed
              end)
          end)
      end
  end
with read_items (fuel : nat) (depth : N) (s : string) : scan (list json) :=
  match fuel with
  | O => Malformed
  | S fuel =>
      scan_bind (read_value fuel depth s) (fun v s1 =>
      match skip_space s1 with
      | EmptyString => TooShort
      | String d s2 =>
          if N_of_ascii d =? 93 then Scanned [v] s2
          else if N_of_ascii d =? 44
          then scan_bind (read_items fuel depth s2) (fun vs rest => Scanned (v :: vs) rest)
          else Malformed
      end)
  end.

Definition value_fuel (s : string) : nat := 2 * String.length s + 2.

(** * Storing *)

Inductive json_error :=
| JEOF
| JUnexpectedEOF
| JReadError (text : string)
| JSyntaxError
| JUnknownField (name : string)
| JTypeError (field : string).

(** Names compared without regard to case ([foldName]): besides the ASCII
    letters, U+017F folds to [s] and U+212A to [k]. *)
Definition fold_byte (c : ascii) : ascii :=
  let n := N_of_ascii c in if (65 <=? n) && (n <=? 90) then byte (n + 32) else c.

Fixpoint fold_name (s : string) : string :=
  match s with
  | EmptyString => ""
  | String a s1 =>
      let other := String (fold_byte a) (fold_name s1) in
      match s1 with
      | EmptyString => other
      | String b s2 =>
          if (N_of_ascii a =? 197) && (N_of_ascii b =? 191) then String "s" (fold_name s2)
          else match s2 with
          | EmptyString => other
          | String c s3 =>
              if (N_of_ascii a =? 226) && (N_of_ascii b =? 132) && (N_of_ascii c =? 170)
              then String "k" (fold_name s3) else other
          end
      end
  end.

(** A field of the struct: its name, and how it takes a value with its text. *)
Record field (T : Type) := mkField {
  fd_name : string;
  fd_store : string → json → T → option T;
}.
Arguments mkField {T}. Arguments fd_name {T}. Arguments fd_store {T}.

Definition find_field {T} (fields : list (field T)) (name : string) : option (field T) :=
  match List.find (fun f => bool_decide (fd_name f = name)) fields with
  | Some f => Some f
  | None => List.find (fun f => bool_decide (fold_name (fd_name f) = fold_name name)) fields
  end.

Definition store_member {T} (fields : list (field T)) (m : string * (string * json)) (target : T) :
    result json_error T :=
  match find_field fields m.1 with
  | None => Err (JUnknownField m.1)
  | Some f =>
      match fd_store f m.2.1 m.2.2 target with
      | Some target => Ok target
      | None => Err (JTypeError (fd_name f))
      end
  end.

Fixpoint store_members {T} (fields : list (field T)) (ms : list (string * (string * json))) (target : T) :
    result json_error T :=
  match ms with
  | [] => Ok target
  | m :: ms => store_member fields m target ≫= store_members fields ms
  end.

(** [strconv.ParseInt(literal, 10, 64)] *)
Fixpoint digits_value (acc : Z) (s : string) : option Z :=
  match s with
  | EmptyString => Some acc
  | String c s' =>
      if is_digit c then digits_value (10 * acc + (Z.of_N (N_of_ascii c) - 48))%Z s' else None
  end.

Definition ParseInt (literal : string) : option Z :=
  let '(negative, s) := match literal with
    | String c s' => if N_of_ascii c =? 45 then (true, s') else (false, literal)
    | EmptyString => (false, literal)
    end in
  v ← (if str_empty s then None else digits_value 0 s);
  let v := if negative : bool then (- v)%Z else v in
  if ((- 2 ^ 63 <=? v) && (v <? 2 ^ 63))%Z then Some v else None.

Definition string_field {T} (name : string) (set : string → T → T) : field T :=
  mkField name (fun _ v t => match v with JNull => Some t | JString s => Some (set s t) | _ => None end).
Definition bool_field {T} (name : string) (set : bool → T → T) : field T :=
  mkField name (fun _ v t => match v with JNull => Some t | JBool b => Some (set b t) | _ => None end).
Definition int_field {T} (name : string) (set : Z → T → T) : field T :=
  mkField name (fun _ v t =>
    match v with
    | JNull => Some t
    | JNumber l => match ParseInt l with Some n => Some (set n t) | None => None end
    | _ => None
    end).
(** [json.RawMessage] *)
Definition raw_field {T} (name : string) (set : string → T → T) : field T :=
  mkField name (fun text _ t => Some (set text t)).

(** [map[string]string]: the members are added to the map there is; a [null]
    member is the empty string. *)
Fixpoint store_map (ms : list (string * (string * json))) (m : gmap string string) : option (gmap string string) :=
  match ms with
  | [] => Some m
  | (k, (_, JString s)) :: ms => store_map ms (<[k := s]> m)
  | (k, (_, JNull)) :: ms => store_map ms (<[k := ""]> m)
  | _ => None
  end.
Definition map_field {T} (name : string) (get : T → gmap string string)
    (set : gmap string string → T → T) : field T :=
  mkField name (fun _ v t =>
    match v with
    | JNull => Some (set ∅ t)
    | JObject ms => match store_map ms (get t) with Some m => Some (set m t) | None => None end
    | _ => None
    end).

(** * The decoder *)

(** What can be read from a body, and the error it ends with other than the end. *)
Record reader := mkReader {
  rd_text : string;
  rd_error : option string;
}.

(** [decoder.Decode(target)] *)
Definition Decode {T} (fields : list (field T)) (r : reader) (target : T) : result json_error T :=
  match read_value (value_fuel (rd_text r)) 0 (rd_text r) with
  | Malformed => Err JSyntaxError
  | TooShort =>
      match rd_error r with
      | Some text => Err (JReadError text)
      | None => Err (if str_empty (skip_space (rd_text r)) then JEOF else JUnexpectedEOF)
      end
  | Scanned v _ =>
      match v with
      | JObject ms => store_members fields ms target
      | JNull => Ok target
      | _ => Err (JTypeError "")
      end
  end.
