(* ===== verification/JsonProofs.v ===== *)
(** The fuel of the JSON decoder ([Json.v]) is enough: every reader consumes at
    least one byte of what it is given, so more fuel than [value_fuel] changes
    nothing. *)

From S2P Require Import Prelude Errors HeaderJson Json.

Local Abbreviation len := String.length.

(** A scan that leaves at most [n] bytes behind. *)
Definition leaves {A} (n : nat) (r : scan A) : Prop :=
  match r with Scanned _ rest => (len rest ≤ n)%nat | _ => True end.

Lemma leaves_le {A} n m (r : scan A) : leaves n r → n ≤ m → leaves m r.
Proof. destruct r; simpl; lia. Qed.

Lemma leaves_bind {A B} n m (r : scan A) (f : A → string → scan B) :
  leaves n r → (∀ a rest, len rest ≤ n → leaves m (f a rest)) → leaves m (scan_bind r f).
Proof. destruct r; simpl; auto. Qed.

Lemma leaves_prepend n pre r : leaves n r → leaves n (prepend_scan pre r).
Proof. intros Hr. unfold prepend_scan. eapply leaves_bind; [done|]. auto. Qed.

Lemma skip_space_len s : len (skip_space s) ≤ len s.
Proof. induction s as [|c s IH]; simpl; [lia|]. case_match; simpl; lia. Qed.

Lemma take_digits_len s : len (take_digits s).2 ≤ len s.
Proof.
  induction s as [|c s IH]; [done|]. simpl. destruct (is_digit c); [|done].
  destruct (take_digits s) as [ds rest]. simpl in *. lia.
Qed.

Lemma read_digits1_leaves s : leaves (len s) (read_digits1 s).
Proof.
  unfold read_digits1. destruct s as [|c s]; [done|]. destruct (is_digit c); [|done].
  pose proof (take_digits_len (String c s)). by destruct (take_digits (String c s)).
Qed.

Lemma read_int_leaves s : leaves (len s - 1) (read_int s).
Proof.
  unfold read_int. destruct s as [|c s]; [done|]. case_match; [simpl; lia|]. destruct (within 49 57 c) eqn:Hw; [|done].
  assert (is_digit c = true) as Hd.
  { unfold is_digit, within in *. apply andb_true_iff in Hw as [H1%N.leb_le H2%N.leb_le].
    apply andb_true_iff. rewrite !N.leb_le. lia. }
  cbn [take_digits]. rewrite Hd. pose proof (take_digits_len s). destruct (take_digits s) as [ds rest]. simpl in *. lia.
Qed.

Lemma read_frac_leaves s : leaves (len s) (read_frac s).
Proof.
  unfold read_frac. destruct s as [|c s]; [simpl; lia|]. case_match; [|simpl; lia].
  eapply leaves_bind; [apply read_digits1_leaves|]. simpl. lia.
Qed.

Lemma read_exp_leaves s : leaves (len s) (read_exp s).
Proof.
  unfold read_exp. destruct s as [|c s]; [simpl; lia|]. case_match; [|simpl; lia]. destruct s as [|d s]; [done|].
  case_match; (eapply leaves_bind; [apply read_digits1_leaves|]; simpl; lia).
Qed.

Lemma read_number_leaves s : leaves (len s - 1) (read_number s).
Proof.
  unfold read_number.
  assert (∀ sign s', len s' ≤ len s → leaves (len s - 1)
    (scan_bind (read_int s') (fun i s => scan_bind (read_frac s) (fun f s => scan_bind (read_exp s) (fun e s =>
      Scanned (sign +:+ i +:+ f +:+ e) s))))) as Hn.
  { intros sign s' Hs'. eapply leaves_bind; [apply read_int_leaves|]. intros i s1 H1.
    eapply leaves_bind; [apply read_frac_leaves|]. intros f s2 H2.
    eapply leaves_bind; [apply read_exp_leaves|]. intros e s3 H3. unfold leaves. lia. }
  destruct s as [|c s]; [by apply Hn|]. destruct (N_of_ascii c =? 45)%N; apply Hn; simpl; lia.
Qed.

Lemma read_word_leaves w s : leaves (len s) (read_word w s).
Proof.
  revert s. induction w as [|a w IH]; intros s; [simpl; lia|]. destruct s as [|b s]; [done|]. cbn [read_word].
  case_match; [|done]. eapply leaves_le; [apply IH|]. simpl. lia.
Qed.

Lemma cut_hex_leaves s n : leaves n (cut_hex s).
Proof. induction s as [|c s IH]; [done|]. simpl. by case_match. Qed.

Lemma read_text_leaves s : leaves (len s) (read_text s).
Proof.
  remember (len s) as n eqn:Hn. assert (len s ≤ n) as Hle by lia. clear Hn.
  revert s Hle. induction n as [n IH] using lt_wf_ind. intros s Hle.
  assert (∀ pre s', len s' < len s → leaves n (prepend_scan pre (read_text s'))) as Hrec.
  { intros pre s' Hlt. apply leaves_prepend. eapply leaves_le; [apply (IH (len s')); lia|lia]. }
  destruct s as [|a s1]; [done|]. cbn [read_text].
  repeat first [ done | apply cut_hex_leaves | apply Hrec; simpl; lia | case_match ].
  simpl in *. lia.
Qed.

(** A value takes at least one byte, and so do members and items. *)
Lemma readers_leave fuel :
  (∀ depth s, leaves (len s - 1) (read_value fuel depth s)) ∧
  (∀ depth s, leaves (len s - 1) (read_members fuel depth s)) ∧
  (∀ depth s, leaves (len s - 1) (read_items fuel depth s)).
Proof.
  induction fuel as [|fuel (IHv & IHm & IHi)]; [done|]. split_and!; intros depth s.
  - cbn [read_value]. pose proof (skip_space_len s) as Hs. destruct (skip_space s) as [|c s']; [done|]. simpl in Hs.
    pose proof (skip_space_len s') as Hs'.
    assert (∀ A (f : A → json) r, leaves (len s') r →
      leaves (len s - 1) (scan_bind r (fun a rest => Scanned (f a) rest))) as Hb.
    { intros A f r Hr. eapply leaves_bind; [exact Hr|]. simpl. lia. }
    repeat case_match; try done; try (simpl in *; lia); apply Hb.
    all: first [apply read_text_leaves|apply read_word_leaves|eapply leaves_le; [apply IHm|lia]
      |eapply leaves_le; [apply IHi|lia]|eapply leaves_le; [apply read_number_leaves|simpl; lia]].
  - cbn [read_members]. pose proof (skip_space_len s) as Hs. destruct (skip_space s) as [|q s1]; [done|]. simpl in Hs.
    case_match; [done|]. eapply leaves_bind; [apply read_text_leaves|]. intros key s2 H2.
    pose proof (skip_space_len s2) as Hs2. destruct (skip_space s2) as [|colon s3]; [done|]. simpl in Hs2.
    case_match; [done|]. cbv zeta. eapply leaves_bind; [apply IHv|]. intros v s4 H4.
    pose proof (skip_space_len s3) as Hs3. pose proof (skip_space_len s4) as Hs4.
    destruct (skip_space s4) as [|d s5]; [done|]. simpl in Hs4. case_match; [simpl; lia|]. case_match; [|done].
    eapply leaves_bind; [apply IHm|]. simpl. lia.
  - cbn [read_items]. eapply leaves_bind; [apply IHv|]. intros v s1 H1. pose proof (skip_space_len s1) as Hs1.
    destruct (skip_space s1) as [|d s2]; [done|]. simpl in Hs1. case_match; [simpl; lia|]. case_match; [|done].
    eapply leaves_bind; [apply IHi|]. simpl. lia.
Qed.

Lemma scan_bind_ext {A B} n (r : scan A) (f g : A → string → scan B) :
  leaves n r → (∀ a rest, len rest ≤ n → f a rest = g a rest) → scan_bind r f = scan_bind r g.
Proof. destruct r; simpl; auto. Qed.

(** Enough fuel is enough: any two amounts of it agree. *)
Lemma readers_agree fuel :
  (∀ fuel' depth s, 2 * len s + 1 ≤ fuel → fuel ≤ fuel' → read_value fuel' depth s = read_value fuel depth s) ∧
  (∀ fuel' depth s, 2 * len s + 2 ≤ fuel → fuel ≤ fuel' → read_members fuel' depth s = read_members fuel depth s) ∧
  (∀ fuel' depth s, 2 * len s + 2 ≤ fuel → fuel ≤ fuel' → read_items fuel' depth s = read_items fuel depth s).
Proof.
  induction fuel as [|fuel (IHv & IHm & IHi)]; [split_and!; intros; lia|].
  split_and!; intros [|fuel'] depth s Hf Hf'; try lia.
  - cbn [read_value]. pose proof (skip_space_len s) as Hs. destruct (skip_space s) as [|c s']; [done|]. simpl in Hs.
    cbv zeta. rewrite IHm by lia. rewrite IHi by lia. done.
  - cbn [read_members]. pose proof (skip_space_len s) as Hs. destruct (skip_space s) as [|q s1]; [done|]. simpl in Hs.
    case_match; [done|]. eapply scan_bind_ext; [apply read_text_leaves|]. intros key s2 H2.
    pose proof (skip_space_len s2) as Hs2. destruct (skip_space s2) as [|colon s3]; [done|]. simpl in Hs2.
    case_match; [done|]. cbv zeta. pose proof (skip_space_len s3) as Hs3. rewrite IHv by lia.
    eapply scan_bind_ext; [apply readers_leave|]. intros v s4 H4. pose proof (skip_space_len s4) as Hs4.
    destruct (skip_space s4) as [|d s5]; [done|]. simpl in Hs4. rewrite IHm by lia. done.
  - cbn [read_items]. rewrite IHv by lia. eapply scan_bind_ext; [apply readers_leave|]. intros v s1 H1.
    pose proof (skip_space_len s1) as Hs1. destruct (skip_space s1) as [|d s2]; [done|]. simpl in Hs1.
    rewrite IHi by lia. done.
Qed.

Lemma read_value_enough fuel depth s :
  value_fuel s ≤ fuel → read_value fuel depth s = read_value (value_fuel s) depth s.
Proof. intros Hf. apply readers_agree; [unfold value_fuel; lia|done]. Qed.
