(* ===== verification/JsonText.v ===== *)
(** Strings decoded from JSON ([Json.v]) are valid UTF-8: whatever bytes a
    request holds, the decoder replaces what is not UTF-8, so that the strings a
    handler gets can be kept as headers ([HeaderJson.v]: [text_ok]). *)

From S2P Require Import Prelude Errors TimeProofs HeaderJson HeaderProofs Json JsonProofs.

Local Open Scope N_scope.
Local Abbreviation len := String.length.

(** * Runes *)

Lemma within_true lo hi c : lo ≤ N_of_ascii c ≤ hi → within lo hi c = true.
Proof. by rewrite within_spec. Qed.
Lemma outside lo hi c : N_of_ascii c < lo ∨ hi < N_of_ascii c → within lo hi c = false.
Proof. unfold within. rewrite andb_false_iff, !N.leb_gt. lia. Qed.

Lemma utf8_one a : ascii_byte a = true → utf8_valid (String a "") = true.
Proof. intros Ha. cbn [utf8_valid]. by rewrite Ha. Qed.

Lemma rune_leads a b : 194 ≤ N_of_ascii a → ascii_byte a = false ∧ (224 ≤ N_of_ascii a → rune2 a b = false).
Proof.
  intros Ha. split; [apply outside; lia|]. intros Ha'. unfold rune2. by rewrite (outside 194 223) by lia.
Qed.

Lemma utf8_two a b : rune2 a b = true → utf8_valid (String a (String b "")) = true.
Proof.
  intros Hr. pose proof Hr as [Ha%within_spec _]%andb_true_iff.
  cbn [utf8_valid]. destruct (rune_leads a b) as [-> _]; [lia|]. by rewrite Hr.
Qed.

Lemma rune3_lead a b c : rune3 a b c = true → 224 ≤ N_of_ascii a ≤ 239.
Proof.
  intros [Hr _]%andb_true_iff. rewrite !orb_true_iff, !andb_true_iff, !within_spec in Hr. lia.
Qed.
Lemma rune4_lead a b c d : rune4 a b c d = true → 240 ≤ N_of_ascii a.
Proof.
  intros [[Hr _]%andb_true_iff _]%andb_true_iff. rewrite !orb_true_iff, !andb_true_iff, !within_spec in Hr. lia.
Qed.

Lemma utf8_three a b c : rune3 a b c = true → utf8_valid (String a (String b (String c ""))) = true.
Proof.
  intros Hr. pose proof (rune3_lead _ _ _ Hr). cbn [utf8_valid].
  destruct (rune_leads a b) as [-> Hr2]; [lia|]. rewrite Hr2 by lia. by rewrite Hr.
Qed.

Lemma utf8_four a b c d : rune4 a b c d = true → utf8_valid (String a (String b (String c (String d "")))) = true.
Proof.
  intros Hr. pose proof (rune4_lead _ _ _ _ Hr). cbn [utf8_valid].
  destruct (rune_leads a b) as [-> Hr2]; [lia|]. rewrite Hr2 by lia.
  destruct (rune3 a b c) eqn:H3; [apply rune3_lead in H3; lia|]. by rewrite Hr.
Qed.

Lemma utf8_app s t : utf8_valid s = true → utf8_valid t = true → utf8_valid (s +:+ t) = true.
Proof.
  intros Hs Ht. revert s Hs. apply utf8_ind.
  - done.
  - intros a s Ha IH. rewrite str_app_cons. cbn [utf8_valid]. by rewrite Ha.
  - intros a b s Ha Hb IH. rewrite !str_app_cons. cbn [utf8_valid]. by rewrite Ha, Hb.
  - intros a b c s Ha Hb Hc IH. rewrite !str_app_cons. cbn [utf8_valid]. by rewrite Ha, Hb, Hc.
  - intros a b c d s Ha Hb Hc Hd IH. rewrite !str_app_cons. cbn [utf8_valid]. by rewrite Ha, Hb, Hc, Hd.
Qed.

(** ** Encoded code points *)

Lemma N_byte n : n < 256 → N_of_ascii (byte n) = n.
Proof. apply N_ascii_embedding. Qed.

Ltac euclid := zify; Z.to_euclidean_division_equations; lia.

Lemma rune3_of a b c :
  a < 256 → b < 256 → c < 256 → 224 ≤ a ≤ 239 → 128 ≤ b ≤ 191 → 128 ≤ c ≤ 191 →
  (a = 224 → 160 ≤ b) → (a = 237 → b ≤ 159) → rune3 (byte a) (byte b) (byte c) = true.
Proof.
  intros ? ? ? Ha Hb Hc H0 H13. unfold rune3, cont_byte.
  rewrite andb_true_iff, !orb_true_iff, !andb_true_iff, !within_spec, !N_byte by done. lia.
Qed.

Lemma encode_rune_utf8 n : n < 65536 → utf8_valid (encode_rune n) = true.
Proof.
  intros Hn. unfold encode_rune. destruct (N.ltb_spec n 128).
  { apply utf8_one, within_true. rewrite N_byte; lia. }
  destruct (N.ltb_spec n 2048).
  { apply utf8_two. unfold rune2, cont_byte. rewrite andb_true_iff, !within_spec, !N_byte; euclid. }
  set (m := if (55296 <=? n) && (n <=? 57343) then 65533 else n).
  assert (2048 ≤ m < 65536 ∧ (m < 55296 ∨ 57343 < m)) as [Hm Hs].
  { subst m. case_match eqn:Hc; [lia|]. apply andb_false_iff in Hc as [?%N.leb_gt|?%N.leb_gt]; lia. }
  clearbody m. apply utf8_three, rune3_of; euclid.
Qed.

Lemma encode_rune4_utf8 r : 65536 ≤ r < 1114112 → utf8_valid (encode_rune4 r) = true.
Proof.
  intros Hr. unfold encode_rune4. apply utf8_four. unfold rune4, cont_byte.
  rewrite !andb_true_iff, !orb_true_iff, !andb_true_iff, !within_spec, !N_byte; euclid.
Qed.

Lemma hex_value_below c n : hex_value c = Some n → n < 16.
Proof.
  unfold hex_value. repeat case_match; intros [= <-];
    repeat match goal with H : _ && _ = true |- _ => apply andb_true_iff in H as [?%N.leb_le ?%N.leb_le] end; lia.
Qed.

Lemma hex4_below a b c d n : hex4 a b c d = Some n → n < 65536.
Proof.
  unfold hex4. destruct (hex_value a) eqn:Ha, (hex_value b) eqn:Hb, (hex_value c) eqn:Hc, (hex_value d) eqn:Hd;
    simpl; try done. intros [= <-]. apply hex_value_below in Ha, Hb, Hc, Hd. lia.
Qed.

Lemma unescape_ascii e b : unescape e = Some b → ascii_byte b = true.
Proof.
  unfold unescape. repeat case_match; intros [= <-]; try done.
  repeat match goal with H : _ || _ = true |- _ => apply orb_true_iff in H as [H|H] end;
    apply within_true; apply N.eqb_eq in H; rewrite H; lia.
Qed.

(** * Strings *)

(** What a scan brings back. *)
Definition yields {A} (P : A → Prop) (r : scan A) : Prop :=
  match r with Scanned a _ => P a | _ => True end.

Lemma text_yields_bind {A B} (P : A → Prop) (Q : B → Prop) (r : scan A) (f : A → string → scan B) :
  yields P r → (∀ a rest, P a → yields Q (f a rest)) → yields Q (scan_bind r f).
Proof. destruct r; simpl; auto. Qed.

Local Abbreviation valid := (fun s => utf8_valid s = true).

Lemma prepend_valid pre r : utf8_valid pre = true → yields valid r → yields valid (prepend_scan pre r).
Proof. intros Hp Hr. eapply text_yields_bind; [exact Hr|]. intros body rest Hb. by apply utf8_app. Qed.

Lemma read_text_utf8 s : yields valid (read_text s).
Proof.
  remember (len s) as n eqn:Hn. assert (len s ≤ n)%nat as Hle by lia. clear Hn.
  revert s Hle. induction n as [n IH] using lt_wf_ind. intros s Hle.
  assert (∀ pre s', (len s' < len s)%nat → utf8_valid pre = true → yields valid (prepend_scan pre (read_text s'))) as Hrec.
  { intros pre s' Hlt Hpre. apply prepend_valid; [done|]. apply (IH (len s')); lia. }
  assert (∀ t, yields valid (cut_hex t)) as Hcut by (induction t as [|c t IHt]; [done|simpl; by case_match]).
  destruct s as [|a s1]; [done|]. cbn [read_text]. cbv zeta.
  repeat first
    [ done | apply Hcut
    | apply Hrec; [simpl; lia|]; first
        [ by eapply encode_rune_utf8, hex4_below | by apply utf8_two | by apply utf8_three | by apply utf8_four
        | by eapply utf8_one, unescape_ascii
        | apply utf8_one, within_true; match goal with H : (_ <? 128) = true |- _ => apply N.ltb_lt in H; lia end ]
    | case_match ].
  apply Hrec; [simpl; lia|]. apply encode_rune4_utf8. unfold high_surrogate, low_surrogate in *.
  repeat match goal with H : _ && _ = true |- _ => apply andb_true_iff in H as [? ?] end.
  rewrite !N.leb_le, !N.ltb_lt in *. lia.
Qed.

(** * Values *)

Fixpoint json_valid (v : json) : Prop :=
  match v with
  | JString s => utf8_valid s = true
  | JArray items => (fix all l := match l with [] => True | x :: l => json_valid x ∧ all l end) items
  | JObject ms =>
      (fix all (l : list (string * (string * json))) :=
         match l with [] => True | (k, (_, x)) :: l => utf8_valid k = true ∧ json_valid x ∧ all l end) ms
  | _ => True
  end.

Definition member_valid (m : string * (string * json)) : Prop := utf8_valid m.1 = true ∧ json_valid m.2.2.

Lemma json_valid_object ms : json_valid (JObject ms) ↔ Forall member_valid ms.
Proof.
  induction ms as [|[k [t x]] ms IH]; [by split|]. rewrite Forall_cons, <-IH. unfold member_valid. simpl. tauto.
Qed.
Lemma json_valid_array xs : json_valid (JArray xs) ↔ Forall json_valid xs.
Proof. induction xs as [|x xs IH]; [by split|]. rewrite Forall_cons, <-IH. done. Qed.

Lemma readers_valid fuel :
  (∀ depth s, yields json_valid (read_value fuel depth s)) ∧
  (∀ depth s, yields (Forall member_valid) (read_members fuel depth s)) ∧
  (∀ depth s, yields (Forall json_valid) (read_items fuel depth s)).
Proof.
  induction fuel as [|fuel (IHv & IHm & IHi)]; [done|]. split_and!; intros depth s.
  - cbn [read_value]. destruct (skip_space s) as [|c s']; [done|].
    repeat case_match; try done.
    all: first [ eapply text_yields_bind; [apply IHm|]; intros; by apply json_valid_object
      | eapply text_yields_bind; [apply IHi|]; intros; by apply json_valid_array
      | eapply text_yields_bind; [apply read_text_utf8|]; by intros
      | eapply (text_yields_bind (fun _ => True)); [by destruct (read_word _ _)|by intros]
      | eapply (text_yields_bind (fun _ => True)); [by destruct (read_number _)|by intros] ].
  - cbn [read_members]. destruct (skip_space s) as [|q s1]; [done|]. case_match; [done|].
    eapply text_yields_bind; [apply read_text_utf8|]. intros key s2 Hk. destruct (skip_space s2) as [|colon s3]; [done|].
    case_match; [done|]. cbv zeta. eapply text_yields_bind; [apply IHv|]. intros v s4 Hv.
    destruct (skip_space s4) as [|d s5]; [done|]. case_match; [by apply Forall_singleton|]. case_match; [|done].
    eapply text_yields_bind; [apply IHm|]. intros ms rest Hms. by constructor.
  - cbn [read_items]. eapply text_yields_bind; [apply IHv|]. intros v s1 Hv. destruct (skip_space s1) as [|d s2]; [done|].
    case_match; [by apply Forall_singleton|]. case_match; [|done].
    eapply text_yields_bind; [apply IHi|]. intros vs rest Hvs. by constructor.
Qed.

(** * Decoding *)

Lemma store_map_text ms m m' :
  Forall member_valid ms → text_ok m → store_map ms m = Some m' → text_ok m'.
Proof.
  intros Hms. revert m. induction Hms as [|[k [t x]] ms [Hk Hx] Hms IH]; intros m Hm; [by intros [= <-]|].
  cbn [store_map]. simpl in Hk, Hx. destruct x; try done; apply IH; by apply map_Forall_insert_2.
Qed.

(** A property of the target that every field keeps is kept by [Decode]. *)
Lemma Decode_keeps {T} (P : T → Prop) (fields : list (field T)) r target target' :
  (∀ f text v t t', f ∈ fields → json_valid v → P t → fd_store f text v t = Some t' → P t') →
  P target → Decode fields r target = Ok target' → P target'.
Proof.
  intros Hf Ht. unfold Decode.
  pose proof (proj1 (readers_valid (value_fuel (rd_text r))) 0 (rd_text r)) as Hv.
  destruct (read_value _ _ _) as [v rest| |]; simpl in Hv; [|by case_match|done].
  destruct v; try done; [by intros [= <-]|]. apply json_valid_object in Hv. revert target Ht.
  induction Hv as [|m ms [_ Hm] Hms IH]; intros t Ht; [by intros [= <-]|]. cbn [store_members].
  unfold store_member. destruct (find_field fields m.1) as [f|] eqn:Hfind; [|done].
  assert (f ∈ fields) as Hin.
  { unfold find_field in Hfind. apply list_elem_of_In. repeat case_match; simplify_eq; by eapply find_some. }
  destruct (fd_store f m.2.1 m.2.2 t) as [t'|] eqn:Hs; [|done]. simpl. apply IH. by eapply Hf.
Qed.
