(* ===== verification/Api.v ===== *)
(** The HTTP interface: [internal/api].

    A handler runs on the engine and answers with a [response].  The body of a
    response is the value the handler encodes ([body]); encoding it as JSON text
    is not part of the model, the decoding of requests is (Json.v).  A request
    comes as net/http hands it over: method, cleaned path in decoded segments,
    query, the length the client declared (-1 when it did not) and what can be
    read from the body.

    An outcome [Err] of a handler is a panic, which [recoverPanics] answers.
    The request log and the failures of writing a response are in Middleware.v,
    which has the middlewares as they wrap one another on the response writer.
    The registry and the server read the wall clock. *)

From S2P Require Import Prelude Errors MessageId Message Broker Storage Float64 DurationText Retry Logging.
From S2P Require Import Engine Metrics Schema HeaderJson Json.

Local Open Scope Z_scope.

Module api.

(** * Requests *)

Record Request := mkRequest {
  rq_Method : string;
  rq_Path : list string;
  rq_Query : string → string;
  rq_RequestID : string;
  rq_ContentLength : Z;
  rq_Body : reader;
}.

Record publishRequest := mkPublishRequest {
  pq_Exchange : string;
  pq_RoutingKey : string;
  pq_Payload : string;
  pq_Headers : gmap string string;
  pq_Schema : string;
}.
Definition publish_fields : list (field publishRequest) := [
  string_field "exchange" (fun v r => mkPublishRequest v (pq_RoutingKey r) (pq_Payload r) (pq_Headers r) (pq_Schema r));
  string_field "routing_key" (fun v r => mkPublishRequest (pq_Exchange r) v (pq_Payload r) (pq_Headers r) (pq_Schema r));
  raw_field "payload" (fun v r => mkPublishRequest (pq_Exchange r) (pq_RoutingKey r) v (pq_Headers r) (pq_Schema r));
  map_field "headers" pq_Headers
    (fun v r => mkPublishRequest (pq_Exchange r) (pq_RoutingKey r) (pq_Payload r) v (pq_Schema r));
  string_field "schema" (fun v r => mkPublishRequest (pq_Exchange r) (pq_RoutingKey r) (pq_Payload r) (pq_Headers r) v)].

Record consumeRequest := mkConsumeRequest {
  cq_Consumer : string;
  cq_Limit : Z;
  cq_Lease : string;
}.
Definition consume_fields : list (field consumeRequest) := [
  string_field "consumer" (fun v r => mkConsumeRequest v (cq_Limit r) (cq_Lease r));
  int_field "limit" (fun v r => mkConsumeRequest (cq_Consumer r) v (cq_Lease r));
  string_field "lease" (fun v r => mkConsumeRequest (cq_Consumer r) (cq_Limit r) v)].

Record nackRequest := mkNackRequest {
  nq_Reason : string;
  nq_Requeue : bool;
}.
Definition nack_fields : list (field nackRequest) := [
  string_field "reason" (fun v r => mkNackRequest v (nq_Requeue r));
  bool_field "requeue" (fun v r => mkNackRequest (nq_Reason r) v)].

Record exchangeRequest := mkExchangeRequest {
  eq_Name : string;
  eq_Kind : string;
  eq_Durable : bool;
}.
Definition exchange_fields : list (field exchangeRequest) := [
  string_field "name" (fun v r => mkExchangeRequest v (eq_Kind r) (eq_Durable r));
  string_field "kind" (fun v r => mkExchangeRequest (eq_Name r) v (eq_Durable r));
  bool_field "durable" (fun v r => mkExchangeRequest (eq_Name r) (eq_Kind r) v)].

Record queueRequest := mkQueueRequest {
  qq_Name : string;
  qq_Durable : bool;
  qq_MaxAttempts : Z;
  qq_VisibilityTimeout : string;
  qq_Schema : string;
}.
Definition queue_fields : list (field queueRequest) := [
  string_field "name" (fun v r =>
    mkQueueRequest v (qq_Durable r) (qq_MaxAttempts r) (qq_VisibilityTimeout r) (qq_Schema r));
  bool_field "durable" (fun v r =>
    mkQueueRequest (qq_Name r) v (qq_MaxAttempts r) (qq_VisibilityTimeout r) (qq_Schema r));
  int_field "max_attempts" (fun v r =>
    mkQueueRequest (qq_Name r) (qq_Durable r) v (qq_VisibilityTimeout r) (qq_Schema r));
  string_field "visibility_timeout" (fun v r =>
    mkQueueRequest (qq_Name r) (qq_Durable r) (qq_MaxAttempts r) v (qq_Schema r));
  string_field "schema" (fun v r =>
    mkQueueRequest (qq_Name r) (qq_Durable r) (qq_MaxAttempts r) (qq_VisibilityTimeout r) v)].

Record bindingRequest := mkBindingRequest {
  bq_Exchange : string;
  bq_Queue : string;
  bq_RoutingKey : string;
}.
Definition binding_fields : list (field bindingRequest) := [
  string_field "exchange" (fun v r => mkBindingRequest v (bq_Queue r) (bq_RoutingKey r));
  string_field "queue" (fun v r => mkBindingRequest (bq_Exchange r) v (bq_RoutingKey r));
  string_field "routing_key" (fun v r => mkBindingRequest (bq_Exchange r) (bq_Queue r) v)].

(** * Responses *)

Record queueView := mkQueueView {
  qv_Name : string;
  qv_Durable : bool;
  qv_MaxAttempts : Z;
  qv_VisibilityTimeout : string;
  qv_Schema : string;
  qv_CreatedAt : Time;
  qv_Depth : Depth;
  qv_DeadLettered : Z;
}.

Record consumeResponse := mkConsumeResponse {
  cp_Queue : string;
  cp_Consumer : string;
  cp_Lease : string;
  cp_Messages : list Message;
}.

Inductive body :=
| NoBody
| BodyError (error message : string) (violations : list Violation)
| BodyHealth (status version : string) (time : Time)
| BodyReady (status : string) (queues exchanges consumers : nat)
| BodyText (text : string)
| BodyExchange (x : Exchange)
| BodyExchanges (xs : list Exchange)
| BodyExchangeBindings (x : Exchange) (bs : list Binding)
| BodyQueue (q : queueView)
| BodyQueues (qs : list queueView)
| BodyPurged (n : Z)
| BodyBinding (b : Binding)
| BodyBindings (bs : list Binding)
| BodyPublished (r : PublishResult)
| BodyMessage (m : Message) (history : list HistoryEvent)
| BodyHistory (history : list HistoryEvent)
| BodyConsumed (r : consumeResponse)
| BodyAcknowledged (id : string) (state : State) (at_ : Time)
| BodyNacked (id : string) (state : State) (attempts : Z) (available : Time)
| BodyDeadLetters (entries : list DeadLetter) (total limit offset : Z)
| BodyDeadLetter (d : DeadLetter)
| BodyReplayed (r : ReplayResult)
| BodySchemas (defs : list Definition_)
| BodyConsumers (cs : list ConsumerSpec).

Record response := mkResponse {
  rs_Status : Z;
  rs_ContentType : string;
  rs_RequestID : string;
  rs_Body : body;
}.

Definition json_type : string := "application/json; charset=utf-8".
Definition prometheusContentType : string := "text/plain; version=0.0.4; charset=utf-8".

Definition writeJSON (status : Z) (b : body) : response := mkResponse status json_type "" b.
Definition writeError (status : Z) (code detail : string) : response :=
  writeJSON status (BodyError code detail []).
(** [w.WriteHeader(status)] *)
Definition write_status (status : Z) : response := mkResponse status "" "" NoBody.

Definition StatusOK : Z := 200.
Definition StatusCreated : Z := 201.
Definition StatusAccepted : Z := 202.
Definition StatusNoContent : Z := 204.
Definition StatusBadRequest : Z := 400.
Definition StatusNotFound : Z := 404.
Definition StatusMethodNotAllowed : Z := 405.
Definition StatusConflict : Z := 409.
Definition StatusUnprocessableEntity : Z := 422.
Definition StatusInternalServerError : Z := 500.
Definition StatusServiceUnavailable : Z := 503.

(** * responses.go *)

Definition classify (err : error) : Z * string :=
  if errors_As_Validation err then (StatusUnprocessableEntity, "schema_validation_failed")
  else if errors_Is err (SOther ErrSchemaNotFound) then (StatusUnprocessableEntity, "unknown_schema")
  else if errors_As_Field err then (StatusBadRequest, "invalid_request")
  else if errors_Is err (SBroker ErrUnroutable) then (StatusUnprocessableEntity, "unroutable")
  else if errors_Is err (SBroker ErrQueueExists) || errors_Is err (SBroker ErrExchangeExists) ||
          errors_Is err (SBroker ErrQueueInUse) || errors_Is err (SEngine ErrConsumerExists) ||
          errors_Is err (SStorage ErrConflict) then (StatusConflict, "conflict")
  else if errors_As_StateError err then (StatusConflict, "invalid_state")
  else if errors_Is err (SBroker ErrQueueNotFound) || errors_Is err (SBroker ErrExchangeNotFound) ||
          errors_Is err (SBroker ErrBindingNotFound) || errors_Is err (SBroker ErrMessageNotFound) ||
          errors_Is err (SEngine ErrConsumerNotFound) || errors_Is err (SStorage ErrNotFound)
       then (StatusNotFound, "not_found")
  else (StatusInternalServerError, "internal_error").

Definition fail (err : error) : response :=
  let '(status, code) := classify err in
  match errors_As_Validation err with
  | Some (schema, violations) => writeJSON status (BodyError code (validation_text schema violations) violations)
  | None => writeError status code (Error err)
  end.

(** [strconv.Atoi] *)
Definition Atoi (s : string) : option Z :=
  match s with
  | String c s' => if (N_of_ascii c =? 43)%N then (if str_has_prefix "-" s' then None else ParseInt s') else ParseInt s
  | EmptyString => None
  end.

Definition intQuery (r : Request) (name : string) (fallback : Z) : Z :=
  let raw := rq_Query r name in
  if str_empty raw then fallback
  else match Atoi raw with
  | Some parsed => if parsed <? 0 then fallback else parsed
  | None => fallback
  end.

(** topology.go *)
Definition optionalDuration (raw : string) : result error Duration :=
  if str_empty raw then Ok 0
  else match ParseDuration raw with
  | Ok parsed => Ok parsed
  | Err _ => Err (FieldError "visibility_timeout" "must be a duration such as 30s")
  end.

(** * server.go *)

Definition defaultMaxBodyBytes : Z := 2 ^ 20.

Section server.
Context {S : Type} `{StoreOps S} (E : env) (policy : Policy) (unrepresentable : float64 → Z).
Context {doc compiled : Type} (pk : packages doc compiled).
Context (schemas : option (gmap string (entry compiled))).
(** Whether there is a metrics registry, [%g], and the texts of decoding errors. *)
Context (has_metrics : bool) (print_g : float64 → string) (json_text : json_error → string).
Context (version : string).

Abbreviation handler := (prog (Engine S) response).

(** The validator the engine was created with. *)
Definition validator : option (string → string → result error unit) :=
  match schemas with Some r => Some (Schema.Validate pk r) | None => None end.

(** [a, err := p(); if err != nil { s.fail(w, r, err); return }]: a panic goes on. *)
Definition or_fail {A} (p : prog (Engine S) A) (k : A → handler) : handler :=
  r ← (attempting p : prog (Engine S) _);
  match r with
  | Ok a => k a
  | Err (RuntimePanic text) => fails (RuntimePanic text)
  | Err err => mret (fail err)
  end.

(** [if !decodeBody(w, r, &request) { return }] *)
Definition decodeBody {T} (fields : list (field T)) (r : Request) (target : T) (k : T → handler) : handler :=
  match Decode fields (rq_Body r) target with
  | Ok request => k request
  | Err e => mret (writeError StatusBadRequest "invalid_request"
                     ("request body could not be decoded: " +:+ json_text e))
  end.

(** [if r.ContentLength > 0 && !decodeBody(...)] *)
Definition optional_body {T} (fields : list (field T)) (r : Request) (target : T) (k : T → handler) : handler :=
  if 0 <? rq_ContentLength r then decodeBody fields r target k else k target.

(** ** messages.go *)

Definition handlePublish (r : Request) : handler :=
  decodeBody publish_fields r (mkPublishRequest "" "" "" ∅ "") (fun request =>
  if str_empty (pq_Payload request)
  then mret (writeError StatusBadRequest "invalid_request" "payload must not be empty")
  else or_fail (Engine_Publish E validator (mkPublication (pq_Exchange request) (pq_RoutingKey request)
                  (pq_Payload request) (pq_Headers request) (pq_Schema request))) (fun result =>
       mret (writeJSON StatusAccepted (BodyPublished result)))).

Definition handleGetMessage (id : string) (r : Request) : handler :=
  or_fail (Engine_Message id) (fun msg =>
  history ← (attempting (Engine_History (msg_ID msg)) : prog (Engine S) _);
  mret (writeJSON StatusOK (BodyMessage msg (match history with Ok h => h | Err _ => [] end)))).

Definition handleGetMessageHistory (id : string) (r : Request) : handler :=
  or_fail (Engine_History id) (fun history => mret (writeJSON StatusOK (BodyHistory history))).

(** ** consume.go *)

Definition handleConsume (queue : string) (r : Request) : handler :=
  optional_body consume_fields r (mkConsumeRequest "" (intQuery r "limit" 0) "") (fun request =>
  match optionalDuration (cq_Lease request) with
  | Err err => mret (fail err)
  | Ok lease =>
      or_fail (Engine_Pull E (mkPullRequest queue (cq_Consumer request) (cq_Limit request) lease)) (fun claimed =>
      registry ← (gets e_registry : prog (Engine S) _);
      let lease_text :=
        if 0 <? lease then Duration_String lease
        else match Registry_Queue queue registry with
        | Ok definition => Duration_String (q_VisibilityTimeout definition)
        | Err _ => ""
        end in
      mret (match claimed with
            | [] => writeJSON StatusNoContent NoBody
            | _ => writeJSON StatusOK (BodyConsumed
                     (mkConsumeResponse queue (cq_Consumer request) lease_text claimed))
            end))
  end).

Definition handleAck (id : string) (r : Request) : handler :=
  or_fail (Engine_Ack E id) (fun _ =>
  now ← time_Now E;
  mret (writeJSON StatusOK (BodyAcknowledged id StateAcknowledged now))).

Definition handleNack (id : string) (r : Request) : handler :=
  optional_body nack_fields r (mkNackRequest "" false) (fun request =>
  or_fail (Engine_Nack E policy unrepresentable id (nq_Reason request) (nq_Requeue request)) (fun _ =>
  or_fail (Engine_Message id) (fun msg =>
  mret (writeJSON StatusOK (BodyNacked id (msg_State msg) (msg_Attempts msg) (msg_AvailableAt msg)))))).

(** ** deadletter.go *)

Definition handleListDeadLetters (r : Request) : handler :=
  let filter := Normalise (mkDeadLetterFilter (rq_Query r "queue") (intQuery r "limit" 0) (intQuery r "offset" 0)) in
  or_fail (Engine_DeadLetters filter) (fun entries =>
  or_fail (Engine_CountDeadLetters (df_Queue filter)) (fun total =>
  mret (writeJSON StatusOK (BodyDeadLetters entries total (df_Limit filter) (df_Offset filter))))).

Definition handleGetDeadLetter (id : string) (r : Request) : handler :=
  or_fail (Engine_DeadLetter id) (fun entry => mret (writeJSON StatusOK (BodyDeadLetter entry))).

Definition handleRetryDeadLetter (id : string) (r : Request) : handler :=
  or_fail (Engine_ReplayDeadLetter E id) (fun result => mret (writeJSON StatusAccepted (BodyReplayed result))).

Definition handleDeleteDeadLetter (id : string) (r : Request) : handler :=
  or_fail (Engine_DiscardDeadLetter id) (fun _ => mret (write_status StatusNoContent)).

Definition handleListSchemas (r : Request) : handler :=
  mret (writeJSON StatusOK (BodySchemas (match schemas with Some s => Definitions s | None => [] end))).

(** [Consumers]: the consumers in the order of the map; the counters of their
    pools are left out. *)
Definition consumers_of (e : Engine S) : list ConsumerSpec := snd <$> map_to_list (e_consumers e).

Definition handleListConsumers (r : Request) : handler :=
  consumers ← (gets consumers_of : prog (Engine S) _);
  mret (writeJSON StatusOK (BodyConsumers consumers)).

(** ** topology.go *)

Definition handleDeclareExchange (r : Request) : handler :=
  decodeBody exchange_fields r (mkExchangeRequest "" "" false) (fun request =>
  match ParseExchangeKind (eq_Kind request) with
  | Err err => mret (fail err)
  | Ok kind =>
      now ← time_Now E;
      or_fail (Engine_DeclareExchange (mkExchangeSpec (eq_Name request) kind (eq_Durable request)) now)
        (fun exchange => mret (writeJSON StatusCreated (BodyExchange exchange)))
  end).

Definition handleListExchanges (r : Request) : handler :=
  exchanges ← (gets (fun e => Registry_Exchanges (e_registry e)) : prog (Engine S) _);
  mret (writeJSON StatusOK (BodyExchanges exchanges)).

Definition handleGetExchange (name : string) (r : Request) : handler :=
  or_fail (registry_get (Registry_Exchange name)) (fun exchange =>
  bindings ← (gets (fun e => Registry_Bindings (ex_Name exchange) (e_registry e)) : prog (Engine S) _);
  mret (writeJSON StatusOK (BodyExchangeBindings exchange bindings))).

Definition describeQueue (queue : Queue) : prog (Engine S) queueView :=
  depth ← (attempting (Engine_Depth (q_Name queue)) : prog (Engine S) _);
  count ← (attempting (Engine_CountDeadLetters (q_Name queue)) : prog (Engine S) _);
  mret (mkQueueView (q_Name queue) (q_Durable queue) (q_MaxAttempts queue)
          (Duration_String (q_VisibilityTimeout queue)) (q_Schema queue) (q_CreatedAt queue)
          (match depth with Ok d => d | Err _ => mkDepth 0 0 0 0 end)
          (match count with Ok n => n | Err _ => 0 end)).

Definition handleDeclareQueue (r : Request) : handler :=
  decodeBody queue_fields r (mkQueueRequest "" false 0 "" "") (fun request =>
  match optionalDuration (qq_VisibilityTimeout request) with
  | Err err => mret (fail err)
  | Ok visibility =>
      if negb (str_empty (qq_Schema request)) &&
         match schemas with Some s => negb (Has (qq_Schema request) s) | None => false end
      then mret (writeError StatusUnprocessableEntity "unknown_schema"
                   ("schema " +:+ qq_Schema request +:+ " is not registered"))
      else
        now ← time_Now E;
        or_fail (Engine_DeclareQueue (mkQueueSpec (qq_Name request) (qq_Durable request) (qq_MaxAttempts request)
                   visibility (qq_Schema request)) now) (fun queue =>
        view ← describeQueue queue;
        mret (writeJSON StatusCreated (BodyQueue view)))
  end).

(** The loop of [handleListQueues]. *)
Fixpoint describe_all (queues : list Queue) (views : list queueView) : prog (Engine S) (list queueView) :=
  match queues with
  | [] => mret views
  | queue :: rest => view ← describeQueue queue; describe_all rest (views ++ [view])
  end.

Definition handleListQueues (r : Request) : handler :=
  queues ← (gets (fun e => Registry_Queues (e_registry e)) : prog (Engine S) _);
  views ← describe_all queues [];
  mret (writeJSON StatusOK (BodyQueues views)).

Definition handleGetQueue (name : string) (r : Request) : handler :=
  or_fail (registry_get (Registry_Queue name)) (fun queue =>
  view ← describeQueue queue;
  mret (writeJSON StatusOK (BodyQueue view))).

Definition handleDeleteQueue (name : string) (r : Request) : handler :=
  or_fail (Engine_DeleteQueue name) (fun _ => mret (write_status StatusNoContent)).

Definition handlePurgeQueue (name : string) (r : Request) : handler :=
  or_fail (Engine_Purge name) (fun purged => mret (writeJSON StatusOK (BodyPurged purged))).

Definition handleBind (r : Request) : handler :=
  decodeBody binding_fields r (mkBindingRequest "" "" "") (fun request =>
  now ← time_Now E;
  or_fail (Engine_Bind (mkBindingSpec (bq_Exchange request) (bq_Queue request) (bq_RoutingKey request)) now)
    (fun binding => mret (writeJSON StatusCreated (BodyBinding binding)))).

Definition handleListBindings (r : Request) : handler :=
  let exchange := rq_Query r "exchange" in
  bindings ← (gets (fun e => if negb (str_empty exchange) then Registry_Bindings exchange (e_registry e)
                             else Registry_AllBindings (e_registry e)) : prog (Engine S) _);
  mret (writeJSON StatusOK (BodyBindings bindings)).

Definition handleUnbind (r : Request) : handler :=
  decodeBody binding_fields r (mkBindingRequest "" "" "") (fun request =>
  or_fail (Engine_Unbind (mkBindingSpec (bq_Exchange request) (bq_Queue request) (bq_RoutingKey request)))
    (fun _ => mret (write_status StatusNoContent))).

(** ** system.go *)

Definition handleHealth (r : Request) : handler :=
  now ← time_Now E; mret (writeJSON StatusOK (BodyHealth "ok" version now)).

Definition handleReady (r : Request) : handler :=
  ping ← (attempting Engine_Ping : prog (Engine S) _);
  match ping with
  | Err err => mret (writeError StatusServiceUnavailable "storage_unavailable" (Error err))
  | Ok _ =>
      e ← (gets id : prog (Engine S) _);
      mret (writeJSON StatusOK (BodyReady "ready" (length (Registry_QueueNames (e_registry e)))
              (length (Registry_Exchanges (e_registry e))) (length (consumers_of e))))
  end.

Definition handleMetrics (r : Request) : handler :=
  if negb has_metrics then mret (writeError StatusNotFound "not_found" "metrics are not enabled")
  else
    RefreshQueueDepths ≫= fun _ =>
    calls ← (gets e_metrics : prog (Engine S) _);
    mret (mkResponse StatusOK prometheusContentType "" (BodyText (metrics.Write print_g (metrics.collected calls)))).

(** ** The routes

    A pattern is a method and segments; a wildcard takes one segment that is
    not empty.  A GET pattern also serves HEAD.  No two patterns of one method
    match the same path. *)

Inductive segment := Lit (s : string) | Wild.

Record route := mkRoute {
  ro_method : string;
  ro_pattern : list segment;
  ro_handler : string → Request → handler;
}.

Definition v1 (rest : list segment) : list segment := Lit "api" :: Lit "v1" :: rest.
Definition plain (h : Request → handler) (_ : string) : Request → handler := h.

Definition routes : list route := [
  mkRoute "GET" [Lit "healthz"] (plain handleHealth);
  mkRoute "GET" [Lit "readyz"] (plain handleReady);
  mkRoute "GET" [Lit "metrics"] (plain handleMetrics);
  mkRoute "POST" (v1 [Lit "exchanges"]) (plain handleDeclareExchange);
  mkRoute "GET" (v1 [Lit "exchanges"]) (plain handleListExchanges);
  mkRoute "GET" (v1 [Lit "exchanges"; Wild]) handleGetExchange;
  mkRoute "POST" (v1 [Lit "queues"]) (plain handleDeclareQueue);
  mkRoute "GET" (v1 [Lit "queues"]) (plain handleListQueues);
  mkRoute "GET" (v1 [Lit "queues"; Wild]) handleGetQueue;
  mkRoute "DELETE" (v1 [Lit "queues"; Wild]) handleDeleteQueue;
  mkRoute "POST" (v1 [Lit "queues"; Wild; Lit "purge"]) handlePurgeQueue;
  mkRoute "POST" (v1 [Lit "queues"; Wild; Lit "consume"]) handleConsume;
  mkRoute "POST" (v1 [Lit "messages"]) (plain handlePublish);
  mkRoute "GET" (v1 [Lit "messages"; Wild]) handleGetMessage;
  mkRoute "GET" (v1 [Lit "messages"; Wild; Lit "history"]) handleGetMessageHistory;
  mkRoute "POST" (v1 [Lit "messages"; Wild; Lit "ack"]) handleAck;
  mkRoute "POST" (v1 [Lit "messages"; Wild; Lit "nack"]) handleNack;
  mkRoute "GET" (v1 [Lit "dead-letter"]) (plain handleListDeadLetters);
  mkRoute "GET" (v1 [Lit "dead-letter"; Wild]) handleGetDeadLetter;
  mkRoute "POST" (v1 [Lit "dead-letter"; Wild; Lit "retry"]) handleRetryDeadLetter;
  mkRoute "DELETE" (v1 [Lit "dead-letter"; Wild]) handleDeleteDeadLetter;
  mkRoute "GET" (v1 [Lit "schemas"]) (plain handleListSchemas);
  mkRoute "GET" (v1 [Lit "consumers"]) (plain handleListConsumers);
  mkRoute "POST" (v1 [Lit "bindings"]) (plain handleBind);
  mkRoute "GET" (v1 [Lit "bindings"]) (plain handleListBindings);
  mkRoute "DELETE" (v1 [Lit "bindings"]) (plain handleUnbind)].

(** The path value when the path fits the pattern. *)
Fixpoint match_path (pattern : list segment) (path : list string) (value : string) : option string :=
  match pattern, path with
  | [], [] => Some value
  | Lit l :: pattern, s :: path => if decide (l = s) then match_path pattern path value else None
  | Wild :: pattern, s :: path => if str_empty s then None else match_path pattern path s
  | _, _ => None
  end.

Definition method_fits (pattern method : string) : bool :=
  bool_decide (pattern = method) || (bool_decide (pattern = "GET") && bool_decide (method = "HEAD")).

(** [mux.ServeHTTP]; the two answers of net/http itself are plain text. *)
Definition mux (r : Request) : handler :=
  let fitting := List.filter (fun ro => if match_path (ro_pattern ro) (rq_Path r) "" then true else false) routes in
  match List.find (fun ro => method_fits (ro_method ro) (rq_Method r)) fitting with
  | Some ro => ro_handler ro (default "" (match_path (ro_pattern ro) (rq_Path r) "")) r
  | None =>
      mret (match fitting with
            | [] => mkResponse StatusNotFound "text/plain; charset=utf-8" ""
                      (BodyText ("404 page not found" +:+ metrics.newline))
            | _ => mkResponse StatusMethodNotAllowed "text/plain; charset=utf-8" ""
                     (BodyText ("Method Not Allowed" +:+ metrics.newline))
            end)
  end.

(** ** middleware.go *)

(** [http.MaxBytesReader]: reading past the limit is an error. *)
Definition max_bytes (limit : Z) (b : reader) : reader :=
  if limit <? Z.of_nat (String.length (rd_text b))
  then mkReader (str_take (Z.to_nat limit) (rd_text b)) (Some "http: request body too large")
  else b.

Definition limitBody (limit : Z) (next : Request → handler) (r : Request) : handler :=
  next (mkRequest (rq_Method r) (rq_Path r) (rq_Query r) (rq_RequestID r) (rq_ContentLength r)
          (max_bytes limit (rq_Body r))).

Definition with_id (id : string) (resp : response) : response :=
  mkResponse (rs_Status resp) (rs_ContentType resp) id (rs_Body resp).

(** The id goes into the context, which only the log reads, and into the header
    that any answer carries, that of a panic included. *)
Definition requestID (next : Request → handler) (r : Request) : prog (Engine S) (string * result error response) :=
  id ← (if str_empty (rq_RequestID r) then NewID E else mret (rq_RequestID r));
  answer ← (attempting (next r) : prog (Engine S) _);
  mret (id, answer).

Definition recoverPanics (p : prog (Engine S) (string * result error response)) : handler :=
  '(id, answer) ← p;
  mret (with_id id (match answer with
                    | Ok resp => resp
                    | Err _ => writeError StatusInternalServerError "internal_error"
                                 "the broker failed to handle the request"
                    end)).

(** [New]: the limit it settles on; [wrap] and [ServeHTTP]. *)
Definition effective_limit (maxBodyBytes : Z) : Z := if maxBodyBytes <=? 0 then defaultMaxBodyBytes else maxBodyBytes.

Definition ServeHTTP (maxBodyBytes : Z) (r : Request) : handler :=
  recoverPanics (requestID (limitBody (effective_limit maxBodyBytes) mux) r).
End server.
End api.
