(* ===== verification/ApiProofs.v ===== *)
(** Rules for the handlers of the HTTP interface ([Api.v]), on any store that
    meets the storage contract.

    [good e0] is what every answer must satisfy: the store keeps its invariant,
    the status is not a server error, and an answer that blames the request
    (400, 404, 405, 409) means that neither the stored messages nor the topology
    have changed since [e0]. *)

From S2P Require Import Prelude Errors MessageId Message Broker BrokerProofs Storage StoreTraces Float64.
From S2P Require Import DurationText Retry Logging Engine EngineProofs EnginePublish EngineSafety Metrics Schema.
From S2P Require Import HeaderJson Json Api.

Local Open Scope Z_scope.
Import api.

(** * Classification *)

(** An error the client is told about, other than a refused payload. *)
Definition client_error (err : error) : Prop := 400 ≤ (api.classify err).1 < 500.

#[export] Instance client_error_dec err : Decision (client_error err).
Proof. unfold client_error. apply _. Defined.

Lemma FieldError_client f r : client_error (FieldError f r).
Proof. split; vm_compute; congruence. Qed.
Lemma NotFound_client : client_error (StorageErr ErrNotFound).
Proof. split; vm_compute; congruence. Qed.
Lemma Conflict_client : client_error (StorageErr ErrConflict).
Proof. split; vm_compute; congruence. Qed.
Lemma StateError_client id a b : client_error (StateError id a b).
Proof. split; vm_compute; congruence. Qed.
#[local] Hint Resolve FieldError_client NotFound_client Conflict_client StateError_client : broker.

Ltac client := first [apply FieldError_client|apply NotFound_client|apply Conflict_client|apply StateError_client
  |split; vm_compute; congruence].

Lemma result_bind_Err {X A B} (r : result X A) (f : A → result X B) err :
  (r ≫= f) = Err err → r = Err err ∨ ∃ a, r = Ok a ∧ f a = Err err.
Proof. destruct r as [a|x]; simpl; [eauto|]. intros [= ->]. by left. Qed.

(** The errors of the registry are the client's. *)
Lemma validateName_client f v err : validateName f v = Err err → client_error err.
Proof. unfold validateName. repeat case_match; intros [= <-]; client. Qed.

Lemma ParseExchangeKind_client k err : ParseExchangeKind k = Err err → client_error err.
Proof. unfold ParseExchangeKind. repeat case_match; intros [= <-]; client. Qed.

Lemma QueueSpec_Validate_client s err : QueueSpec_Validate s = Err err → client_error err.
Proof.
  unfold QueueSpec_Validate, guard_err.
  intros [?|(? & _ & [H|(? & _ & [H|(? & _ & H)]%result_bind_Err)]%result_bind_Err)]%result_bind_Err.
  - by eapply validateName_client.
  - case_match; [|done]. injection H as <-. client.
  - case_match; [|done]. injection H as <-. client.
  - case_match; [done|]. by eapply validateName_client.
Qed.

Lemma validate_segments_client segs err : validate_segments segs = Err err → client_error err.
Proof.
  induction segs as [|s segs IH]; [done|]. simpl. repeat case_match; try done; intros [= <-]; client.
Qed.

Lemma BindingSpec_Validate_client s k err : BindingSpec_Validate s k = Err err → client_error err.
Proof.
  unfold BindingSpec_Validate.
  intros [?|(? & _ & [?|(? & _ & H)]%result_bind_Err)]%result_bind_Err; [by eapply validateName_client..|].
  unfold validateRoutingKey, validateBindingPattern in H.
  repeat case_match; try done; try (injection H as <-; client). by eapply validate_segments_client.
Qed.

Lemma DeclareExchange_client spec now r err : Registry_DeclareExchange spec now r = Err err → client_error err.
Proof.
  unfold Registry_DeclareExchange, declareExchange, ExchangeSpec_Validate.
  intros [H|([] & _ & [=])]%result_bind_Err. apply result_bind_Err in H as [H|(? & _ & H)].
  - apply result_bind_Err in H as [?|(? & _ & [?|(? & _ & [=])]%result_bind_Err)];
      [by eapply validateName_client|by eapply ParseExchangeKind_client].
  - repeat case_match; try done. injection H as <-. client.
Qed.

Lemma DeclareQueue_client spec now r err : Registry_DeclareQueue spec now r = Err err → client_error err.
Proof.
  unfold Registry_DeclareQueue. cbv zeta. intros [?|(? & _ & H)]%result_bind_Err; [by eapply QueueSpec_Validate_client|].
  repeat case_match; try done. injection H as <-. client.
Qed.

Lemma Bind_client spec now r err : Registry_Bind spec now r = Err err → client_error err.
Proof.
  unfold Registry_Bind, bind, exchange. case_match; [|intros [= <-]; client].
  intros [H'|([] & _ & [=])]%result_bind_Err. apply result_bind_Err in H' as [H'|(x & _ & H')].
  - case_match; [done|]. injection H' as <-. client.
  - apply result_bind_Err in H' as [H'|(? & _ & H')]; [by eapply BindingSpec_Validate_client|]. by case_match.
Qed.

Lemma Unbind_client spec r err : Registry_Unbind spec r = Err err → client_error err.
Proof.
  unfold Registry_Unbind, unbind. intros [H|(? & _ & [=])]%result_bind_Err.
  case_match; [done|]. injection H as <-. client.
Qed.

Lemma DeleteQueue_client name r err : Registry_DeleteQueue name r = Err err → client_error err.
Proof. unfold Registry_DeleteQueue. repeat case_match; intros [= <-]; client. Qed.

Lemma Queue_client name r err : Registry_Queue name r = Err err → client_error err.
Proof. unfold Registry_Queue. case_match; intros [= <-]; client. Qed.

Lemma Exchange_client name r err : Registry_Exchange name r = Err err → client_error err.
Proof. unfold Registry_Exchange, exchange. case_match; intros [= <-]; client. Qed.

Lemma Route_client x key r err : Registry_Route x key r = Err err → client_error err.
Proof.
  unfold Registry_Route, exchange. intros [H|(? & _ & H)]%result_bind_Err; case_match; try done; injection H as <-; client.
Qed.

Lemma optionalDuration_client raw err : optionalDuration raw = Err err → client_error err.
Proof. unfold optionalDuration. repeat case_match; intros [= <-]; client. Qed.

(** The schema registry's errors refuse the payload. *)
Lemma Validate_refuses {doc compiled} (pk : packages doc compiled) reg name payload err :
  (∀ c d e, compiled_Validate pk c d ≠ Some (CheckOther e)) →
  Schema.Validate pk reg name payload = Err err → (api.classify err).1 = 422.
Proof.
  intros Hpk. unfold Schema.Validate. case_match; [done|]. case_match; [|by intros [= <-]].
  case_match; [by intros [= <-]|]. case_match; [|by intros [= <-]].
  destruct (compiled_Validate pk _ _) as [[|]|] eqn:Hc; [by intros [= <-]| |done]. by apply Hpk in Hc.
Qed.

(** * What the interface needs of the topology tables *)

Class TopologyAnswers (S : Type) `{StoreContract S} := {
  ta_SaveExchange x s : store_inv s → (st_SaveExchange x s).2 = Ok tt;
  ta_SaveBinding b s : store_inv s → (st_SaveBinding b s).2 = Ok tt;
  ta_DeleteBinding spec s : store_inv s →
    (st_DeleteBinding spec s).2 = Ok tt ∨ (st_DeleteBinding spec s).2 = Err (StorageErr ErrNotFound);
  ta_Queues s : store_inv s → is_ok (st_Queues s).2;
}.

(** * Operations that leave the registry and the consumers alone *)

Section rules.
Context {S : Type} `{HS : Unrestricted S} (E : env) (policy : Policy) (unrepresentable : float64 → Z).
Implicit Types (e : Engine S).

(** The parts of the engine besides the store that a request must not touch. *)
Definition same_control e e' : Prop := e_registry e' = e_registry e ∧ e_consumers e' = e_consumers e.

Definition keeps {A} (p : prog (Engine S) A) : Prop := ∀ e, same_control e (p e).1.

Lemma same_control_refl e : same_control e e.
Proof. done. Qed.
Lemma same_control_trans e1 e2 e3 : same_control e1 e2 → same_control e2 e3 → same_control e1 e3.
Proof. intros [] []. split; congruence. Qed.

Lemma keeps_bind {A B} (p : prog (Engine S) A) (f : A → prog (Engine S) B) :
  keeps p → (∀ a, keeps (f a)) → keeps (p ≫= f).
Proof.
  intros Hp Hf e. rewrite bind_eq. specialize (Hp e). destruct (p e) as [e1 [a|x]]; [|done].
  eapply same_control_trans; [exact Hp|apply Hf].
Qed.
Lemma keeps_attempting {A} (p : prog (Engine S) A) : keeps p → keeps (attempting p).
Proof. intros Hp e. specialize (Hp e). unfold attempting. by destruct (p e). Qed.
Lemma keeps_store {A} (p : prog S A) : keeps (on_store p).
Proof. intros e. unfold on_store. by destruct (p (e_store e)). Qed.
Lemma keeps_each {X} (f : X → prog (Engine S) unit) xs : (∀ x, keeps (f x)) → keeps (for_each f xs).
Proof. intros Hf. induction xs as [|x xs IH]; [done|]. cbn [for_each]. by apply keeps_bind. Qed.

Ltac kp :=
  lazymatch goal with
  | |- keeps (_ ≫= _) => apply keeps_bind; [|intros ?]
  | |- keeps (attempting _) => apply keeps_attempting
  | |- keeps (on_store _) => apply keeps_store
  | |- keeps (for_each _ _) => apply keeps_each; intros ?
  | |- keeps (match ?x with _ => _ end) => destruct x
  | |- keeps (let '(_, _) := ?x in _) => destruct x
  | |- keeps _ => intros ?; done
  end.

Lemma keeps_history ev : keeps (recordHistory ev).
Proof. unfold recordHistory. repeat kp. Qed.
Lemma keeps_NewID : keeps (NewID E).
Proof. unfold NewID. repeat kp. Qed.
Lemma keeps_deadLetter consumer delivery cause now : keeps (deadLetter E consumer delivery cause now).
Proof. unfold deadLetter, firstFailureAt. repeat (apply keeps_history || apply keeps_NewID || kp). Qed.
Lemma keeps_fail consumer delivery cause : keeps (Engine.fail E policy unrepresentable consumer delivery cause).
Proof. unfold Engine.fail. repeat (apply keeps_history || apply keeps_deadLetter || kp). Qed.
Lemma keeps_Ack id : keeps (Engine_Ack E id).
Proof. unfold Engine_Ack. repeat (apply keeps_history || kp). Qed.
Lemma keeps_Nack id reason requeue : keeps (Engine_Nack E policy unrepresentable id reason requeue).
Proof. unfold Engine_Nack. repeat (apply keeps_history || apply keeps_fail || kp). Qed.
Lemma keeps_Pull req : keeps (Engine_Pull E req).
Proof. unfold Engine_Pull. repeat (apply keeps_history || kp). Qed.
Lemma keeps_Replay id : keeps (Engine_ReplayDeadLetter E id).
Proof. unfold Engine_ReplayDeadLetter. repeat (apply keeps_history || kp). Qed.
Lemma keeps_RefreshQueueDepths : keeps (RefreshQueueDepths (S := S)).
Proof. unfold RefreshQueueDepths. repeat kp. Qed.

Lemma keeps_publish_loop schemas pub now queues acc : keeps (publish_loop E schemas pub now queues acc).
Proof.
  revert acc. induction queues as [|q queues IH]; intros acc; [intros ?; done|]. cbn [publish_loop].
  apply keeps_bind; [intros ?; done|intros bytes]. apply keeps_bind.
  { unfold validate, parkRejected. repeat (apply keeps_NewID || kp). }
  intros [[]|err]; [|repeat kp]. apply keeps_bind; [intros ?; done|]. intros; apply IH.
Qed.
Lemma keeps_Publish schemas pub : keeps (Engine_Publish E schemas pub).
Proof. unfold Engine_Publish. repeat (apply keeps_history || apply keeps_publish_loop || kp). Qed.

(** * Answers *)

(** The handler answers, with a response and a state that satisfy [Q]. *)
Definition answers (h : prog (Engine S) response) e (Q : response → Engine S → Prop) : Prop :=
  match h e with (e', Ok resp) => Q resp e' | (_, Err _) => False end.

(** The request is to blame. *)
Definition blamed (status : Z) : Prop := status ∈ [StatusBadRequest; StatusNotFound; StatusMethodNotAllowed; StatusConflict].

Definition unchanged_since e0 e : Prop := eview e = eview e0 ∧ same_control e0 e.

Definition good e0 (resp : response) e : Prop :=
  einv e ∧ 200 ≤ rs_Status resp < 500 ∧ (blamed (rs_Status resp) → unchanged_since e0 e).

(** An operation that failed because of the request: nothing has changed, or
    the payload was refused. *)
Definition refused e0 (err : error) e : Prop :=
  einv e ∧ client_error err ∧ ((api.classify err).1 = StatusUnprocessableEntity ∨ unchanged_since e0 e).

Lemma answers_ret resp e Q : Q resp e → answers (mret resp) e Q.
Proof. done. Qed.

Lemma answers_bind {A} (p : prog (Engine S) A) f e Q :
  (match p e with (e', Ok a) => answers (f a) e' Q | (_, Err _) => False end) → answers (p ≫= f) e Q.
Proof. unfold answers. rewrite bind_eq. by destruct (p e) as [e' [a|x]]. Qed.

Lemma answers_mono h e (Q Q' : response → Engine S → Prop) :
  answers h e Q → (∀ resp e', Q resp e' → Q' resp e') → answers h e Q'.
Proof. unfold answers. destruct (h e) as [e' [resp|x]]; auto. Qed.

Lemma fail_status err : rs_Status (api.fail err) = (api.classify err).1.
Proof. unfold api.fail. destruct (api.classify err) as [s c]. by destruct (errors_As_Validation err) as [[? ?]|]. Qed.

Lemma fail_good e0 err e : refused e0 err e → good e0 (api.fail err) e.
Proof.
  intros (Hi & Hc & Hch). unfold good. rewrite fail_status. destruct Hc as [? ?]. split; [done|]. split; [lia|].
  intros Hb. destruct Hch as [Hs|]; [|done]. rewrite Hs in Hb. exfalso. unfold blamed in Hb.
  rewrite !elem_of_cons, elem_of_nil in Hb. by destruct Hb as [?|[?|[?|[?|?]]]].
Qed.

(** The outcome of an engine operation. *)
Definition outcome {A} (p : prog (Engine S) A) e0 e (Q : A → Engine S → Prop) : Prop :=
  match p e with (e', Ok a) => Q a e' | (e', Err err) => refused e0 err e' end.

Lemma or_fail_answers {A} (p : prog (Engine S) A) k e0 e :
  outcome p e0 e (fun a e' => answers (k a) e' (good e0)) → answers (or_fail p k) e (good e0).
Proof.
  unfold outcome, or_fail. intros Hp. apply answers_bind. unfold attempting.
  destruct (p e) as [e' [a|err]]; [done|]. pose proof (fail_good _ _ _ Hp) as Hg.
  destruct err; try done. destruct Hp as (_ & [_ Hc] & _). by vm_compute in Hc.
Qed.

Lemma outcome_mono {A} (p : prog (Engine S) A) e0 e (Q Q' : A → Engine S → Prop) :
  outcome p e0 e Q → (∀ a e', Q a e' → Q' a e') → outcome p e0 e Q'.
Proof. unfold outcome. destruct (p e) as [e' [a|x]]; auto. Qed.

Lemma decodeBody_answers {T} json_text (fields : list (field T)) r target k e :
  einv e → (∀ request, answers (k request) e (good e)) →
  answers (decodeBody json_text fields r target k) e (good e).
Proof.
  intros Hi Hk. unfold decodeBody. destruct (Decode fields (rq_Body r) target) as [request|err]; [apply Hk|].
  apply answers_ret. split; [done|]. split; [done|]. intros _. by split.
Qed.

Lemma optional_body_answers {T} json_text (fields : list (field T)) r target k e :
  einv e → (∀ request, answers (k request) e (good e)) →
  answers (optional_body json_text fields r target k) e (good e).
Proof. intros Hi Hk. unfold optional_body. case_match; [by apply decodeBody_answers|apply Hk]. Qed.

(** A refusal before anything happened. *)
Lemma refused_now err e : einv e → client_error err → refused e err e.
Proof. intros Hi Hc. split; [done|]. split; [done|]. right. by split. Qed.

(** From a run to an outcome: errors are the client's and change nothing. *)
Lemma outcome_runs {A} (p : prog (Engine S) A) e (R : result error A → Engine S → Prop) (Q : A → Engine S → Prop) :
  runs p e R → keeps p →
  (∀ err e', R (Err err) e' → einv e' ∧ client_error err ∧
     ((api.classify err).1 = StatusUnprocessableEntity ∨ eview e' = eview e)) →
  (∀ a e', R (Ok a) e' → same_control e e' → Q a e') → outcome p e e Q.
Proof.
  unfold runs, outcome. intros HR Hk Herr Hok. specialize (Hk e). destruct (p e) as [e' [a|err]]; simpl in *; [auto|].
  destruct (Herr err e' HR) as (Hi & Hc & [Hs|Hv]); (split; [done|]; split; [done|]); [by left|right; by split].
Qed.

(** * Outcomes of the engine's operations *)

Lemma outcome_call {A} (c : call A) e (Q : A → Engine S → Prop) :
  einv e → call_pre c →
  (∀ err a', call_spec c (eview e) (Err err) a' → client_error err ∧ a' = eview e) →
  (∀ a s, store_inv s → call_spec c (eview e) (Ok a) (store_view s) → Q a (put_store s e)) →
  outcome (on_store (run_call c)) e e Q.
Proof.
  intros Hi Hpre Herr Hok. destruct (law_implements c Hpre (e_store e) Hi) as [Hi' Hspec].
  unfold outcome, on_store. destruct (run_call c (e_store e)) as [s [a|err]]; simpl in *; [auto|].
  destruct (Herr _ _ Hspec) as [Hc Hv]. split; [done|]. split; [done|]. right. by split.
Qed.

(** ** Reading *)

(** Nothing is stored or declared. *)
Definition looks {A} (p : prog (Engine S) A) e (Q : result error A → Prop) : Prop :=
  match p e with (e', r) => einv e' ∧ unchanged_since e e' ∧ Q r end.

(** A read that succeeds or fails because of the request, one that succeeds,
    and a handler that stores and declares nothing. *)
Definition inquiry {A} (p : prog (Engine S) A) : Prop :=
  ∀ e, einv e → looks p e (fun r => match r with Ok _ => True | Err err => client_error err end).
Definition quiet {A} (p : prog (Engine S) A) : Prop :=
  ∀ e, einv e → looks p e (fun r => is_ok r = true).
Definition calm e0 (resp : response) e : Prop :=
  einv e ∧ 200 ≤ rs_Status resp < 500 ∧ unchanged_since e0 e.
Definition peaceful (h : prog (Engine S) response) : Prop := ∀ e, einv e → answers h e (calm e).

Lemma unchanged_refl e : unchanged_since e e.
Proof. done. Qed.
Lemma unchanged_trans e1 e2 e3 : unchanged_since e1 e2 → unchanged_since e2 e3 → unchanged_since e1 e3.
Proof. intros [H1 [H2 H3]] [H4 [H5 H6]]. repeat split; congruence. Qed.

Lemma calm_good e0 resp e : calm e0 resp e → good e0 resp e.
Proof. intros (Hi & Hs & Hu). done. Qed.
Lemma peaceful_good h e : peaceful h → einv e → answers h e (good e).
Proof. intros Hh Hi. eapply answers_mono; [by apply Hh|]. apply calm_good. Qed.

Lemma looks_read {A} (c : call A) (P : astore → result error A → Prop) e (Q : result error A → Prop) :
  call_spec c = reads P → einv e → call_pre c → (∀ r, P (eview e) r → Q r) → looks (on_store (run_call c)) e Q.
Proof.
  intros Hc Hi Hpre HQ. destruct (law_implements c Hpre (e_store e) Hi) as [Hi' Hspec]. rewrite Hc in Hspec.
  unfold looks, on_store. destruct (run_call c (e_store e)) as [s r]. destruct Hspec as [Hp Hv].
  split; [done|]. split; [by split|auto].
Qed.

Lemma quiet_bind {A B} (p : prog (Engine S) A) (f : A → prog (Engine S) B) :
  quiet p → (∀ a, quiet (f a)) → quiet (p ≫= f).
Proof.
  intros Hp Hf e Hi. unfold looks. rewrite bind_eq. specialize (Hp e Hi). unfold looks in Hp.
  destruct (p e) as [e1 [a|x]]; destruct Hp as (Hi1 & Hu1 & ?); [|done].
  specialize (Hf a e1 Hi1). unfold looks in Hf. destruct (f a e1) as [e2 r]. destruct Hf as (? & Hu2 & ?).
  split; [done|]. split; [by eapply unchanged_trans|done].
Qed.
Lemma quiet_attempting {A} (p : prog (Engine S) A) : inquiry p → quiet (attempting p).
Proof.
  intros Hp e Hi. specialize (Hp e Hi). unfold looks, attempting in *. destruct (p e) as [e' r].
  by destruct Hp as (? & ? & _).
Qed.
Lemma quiet_each {X} (f : X → prog (Engine S) unit) xs : (∀ x, quiet (f x)) → quiet (for_each f xs).
Proof. intros Hf. induction xs as [|x xs IH]; [by intros e Hi|]. cbn [for_each]. by apply quiet_bind. Qed.

Lemma answers_quiet {A} (p : prog (Engine S) A) k e Q : quiet p → einv e →
  (∀ a e', einv e' → unchanged_since e e' → answers (k a) e' Q) → answers (p ≫= k) e Q.
Proof.
  intros Hp Hi Hk. apply answers_bind. specialize (Hp e Hi). unfold looks in Hp.
  destruct (p e) as [e' [a|x]]; destruct Hp as (? & ? & ?); [auto|done].
Qed.
Lemma peaceful_bind {A} (p : prog (Engine S) A) k : quiet p → (∀ a, peaceful (k a)) → peaceful (p ≫= k).
Proof.
  intros Hp Hk e Hi. eapply answers_quiet; [done..|]. intros a e' Hi' Hu.
  eapply answers_mono; [by apply Hk|]. intros resp e'' (? & ? & ?).
  split; [done|]. split; [done|by eapply unchanged_trans].
Qed.
Lemma peaceful_ret resp : 200 ≤ rs_Status resp < 500 → peaceful (mret resp).
Proof. intros Hs e Hi. by apply answers_ret. Qed.
Lemma peaceful_or_fail {A} (p : prog (Engine S) A) k : inquiry p → (∀ a, peaceful (k a)) → peaceful (or_fail p k).
Proof.
  intros Hp Hk e Hi. unfold or_fail. apply answers_bind. specialize (Hp e Hi). unfold looks in Hp.
  unfold attempting. destruct (p e) as [e' [a|err]]; destruct Hp as (Hi' & Hu & Herr).
  - eapply answers_mono; [by apply Hk|]. intros resp e'' (? & ? & ?).
    split; [done|]. split; [done|by eapply unchanged_trans].
  - assert (calm e (api.fail err) e') as Hc.
    { split; [done|]. split; [|done]. rewrite fail_status. destruct Herr. lia. }
    destruct err; try done. destruct Herr as [_ Herr]. by vm_compute in Herr.
Qed.

(** The reads of the engine. *)
Lemma inquiry_Message id : inquiry (Engine_Message id : prog (Engine S) _).
Proof.
  intros e Hi. unfold Engine_Message. eapply (looks_read (CMessage id)); [done..|]. cbv beta.
  intros r ->. destruct (a_messages (eview e) !! id); [done|client].
Qed.
Lemma inquiry_History id : inquiry (Engine_History id : prog (Engine S) _).
Proof. intros e Hi. unfold Engine_History. eapply (looks_read (CHistory id)); [done..|]. cbv beta. by intros r ->. Qed.
Lemma inquiry_DeadLetters f : inquiry (Engine_DeadLetters f : prog (Engine S) _).
Proof.
  intros e Hi. unfold Engine_DeadLetters. eapply (looks_read (CDeadLetters f)); [done..|]. cbv beta.
  by intros r (ds & -> & _).
Qed.
Lemma inquiry_CountDeadLetters q : inquiry (Engine_CountDeadLetters q : prog (Engine S) _).
Proof.
  intros e Hi. unfold Engine_CountDeadLetters. eapply (looks_read (CCountDeadLetters q)); [done..|]. cbv beta.
  by intros r ->.
Qed.
Lemma inquiry_DeadLetter id : inquiry (Engine_DeadLetter id : prog (Engine S) _).
Proof.
  intros e Hi. unfold Engine_DeadLetter. eapply (looks_read (CDeadLetter id)); [done..|]. cbv beta.
  intros r ->. destruct (a_dead (eview e) !! id); [done|client].
Qed.
Lemma inquiry_Depth q : inquiry (Engine_Depth q : prog (Engine S) _).
Proof.
  intros e Hi. unfold Engine_Depth. eapply (looks_read (CDepth q)); [done..|]. cbv beta.
  intros r ->. case_decide; [done|client].
Qed.
Lemma inquiry_registry {A} (f : Registry → result error A) :
  (∀ r err, f r = Err err → client_error err) → inquiry (registry_get f : prog (Engine S) A).
Proof.
  intros Hf e Hi. unfold looks, registry_get. split; [done|]. split; [done|].
  destruct (f (e_registry e)) eqn:Hr; [done|by eapply Hf].
Qed.

Lemma quiet_gets {A} (f : Engine S → A) : quiet (gets f).
Proof. by intros e Hi. Qed.
Lemma quiet_now : quiet (time_Now E : prog (Engine S) _).
Proof. by intros e Hi. Qed.
Lemma quiet_describeQueue q : quiet (describeQueue q : prog (Engine S) _).
Proof.
  unfold describeQueue. apply quiet_bind; [apply quiet_attempting, inquiry_Depth|intros d].
  apply quiet_bind; [apply quiet_attempting, inquiry_CountDeadLetters|intros n]. by intros e Hi.
Qed.
Lemma quiet_describe_all qs views : quiet (describe_all qs views : prog (Engine S) _).
Proof.
  revert views. induction qs as [|q qs IH]; intros views; [by intros e Hi|]. cbn [describe_all].
  apply quiet_bind; [apply quiet_describeQueue|]. auto.
Qed.
Lemma quiet_RefreshQueueDepths : quiet (RefreshQueueDepths : prog (Engine S) _).
Proof.
  unfold RefreshQueueDepths. apply quiet_bind; [apply quiet_gets|intros names]. apply quiet_each. intros name.
  apply quiet_bind; [apply quiet_attempting, inquiry_Depth|intros [d|err]]; by intros e Hi.
Qed.

Lemma outcome_Purge q e (Q : Z → Engine S → Prop) : einv e →
  (∀ n s, einv (put_store s e) → Q n (put_store s e)) → outcome (Engine_Purge q) e e Q.
Proof.
  intros Hi HQ. unfold Engine_Purge. apply (outcome_call (CPurge q)); [done|done|..].
  - intros err a'. simpl. unfold purge_spec. case_decide; intros [[= ->] ->]. split; [client|done].
  - eauto.
Qed.

Lemma outcome_Discard id e (Q : unit → Engine S → Prop) : einv e →
  (∀ s, einv (put_store s e) → Q tt (put_store s e)) → outcome (Engine_DiscardDeadLetter id) e e Q.
Proof.
  intros Hi HQ. unfold Engine_DiscardDeadLetter. apply (outcome_call (CDeleteDeadLetter id)); [done|done|..].
  - intros err a'. simpl. unfold delete_dead_spec. case_match; intros [[= ->] ->]. split; [client|done].
  - intros [] s Hs _. by apply HQ.
Qed.

Lemma outcome_Ack id e (Q : unit → Engine S → Prop) : einv e →
  (∀ e', einv e' → Q tt e') → outcome (Engine_Ack E id) e e Q.
Proof.
  intros Hi HQ. eapply outcome_runs; [by apply Ack_runs|apply keeps_Ack|..].
  - intros err e' (Hi' & Hm). split; [done|]. repeat case_match; destruct Hm as [[= ->] Hv]; split; [client|auto|client|auto].
  - intros [] e' (Hi' & _) _. by apply HQ.
Qed.

(** Failing a delivery removes no message. *)
Lemma fail_effect_keeps e consumer delivery cause a id :
  is_Some (a_messages a !! id) → is_Some (a_messages (fail_effect E policy unrepresentable e consumer delivery cause a) !! id).
Proof.
  intros Hid. unfold fail_effect, retry_effect, dead_effect.
  repeat (case_match || case_decide); simpl; rewrite ?lookup_insert_is_Some; auto.
  all: destruct (decide (msg_ID (dv_Message delivery) = id)); auto.
Qed.

Lemma outcome_Nack id reason requeue e (Q : unit → Engine S → Prop) : einv e →
  (∀ e', einv e' → is_Some (a_messages (eview e) !! id) → is_Some (a_messages (eview e') !! id) → Q tt e') →
  outcome (Engine_Nack E policy unrepresentable id reason requeue) e e Q.
Proof.
  intros Hi HQ. destruct requeue.
  - eapply outcome_runs; [by apply Nack_requeue_runs|apply keeps_Nack|..].
    + intros err e' (Hi' & Hm). split; [done|].
      repeat case_match; destruct Hm as [[= ->] Hv]; split; [client|auto|client|auto].
    + intros [] e' (Hi' & Hm) _. destruct (a_messages (eview e) !! id) as [rec|] eqn:Hr; [|by destruct Hm].
      case_decide; [|by destruct Hm]. destruct Hm as [_ Hv]. apply HQ; [done|eauto|].
      rewrite Hv. simpl. rewrite lookup_insert_eq. eauto.
  - eapply outcome_runs; [by apply Nack_fail_runs|apply keeps_Nack|..].
    + intros err e' (Hi' & Hm). split; [done|]. case_match; destruct Hm as [[= ->] Hv]. split; [client|auto].
    + intros [] e' (Hi' & Hm) _. destruct (a_messages (eview e) !! id) as [rec|] eqn:Hr; [|by destruct Hm].
      destruct Hm as [_ Hv]. apply HQ; [done|eauto|]. rewrite Hv. by apply fail_effect_keeps.
Qed.

Lemma outcome_Pull req e (Q : list Message → Engine S → Prop) : einv e →
  (∀ ms e', einv e' → Q ms e') → outcome (Engine_Pull E req) e e Q.
Proof.
  intros Hi HQ. eapply outcome_runs; [by apply Pull_runs|apply keeps_Pull|..].
  - intros err e' (Hi' & Hm). split; [done|].
    destruct (Registry_Queue (pl_Queue req) (e_registry e)) as [q|err'] eqn:Hq.
    + destruct Hm as (ids & _ & [=] & _).
    + destruct Hm as [[= ->] Hv]. split; [by eapply Queue_client|by right].
  - intros ms e' (Hi' & _) _. by apply HQ.
Qed.

Lemma outcome_Replay id e (Q : ReplayResult → Engine S → Prop) : einv e →
  (∀ r e', einv e' → Q r e') → outcome (Engine_ReplayDeadLetter E id) e e Q.
Proof.
  intros Hi HQ. eapply outcome_runs; [by apply Replay_runs|apply keeps_Replay|..].
  - intros err e' (Hi' & _ & Hm). split; [done|].
    destruct (a_dead (eview e) !! id) as [d|]; [|destruct Hm as [[= ->] Hv]; split; [client|by right]].
    destruct (Registry_Queue (dl_Queue d) (e_registry e)) as [q|err'] eqn:Hq; last first.
    { destruct Hm as [[= ->] Hv]. split; [by eapply Queue_client|by right]. }
    cbv zeta in Hm. case_match; [|by destruct Hm as [[=] _]].
    destruct Hm as [[= ->] Hv]. split; [client|by right].
  - intros r e' (Hi' & _) _. by apply HQ.
Qed.

(** ** Publishing *)

(** The ids the next [n] messages would get are distinct. *)
Definition distinct_draws (n : nat) e : Prop :=
  NoDup ((fun i => newIDAt (env_clock E (e_ticks e)) (env_entropy E (e_draws e + i))) <$> seq 0 n).

#[export] Instance distinct_draws_dec n e : Decision (distinct_draws n e).
Proof. unfold distinct_draws. apply _. Defined.

Lemma distinct_draws_le n m e : (n ≤ m)%nat → distinct_draws m e → distinct_draws n e.
Proof.
  intros Hle. unfold distinct_draws. replace m with (n + (m - n))%nat by lia.
  rewrite seq_app, fmap_app. by intros [Hd _]%NoDup_app.
Qed.

Lemma publish_batch_ids pub now draw queues :
  msg_ID <$> publish_batch E pub now draw queues =
  (fun i => newIDAt now (env_entropy E (draw + i))) <$> seq 0 (length queues).
Proof.
  revert draw. induction queues as [|q queues IH]; intros draw; [done|]. cbn [publish_batch length seq].
  rewrite !fmap_cons, IH, Nat.add_0_r, <-seq_shift, <-list_fmap_compose. f_equal.
  apply list_fmap_ext. intros i x _. simpl. by rewrite Nat.add_succ_r.
Qed.

Lemma omap_length_le {A B} (f : A → option B) (l : list A) : (length (omap f l) ≤ length l)%nat.
Proof. induction l as [|x l IH]; [done|]. simpl. change (list_omap A B f l) with (omap f l). destruct (f x); simpl; lia. Qed.

Lemma Route_length x key r qs : Registry_Route x key r = Ok qs → (length qs ≤ size (reg_queues r))%nat.
Proof.
  unfold Registry_Route. intros (ex & _ & Hx)%result_bind_Ok. cbv zeta in Hx.
  destruct (bool_decide _); [done|]. injection Hx as <-.
  destruct (route_spec ex key (queueExistsLocked r) (reg_routing r)) as (Hnd & _ & _).
  set (names := Broker.route _ _ _ _) in *.
  etrans; [apply omap_length_le|]. rewrite <-size_dom, <-(size_list_to_set (C := gset string) names Hnd).
  apply subseteq_size. intros n. rewrite elem_of_list_to_set, elem_of_dom. apply route_names_registered.
Qed.

Lemma distinct_draws_ids pub e : distinct_draws (size (reg_queues (e_registry e))) e → distinct_ids E pub e.
Proof.
  intros Hd. unfold distinct_ids. destruct (Registry_Route _ _ _) as [qs|] eqn:Hr; [|done].
  rewrite publish_batch_ids. eapply distinct_draws_le; [by eapply Route_length|exact Hd].
Qed.

(** A validator whose every complaint refuses the payload. *)
Definition refuses (schemas : option (string → string → result error unit)) : Prop :=
  ∀ v name payload err, schemas = Some v → v name payload = Err err →
    (api.classify err).1 = StatusUnprocessableEntity.

Lemma refused_check schemas pub q err : refuses schemas → schema_check schemas pub q = Err err →
  (api.classify err).1 = StatusUnprocessableEntity.
Proof. intros Hr. unfold schema_check. destruct schemas as [v|]; [|done]. case_match; [done|]. by apply Hr. Qed.

Lemma outcome_Publish schemas pub e (Q : PublishResult → Engine S → Prop) : einv e → refuses schemas →
  distinct_draws (size (reg_queues (e_registry e))) e →
  (∀ r e', einv e' → Q r e') → outcome (Engine_Publish E schemas pub) e e Q.
Proof.
  intros Hi Href Hd HQ. apply (distinct_draws_ids pub) in Hd. unfold distinct_ids in Hd.
  destruct (Registry_Route (pub_Exchange pub) (pub_RoutingKey pub) (e_registry e)) as [qs|err] eqn:Hr; last first.
  { unfold outcome. rewrite (Publish_unroutable E schemas pub err e Hi Hr).
    apply refused_now; [done|]. by eapply Route_client. }
  destruct (schema_cases schemas pub qs) as [Hall|(before & q & after & err & -> & Hb & Hq)].
  - eapply outcome_runs; [by eapply Publish_runs|apply keeps_Publish|..].
    + intros err e' (Hi' & _ & Hm). split; [done|]. case_decide; [|by destruct Hm as [[=] _]].
      destruct Hm as [[= ->] Hv]. split; [client|by right].
    + intros r e' (Hi' & _) _. by apply HQ.
  - eapply outcome_runs; [by eapply Publish_rejected_runs|apply keeps_Publish|..].
    + intros err' e' (Hi' & [= ->] & _). pose proof (refused_check _ _ _ _ Href Hq) as Hs.
      split; [done|]. split; [|by left]. unfold client_error. rewrite Hs. done.
    + intros r e' (_ & [=] & _).
Qed.

(** ** The topology *)

Context {HT : TopologyAnswers S}.

Lemma quiet_Ping : quiet (Engine_Ping : prog (Engine S) _).
Proof using HS HT.
  intros e Hi. destruct (law_Queues (e_store e) Hi) as [Hi' [_ Hv]]. pose proof (ta_Queues _ Hi) as Hok.
  unfold looks, Engine_Ping, wrapping. rewrite !bind_eq. unfold attempting, on_store.
  destruct (st_Queues (e_store e)) as [s [qs|err]]; [|done]. split; [done|]. split; [by split|done].
Qed.

(** A registry change that fails has changed nothing. *)
Lemma outcome_registry {A B} (f : Registry → result error (A * Registry)) (k : A → prog (Engine S) B) e Q :
  einv e → (∀ err, f (e_registry e) = Err err → client_error err) →
  (∀ a r, f (e_registry e) = Ok (a, r) → outcome (k a) e (put_registry r e) Q) →
  outcome (registry_do f ≫= k) e e Q.
Proof.
  intros Hi Herr Hok. unfold outcome. rewrite bind_eq. unfold registry_do.
  destruct (f (e_registry e)) as [[a r]|err]; [by apply Hok|]. apply refused_now; auto.
Qed.

Lemma outcome_saved {A B} (p : prog S A) (k : A → prog (Engine S) B) e0 e (Q : B → Engine S → Prop) :
  store_inv (p (e_store e)).1 → is_ok (p (e_store e)).2 →
  (∀ a e', einv e' → outcome (k a) e0 e' Q) → outcome (on_store p ≫= k) e0 e Q.
Proof.
  intros Hi Hok Hk. unfold outcome. rewrite bind_eq. unfold on_store.
  destruct (p (e_store e)) as [s [a|err]]; [|done]. by apply Hk.
Qed.

Lemma outcome_unless {B} (b : bool) (p : prog S unit) (k : unit → prog (Engine S) B) e0 e (Q : B → Engine S → Prop) :
  einv e → store_inv (p (e_store e)).1 → is_ok (p (e_store e)).2 →
  (∀ e', einv e' → outcome (k tt) e0 e' Q) →
  outcome ((if b then on_store p else mret tt) ≫= k) e0 e Q.
Proof.
  intros Hi Hs Hok Hk. destruct b; [apply outcome_saved; [done..|]; intros []; by apply Hk|]. by apply Hk.
Qed.

Lemma outcome_DeclareExchange spec now e (Q : Exchange → Engine S → Prop) : einv e →
  (∀ x e', einv e' → Q x e') → outcome (Engine_DeclareExchange spec now) e e Q.
Proof using HS HT.
  intros Hi HQ. apply outcome_registry; [done|by apply DeclareExchange_client|]. intros x r _.
  apply outcome_unless; [done|by apply law_SaveExchange| |].
  - cbn [put_registry e_store]. by rewrite (ta_SaveExchange x _ Hi).
  - intros e' Hi'. by apply HQ.
Qed.

Lemma outcome_DeclareQueue spec now e (Q : Queue → Engine S → Prop) : einv e →
  (∀ q e', einv e' → Q q e') → outcome (Engine_DeclareQueue spec now) e e Q.
Proof using HS.
  intros Hi HQ. apply outcome_registry; [done|by apply DeclareQueue_client|]. intros q r _.
  destruct (law_SaveQueue q (e_store e) Hi) as [Hs [Hok _]].
  apply outcome_unless; [done..| |].
  - cbn [put_registry e_store]. by rewrite Hok.
  - intros e' Hi'. by apply HQ.
Qed.

Lemma outcome_Bind spec now e (Q : Binding → Engine S → Prop) : einv e →
  (∀ b e', einv e' → Q b e') → outcome (Engine_Bind spec now) e e Q.
Proof using HS HT.
  intros Hi HQ. apply outcome_registry; [done|by apply Bind_client|]. intros b r _.
  apply outcome_saved; [by apply law_SaveBinding| |].
  - cbn [put_registry e_store]. by rewrite (ta_SaveBinding b _ Hi).
  - intros [] e' Hi'. by apply HQ.
Qed.

(** A deletion that finds nothing to delete in the store succeeds. *)
Lemma outcome_forget (f : Registry → result error Registry) (p : prog S unit) e (Q : unit → Engine S → Prop) :
  einv e → (∀ err, f (e_registry e) = Err err → client_error err) →
  store_inv (p (e_store e)).1 →
  (p (e_store e)).2 = Ok tt ∨ (p (e_store e)).2 = Err (StorageErr ErrNotFound) →
  (∀ e', einv e' → Q tt e') →
  outcome (registry_forget f ≫= fun _ => ignore_missing p) e e Q.
Proof.
  intros Hi Herr Hs Hr HQ. apply outcome_registry; [done| |].
  { intros err Hf. apply Herr. apply result_bind_Err in Hf as [Hf|(r & _ & [=])]. done. }
  intros [] r _. unfold outcome, ignore_missing. rewrite bind_eq. unfold attempting, on_store. simpl e_store.
  destruct (p (e_store e)) as [s res]. simpl in *. destruct Hr as [->| ->]; by apply HQ.
Qed.

Lemma outcome_Unbind spec e (Q : unit → Engine S → Prop) : einv e →
  (∀ e', einv e' → Q tt e') → outcome (Engine_Unbind spec) e e Q.
Proof using HS HT.
  intros Hi HQ. apply outcome_forget; [done|by apply Unbind_client|by apply law_DeleteBinding| |done].
  by apply ta_DeleteBinding.
Qed.

Lemma outcome_DeleteQueue name e (Q : unit → Engine S → Prop) : einv e →
  (∀ e', einv e' → Q tt e') → outcome (Engine_DeleteQueue name) e e Q.
Proof using HS.
  intros Hi HQ. destruct (law_DeleteQueue name (e_store e) Hi) as [Hs Hspec].
  apply outcome_forget; [done|by apply DeleteQueue_client|done| |done].
  unfold delete_queue_spec in Hspec. case_decide; destruct Hspec as [-> _]; auto.
Qed.
End rules.
