(* ===== verification/ApiClaims.v ===== *)
(** What the HTTP interface promises ([Api.v]): every request is answered, no
    answer is a server error, an answer that blames the request means that
    nothing has changed, and reading changes nothing. *)

From S2P Require Import Prelude Errors MessageId Message Broker BrokerProofs Storage StoreTraces Float64.
From S2P Require Import DurationText Retry Logging Engine EngineProofs EnginePublish EngineSafety Metrics Schema.
From S2P Require Import HeaderJson Json Api ApiProofs.
From S2P Require Import Memory MemoryProofs EngineClaims SchemaProofs.

Local Open Scope Z_scope.
Import api.

(** * Patterns *)

Definition compatible (a b : segment) : bool :=
  match a, b with Lit x, Lit y => bool_decide (x = y) | _, _ => true end.

Fixpoint overlap (p q : list segment) : bool :=
  match p, q with
  | [], [] => true
  | a :: p, b :: q => compatible a b && overlap p q
  | _, _ => false
  end.

Lemma match_overlap p q path v w a b :
  match_path p path v = Some a → match_path q path w = Some b → overlap p q = true.
Proof.
  revert q path v w. induction p as [|x p IH]; intros [|y q] [|s path] v w; try (simpl; by repeat case_match); [].
  simpl. destruct x as [x|], y as [y|]; repeat case_match; try done; simplify_eq; simpl; eauto.
  rewrite bool_decide_eq_true_2 by done. eauto.
Qed.

(** Two places of the list whose patterns overlap under one method. *)
Definition clash (shapes : list (string * list segment)) : list (nat * nat) :=
  i ← seq 0 (length shapes); j ← seq 0 (length shapes);
  match shapes !! i, shapes !! j with
  | Some (m, p), Some (m', q) => if bool_decide (m = m') && overlap p q && bool_decide (i ≠ j) then [(i, j)] else []
  | _, _ => []
  end.

Lemma no_clash shapes i j m p q : clash shapes = [] →
  shapes !! i = Some (m, p) → shapes !! j = Some (m, q) → overlap p q = true → i = j.
Proof.
  intros Hc Hi Hj Ho. destruct (decide (i = j)) as [|Hne]; [done|]. exfalso.
  assert ((i, j) ∈ clash shapes) as Hin; [|rewrite Hc in Hin; by apply elem_of_nil in Hin].
  unfold clash. apply list_elem_of_bind. exists i. split; [|apply elem_of_seq; apply lookup_lt_Some in Hi; lia].
  apply list_elem_of_bind. exists j. split; [|apply elem_of_seq; apply lookup_lt_Some in Hj; lia].
  rewrite Hi, Hj, Ho, !bool_decide_eq_true_2 by done. by apply list_elem_of_singleton.
Qed.

(** The first element of a list that fails a predicate. *)
Lemma first_failing {A} (P : A → Prop) (b b' : list A) q q' a a' :
  b ++ q :: a = b' ++ q' :: a' → Forall P b → Forall P b' → ¬ P q → ¬ P q' → q = q'.
Proof.
  revert b'. induction b as [|x b IH]; intros [|x' b'] Heq Hb Hb' Hq Hq'; simplify_eq/=; try done.
  - by apply Forall_cons in Hb' as [? _].
  - by apply Forall_cons in Hb as [? _].
  - apply Forall_cons in Hb as [_ Hb], Hb' as [_ Hb']. by eapply IH.
Qed.

Section claims.
Context {S : Type} `{HS : Unrestricted S} {HT : TopologyAnswers S}.
Context (E : env) (policy : Policy) (unrepresentable : float64 → Z).
Context {doc compiled : Type} (pk : packages doc compiled).
Context (schemas : option (gmap string (entry compiled))).
Context (has_metrics : bool) (print_g : float64 → string) (json_text : json_error → string).
Context (version : string).
Implicit Types (e : Engine S).

(** The schema compiler reports violations only. *)
Definition violations_only : Prop := ∀ c d x, compiled_Validate pk c d ≠ Some (CheckOther x).

Lemma validator_refuses : violations_only → refuses (validator pk schemas).
Proof.
  intros Hpk v name payload err. unfold validator. destruct schemas as [r|]; [|done].
  intros [= <-]. by apply Validate_refuses.
Qed.

(** ** The handlers *)

Ltac status := split; vm_compute; congruence.
Ltac calmly :=
  lazymatch goal with
  | |- peaceful (or_fail _ _) => apply peaceful_or_fail; [|intros ?]
  | |- peaceful (_ ≫= _) => apply peaceful_bind; [|intros ?]
  | |- peaceful (mret _) => apply peaceful_ret; status
  | |- quiet (attempting _) => apply quiet_attempting
  | |- inquiry (registry_get _) => apply inquiry_registry
  end.
#[local] Hint Resolve inquiry_Message inquiry_History inquiry_DeadLetters inquiry_CountDeadLetters
  inquiry_DeadLetter quiet_gets quiet_now quiet_describeQueue quiet_describe_all quiet_RefreshQueueDepths
  quiet_Ping Exchange_client Queue_client : api.
Ltac calm_down := repeat calmly; eauto with api.

(** The handlers of the GET routes. *)
Lemma Health_calm r : peaceful (handleHealth (S := S) E version r).
Proof. unfold handleHealth. calm_down. Qed.
Lemma Ready_calm r : peaceful (handleReady (S := S) r).
Proof using HS HT.
  intros e Hi. unfold handleReady. apply answers_bind. pose proof (quiet_Ping e Hi) as Hp. unfold looks, attempting in *.
  destruct (Engine_Ping e) as [e' [[]|err]]; destruct Hp as (Hi' & Hu & ?); [|done].
  apply answers_bind. split; [done|]. split; [status|done].
Qed.
Lemma Metrics_calm r : peaceful (handleMetrics (S := S) has_metrics print_g r).
Proof. unfold handleMetrics. destruct has_metrics; cbn [negb]; calm_down. Qed.
Lemma ListExchanges_calm r : peaceful (handleListExchanges (S := S) r).
Proof. unfold handleListExchanges. calm_down. Qed.
Lemma GetExchange_calm name r : peaceful (handleGetExchange (S := S) name r).
Proof. unfold handleGetExchange. calm_down. Qed.
Lemma ListQueues_calm r : peaceful (handleListQueues (S := S) r).
Proof. unfold handleListQueues. calm_down. Qed.
Lemma GetQueue_calm name r : peaceful (handleGetQueue (S := S) name r).
Proof. unfold handleGetQueue. calm_down. Qed.
Lemma GetMessage_calm id r : peaceful (handleGetMessage (S := S) id r).
Proof. unfold handleGetMessage. calm_down. Qed.
Lemma GetMessageHistory_calm id r : peaceful (handleGetMessageHistory (S := S) id r).
Proof. unfold handleGetMessageHistory. calm_down. Qed.
Lemma ListDeadLetters_calm r : peaceful (handleListDeadLetters (S := S) r).
Proof. unfold handleListDeadLetters. calm_down. Qed.
Lemma GetDeadLetter_calm id r : peaceful (handleGetDeadLetter (S := S) id r).
Proof. unfold handleGetDeadLetter. calm_down. Qed.
Lemma ListSchemas_calm r : peaceful (handleListSchemas (S := S) schemas r).
Proof. unfold handleListSchemas. calm_down. Qed.
Lemma ListConsumers_calm r : peaceful (handleListConsumers (S := S) r).
Proof. unfold handleListConsumers. calm_down. Qed.
Lemma ListBindings_calm r : peaceful (handleListBindings (S := S) r).
Proof. unfold handleListBindings. calm_down. Qed.

#[local] Hint Resolve Health_calm Ready_calm Metrics_calm ListExchanges_calm GetExchange_calm ListQueues_calm
  GetQueue_calm GetMessage_calm GetMessageHistory_calm ListDeadLetters_calm GetDeadLetter_calm ListSchemas_calm
  ListConsumers_calm ListBindings_calm : calm.

(** The other handlers. *)
Lemma answered e0 resp e : einv e → 200 ≤ rs_Status resp < 400 → good e0 resp e.
Proof.
  intros Hi [Hl Hu]. split; [done|]. split; [lia|]. unfold blamed. intros Hb. exfalso.
  repeat (apply elem_of_cons in Hb as [Hb|Hb]; [rewrite Hb in Hu; by vm_compute in Hu|]). by apply elem_of_nil in Hb.
Qed.
Lemma said_no err e : einv e → client_error err → answers (mret (api.fail err)) e (good e).
Proof. intros Hi Hc. apply answers_ret, fail_good. by apply refused_now. Qed.

Lemma Publish_good r e : violations_only → einv e → distinct_draws E (size (reg_queues (e_registry e))) e →
  answers (handlePublish E pk schemas json_text r) e (good e).
Proof.
  intros Hpk Hi Hd. unfold handlePublish. apply decodeBody_answers; [done|]. intros request. case_match.
  - apply answers_ret. split; [done|]. split; [status|done].
  - apply or_fail_answers. apply outcome_Publish; [done|by apply validator_refuses|done|].
    intros res e' Hi'. apply answers_ret, answered; [done|status].
Qed.

Lemma Consume_good queue r e : einv e → answers (handleConsume E json_text queue r) e (good e).
Proof.
  intros Hi. unfold handleConsume. apply optional_body_answers; [done|]. intros request.
  destruct (optionalDuration (cq_Lease request)) as [lease|err] eqn:Hl.
  - apply or_fail_answers, outcome_Pull; [done|]. intros ms e' Hi'. apply answers_bind, answers_ret, answered; [done|].
    destruct ms; status.
  - apply said_no; [done|]. by eapply optionalDuration_client.
Qed.

Lemma Ack_good id r e : einv e → answers (handleAck E id r) e (good e).
Proof.
  intros Hi. unfold handleAck. apply or_fail_answers, outcome_Ack; [done|]. intros e' Hi'.
  apply answers_bind, answers_ret, answered; [done|status].
Qed.

Lemma Nack_good id r e : einv e → answers (handleNack E policy unrepresentable json_text id r) e (good e).
Proof.
  intros Hi. unfold handleNack. apply optional_body_answers; [done|]. intros request.
  apply or_fail_answers, outcome_Nack; [done|]. intros e' Hi' _ [rec Hrec]. apply or_fail_answers.
  destruct (law_Message id (e_store e') Hi') as [Hi2 [Hr Hv]].
  unfold outcome, Engine_Message, on_store. unfold eview in Hrec. rewrite Hrec in Hr.
  destruct (st_Message id (e_store e')) as [s res]. simpl in Hr, Hi2. rewrite Hr.
  apply answers_ret, answered; [done|status].
Qed.

Lemma Retry_good id r e : einv e → answers (handleRetryDeadLetter E id r) e (good e).
Proof.
  intros Hi. unfold handleRetryDeadLetter. apply or_fail_answers, outcome_Replay; [done|]. intros res e' Hi'.
  apply answers_ret, answered; [done|status].
Qed.

Lemma Discard_good id r e : einv e → answers (handleDeleteDeadLetter id r) e (good e).
Proof.
  intros Hi. unfold handleDeleteDeadLetter. apply or_fail_answers, outcome_Discard; [done|]. intros s Hi'.
  apply answers_ret, answered; [done|status].
Qed.

Lemma Purge_good name r e : einv e → answers (handlePurgeQueue name r) e (good e).
Proof.
  intros Hi. unfold handlePurgeQueue. apply or_fail_answers, outcome_Purge; [done|]. intros n s Hi'.
  apply answers_ret, answered; [done|status].
Qed.

Lemma DeclareExchange_good r e : einv e → answers (handleDeclareExchange E json_text r) e (good e).
Proof using HS HT.
  intros Hi. unfold handleDeclareExchange. apply decodeBody_answers; [done|]. intros request.
  destruct (ParseExchangeKind (eq_Kind request)) as [kind|err] eqn:Hk.
  - apply answers_bind, or_fail_answers.
    apply (outcome_DeclareExchange (HT := HT) _ _ (tick_wall e)); [done|]. intros x e' Hi'.
    apply answers_ret, answered; [done|status].
  - apply said_no; [done|]. by eapply ParseExchangeKind_client.
Qed.

Lemma DeclareQueue_good r e : einv e → answers (handleDeclareQueue E schemas json_text r) e (good e).
Proof using HS.
  intros Hi. unfold handleDeclareQueue. apply decodeBody_answers; [done|]. intros request.
  destruct (optionalDuration (qq_VisibilityTimeout request)) as [visibility|err] eqn:Hv.
  - case_match; [apply answers_ret; split; [done|]; split; [status|done]|].
    apply answers_bind, or_fail_answers.
    apply (outcome_DeclareQueue _ _ (tick_wall e)); [done|]. intros q e' Hi'.
    eapply answers_quiet; [apply quiet_describeQueue|done|]. intros view e'' Hi'' _.
    apply answers_ret, answered; [done|status].
  - apply said_no; [done|]. by eapply optionalDuration_client.
Qed.

Lemma DeleteQueue_good name r e : einv e → answers (handleDeleteQueue name r) e (good e).
Proof using HS.
  intros Hi. unfold handleDeleteQueue. apply or_fail_answers, outcome_DeleteQueue; [done|]. intros e' Hi'.
  apply answers_ret, answered; [done|status].
Qed.

Lemma Bind_good r e : einv e → answers (handleBind E json_text r) e (good e).
Proof using HS HT.
  intros Hi. unfold handleBind. apply decodeBody_answers; [done|]. intros request.
  apply answers_bind, or_fail_answers. apply (outcome_Bind (HT := HT) _ _ (tick_wall e)); [done|].
  intros b e' Hi'. apply answers_ret, answered; [done|status].
Qed.

Lemma Unbind_good r e : einv e → answers (handleUnbind json_text r) e (good e).
Proof using HS HT.
  intros Hi. unfold handleUnbind. apply decodeBody_answers; [done|]. intros request.
  apply or_fail_answers, (outcome_Unbind (HT := HT)); [done|]. intros e' Hi'.
  apply answers_ret, answered; [done|status].
Qed.

#[local] Hint Resolve Publish_good Consume_good Ack_good Nack_good Retry_good Discard_good Purge_good
  DeclareExchange_good DeclareQueue_good DeleteQueue_good Bind_good Unbind_good peaceful_good : good.

(** ** The routes *)

Abbreviation the_routes := (routes (S := S) E policy unrepresentable pk schemas has_metrics print_g json_text version).
Abbreviation the_mux := (mux (S := S) E policy unrepresentable pk schemas has_metrics print_g json_text version).
Abbreviation serve := (ServeHTTP (S := S) E policy unrepresentable pk schemas has_metrics print_g json_text version).

Lemma routes_good : violations_only → Forall (fun ro => ∀ v r e,
  einv e → distinct_draws E (size (reg_queues (e_registry e))) e → answers (ro_handler ro v r) e (good e)) the_routes.
Proof using HS HT.
  intros Hpk. unfold routes. repeat apply Forall_cons_2; try apply Forall_nil_2; intros v r e Hi Hd;
    cbn [ro_handler]; unfold plain; eauto with good calm.
Qed.

Lemma routes_calm : Forall (fun ro => ro_method ro = "GET" ∨ ro_method ro = "HEAD" → ∀ v r, peaceful (ro_handler ro v r)) the_routes.
Proof using HS HT.
  unfold routes. repeat apply Forall_cons_2; try apply Forall_nil_2; cbn [ro_method ro_handler]; intros Hm v r;
    try (by destruct Hm); unfold plain; auto with calm.
Qed.

(** The route that answers a request, or the two answers of net/http itself. *)
Lemma mux_cases r :
  (∃ ro, ro ∈ the_routes ∧ method_fits (ro_method ro) (rq_Method r) = true ∧
     the_mux r = ro_handler ro (default "" (match_path (ro_pattern ro) (rq_Path r) "")) r) ∨
  (∃ resp, the_mux r = mret resp ∧ 400 ≤ rs_Status resp < 500).
Proof.
  unfold mux. cbv zeta. set (fitting := List.filter _ _).
  destruct (List.find _ fitting) as [ro|] eqn:Hf; [left|right].
  - apply List.find_some in Hf as [Hin Hm]. apply List.filter_In in Hin as [Hin _].
    exists ro. split; [by apply list_elem_of_In|done].
  - eexists. split; [done|]. destruct fitting; status.
Qed.

Lemma mux_good r e : violations_only → einv e → distinct_draws E (size (reg_queues (e_registry e))) e →
  answers (the_mux r) e (good e).
Proof using HS HT.
  intros Hpk Hi Hd. destruct (mux_cases r) as [(ro & Hin & _ & ->)|(resp & -> & Hs)].
  - pose proof (routes_good Hpk) as Hall. rewrite Forall_forall in Hall. by apply Hall.
  - apply answers_ret. split; [done|]. split; [lia|done].
Qed.

Lemma mux_calm r : rq_Method r = "GET" ∨ rq_Method r = "HEAD" → peaceful (the_mux r).
Proof using HS HT.
  intros Hr. destruct (mux_cases r) as [(ro & Hin & Hm & ->)|(resp & -> & Hs)].
  - pose proof routes_calm as Hall. rewrite Forall_forall in Hall. apply Hall; [done|].
    unfold method_fits in Hm. apply orb_true_iff in Hm as [Hm|[Hm _]%andb_true_iff];
      apply bool_decide_eq_true in Hm; [by rewrite Hm|by left].
  - apply peaceful_ret. lia.
Qed.

(** ** The server *)

(** The middleware around a handler: the answer is the handler's, under the id
    the client sent or a new one. *)
Definition drawn (r : Request) e : Engine S :=
  if str_empty (rq_RequestID r) then tick_draw (tick_wall e) else e.

Definition request_id (r : Request) e : string :=
  if str_empty (rq_RequestID r) then newIDAt (env_wall E (e_walls e)) (env_entropy E (e_draws e)) else rq_RequestID r.

Definition limited (maxBodyBytes : Z) (r : Request) : Request :=
  mkRequest (rq_Method r) (rq_Path r) (rq_Query r) (rq_RequestID r) (rq_ContentLength r)
    (max_bytes (effective_limit maxBodyBytes) (rq_Body r)).

Lemma distinct_drawn r e : distinct_draws E (1 + size (reg_queues (e_registry e))) e →
  distinct_draws E (size (reg_queues (e_registry (drawn r e)))) (drawn r e).
Proof.
  intros Hd. unfold drawn. case_match; [|eapply distinct_draws_le; [|exact Hd]; lia].
  unfold distinct_draws in *. simpl in *. apply NoDup_cons in Hd as [_ Hd].
  rewrite <-seq_shift, <-list_fmap_compose in Hd. refine (eq_ind _ _ Hd _ _).
  apply list_fmap_ext. intros i x _. simpl. by rewrite ?Nat.add_succ_r.
Qed.

Lemma NewID_eq e : NewID E e =
  (tick_draw (tick_wall e), Ok (newIDAt (env_wall E (e_walls e)) (env_entropy E (e_draws e)))).
Proof. unfold NewID. rewrite bind_eq. unfold time_Now. by rewrite bind_eq. Qed.
Lemma ret_eq {X A} (a : A) (x : X) : (mret a : prog X A) x = (x, Ok a).
Proof. done. Qed.

Lemma wrap_answers (next : Request → prog (Engine S) response) r e Q :
  answers (next r) (drawn r e) (fun resp e' => Q (with_id (request_id r e) resp) e') →
  answers (recoverPanics (requestID E next r)) e Q.
Proof.
  unfold answers, recoverPanics, requestID, drawn, request_id. rewrite !bind_eq.
  destruct (str_empty (rq_RequestID r)); [rewrite NewID_eq|rewrite ret_eq]; rewrite bind_eq; unfold attempting.
  - by destruct (next r (tick_draw (tick_wall e))) as [e' [resp|err]].
  - by destruct (next r e) as [e' [resp|err]].
Qed.

Lemma limitBody_eq (next : Request → prog (Engine S) response) maxBodyBytes r :
  limitBody (effective_limit maxBodyBytes) next r = next (limited maxBodyBytes r).
Proof. done. Qed.

Lemma serve_answers maxBodyBytes r e Q :
  answers (the_mux (limited maxBodyBytes r)) (drawn r e) (fun resp e' => Q (with_id (request_id r e) resp) e') →
  answers (serve maxBodyBytes r) e Q.
Proof. intros Hm. unfold ServeHTTP. apply wrap_answers. by rewrite limitBody_eq. Qed.

Lemma serve_good maxBodyBytes r e :
  einv e → violations_only → distinct_draws E (1 + size (reg_queues (e_registry e))) e →
  answers (serve maxBodyBytes r) e (fun resp e' => good e resp e' ∧ rs_RequestID resp = request_id r e).
Proof using HS HT.
  intros Hi Hpk Hd. apply serve_answers. eapply answers_mono; [apply mux_good; [done| |]|].
  - unfold drawn. by case_match.
  - apply distinct_drawn. done.
  - intros resp e' (Hi' & Hs & Hb). split; [|done]. split; [done|]. split; [done|]. intros Hbl.
    specialize (Hb Hbl). unfold drawn in Hb. destruct (str_empty (rq_RequestID r)); exact Hb.
Qed.


(** C21: Reading changes nothing: whatever a GET or HEAD request asks for, and
    whether it is found or not, the stored messages, dead letters, history, the
    topology and the consumers are what they were. *)
Theorem reading_changes_nothing maxBodyBytes r e :
  einv e → rq_Method r = "GET" ∨ rq_Method r = "HEAD" →
  ∃ resp e', serve maxBodyBytes r e = (e', Ok resp) ∧ 200 ≤ rs_Status resp < 500 ∧ einv e' ∧
    eview e' = eview e ∧ e_registry e' = e_registry e ∧ e_consumers e' = e_consumers e.
Proof using HS HT.
  intros Hi Hm. assert (answers (serve maxBodyBytes r) e (calm e)) as Ha.
  { apply serve_answers. eapply answers_mono; [apply mux_calm; [done|]|].
    - unfold drawn. by case_match.
    - intros resp e' (Hi' & Hs & Hu). split; [done|]. split; [done|]. unfold drawn in Hu. destruct (str_empty (rq_RequestID r)); exact Hu. }
  unfold answers in Ha. destruct (serve maxBodyBytes r e) as [e' [resp|err]]; [|done].
  destruct Ha as (Hi' & Hs & Hv & Hr & Hc). exists resp, e'. by repeat (split; [done|]).
Qed.

(** ** Single requests *)

Lemma routes_unambiguous : clash ((fun ro => (ro_method ro, ro_pattern ro)) <$> the_routes) = [].
Proof. unfold routes. cbn [fmap list_fmap ro_method ro_pattern]. vm_compute. reflexivity. Qed.

(** A request other than HEAD is handled by the one route that fits it. *)
Lemma mux_route r ro v : rq_Method r ≠ "HEAD" → ro ∈ the_routes → ro_method ro = rq_Method r →
  match_path (ro_pattern ro) (rq_Path r) "" = Some v → the_mux r = ro_handler ro v r.
Proof.
  intros Hh Hin Hm Hv. unfold mux. cbv zeta. set (fits := fun ro' => if match_path (ro_pattern ro') _ _ then true else false).
  assert (List.In ro (List.filter fits the_routes)) as Hro.
  { apply List.filter_In. split; [by apply list_elem_of_In|]. unfold fits. by rewrite Hv. }
  destruct (List.find _ (List.filter fits the_routes)) as [ro'|] eqn:Hf; last first.
  { apply (List.find_none _ _ Hf) in Hro. unfold method_fits in Hro. by rewrite bool_decide_eq_true_2 in Hro. }
  apply List.find_some in Hf as [Hin' Hm']. apply List.filter_In in Hin' as [Hin' Hfit]. unfold fits in Hfit.
  destruct (match_path (ro_pattern ro') (rq_Path r) "") as [v'|] eqn:Hv'; [|done].
  assert (ro_method ro' = rq_Method r) as Heq.
  { unfold method_fits in Hm'. apply orb_true_iff in Hm' as [Hm'|[_ Hm']%andb_true_iff];
      apply bool_decide_eq_true in Hm'; [done|congruence]. }
  apply list_elem_of_In, list_elem_of_lookup in Hin' as [j Hj]. apply list_elem_of_lookup in Hin as [i Hi].
  assert (i = j) as ->; [|simpl; congruence].
  eapply (no_clash _ i j (rq_Method r) (ro_pattern ro) (ro_pattern ro') routes_unambiguous).
  - rewrite list_lookup_fmap, Hi. simpl. by rewrite Hm.
  - rewrite list_lookup_fmap, Hj. simpl. by rewrite Heq.
  - by eapply match_overlap.
Qed.

Lemma serve_route i ro v maxBodyBytes r e Q : the_routes !! i = Some ro → rq_Method r ≠ "HEAD" →
  ro_method ro = rq_Method r → match_path (ro_pattern ro) (rq_Path r) "" = Some v →
  answers (ro_handler ro v (limited maxBodyBytes r)) (drawn r e) (fun resp e' => Q (with_id (request_id r e) resp) e') →
  answers (serve maxBodyBytes r) e Q.
Proof.
  intros Hi Hh Hm Hv Ha. apply serve_answers. erewrite (mux_route (limited maxBodyBytes r) ro v); [exact Ha|exact Hh| |done..].
  by eapply list_elem_of_lookup_2.
Qed.

Lemma or_fail_runs {A} (p : prog (Engine S) A) (k : A → prog (Engine S) response) e (R : result error A → Engine S → Prop) Q :
  runs p e R → (∀ err e', R (Err err) e' → (api.classify err).1 ≠ StatusInternalServerError ∧ Q (api.fail err) e') →
  (∀ a e', R (Ok a) e' → answers (k a) e' Q) → answers (or_fail p k) e Q.
Proof.
  unfold runs. intros HR Herr Hok. unfold or_fail. apply answers_bind. unfold attempting.
  destruct (p e) as [e' [a|err]]; simpl in HR; [by apply Hok|]. destruct (Herr err e' HR) as [Hc HQ].
  destruct err; try done.
Qed.

Lemma answers_exists (h : prog (Engine S) response) e Q : answers h e Q → ∃ resp e', h e = (e', Ok resp) ∧ Q resp e'.
Proof. unfold answers. destruct (h e) as [e' [resp|err]]; [eauto|done]. Qed.

(** Drawing an id for the request leaves everything else. *)
Lemma drawn_same r e : eview (drawn r e) = eview e ∧ e_registry (drawn r e) = e_registry e ∧
  e_ticks (drawn r e) = e_ticks e ∧ (einv e → einv (drawn r e)).
Proof. unfold drawn. by case_match. Qed.

(** [POST /api/v1/messages/{id}/ack] answers 200 exactly when the message
    is stored and leased, which settles it and records one event in its history;
    it answers 404 when there is no such message and 409 when it is not leased,
    and then nothing stored has changed. *)
Theorem ack_request maxBodyBytes r e id :
  einv e → rq_Method r = "POST" → rq_Path r = ["api"; "v1"; "messages"; id; "ack"] → str_empty id = false →
  let now := env_clock E (e_ticks e) in
  ∃ resp e', serve maxBodyBytes r e = (e', Ok resp) ∧ einv e' ∧
  match a_messages (eview e) !! id with
  | None => rs_Status resp = StatusNotFound ∧ eview e' = eview e
  | Some rec =>
      if decide (rec_State rec = StateProcessing)
      then rs_Status resp = StatusOK ∧
           (∃ t, rs_Body resp = BodyAcknowledged id StateAcknowledged t) ∧
           eview e' = with_history (ack_event id (rec_Queue rec) "" now)
                        (with_messages (insert id (ack_record now rec)) (eview e))
      else rs_Status resp = StatusConflict ∧ eview e' = eview e
  end.
Proof.
  intros Hi Hm Hp Hid now. destruct (drawn_same r e) as (Hv & _ & Ht & Hi').
  apply answers_exists.
  eapply (serve_route 15 _ id); [done|by rewrite Hm|by rewrite Hm|rewrite Hp; simpl; by rewrite Hid|].
  eapply or_fail_runs; [by apply Ack_runs, Hi'|..]; rewrite Hv, Ht; fold now; [intros err|intros []];
    intros e' [He' Hr]; (destruct (a_messages (eview e) !! id) as [rec|]; [case_decide|]); try by destruct Hr as [[=] _].
  - destruct Hr as [[= ->] Hv']. by repeat (split; [done|]).
  - destruct Hr as [[= ->] Hv']. by repeat (split; [done|]).
  - destruct Hr as [_ Hv']. apply answers_bind, answers_ret. split; [done|]. split; [done|]. eauto.
Qed.


(** C40: A queue the store never saved (one that is not durable) cannot be
    emptied: purging it answers not found, and deleting it succeeds but leaves
    its messages in the store, where a queue declared later under the same name
    finds them. *)
Theorem unsaved_queue_outlives_deletion name registry e :
  einv e → name ∉ a_queues (eview e) → Registry_DeleteQueue name (e_registry e) = Ok registry →
  (Engine_Purge name e).2 = Err (StorageErr ErrNotFound) ∧
  ∃ e', Engine_DeleteQueue name e = (e', Ok tt) ∧ einv e' ∧ e_registry e' = registry ∧ eview e' = eview e.
Proof using HS.
  intros Hi Hn Hreg. split.
  - destruct (law_Purge name (e_store e) Hi) as [_ Hp]. unfold purge_spec in Hp. rewrite decide_False in Hp by done.
    unfold Engine_Purge, on_store. destruct (st_Purge name (e_store e)) as [s res]. by destruct Hp.
  - destruct (law_DeleteQueue name (e_store e) Hi) as [Hs Hd]. unfold delete_queue_spec in Hd.
    rewrite decide_False in Hd by done. unfold Engine_DeleteQueue, registry_forget, ignore_missing, registry_do.
    rewrite bind_eq, Hreg. cbn [mbind result_bind]. rewrite bind_eq. unfold attempting, on_store. simpl e_store.
    destruct (st_DeleteQueue name (e_store e)) as [s res]. destruct Hd as [Hres Hv]. simpl in *. subst res.
    eexists. by split_and!.
Qed.

(** The bodies of consume and nack requests count only when the client
    declares their length: without it (a chunked request), whatever the body
    says, a message is failed and not requeued, for the default reason. *)
Theorem unsized_body_ignored id r e :
  rq_ContentLength r ≤ 0 →
  handleNack E policy unrepresentable json_text id r e =
  or_fail (Engine_Nack E policy unrepresentable id "" false) (fun _ =>
    or_fail (Engine_Message id) (fun msg =>
    mret (writeJSON StatusOK (BodyNacked id (msg_State msg) (msg_Attempts msg) (msg_AvailableAt msg))))) e.
Proof. intros Hl. unfold handleNack, optional_body. by destruct (Z.ltb_spec 0 (rq_ContentLength r)); [lia|]. Qed.
End claims.

(** * The in-memory store answers *)

#[export] Instance Memory_answers : TopologyAnswers Store.
Proof.
  split.
  - intros x s [Hc _]. cbn. unfold mem_SaveExchange, if_open. by rewrite Hc.
  - intros b s [Hc _]. cbn. unfold mem_SaveBinding, if_open. by rewrite Hc.
  - intros spec s _. cbn. unfold mem_DeleteBinding. case_match; auto.
  - intros s _. done.
Qed.

(** * Witnesses *)

Module ApiSamples.
Definition request (method : string) (path : list string) (text : string) : Request :=
  mkRequest method path (fun _ => "") "" (Z.of_nat (String.length text)) (mkReader text None).
(** A registry with one schema that forbids the document [1]. *)
Definition schemas : option (gmap string (entry string)) :=
  Some (Register SchemaSamples.pk "invoice" "1" NewSchemaRegistry).1.
Abbreviation server := (ServeHTTP (S := Store) Samples.E Default Samples.overflow SchemaSamples.pk schemas true
  (fun _ => "") (fun _ => "malformed") "1.0" 0).

Lemma only_violations : violations_only SchemaSamples.pk.
Proof. intros c d x. simpl. case_decide; discriminate. Qed.
Lemma distinct : distinct_draws Samples.E (1 + size (reg_queues (e_registry Samples.busy))) Samples.busy.
Proof. apply (bool_decide_eq_true_1 _). vm_compute. reflexivity. Qed.
(** A JSON object, and a publication of a payload. *)
Definition member (name value : string) : string := json_string name +:+ ":" +:+ value.
Definition object (members : list string) : string := "{" +:+ String.concat "," members +:+ "}".
Definition publication (payload : string) : Request :=
  request "POST" ["api"; "v1"; "messages"]
    (object [member "exchange" (json_string "erp.events"); member "routing_key" (json_string "invoice.issued");
             member "payload" payload]).
Definition published (payload : string) : publishRequest := mkPublishRequest "erp.events" "invoice.issued" payload ∅ "".

(** A queue that is not durable, with one message in it, and no binding left. *)
Definition volatile : Queue := mkQueue (mkQueueSpec "tmp" false 3 second "") 1.
Definition steps : list eop :=
  [OpDeclareExchange (mkExchangeSpec "jobs" ExchangeFanout false) 1;
   OpDeclareQueue (q_Spec volatile) 1;
   OpBind (mkBindingSpec "jobs" "tmp" "") 1;
   OpPublish (mkPublication "jobs" "" "{}" ∅ "");
   OpUnbind (mkBindingSpec "jobs" "tmp" "")].
Definition leftover : Engine Store := run_ops Samples.E Default None Samples.overflow steps Samples.new.
Lemma leftover_inv : einv leftover.
Proof.
  apply run_ops_ok; [exact Samples.new_ok|]. do 3 (split; [exact I|]). split; [|split; exact I].
  apply (bool_decide_eq_true_1 (distinct_ids _ _ _)). vm_compute. reflexivity.
Qed.
End ApiSamples.


Lemma reading_changes_nothing_witness :
  ∃ resp e', ApiSamples.server (ApiSamples.request "GET" ["api"; "v1"; "queues"] "") Samples.busy = (e', Ok resp) ∧
    eview e' = eview Samples.busy.
Proof.
  destruct (reading_changes_nothing Samples.E Default Samples.overflow SchemaSamples.pk ApiSamples.schemas true (fun _ => "")
    (fun _ => "malformed") "1.0" 0 (ApiSamples.request "GET" ["api"; "v1"; "queues"] "") Samples.busy
    (proj1 Samples.busy_ok) (or_introl eq_refl)) as (resp & e' & Hs & _ & _ & Hv & _).
  exists resp, e'. split; [exact Hs|exact Hv].
Defined.

(** The leased message is acknowledged. *)
Lemma ack_request_witness :
  ∃ resp e', ApiSamples.server
      (ApiSamples.request "POST" ["api"; "v1"; "messages"; Samples.leased_id; "ack"] "") Samples.busy = (e', Ok resp) ∧
    rs_Status resp = StatusOK.
Proof.
  destruct (ack_request Samples.E Default Samples.overflow SchemaSamples.pk ApiSamples.schemas true (fun _ => "")
    (fun _ => "malformed") "1.0" 0
    (ApiSamples.request "POST" ["api"; "v1"; "messages"; Samples.leased_id; "ack"] "") Samples.busy Samples.leased_id)
    as (resp & e' & Hs & _ & Hm).
  - exact (proj1 Samples.busy_ok).
  - reflexivity.
  - reflexivity.
  - vm_compute. reflexivity.
  - exists resp, e'. split; [exact Hs|].
    rewrite Samples.leased_stored, decide_True in Hm by (vm_compute; reflexivity). exact (proj1 Hm).
Defined.


(** The message of the deleted queue is delivered to its successor. *)
Lemma unsaved_queue_outlives_deletion_witness :
  ∃ e', Engine_DeleteQueue "tmp" ApiSamples.leftover = (e', Ok tt) ∧ eview e' = eview ApiSamples.leftover ∧
    msg_Payload <$> match (Engine_Pull Samples.E (mkPullRequest "tmp" "w" 1 1)
                             (Engine_DeclareQueue (q_Spec ApiSamples.volatile) 2 e').1).2 with
                    | Ok ms => ms | Err _ => [] end = ["{}"].
Proof.
  destruct (unsaved_queue_outlives_deletion "tmp"
    (match Registry_DeleteQueue "tmp" (e_registry ApiSamples.leftover) with Ok r => r | Err _ => NewRegistry end)
    ApiSamples.leftover) as (_ & e' & Hd & _ & _ & Hv).
  - exact ApiSamples.leftover_inv.
  - apply (bool_decide_eq_true_1 _). vm_compute. reflexivity.
  - vm_compute. reflexivity.
  - exists e'. split; [exact Hd|]. split; [exact Hv|].
    replace e' with (Engine_DeleteQueue "tmp" ApiSamples.leftover).1 by (by rewrite Hd). vm_compute. reflexivity.
Defined.

(** A chunked request to requeue: the message is scheduled for a retry. *)
Lemma unsized_body_ignored_witness :
  let chunked := mkRequest "POST" ["api"; "v1"; "messages"; Samples.leased_id; "nack"] (fun _ => "") "" (-1)
                   (mkReader (ApiSamples.object [ApiSamples.member "requeue" "true"]) None) in
  (fun resp => match rs_Body resp with BodyNacked _ state _ _ => state | _ => StateCreated end) <$>
    (handleNack Samples.E Default Samples.overflow (fun _ => "malformed") Samples.leased_id chunked Samples.busy).2
  = Ok StateRetrying.
Proof.
  intros chunked. rewrite unsized_body_ignored by (vm_compute; discriminate). vm_compute. reflexivity.
Defined.
