(* ===== verification/Middleware.v ===== *)
(** The server's middleware at the level of [http.ResponseWriter]: [Options],
    [New], [wrap] and [ServeHTTP] of internal/api/server.go and the middlewares
    of middleware.go.

    Api.v says which response a request gets; here a handler is a program on a
    response writer, any writer, and a middleware a function of handlers, as in
    the source.  [conn] is the writer of net/http: the header map is frozen by
    the first [WriteHeader], a [Write] without one sends status 200, responses to
    HEAD and with status 204 or 304 have no body, and a broken connection takes
    only so many bytes.  Headers that net/http adds by itself are left out, and so
    are the lines that handlers log themselves. *)

From S2P Require Import Prelude Errors MessageId Message Broker Storage Float64 Retry Logging.
From S2P Require Import Engine Metrics Schema SchemaProofs HeaderJson HeaderProofs Json Api ApiProofs Memory MemoryProofs EngineProofs EnginePublish EngineSafety EngineClaims ApiClaims.

Local Open Scope Z_scope.
Import api.

(** * Response writers *)

Class ResponseWriter (W : Type) := {
  rw_SetHeader : string → string → W → W;
  rw_WriteHeader : Z → W → W;
  rw_Write : string → W → W * (Z * option error);
}.

(** [cn_sent] is the status and the header that went out; [cn_room] how many
    bytes the connection still takes, [None] for any number. *)
Record conn := mkConn {
  cn_head : bool;
  cn_header : gmap string string;
  cn_sent : option (Z * gmap string string);
  cn_body : string;
  cn_room : option nat;
}.

Definition bodyAllowedForStatus (status : Z) : bool :=
  negb ((100 <=? status) && (status <=? 199)) && negb (status =? 204) && negb (status =? 304).

Definition conn_WriteHeader (status : Z) (c : conn) : conn :=
  match cn_sent c with
  | Some _ => c
  | None => mkConn (cn_head c) (cn_header c) (Some (status, cn_header c)) (cn_body c) (cn_room c)
  end.

Definition ErrBodyNotAllowed : error := errorString "http: request method or response status code does not allow body".
Definition broken_pipe : error := errorString "write: broken pipe".

Definition conn_Write (payload : string) (c : conn) : conn * (Z * option error) :=
  let c := conn_WriteHeader StatusOK c in
  let status := match cn_sent c with Some (status, _) => status | None => StatusOK end in
  let n := String.length payload in
  if negb (bodyAllowedForStatus status) then (c, (0, Some ErrBodyNotAllowed))
  else if cn_head c then (c, (Z.of_nat n, None))
  else
    let taken := match cn_room c with Some room => Nat.min room n | None => n end in
    (mkConn (cn_head c) (cn_header c) (cn_sent c) (cn_body c +:+ str_take taken payload)
       ((fun room => room - taken)%nat <$> cn_room c),
     (Z.of_nat taken, if decide (taken = n) then None else Some broken_pipe)).

#[export] Instance conn_writer : ResponseWriter conn := {
  rw_SetHeader name value c :=
    mkConn (cn_head c) (<[name := value]> (cn_header c)) (cn_sent c) (cn_body c) (cn_room c);
  rw_WriteHeader := conn_WriteHeader;
  rw_Write := conn_Write;
}.

(** What net/http does when the handler returns. *)
Definition finishRequest (c : conn) : conn := conn_WriteHeader StatusOK c.

(** [statusRecorder] *)
Record statusRecorder (W : Type) := mkStatusRecorder { sr_ResponseWriter : W; sr_status : Z; sr_bytes : Z }.
Arguments mkStatusRecorder {W}. Arguments sr_ResponseWriter {W}. Arguments sr_status {W}. Arguments sr_bytes {W}.

Definition statusRecorder_WriteHeader {W} `{ResponseWriter W} (status : Z) (r : statusRecorder W) : statusRecorder W :=
  mkStatusRecorder (rw_WriteHeader status (sr_ResponseWriter r)) status (sr_bytes r).

Definition statusRecorder_Write {W} `{ResponseWriter W} (payload : string) (r : statusRecorder W) :
    statusRecorder W * (Z * option error) :=
  let status := if sr_status r =? 0 then StatusOK else sr_status r in
  let '(w, (written, err)) := rw_Write payload (sr_ResponseWriter r) in
  (mkStatusRecorder w status (sr_bytes r + written), (written, err)).

(** [Header] is that of the embedded writer. *)
#[export] Instance statusRecorder_writer {W} `{ResponseWriter W} : ResponseWriter (statusRecorder W) := {
  rw_SetHeader name value r := mkStatusRecorder (rw_SetHeader name value (sr_ResponseWriter r)) (sr_status r) (sr_bytes r);
  rw_WriteHeader := statusRecorder_WriteHeader;
  rw_Write := statusRecorder_Write;
}.

(** * Handlers *)

Inductive log_entry :=
| LogRequest (level : Level) (request_id method path : string) (status bytes : Z) (duration : Duration)
| LogPanic (path : string) (panic : error).

(** The context of a request, as far as the package reads it. *)
Record incoming := mkIncoming { in_request : Request; in_path : string; in_requestID : option string }.

(** [RequestIDFrom] *)
Definition RequestIDFrom (r : incoming) : string := default "" (in_requestID r).

Section middleware.
Context {S : Type} `{StoreOps S} (E : env).
(** The clock of the log, and the JSON text of a body, [None] when it has none. *)
Context (now : nat → Time) (encode : body → option string).

Record exchange (W : Type) := mkExchange { ex_w : W; ex_engine : Engine S; ex_log : list log_entry; ex_reads : nat }.
Arguments mkExchange {W}. Arguments ex_w {W}. Arguments ex_engine {W}. Arguments ex_log {W}. Arguments ex_reads {W}.

(** An error is a panic of the handler. *)
Definition http_Handler : Type := ∀ W, ResponseWriter W → incoming → prog (exchange W) unit.
Definition middleware : Type := http_Handler → http_Handler.

Definition put_w {W V} (w : V) (x : exchange W) : exchange V := mkExchange w (ex_engine x) (ex_log x) (ex_reads x).
Definition log {W} (l : log_entry) (x : exchange W) : exchange W := mkExchange (ex_w x) (ex_engine x) (ex_log x ++ [l]) (ex_reads x).
Definition tick {W} (x : exchange W) : exchange W := mkExchange (ex_w x) (ex_engine x) (ex_log x) (1 + ex_reads x).

(** ** Writing a response *)

Definition prometheus (resp : response) : bool := bool_decide (rs_ContentType resp = prometheusContentType).

(** The text of a body: none, or what one [Write] gets. *)
Definition text_of (b : body) : option string :=
  match b with NoBody => None | BodyText text => Some text | _ => encode b end.

(** [writeJSON], [http.Error], [w.WriteHeader(status)], and for the metrics a
    [Write] without a status *)
Definition emit {W} `{ResponseWriter W} (resp : response) (w : W) : W :=
  let w := if str_empty (rs_ContentType resp) then w else rw_SetHeader "Content-Type" (rs_ContentType resp) w in
  let w := if prometheus resp then w else rw_WriteHeader (rs_Status resp) w in
  match text_of (rs_Body resp) with Some text => (rw_Write text w).1 | None => w end.

(** A handler of Api.v on a writer. *)
Definition handles (h : Request → prog (Engine S) response) : http_Handler := fun W _ r x =>
  match h (in_request r) (ex_engine x) with
  | (e, Ok resp) => (mkExchange (emit resp (ex_w x)) e (ex_log x) (ex_reads x), Ok tt)
  | (e, Err panic) => (mkExchange (ex_w x) e (ex_log x) (ex_reads x), Err panic)
  end.

(** ** The middlewares *)

Definition requestIDHeader : string := "X-Request-Id".

Definition requestID : middleware := fun next W _ r x =>
  let '(e, id) := (if str_empty (rq_RequestID (in_request r)) then NewID E else mret (rq_RequestID (in_request r))) (ex_engine x) in
  match id with
  | Err panic => (mkExchange (ex_w x) e (ex_log x) (ex_reads x), Err panic)
  | Ok id =>
      next W _ (mkIncoming (in_request r) (in_path r) (Some id))
        (mkExchange (rw_SetHeader requestIDHeader id (ex_w x)) e (ex_log x) (ex_reads x))
  end.

(** A panic of the handler goes past the log line. *)
Definition logRequests : middleware := fun next W _ r x =>
  let started := now (ex_reads x) in
  let x := tick x in
  match next (statusRecorder W) _ r (put_w (mkStatusRecorder (ex_w x) 0 0) x) with
  | (x, Err panic) => (put_w (sr_ResponseWriter (ex_w x)) x, Err panic)
  | (x, Ok _) =>
      let recorder := ex_w x in
      let status := if sr_status recorder =? 0 then StatusOK else sr_status recorder in
      let level := if StatusInternalServerError <=? status then LevelError else LevelInfo in
      (log (LogRequest level (RequestIDFrom r) (rq_Method (in_request r)) (in_path r) status (sr_bytes recorder)
              (now (ex_reads x) - started)) (tick (put_w (sr_ResponseWriter recorder) x)), Ok tt)
  end.

Definition recoverPanics : middleware := fun next W _ r x =>
  match next W _ r x with
  | (x, Ok _) => (x, Ok tt)
  | (x, Err panic) =>
      let x := log (LogPanic (in_path r) panic) x in
      (put_w (emit (writeError StatusInternalServerError "internal_error" "the broker failed to handle the request") (ex_w x)) x,
       Ok tt)
  end.

Definition limitBody (limit : Z) : middleware := fun next W _ r x =>
  let rq := in_request r in
  next W _ (mkIncoming (mkRequest (rq_Method rq) (rq_Path rq) (rq_Query rq) (rq_RequestID rq) (rq_ContentLength rq)
                          (max_bytes limit (rq_Body rq))) (in_path r) (in_requestID r)) x.

(** [wrap] *)
Definition wrap (maxBodyBytes : Z) (next : http_Handler) : http_Handler :=
  recoverPanics (requestID (logRequests (limitBody maxBodyBytes next))).
End middleware.

(** * What the handlers write *)

(** Metrics are the one response without an explicit status, which is 200; a
    response that may have no body has none. *)
Definition written (resp : response) : Prop :=
  (rs_ContentType resp = prometheusContentType → rs_Status resp = StatusOK) ∧
  (rs_Body resp = NoBody ∨ bodyAllowedForStatus (rs_Status resp) = true) ∧ 200 ≤ rs_Status resp < 600.

Definition writes {S} (h : prog (Engine S) response) : Prop := ∀ e e' resp, h e = (e', Ok resp) → written resp.

Section writes.
Context {S : Type} `{StoreOps S}.

Lemma writes_ret resp : written resp → writes (S := S) (mret resp).
Proof. by intros Hw e e' resp' [= _ <-]. Qed.
Lemma writes_fails err : writes (S := S) (fails err).
Proof. by intros e e' resp. Qed.
Lemma writes_bind {A} (p : prog (Engine S) A) (k : A → prog (Engine S) response) : (∀ x, writes (k x)) → writes (p ≫= k).
Proof. intros Hk e e' resp. rewrite bind_eq. destruct (p e) as [e1 [x|err]]; [apply Hk|done]. Qed.

Lemma written_json status b : 200 ≤ status < 600 → bodyAllowedForStatus status = true → written (writeJSON status b).
Proof. intros Hs Hb. by split; [|split; [right|]]. Qed.

Lemma classify_range err : 400 ≤ (classify err).1 < 600 ∧ bodyAllowedForStatus (classify err).1 = true.
Proof. unfold classify. repeat case_match; vm_compute; split; split; congruence || done. Qed.
Lemma written_fail err : written (api.fail err).
Proof.
  destruct (classify_range err) as [Hr Hb]. unfold api.fail. destruct (classify err) as [status code]. simpl in *.
  destruct (errors_As_Validation err) as [[schema violations]|]; apply written_json; done || lia.
Qed.

Lemma writes_or_fail {A} (p : prog (Engine S) A) k : (∀ x, writes (k x)) → writes (or_fail p k).
Proof.
  intros Hk. unfold or_fail. apply writes_bind. intros [x|err]; [apply Hk|].
  destruct err; try (apply writes_ret, written_fail). apply writes_fails.
Qed.
Lemma writes_decode {T} json_text (fields : list (field T)) r target (k : T → prog (Engine S) response) :
  (∀ x, writes (k x)) → writes (decodeBody json_text fields r target k).
Proof. intros Hk. unfold decodeBody. case_match; [apply Hk|]. apply writes_ret, written_json; vm_compute; done || split; done. Qed.
Lemma writes_optional {T} json_text (fields : list (field T)) r target (k : T → prog (Engine S) response) :
  (∀ x, writes (k x)) → writes (optional_body json_text fields r target k).
Proof. intros Hk. unfold optional_body. case_match; [by apply writes_decode|apply Hk]. Qed.
End writes.

Ltac write :=
  repeat first
    [apply writes_or_fail; intros|apply writes_decode; intros|apply writes_optional; intros|apply writes_fails
    |apply writes_ret; first [apply written_fail|apply written_json; [by vm_compute; split|done]|by split; [|split; [(by left)||(by right)|by vm_compute]]]
    |apply writes_bind; intros|case_match].

Section routes.
Context {S : Type} `{StoreOps S} (E : env) (policy : Policy) (unrepresentable : float64 → Z).
Context {doc compiled : Type} (pk : packages doc compiled) (schemas : option (gmap string (entry compiled))).
Context (has_metrics : bool) (print_g : float64 → string) (json_text : json_error → string) (version : string).

Abbreviation the_mux := (api.mux (S := S) E policy unrepresentable pk schemas has_metrics print_g json_text version).
Abbreviation the_routes := (api.routes (S := S) E policy unrepresentable pk schemas has_metrics print_g json_text version).

Lemma routes_write : Forall (fun ro => ∀ v r, writes (ro_handler ro v r)) the_routes.
Proof.
  unfold api.routes. repeat apply Forall_cons_2; [..|apply Forall_nil_2]; simpl; intros v r; unfold plain;
    unfold handleHealth, handleReady, handleMetrics, handleDeclareExchange, handleListExchanges, handleGetExchange,
      handleDeclareQueue, handleListQueues, handleGetQueue, handleDeleteQueue, handlePurgeQueue, handleConsume,
      handlePublish, handleGetMessage, handleGetMessageHistory, handleAck, handleNack, handleListDeadLetters,
      handleGetDeadLetter, handleRetryDeadLetter, handleDeleteDeadLetter, handleListSchemas, handleListConsumers,
      handleBind, handleListBindings, handleUnbind; write.
Qed.

Lemma mux_writes r : writes (the_mux r).
Proof.
  unfold api.mux. destruct (List.find _ _) as [ro|] eqn:Hf.
  - apply List.find_some in Hf as [Hin _]. apply List.filter_In in Hin as [Hin _]. apply list_elem_of_In in Hin.
    by apply (proj1 (Forall_forall _ _) routes_write).
  - destruct (List.filter _ _); write.
Qed.
End routes.

(** * The writer under the recorder *)

Section recorder.
Context (encode : body → option string).

(** The recorder passes everything on. *)
Lemma emit_through {W} `{ResponseWriter W} resp (r : statusRecorder W) :
  sr_ResponseWriter (emit encode resp r) = emit encode resp (sr_ResponseWriter r).
Proof.
  unfold emit. destruct (str_empty (rs_ContentType resp)), (prometheus resp), (text_of encode (rs_Body resp)) as [text|];
    simpl; unfold statusRecorder_Write; simpl; try (destruct (rw_Write text _) as [w' [n err]]); done.
Qed.

(** What it has noted when the handler returns. *)
Lemma emit_noted {W} `{ResponseWriter W} resp (w : W) : written resp →
  let r := emit encode resp (mkStatusRecorder w 0 0) in
  (if sr_status r =? 0 then StatusOK else sr_status r) = rs_Status resp.
Proof.
  intros (Hp & _ & Hr). unfold emit, prometheus. case_bool_decide as Hct.
  - rewrite (Hp Hct). destruct (str_empty (rs_ContentType resp)), (text_of encode (rs_Body resp)) as [text|]; simpl; unfold statusRecorder_Write; simpl; try done;
      by destruct (rw_Write text _) as [w' [n err]].
  - assert ((rs_Status resp =? 0) = false) as Hz by lia.
    destruct (str_empty (rs_ContentType resp)), (text_of encode (rs_Body resp)) as [text|]; simpl; unfold statusRecorder_Write; simpl;
      rewrite ?Hz; try (destruct (rw_Write text _) as [w' [n err]]; simpl; rewrite ?Hz); done.
Qed.

(** * The connection *)

(** Nothing has been written, and the client takes what it is sent. *)
Definition fresh (c : conn) : Prop := cn_sent c = None ∧ cn_body c = "" ∧ cn_room c = None.

Definition headers_with (resp : response) (h : gmap string string) : gmap string string :=
  if str_empty (rs_ContentType resp) then h else <["Content-Type" := rs_ContentType resp]> h.
Definition body_sent (head : bool) (resp : response) : string :=
  if head then "" else default "" (text_of encode (rs_Body resp)).

Lemma str_take_all s : str_take (String.length s) s = s.
Proof. induction s as [|c s IH]; simpl; [done|by rewrite IH]. Qed.

Lemma conn_Write_sent text c status h : cn_sent c = Some (status, h) → bodyAllowedForStatus status = true → cn_room c = None →
  conn_Write text c = (mkConn (cn_head c) (cn_header c) (cn_sent c) (cn_body c +:+ (if cn_head c then "" else text)) None,
                       (Z.of_nat (String.length text), None)).
Proof.
  intros Hs Hb Hr. unfold conn_Write, conn_WriteHeader. rewrite Hs, Hs, Hb, Hr. simpl. destruct (cn_head c) eqn:Hh.
  - rewrite str_app_nil. destruct c. simpl in *. by subst.
  - simpl. by rewrite str_take_all, decide_True.
Qed.

Lemma emit_conn resp c : fresh c → written resp →
  cn_sent (finishRequest (emit encode resp c)) = Some (rs_Status resp, headers_with resp (cn_header c)) ∧
  cn_body (emit encode resp c) = body_sent (cn_head c) resp.
Proof.
  intros (Hs & Hb & Hr) (Hp & Hallow & _). unfold emit, headers_with, body_sent, prometheus.
  set (c1 := if str_empty (rs_ContentType resp) then c else _).
  assert (cn_sent c1 = None ∧ cn_body c1 = "" ∧ cn_room c1 = None ∧ cn_head c1 = cn_head c ∧
    cn_header c1 = headers_with resp (cn_header c)) as (H1 & H2 & H3 & H4 & H5)
    by (unfold c1, headers_with; by destruct (str_empty (rs_ContentType resp))).
  unfold headers_with in H5. rewrite <-H5, <-H4. clearbody c1. clear H4 H5.
  (** The status that is sent, at the first write or with the header. *)
  assert (∀ c2, cn_sent c2 = Some (rs_Status resp, cn_header c1) → cn_body c2 = "" → cn_room c2 = None → cn_head c2 = cn_head c1 →
    let c3 := match text_of encode (rs_Body resp) with Some text => (conn_Write text c2).1 | None => c2 end in
    cn_sent (finishRequest c3) = Some (rs_Status resp, cn_header c1) ∧
    cn_body c3 = if cn_head c1 then "" else default "" (text_of encode (rs_Body resp))) as Hsent.
  { intros c2 Hs2 Hb2 Hr2 Hh2. destruct (text_of encode (rs_Body resp)) as [text|] eqn:Ht.
    - rewrite (conn_Write_sent text c2 _ _ Hs2); [|destruct Hallow as [Hn|?]; [by rewrite Hn in Ht|done]|done].
      unfold finishRequest, conn_WriteHeader. simpl. rewrite Hs2, Hb2, Hh2. by destruct (cn_head c1).
    - unfold finishRequest, conn_WriteHeader. rewrite Hs2, Hs2, Hb2. by destruct (cn_head c1). }
  case_bool_decide as Hct.
  - specialize (Hp Hct). destruct (text_of encode (rs_Body resp)) as [text|] eqn:Ht.
    + assert (conn_Write text c1 = conn_Write text (conn_WriteHeader StatusOK c1)) as Hw
        by (unfold conn_Write; f_equal; unfold conn_WriteHeader; rewrite H1; done).
      simpl rw_Write. rewrite Hw. apply Hsent; unfold conn_WriteHeader; rewrite H1; simpl; by rewrite ?Hp.
    + unfold finishRequest, conn_WriteHeader. rewrite H1. simpl. rewrite Hp, H2. by destruct (cn_head c1).
  - apply Hsent; simpl; unfold conn_WriteHeader; by rewrite H1.
Qed.
End recorder.

(** * The server *)

(** [Options] and [Server], but for the engine, which is the state, and the
    logger and the clock, of which only the presence matters to [New]. *)
Record ServerOptions := mkServerOptions {
  so_Logger : option string;
  so_MaxBodyBytes : Z;
  so_Version : string;
  so_Clock : option (nat → Time);
}.
Record Server := mkServer {
  sv_logger : string;
  sv_maxBodyBytes : Z;
  sv_version : string;
  sv_clock : nat → Time;
}.
(** [New]; [default_logger] is [slog.Default()], [wall] is [time.Now().UTC()]. *)
Definition New_Server (default_logger : string) (wall : nat → Time) (opts : ServerOptions) : Server :=
  mkServer (default default_logger (so_Logger opts))
    (if so_MaxBodyBytes opts <=? 0 then defaultMaxBodyBytes else so_MaxBodyBytes opts)
    (if str_empty (so_Version opts) then "dev" else so_Version opts)
    (default wall (so_Clock opts)).

Section server.
Context {S : Type} `{StoreOps S} (E : env) (policy : Policy) (unrepresentable : float64 → Z).
Context {doc compiled : Type} (pk : packages doc compiled) (schemas : option (gmap string (entry compiled))).
Context (has_metrics : bool) (print_g : float64 → string) (json_text : json_error → string).
Context (now : nat → Time) (encode : body → option string).

(** [Server.ServeHTTP]: the middlewares around the routes. *)
Definition serve (s : Server) : http_Handler (S := S) :=
  wrap E now encode (sv_maxBodyBytes s)
    (handles encode (api.mux E policy unrepresentable pk schemas has_metrics print_g json_text (sv_version s))).

(** The same request, as Api.v answers it. *)
Abbreviation answer s := (api.ServeHTTP (S := S) E policy unrepresentable pk schemas has_metrics print_g json_text (sv_version s)
  (sv_maxBodyBytes s)).

Definition level_of (status : Z) : Level := if StatusInternalServerError <=? status then LevelError else LevelInfo.

(** C12: The middlewares implement what Api.v says of a request, on the response
    writer itself: for every request on a fresh connection, whatever the handler
    does, exactly one response goes out, with the status and the body of the
    answer of Api.v and with its request id and content type in the header (no
    body for HEAD); the engine is left in the same state; and exactly one line is
    logged: the panic, and then the response is the internal error, or the
    request, with the id, the method, the path and the very status that was
    sent, as an error from 500 on. *)
Theorem middleware_refines_api (s : Server) r path e c :
  0 < sv_maxBodyBytes s → fresh c → cn_header c = ∅ →
  ∃ x resp e', serve s conn _ (mkIncoming r path None) (mkExchange _ c e [] 0) = (x, Ok tt) ∧
    answer s r e = (e', Ok resp) ∧ ex_engine _ x = e' ∧
    cn_sent (finishRequest (ex_w _ x)) = Some (rs_Status resp, headers_with resp {[requestIDHeader := rs_RequestID resp]}) ∧
    cn_body (ex_w _ x) = body_sent encode (cn_head c) resp ∧
    ((∃ panic, ex_log _ x = [LogPanic path panic] ∧ rs_Status resp = StatusInternalServerError) ∨
     (∃ bytes duration, ex_log _ x =
        [LogRequest (level_of (rs_Status resp)) (rs_RequestID resp) (rq_Method r) path (rs_Status resp) bytes duration])).
Proof.
  intros Hmax (Hs & Hb & Hr) Hh. unfold serve, wrap, recoverPanics, requestID, logRequests, limitBody, handles.
  unfold api.ServeHTTP, api.recoverPanics, api.requestID. rewrite bind_eq. cbn [in_request in_path in_requestID ex_engine ex_w ex_log ex_reads].
  assert (∃ e1 id, (if str_empty (rq_RequestID r) then NewID E else mret (rq_RequestID r)) e = (e1, Ok id)) as (e1 & id & Hid).
  { destruct (str_empty (rq_RequestID r)); [rewrite NewID_eq|rewrite ret_eq]; eauto. }
  rewrite bind_eq, Hid. rewrite bind_eq. unfold attempting, api.limitBody.
  assert (effective_limit (sv_maxBodyBytes s) = sv_maxBodyBytes s) as ->
    by (unfold effective_limit; by rewrite (proj2 (Z.leb_gt _ _) Hmax)).
  set (rq := mkRequest _ _ _ _ _ _). set (h := api.mux _ _ _ _ _ _ _ _ _ _).
  destruct (h e1) as [e' [resp|panic]] eqn:Hrun; cbn [ex_w ex_engine ex_log ex_reads put_w tick log sr_ResponseWriter sr_status sr_bytes];
    rewrite ?bind_eq, ?ret_eq, ?Hrun.
  - assert (written resp) as Hw by (eapply mux_writes; exact Hrun).
    eexists _, (with_id id resp), e'. split; [done|]. split; [done|]. split; [done|].
    cbn [ex_w ex_log tick log put_w]. rewrite emit_through, (emit_noted encode resp _ Hw). simpl sr_ResponseWriter.
    set (c1 := mkConn _ _ _ _ _). assert (fresh c1) as Hf by by split.
    destruct (emit_conn encode resp c1 Hf Hw) as [H1 H2]. split; [rewrite H1; unfold headers_with; simpl; by rewrite Hh|].
    split; [by rewrite H2|]. right. eexists _, _. done.
  - set (w := writeError _ _ _). assert (written w) as Hw by (apply written_json; by vm_compute).
    eexists _, (with_id id w), e'. split; [done|]. split; [done|]. split; [done|]. cbn [ex_w ex_log tick log put_w sr_ResponseWriter].
    set (c1 := rw_SetHeader requestIDHeader id c). assert (fresh c1) as Hf by by split.
    destruct (emit_conn encode w c1 Hf Hw) as [H1 H2]. split; [rewrite H1; unfold headers_with; simpl; by rewrite Hh|].
    split; [by rewrite H2|]. left. by exists panic.
Qed.
End server.

Module MiddlewareSamples.
Definition server : Server := New_Server "default" (fun _ => 0) (mkServerOptions None 0 "" None).
Definition client : conn := mkConn false ∅ None "" None.
Definition encode (b : body) : option string := Some "{}".
Definition serving : http_Handler (S := Store) :=
  serve Samples.E Default Samples.overflow SchemaSamples.pk ApiSamples.schemas true (fun _ => "") (fun _ => "malformed")
    (fun n => Z.of_nat n) encode server.
End MiddlewareSamples.

(** A publication cut short is answered 400, and the line says so. *)
Lemma middleware_refines_api_witness :
  ∃ x, MiddlewareSamples.serving conn _ (mkIncoming (ApiSamples.publication "[1,") "/api/v1/messages" None)
      (mkExchange _ MiddlewareSamples.client Samples.busy [] 0) = (x, Ok tt) ∧
    ((∃ panic, ex_log _ x = [LogPanic "/api/v1/messages" panic]) ∨
     ∃ id bytes duration, ex_log _ x = [LogRequest LevelInfo id "POST" "/api/v1/messages" StatusBadRequest bytes duration]).
Proof.
  destruct (middleware_refines_api Samples.E Default Samples.overflow SchemaSamples.pk ApiSamples.schemas true (fun _ => "")
    (fun _ => "malformed") (fun n => Z.of_nat n) MiddlewareSamples.encode MiddlewareSamples.server
    (ApiSamples.publication "[1,") "/api/v1/messages" Samples.busy MiddlewareSamples.client)
    as (x & resp & e' & Hx & Ha & _ & _ & _ & Hlog); [reflexivity|by split|reflexivity|].
  exists x. split; [exact Hx|].
  assert (rs_Status resp = StatusBadRequest) as Hst.
  { assert ((rs_Status <$> (api.ServeHTTP (S := Store) Samples.E Default Samples.overflow SchemaSamples.pk ApiSamples.schemas true
      (fun _ => "") (fun _ => "malformed") (sv_version MiddlewareSamples.server) (sv_maxBodyBytes MiddlewareSamples.server)
      (ApiSamples.publication "[1,") Samples.busy).2) = Ok StatusBadRequest) as Hc by (vm_compute; reflexivity).
    rewrite Ha in Hc. by injection Hc. }
  destruct Hlog as [(panic & Hl & _)|(bytes & duration & Hl)]; [left; by exists panic|right].
  exists (rs_RequestID resp), bytes, duration. rewrite Hl, Hst. reflexivity.
Defined.
