(* ===== verification/Guard.v ===== *)
(** A store with preconditions, made total.

    A store of the contract may ask more of a caller than the contract does
    ([store_pre]: SQLite's times have four-digit years).  [Guarded S] is such a
    store with a reference implementation behind it: a call within the
    precondition goes to the store; the first call outside is performed on the
    abstract store instead ([perform]), and so are all later ones.  It takes
    every argument, so that what is proved of [Unrestricted] stores holds of
    it; and as long as no call is outside the precondition it is the store
    itself.  [EngineRange.v] shows when that is so. *)

From S2P Require Import Prelude Errors Message Broker Storage StoreTraces Float64 Retry Engine.
From S2P Require Import EngineProofs EnginePublish EngineSafety Schema Api ApiProofs.

(** * The abstract store as an implementation *)

Definition ids_where (P : record → Prop) `{∀ r, Decision (P r)} (m : gmap string record) : list string :=
  fst <$> filter (fun kv => P kv.2) (map_to_list m).

Definition answering {A} (r : result error A) (a : astore) : astore * result error A := (a, r).

Definition on_leased (id : string) (f : record → record) (refusal : State → error) (a : astore) :
    astore * result error unit :=
  match a_messages a !! id with
  | None => (a, Err (StorageErr ErrNotFound))
  | Some rec =>
      if decide (rec_State rec = StateProcessing) then (with_messages (insert id (f rec)) a, Ok tt)
      else (a, Err (refusal (rec_State rec)))
  end.

Definition on_dead (id : string) (f : DeadLetter → gmap string DeadLetter → gmap string DeadLetter) (a : astore) :
    astore * result error unit :=
  match a_dead a !! id with
  | None => (a, Err (StorageErr ErrNotFound))
  | Some d => (with_dead (f d) a, Ok tt)
  end.

Definition dead_page (f : DeadLetterFilter) (a : astore) : list DeadLetter :=
  let f := Normalise f in
  take (Z.to_nat (df_Limit f)) (drop (Z.to_nat (df_Offset f))
    (snd <$> filter (fun kv => dl_matches (df_Queue f) kv.2) (map_to_list (a_dead a)))).

(** One outcome the contract allows. *)
Definition perform {A} (c : call A) (a : astore) : astore * result error A :=
  match c in call A return astore * result error A with
  | CSaveQueue q => (mkAStore ({[q_Name q]} ∪ a_queues a) (a_messages a) (a_dead a) (a_history a), Ok tt)
  | CDeleteQueue name =>
      if decide (name ∈ a_queues a)
      then (mkAStore (a_queues a ∖ {[name]}) (filter (fun kv => ¬ open_in name kv.2) (a_messages a))
              (a_dead a) (a_history a), Ok tt)
      else (a, Err (StorageErr ErrNotFound))
  | CAppend ms =>
      if decide (Exists (fun msg => is_Some (a_messages a !! msg_ID msg)) ms)
      then (a, Err (StorageErr ErrConflict)) else (with_messages (append_all ms) a, Ok tt)
  | CMessage id => (a, match a_messages a !! id with
                       | Some rec => Ok (rec_msg rec) | None => Err (StorageErr ErrNotFound) end)
  | CClaim req =>
      let ids := take (Z.to_nat (cr_Limit req)) (ids_where (claimable_in req) (a_messages a)) in
      let a' := with_messages (claim_all req ids) a in (a', Ok (messages_of (a_messages a') ids))
  | CAcknowledge id at_ => on_leased id (ack_record at_) (StateError id StateProcessing) a
  | CScheduleRetry req => on_leased (rr_ID req) (retry_record req) (StateError (rr_ID req) StateProcessing) a
  | CRelease id at_ => on_leased id (release_record at_) (StateError id StateProcessing) a
  | CMarkDeadLettered id reason at_ =>
      on_leased id (dead_record reason at_) (fun s => InvalidTransitionError s StateDeadLettered) a
  | CExpiredLeases now limit =>
      let ids := ids_where (expired now) (a_messages a) in
      (a, Ok (messages_of (a_messages a) (if (0 <? limit)%Z then take (Z.to_nat limit) ids else ids)))
  | CDepth queue => (a, if decide (queue ∈ a_queues a) then Ok (depth_of queue (a_messages a))
                        else Err (StorageErr ErrNotFound))
  | CPurge queue =>
      if decide (queue ∈ a_queues a)
      then (with_messages (fun m => filter (fun kv => ¬ open_in queue kv.2) m) a,
            Ok (Z.of_nat (size (filter (fun kv => open_in queue kv.2) (a_messages a)))))
      else (a, Err (StorageErr ErrNotFound))
  | CSaveDeadLetter fresh entry =>
      let entry := if str_empty (dl_ID entry) then set_dl_ID fresh entry else entry in
      if decide (is_Some (a_dead a !! dl_ID entry)) then (a, Err (StorageErr ErrConflict))
      else (with_dead (insert (dl_ID entry) entry) a, Ok entry)
  | CDeadLetters f => (a, Ok (dead_page f a))
  | CDeadLetter id => (a, match a_dead a !! id with Some d => Ok d | None => Err (StorageErr ErrNotFound) end)
  | CMarkDeadLetterReplayed id as_ at_ => on_dead id (fun d => insert id (replayed as_ at_ d)) a
  | CDeleteDeadLetter id => on_dead id (fun _ => delete id) a
  | CCountDeadLetters queue =>
      (a, Ok (Z.of_nat (size (filter (fun kv => dl_matches queue kv.2) (a_dead a)))))
  | CAppendHistory e => (with_history e a, Ok tt)
  | CHistory id => (a, Ok (slice_at (a_history a) id))
  end.

(** ** It meets the contract *)

Lemma elem_of_ids_where P `{∀ r, Decision (P r)} m id :
  id ∈ ids_where P m ↔ ∃ r, m !! id = Some r ∧ P r.
Proof.
  unfold ids_where. rewrite list_elem_of_fmap. setoid_rewrite list_elem_of_filter. split.
  - intros ([k r] & -> & HP & ?%elem_of_map_to_list). eauto.
  - intros (r & ?%elem_of_map_to_list & ?). by exists (id, r).
Qed.

Lemma NoDup_ids_where P `{∀ r, Decision (P r)} m : NoDup (ids_where P m).
Proof.
  unfold ids_where. eapply sublist_NoDup; [apply (NoDup_fst_map_to_list m)|].
  apply fmap_sublist, sublist_filter.
Qed.

(** The first [n] ids, and all of them when there are fewer. *)
Lemma take_ids P `{∀ r, Decision (P r)} m (n : nat) :
  let ids := take n (ids_where P m) in
  NoDup ids ∧ (∀ id, id ∈ ids → ∃ r, m !! id = Some r ∧ P r) ∧ length ids ≤ n ∧
  (length ids < n → ∀ id r, m !! id = Some r → P r → id ∈ ids).
Proof.
  intros ids. split_and!.
  - eapply sublist_NoDup; [exact (NoDup_ids_where P m)|apply sublist_take].
  - intros id Hin. apply (elem_of_ids_where P). by eapply elem_of_submseteq, sublist_submseteq, sublist_take.
  - unfold ids. rewrite length_take. lia.
  - unfold ids. rewrite length_take. intros Hlt id r Hid HP. rewrite take_ge by lia.
    apply elem_of_ids_where. eauto.
Qed.

Lemma on_leased_spec id f a :
  leased_spec id f a (on_leased id f (StateError id StateProcessing) a).2
    (on_leased id f (StateError id StateProcessing) a).1.
Proof. unfold leased_spec, on_leased. case_match; [case_decide|]; done. Qed.

Lemma dead_page_spec f a : astore_ok a → dead_letters_spec f a (Ok (dead_page f a)) a.
Proof.
  intros Hok. split; [|done]. exists (dead_page f a). unfold dead_page. set (g := Normalise f).
  set (all := filter _ (map_to_list (a_dead a))).
  assert (∀ kv, kv ∈ all → a_dead a !! kv.1 = Some kv.2 ∧ dl_ID kv.2 = kv.1 ∧ dl_matches (df_Queue g) kv.2) as Hall.
  { intros [k d] [Hm Hin%elem_of_map_to_list]%list_elem_of_filter. simpl in *. by split_and!; [|apply Hok|]. }
  assert (dl_ID <$> (snd <$> all) = fst <$> all) as Hids.
  { rewrite <-list_fmap_compose. apply list_fmap_ext. intros i kv Hi. by apply Hall, (list_elem_of_lookup_2 _ i). }
  split_and!; [done| | |].
  - rewrite fmap_take, fmap_drop, Hids. eapply sublist_NoDup; [|etrans; [apply sublist_take|apply sublist_drop]].
    eapply sublist_NoDup; [apply (NoDup_fst_map_to_list (a_dead a))|apply fmap_sublist, sublist_filter].
  - intros d Hd. apply (elem_of_submseteq _ (snd <$> all)) in Hd; last first.
    { apply sublist_submseteq. etrans; [apply sublist_take|apply sublist_drop]. }
    apply list_elem_of_fmap in Hd as (kv & -> & Hkv). by destruct (Hall kv Hkv) as (? & -> & ?).
  - assert (length (snd <$> all) = size (filter (fun kv => dl_matches (df_Queue g) kv.2) (a_dead a))) as Hlen.
    { rewrite length_fmap. unfold all. rewrite <-length_map_to_list. apply Permutation_length.
      apply NoDup_Permutation; [apply NoDup_filter, NoDup_map_to_list|apply NoDup_map_to_list|].
      intros [k d]. by rewrite list_elem_of_filter, !elem_of_map_to_list, map_lookup_filter_Some, (comm and). }
    destruct (Normalise_range f) as [[Hl _] Ho]. fold g in Hl, Ho. rewrite length_take, length_drop, Hlen. lia.
Qed.

Lemma perform_spec {A} (c : call A) a : astore_ok a → call_pre c →
  call_spec c a (perform c a).2 (perform c a).1.
Proof.
  intros Hok Hpre. destruct c; cbn -[delete_queue_spec]; try apply on_leased_spec; try done.
  - unfold delete_queue_spec. case_decide; [|done]. split_and!; [done..| |].
    + intros id. simpl. rewrite map_lookup_filter. destruct (a_messages a !! id) as [rec|] eqn:Hid; [|by left]. simpl.
      case_guard as Hopen; [by left|right]. split; [done|]. destruct Hopen as [Hq _]. by rewrite <-Hq.
    + intros id rec. simpl. by intros [_ ?]%map_lookup_filter_Some.
  - unfold append_spec. by case_decide.
  - destruct (take_ids (claimable_in req) (a_messages a) (Z.to_nat (cr_Limit req))) as (Hnd & Hin & Hle & Hall).
    simpl in Hpre. eexists. split_and!; [|done..]. split_and!; [done..|lia|]. intros Hlt. apply Hall. lia.
  - unfold dead_spec, on_leased. case_match; [case_decide|]; done.
  - split; [|done]. eexists. split_and!; [|done|..].
    + case_match; [apply take_ids|apply NoDup_ids_where].
    + intros id. case_match; [apply take_ids|by intros ?%elem_of_ids_where].
    + intros Hl. rewrite (proj2 (Z.ltb_lt _ _)) by done.
      destruct (take_ids (expired now) (a_messages a) (Z.to_nat limit)) as (_ & _ & Hle & _). lia.
    + destruct (Z.ltb_spec 0 limit) as [Hl|Hl].
      * intros [?|Hlt]; [lia|]. apply take_ids. lia.
      * intros _ id rec Hid He. apply elem_of_ids_where. eauto.
  - unfold purge_spec. by case_decide.
  - unfold save_dead_spec. by case_decide.
  - by apply dead_page_spec.
  - unfold mark_replayed_spec, on_dead. by case_match.
  - unfold delete_dead_spec, on_dead. by case_match.
Qed.

(** * The guarded store *)

(** Still the store, or the abstract store that has taken over. *)
Inductive Guarded (S : Type) :=
| Within (s : S)
| Outside (a : astore).
Arguments Within {S}. Arguments Outside {S}.

Section guarded.
Context {S : Type} `{HC : StoreContract S}.
Context `{Hdec : ∀ A (a : astore) (c : call A), Decision (store_pre a c)}.

Definition guarded_call {A} (c : call A) : prog (Guarded S) A := fun g =>
  match g with
  | Within s =>
      if decide (store_pre (store_view s) c)
      then let '(s', r) := run_call c s in (Within s', r)
      else let '(a, r) := perform c (store_view s) in (Outside a, r)
  | Outside a => let '(a', r) := perform c a in (Outside a', r)
  end.

(** The topology is not part of the abstract store. *)
Definition guarded_topology {A} (p : prog S A) (otherwise : A) : prog (Guarded S) A := fun g =>
  match g with
  | Within s => let '(s', r) := p s in (Within s', r)
  | Outside a => (Outside a, Ok otherwise)
  end.

#[export] Instance Guarded_ops : StoreOps (Guarded S) := {
  st_SaveExchange e := guarded_topology (st_SaveExchange e) tt;
  st_Exchanges := guarded_topology st_Exchanges [];
  st_SaveQueue q := guarded_call (CSaveQueue q);
  st_Queues := guarded_topology st_Queues [];
  st_DeleteQueue n := guarded_call (CDeleteQueue n);
  st_SaveBinding b := guarded_topology (st_SaveBinding b) tt;
  st_Bindings := guarded_topology st_Bindings [];
  st_DeleteBinding b := guarded_topology (st_DeleteBinding b) tt;
  st_Append ms := guarded_call (CAppend ms);
  st_Message id := guarded_call (CMessage id);
  st_Claim req := guarded_call (CClaim req);
  st_Acknowledge id t := guarded_call (CAcknowledge id t);
  st_ScheduleRetry req := guarded_call (CScheduleRetry req);
  st_Release id t := guarded_call (CRelease id t);
  st_MarkDeadLettered id r t := guarded_call (CMarkDeadLettered id r t);
  st_ExpiredLeases t n := guarded_call (CExpiredLeases t n);
  st_Depth q := guarded_call (CDepth q);
  st_Purge q := guarded_call (CPurge q);
  st_SaveDeadLetter f d := guarded_call (CSaveDeadLetter f d);
  st_DeadLetters f := guarded_call (CDeadLetters f);
  st_DeadLetter id := guarded_call (CDeadLetter id);
  st_MarkDeadLetterReplayed id a t := guarded_call (CMarkDeadLetterReplayed id a t);
  st_DeleteDeadLetter id := guarded_call (CDeleteDeadLetter id);
  st_CountDeadLetters q := guarded_call (CCountDeadLetters q);
  st_AppendHistory e := guarded_call (CAppendHistory e);
  st_History id := guarded_call (CHistory id);
  st_Close := guarded_topology st_Close tt;
}.

Definition guarded_inv (g : Guarded S) : Prop :=
  match g with Within s => store_inv s | Outside a => astore_ok a end.
Definition guarded_view (g : Guarded S) : astore :=
  match g with Within s => store_view s | Outside a => a end.

Lemma guarded_law {A} (c : call A) g : guarded_inv g → call_pre c →
  guarded_inv (guarded_call c g).1 ∧
  call_spec c (guarded_view g) (guarded_call c g).2 (guarded_view (guarded_call c g).1).
Proof using HC.
  intros Hinv Hpre.
  assert (∀ a, astore_ok a → astore_ok (perform c a).1 ∧ call_spec c a (perform c a).2 (perform c a).1) as Hout.
  { intros a Ha. pose proof (perform_spec c a Ha Hpre) as Hp. split; [by eapply call_spec_ok|done]. }
  destruct g as [s|a]; simpl in *.
  - case_decide as Hp.
    + pose proof (law_call c s Hinv Hpre Hp). by destruct (run_call c s).
    + specialize (Hout _ (law_ok _ Hinv)). by destruct (perform c (store_view s)).
  - specialize (Hout a Hinv). by destruct (perform c a).
Qed.

Lemma guarded_topology_law {A} (p : prog S A) (x : A) :
  implements store_inv store_view p topology_spec →
  implements guarded_inv guarded_view (guarded_topology p x) topology_spec.
Proof.
  intros Hp [s|a] Hinv; [|done]. simpl in *. specialize (Hp s Hinv). by destruct (p s).
Qed.

#[export] Instance Guarded_contract : StoreContract (Guarded S).
Proof using HC Hdec.
  refine {| store_inv := guarded_inv; store_view := guarded_view; store_pre _ _ _ := True |}.
  - intros [s|a]; [apply law_ok|done].
  - intros e. apply guarded_topology_law, law_SaveExchange.
  - apply guarded_topology_law, law_Exchanges.
  - apply guarded_topology_law, law_Queues.
  - intros b. apply guarded_topology_law, law_SaveBinding.
  - apply guarded_topology_law, law_Bindings.
  - intros b. apply guarded_topology_law, law_DeleteBinding.
  - intros A c g Hinv Hpre _. destruct c; exact (guarded_law _ g Hinv Hpre).
Defined.

#[export] Instance Guarded_unrestricted : Unrestricted (Guarded S) := fun _ _ _ => I.

#[export] Instance Guarded_answers {HT : TopologyAnswers S} : TopologyAnswers (Guarded S).
Proof.
  split.
  - intros x [s|a] Hinv; [|done]. pose proof (ta_SaveExchange x s Hinv). simpl. by destruct (st_SaveExchange x s).
  - intros x [s|a] Hinv; [|done]. pose proof (ta_SaveBinding x s Hinv). simpl. by destruct (st_SaveBinding x s).
  - intros x [s|a] Hinv; [|by left]. pose proof (ta_DeleteBinding x s Hinv). simpl. by destruct (st_DeleteBinding x s).
  - intros [s|a] Hinv; [|done]. pose proof (ta_Queues s Hinv). simpl. by destruct (st_Queues s).
Qed.
End guarded.
