(* ===== verification/SqliteService.v ===== *)
(** The SQLite store as the engine and the HTTP interface use it.

    Besides what [SqliteContract.v] shows, the rows of the queues table stay
    readable, so that a readiness probe is answered.  [Sqlite_service] is the
    contract with that in its invariant; the caller owes times with four-digit
    years for queues too.  Its precondition can be decided, and the guarded
    store over it ([Guard.v]) takes every call. *)

From S2P Require Import Prelude Errors TimeText TimeProofs HeaderJson Message Broker Storage.
From S2P Require Import SqlConn SqlConnProofs Sqlite SqliteTables SqliteProofs SqliteContract.
From S2P Require Import TopologyStore SqliteTopology ApiProofs.

Opaque formatTime parseTime encodeHeaders decodeHeaders.

(** * What statements keep *)

Section preserving.
Context {T : Type} (P : T → Prop).

Definition preserving {A} (p : prog (Conn T) A) : Prop := ∀ db, P (db_tables db) → P (db_tables (p db).1).

Lemma preserving_statement {A} (f : T → T * result error A) :
  (∀ t, P t → P (f t).1) → preserving (statement f).
Proof.
  intros Hf db HP. unfold statement. simpl. specialize (Hf _ HP). destruct (db_closed db); [done|].
  destruct (db_faults db (db_clock db)) as [[e [|]]|]; [done..|]. by destruct (f (db_tables db)).
Qed.
Lemma preserving_same {A} (f : T → T * result error A) : (∀ t, (f t).1 = t) → preserving (statement f).
Proof. intros Hf. apply preserving_statement. intros t. by rewrite Hf. Qed.
Lemma preserving_bind {A B} (p : prog (Conn T) A) (f : A → prog (Conn T) B) :
  preserving p → (∀ a, preserving (f a)) → preserving (p ≫= f).
Proof.
  intros Hp Hf db HP. rewrite bind_eq. specialize (Hp db HP). destruct (p db) as [db1 [a|e]]; [|done].
  by apply Hf.
Qed.
Lemma preserving_lift {A} (r : result error A) : preserving (lift r).
Proof. by intros db. Qed.
Lemma preserving_ret {A} (a : A) : preserving (mret a).
Proof. by intros db. Qed.
Lemma preserving_fails {A} e : preserving (fails (A := A) e).
Proof. by intros db. Qed.
Lemma preserving_on_error {A} g (p : prog (Conn T) A) : preserving p → preserving (on_error g p).
Proof. intros Hp db HP. specialize (Hp db HP). unfold on_error. by destruct (p db) as [db1 [a|e]]. Qed.
Lemma preserving_each {X} (f : X → prog (Conn T) unit) xs :
  (∀ x, preserving (f x)) → preserving (for_each f xs).
Proof. intros Hf. induction xs as [|x xs IH]; [by intros db|]. cbn [for_each]. by apply preserving_bind. Qed.

(** A transaction ends with the contents before it or with those of its body. *)
Lemma preserving_transaction {A} prefix commit (p : prog (Conn T) A) :
  preserving p → preserving (transaction prefix commit p).
Proof.
  intros Hp db HP. unfold transaction.
  assert (preserving (wrapping prefix (statement (fun t : T => (t, Ok tt))))) as Hb
    by (by apply preserving_on_error, preserving_same).
  specialize (Hb db HP). destruct (wrapping prefix _ db) as [db1 [[]|e]]; [|done]. simpl in Hb.
  specialize (Hp db1 Hb). destruct (p db1) as [db2 [a|e]]; [|done]. simpl in Hp.
  assert (preserving (statement (fun _ : T => (db_tables db2, Ok a : result error A)))) as Hc
    by (by apply preserving_statement).
  specialize (Hc (put_tables (db_tables db1) db2) Hb). by destruct (statement _ _) as [db3 [b|e]].
Qed.
End preserving.

(** * The queues table *)

Definition queues_readable (t : Tables) : Prop := Forall queue_row_ok (t_queues t).

Ltac keeps_queues :=
  lazymatch goal with
  | |- preserving _ (for_each _ _) => apply preserving_each; intros ?; keeps_queues
  | |- preserving _ (_ ≫= _) => apply preserving_bind; [|intros ?]; keeps_queues
  | |- preserving _ (transaction _ _ _) => apply preserving_transaction; keeps_queues
  | |- preserving _ (on_error _ _) => apply preserving_on_error; keeps_queues
  | |- preserving _ (wrapping _ _) => apply preserving_on_error; keeps_queues
  | |- preserving _ (or_conflict _ _) => apply preserving_on_error; keeps_queues
  | |- preserving _ (loadMessage _) => apply preserving_on_error; keeps_queues
  | |- preserving _ (scanMessages _) => unfold scanMessages; keeps_queues
  | |- preserving _ (match ?x with _ => _ end) => destruct x; keeps_queues
  | |- preserving _ (lift _) => apply preserving_lift
  | |- preserving _ (mret _) => apply preserving_ret
  | |- preserving _ (fails _) => apply preserving_fails
  | |- _ => apply preserving_statement; intros ? ?; unfold insert_message, insert_dead_letter;
            repeat case_decide; done
  end.

Lemma readable_lease_each req candidates claimed :
  preserving queues_readable (lease_each req candidates claimed).
Proof.
  revert claimed. induction candidates as [|msg rest IH]; intros claimed; cbn [lease_each]; [by intros db|].
  do 2 (apply preserving_bind; [apply preserving_lift|intros ?]).
  apply preserving_bind; [keeps_queues|intros _; apply IH].
Qed.

Lemma readable_upsert row t :
  queue_row_ok row → queues_readable t → queues_readable (upsert_queue row t).1.
Proof.
  unfold queues_readable. simpl. intros Hrow. induction 1 as [|r rows Hr Hrs IH]; simpl; [by constructor|].
  case_match; by constructor.
Qed.

(** What a caller owes for a queue. *)
Definition queue_fits {A} (c : call A) : Prop :=
  match c with
  | CSaveQueue q => time_in_range (q_CreatedAt q) ∧ in_int64 (q_VisibilityTimeout q)
  | _ => True
  end.

Lemma call_keeps_queues {A} (c : call A) : queue_fits c → preserving queues_readable (run_call c).
Proof.
  intros Hq. destruct c; cbn [run_call]; cbn in Hq |- *;
    unfold sq_Append, append_message, sq_Message, sq_Claim, sq_Acknowledge,
      sq_ScheduleRetry, sq_Release, sq_MarkDeadLettered, transitionLeased, sq_ExpiredLeases, sq_Depth, sq_Purge,
      sq_SaveDeadLetter, sq_DeadLetters, sq_DeadLetter, sq_MarkDeadLetterReplayed, sq_DeleteDeadLetter,
      must_affect, sq_CountDeadLetters, sq_AppendHistory, sq_History;
    try solve [keeps_queues].
  - unfold sq_SaveQueue. apply preserving_bind; [|intros ?; apply preserving_ret].
    apply preserving_on_error, preserving_statement.
    intros t. apply readable_upsert. exists (q_CreatedAt q). apply parseTime_formatTime, Hq.
  - unfold sq_DeleteQueue, must_affect. apply preserving_transaction, preserving_bind; [|intros ?; keeps_queues].
    apply preserving_on_error, preserving_statement. intros t. apply Forall_filtered.
  - case_match; [apply preserving_ret|]. apply preserving_transaction.
    apply preserving_bind; [keeps_queues|intros ?]. apply preserving_bind; [keeps_queues|intros ?].
    apply readable_lease_each.
Qed.

(** * The contract *)

Definition service_inv (db : Db) : Prop := sqlite_inv db ∧ queues_readable (db_tables db).
Definition service_pre {A} (a : astore) (c : call A) : Prop := sqlite_pre a c ∧ queue_fits c.

Lemma service_call {A} (c : call A) db : service_inv db → call_pre c → service_pre (sqlite_view db) c →
  service_inv (run_call c db).1 ∧
  call_spec c (sqlite_view db) (run_call c db).2 (sqlite_view (run_call c db).1).
Proof.
  intros [Hinv Hq] Hpre [Hsq Hfit]. destruct (Sqlite_call c db Hinv Hpre Hsq) as [Hi Hspec].
  split; [|done]. split; [done|]. by apply call_keeps_queues.
Qed.

Lemma service_topology {A} (p : prog Db A) :
  implements sqlite_inv sqlite_view p topology_spec → preserving queues_readable p →
  implements service_inv sqlite_view p topology_spec.
Proof. intros Hp Hq db [Hinv Hr]. destruct (Hp db Hinv) as [Hi Hspec]. split; [|done]. split; [done|by apply Hq]. Qed.

(** Not an instance: a file that wants it instead of [Sqlite_contract] says so. *)
Definition Sqlite_service : StoreContract Db.
Proof.
  refine {| store_inv := service_inv; store_view := sqlite_view; store_pre _ := service_pre |}.
  - intros db [Hinv _]. by apply sqlite_inv_ok.
  - intros e. apply service_topology; [apply SaveExchange_law|]. simpl. unfold sq_SaveExchange. keeps_queues.
  - apply service_topology; [apply Exchanges_law|]. simpl. unfold sq_Exchanges. keeps_queues.
  - apply service_topology; [apply Queues_law|]. simpl. unfold sq_Queues. keeps_queues.
  - intros b. apply service_topology; [apply SaveBinding_law|]. simpl. unfold sq_SaveBinding. keeps_queues.
  - apply service_topology; [apply Bindings_law|]. simpl. unfold sq_Bindings. keeps_queues.
  - intros b. apply service_topology; [apply DeleteBinding_law|]. simpl. unfold sq_DeleteBinding, must_affect.
    keeps_queues.
  - intros A c db. apply service_call.
Defined.

Lemma Sqlite_answers : @TopologyAnswers Db _ Sqlite_service.
Proof.
  assert (∀ A (p : prog Db A) db (Q : result error A → Prop), healthy db →
    (∃ t r, evals p (db_tables db) (t, r) ∧ Q r) → Q (p db).2) as Hrun.
  { intros A p db Q Hh (t & r & Hev & HQ). by destruct (evals_run _ _ _ _ _ Hev Hh eq_refl) as (db' & -> & _). }
  split.
  - intros x db [[Hh _] _]. apply Hrun; [done|]. eexists _, _. split; [|done].
    eapply evals_bind; [eapply evals_wrapping, (evals_statement (fun t => (_ t, Ok _)))|apply evals_ret].
  - intros b db [[Hh _] _]. apply Hrun; [done|]. eexists _, _. split; [|done].
    eapply evals_bind; [eapply evals_wrapping, (evals_statement (fun t => (_ t, Ok _)))|apply evals_ret].
  - intros spec db [[Hh _] _]. apply (Hrun _ _ _ (fun r => r = Ok tt ∨ r = Err (StorageErr ErrNotFound))); [done|].
    eexists _, _. split.
    { eapply evals_bind; [eapply evals_wrapping, (evals_statement (delete_bindings spec))|apply evals_must_affect]. }
    case_match; [by right|by left].
  - intros db [[Hh _] Hq]. apply (Hrun _ _ _ (fun r => is_ok r)); [done|]. eexists _, _.
    split; [by apply evals_Queues|done].
Qed.

#[export] Instance letter_ok_dec d : Decision (letter_ok d).
Proof. unfold letter_ok, in_int64. apply _. Defined.
#[export] Instance message_ok_dec m : Decision (message_ok m).
Proof. unfold message_ok. apply _. Defined.
#[export] Instance service_pre_dec {A} a (c : call A) : Decision (service_pre a c).
Proof.
  unfold service_pre. apply and_dec; destruct c; simpl; try apply _.
  - apply and_dec; [apply _|]. destruct (a_dead a !! id) as [d|]; [|by left].
    destruct (decide (dl_ReplayCount d < max_int64)%Z); [left; naive_solver|right; naive_solver].
Defined.
