(* ===== verification/EngineRange.v ===== *)
(** The values an engine gives to the SQLite store stay within what it can keep.

    SQLite's contract asks for instants with four-digit years, headers in UTF-8,
    payloads that are not empty and counters of 64 bits ([service_pre]).  The
    clock, the arguments of the operations and the store's own contents are the
    only sources of what the engine writes.  [simulates] compares an operation on
    the guarded store ([Guard.v]) with the same operation on SQLite: from a state
    whose values are in range the two do the same, the values stay in range, and
    the guard is never left.  Every operation of the engine simulates itself, so
    what EngineClaims.v and ApiClaims.v show of unrestricted stores carries over
    (SqliteEngine.v). *)

From S2P Require Import Prelude Errors TimeText HeaderJson MessageId Message Broker BrokerProofs Storage StoreTraces.
From S2P Require Import SqlConn Sqlite SqliteProofs SqliteContract Float64 Retry.
From S2P Require Import Engine EngineProofs EnginePublish EngineSafety ApiProofs Guard SqliteService.

(** * Values in range *)

Definition message_fits (m : Message) : Prop :=
  message_ok m ∧ msg_Payload m ≠ "" ∧ utf8_valid (msg_ID m) = true.
Definition letter_fits (d : DeadLetter) : Prop :=
  letter_ok d ∧ dl_Payload d ≠ "" ∧ utf8_valid (dl_ID d) = true ∧ utf8_valid (dl_MessageID d) = true.

Record values_ok (a : astore) : Prop := {
  vo_messages : map_Forall (fun _ r => message_fits (rec_msg r)) (a_messages a);
  vo_dead : map_Forall (fun _ d => letter_fits d) (a_dead a);
  vo_history id : Forall event_ok (slice_at (a_history a) id);
}.

(** What a call carries. *)
Definition call_fits {A} (a : astore) (c : call A) : Prop :=
  match c with
  | CAppend ms => Forall message_fits ms
  | CSaveDeadLetter fresh entry => letter_fits (if str_empty (dl_ID entry) then set_dl_ID fresh entry else entry)
  | _ => service_pre a c
  end.

(** What it brings back. *)
Definition reply_fits {A} (c : call A) : A → Prop :=
  match c in call A return A → Prop with
  | CMessage _ => message_fits
  | CClaim _ | CExpiredLeases _ _ => Forall message_fits
  | CDeadLetter _ => letter_fits
  | CHistory _ => Forall event_ok
  | _ => fun _ => True
  end.

Lemma call_fits_pre {A} (c : call A) a : call_fits a c → service_pre a c.
Proof.
  destruct c; simpl; try done.
  - intros Hms. split; [|done]. eapply Forall_impl; [exact Hms|]. by intros m (? & ? & _).
  - intros (Hl & Hp & _). split; [|done]. by destruct (str_empty (dl_ID entry)).
Qed.

(** ** Calls keep values in range *)

Lemma values_messages (f : gmap string record → gmap string record) a :
  values_ok a → map_Forall (fun _ r => message_fits (rec_msg r)) (f (a_messages a)) → values_ok (with_messages f a).
Proof. intros [Hm Hd Hh] Hf. by split. Qed.

Lemma values_leased id f a r a' : values_ok a → leased_spec id f a r a' →
  (∀ rec, message_fits (rec_msg rec) → message_fits (rec_msg (f rec))) → values_ok a'.
Proof.
  intros Hok Hspec Hf. revert Hspec. unfold leased_spec. destruct (a_messages a !! id) as [rec|] eqn:Hid.
  - case_decide; intros [_ ->]; [|done]. apply values_messages; [done|].
    apply (map_Forall_insert_2 (fun _ r => message_fits (rec_msg r))); [|apply Hok]. by eapply Hf, vo_messages.
  - by intros [_ ->].
Qed.

Lemma messages_of_fits m ids :
  map_Forall (fun _ r => message_fits (rec_msg r)) m → Forall message_fits (messages_of m ids).
Proof.
  intros Hm. apply Forall_forall. intros msg. unfold messages_of. rewrite list_elem_of_omap.
  intros (id & _ & (rec & Hrec & ->)%fmap_Some). by eapply Hm.
Qed.

Lemma append_fits ms m : Forall message_fits ms → map_Forall (fun _ r => message_fits (rec_msg r)) m →
  map_Forall (fun _ r => message_fits (rec_msg r)) (append_all ms m).
Proof.
  unfold append_all. intros Hms. revert m. induction Hms as [|msg ms Hmsg Hms IH]; intros m Hm; [done|]. simpl.
  apply IH, map_Forall_insert_2; done.
Qed.

Lemma values_claimed req ids a :
  values_ok a → time_in_range (cr_Now req) → time_in_range (cr_Now req + cr_Lease req) →
  values_ok (with_messages (claim_all req ids) a).
Proof.
  intros Hok Hn Hl. apply values_messages; [done|]. intros id rec. rewrite lookup_claim_all.
  case_decide; [|by apply Hok]. intros (r & Hr & ->)%fmap_Some.
  destruct (vo_messages _ Hok _ _ Hr) as ((? & ? & ? & ?) & ? & ?). by split_and!.
Qed.

Lemma values_deleted queue a r a' : values_ok a → delete_queue_spec queue a r a' → values_ok a'.
Proof.
  intros Hok. unfold delete_queue_spec. case_decide; [|by intros [_ ->]].
  intros (_ & _ & Ed & Eh & Hsub & _). split; [|rewrite Ed; apply Hok|rewrite Eh; apply Hok].
  intros id rec Hid. destruct (Hsub id) as [E|[E _]]; rewrite E in Hid; [by eapply (vo_messages _ Hok)|done].
Qed.

Lemma values_dead (f : gmap string DeadLetter → gmap string DeadLetter) a :
  values_ok a → map_Forall (fun _ d => letter_fits d) (f (a_dead a)) → values_ok (with_dead f a).
Proof. intros [Hm Hd Hh] Hf. by split. Qed.

Lemma replayed_fits as_ at_ d : letter_fits d → time_in_range at_ → letter_fits (replayed as_ at_ d).
Proof.
  intros ((Hh & Hp & Hf & Hd & _ & _) & Hpay & Hid & Hmid) Hat.
  split; [|done]. do 5 (split; [done|]). apply wrap64_range.
Qed.

(** A leased record that is written back keeps headers, payload and identity. *)
Ltac written_fits :=
  intros rec ((? & ? & ? & ?) & ? & ?); unfold message_fits, message_ok; simpl; by split_and!.

Lemma call_values {A} (c : call A) a r a' :
  values_ok a → call_fits a c → call_spec c a r a' →
  values_ok a' ∧ ∀ x, r = Ok x → reply_fits c x.
Proof.
  intros Hok Hfit Hspec. pose proof Hok as [Hm Hd Hh].
  destruct c; simpl in Hspec, Hfit |- *;
    unfold save_queue_spec, message_spec, claim_spec, expired_spec, depth_spec, dead_letters_spec, dead_letter_spec,
      count_dead_spec, append_history_spec, history_spec, reads in Hspec;
    try by destruct Hspec as [_ ->].
  - split; [|done]. by eapply values_deleted.
  - split; [|done]. revert Hspec. unfold append_spec. case_decide; intros [_ ->]; [done|].
    apply values_messages; [done|]. by apply append_fits.
  - destruct Hspec as [-> ->]. split; [done|]. intros x. destruct (a_messages a !! id) as [rec|] eqn:Hid; [|done].
    intros [= <-]. by eapply Hm.
  - destruct Hspec as (ids & _ & -> & ->). destruct Hfit as [(Hn & Hl & _) _].
    pose proof (values_claimed req ids a Hok Hn Hl) as Hok'.
    split; [done|]. intros x [= <-]. apply messages_of_fits, Hok'.
  - split; [|done]. destruct Hfit as [Ht _]. eapply values_leased; [done..|]. written_fits.
  - split; [|done]. destruct Hfit as [[Ht Ht'] _]. eapply values_leased; [done..|]. written_fits.
  - split; [|done]. destruct Hfit as [Ht _]. eapply values_leased; [done..|]. written_fits.
  - split; [|done]. destruct Hfit as [Ht _]. revert Hspec. unfold dead_spec.
    destruct (a_messages a !! id) as [rec|] eqn:Hid; [case_decide|]; intros [_ ->]; [|done..].
    apply values_messages; [done|]. apply map_Forall_insert_2; [|done].
    destruct (Hm _ _ Hid) as ((? & ? & ? & ?) & ? & ?). by split_and!.
  - destruct Hspec as [(ids & _ & -> & _) ->]. split; [done|]. intros x [= <-]. by apply messages_of_fits.
  - split; [|done]. revert Hspec. unfold purge_spec. case_decide; intros [_ ->]; [|done].
    apply values_messages; [done|]. intros id rec [Hid _]%map_lookup_filter_Some. by eapply Hm.
  - split; [|done]. revert Hspec. unfold save_dead_spec. case_decide; intros [_ ->]; [done|].
    apply values_dead; [done|]. by apply map_Forall_insert_2.
  - destruct Hspec as [-> ->]. split; [done|]. intros x. destruct (a_dead a !! id) as [d|] eqn:Hid; [|done].
    intros [= <-]. by eapply Hd.
  - split; [|done]. destruct Hfit as [[Ht _] _]. revert Hspec. unfold mark_replayed_spec.
    destruct (a_dead a !! id) as [d|] eqn:Hid; intros [_ ->]; [|done].
    apply values_dead; [done|]. apply map_Forall_insert_2; [|done].
    apply replayed_fits; [by eapply Hd|done].
  - split; [|done]. revert Hspec. unfold delete_dead_spec.
    destruct (a_dead a !! id) as [d|] eqn:Hid; intros [_ ->]; [|done].
    apply values_dead; [done|]. by apply map_Forall_delete.
  - destruct Hspec as [_ ->]. split; [|done]. destruct Hfit as [Ht _]. split; [done..|].
    intros id. simpl. rewrite slice_at_insert. case_decide; [|apply Hh].
    apply Forall_app. split; [by subst|]. by apply Forall_singleton.
  - destruct Hspec as [-> ->]. split; [done|]. intros x [= <-]. apply Hh.
Qed.

(** * Simulation *)

#[local] Existing Instance Sqlite_service | 0.
#[local] Instance service_pre_decision A a (c : call A) : Decision (store_pre a c) := service_pre_dec a c.

Abbreviation G := (Guarded Db).

(** The engine on SQLite as an engine on the guarded store. *)
Definition shield (e : Engine Db) : Engine G :=
  mkEngine (Within (e_store e)) (e_registry e) (e_consumers e) (e_signals e) (e_running e) (e_metrics e)
    (e_ticks e) (e_walls e) (e_draws e) (e_randoms e).

Definition queue_in_range (q : Queue) : Prop :=
  time_in_range (q_CreatedAt q) ∧ in_int64 (q_VisibilityTimeout q).

Record in_range (e : Engine Db) : Prop := {
  ir_inv : service_inv (e_store e);
  ir_values : values_ok (sqlite_view (e_store e));
  ir_queues : map_Forall (fun _ q => queue_in_range q) (reg_queues (e_registry e));
  ir_consumers : consumers_ok e;
}.

Definition simulates {A} (p : prog (Engine G) A) (q : prog (Engine Db) A) (e : Engine Db)
    (Q : result error A → Engine Db → Prop) : Prop :=
  in_range e → p (shield e) = (shield (q e).1, (q e).2) ∧ in_range (q e).1 ∧ Q (q e).2 (q e).1.

Definition anything {A} (_ : result error A) (_ : Engine Db) : Prop := True.

Section rules.
Context (E : env).
Implicit Types (e : Engine Db).

Lemma sim_bind {A B} (p : prog (Engine G) A) q (f : A → prog (Engine G) B) g e Q :
  simulates p q e (fun r e' => match r with Ok a => simulates (f a) (g a) e' Q | Err x => Q (Err x) e' end) →
  simulates (p ≫= f) (q ≫= g) e Q.
Proof.
  intros Hp Hr. destruct (Hp Hr) as (Heq & Hr' & HQ). rewrite !bind_eq, Heq.
  destruct (q e) as [e' [a|x]]; simpl in *; [|done]. by apply HQ.
Qed.

Lemma sim_mono {A} (p : prog (Engine G) A) q e (Q Q' : result error A → Engine Db → Prop) :
  simulates p q e Q → (∀ r e', Q r e' → Q' r e') → simulates p q e Q'.
Proof. intros Hp HQ Hr. destruct (Hp Hr) as (? & ? & ?). auto. Qed.

Lemma sim_any {A} (p : prog (Engine G) A) q e (Q : result error A → Engine Db → Prop) :
  simulates p q e anything → (∀ r e', Q r e') → simulates p q e Q.
Proof. intros Hp HQ. by eapply sim_mono. Qed.

(** Programs that do not touch the store. *)
Lemma sim_same {A} (p : prog (Engine G) A) q e (Q : result error A → Engine Db → Prop) :
  p (shield e) = (shield (q e).1, (q e).2) → e_store (q e).1 = e_store e →
  e_registry (q e).1 = e_registry e → e_consumers (q e).1 = e_consumers e →
  Q (q e).2 (q e).1 → simulates p q e Q.
Proof.
  intros Heq Hs Hreg Hc HQ [Hi Hv Hq Hco]. split_and!; [done| |done].
  split; [by rewrite Hs|by rewrite Hs|by rewrite Hreg|]. unfold consumers_ok. by rewrite Hc.
Qed.

Lemma sim_ret {A} (a : A) e (Q : result error A → Engine Db → Prop) : Q (Ok a) e → simulates (mret a) (mret a) e Q.
Proof. intros HQ. by apply sim_same. Qed.
Lemma sim_lift {A} (r : result error A) e (Q : result error A → Engine Db → Prop) :
  Q r e → simulates (lift r) (lift r) e Q.
Proof. intros HQ. by apply sim_same. Qed.
Lemma sim_fails {A} x e (Q : result error A → Engine Db → Prop) : Q (Err x) e → simulates (fails x) (fails x) e Q.
Proof. intros HQ. by apply sim_same. Qed.

Lemma sim_try {A} (p : prog (Engine G) A) q e Q :
  simulates p q e (fun r e' => Q (Ok r) e') → simulates (attempting p) (attempting q) e Q.
Proof.
  intros Hp Hr. destruct (Hp Hr) as (Heq & Hr' & HQ). unfold attempting. rewrite Heq.
  by destruct (q e) as [e' r].
Qed.

Lemma sim_each {X} (f : X → prog (Engine G) unit) g xs e :
  (∀ x e', x ∈ xs → simulates (f x) (g x) e' anything) → simulates (for_each f xs) (for_each g xs) e anything.
Proof.
  revert e. induction xs as [|x xs IH]; intros e Hf; [by apply sim_ret|]. cbn [for_each]. apply sim_bind.
  apply sim_any; [apply Hf; by left|]. intros [[]|err] e'; [|done]. apply IH. intros y e'' Hy. apply Hf. by right.
Qed.

(** A call within the store's range. *)
Lemma sim_call {A} (c : call A) e (Q : result error A → Engine Db → Prop) :
  call_pre c → call_fits (sqlite_view (e_store e)) c →
  (∀ s r, call_spec c (sqlite_view (e_store e)) r (sqlite_view s) → (∀ x, r = Ok x → reply_fits c x) →
     Q r (put_store s e)) →
  simulates (on_store (guarded_call c)) (on_store (run_call c)) e Q.
Proof.
  intros Hpre Hfit HQ [Hi Hv Hq Hc]. pose proof (call_fits_pre c _ Hfit) as Hsv.
  destruct (service_call c _ Hi Hpre Hsv) as [Hi' Hspec].
  destruct (call_values c _ _ _ Hv Hfit Hspec) as [Hv' Hreply].
  unfold on_store. simpl. rewrite decide_True by done.
  destruct (run_call c (e_store e)) as [s r]. simpl in *. split_and!; [done| |by apply HQ]. by split.
Qed.

(** A call on the topology tables. *)
Lemma sim_topology {A} (p : prog Db A) x e (Q : result error A → Engine Db → Prop) :
  implements service_inv sqlite_view p topology_spec → (∀ r e', Q r e') →
  simulates (on_store (guarded_topology p x)) (on_store p) e Q.
Proof.
  intros Hp HQ [Hi Hv Hq Hc]. destruct (Hp _ Hi) as [Hi' [_ Hview]]. unfold on_store. simpl.
  destruct (p (e_store e)) as [s r]. simpl in *. split_and!; [done| |by apply HQ].
  split; [done| |done..]. simpl. by rewrite Hview.
Qed.
End rules.

(** * What the engine writes *)

(** The clock shows the years 1970 to 9707, so that adding any [time.Duration]
    stays before the year 10000. *)
Definition clock_fits (t : Time) : Prop := (0 ≤ t)%Z ∧ time_in_range (t + 2 ^ 63).

Record env_fits (E : env) : Prop := {
  ef_clock n : clock_fits (env_clock E n);
  ef_wall n : time_in_range (env_wall E n);
  ef_entropy n : Forall is_byte (env_entropy E n);
}.

Lemma clock_plus t d : clock_fits t → in_int64 d → time_in_range (t + d) ∧ (t + d)%Z ≠ zeroTime.
Proof. unfold clock_fits, time_in_range, in_int64, zeroTime, second, day_ns, second_ns. lia. Qed.
Lemma clock_now t : clock_fits t → time_in_range t.
Proof. intros Ht. rewrite <-(Z.add_0_r t). apply clock_plus; [done|]. unfold in_int64. lia. Qed.

Lemma hex_digit_ascii n : (n < 16)%N → ascii_byte (hex_digit n) = true.
Proof.
  intros Hn. unfold ascii_byte, within, hex_digit. rewrite N_ascii_embedding; [|case_match; lia].
  case_match; apply andb_true_iff; split; apply N.leb_le; lia.
Qed.

Lemma hex_encode_utf8 bs : Forall is_byte bs → utf8_valid (hex_encode bs) = true.
Proof.
  induction 1 as [|b bs Hb Hbs IH]; [done|]. cbn [hex_encode utf8_valid]. unfold is_byte in Hb.
  rewrite !hex_digit_ascii; [done|..].
  - apply N.mod_lt. lia.
  - apply N.Div0.div_lt_upper_bound. lia.
Qed.

Lemma newIDAt_utf8 t bytes : Forall is_byte bytes → utf8_valid (newIDAt t bytes) = true.
Proof.
  intros Hb. rewrite newIDAt_bytes. apply hex_encode_utf8, Forall_app.
  split; [apply be_bytes_are_bytes|by apply id_tail_bytes].
Qed.

(** The delay before a retry is a [time.Duration]. *)
Lemma to_duration_range unrepresentable x : in_int64 (to_duration unrepresentable x).
Proof.
  unfold to_duration. destruct x; try apply wrap64_range. case_match eqn:H; [|apply wrap64_range].
  apply andb_true_iff in H as [?%Z.leb_le ?%Z.ltb_lt]. by split.
Qed.

Lemma BackoffWithJitter_fits unrepresentable policy attempt r :
  in_int64 (p_MaxInterval policy) → in_int64 (BackoffWithJitter unrepresentable policy attempt r).
Proof.
  intros Hmax. unfold BackoffWithJitter, Backoff. repeat case_match; try done; try apply to_duration_range;
    unfold in_int64; lia.
Qed.

Lemma first_failure_range events now :
  Forall event_ok events → time_in_range now → time_in_range (first_failure events now).
Proof. intros He Hn. induction He as [|ev evs Hev Hevs IH]; [done|]. simpl. by case_match. Qed.

Lemma New_fits pub queue now bytes :
  text_ok (pub_Headers pub) → pub_Payload pub ≠ "" → time_in_range now → Forall is_byte bytes →
  message_fits (New pub queue now bytes).
Proof. intros Hh Hp Hn Hb. split_and!; try done. by apply newIDAt_utf8. Qed.

Lemma Transition_fits next now msg msg' :
  message_fits msg → time_in_range now → Transition next now msg = Ok msg' → message_fits msg'.
Proof. intros ((? & ? & ? & ?) & ? & ?) Hn [_ ->]%Transition_Ok. by split_and!. Qed.

Lemma SetHeader_fits key value msg :
  message_fits msg → utf8_valid key = true → utf8_valid value = true → message_fits (SetHeader key value msg).
Proof.
  intros ((? & ? & ? & ?) & ? & ?) Hk Hv. split; [|done]. split; [|done]. by apply map_Forall_insert_2.
Qed.

(** * The operations *)

Section operations.
Context (E : env) (HE : env_fits E) (policy : Policy) (Hpolicy : in_int64 (p_MaxInterval policy)).
Context (schemas : option (string → string → result error unit)) (unrepresentable : float64 → Z).
Implicit Types (e : Engine Db).

Lemma sim_clock e (Q : result error Time → Engine Db → Prop) :
  (clock_fits (env_clock E (e_ticks e)) → Q (Ok (env_clock E (e_ticks e))) (tick e)) →
  simulates (clock E) (clock E) e Q.
Proof. intros HQ. apply sim_same; try done. apply HQ, (ef_clock _ HE). Qed.

Lemma sim_now e (Q : result error Time → Engine Db → Prop) :
  (time_in_range (env_wall E (e_walls e)) → Q (Ok (env_wall E (e_walls e))) (tick_wall e)) →
  simulates (time_Now E) (time_Now E) e Q.
Proof. intros HQ. apply sim_same; try done. apply HQ, (ef_wall _ HE). Qed.

Lemma sim_entropy e (Q : result error (list N) → Engine Db → Prop) :
  (Forall is_byte (env_entropy E (e_draws e)) → Q (Ok (env_entropy E (e_draws e))) (tick_draw e)) →
  simulates (entropy E) (entropy E) e Q.
Proof. intros HQ. apply sim_same; try done. apply HQ, (ef_entropy _ HE). Qed.

(** Metrics and signals. *)
Lemma sim_emit m e (Q : result error unit → Engine Db → Prop) :
  (∀ e', Q (Ok tt) e') → simulates (emit m) (emit m) e Q.
Proof. intros HQ. by apply sim_same. Qed.
Lemma sim_notify queues e (Q : result error unit → Engine Db → Prop) :
  (∀ e', Q (Ok tt) e') → simulates (notify queues) (notify queues) e Q.
Proof. intros HQ. by apply sim_same. Qed.

Lemma sim_NewID e (Q : result error string → Engine Db → Prop) :
  (∀ id, utf8_valid id = true → Q (Ok id) (tick_draw (tick_wall e))) → simulates (NewID E) (NewID E) e Q.
Proof.
  intros HQ. unfold NewID. apply sim_bind, sim_now. intros _. apply sim_bind, sim_entropy. intros Hb.
  apply sim_ret, HQ. by apply newIDAt_utf8.
Qed.

Lemma sim_recordHistory ev e (Q : result error unit → Engine Db → Prop) : event_ok ev →
  (∀ s, sqlite_view s = with_history ev (sqlite_view (e_store e)) → Q (Ok tt) (put_store s e)) →
  simulates (recordHistory ev) (recordHistory ev) e Q.
Proof.
  intros Hev HQ. unfold recordHistory. apply sim_bind, sim_try.
  apply (sim_call (CAppendHistory ev)); [done..|]. intros s r [-> Hv] _. by apply sim_ret, HQ.
Qed.

Lemma sim_history ev e : event_ok ev → simulates (recordHistory ev) (recordHistory ev) e anything.
Proof. intros Hev. by apply sim_recordHistory. Qed.

(** A history event at the time of the clock. *)
#[local] Hint Resolve clock_now : core.

(** The queue a name denotes. *)
Lemma sim_queue name e (Q : result error Queue → Engine Db → Prop) :
  (∀ q, queue_in_range q → Q (Ok q) e) → (∀ x, Q (Err x) e) →
  simulates (registry_get (Registry_Queue name)) (registry_get (Registry_Queue name)) e Q.
Proof.
  intros Hok Herr Hr. split_and!; [done..|]. simpl. unfold Registry_Queue.
  destruct (reg_queues (e_registry e) !! name) as [q|] eqn:Hq; [|done]. eapply Hok, ir_queues; done.
Qed.

(** Steps whose result is not looked at. *)
Ltac sm :=
  cbn beta iota;
  lazymatch goal with
  | |- simulates (_ ≫= _) _ _ _ => apply sim_bind
  | |- simulates (recordHistory _) _ _ _ => apply sim_any; [apply sim_history|intros [?|?] ?]
  | |- simulates (attempting _) _ _ _ => apply sim_try
  | |- simulates (mret _) _ _ _ => apply sim_ret
  | |- simulates (fails _) _ _ _ => by apply sim_fails
  | |- simulates (emit _) _ _ _ => apply sim_emit; intros ?
  | |- simulates (notify _) _ _ _ => apply sim_notify; intros ?
  | |- simulates (clock _) _ _ _ => apply sim_clock; intros ?
  | |- simulates (on_store (st_Release ?i ?t)) _ _ _ => apply (sim_call (CRelease i t)); [done|by split; [apply clock_now|]|intros ? [?|?] _ _]
  | |- simulates (on_store (st_Acknowledge ?i ?t)) _ _ _ => apply (sim_call (CAcknowledge i t)); [done|by split; [apply clock_now|]|intros ? [?|?] _ _]
  | |- simulates (match ?x with _ => _ end) _ _ _ => destruct x
  | |- anything _ _ => done
  | |- event_ok _ => unfold event_ok; simpl; by auto
  end.

Lemma sim_deadLetter consumer delivery cause now e :
  message_fits (dv_Message delivery) → clock_fits now →
  simulates (deadLetter E consumer delivery cause now) (deadLetter E consumer delivery cause now) e anything.
Proof.
  intros ((Hh & Hc & _ & _) & Hpay & Hid) Hn. unfold deadLetter, firstFailureAt. apply sim_bind, sim_bind, sim_try.
  apply (sim_call (CHistory (msg_ID (dv_Message delivery)))); [done..|]. intros s0 r0 _ Hr0. apply sim_ret.
  set (first := match r0 with Ok _ => _ | Err _ => now end).
  assert (time_in_range first) as Hfirst.
  { subst first. destruct r0 as [evs|]; [|by apply clock_now]. apply first_failure_range; [by apply Hr0|by apply clock_now]. }
  clearbody first. clear r0 Hr0. apply sim_bind, sim_NewID. intros fresh Hfresh.
  apply sim_bind, sim_try. set (entry := mkDeadLetter "" _ _ _ _ _ _ _ _ _ _ _ _ _ _ _ _).
  apply (sim_call (CSaveDeadLetter fresh entry)); [done| |].
  { split; [|done]. do 3 (split; [done|]). split; [by apply clock_now|]. split; [apply zeroTime_in_range|].
    unfold in_int64. simpl. lia. }
  intros s1 r1 _ _. destruct r1 as [d|x]; [|by apply sim_ret]. apply sim_bind, sim_try.
  apply (sim_call (CMarkDeadLettered (msg_ID (dv_Message delivery)) (Error cause) now)); [done| |].
  { split; [by apply clock_now|done]. }
  intros s2 r2 _ _. destruct r2 as [[]|x]; repeat sm.
Qed.

Lemma sim_fail consumer delivery cause e : message_fits (dv_Message delivery) →
  simulates (fail E policy unrepresentable consumer delivery cause)
    (fail E policy unrepresentable consumer delivery cause) e anything.
Proof.
  intros Hm. unfold fail. apply sim_bind, sim_clock. intros Hn.
  destruct (negb _); [by apply sim_deadLetter|]. apply sim_bind, sim_same; try done. simpl.
  apply sim_bind, sim_try. set (req := mkRetryRequest _ _ _ _ _). apply (sim_call (CScheduleRetry req)); [done| |].
  { split; [|done]. split; [by apply clock_now|]. apply clock_plus; [done|]. by apply BackoffWithJitter_fits. }
  intros s r _ _. destruct r as [[]|x]; repeat sm.
Qed.

Lemma sim_process consumer delivery outcome e : message_fits (dv_Message delivery) →
  simulates (process E policy unrepresentable consumer delivery outcome)
    (process E policy unrepresentable consumer delivery outcome) e anything.
Proof.
  intros Hm. unfold process. apply sim_bind, sim_clock. intros Hn. destruct outcome; [by apply sim_fail|].
  unfold acknowledge. repeat sm.
Qed.

(** The message an id denotes. *)
Lemma sim_message id e (Q : result error Message → Engine Db → Prop) :
  (∀ s msg, message_fits msg → Q (Ok msg) (put_store s e)) → (∀ s x, Q (Err x) (put_store s e)) →
  simulates (on_store (st_Message id)) (on_store (st_Message id)) e Q.
Proof.
  intros Hok Herr. apply (sim_call (CMessage id)); [done..|]. intros s [msg|x] _ Hr; [|done].
  apply Hok. by apply Hr.
Qed.

Lemma sim_Ack id e : simulates (Engine_Ack E id) (Engine_Ack E id) e anything.
Proof. unfold Engine_Ack. apply sim_bind, sim_message; [intros s msg _|done]. repeat sm. Qed.

Lemma sim_Nack id reason requeue e :
  simulates (Engine_Nack E policy unrepresentable id reason requeue)
    (Engine_Nack E policy unrepresentable id reason requeue) e anything.
Proof.
  unfold Engine_Nack. apply sim_bind, sim_message; [intros s msg Hm|done]. destruct requeue; [repeat sm|].
  apply sim_bind. apply sim_any; [by apply sim_fail|]. intros [[]|x] e'; repeat sm.
Qed.

Lemma sim_reclaim_loop now msgs requeued e : clock_fits now → Forall message_fits msgs →
  simulates (reclaim_loop E policy now msgs requeued) (reclaim_loop E policy now msgs requeued) e anything.
Proof.
  intros Hn Hms. revert requeued e. induction Hms as [|msg msgs Hm Hms IH]; intros requeued e; [by apply sim_ret|].
  cbn [reclaim_loop]. destruct (ShouldRetry policy (msg_Attempts msg)); apply sim_bind.
  - unfold requeueExpired. apply sim_bind, sim_try.
    apply (sim_call (CRelease (msg_ID msg) now)); [done|split; [by apply clock_now|done]|].
    intros s r _ _. destruct r as [[]|x]; [|apply sim_ret, IH]. apply sim_bind.
    apply sim_any; [apply sim_history; by apply clock_now|]. intros [[]|x] e'; [|done]. apply sim_ret, IH.
  - apply sim_any; [by apply sim_deadLetter|]. intros [[]|x] e'; [|done]. apply IH.
Qed.

Lemma sim_reclaim e : simulates (reclaim E policy) (reclaim E policy) e anything.
Proof.
  unfold reclaim. apply sim_bind, sim_clock. intros Hn. apply sim_bind, sim_try.
  apply (sim_call (CExpiredLeases (env_clock E (e_ticks e)) reclaimBatchSize)); [done|split; [by apply clock_now|done]|].
  intros s r _ Hr. destruct r as [expired|x]; [|by apply sim_ret]. apply sim_bind.
  apply sim_any; [apply sim_reclaim_loop; [done|by apply Hr]|]. intros [requeued|x] e'; repeat sm.
Qed.

(** A claim at the time of the clock. *)
Lemma sim_claim queue consumer limit lease now e (Q : result error (list Message) → Engine Db → Prop) :
  (0 ≤ limit)%Z → clock_fits now → in_int64 lease → (∀ r e', Q r e') →
  let req := mkClaimRequest queue consumer limit lease now in
  simulates (on_store (st_Claim req)) (on_store (st_Claim req)) e Q.
Proof.
  intros Hl Hn Hlease HQ req. apply (sim_call (CClaim req)); [done| |by intros].
  split; [|done]. split; [by apply clock_now|]. by apply clock_plus.
Qed.

Lemma sim_Pull req e : in_int64 (pl_Lease req) → simulates (Engine_Pull E req) (Engine_Pull E req) e anything.
Proof.
  intros Hlease. unfold Engine_Pull. apply sim_bind, sim_queue; [intros q [_ Hq]|done].
  apply sim_bind, sim_clock. intros Hn. apply sim_bind, sim_claim; [|done| |].
  - pose proof (pull_limit q req 0) as Hl. unfold pull_claim in Hl. simpl in *. lia.
  - simpl. by case_match.
  - intros [claimed|x] e'; [|done]. apply sim_bind. apply sim_any; [|intros [[]|x] e''; repeat sm].
    apply sim_each. intros msg e'' _. by apply sim_history, clock_now.
Qed.

Lemma sim_claimBatch consumer submit ctx_done e : (1 ≤ cs_Prefetch consumer)%Z →
  simulates (claimBatch E consumer submit ctx_done) (claimBatch E consumer submit ctx_done) e anything.
Proof.
  intros Hp. unfold claimBatch. apply sim_bind, sim_queue; [intros q [_ Hq]|done].
  apply sim_bind, sim_clock. intros Hn. apply sim_bind, sim_claim; [lia|done|done|].
  intros [claimed|x] e'; [|done]. apply sim_bind, sim_try. apply sim_any; [|intros r e''; repeat sm].
  apply sim_each. intros msg e'' _. unfold handOff, releaseUndispatched. repeat sm.
Qed.

(** ** Publishing and replaying *)

Lemma sim_validate msg now e : message_fits msg → clock_fits now →
  simulates (validate E schemas msg now) (validate E schemas msg now) e anything.
Proof.
  intros Hm Hn. unfold validate. destruct schemas as [check|]; [|by apply sim_ret].
  destruct (str_empty (msg_Schema msg)); [by apply sim_ret|]. destruct (check _ _) as [[]|err]; [by apply sim_ret|].
  set (msg' := match Transition StateFailed now msg with Ok m => m | Err _ => msg end).
  assert (message_fits msg') as ((Hh & Hc & _ & _) & Hpay & Hid).
  { subst msg'. destruct (Transition StateFailed now msg) as [m|] eqn:Ht; [|done].
    eapply Transition_fits; [done|by apply clock_now|done]. }
  clearbody msg'. apply sim_bind. unfold parkRejected. apply sim_bind, sim_NewID. intros fresh Hfresh.
  apply sim_bind, sim_try. set (entry := mkDeadLetter "" _ _ _ _ _ _ _ _ _ _ _ _ _ _ _ _).
  apply (sim_call (CSaveDeadLetter fresh entry)); [done| |].
  { split; [|done]. split; [done|]. split; [done|]. do 2 (split; [by apply clock_now|]).
    split; [apply zeroTime_in_range|]. unfold in_int64. simpl. lia. }
  intros s r _ _. apply sim_ret. by apply sim_fails.
Qed.

Lemma sim_publish_loop pub now queues acc e :
  text_ok (pub_Headers pub) → pub_Payload pub ≠ "" → clock_fits now → Forall message_fits acc →
  simulates (publish_loop E schemas pub now queues acc) (publish_loop E schemas pub now queues acc) e
    (fun r _ => ∀ ms, r = Ok ms → Forall message_fits ms).
Proof.
  intros Hh Hp Hn. revert acc e. induction queues as [|q queues IH]; intros acc e Hacc; cbn [publish_loop].
  { apply sim_ret. by intros ms [= <-]. }
  apply sim_bind, sim_entropy. intros Hb.
  set (msg0 := set_MaxAttempts _ _). set (msg := if str_empty (msg_Schema msg0) then _ else msg0).
  assert (message_fits msg) as Hm.
  { assert (message_fits msg0) as ((? & ? & ? & ?) & ? & ?) by (by apply New_fits; [..|apply clock_now|]).
    subst msg. by case_match; split_and!. }
  clearbody msg. apply sim_bind, sim_try. apply sim_any; [by apply sim_validate|].
  intros [[]|err] e'; cbn beta iota; last first.
  { apply sim_bind, sim_emit. intros e''. by apply sim_fails. }
  apply sim_bind, sim_lift. destruct (Transition StateQueued now msg) as [msg'|x] eqn:Ht; [|done].
  apply IH, Forall_app. split; [done|]. apply Forall_singleton. eapply Transition_fits; [done|by apply clock_now|done].
Qed.

Lemma sim_Publish pub e : service_inv (e_store e) →
  text_ok (pub_Headers pub) → pub_Payload pub ≠ "" → distinct_ids E pub (shield e) →
  simulates (Engine_Publish E schemas pub) (Engine_Publish E schemas pub) e anything.
Proof.
  intros Hinv Hh Hp Hd. unfold Engine_Publish. apply sim_bind, sim_same; try done. simpl.
  unfold distinct_ids in Hd. simpl in Hd.
  destruct (Registry_Route _ _ _) as [queues|x]; [|done].
  apply sim_bind, sim_now. intros _. apply sim_bind, sim_clock. intros Hn. simpl in Hn |- *.
  apply sim_bind. set (e1 := tick (tick_wall e)).
  assert (einv (shield e1)) as Hi1 by exact Hinv.
  assert (∀ ms, (publish_loop E schemas pub (env_clock E (e_ticks e)) queues [] (shield e1)).2 = Ok ms →
    appendable ms) as Happ.
  { intros ms Hms. apply publish_loop_result in Hms; [|done]. subst ms. split; [done|apply publish_batch_queued]. }
  intros Hr1. destruct (sim_publish_loop pub (env_clock E (e_ticks e)) queues [] e1 Hh Hp Hn (Forall_nil_2 _) Hr1)
    as (Heq & Hr2 & Hfit).
  split_and!; [done..|]. rewrite Heq in Happ. simpl in Happ.
  destruct (publish_loop _ _ _ _ _ _ e1) as [e2 [ms|x]]; [|done]. simpl in *.
  apply sim_bind, (sim_call (CAppend ms)); [by apply Happ|by apply Hfit|].
  intros s [[]|x] _ _; [|done]. apply sim_bind. apply sim_any.
  { apply sim_each. intros msg e' _. by apply sim_history, clock_now. }
  intros [[]|x] e'; [|done]. apply sim_bind, sim_now. intros _. apply sim_bind. apply sim_any.
  { apply sim_each. intros name e'' _. by apply sim_emit. }
  intros [[]|x] e''; repeat sm.
Qed.

(** Room for one more in the counter of a dead letter. *)
Definition replay_fits (id : string) (a : astore) : Prop :=
  ∀ d, a_dead a !! id = Some d → (dl_ReplayCount d < max_int64)%Z.

Lemma sim_Replay id e : service_inv (e_store e) → replay_fits id (sqlite_view (e_store e)) →
  simulates (Engine_ReplayDeadLetter E id) (Engine_ReplayDeadLetter E id) e anything.
Proof.
  intros Hinv Hcount. unfold Engine_ReplayDeadLetter.
  apply sim_bind, (sim_call (CDeadLetter id)); [done..|]. intros s r [-> Hv] Hr.
  destruct (a_dead (sqlite_view (e_store e)) !! id) as [d|] eqn:Hd; [|done].
  destruct (Hr d eq_refl) as ((Hh & _) & Hpay & Hid & Hmid).
  assert (dl_ID d = id) as Hdid by (eapply aok_dead; [|exact Hd]; by apply sqlite_inv_ok, Hinv).
  apply sim_bind, sim_queue; [intros q _|done]. apply sim_bind, sim_clock. intros Hn. apply sim_bind, sim_entropy.
  intros Hb. set (pub := mkPublication _ _ _ _ _). set (msg := SetHeader headerDeadLetterID _ _).
  assert (message_fits msg) as Hm.
  { apply SetHeader_fits; [|done..]. apply SetHeader_fits; [|done..].
    assert (message_fits (New pub (q_Name q) (env_clock E (e_ticks (put_store s e)))
      (env_entropy E (e_draws (tick (put_store s e)))))) as ((? & ? & ? & ?) & ? & ?)
      by (by apply New_fits; [..|apply clock_now|]).
    by split_and!. }
  clearbody msg. apply sim_bind, sim_lift.
  destruct (Transition StateQueued _ msg) as [replay|x] eqn:Ht; [|done].
  pose proof (Transition_fits _ _ _ _ Hm (clock_now _ Hn) Ht) as Hrep. apply Transition_Ok in Ht as [_ Ht].
  apply sim_bind, (sim_call (CAppend [replay])).
  { split; [apply NoDup_singleton|]. apply Forall_singleton. by subst replay. }
  { by apply Forall_singleton. }
  intros s1 r1 Hspec1 _. simpl in Hspec1. destruct r1 as [[]|x]; [|done].
  apply sim_bind, sim_recordHistory; [by apply clock_now|]. intros s2 Hv2. simpl in Hv2.
  assert (a_dead (sqlite_view s2) = a_dead (sqlite_view (e_store e))) as Hdead.
  { trans (a_dead (sqlite_view s1)); [by rewrite Hv2|]. revert Hspec1. unfold append_spec.
    case_decide; intros [_ ->]; by rewrite <-Hv. }
  apply sim_bind, sim_try, (sim_call (CMarkDeadLetterReplayed (dl_ID d) (msg_ID replay) _)); [done| |].
  { split; [|done]. split; [by apply clock_now|]. intros d' Hd'. apply Hcount. rewrite <-Hdid, <-Hdead. exact Hd'. }
  intros s3 r3 _ _. repeat sm.
Qed.

(** ** Topology, consumers and reads *)

Lemma sim_registry {A} (f : Registry → result error (A * Registry)) e (Q : result error A → Engine Db → Prop) :
  (∀ a r, f (e_registry e) = Ok (a, r) → in_range e →
     map_Forall (fun _ q => queue_in_range q) (reg_queues r) ∧ Q (Ok a) (put_registry r e)) →
  (∀ x, Q (Err x) e) → simulates (registry_do f) (registry_do f) e Q.
Proof.
  intros Hok Herr Hr. unfold registry_do. simpl. destruct (f (e_registry e)) as [[a r]|x] eqn:Hf; [|split_and!; [done|done|apply Herr]].
  destruct (Hok a r eq_refl Hr) as [Hq HQ]. split_and!; [done| |done]. destruct Hr. by split.
Qed.

(** Operations that leave the queues of the registry as they are. *)
Lemma sim_bindings {A} (f : Registry → result error (A * Registry)) e (Q : result error A → Engine Db → Prop) :
  (∀ a r r', f r = Ok (a, r') → reg_queues r' = reg_queues r) → (∀ r e', Q r e') →
  simulates (registry_do f) (registry_do f) e Q.
Proof.
  intros Hf HQ. apply sim_registry; [|done]. intros a r Hr Hin. split; [|done].
  rewrite (Hf _ _ _ Hr). apply Hin.
Qed.

Lemma DeclareExchange_queues spec now a r r' :
  Registry_DeclareExchange spec now r = Ok (a, r') → reg_queues r' = reg_queues r.
Proof. unfold Registry_DeclareExchange. destruct (declareExchange _ _ _) as [[? ?]|]; by intros [= <- <-]. Qed.
Lemma Bind_queues spec now a r r' : Registry_Bind spec now r = Ok (a, r') → reg_queues r' = reg_queues r.
Proof.
  unfold Registry_Bind. case_match; [|done]. destruct (bind _ _ _) as [[? ?]|]; by intros [= <- <-].
Qed.
Lemma Unbind_queues spec a r r' :
  (r1 ← Registry_Unbind spec r; Ok (tt, r1)) = Ok (a, r') → reg_queues r' = reg_queues r.
Proof. unfold Registry_Unbind. destruct (unbind _ _); simpl; [|done]. by intros [= _ <-]. Qed.

Lemma DeclareQueue_in_range spec now q r r' :
  time_in_range now → in_int64 (qs_VisibilityTimeout spec) →
  Registry_DeclareQueue spec now r = Ok (q, r') → map_Forall (fun _ q => queue_in_range q) (reg_queues r) →
  queue_in_range q ∧ map_Forall (fun _ q => queue_in_range q) (reg_queues r').
Proof.
  intros Hn Hv. unfold Registry_DeclareQueue. destruct (QueueSpec_Validate _) as [[]|]; [|done]. simpl.
  destruct (reg_queues r !! _) as [old|] eqn:Hold.
  - case_decide; [|done]. intros [= <- <-] Hr. split; [by eapply Hr|done].
  - intros [= <- <-] Hr. assert (queue_in_range (mkQueue (QueueSpec_withDefaults spec) now)) as Hq.
    { split; [done|]. unfold QueueSpec_withDefaults, q_VisibilityTimeout. simpl. case_match; [|done].
      vm_compute. split; congruence. }
    split; [done|]. by apply map_Forall_insert_2.
Qed.

Lemma sim_DeclareQueue spec now e : time_in_range now → in_int64 (qs_VisibilityTimeout spec) →
  simulates (Engine_DeclareQueue spec now) (Engine_DeclareQueue spec now) e anything.
Proof.
  intros Hn Hv. unfold Engine_DeclareQueue. apply sim_bind, sim_registry; [|done]. intros q r Hr Hin.
  destruct (DeclareQueue_in_range spec now q _ r Hn Hv Hr (ir_queues _ Hin)) as [Hq Hqs]. split; [done|].
  apply sim_bind. destruct (q_Durable q).
  - apply (sim_call (CSaveQueue q)); [done|by split|]. intros s [[]|x] _ _; repeat sm.
  - by do 2 apply sim_ret.
Qed.

Lemma sim_ignore (p : prog G unit) (q : prog Db unit) e :
  simulates (on_store p) (on_store q) e anything →
  simulates (ignore_missing p) (ignore_missing q) e anything.
Proof.
  intros Hp. unfold ignore_missing. apply sim_bind, sim_try. apply sim_any; [done|]. intros [[]|x] e'; repeat sm.
Qed.

Lemma sim_DeclareExchange spec now e :
  simulates (Engine_DeclareExchange spec now) (Engine_DeclareExchange spec now) e anything.
Proof.
  unfold Engine_DeclareExchange. apply sim_bind, sim_bindings; [apply DeclareExchange_queues|].
  intros [x|err] e'; [|done]. apply sim_bind. destruct (ex_Durable x); [|by do 2 apply sim_ret].
  apply (sim_topology (st_SaveExchange x) tt); [exact (law_SaveExchange (S := Db) x)|]. intros [[]|err] e''; repeat sm.
Qed.

Lemma sim_Bind spec now e : simulates (Engine_Bind spec now) (Engine_Bind spec now) e anything.
Proof.
  unfold Engine_Bind. apply sim_bind, sim_bindings; [apply Bind_queues|]. intros [b|err] e'; [|done].
  apply sim_bind, (sim_topology (st_SaveBinding b) tt); [exact (law_SaveBinding (S := Db) b)|]. intros [[]|err] e''; repeat sm.
Qed.

Lemma sim_Unbind spec e : simulates (Engine_Unbind spec) (Engine_Unbind spec) e anything.
Proof.
  unfold Engine_Unbind, registry_forget. apply sim_bind, sim_bindings; [apply Unbind_queues|].
  intros [[]|err] e'; [|done]. apply sim_ignore, (sim_topology (st_DeleteBinding spec) tt); [|done].
  exact (law_DeleteBinding (S := Db) spec).
Qed.

Lemma sim_DeleteQueue name e : simulates (Engine_DeleteQueue name) (Engine_DeleteQueue name) e anything.
Proof.
  unfold Engine_DeleteQueue, registry_forget. apply sim_bind, sim_registry; [|done].
  intros [] r Hr Hin. split.
  - revert Hr. unfold Registry_DeleteQueue. case_match; [|done]. case_match; [done|]. intros [= <-].
    apply map_Forall_delete, Hin.
  - apply sim_ignore. by apply (sim_call (CDeleteQueue name)).
Qed.

(** Calls that only carry names. *)
Ltac plain_call c := apply (sim_call c); [done..|by intros].

Lemma sim_History id e : simulates (Engine_History id) (Engine_History id) e anything.
Proof. unfold Engine_History. plain_call (CHistory id). Qed.
Lemma sim_Message id e : simulates (Engine_Message id) (Engine_Message id) e anything.
Proof. unfold Engine_Message. plain_call (CMessage id). Qed.
Lemma sim_Depth queue e : simulates (Engine_Depth queue) (Engine_Depth queue) e anything.
Proof. unfold Engine_Depth. plain_call (CDepth queue). Qed.
Lemma sim_Purge queue e : simulates (Engine_Purge queue) (Engine_Purge queue) e anything.
Proof. unfold Engine_Purge. plain_call (CPurge queue). Qed.
Lemma sim_DeadLetters f e : simulates (Engine_DeadLetters f) (Engine_DeadLetters f) e anything.
Proof. unfold Engine_DeadLetters. plain_call (CDeadLetters f). Qed.
Lemma sim_DeadLetter id e : simulates (Engine_DeadLetter id) (Engine_DeadLetter id) e anything.
Proof. unfold Engine_DeadLetter. plain_call (CDeadLetter id). Qed.
Lemma sim_Discard id e : simulates (Engine_DiscardDeadLetter id) (Engine_DiscardDeadLetter id) e anything.
Proof. unfold Engine_DiscardDeadLetter. plain_call (CDeleteDeadLetter id). Qed.
Lemma sim_CountDeadLetters queue e :
  simulates (Engine_CountDeadLetters queue) (Engine_CountDeadLetters queue) e anything.
Proof. unfold Engine_CountDeadLetters. plain_call (CCountDeadLetters queue). Qed.

Lemma sim_RefreshQueueDepths e : simulates RefreshQueueDepths RefreshQueueDepths e anything.
Proof.
  unfold RefreshQueueDepths. apply sim_bind, sim_same; try done. simpl. apply sim_each. intros name e' _.
  apply sim_bind, sim_try. apply sim_any; [apply sim_Depth|]. intros [d|x] e''; repeat sm.
Qed.

Lemma sim_Ping e : simulates Engine_Ping Engine_Ping e anything.
Proof.
  unfold Engine_Ping, wrapping. apply sim_bind, sim_bind, sim_try.
  apply (sim_topology st_Queues []); [exact (law_Queues (S := Db))|]. intros [l|x] e'; repeat sm.
Qed.
End operations.
