(* ===== verification/ApiRange.v ===== *)
(** The HTTP interface on the SQLite store: every request does on it what it
    does on the guarded store ([EngineRange.v]), with no condition on what the
    request holds.  A decoded string is UTF-8 (JsonText.v), a parsed duration is
    64 bits wide (DurationProofs.v), and an empty payload is refused before it
    reaches the engine. *)

From S2P Require Import Prelude Errors TimeText HeaderJson MessageId Message Broker BrokerProofs Storage StoreTraces.
From S2P Require Import SqlConn Sqlite SqliteProofs SqliteContract Float64 DurationText DurationProofs Retry Logging.
From S2P Require Import Engine EngineProofs EnginePublish EngineSafety Metrics Schema Json JsonText Api ApiProofs ApiClaims.
From S2P Require Import Guard SqliteService EngineRange.

Import api.

#[local] Existing Instance Sqlite_service | 0.
#[local] Existing Instance service_pre_decision.

Section handlers.
Context (E : env) (HE : env_fits E) (policy : Policy) (Hpolicy : in_int64 (p_MaxInterval policy)).
Context (unrepresentable : float64 → Z).
Context {doc compiled : Type} (pk : packages doc compiled).
Context (schemas : option (gmap string (entry compiled))).
Context (has_metrics : bool) (print_g : float64 → string) (json_text : json_error → string).
Context (version : string).
Implicit Types (e : Engine Db).

(** * Rules *)

Lemma sim_or_fail {A} (p : prog (Engine G) A) q k k' e :
  simulates p q e anything → (∀ a e', simulates (k a) (k' a) e' anything) →
  simulates (or_fail p k) (or_fail q k') e anything.
Proof.
  intros Hp Hk. unfold or_fail. apply sim_bind, sim_try. apply sim_any; [done|].
  intros [a|err] e'; [apply Hk|]. destruct err; first [by apply sim_ret|by apply sim_fails].
Qed.

Lemma sim_decodeBody {T} (fields : list (field T)) r target (P : T → Prop) k k' e :
  (∀ f text v t t', f ∈ fields → json_valid v → P t → fd_store f text v t = Some t' → P t') → P target →
  (∀ request, P request → simulates (k request) (k' request) e anything) →
  simulates (decodeBody json_text fields r target k) (decodeBody json_text fields r target k') e anything.
Proof.
  intros Hf Ht Hk. unfold decodeBody. destruct (Decode fields (rq_Body r) target) as [request|x] eqn:Hd;
    [|by apply sim_ret]. apply Hk. by eapply (Decode_keeps P).
Qed.

(** When nothing needs to be known of the request. *)
Lemma sim_decode {T} (fields : list (field T)) r target k k' e :
  (∀ request, simulates (k request) (k' request) e anything) →
  simulates (decodeBody json_text fields r target k) (decodeBody json_text fields r target k') e anything.
Proof. intros Hk. by apply (sim_decodeBody _ _ _ (fun _ => True)). Qed.

Lemma sim_optional {T} (fields : list (field T)) r target k k' e :
  (∀ request, simulates (k request) (k' request) e anything) →
  simulates (optional_body json_text fields r target k) (optional_body json_text fields r target k') e anything.
Proof. intros Hk. unfold optional_body. case_match; [by apply sim_decode|apply Hk]. Qed.

(** The engine's own fields. *)
Lemma sim_gets {A} (f : Engine G → A) (g : Engine Db → A) e (Q : result error A → Engine Db → Prop) :
  f (shield e) = g e → Q (Ok (g e)) e → simulates (gets f) (gets g) e Q.
Proof. intros Hf HQ. apply sim_same; try done. unfold gets. by rewrite Hf. Qed.

Lemma sim_registry_get {A} (f : Registry → result error A) e : simulates (registry_get f) (registry_get f) e anything.
Proof. by apply sim_same. Qed.

Lemma optionalDuration_range raw d : optionalDuration raw = Ok d → in_int64 d.
Proof.
  unfold optionalDuration. case_match; [intros [= <-]; unfold in_int64; lia|].
  destruct (ParseDuration raw) as [d'|] eqn:Hp; [|done]. intros [= <-]. by eapply ParseDuration_range.
Qed.

Ltac hd :=
  cbn beta iota;
  lazymatch goal with
  | |- simulates (_ ≫= _) _ _ _ => apply sim_bind
  | |- simulates (mret _) _ _ _ => apply sim_ret
  | |- simulates (or_fail _ _) _ _ _ => apply sim_or_fail; [|intros ? ?]
  | |- simulates (attempting _) _ _ _ => apply sim_try
  | |- simulates (decodeBody _ _ _ _ _) _ _ _ => apply sim_decode; intros ?
  | |- simulates (optional_body _ _ _ _ _) _ _ _ => apply sim_optional; intros ?
  | |- simulates (gets _) _ _ _ => apply sim_gets; [done|]
  | |- simulates (registry_get _) _ _ _ => apply sim_any; [apply sim_registry_get|intros [?|?] ?]
  | |- simulates (time_Now _) _ _ _ => apply (sim_now E HE); intros ?
  | |- simulates (match ?x with _ => _ end) _ _ _ => destruct x
  | |- anything _ _ => done
  end.
Ltac engine_op := apply sim_any; [solve [eauto with ranged]|intros [?|?] ?].
Ltac handler := repeat first [hd|engine_op].

#[local] Hint Resolve sim_Message sim_History sim_Depth sim_Purge sim_DeadLetters sim_DeadLetter sim_Discard
  sim_CountDeadLetters sim_RefreshQueueDepths sim_Ping sim_DeleteQueue sim_Bind sim_Unbind sim_DeclareExchange
  sim_Ack sim_Nack : ranged.

(** * The handlers *)

(** The state a request finds: new ids are distinct, and there is room in the
    counters of the dead letters. *)
Definition ready e : Prop :=
  (∀ pub, distinct_ids E pub (shield e)) ∧ ∀ id, replay_fits id (sqlite_view (e_store e)).

Definition request_text (r : publishRequest) : Prop := text_ok (pq_Headers r).

Lemma publish_field_text f text v t t' :
  f ∈ publish_fields → json_valid v → request_text t → fd_store f text v t = Some t' → request_text t'.
Proof.
  unfold publish_fields, request_text. rewrite !elem_of_cons. intros Hf Hv Ht.
  destruct Hf as [->|[->|[->|[->|[->|[]%elem_of_nil]]]]]; simpl;
    try (destruct v; try done; by intros [= <-]).
  destruct v; try done; [by intros [= <-]|]. destruct (store_map members (pq_Headers t)) as [m|] eqn:Hs; [|done].
  intros [= <-]. simpl. eapply store_map_text; [|exact Ht|exact Hs]. by apply json_valid_object.
Qed.

Lemma Publish_sim r e : service_inv (e_store e) → ready e →
  simulates (handlePublish E pk schemas json_text r) (handlePublish E pk schemas json_text r) e anything.
Proof.
  intros Hi [Hd _]. unfold handlePublish. apply (sim_decodeBody _ _ _ request_text);
    [apply publish_field_text|apply map_Forall_empty|].
  intros request Ht. destruct (pq_Payload request) eqn:Hp; [by apply sim_ret|]. cbn [str_empty].
  apply sim_or_fail; [by apply sim_Publish|intros res e'; by apply sim_ret].
Qed.

Lemma DeclareQueue_sim r e :
  simulates (handleDeclareQueue E schemas json_text r) (handleDeclareQueue E schemas json_text r) e anything.
Proof.
  unfold handleDeclareQueue. hd. destruct (optionalDuration _) as [d|x] eqn:Hd; [|by apply sim_ret].
  apply optionalDuration_range in Hd. case_match; [by apply sim_ret|]. do 2 hd.
  apply sim_or_fail; [by apply sim_DeclareQueue|]. intros q e'. unfold describeQueue. handler.
Qed.

Lemma Consume_sim queue r e :
  simulates (handleConsume E json_text queue r) (handleConsume E json_text queue r) e anything.
Proof.
  unfold handleConsume. hd. destruct (optionalDuration _) as [d|x] eqn:Hd; [|by apply sim_ret].
  apply optionalDuration_range in Hd. apply sim_or_fail; [by apply sim_Pull|]. intros claimed e'. handler.
Qed.

Lemma Retry_sim id r e : service_inv (e_store e) → ready e →
  simulates (handleRetryDeadLetter E id r) (handleRetryDeadLetter E id r) e anything.
Proof.
  intros Hi [_ Hr]. unfold handleRetryDeadLetter. apply sim_or_fail; [by apply sim_Replay|]. intros res e'. handler.
Qed.

Lemma describe_all_sim queues views e :
  simulates (describe_all queues views) (describe_all queues views) e anything.
Proof.
  revert views e. induction queues as [|q queues IH]; intros views e; cbn [describe_all]; [by apply sim_ret|].
  apply sim_bind. unfold describeQueue. handler; apply IH.
Qed.
#[local] Hint Resolve describe_all_sim : ranged.

(** ** The routes *)

Abbreviation routes_of S := (routes (S := S) E policy unrepresentable pk schemas has_metrics print_g json_text version).
Abbreviation mux_of S := (mux (S := S) E policy unrepresentable pk schemas has_metrics print_g json_text version).
Abbreviation serve_on S := (ServeHTTP (S := S) E policy unrepresentable pk schemas has_metrics print_g json_text version).

Definition same_route (ro : route (S := G)) (ro' : route (S := Db)) : Prop :=
  ro_method ro = ro_method ro' ∧ ro_pattern ro = ro_pattern ro' ∧
  ∀ v r e, service_inv (e_store e) → ready e → simulates (ro_handler ro v r) (ro_handler ro' v r) e anything.

Lemma routes_simulate : Forall2 same_route (routes_of G) (routes_of Db).
Proof.
  unfold routes. repeat apply Forall2_cons_2; try apply Forall2_nil_2; (split; [done|]; split; [done|]);
    intros v r e Hi Hr; cbn [ro_handler]; unfold plain;
    first [ by apply Publish_sim | by apply Retry_sim | apply DeclareQueue_sim | apply Consume_sim | idtac ].
  all: unfold handleHealth, handleReady, handleMetrics, handleDeclareExchange, handleListExchanges, handleGetExchange,
    handleListQueues, handleGetQueue, handleDeleteQueue, handlePurgeQueue, handleGetMessage, handleGetMessageHistory,
    handleAck, handleNack, handleListDeadLetters, handleGetDeadLetter, handleDeleteDeadLetter, handleListSchemas,
    handleListConsumers, handleBind, handleListBindings, handleUnbind, describeQueue; handler.
  by apply sim_same.
Qed.

Lemma Forall2_filtered {A B} (R : A → B → Prop) f g l l' :
  (∀ a b, R a b → f a = g b) → Forall2 R l l' → Forall2 R (List.filter f l) (List.filter g l').
Proof.
  intros Hfg. induction 1 as [|a b l l' Hab _ IH]; [done|]. simpl. rewrite (Hfg a b Hab).
  destruct (g b); [by constructor|done].
Qed.

Lemma Forall2_found {A B} (R : A → B → Prop) f g l l' :
  (∀ a b, R a b → f a = g b) → Forall2 R l l' →
  match List.find f l, List.find g l' with
  | Some a, Some b => R a b | None, None => True | _, _ => False
  end.
Proof. intros Hfg. induction 1 as [|a b l l' Hab _ IH]; [done|]. simpl. rewrite (Hfg a b Hab). by destruct (g b). Qed.

Lemma mux_simulates r e : service_inv (e_store e) → ready e → simulates (mux_of G r) (mux_of Db r) e anything.
Proof.
  intros Hi Hr. unfold mux. cbv zeta.
  pose proof (Forall2_filtered same_route
    (fun ro => if match_path (ro_pattern ro) (rq_Path r) "" then true else false)
    (fun ro => if match_path (ro_pattern ro) (rq_Path r) "" then true else false) _ _
    ltac:(intros ?? (_ & -> & _); done) routes_simulate) as Hall.
  pose proof (Forall2_found same_route (fun ro => method_fits (ro_method ro) (rq_Method r))
    (fun ro => method_fits (ro_method ro) (rq_Method r)) _ _ ltac:(intros ?? (-> & _); done) Hall) as Hfind.
  destruct (List.find _ _) as [ro|], (List.find _ _) as [ro'|]; try done.
  - destruct Hfind as (_ & Hp & Hh). rewrite Hp. by apply Hh.
  - by destruct Hall; apply sim_ret.
Qed.

(** Everything a request needs of the state, from what the claims ask. *)
Lemma ready_drawn r e : distinct_draws E (1 + size (reg_queues (e_registry e))) (shield e) →
  (∀ id, replay_fits id (sqlite_view (e_store e))) → ready (drawn r e).
Proof.
  intros Hd Hc. split.
  - intros pub. apply (distinct_drawn E r (shield e)), (distinct_draws_ids E pub) in Hd.
    unfold drawn in *. by destruct (str_empty (rq_RequestID r)).
  - unfold drawn. by destruct (str_empty (rq_RequestID r)).
Qed.

Lemma serve_simulates maxBodyBytes r e :
  in_range e → distinct_draws E (1 + size (reg_queues (e_registry e))) (shield e) →
  (∀ id, replay_fits id (sqlite_view (e_store e))) →
  serve_on G maxBodyBytes r (shield e) =
    (shield (serve_on Db maxBodyBytes r e).1, (serve_on Db maxBodyBytes r e).2) ∧
  in_range (serve_on Db maxBodyBytes r e).1.
Proof.
  intros Hr Hd Hc. assert (simulates (serve_on G maxBodyBytes r) (serve_on Db maxBodyBytes r) e anything) as Hs.
  { pose proof (ready_drawn r e Hd Hc) as Hready. unfold ServeHTTP, recoverPanics, requestID, limitBody.
    apply sim_bind, sim_bind. unfold drawn in Hready. destruct (str_empty (rq_RequestID r)).
    - apply (sim_NewID E HE). intros id _. apply sim_bind, sim_try.
      apply sim_any; [apply mux_simulates; [apply Hr|done]|]. intros res e'. by do 2 apply sim_ret.
    - apply sim_ret, sim_bind, sim_try. apply sim_any; [apply mux_simulates; [apply Hr|done]|].
      intros res e'. by do 2 apply sim_ret. }
  by destruct (Hs Hr) as (? & ? & _).
Qed.
End handlers.
