(* ===== verification/SqliteEngine.v ===== *)
(** The engine and the HTTP interface on the SQLite store.

    What EngineClaims.v and ApiClaims.v show of stores that take every argument
    holds on SQLite too, as long as the clock stays in the years 1970 to 9707:
    the arguments that come from outside are checked before they reach the
    store, or are the ones [op_fits] names. *)

From S2P Require Import Prelude Errors TimeText HeaderJson MessageId Message Broker BrokerProofs Storage StoreTraces.
From S2P Require Import SqlConn SqlConnProofs Sqlite SqliteProofs SqliteContract Float64 Retry.
From S2P Require Import Engine EngineProofs EnginePublish EngineSafety EngineClaims Schema SchemaProofs Json Api ApiProofs ApiClaims.
From S2P Require Import Guard SqliteService EngineRange ApiRange.

#[local] Existing Instance Sqlite_service | 0.
#[local] Existing Instance service_pre_decision.

(** * Operations in range *)

Definition op_fits (op : eop) (e : Engine Db) : Prop :=
  match op with
  | OpDeclareQueue spec now => time_in_range now ∧ in_int64 (qs_VisibilityTimeout spec)
  | OpPublish pub => text_ok (pub_Headers pub) ∧ pub_Payload pub ≠ ""
  | OpPull req => in_int64 (pl_Lease req)
  | OpProcess _ delivery _ => message_fits (dv_Message delivery)
  | OpReplay id => replay_fits id (sqlite_view (e_store e))
  | _ => True
  end.

Section operations.
Context (E : env) (HE : env_fits E) (policy : Policy) (Hpolicy : in_int64 (p_MaxInterval policy)).
Context (schemas : option (string → string → result error unit)) (unrepresentable : float64 → Z).
Implicit Types (e : Engine Db).

Abbreviation run_on S := (run_op (S := S) E policy schemas unrepresentable).
Abbreviation run_all S := (run_ops (S := S) E policy schemas unrepresentable).

Lemma sim_state {A} (p : prog (Engine G) A) q e : in_range e → simulates p q e anything →
  (p (shield e)).1 = shield (q e).1 ∧ in_range (q e).1.
Proof. intros Hr Hs. destruct (Hs Hr) as (-> & Hr' & _). done. Qed.

Lemma op_simulates op e : in_range e → op_fits op e → op_pre E op e →
  run_on G op (shield e) = shield (run_on Db op e) ∧ in_range (run_on Db op e).
Proof.
  intros Hr Hfit Hpre. destruct op; cbn [run_op]; cbn [op_fits op_pre] in Hfit, Hpre;
    lazymatch goal with
    | |- context [Engine_Subscribe] => idtac
    | |- context [Engine_Unsubscribe] => idtac
    | |- context [claimBatch] => idtac
    | |- context [Engine_Shutdown] => idtac
    | |- _ => apply sim_state; [done|]
    end.
  - apply sim_DeclareExchange.
  - destruct Hfit. by apply sim_DeclareQueue.
  - apply sim_Bind.
  - apply sim_Unbind.
  - apply sim_DeleteQueue.
  - destruct Hfit. by apply sim_Publish; [|apply Hr|..].
  - by apply sim_Pull.
  - by apply sim_Ack.
  - by apply sim_Nack.
  - unfold Engine_Subscribe, register_consumer. rewrite !bind_eq.
    destruct (cs_HasHandler spec); [|done]. simpl. rewrite !bind_eq. unfold registry_get. simpl.
    destruct (Registry_Queue _ _) as [q|]; [|done]. destruct (e_running e); [|done]. simpl.
    destruct (e_consumers e !! cs_Name spec); [done|]. split; [done|]. destruct Hr as [? ? ? Hc]. split; [done..|].
    intros name spec'. simpl. rewrite lookup_insert. case_decide; [|apply Hc].
    intros [= <-]. apply withDefaults_prefetch.
  - unfold Engine_Unsubscribe. simpl. destruct (e_consumers e !! name); [|done]. split; [done|].
    destruct Hr as [? ? ? Hc]. split; [done..|]. intros n spec'. simpl. intros [_ ?]%lookup_delete_Some. by eapply Hc.
  - simpl. destruct (e_consumers e !! name) as [consumer|] eqn:Hc; [|done]. apply sim_state; [done|].
    apply sim_claimBatch; [done|]. by eapply ir_consumers.
  - by apply sim_process.
  - by apply sim_reclaim.
  - apply sim_RefreshQueueDepths.
  - apply sim_Replay; [done|apply Hr|done].
  - apply sim_Discard.
  - apply sim_Purge.
  - unfold Engine_Start. apply sim_same; cbn [shield e_running]; by destruct (e_running e) eqn:H.
  - unfold Engine_Shutdown. rewrite !bind_eq. simpl. split; [by destruct timed_out|].
    destruct Hr as [Hi Hv Hq _]. destruct timed_out; (split; [done..|]); intros n c; simpl; by rewrite lookup_empty.
Qed.

Fixpoint ops_fit (ops : list eop) e : Prop :=
  match ops with
  | [] => True
  | op :: rest => op_fits op e ∧ op_pre E op e ∧ ops_fit rest (run_on Db op e)
  end.

Lemma ops_simulate ops e : in_range e → ops_fit ops e →
  run_all G ops (shield e) = shield (run_all Db ops e) ∧ in_range (run_all Db ops e) ∧
  ops_pre E policy schemas unrepresentable ops (shield e).
Proof.
  revert e. induction ops as [|op ops IH]; intros e Hr; [done|]. intros (Hfit & Hpre & Hrest).
  destruct (op_simulates op e Hr Hfit Hpre) as [Heq Hr']. cbn [run_ops ops_pre]. rewrite Heq.
  destruct (IH _ Hr' Hrest) as (? & ? & ?). done.
Qed.

Lemma shield_ok e : in_range e → engine_ok (shield e).
Proof. intros [Hi _ _ Hc]. split; [exact Hi|]. intros name spec. apply Hc. Qed.

(** C9: On the SQLite store, with a clock between 1970 and 9707 and any
    operations whose arguments the database can keep (headers in UTF-8, payloads
    that are not empty, 64-bit durations): no sequence of operations loses a
    message or moves one backwards, and only deleting or purging its queue
    removes it; every dead-lettered message stays accounted for as long as dead
    letters are not discarded; and the database stays well formed, with every
    value in it readable, so that the next operations find the same. *)
Theorem sqlite_engine_safe ops e :
  in_range e → ops_fit ops e →
  let e' := run_all Db ops e in
  in_range e' ∧
  (∀ id rec, a_messages (sqlite_view (e_store e)) !! id = Some rec →
     (∃ rec', a_messages (sqlite_view (e_store e')) !! id = Some rec' ∧ evolves rec rec') ∨
     OpDeleteQueue (rec_Queue rec) ∈ ops ∨
     (OpPurge (rec_Queue rec) ∈ ops ∧ ¬ settled_state (rec_State rec))) ∧
  ((∀ id, OpDiscard id ∉ ops) → dead_backed (sqlite_view (e_store e)) → dead_backed (sqlite_view (e_store e'))).
Proof.
  intros Hr Hfit e'. destruct (ops_simulate ops e Hr Hfit) as (Heq & Hr' & Hpre).
  pose proof (shield_ok e Hr) as Hok. split; [done|]. split.
  - intros id rec Hid.
    pose proof (run_ops_conserves E policy schemas unrepresentable ops (shield e) id rec Hok Hpre Hid) as Hc.
    by rewrite Heq in Hc.
  - intros Hno Hb. pose proof (run_ops_dead_backed E policy schemas unrepresentable ops (shield e) Hok Hpre Hno Hb) as Hd.
    by rewrite Heq in Hd.
Qed.
End operations.

(** * Requests *)

Section requests.
Context (E : env) (HE : env_fits E) (policy : Policy) (Hpolicy : in_int64 (p_MaxInterval policy)).
Context (unrepresentable : float64 → Z).
Context {doc compiled : Type} (pk : packages doc compiled).
Context (schemas : option (gmap string (entry compiled))).
Context (has_metrics : bool) (print_g : float64 → string) (json_text : json_error → string).
Context (version : string).

Abbreviation serve_sqlite :=
  (api.ServeHTTP (S := Db) E policy unrepresentable pk schemas has_metrics print_g json_text version).

End requests.

(** * Witnesses *)

Module SqliteSamples.
(** A clock that shows the first second of 1970 again and again. *)
Definition E : env := mkEnv (fun n => 1000000000 + Z.of_nat n mod 1000)%Z (fun n => 1000000000 + Z.of_nat n mod 1000)%Z
  (fun n => [N.of_nat n mod 256; 1; 2; 3; 4; 5; 6; 7; 8; 9])%N (fun _ => f_half).
Definition db : Db := mkDb false empty_tables 0 (fun _ => None).
Definition new : Engine Db := mkEngine db NewRegistry ∅ ∅ false [] 0 0 0 0.
Definition ops : list eop := Samples.topology ++ Samples.traffic.

Lemma E_fits : env_fits E.
Proof.
  split; intros n; unfold E, clock_fits, time_in_range, zeroTime, second, day_ns, second_ns; simpl env_clock;
    simpl env_wall; [| |repeat constructor; simpl].
  - pose proof (Z.mod_pos_bound (Z.of_nat n) 1000). lia.
  - pose proof (Z.mod_pos_bound (Z.of_nat n) 1000). lia.
  - apply N.mod_lt. lia.
Qed.

Lemma new_range : in_range new.
Proof.
  split.
  - split; [|by constructor]. split; [by split|]. repeat split; constructor.
  - split; [apply map_Forall_empty|apply map_Forall_empty|constructor].
  - apply map_Forall_empty.
  - intros name spec. simpl. by rewrite lookup_empty.
Qed.

Lemma Default_fits : in_int64 (p_MaxInterval Default).
Proof. by vm_compute. Qed.

Lemma topology_fits : ops_fit E Default Samples.strict Samples.overflow Samples.topology new.
Proof. repeat split; by vm_compute. Qed.
Definition ready : Engine Db := run_ops E Default Samples.strict Samples.overflow Samples.topology new.
Lemma ready_range : in_range ready.
Proof. by apply (ops_simulate E E_fits Default Default_fits); [exact new_range|exact topology_fits]. Qed.
Lemma traffic_fits : ops_fit E Default Samples.strict Samples.overflow Samples.traffic ready.
Proof.
  split; [split; [apply map_Forall_empty|done]|]. split; [|repeat split; by vm_compute].
  change (distinct_ids E (Samples.pub "{}") ready).
  refine (@bool_decide_eq_true_1 _ (distinct_ids_dec E (Samples.pub "{}") ready) _). vm_compute. reflexivity.
Qed.
Definition busy : Engine Db := run_ops E Default Samples.strict Samples.overflow Samples.traffic ready.
Lemma busy_range : in_range busy.
Proof. by apply (ops_simulate E E_fits Default Default_fits); [exact ready_range|exact traffic_fits]. Qed.
End SqliteSamples.

(** Publishing a message and leasing it, on a database that has the topology. *)
Lemma sqlite_engine_safe_witness :
  in_range SqliteSamples.busy ∧ dead_backed (sqlite_view (e_store SqliteSamples.busy)).
Proof.
  destruct (sqlite_engine_safe SqliteSamples.E SqliteSamples.E_fits Default SqliteSamples.Default_fits Samples.strict
    Samples.overflow Samples.traffic SqliteSamples.ready SqliteSamples.ready_range SqliteSamples.traffic_fits)
    as (Hr & _ & Hd).
  split; [exact Hr|]. apply Hd.
  - intros id. unfold Samples.traffic. rewrite !elem_of_cons, elem_of_nil. intros [?|[?|?]]; done.
  - intros id rec. replace (a_messages (sqlite_view (e_store SqliteSamples.ready))) with (∅ : gmap string record)
      by (vm_compute; reflexivity). by rewrite lookup_empty.
Defined.

