(* ===== verification/Bench.v ===== *)
(** The benchmarks of the stores: [internal/storage/storagetest/bench.go].

    A benchmark is a program on a store, as a test of Conformance.v is: it stops
    at [b.Fatal].  The number of iterations is an argument.  What it measures is
    not part of the model; that it runs to its end is: a benchmark that stops
    early measures nothing. *)

From S2P Require Import Prelude Errors MessageId Message Broker Storage StoreTraces.
From S2P Require Import Memory MemoryProofs Conformance TimeText HeaderJson SqlConn SqlConnProofs Sqlite SqliteProofs SqliteContract.
From S2P Require Import SqliteClaims SqliteService.

Local Open Scope Z_scope.

Definition benchQueue : string := "invoice-processing".

Definition bench_payload : string :=
  "{" +:+ dquote +:+ "invoice_id" +:+ dquote +:+ ":" +:+ dquote +:+ "INV-1042210" +:+ dquote +:+ "," +:+
  dquote +:+ "total_net" +:+ dquote +:+ ":1299.5}".
Definition bench_publication : Publication :=
  mkPublication "erp.events" "invoice.issued" bench_payload {["tenant" := "acme"]} "".

Section benchmarks.
Context {S : Type} `{StoreOps S}.
(** What successive readings of the clock show, and what [message.NewID] draws. *)
Context (clock : nat → Time) (entropy : nat → list N).

(** [prepare], on the store that the factory made *)
Definition bench_queue : Queue := mkQueue (mkQueueSpec benchQueue true 3 (30 * second) "") (clock 0).
Definition prepare : prog S unit := must "save queue: %v" (st_SaveQueue bench_queue).

(** [drawn] ids have been drawn before. *)
Definition bench_message (now : Time) (i : nat) : Message :=
  set_State StateQueued (set_MaxAttempts 3 (New bench_publication benchQueue now (entropy i))).
Definition benchMessages (now : Time) (drawn count : nat) : list Message := bench_message now <$> seq drawn count.

(** The loop of [benchmarkAppend]; [reads] readings of the clock have been taken. *)
Fixpoint append_loop (batch iterations reads drawn : nat) : prog S unit :=
  match iterations with
  | O => mret tt
  | Datatypes.S n =>
      _ ← must "append: %v" (st_Append (benchMessages (clock reads) drawn batch));
      append_loop batch n (Datatypes.S reads) (drawn + batch)
  end.
Definition benchmarkAppend (batch iterations : nat) : prog S unit :=
  _ ← prepare; append_loop batch iterations 1 0.

(** One claim of the loops of [benchmarkClaim] and [benchmarkDeliveryCycle] *)
Definition bench_request (now : Time) : ClaimRequest := mkClaimRequest benchQueue "bench" 1 minute now.
Definition bench_claim (now : Time) : prog S Message :=
  claimed ← must "claim: %v" (st_Claim (bench_request now));
  match claimed with
  | [] => fails (errorString "expected the queue to hold messages")
  | msg :: _ => mret msg
  end.

(** The store filled, and the time of the claims *)
Definition filled (iterations : nat) : prog S Time :=
  _ ← prepare;
  _ ← must "append: %v" (st_Append (benchMessages (clock 1) 0 (iterations + 1)));
  mret (clock 2 + second).

Definition benchmarkClaim (iterations : nat) : prog S unit :=
  now ← filled iterations;
  for_each (fun _ => _ ← bench_claim now; mret tt) (seq 0 iterations).

Definition benchmarkDeliveryCycle (iterations : nat) : prog S unit :=
  now ← filled iterations;
  for_each (fun _ => msg ← bench_claim now; must "acknowledge: %v" (st_Acknowledge (msg_ID msg) now)) (seq 0 iterations).

(** [Benchmark] *)
Definition Benchmark (iterations : nat) : list (string * prog S unit) := [
  ("AppendSingle", benchmarkAppend 1 iterations);
  ("AppendBatch32", benchmarkAppend 32 iterations);
  ("Claim", benchmarkClaim iterations);
  ("DeliveryCycle", benchmarkDeliveryCycle iterations)].
End benchmarks.

(** * They run to their end *)

Section runs.
Context {S : Type} `{HS : StoreContract S}.
Context (clock : nat → Time) (entropy : nat → list N).
Implicit Types (s : S) (a : astore).

(** The calls that the benchmarks make. *)
Definition bench_call {A} (c : call A) : Prop :=
  match c with
  | CSaveQueue q => q = bench_queue clock
  | CAppend ms => ∃ r drawn count, ms = benchMessages entropy (clock r) drawn count
  | CClaim req => req = bench_request (clock 2 + second)
  | CAcknowledge _ at_ => at_ = clock 2 + second
  | _ => False
  end.
(** The store takes them. *)
Context (Haccepts : ∀ A a (c : call A), bench_call c → store_pre a c).

(** The program ends normally, with [Q] of its result and the store. *)
Definition passes {A} (p : prog S A) s (Q : A → astore → Prop) : Prop :=
  store_inv (p s).1 ∧ ∃ x, (p s).2 = Ok x ∧ Q x (store_view (p s).1).

Lemma passes_ret {A} (x : A) s (Q : A → astore → Prop) : store_inv s → Q x (store_view s) → passes (mret x) s Q.
Proof. intros Hi HQ. split; [done|]. by exists x. Qed.

Lemma passes_bind {A B} (p : prog S A) (f : A → prog S B) s (Q : A → astore → Prop) (R : B → astore → Prop) :
  passes p s Q → (∀ x s', store_inv s' → Q x (store_view s') → passes (f x) s' R) → passes (p ≫= f) s R.
Proof.
  intros (Hi & x & Hx & HQ) Hf. unfold passes. rewrite bind_eq. destruct (p s) as [s' r]. simpl in *. subst r. by apply Hf.
Qed.

Lemma passes_must {A} text (p : prog S A) s Q : passes p s Q → passes (must text p) s Q.
Proof. intros (Hi & x & Hx & HQ). unfold passes, must. destruct (p s) as [s' r]. simpl in *. subst r. eauto. Qed.

Lemma passes_call {A} (c : call A) s (Q : A → astore → Prop) : store_inv s → call_pre c → bench_call c →
  (∀ r a', call_spec c (store_view s) r a' → ∃ x, r = Ok x ∧ Q x a') → passes (run_call c) s Q.
Proof.
  intros Hi Hp Hc HQ. destruct (law_call c s Hi Hp (Haccepts _ _ c Hc)) as [Hi' Hs].
  split; [done|]. by apply HQ.
Qed.

(** The messages that a claim at the benchmark's time can take. *)
Definition waiting a : nat := size (filter (fun kv => claimable_in (bench_request (clock 2 + second)) kv.2) (a_messages a)).

Lemma claim_one a ids a' : astore_ok a → (0 < waiting a)%nat →
  claim_picks (bench_request (clock 2 + second)) (a_messages a) ids →
  a' = with_messages (claim_all (bench_request (clock 2 + second)) ids) a →
  ∃ id rec, ids = [id] ∧ a_messages a' !! id = Some rec ∧ rec_State rec = StateProcessing ∧ msg_ID (rec_msg rec) = id ∧
    waiting a = Datatypes.S (waiting a').
Proof.
  set (req := bench_request _). intros Hok Hw (Hnd & Hcl & Hle & Hall) ->.
  assert (∃ id, ids = [id]) as [id ->].
  { destruct ids as [|id [|id' ids]]; [|by exists id|simpl in Hle; lia]. exfalso. unfold waiting in Hw. fold req in Hw.
    destruct (decide (filter (fun kv => claimable_in req kv.2) (a_messages a) = ∅)) as [He|He]; [rewrite He, map_size_empty in Hw; lia|].
    apply map_choose in He as (id & r & [Hr Hc]%map_lookup_filter_Some). simpl in Hall.
    by apply (elem_of_nil id), (Hall ltac:(lia) id r). }
  destruct (Hcl id) as (r & Hr & Hc); [set_solver|]. exists id, (claim_record req r). split; [done|]. simpl.
  rewrite lookup_claim_all, decide_True, Hr by set_solver. split; [done|]. split; [done|]. split; [by apply (aok_messages _ Hok)|].
  unfold waiting. fold req. simpl.
  assert (filter (fun kv => claimable_in req kv.2) (claim_all req [id] (a_messages a)) =
          delete id (filter (fun kv => claimable_in req kv.2) (a_messages a))) as ->.
  { apply map_eq. intros j. rewrite lookup_delete, !map_lookup_filter, lookup_claim_all. case_decide as Hj.
    - apply list_elem_of_singleton in Hj as ->. rewrite decide_True by done. rewrite Hr. simpl.
      rewrite option_guard_False; [done|]. by apply processing_not_claimable.
    - rewrite decide_False; [done|]. set_solver. }
  rewrite map_size_delete_Some; [|exists r; by apply map_lookup_filter_Some].
  assert (size (filter (fun kv => claimable_in req kv.2) (a_messages a)) ≠ 0%nat); [|lia].
  apply map_size_non_empty_iff. intros He. assert (filter (fun kv => claimable_in req kv.2) (a_messages a) !! id = Some r) as Hl
    by by apply map_lookup_filter_Some. by rewrite He, lookup_empty in Hl.
Qed.

Lemma bench_claim_passes s : store_inv s → (0 < waiting (store_view s))%nat →
  passes (bench_claim (clock 2 + second)) s (fun msg a' => waiting (store_view s) = Datatypes.S (waiting a') ∧
    ∃ rec, a_messages a' !! msg_ID msg = Some rec ∧ rec_State rec = StateProcessing).
Proof.
  intros Hi Hw. unfold bench_claim. eapply passes_bind.
  - apply passes_must, (passes_call (CClaim (bench_request (clock 2 + second)))); [done|by simpl; lia|done|].
    intros r a' (ids & Hp & -> & Ha'). destruct (claim_one _ _ _ (law_ok s Hi) Hw Hp Ha') as (id & rec & -> & Hr & Hst & Hid & Hn).
    eexists. split; [done|]. unfold messages_of. simpl. rewrite Hr. simpl.
    instantiate (1 := fun claimed a' => ∃ msg, claimed = [msg] ∧ waiting (store_view s) = Datatypes.S (waiting a') ∧
      ∃ rec, a_messages a' !! msg_ID msg = Some rec ∧ rec_State rec = StateProcessing).
    exists (rec_msg rec). split; [done|]. split; [done|]. rewrite Hid. eauto.
  - intros claimed s' Hi' (msg & -> & HQ). by apply passes_ret.
Qed.

Lemma acknowledge_passes id s : store_inv s →
  (∃ rec, a_messages (store_view s) !! id = Some rec ∧ rec_State rec = StateProcessing) →
  passes (st_Acknowledge id (clock 2 + second)) s (fun _ a' => waiting a' = waiting (store_view s)).
Proof.
  intros Hi (rec & Hr & Hst). apply (passes_call (CAcknowledge id (clock 2 + second))); [done..|].
  intros r a'. simpl. unfold leased_spec. rewrite Hr, decide_True by done. intros [-> ->]. exists tt. split; [done|].
  unfold waiting. simpl. f_equal. apply map_eq. intros j. rewrite !map_lookup_filter, lookup_insert. case_decide; [|done].
  subst j. rewrite Hr. simpl. rewrite !option_guard_False; [done|by apply processing_not_claimable|].
  intros [_ Hc]. by unfold claimable in Hc; rewrite decide_False in Hc by by intros [?|?].
Qed.

(** A loop each turn of which needs one waiting message. *)
Lemma loop_passes (turn : prog S unit) n s :
  (∀ s, store_inv s → (0 < waiting (store_view s))%nat →
     passes turn s (fun _ a' => waiting (store_view s) = Datatypes.S (waiting a'))) →
  store_inv s → (n ≤ waiting (store_view s))%nat →
  passes (for_each (fun _ => turn) (seq 0 n)) s (fun _ a' => waiting (store_view s) = (n + waiting a')%nat).
Proof.
  intros Hturn. revert s. generalize 0%nat. induction n as [|n IH]; intros k s Hi Hn; [by apply passes_ret|]. simpl seq. simpl for_each.
  eapply passes_bind; [apply Hturn; [done|lia]|]. intros u s' Hi' Hw. simpl in Hw.
  destruct (IH (Datatypes.S k) s' Hi' ltac:(lia)) as (Hi'' & x & Hx & HQ). split; [done|]. exists x. split; [done|]. simpl in *. lia.
Qed.
(** The ids that the appending loop draws. *)
Fixpoint drawn_ids (batch iterations reads drawn : nat) : list string :=
  match iterations with
  | O => []
  | Datatypes.S n =>
      (msg_ID <$> benchMessages entropy (clock reads) drawn batch) ++ drawn_ids batch n (Datatypes.S reads) (drawn + batch)
  end.

Lemma bench_appendable now drawn count : NoDup (msg_ID <$> benchMessages entropy now drawn count) →
  appendable (benchMessages entropy now drawn count).
Proof.
  intros Hn. split; [done|]. unfold benchMessages. apply Forall_fmap, Forall_true. intros i. done.
Qed.

Lemma append_passes r drawn count s : store_inv s →
  NoDup (msg_ID <$> benchMessages entropy (clock r) drawn count) →
  (∀ id, id ∈ msg_ID <$> benchMessages entropy (clock r) drawn count → a_messages (store_view s) !! id = None) →
  passes (st_Append (benchMessages entropy (clock r) drawn count)) s
    (fun _ a' => a_messages a' = append_all (benchMessages entropy (clock r) drawn count) (a_messages (store_view s))).
Proof.
  intros Hi Hn Hf. apply (passes_call (CAppend (benchMessages entropy (clock r) drawn count))); [done|by apply bench_appendable|by eexists _, _, _|].
  intros x a'. simpl. unfold append_spec. rewrite decide_False.
  - intros [-> ->]. by exists tt.
  - intros (msg & Hin & [rec Hrec])%Exists_exists. rewrite Hf in Hrec; [done|]. apply list_elem_of_fmap. by exists msg.
Qed.

Lemma prepare_passes s : store_inv s → passes (prepare clock) s (fun _ a' => a_messages a' = a_messages (store_view s)).
Proof.
  intros Hi. apply passes_must, (passes_call (CSaveQueue (bench_queue clock))); [done..|]. intros r a' [-> ->]. by exists tt.
Qed.

Lemma size_append_all ms m : NoDup (msg_ID <$> ms) → (∀ id, id ∈ msg_ID <$> ms → m !! id = None) →
  size (append_all ms m) = (length ms + size m)%nat.
Proof.
  unfold append_all. revert m. induction ms as [|msg ms IH]; intros m Hn Hf; [done|]. apply NoDup_cons in Hn as [Hx Hn]. cbn [foldl].
  rewrite IH; [|done|].
  - rewrite map_size_insert_None; [simpl; lia|]. apply Hf. rewrite fmap_cons. apply elem_of_cons. by left.
  - intros id Hid. rewrite lookup_insert_ne by (intros <-; done). apply Hf. rewrite fmap_cons. apply elem_of_cons. by right.
Qed.

Lemma append_loop_passes batch n r drawn s : store_inv s → NoDup (drawn_ids batch n r drawn) →
  (∀ id, id ∈ drawn_ids batch n r drawn → a_messages (store_view s) !! id = None) →
  passes (append_loop clock entropy batch n r drawn) s
    (fun _ a' => size (a_messages a') = (n * batch + size (a_messages (store_view s)))%nat).
Proof.
  revert r drawn s. induction n as [|n IH]; intros r drawn s Hi Hn Hf; [by apply passes_ret|]. cbn [append_loop].
  cbn [drawn_ids] in Hn, Hf. apply NoDup_app in Hn as (Hn1 & Hdis & Hn2).
  eapply passes_bind; [apply passes_must, append_passes; [done..|]; intros id Hid; apply Hf, elem_of_app; by left|].
  intros u s' Hi' Heq. simpl in Heq. destruct (IH (Datatypes.S r) (drawn + batch)%nat s' Hi' Hn2) as (Hi'' & x & Hx & HQ).
  - intros id Hid. rewrite Heq, lookup_append_all; [|intros Hin; by apply (Hdis id)]. apply Hf, elem_of_app. by right.
  - split; [done|]. exists x. split; [done|]. rewrite HQ, Heq, size_append_all; [|done|].
    + unfold benchMessages. rewrite length_fmap, length_seq. lia.
    + intros id Hid. apply Hf, elem_of_app. by left.
Qed.

Lemma filled_passes n s : store_inv s → a_messages (store_view s) = ∅ → clock 1 ≤ clock 2 + second →
  NoDup (drawn_ids (n + 1) 1 1 0) →
  passes (filled clock entropy n) s (fun now a' => now = clock 2 + second ∧ waiting a' = (n + 1)%nat).
Proof.
  intros Hi He Hclk Hn. simpl in Hn. rewrite app_nil_r in Hn. unfold filled. eapply passes_bind; [by apply prepare_passes|].
  intros u s1 Hi1 H1. simpl in H1. rewrite He in H1.
  eapply passes_bind; [apply passes_must, append_passes; [done..|]; intros id _; by rewrite H1, lookup_empty|].
  intros u' s2 Hi2 H2. simpl in H2. apply passes_ret; [done|]. split; [done|]. unfold waiting. rewrite H2, H1.
  rewrite (size_filter_list _ _ (msg_ID <$> benchMessages entropy (clock 1) 0 (n + 1))); [|done|].
  - unfold benchMessages. by rewrite !length_fmap, length_seq.
  - intros id. split.
    + intros (msg & -> & Hin)%list_elem_of_fmap. exists (mkRecord msg zeroTime ""). rewrite lookup_append_all_in by done.
      split; [done|]. apply list_elem_of_fmap in Hin as (i & -> & _). split; [done|]. unfold claimable. simpl.
      unfold After. apply negb_true_iff, Z.ltb_ge. simpl. done.
    + intros (x & Hx & _). destruct (decide (id ∈ msg_ID <$> benchMessages entropy (clock 1) 0 (n + 1))) as [|Hni]; [done|].
      by rewrite lookup_append_all, lookup_empty in Hx.
Qed.

(** C35: The benchmarks run to their end on every store that meets the contract
    and takes their calls, whatever the number of iterations: none stops at
    [b.Fatal].  The appending ones leave one message per draw; the claiming ones
    find a message in every turn and leave exactly the one that was put in
    beyond the number of iterations.  The ids drawn are distinct, and the clock
    does not go back by more than a second while the store is filled. *)
Theorem benchmarks_complete n s :
  store_inv s → a_messages (store_view s) = ∅ → clock 1 ≤ clock 2 + second →
  NoDup (drawn_ids 1 n 1 0) → NoDup (drawn_ids 32 n 1 0) → NoDup (drawn_ids (n + 1) 1 1 0) →
  (∀ batch, batch ∈ [1; 32]%nat →
     passes (benchmarkAppend clock entropy batch n) s (fun _ a' => size (a_messages a') = (n * batch)%nat)) ∧
  passes (benchmarkClaim clock entropy n) s (fun _ a' => waiting a' = 1%nat) ∧
  passes (benchmarkDeliveryCycle clock entropy n) s (fun _ a' => waiting a' = 1%nat).
Proof.
  intros Hi He Hclk Hd1 Hd32 Hd. split.
  - intros batch Hb. assert (NoDup (drawn_ids batch n 1 0)) as Hn.
    { apply elem_of_cons in Hb as [->|Hb]; [done|]. apply list_elem_of_singleton in Hb as ->. done. }
    unfold benchmarkAppend. eapply passes_bind; [by apply prepare_passes|]. intros u s1 Hi1 H1. simpl in H1. rewrite He in H1.
    destruct (append_loop_passes batch n 1 0 s1 Hi1 Hn) as (Hi2 & x & Hx & HQ); [intros id _; by rewrite H1, lookup_empty|].
    split; [done|]. exists x. split; [done|]. rewrite HQ, H1, map_size_empty. lia.
  - assert (∀ turn : Time → prog S unit, (∀ s, store_inv s → (0 < waiting (store_view s))%nat →
        passes (turn (clock 2 + second)) s (fun _ a' => waiting (store_view s) = Datatypes.S (waiting a'))) →
      passes (now ← filled clock entropy n; for_each (fun _ => turn now) (seq 0 n)) s (fun _ a' => waiting a' = 1%nat)) as Hloop.
    { intros turn Hturn. eapply passes_bind; [by apply filled_passes|]. intros now s1 Hi1 [-> Hw].
      destruct (loop_passes (turn (clock 2 + second)) n s1 Hturn Hi1 ltac:(lia)) as (Hi2 & x & Hx & HQ).
      split; [done|]. exists x. split; [done|]. lia. }
    split; apply (Hloop (fun now => _)); intros s1 Hi1 Hw1.
    + eapply passes_bind; [by apply bench_claim_passes|]. intros msg s2 Hi2 [HQ _]. by apply passes_ret.
    + eapply passes_bind; [by apply bench_claim_passes|]. intros msg s2 Hi2 [HQ Hrec].
      apply passes_must. destruct (acknowledge_passes (msg_ID msg) s2 Hi2 Hrec) as (Hi3 & x & Hx & Heq).
      split; [done|]. exists x. split; [done|]. simpl in *. by rewrite Heq.
Qed.
End runs.

(** * Both stores *)

Lemma bench_text_ok : text_ok {["tenant" := "acme"]}.
Proof. unfold text_ok. by apply map_Forall_singleton. Qed.

(** The SQLite store takes the calls as long as the clock can be written. *)
Lemma sqlite_accepts clock entropy : (∀ n, time_in_range (clock n)) →
  time_in_range (clock 2%nat + second) → time_in_range (clock 2%nat + second + minute) → clock 2%nat + second + minute ≠ zeroTime →
  ∀ A a (c : call A), bench_call clock entropy c → service_pre a c.
Proof.
  intros Hc Hn Hl Hz A a c Hb. unfold service_pre. destruct c; simpl in Hb; try done.
  - subst. split; [done|]. split; [apply Hc|by vm_compute].
  - destruct Hb as (r & drawn & count & ->). split; [|done]. simpl. unfold benchMessages. apply Forall_fmap, Forall_true.
    intros i. split; [|done]. split; [exact bench_text_ok|]. split; [apply Hc|]. split; apply Hc.
  - subst. done.
  - subst. done.
Qed.

Module BenchSamples.
Definition clock (n : nat) : Time := 1700000000 * second + Z.of_nat n mod 1000.
Definition entropy (i : nat) : list N := [N.of_nat i; 7; 42; 0; 255; 19; 3; 88; 4; 200]%N.
Lemma clock_range n : time_in_range (clock n).
Proof. unfold clock, time_in_range, zeroTime, second, day_ns, second_ns. pose proof (Z.mod_pos_bound (Z.of_nat n) 1000). lia. Qed.
Lemma distinct_1 : NoDup (drawn_ids clock entropy 1 3 1 0).
Proof. apply (bool_decide_eq_true_1 _). vm_compute. reflexivity. Qed.
Lemma distinct_32 : NoDup (drawn_ids clock entropy 32 3 1 0).
Proof. apply (bool_decide_eq_true_1 _). vm_compute. reflexivity. Qed.
Lemma distinct_all : NoDup (drawn_ids clock entropy 4 1 1 0).
Proof. apply (bool_decide_eq_true_1 _). vm_compute. reflexivity. Qed.
Lemma sq_service : service_inv sq_New.
Proof. split; [exact sq_New_inv|]. by constructor. Qed.
End BenchSamples.

(** Three turns on the in-memory store and on SQLite. *)
Lemma benchmarks_complete_witness :
  passes (HS := Memory_contract) (benchmarkClaim BenchSamples.clock BenchSamples.entropy 3) mem_New
    (fun _ a' => waiting BenchSamples.clock a' = 1%nat) ∧
  passes (HS := Sqlite_service) (benchmarkDeliveryCycle BenchSamples.clock BenchSamples.entropy 3) sq_New
    (fun _ a' => waiting BenchSamples.clock a' = 1%nat).
Proof.
  split.
  - apply (benchmarks_complete (HS := Memory_contract) BenchSamples.clock BenchSamples.entropy (fun _ _ _ _ => I) 3 mem_New);
      [exact mem_New_inv|done|by vm_compute|exact BenchSamples.distinct_1|exact BenchSamples.distinct_32|exact BenchSamples.distinct_all].
  - apply (benchmarks_complete (HS := Sqlite_service) BenchSamples.clock BenchSamples.entropy);
      [|exact BenchSamples.sq_service|vm_compute; reflexivity|by vm_compute|exact BenchSamples.distinct_1|exact BenchSamples.distinct_32
       |exact BenchSamples.distinct_all].
    apply sqlite_accepts; [exact BenchSamples.clock_range|by vm_compute..].
Defined.
