(* ===== verification/Erp.v ===== *)
(** The demonstration around the broker: [internal/erp] and [cmd/erpsim].

    A generator makes the events of a nightly export, a topology routes them to
    one queue for each kind of event and to an audit queue, and five consumers
    apply them to the systems behind them.  The consumers share nothing; each
    guards its state with a mutex, so one call of [Handle] is one step here.

    Arguments of the model: the stream behind a [*rand.Rand] ([rand]: its
    [IntN], [Float64] and [rand.New(rand.NewPCG(...))]), the clock, and
    encoding/json between payloads and their text. *)

From S2P Require Import Prelude Errors Message Broker Storage TimeText Float64 Retry Engine Json.

Local Open Scope Z_scope.

Module erp.

(** * payloads.go *)

Record CustomerExport := mkCustomerExport {
  ce_CustomerID : string;
  ce_Name : string;
  ce_VatID : string;
  ce_Country : string;
  ce_CreditLimit : float64;
  ce_PaymentTermsDays : Z;
  ce_Blocked : bool;
  ce_ExportedAt : Time;
}.

Record InvoiceLine := mkInvoiceLine {
  il_Position : Z;
  il_SKU : string;
  il_Description : string;
  il_Quantity : float64;
  il_UnitPriceNet : float64;
  il_TaxRate : float64;
}.

Record Invoice := mkInvoice {
  in_InvoiceID : string;
  in_CustomerID : string;
  in_Currency : string;
  in_IssuedOn : string;
  in_DueOn : string;
  in_PurchaseOrder : string;
  in_Lines : list InvoiceLine;
}.

Record InventoryAdjustment := mkInventoryAdjustment {
  ia_SKU : string;
  ia_Warehouse : string;
  ia_Delta : Z;
  ia_Reason : string;
  ia_Reference : string;
  ia_RecordedAt : Time;
}.

Record EmployeeChange := mkEmployeeChange {
  em_EmployeeID : string;
  em_CostCenter : string;
  em_Department : string;
  em_Status : string;
  em_WeeklyHours : float64;
  em_ValidFrom : string;
  em_ValidTo : string;
}.

Definition TotalNet (i : Invoice) : float64 :=
  foldl (fun total line => fadd total (fmul (il_Quantity line) (il_UnitPriceNet line))) (Fin 0 0) (in_Lines i).

(** What [publication] encodes; the last is a [map[string]any]. *)
Inductive payload :=
| PayCustomer (c : CustomerExport)
| PayInvoice (i : Invoice)
| PayInventory (a : InventoryAdjustment)
| PayEmployee (e : EmployeeChange)
| PayMap (members : list (string * json)).

(** * Random numbers *)

Record rand (R : Type) := mkRand {
  IntN : Z → R → Z * R;
  Float64 : R → float64 * R;
  NewPCG : Z → Z → R;
}.
Arguments IntN {R}. Arguments Float64 {R}. Arguments NewPCG {R}.

(** The documented range of [IntN]. *)
Definition rand_ok {R} (rnd : rand R) : Prop := ∀ n r, 0 < n → 0 ≤ (IntN rnd n r).1 < n.

(** * generator.go *)

Definition ExchangeEvents : string := "erp.events".
Definition RoutingCustomerCreated : string := "customer.created".
Definition RoutingCustomerUpdated : string := "customer.updated".
Definition RoutingInvoiceIssued : string := "invoice.issued".
Definition RoutingInventoryAdjust : string := "inventory.adjusted".
Definition RoutingEmployeeModified : string := "employee.modified".

Definition companySuffixes : list string := ["GmbH"; "AG"; "SE"; "KG"; "BV"; "Sarl"].
Definition companyNames : list string :=
  ["Nordwind Logistik"; "Rheinstahl"; "Alpenblick Handel"; "Hafenkontor"; "Weserwerk"; "Donaufracht"].
Definition countries : list string := ["DE"; "AT"; "CH"; "NL"; "FR"].
Definition currencies : list string := ["EUR"; "EUR"; "EUR"; "CHF"; "USD"].
Definition warehouses : list string := ["DE-01"; "DE-02"; "AT-01"; "NL-03"].
Definition movementReasons : list string := ["goods_receipt"; "goods_issue"; "stocktake"; "scrap"; "return"].
Definition skus : list string := ["PALLET-EUR"; "SHRINK-WRAP"; "CRATE-120"; "LABEL-A4"; "STRAP-25MM"].
Definition departments : list string := ["Logistics"; "Finance"; "Procurement"; "Field Service"].
Definition employeeStates : list string := ["active"; "active"; "active"; "on_leave"; "terminated"].

(** A decimal literal. *)
Definition literal (n d : Z) : float64 := fdiv (of_int n) (of_int d).

(** ** Dates *)

(** [t.Date()], in UTC *)
Definition date_of (t : Time) : Z * Z * Z :=
  let '(year, yday) := year_day ((t - zeroTime) / day_ns) in
  let '(month, day) := month_of (month_lengths (is_leap year)) 1 yday in
  (year, month, day).

(** [t.Format(time.DateOnly)] *)
Definition DateOnly (t : Time) : string :=
  let '(year, month, day) := date_of t in
  appendInt year 4 +:+ "-" +:+ appendInt month 2 +:+ "-" +:+ appendInt day 2.

(** [t.AddDate(0, 0, n)] and [t.AddDate(0, 1, 0)], in UTC: a day past the end
    of the month runs on into the next. *)
Definition AddDays (n : Z) (t : Time) : Time := t + n * day_ns.
Definition AddMonth (t : Time) : Time :=
  let '(year, month, day) := date_of t in
  let '(year, month) := if month =? 12 then (year + 1, 1) else (year, month + 1) in
  make_time year month day 0 0 0 0 + (t - zeroTime) mod day_ns.

Section generator.
Context {R : Type} (rnd : rand R) (clock : nat → Time) (Marshal : payload → result error string).

Record Generator := mkGenerator {
  g_random : R;
  g_ticks : nat;
}.

Definition NewGenerator (seed : Z) : Generator := mkGenerator (NewPCG rnd seed (Z.lxor seed 0x9e3779b97f4a7c15)) 0.

Definition g_IntN (n : Z) : prog Generator Z := fun g =>
  let '(i, r) := IntN rnd n (g_random g) in (mkGenerator r (g_ticks g), Ok i).
Definition g_clock : prog Generator Time := fun g =>
  (mkGenerator (g_random g) (1 + g_ticks g), Ok (clock (g_ticks g))).

(** Indexing panics out of range. *)
Definition pick {A} (values : list A) : prog Generator A :=
  i ← g_IntN (Z.of_nat (length values));
  match values !! Z.to_nat i with
  | Some v => mret v
  | None => fails (RuntimePanic "runtime error: index out of range")
  end.

Definition publication (routingKey : string) (p : payload) (headers : gmap string string) : Publication :=
  let encoded := match Marshal p with Ok text => text | Err _ => "{}" end in
  mkPublication ExchangeEvents routingKey encoded headers "".

Definition tenant_headers (erp_module : string) : gmap string string :=
  <["erp-module" := erp_module]> {["tenant" := "acme"]}.

(** The record an event carries, and its routing key. *)
Definition new_customer : prog Generator (string * CustomerExport) :=
  n ← g_IntN 899999;
  name ← pick companyNames;
  suffix ← pick companySuffixes;
  country ← pick countries;
  limit ← g_IntN 40;
  terms ← pick [14; 30; 45; 60];
  blocked ← g_IntN 20;
  exported ← g_clock;
  vat ← (if decide (country = "DE")
         then v ← g_IntN 899999999; mret ("DE" +:+ appendInt (100000000 + v) 9)
         else mret "");
  updated ← g_IntN 3;
  mret (if 0 <? updated then RoutingCustomerUpdated else RoutingCustomerCreated,
    mkCustomerExport ("C-" +:+ appendInt (100000 + n) 6) (name +:+ " " +:+ suffix) vat country
      (of_int ((limit + 1) * 2500)) terms (blocked =? 0) exported).

Definition Generator_CustomerExport : prog Generator Publication :=
  '(routingKey, customer) ← new_customer;
  mret (publication routingKey (PayCustomer customer) (tenant_headers "SD")).

(** The loop over the lines of an invoice. *)
Fixpoint invoice_lines (count : nat) (position : Z) (lines : list InvoiceLine) : prog Generator (list InvoiceLine) :=
  match count with
  | O => mret lines
  | S count =>
      sku ← pick skus;
      quantity ← g_IntN 48;
      price ← g_IntN 9000;
      tax ← pick [literal 7 100; literal 19 100];
      invoice_lines count (position + 1) (lines ++ [mkInvoiceLine position sku "" (of_int (1 + quantity))
        (fdiv (of_int (price + 100)) (of_int 100)) tax])
  end.

Definition new_invoice : prog Generator Invoice :=
  issued ← g_clock;
  n ← g_IntN 4;
  lines ← invoice_lines (Z.to_nat (1 + n)) 1 [];
  id ← g_IntN 8999999;
  customer ← g_IntN 899999;
  currency ← pick currencies;
  order ← g_IntN 99999;
  mret (mkInvoice ("INV-" +:+ appendInt (1000000 + id) 7) ("C-" +:+ appendInt (100000 + customer) 6) currency
    (DateOnly issued) (DateOnly (AddDays 30 issued)) ("PO-" +:+ appendInt order 5) lines).

Definition Generator_Invoice : prog Generator Publication :=
  invoice ← new_invoice;
  mret (publication RoutingInvoiceIssued (PayInvoice invoice) (tenant_headers "FI")).

Definition new_adjustment : prog Generator InventoryAdjustment :=
  reason ← pick movementReasons;
  n ← g_IntN 80;
  let delta := 1 + n in
  let delta := if decide (reason = "goods_issue" ∨ reason = "scrap") then - delta else delta in
  sku ← pick skus;
  warehouse ← pick warehouses;
  reference ← g_IntN 99999;
  recorded ← g_clock;
  mret (mkInventoryAdjustment sku warehouse delta reason ("DN-" +:+ appendInt reference 5) recorded).

Definition Generator_InventoryAdjustment : prog Generator Publication :=
  adjustment ← new_adjustment;
  mret (publication RoutingInventoryAdjust (PayInventory adjustment) (tenant_headers "MM")).

Definition new_employee : prog Generator EmployeeChange :=
  now ← g_clock;
  days ← g_IntN 30;
  let validFrom := AddDays days now in
  n ← g_IntN 98999;
  center ← g_IntN 8999;
  department ← pick departments;
  status ← pick employeeStates;
  hours ← pick [of_int 20; of_int 30; literal 385 10; of_int 40];
  mret (mkEmployeeChange ("E-" +:+ appendInt (1000 + n) 6) ("CC-" +:+ appendInt (1000 + center) 4) department status
    hours (DateOnly validFrom) (if decide (status = "terminated") then DateOnly (AddMonth validFrom) else "")).

Definition Generator_EmployeeChange : prog Generator Publication :=
  employee ← new_employee;
  mret (publication RoutingEmployeeModified (PayEmployee employee) (tenant_headers "HR")).

Definition Generator_MalformedInvoice : prog Generator Publication :=
  issued ← g_clock;
  mret (publication RoutingInvoiceIssued
    (PayMap [("invoice_id", JString "10422"); ("customer_id", JString "C-100244"); ("currency", JString "GBP");
             ("issued_on", JString (DateOnly issued)); ("lines", JArray [])])
    (<["export-file" := "legacy_invoice_batch.csv"]> (tenant_headers "FI"))).
End generator.

(** * consumers.go *)

Definition ErrGatewayUnavailable : error := errorString "erp gateway unavailable".
Definition ErrUnsupportedCurrency : error := errorString "ledger does not support this currency".
Definition ErrUnknownCostCenter : error := errorString "cost center is not present in the target system".

Record DownstreamOptions := mkDownstreamOptions {
  do_Name : string;
  do_Latency : Duration;
  do_FailureRate : float64;
  do_Seed : Z;
}.

Record Stats := mkStats {
  sa_Name : string;
  sa_Handled : Z;
  sa_Failed : Z;
}.

Section consumers.
Context {R : Type} (rnd : rand R).
(** [json.Unmarshal] into each type of payload. *)
Context (UnmarshalCustomer : string → result error CustomerExport) (UnmarshalInvoice : string → result error Invoice).
Context (UnmarshalAdjustment : string → result error InventoryAdjustment).
Context (UnmarshalEmployee : string → result error EmployeeChange).

Record Downstream := mkDownstream {
  ds_name : string;
  ds_latency : Duration;
  ds_failureRate : float64;
  ds_random : R;
  ds_handled : Z;
  ds_failed : Z;
}.

Definition NewDownstream (opts : DownstreamOptions) : Downstream :=
  mkDownstream (do_Name opts) (do_Latency opts) (do_FailureRate opts)
    (NewPCG rnd (do_Seed opts) (Z.lxor (do_Seed opts) 0x5851f42d4c957f2d)) 0 0.

Definition Downstream_Stats (d : Downstream) : Stats := mkStats (ds_name d) (ds_handled d) (ds_failed d).

Definition add_handled (d : Downstream) : Downstream :=
  mkDownstream (ds_name d) (ds_latency d) (ds_failureRate d) (ds_random d) (wrap64 (ds_handled d + 1)) (ds_failed d).
Definition add_failed (d : Downstream) : Downstream :=
  mkDownstream (ds_name d) (ds_latency d) (ds_failureRate d) (ds_random d) (ds_handled d) (wrap64 (ds_failed d + 1)).

Definition unlucky : prog Downstream bool := fun d =>
  if fle (ds_failureRate d) (Fin 0 0) then (d, Ok false)
  else
    let '(x, r) := Float64 rnd (ds_random d) in
    (mkDownstream (ds_name d) (ds_latency d) (ds_failureRate d) r (ds_handled d) (ds_failed d),
     Ok (flt x (ds_failureRate d))).

(** The wait for the timer; [ctx_err] is the error of the context when it ends
    before the timer does. *)
Definition await (ctx_err : option error) : prog Downstream unit := fun d =>
  match ctx_err with
  | Some err => if 0 <? ds_latency d then (d, Err err) else (d, Ok tt)
  | None => (d, Ok tt)
  end.

Definition refuse_call : prog Downstream unit := fun d =>
  (add_failed d, Err (wrapError (ds_name d +:+ ": ") ErrGatewayUnavailable "")).

Definition simulateCall (ctx_err : option error) : prog Downstream unit :=
  await ctx_err ≫= fun _ =>
  bad ← unlucky;
  if bad : bool then refuse_call else mret tt.

(** Each consumer has a downstream system and its own state [X]. *)
Record consumer (X : Type) := mkConsumer {
  co_down : Downstream;
  co_state : X;
}.
Arguments mkConsumer {X}. Arguments co_down {X}. Arguments co_state {X}.

(** The embedded [*Downstream]. *)
Definition downstream {X A} (p : prog Downstream A) : prog (consumer X) A := fun c =>
  let '(d, r) := p (co_down c) in (mkConsumer d (co_state c), r).
Definition update {X} (f : X → X) : prog (consumer X) unit := modifies (fun c => mkConsumer (co_down c) (f (co_state c))).

Definition CustomerSync : Type := consumer (gmap string CustomerExport).
Definition NewCustomerSync (opts : DownstreamOptions) : CustomerSync := mkConsumer (NewDownstream opts) ∅.
Definition CustomerSync_Handle (ctx_err : option error) (delivery : Delivery) : prog CustomerSync unit :=
  match UnmarshalCustomer (msg_Payload (dv_Message delivery)) with
  | Err err => fails (Permanent (wrapError "customer-sync: undecodable payload: " err ""))
  | Ok customer =>
      downstream (simulateCall ctx_err) ≫= fun _ =>
      update (insert (ce_CustomerID customer) customer) ≫= fun _ =>
      downstream (modifies add_handled)
  end.
Definition CustomerSync_Count (c : CustomerSync) : nat := size (co_state c).

(** The supported currencies and the totals. *)
Record ledger := mkLedger {
  le_supported : gset string;
  le_total : gmap string float64;
}.
Definition InvoiceLedger : Type := consumer ledger.
Definition NewInvoiceLedger (opts : DownstreamOptions) (supportedCurrencies : list string) : InvoiceLedger :=
  mkConsumer (NewDownstream opts) (mkLedger (list_to_set supportedCurrencies) ∅).
(** [l.total[currency] += amount] *)
Definition add_total (currency : string) (amount : float64) (l : ledger) : ledger :=
  mkLedger (le_supported l) (<[currency := fadd (default (Fin 0 0) (le_total l !! currency)) amount]> (le_total l)).
Definition InvoiceLedger_Handle (ctx_err : option error) (delivery : Delivery) : prog InvoiceLedger unit :=
  match UnmarshalInvoice (msg_Payload (dv_Message delivery)) with
  | Err err => fails (Permanent (wrapError "invoice-ledger: undecodable payload: " err ""))
  | Ok invoice =>
      supported ← (gets (fun l => le_supported (co_state l)) : prog InvoiceLedger _);
      if bool_decide (supported ≠ ∅) && bool_decide (in_Currency invoice ∉ supported)
      then fails (Permanent (wrapError "invoice-ledger: " ErrUnsupportedCurrency (": " +:+ in_Currency invoice)))
      else
        downstream (simulateCall ctx_err) ≫= fun _ =>
        update (add_total (in_Currency invoice) (TotalNet invoice)) ≫= fun _ =>
        downstream (modifies add_handled)
  end.
Definition Totals (l : InvoiceLedger) : gmap string float64 := le_total (co_state l).

Definition InventoryProjection : Type := consumer (gmap string Z).
Definition NewInventoryProjection (opts : DownstreamOptions) : InventoryProjection := mkConsumer (NewDownstream opts) ∅.
Definition stock_key (warehouse sku : string) : string := warehouse +:+ "/" +:+ sku.
Definition add_stock (key : string) (delta : Z) (stock : gmap string Z) : gmap string Z :=
  <[key := wrap64 (default 0 (stock !! key) + delta)]> stock.
Definition InventoryProjection_Handle (ctx_err : option error) (delivery : Delivery) : prog InventoryProjection unit :=
  match UnmarshalAdjustment (msg_Payload (dv_Message delivery)) with
  | Err err => fails (Permanent (wrapError "inventory-sync: undecodable payload: " err ""))
  | Ok adjustment =>
      downstream (simulateCall ctx_err) ≫= fun _ =>
      update (add_stock (stock_key (ia_Warehouse adjustment) (ia_SKU adjustment)) (ia_Delta adjustment)) ≫= fun _ =>
      downstream (modifies add_handled)
  end.
Definition Stock (warehouse sku : string) (p : InventoryProjection) : Z :=
  default 0 (co_state p !! stock_key warehouse sku).

Record directory := mkDirectory {
  di_known : gset string;
  di_records : gmap string EmployeeChange;
}.
Definition EmployeeDirectory : Type := consumer directory.
Definition NewEmployeeDirectory (opts : DownstreamOptions) (costCenters : list string) : EmployeeDirectory :=
  mkConsumer (NewDownstream opts) (mkDirectory (list_to_set costCenters) ∅).
Definition put_employee (employee : EmployeeChange) (d : directory) : directory :=
  mkDirectory (di_known d) (<[em_EmployeeID employee := employee]> (di_records d)).
Definition EmployeeDirectory_Handle (ctx_err : option error) (delivery : Delivery) : prog EmployeeDirectory unit :=
  match UnmarshalEmployee (msg_Payload (dv_Message delivery)) with
  | Err err => fails (Permanent (wrapError "employee-sync: undecodable payload: " err ""))
  | Ok employee =>
      known ← (gets (fun d => di_known (co_state d)) : prog EmployeeDirectory _);
      if bool_decide (known ≠ ∅) && bool_decide (em_CostCenter employee ∉ known)
      then fails (Permanent (wrapError "employee-sync: " ErrUnknownCostCenter (": " +:+ em_CostCenter employee)))
      else
        downstream (simulateCall ctx_err) ≫= fun _ =>
        update (put_employee employee) ≫= fun _ =>
        downstream (modifies add_handled)
  end.

Definition AuditLog : Type := consumer (list string).
Definition NewAuditLog (opts : DownstreamOptions) : AuditLog := mkConsumer (NewDownstream opts) [].
Definition audit_entry (msg : Message) : string := msg_RoutingKey msg +:+ " " +:+ msg_ID msg.
Definition AuditLog_Handle (ctx_err : option error) (delivery : Delivery) : prog AuditLog unit :=
  downstream (simulateCall ctx_err) ≫= fun _ =>
  update (fun entries => entries ++ [audit_entry (dv_Message delivery)]) ≫= fun _ =>
  downstream (modifies add_handled).
Definition Entries (a : AuditLog) : nat := length (co_state a).

(** * workflow.go *)

Record Workflow := mkWorkflow {
  wf_Customers : CustomerSync;
  wf_Invoices : InvoiceLedger;
  wf_Inventory : InventoryProjection;
  wf_Employees : EmployeeDirectory;
  wf_Audit : AuditLog;
}.

Record WorkflowOptions := mkWorkflowOptions {
  wo_Seed : Z;
  wo_Latency : Duration;
  wo_GatewayFailure : float64;
  wo_Concurrency : Z;
  wo_Prefetch : Z;
  wo_KnownCostCenters : list string;
}.

Definition WorkflowOptions_withDefaults (o : WorkflowOptions) : WorkflowOptions :=
  mkWorkflowOptions (wo_Seed o) (wo_Latency o) (wo_GatewayFailure o)
    (if wo_Concurrency o <? 1 then 4 else wo_Concurrency o)
    (if wo_Prefetch o <? 1 then 8 else wo_Prefetch o) (wo_KnownCostCenters o).

(** The systems [Subscribe] builds; the seeds are [uint64]. *)
Definition new_workflow (opts : WorkflowOptions) : Workflow :=
  let to name n := mkDownstreamOptions name (wo_Latency opts) (wo_GatewayFailure opts) (wrapU64 (wo_Seed opts + n)) in
  mkWorkflow (NewCustomerSync (to "crm" 1)) (NewInvoiceLedger (to "ledger" 2) ["EUR"; "CHF"])
    (NewInventoryProjection (to "wms" 3)) (NewEmployeeDirectory (to "hr" 4) (wo_KnownCostCenters opts))
    (NewAuditLog (mkDownstreamOptions "audit" 0 (Fin 0 0) (wrapU64 (wo_Seed opts + 5)))).

Definition subscriptions : list (string * string) := [
  ("crm-writer", "customer-sync"); ("ledger-writer", "invoice-processing"); ("wms-projector", "inventory-sync");
  ("hr-replicator", "employee-sync"); ("audit-writer", "audit-log")].

Definition Workflow_Stats (w : Workflow) : list Stats := [
  Downstream_Stats (co_down (wf_Customers w)); Downstream_Stats (co_down (wf_Invoices w));
  Downstream_Stats (co_down (wf_Inventory w)); Downstream_Stats (co_down (wf_Employees w));
  Downstream_Stats (co_down (wf_Audit w))].

Section workflow.
Context {S : Type} `{StoreOps S} (E : env) (schemas : option (string → string → result error unit)).

(** [if err != nil { return fmt.Errorf(prefix + "%w", err) }] *)
Definition naming {A} (prefix : string) (p : prog (Engine S) A) : prog (Engine S) A := fun e =>
  match p e with
  | (e', Err err) => (e', Err (wrapError prefix err ""))
  | ok => ok
  end.

(** The queues of the workflow: name, schema and binding. *)
Definition declarations : list (string * string * string) := [
  ("customer-sync", "customer", "customer.#"); ("invoice-processing", "invoice", "invoice.#");
  ("inventory-sync", "inventory-adjustment", "inventory.#"); ("employee-sync", "employee", "employee.#");
  ("audit-log", "", "#")].

Definition declare_queue (visibilityTimeout : Duration) (maxAttempts : Z) (d : string * string * string) :
    prog (Engine S) unit :=
  let '(name, schema, routingKey) := d in
  now ← time_Now E;
  naming ("erp: declare " +:+ name +:+ ": ")
    (Engine_DeclareQueue (mkQueueSpec name true maxAttempts visibilityTimeout schema) now) ≫= fun _ =>
  now ← time_Now E;
  naming ("erp: bind " +:+ name +:+ ": ") (Engine_Bind (mkBindingSpec ExchangeEvents name routingKey) now) ≫= fun _ =>
  mret tt.

Definition DeclareTopology (visibilityTimeout : Duration) (maxAttempts : Z) : prog (Engine S) unit :=
  now ← time_Now E;
  Engine_DeclareExchange (mkExchangeSpec ExchangeEvents ExchangeTopic true) now ≫= fun _ =>
  for_each (declare_queue visibilityTimeout maxAttempts) declarations.

Definition subscribe_one (opts : WorkflowOptions) (s : string * string) : prog (Engine S) unit :=
  naming ("erp: subscribe " +:+ s.1 +:+ ": ")
    (Engine_Subscribe (mkConsumerSpec s.1 s.2 (wo_Concurrency opts) (wo_Prefetch opts) 0 true)) ≫= fun _ =>
  mret tt.

Definition Subscribe (opts : WorkflowOptions) : prog (Engine S) Workflow :=
  let opts := WorkflowOptions_withDefaults opts in
  for_each (subscribe_one opts) subscriptions ≫= fun _ =>
  mret (new_workflow opts).
End workflow.
End consumers.
Arguments mkConsumer {R X}. Arguments co_down {R X}. Arguments co_state {R X}.

Section export.
Context {R : Type} (rnd : rand R) (clock : nat → Time) (Marshal : payload → result error string).
Context {S : Type} `{StoreOps S} (E : env) (schemas : option (string → string → result error unit)).

(** The event of a turn; a customer is made in every turn, and dropped in three
    of four. *)
Definition event (i : nat) : prog (Generator (R := R)) Publication :=
  customer ← Generator_CustomerExport rnd clock Marshal;
  match (i mod 4)%nat with
  | 1%nat => Generator_Invoice rnd clock Marshal
  | 2%nat => Generator_InventoryAdjustment rnd clock Marshal
  | 3%nat => Generator_EmployeeChange rnd clock Marshal
  | _ => mret customer
  end.

(** The loop of [NightlyExport]: how many were published, and the error that
    ended it early. *)
Fixpoint export_loop (n i : nat) (published : Z) (g : Generator) (e : Engine S) :
    Generator * Engine S * (Z * option error) :=
  match n with
  | O => (g, e, (published, None))
  | Datatypes.S n =>
      match event i g with
      | (g, Err err) => (g, e, (published, Some err))
      | (g, Ok pub) =>
          match Engine_Publish E schemas pub e with
          | (e, Err err) => (g, e, (published, Some err))
          | (e, Ok _) => export_loop n (1 + i) (published + 1) g e
          end
      end
  end.

Definition NightlyExport (count : Z) (g : Generator) (e : Engine S) : Generator * Engine S * (Z * option error) :=
  export_loop (Z.to_nat count) 0 0 g e.

(** * cmd/erpsim *)

Record options := mkOptions {
  op_events : Z;
  op_seed : Z;
  op_failureRate : float64;
  op_latency : Duration;
  op_concurrency : Z;
  op_prefetch : Z;
  op_maxAttempts : Z;
  op_schemaDir : string;
  op_logLevel : string;
  op_includeBadFile : bool;
  op_timeout : Duration;
}.

(** The defaults of the flags. *)
Definition default_options : options :=
  mkOptions 200 20250812 (literal 15 100) (2 * millisecond) 4 16 5 "schemas" "warn" true minute.

Definition sim_policy (opts : options) : Policy :=
  mkPolicy (op_maxAttempts opts) (10 * millisecond) (250 * millisecond) (of_int 2) (literal 2 10).

(** The export and the malformed invoice: published and rejected. *)
Definition run_export (opts : options) (g : Generator) (e : Engine S) : Generator * Engine S * result error (Z * Z) :=
  match NightlyExport (op_events opts) g e with
  | (g, e, (_, Some err)) => (g, e, Err err)
  | (g, e, (published, None)) =>
      if op_includeBadFile opts then
        match Generator_MalformedInvoice clock Marshal g with
        | (g, Err err) => (g, e, Err err)
        | (g, Ok pub) =>
            let '(e, r) := Engine_Publish E schemas pub e in
            (g, e, Ok (published, if is_ok r then 0 else 1))
        end
      else (g, e, Ok (published, 0))
  end.

(** The loop over the queues in one turn of [waitForDrain]: [at_ k] is the
    engine when the [k]-th queue is asked. *)
Fixpoint drained (names : list string) (at_ : nat → Engine S) : result error bool :=
  match names with
  | [] => Ok true
  | queue :: rest =>
      match (Engine_Depth queue (at_ 0%nat)).2 with
      | Err err => Err err
      | Ok depth => if d_Total depth =? 0 then drained rest (fun k => at_ (1 + k)%nat) else Ok false
      end
  end.

(** What the select receives: the end of the context, or a tick with the
    states of the engine during the turn, from the listing of the queues on. *)
Inductive waited :=
| CtxDone (err : error)
| Ticked (listed : Engine S) (at_ : nat → Engine S).

(** The loop ends with [None] while it is still waiting. *)
Fixpoint waitForDrain (events : list waited) : option (result error unit) :=
  match events with
  | [] => None
  | CtxDone err :: _ => Some (Err (wrapError "the export did not drain within the timeout: " err ""))
  | Ticked listed at_ :: rest =>
      match drained (Registry_QueueNames (e_registry listed)) at_ with
      | Err err => Some (Err err)
      | Ok true => Some (Ok tt)
      | Ok false => waitForDrain rest
      end
  end.
End export.

Definition ellipsis : string := String (ascii_of_N 226) (String (ascii_of_N 128) (String (ascii_of_N 166) "")).

(** Slicing below zero panics. *)
Definition truncate (value : string) (limit : Z) : result error string :=
  if Z.of_nat (String.length value) <=? limit then Ok value
  else if limit <? 1 then Err (RuntimePanic "runtime error: slice bounds out of range")
  else Ok (str_take (Z.to_nat (limit - 1)) value +:+ ellipsis).
End erp.
