(* ===== verification/ErpProofs.v ===== *)
(** What the demonstration promises ([Erp.v]): the events it generates conform
    to the schemas of their queues and reach exactly the queue of their kind and
    the audit queue; its consumers apply every event they report as handled, in
    order, and no other; and it waits until no queue holds an open message. *)

From S2P Require Import Prelude Errors Message Topic Broker BrokerProofs Storage StoreTraces TimeText TimeProofs Float64 Retry.
From S2P Require Import HeaderJson HeaderProofs Engine EngineProofs Metrics Schema Json Api ApiProofs Erp.

Local Open Scope Z_scope.
Import erp.

(** * The schemas

    The constraints of schemas/*.schema.json on the fields of a payload; the
    formats of dates and times are those of the Go types. *)

Fixpoint all_chars (p : ascii → bool) (s : string) : bool :=
  match s with EmptyString => true | String c s => p c && all_chars p s end.

Definition digit_char (c : ascii) : bool := within 48 57 c.
Definition upper_char (c : ascii) : bool := within 65 90 c.
Definition length_within (lo hi : nat) (s : string) : bool :=
  (lo <=? String.length s)%nat && (String.length s <=? hi)%nat.

(** [^prefix[0-9]{lo,hi}$] *)
Fixpoint id_pattern (prefix : string) (lo hi : nat) (s : string) : bool :=
  match prefix, s with
  | EmptyString, _ => all_chars digit_char s && length_within lo hi s
  | String a prefix, String b s => Ascii.eqb a b && id_pattern prefix lo hi s
  | String _ _, EmptyString => false
  end.

(** [^[A-Z]{2}$], [^[A-Z]{2}[A-Z0-9]{8,12}$] and [^[A-Z]{2}-[0-9]{2}$] *)
Definition country_pattern (s : string) : bool := all_chars upper_char s && length_within 2 2 s.
Definition vat_pattern (s : string) : bool :=
  match s with
  | String a (String b s) =>
      upper_char a && upper_char b && all_chars (fun c => upper_char c || digit_char c) s && length_within 8 12 s
  | _ => false
  end.
Definition warehouse_pattern (s : string) : bool :=
  match s with
  | String a (String b (String c s)) =>
      upper_char a && upper_char b && Ascii.eqb c "-" && all_chars digit_char s && length_within 2 2 s
  | _ => false
  end.
Definition one_of (l : list string) (s : string) : bool := bool_decide (s ∈ l).
(** A field with [omitempty] *)
Definition optional (p : string → bool) (s : string) : bool := str_empty s || p s.

Definition customer_conforms (c : CustomerExport) : bool :=
  id_pattern "C-" 4 8 (ce_CustomerID c) && length_within 1 200 (ce_Name c) && optional vat_pattern (ce_VatID c) &&
  country_pattern (ce_Country c) && fle (Fin 0 0) (ce_CreditLimit c) &&
  (0 <=? ce_PaymentTermsDays c) && (ce_PaymentTermsDays c <=? 180).

Definition line_conforms (l : InvoiceLine) : bool :=
  (1 <=? il_Position l) && length_within 1 40 (il_SKU l) && optional (length_within 0 400) (il_Description l) &&
  flt (Fin 0 0) (il_Quantity l) && fle (Fin 0 0) (il_UnitPriceNet l) &&
  fle (Fin 0 0) (il_TaxRate l) && fle (il_TaxRate l) (of_int 1).

Definition invoice_conforms (i : Invoice) : bool :=
  id_pattern "INV-" 4 10 (in_InvoiceID i) && id_pattern "C-" 4 8 (in_CustomerID i) &&
  one_of ["EUR"; "USD"; "CHF"; "GBP"] (in_Currency i) && optional (length_within 0 64) (in_PurchaseOrder i) &&
  (1 <=? length (in_Lines i))%nat && (length (in_Lines i) <=? 500)%nat && forallb line_conforms (in_Lines i).

Definition adjustment_conforms (a : InventoryAdjustment) : bool :=
  length_within 1 40 (ia_SKU a) && warehouse_pattern (ia_Warehouse a) &&
  one_of ["goods_receipt"; "goods_issue"; "stocktake"; "scrap"; "return"] (ia_Reason a) &&
  optional (length_within 0 64) (ia_Reference a).

Definition employee_conforms (e : EmployeeChange) : bool :=
  id_pattern "E-" 5 8 (em_EmployeeID e) && id_pattern "CC-" 3 6 (em_CostCenter e) &&
  optional (length_within 0 120) (em_Department e) && one_of ["active"; "on_leave"; "terminated"] (em_Status e) &&
  fle (Fin 0 0) (em_WeeklyHours e) && fle (em_WeeklyHours e) (of_int 60).

(** ** Numbers in texts *)

Lemma digit_is_digit n : digit_char (digit n) = true.
Proof.
  unfold digit_char, within, digit. pose proof (Z.mod_pos_bound n 10 ltac:(lia)).
  rewrite N_ascii_embedding by lia. apply andb_true_iff. rewrite !N.leb_le. lia.
Qed.

Lemma all_chars_app p s t : all_chars p (s +:+ t) = all_chars p s && all_chars p t.
Proof. induction s as [|c s IH]; [done|]. rewrite str_app_cons. simpl. by rewrite IH, andb_assoc. Qed.

Lemma digits_all w n : all_chars digit_char (digits w n) = true.
Proof.
  revert n. induction w as [|w IH]; intros n; [done|]. cbn [digits]. rewrite all_chars_app, IH. simpl. by rewrite digit_is_digit.
Qed.

Lemma digits_length w n : String.length (digits w n) = w.
Proof.
  revert n. induction w as [|w IH]; intros n; [done|]. cbn [digits].
  rewrite str_length_app, IH. simpl. lia.
Qed.

(** A prefix and a number of at most [w] digits, printed in [w]. *)
Lemma id_pattern_digits prefix lo hi w n : 0 ≤ n < 10 ^ Z.of_nat w → (lo ≤ w ≤ hi)%nat →
  id_pattern prefix lo hi (prefix +:+ appendInt n w) = true.
Proof.
  intros Hn Hw. rewrite appendInt_digits by done. induction prefix as [|c prefix IH].
  - change ("" +:+ digits w n) with (digits w n). unfold id_pattern. rewrite digits_all. unfold length_within.
    rewrite digits_length. simpl. apply andb_true_iff. rewrite !Nat.leb_le. lia.
  - rewrite str_app_cons. cbn [id_pattern]. by rewrite Ascii.eqb_refl.
Qed.

(** * Generating *)

Section generating.
Context {R : Type} (rnd : rand R) (clock : nat → Time) (Marshal : payload → result error string).
Context (Hrnd : rand_ok rnd).

(** The generator goes on and yields a value that satisfies [Q]. *)
Definition yields {A} (p : prog (Generator (R := R)) A) (Q : A → Prop) : Prop := ∀ g, ∃ g' a, p g = (g', Ok a) ∧ Q a.

Lemma yields_bind {A B} (p : prog (Generator (R := R)) A) (f : A → prog (Generator (R := R)) B) P Q :
  yields p P → (∀ a, P a → yields (f a) Q) → yields (p ≫= f) Q.
Proof.
  intros Hp Hf g. destruct (Hp g) as (g1 & a & E1 & Ha). destruct (Hf a Ha g1) as (g2 & b & E2 & Hb).
  exists g2, b. rewrite bind_eq, E1. done.
Qed.
Lemma yields_ret {A} (a : A) (Q : A → Prop) : Q a → yields (mret a) Q.
Proof. intros HQ g. by exists g, a. Qed.
Lemma yields_clock : yields (g_clock clock) (fun _ => True).
Proof. intros g. by eexists _, _. Qed.
Lemma yields_IntN n : 0 < n → yields (g_IntN rnd n) (fun i => 0 ≤ i < n).
Proof using Hrnd.
  intros Hn g. pose proof (Hrnd n (g_random g) Hn) as Hi. unfold g_IntN. destruct (IntN rnd n (g_random g)) as [i r].
  by exists (mkGenerator r (g_ticks g)), i.
Qed.
Lemma yields_pick {A} (l : list A) : l ≠ [] → yields (pick rnd l) (fun v => v ∈ l).
Proof using Hrnd.
  intros Hl. eapply yields_bind; [apply yields_IntN; destruct l; [done|cbn [length]; lia]|]. intros i Hi.
  destruct (lookup_lt_is_Some_2 l (Z.to_nat i)) as [v Hv]; [cbv beta in Hi; clear -Hi; lia|]. rewrite Hv. apply yields_ret.
  by eapply list_elem_of_lookup_2.
Qed.

(** What holds of all values of a short list or range holds of one of them. *)
Lemma one_of_all {A} (P : A → bool) (l : list A) (v : A) : v ∈ l → forallb P l = true → P v = true.
Proof. intros Hv Hl. rewrite forallb_forall in Hl. apply Hl. by apply list_elem_of_In. Qed.
Lemma range_all (P : Z → bool) (n : nat) (i : Z) :
  0 ≤ i < Z.of_nat n → forallb P (Z.of_nat <$> seq 0 n) = true → P i = true.
Proof.
  intros Hi Hall. apply (one_of_all P (Z.of_nat <$> seq 0 n)); [|done]. apply list_elem_of_fmap. exists (Z.to_nat i).
  split; [lia|]. apply elem_of_seq. lia.
Qed.

Ltac draw x Hx :=
  lazymatch goal with
  | |- yields (mbind _ (g_IntN _ _)) _ => eapply yields_bind; [apply yields_IntN; lia|intros x Hx]
  | |- yields (mbind _ (g_clock _)) _ => eapply yields_bind; [apply yields_clock|intros x Hx]
  | |- yields (mbind _ (pick _ _)) _ => eapply yields_bind; [apply yields_pick; done|intros x Hx]
  end; cbv beta in Hx.
(** A condition on a value picked from a list. *)
Ltac by_list H := apply (one_of_all _ _ _ H); vm_compute; reflexivity.
Ltac conjuncts := repeat lazymatch goal with |- (_ && _) = true => apply andb_true_iff; split end.

Lemma vat_digits n : 0 ≤ n < 10 ^ 9 → vat_pattern ("DE" +:+ appendInt n 9) = true.
Proof.
  intros Hn. rewrite appendInt_digits by done. rewrite !str_app_cons. cbn [vat_pattern].
  change ("" +:+ digits 9 n) with (digits 9 n). unfold length_within. rewrite digits_length.
  assert (∀ s, all_chars digit_char s = true → all_chars (fun c => upper_char c || digit_char c) s = true) as Hmono.
  { induction s as [|c s IH]; [done|]. simpl. intros [Hc Hs]%andb_true_iff. by rewrite Hc, IH, orb_true_r. }
  rewrite (Hmono _ (digits_all 9 n)). done.
Qed.

Lemma customer_yields : yields (new_customer rnd clock) (fun kc =>
  (kc.1 = RoutingCustomerCreated ∨ kc.1 = RoutingCustomerUpdated) ∧ customer_conforms kc.2 = true).
Proof using Hrnd.
  unfold new_customer. draw n Hn. draw name Hname. draw ending Hending. draw country Hc. draw limit Hl.
  draw terms Ht. draw blocked Hb. draw exported He.
  eapply (yields_bind _ _ (fun vat => optional vat_pattern vat = true)).
  { case_decide; [|by apply yields_ret]. draw v Hv. apply yields_ret. unfold optional.
    rewrite vat_digits by lia. apply orb_true_r. }
  intros vat Hvat. draw updated Hu. apply yields_ret. split; [simpl; destruct (0 <? updated); auto|].
  unfold customer_conforms. cbn [snd ce_CustomerID ce_Name ce_VatID ce_Country ce_CreditLimit ce_PaymentTermsDays].
  conjuncts.
  - apply id_pattern_digits; lia.
  - apply (one_of_all (fun name => length_within 1 200 (name +:+ " " +:+ ending)) _ _ Hname).
    apply (one_of_all (fun ending => forallb (fun name => length_within 1 200 (name +:+ " " +:+ ending)) companyNames)
      _ _ Hending). vm_compute. reflexivity.
  - done.
  - by_list Hc.
  - apply (range_all (fun limit => fle (Fin 0 0) (of_int ((limit + 1) * 2500))) 40); [lia|]. vm_compute. reflexivity.
  - by_list Ht.
  - apply (one_of_all (fun t => t <=? 180) _ _ Ht). vm_compute. reflexivity.
Qed.

Lemma lines_yield count position lines : 1 ≤ position → forallb line_conforms lines = true →
  yields (invoice_lines rnd count position lines) (fun ls =>
    forallb line_conforms ls = true ∧ length ls = (length lines + count)%nat).
Proof using Hrnd.
  revert position lines. induction count as [|count IH]; intros position lines Hp Hl; cbn [invoice_lines].
  { apply yields_ret. split; [done|lia]. }
  draw sku Hs. draw quantity Hq. draw price Hr. draw tax Ht.
  set (line := mkInvoiceLine _ _ _ _ _ _). assert (line_conforms line = true) as Hline.
  { unfold line_conforms, line. cbn [il_Position il_SKU il_Description il_Quantity il_UnitPriceNet il_TaxRate]. conjuncts.
    - by apply Z.leb_le.
    - by_list Hs.
    - done.
    - apply (range_all (fun q => flt (Fin 0 0) (of_int (1 + q))) 48); [lia|]. vm_compute. reflexivity.
    - apply (range_all (fun x => fle (Fin 0 0) (fdiv (of_int (x + 100)) (of_int 100))) (Z.to_nat 9000)); [lia|]. vm_compute. reflexivity.
    - by_list Ht.
    - apply (one_of_all (fun t => fle t (of_int 1)) _ _ Ht). vm_compute. reflexivity. }
  assert (forallb line_conforms (lines ++ [line]) = true) as Hls by (rewrite forallb_app; simpl; by rewrite Hl, Hline).
  intros g. destruct (IH (position + 1) (lines ++ [line]) ltac:(lia) Hls g) as (g' & ls & E & Hc & Hn).
  exists g', ls. split; [exact E|]. split; [done|]. rewrite Hn, length_app. simpl. lia.
Qed.

Lemma invoice_yields : yields (new_invoice rnd clock) (fun i => invoice_conforms i = true).
Proof using Hrnd.
  unfold new_invoice. draw issued Hi. draw n Hn.
  eapply yields_bind; [by apply lines_yield|]. intros lines [Hls Hlen]. simpl in Hlen.
  draw number Hid. draw buyer Hc. draw currency Hcur. draw po Ho. apply yields_ret.
  unfold invoice_conforms. cbn [in_InvoiceID in_CustomerID in_Currency in_PurchaseOrder in_Lines]. conjuncts.
  - apply id_pattern_digits; lia.
  - apply id_pattern_digits; lia.
  - by_list Hcur.
  - unfold optional, length_within. rewrite appendInt_digits by lia. rewrite !str_length_app, digits_length. apply orb_true_r.
  - apply Nat.leb_le. lia.
  - apply Nat.leb_le. lia.
  - done.
Qed.

Lemma adjustment_yields : yields (new_adjustment rnd clock) (fun a => adjustment_conforms a = true ∧
  (ia_Delta a < 0 ↔ ia_Reason a = "goods_issue" ∨ ia_Reason a = "scrap")).
Proof using Hrnd.
  unfold new_adjustment. draw reason Hr. draw n Hn. cbv zeta. draw sku Hs. draw warehouse Hw. draw reference Hf. draw t Ht.
  apply yields_ret. split.
  - unfold adjustment_conforms. cbn [ia_SKU ia_Warehouse ia_Reason ia_Reference]. conjuncts.
    + by_list Hs.
    + by_list Hw.
    + by_list Hr.
    + unfold optional, length_within. rewrite appendInt_digits by lia. rewrite !str_length_app, digits_length. apply orb_true_r.
  - simpl. case_decide; split; (done || lia).
Qed.

Lemma employee_yields : yields (new_employee rnd clock) (fun e => employee_conforms e = true).
Proof using Hrnd.
  unfold new_employee. draw now Hnow. draw days Hd. cbv zeta. draw n Hn. draw center Hc. draw department Hdep.
  draw status Hs. draw hours Hh. apply yields_ret.
  unfold employee_conforms. cbn [em_EmployeeID em_CostCenter em_Department em_Status em_WeeklyHours]. conjuncts.
  - apply id_pattern_digits; lia.
  - apply id_pattern_digits; lia.
  - by_list Hdep.
  - by_list Hs.
  - by_list Hh.
  - apply (one_of_all (fun h => fle h (of_int 60)) _ _ Hh). vm_compute. reflexivity.
Qed.
End generating.

(** * The topology *)

(** The declarations on the registry alone; [now k] is its clock. *)
Fixpoint declare_all (timeout : Duration) (maxAttempts : Z) (now : nat → Time) (k : nat)
    (ds : list (string * string * string)) (r : Registry) : result error Registry :=
  match ds with
  | [] => Ok r
  | (name, schema, key) :: ds =>
      '(_, r) ← Registry_DeclareQueue (mkQueueSpec name true maxAttempts timeout schema) (now k) r;
      '(_, r) ← Registry_Bind (mkBindingSpec ExchangeEvents name key) (now (1 + k)%nat) r;
      declare_all timeout maxAttempts now (2 + k) ds r
  end.

Definition declared_registry (timeout : Duration) (maxAttempts : Z) (now : nat → Time) : result error Registry :=
  '(_, r) ← Registry_DeclareExchange (mkExchangeSpec ExchangeEvents ExchangeTopic true) (now 0%nat) NewRegistry;
  declare_all timeout maxAttempts now 1 declarations r.

Section topology.
Context {S : Type} `{HS : Unrestricted S} {HT : TopologyAnswers S} (E : env).
Implicit Types (e : Engine S).

Lemma declares_exchange spec now e x r : einv e → Registry_DeclareExchange spec now (e_registry e) = Ok (x, r) →
  ∃ e', Engine_DeclareExchange spec now e = (e', Ok x) ∧ einv e' ∧ e_registry e' = r ∧ e_walls e' = e_walls e.
Proof using HS HT.
  intros Hi Hr. unfold Engine_DeclareExchange. rewrite bind_eq. unfold registry_do. rewrite Hr. rewrite bind_eq.
  destruct (ex_Durable x); [|by eexists]. unfold on_store. cbn [put_registry e_store].
  destruct (law_SaveExchange x (e_store e) Hi) as [Hs _]. pose proof (ta_SaveExchange x _ Hi) as Ha.
  destruct (st_SaveExchange x (e_store e)) as [s res]. simpl in *. subst res. by eexists.
Qed.

Lemma declares_queue spec now e q r : einv e → Registry_DeclareQueue spec now (e_registry e) = Ok (q, r) →
  ∃ e', Engine_DeclareQueue spec now e = (e', Ok q) ∧ einv e' ∧ e_registry e' = r ∧ e_walls e' = e_walls e.
Proof using HS.
  intros Hi Hr. unfold Engine_DeclareQueue. rewrite bind_eq. unfold registry_do. rewrite Hr. rewrite bind_eq.
  destruct (q_Durable q); [|by eexists]. unfold on_store. cbn [put_registry e_store].
  destruct (law_SaveQueue q (e_store e) Hi) as [Hs [Ha _]].
  destruct (st_SaveQueue q (e_store e)) as [s res]. simpl in *. subst res. by eexists.
Qed.

Lemma declares_binding spec now e b r : einv e → Registry_Bind spec now (e_registry e) = Ok (b, r) →
  ∃ e', Engine_Bind spec now e = (e', Ok b) ∧ einv e' ∧ e_registry e' = r ∧ e_walls e' = e_walls e.
Proof using HS HT.
  intros Hi Hr. unfold Engine_Bind. rewrite bind_eq. unfold registry_do. rewrite Hr. rewrite bind_eq.
  unfold on_store. cbn [put_registry e_store].
  destruct (law_SaveBinding b (e_store e) Hi) as [Hs _]. pose proof (ta_SaveBinding b _ Hi) as Ha.
  destruct (st_SaveBinding b (e_store e)) as [s res]. simpl in *. subst res. by eexists.
Qed.

Lemma naming_Ok {A} prefix (p : prog (Engine S) A) e e' a : p e = (e', Ok a) → naming prefix p e = (e', Ok a).
Proof. intros Hp. unfold naming. by rewrite Hp. Qed.

Lemma declare_all_runs timeout maxAttempts now k ds e r :
  einv e → (∀ i, now (k + i)%nat = env_wall E (e_walls e + i)) →
  declare_all timeout maxAttempts now k ds (e_registry e) = Ok r →
  ∃ e', for_each (declare_queue E timeout maxAttempts) ds e = (e', Ok tt) ∧ einv e' ∧ e_registry e' = r.
Proof using HS HT.
  revert k e. induction ds as [|[[name schema] key] ds IH]; intros k e Hi Hnow Hr; cbn [declare_all for_each] in *.
  { injection Hr as <-. by eexists. }
  apply result_bind_Ok in Hr as ([q r1] & Hq & Hr). apply result_bind_Ok in Hr as ([b r2] & Hb & Hr).
  assert (now k = env_wall E (e_walls e) ∧ now (1 + k)%nat = env_wall E (1 + e_walls e)) as [N0 N1].
  { pose proof (Hnow 0%nat) as H1. pose proof (Hnow 1%nat) as H2. rewrite !Nat.add_0_r in H1.
    rewrite !(Nat.add_comm _ 1) in H2. done. }
  destruct (declares_queue _ _ (tick_wall e) _ _ Hi Hq) as (e1 & E1 & Hi1 & R1 & W1).
  rewrite <-R1 in Hb. destruct (declares_binding _ _ (tick_wall e1) _ _ Hi1 Hb) as (e2 & E2 & Hi2 & R2 & W2).
  rewrite <-R2 in Hr. destruct (IH (2 + k)%nat e2 Hi2) as (e3 & E3 & Hi3 & R3); [|exact Hr|].
  { intros i. transitivity (now (k + (2 + i))%nat); [f_equal; lia|]. rewrite Hnow. f_equal. rewrite W2.
    cbn [tick_wall e_walls]. rewrite W1. cbn [tick_wall e_walls]. lia. }
  exists e3. split; [|done]. rewrite bind_eq. unfold declare_queue at 1. rewrite bind_eq. unfold time_Now at 1.
  rewrite bind_eq, <-N0. erewrite naming_Ok by exact E1. rewrite bind_eq. unfold time_Now at 1.
  rewrite W1. cbn [tick_wall e_walls]. rewrite <-N1. rewrite bind_eq. erewrite naming_Ok by exact E2. exact E3.
Qed.

Lemma DeclareTopology_runs timeout maxAttempts e r :
  einv e → e_registry e = NewRegistry →
  declared_registry timeout maxAttempts (fun i => env_wall E (e_walls e + i)) = Ok r →
  ∃ e', DeclareTopology E timeout maxAttempts e = (e', Ok tt) ∧ einv e' ∧ e_registry e' = r.
Proof using HS HT.
  intros Hi Hnew Hr. unfold declared_registry in Hr. apply result_bind_Ok in Hr as ([x r1] & Hx & Hr).
  rewrite Nat.add_0_r in Hx. rewrite <-Hnew in Hx.
  destruct (declares_exchange _ _ (tick_wall e) _ _ Hi Hx) as (e1 & E1 & Hi1 & R1 & W1). rewrite <-R1 in Hr.
  destruct (declare_all_runs timeout maxAttempts (fun i => env_wall E (e_walls e + i)) 1 declarations e1 r Hi1)
    as (e2 & E2 & Hi2 & R2); [|exact Hr|].
  { intros i. cbv beta. f_equal. rewrite W1. cbn [tick_wall e_walls]. lia. }
  exists e2. split; [|done]. unfold DeclareTopology. rewrite bind_eq. unfold time_Now at 1. by rewrite bind_eq, E1.
Qed.
End topology.

(** The queue of a kind of event, as declared. *)
Definition erp_queue (timeout : Duration) (maxAttempts : Z) (name schema : string) (created : Time) : Queue :=
  mkQueue (mkQueueSpec name true maxAttempts timeout schema) created.

(** Where the events go: the key, and the queue with its schema. *)
Definition destinations : list (string * (string * string)) := [
  (RoutingCustomerCreated, ("customer-sync", "customer")); (RoutingCustomerUpdated, ("customer-sync", "customer"));
  (RoutingInvoiceIssued, ("invoice-processing", "invoice"));
  (RoutingInventoryAdjust, ("inventory-sync", "inventory-adjustment"));
  (RoutingEmployeeModified, ("employee-sync", "employee"))].

Lemma declared_routes timeout maxAttempts now : 0 < timeout → 1 ≤ maxAttempts →
  ∃ r, declared_registry timeout maxAttempts now = Ok r ∧
  Forall (fun '(key, (name, schema)) => ∃ t1 t2, Registry_Route ExchangeEvents key r =
    Ok [erp_queue timeout maxAttempts "audit-log" "" t1; erp_queue timeout maxAttempts name schema t2]) destinations.
Proof.
  intros Ht Hm. destruct timeout as [|t|]; [lia| |lia]. destruct maxAttempts as [|[m|m|]|]; try lia.
  all: eexists; split; [vm_compute; reflexivity|].
  all: repeat apply Forall_cons_2; try apply Forall_nil_2; eexists _, _; vm_compute; reflexivity.
Qed.

(** The payload conforms to the schema of that name. *)
Definition conforms (schema : string) (p : payload) : Prop :=
  match p with
  | PayCustomer c => schema = "customer" ∧ customer_conforms c = true
  | PayInvoice i => schema = "invoice" ∧ invoice_conforms i = true
  | PayInventory a => schema = "inventory-adjustment" ∧ adjustment_conforms a = true
  | PayEmployee e => schema = "employee" ∧ employee_conforms e = true
  | PayMap _ => False
  end.

(** An event of the export: its key leads to a queue whose schema its payload
    conforms to. *)
Definition exported (Marshal : payload → result error string) (pub : Publication) : Prop :=
  ∃ key name schema p headers, (key, (name, schema)) ∈ destinations ∧ conforms schema p ∧
    pub = publication Marshal key p headers.

Lemma event_yields {R} (rnd : rand R) clock Marshal i : rand_ok rnd →
  yields (event rnd clock Marshal i) (exported Marshal).
Proof.
  intros Hrnd. unfold event.
  assert (∀ j key name schema p headers, destinations !! j = Some (key, (name, schema)) → conforms schema p →
    exported Marshal (publication Marshal key p headers)) as Hexp.
  { intros j key name schema p headers Hj Hc. exists key, name, schema, p, headers. split; [|done].
    by eapply list_elem_of_lookup_2. }
  eapply (yields_bind _ _ (exported Marshal)).
  { unfold Generator_CustomerExport. eapply yields_bind; [by apply customer_yields|]. intros [key c] [Hk Hc].
    apply yields_ret. simpl in *. destruct Hk as [->| ->]; [by eapply (Hexp 0%nat)|by eapply (Hexp 1%nat)]. }
  intros pub Hpub. destruct (i mod 4)%nat as [|[|[|[|n]]]]; [by apply yields_ret| | | |by apply yields_ret].
  - unfold Generator_Invoice. eapply yields_bind; [by apply invoice_yields|]. intros v Hv. apply yields_ret.
    by eapply (Hexp 2%nat).
  - unfold Generator_InventoryAdjustment. eapply yields_bind; [by apply adjustment_yields|]. intros v [Hv _].
    apply yields_ret. by eapply (Hexp 3%nat).
  - unfold Generator_EmployeeChange. eapply yields_bind; [by apply employee_yields|]. intros v Hv. apply yields_ret.
    by eapply (Hexp 4%nat).
Qed.

(** * Draining *)

Section draining.
Context {S : Type} `{HS : Unrestricted S}.

(** A queue whose depth is zero holds no open message. *)
Lemma empty_depth a queue id rec : astore_ok a → d_Total (depth_of queue (a_messages a)) = 0 →
  a_messages a !! id = Some rec → ¬ open_in queue rec.
Proof.
  intros Hok Hd Hid [Hq Ht]. unfold depth_of in Hd. cbn [d_Total] in Hd.
  assert (∀ states, rec_State rec ∈ states → (0 < size (in_states queue states (a_messages a)))%nat) as Hin.
  { intros states Hs. apply Nat.neq_0_lt_0. intros Hz. apply map_size_empty_iff in Hz.
    assert (in_states queue states (a_messages a) !! id = Some rec) as Hl; [|by rewrite Hz, lookup_empty in Hl].
    unfold in_states. by apply map_lookup_filter_Some. }
  pose proof (Hin [StateQueued]). pose proof (Hin [StateProcessing]). pose proof (Hin [StateRetrying; StateFailed]).
  destruct (aok_messages _ Hok _ _ Hid) as (_ & [Hs|[Hs|[Hs|[Hs|Hs]]]] & _); rewrite Hs in *; try done;
    [assert (StateQueued ∈ [StateQueued]) by set_solver|assert (StateProcessing ∈ [StateProcessing]) by set_solver
    |assert (StateRetrying ∈ [StateRetrying; StateFailed]) by set_solver]; intuition lia.
Qed.

Lemma drained_no_open names (at_ : nat → Engine S) : (∀ k, einv (at_ k)) → drained names at_ = Ok true →
  ∀ k queue, names !! k = Some queue →
    ∀ id rec, a_messages (eview (at_ k)) !! id = Some rec → ¬ open_in queue rec.
Proof.
  revert at_. induction names as [|q names IH]; intros at_ Hi Hd k queue Hk; [done|]. cbn [drained] in Hd.
  destruct (law_Depth q (e_store (at_ 0%nat)) (Hi 0%nat)) as [_ [Hr _]].
  unfold Engine_Depth, on_store in Hd. destruct (st_Depth q (e_store (at_ 0%nat))) as [s res]. simpl in Hd, Hr.
  subst res. unfold eview in *. case_decide; [|done]. cbv iota in Hd.
  destruct (Z.eqb_spec (d_Total (depth_of q (a_messages (store_view (e_store (at_ 0%nat)))))) 0) as [Hz|]; [|done].
  destruct k as [|k]; simpl in Hk.
  - injection Hk as <-. intros id rec. apply empty_depth; [by apply law_ok, Hi|done].
  - apply (IH (fun k => at_ (1 + k)%nat)); [intros; apply Hi|done|done].
Qed.
End draining.
