(* ===== verification/ErpClaims.v ===== *)
(** The properties of the demonstration ([Erp.v]), with its consumers. *)

From S2P Require Import Prelude Errors HeaderProofs Message Broker Storage StoreTraces Float64 Retry.
From S2P Require Import Engine EngineProofs EnginePublish EngineSafety Metrics Schema Json Api ApiProofs Memory MemoryProofs EngineClaims ApiClaims Erp ErpProofs.

Local Open Scope Z_scope.
Import erp.

(** * Consumers *)

Section consumers.
Context {R : Type} (rnd : rand R).

(** A system that refuses a call reports this error. *)
Definition gateway_error (err : error) : bool :=
  match err with wrapError _ e _ => bool_decide (e = ErrGatewayUnavailable) | _ => false end.

(** The call behind a consumer: either it is refused or given up, and then only
    the counter of failures can move, or it is made. *)
Lemma simulateCall_cases ctx_err (d : Downstream (R := R)) :
  ∃ d' res, simulateCall rnd ctx_err d = (d', res) ∧ ds_name d' = ds_name d ∧ ds_handled d' = ds_handled d ∧
  match res with
  | Ok _ => ds_failed d' = ds_failed d
  | Err err => (Some err = ctx_err ∧ ds_failed d' = ds_failed d) ∨
               (err = wrapError (ds_name d +:+ ": ") ErrGatewayUnavailable "" ∧ ds_failed d' = wrap64 (ds_failed d + 1))
  end.
Proof.
  assert (∃ d' res, (unlucky rnd ≫= fun bad => if bad : bool then refuse_call else mret tt) d = (d', res) ∧
    ds_name d' = ds_name d ∧ ds_handled d' = ds_handled d ∧
    match res with
    | Ok _ => ds_failed d' = ds_failed d
    | Err err => err = wrapError (ds_name d +:+ ": ") ErrGatewayUnavailable "" ∧ ds_failed d' = wrap64 (ds_failed d + 1)
    end) as (d' & res & Hrun & Hn & Hh & Hres).
  { rewrite bind_eq. unfold unlucky. destruct (fle _ _); [by eexists _, _|].
    destruct (Float64 rnd (ds_random d)) as [x r]. destruct (flt _ _); by eexists _, _. }
  assert (simulateCall rnd ctx_err d = match ctx_err with
    | Some err => if 0 <? ds_latency d then (d, Err err) else (d', res) | None => (d', res) end) as Hs.
  { unfold simulateCall. rewrite bind_eq. unfold await. destruct ctx_err as [err|]; [destruct (0 <? ds_latency d)|]; done. }
  rewrite Hs. destruct ctx_err as [err|]; [destruct (0 <? ds_latency d)|].
  - eexists _, _. split; [done|]. split; [done|]. split; [done|]. by left.
  - eexists _, _. split; [done|]. split; [done|]. split; [done|]. destruct res; auto.
  - eexists _, _. split; [done|]. split; [done|]. split; [done|]. destruct res; auto.
Qed.

(** What every consumer does with an event it accepts. *)
Definition applies {X} (ctx_err : option error) (f : X → X) : prog (consumer X) unit :=
  downstream (simulateCall rnd ctx_err) ≫= fun _ => update f ≫= fun _ => downstream (modifies add_handled).

(** A sequence of calls; the log has each delivery with its outcome. *)
Fixpoint deliver {X} (h : option error → Delivery → prog (consumer (R := R) X) unit)
    (calls : list (option error * Delivery)) (c : consumer X) : consumer X * list (Delivery * result error unit) :=
  match calls with
  | [] => (c, [])
  | (ctx_err, delivery) :: calls =>
      let '(c, r) := h ctx_err delivery c in
      let '(c, log) := deliver h calls c in
      (c, (delivery, r) :: log)
  end.

Definition succeeded (log : list (Delivery * result error unit)) : list Delivery :=
  omap (fun dr => if is_ok dr.2 then Some dr.1 else None) log.
Definition refused_calls (log : list (Delivery * result error unit)) : nat :=
  count_if (fun dr => match dr.2 with Err err => gateway_error err | Ok _ => false end) log.

Lemma succeeded_Ok dv u log : succeeded ((dv, Ok u) :: log) = dv :: succeeded log.
Proof. done. Qed.
Lemma refused_cons dv res log : refused_calls ((dv, res) :: log) =
  ((match res with Err err => if gateway_error err then 1 else 0 | Ok _ => 0 end) + refused_calls log)%nat.
Proof. unfold refused_calls. rewrite count_if_cons. simpl. by destruct res. Qed.

(** The shape of a handler: it refuses an event for good, or applies it. *)
Definition shaped {X} (h : option error → Delivery → prog (consumer X) unit) (step : Delivery → X → X)
    (refusal : Delivery → X → option error) : Prop :=
  ∀ ctx_err dv c, h ctx_err dv c =
    match refusal dv (co_state c) with
    | Some err => (c, Err (PermanentError err))
    | None => applies ctx_err (step dv) c
    end.

Lemma applies_cases {X} ctx_err (f : X → X) (c : consumer (R := R) X) :
  ∃ c' res, applies ctx_err f c = (c', res) ∧ 
  match res with
  | Ok _ => co_state c' = f (co_state c) ∧ ds_handled (co_down c') = wrap64 (ds_handled (co_down c) + 1) ∧
            ds_failed (co_down c') = ds_failed (co_down c)
  | Err err => co_state c' = co_state c ∧ ds_handled (co_down c') = ds_handled (co_down c) ∧
      ((Some err = ctx_err ∧ ds_failed (co_down c') = ds_failed (co_down c)) ∨
       (gateway_error err = true ∧ ds_failed (co_down c') = wrap64 (ds_failed (co_down c) + 1)))
  end.
Proof.
  destruct (simulateCall_cases ctx_err (co_down c)) as (d & res & Hs & _ & Hh & Hres).
  unfold applies. rewrite bind_eq. unfold downstream at 1. rewrite Hs. destruct res as [[]|err].
  - eexists _, _. split; [rewrite bind_eq; reflexivity|]. simpl. by rewrite Hh.
  - eexists _, _. split; [done|]. simpl. split; [done|]. split; [done|].
    destruct Hres as [Hres|[-> Hres]]; [by left|right; split; [|done]]. by apply bool_decide_eq_true.
Qed.

(** The state is that of the successful deliveries applied in order, and the
    counters count them and the refused calls. *)
Lemma deliver_exact {X} h (step : Delivery → X → X) refusal calls (c : consumer X) a b :
  shaped h step refusal → Forall (fun call => ∀ err, call.1 = Some err → gateway_error err = false) calls →
  ds_handled (co_down c) = wrap64 a → ds_failed (co_down c) = wrap64 b →
  let '(c', log) := deliver h calls c in
  co_state c' = foldl (fun x dv => step dv x) (co_state c) (succeeded log) ∧
  ds_handled (co_down c') = wrap64 (a + Z.of_nat (length (succeeded log))) ∧
  ds_failed (co_down c') = wrap64 (b + Z.of_nat (refused_calls log)).
Proof.
  intros Hh. revert c a b. induction calls as [|[ctx_err dv] calls IH]; intros c a b Hcalls Ha Hb.
  { cbn. by rewrite !Z.add_0_r. }
  apply Forall_cons in Hcalls as [Hctx Hcalls]. cbn [deliver]. rewrite Hh.
  destruct (refusal dv (co_state c)) as [err|] eqn:Hr.
  { specialize (IH c a b Hcalls Ha Hb). by destruct (deliver h calls c) as [c' log]. }
  destruct (applies_cases ctx_err (step dv) c) as (c1 & res & -> & Hres). destruct res as [[]|err].
  - destruct Hres as (Hs & Hn & Hf). specialize (IH c1 (a + 1) b Hcalls).
    destruct (deliver h calls c1) as [c' log]. destruct IH as (I1 & I2 & I3).
    + by rewrite Hn, Ha, wrap64_add_l.
    + by rewrite Hf.
    + rewrite Hs in I1. rewrite I2, I3, succeeded_Ok, refused_cons. split; [done|]. split; [|done]. f_equal. cbn [length]. lia.
  - destruct Hres as (Hs & Hn & Hf).
    assert (∃ k : nat, ds_failed (co_down c1) = wrap64 (b + Z.of_nat k) ∧ k = (if gateway_error err then 1 else 0)%nat)
      as (k & Hk & Hke).
    { destruct Hf as [[He Hf]|[He Hf]]; [exists 0%nat|exists 1%nat].
      - rewrite Z.add_0_r, Hf. split; [done|]. by rewrite (Hctx err (eq_sym He)).
      - rewrite He, Hf, Hb, wrap64_add_l. done. }
    specialize (IH c1 a (b + Z.of_nat k) Hcalls ltac:(by rewrite Hn) Hk).
    destruct (deliver h calls c1) as [c' log]. destruct IH as (I1 & I2 & I3). rewrite Hs in I1.
    split; [done|]. split; [done|]. rewrite I3, refused_cons, Hke. f_equal. lia.
Qed.

(** Where what is refused does not depend on what was applied before, no
    refused event is among the successes. *)
Lemma deliver_accepts {X} h (step : Delivery → X → X) refusal calls (c : consumer X) :
  shaped h step refusal → (∀ dv dv' x, refusal dv (step dv' x) = refusal dv x) →
  Forall (fun dv => refusal dv (co_state c) = None) (succeeded (deliver h calls c).2).
Proof.
  intros Hh Hstep. revert c. induction calls as [|[ctx_err dv] calls IH]; intros c; [constructor|]. cbn [deliver]. rewrite Hh.
  destruct (refusal dv (co_state c)) as [err|] eqn:Hr.
  { specialize (IH c). by destruct (deliver h calls c) as [c' log]. }
  destruct (applies_cases ctx_err (step dv) c) as (c1 & res & -> & Hres). specialize (IH c1).
  destruct (deliver h calls c1) as [c' log]. cbn [snd] in IH |- *. destruct res as [[]|err]; destruct Hres as (Hs & _); rewrite Hs in IH.
  - rewrite succeeded_Ok. constructor; [done|]. eapply Forall_impl; [exact IH|]. intros dv' Hdv'. cbv beta in Hdv'. by rewrite Hstep in Hdv'.
  - done.
Qed.

(** ** Decoding *)

Definition to_option {A} (r : result error A) : option A := match r with Ok a => Some a | Err _ => None end.
Definition decoded {A} (unmarshal : string → result error A) (dvs : list Delivery) : list A :=
  omap (fun dv => to_option (unmarshal (msg_Payload (dv_Message dv)))) dvs.

(** Applying what decodes. *)
Definition apply_decoded {A X} (unmarshal : string → result error A) (f : A → X → X) (dv : Delivery) (x : X) : X :=
  match unmarshal (msg_Payload (dv_Message dv)) with Ok a => f a x | Err _ => x end.

Lemma foldl_decoded {A X} (unmarshal : string → result error A) (f : A → X → X) dvs x :
  foldl (fun x dv => apply_decoded unmarshal f dv x) x dvs = foldl (fun x a => f a x) x (decoded unmarshal dvs).
Proof.
  revert x. induction dvs as [|dv dvs IH]; intros x; [done|]. cbn [foldl]. rewrite IH. unfold decoded, apply_decoded.
  simpl. by destruct (unmarshal _).
Qed.

(** The last value wins. *)
Lemma foldl_insert_last {A} (k : A → string) (l : list A) (m : gmap string A) i :
  foldl (fun m a => <[k a := a]> m) m l !! i = match last (filter (fun a => k a = i) l) with Some a => Some a | None => m !! i end.
Proof.
  revert m. induction l as [|a l IH]; intros m; [done|]. cbn [foldl]. rewrite IH, filter_cons. case_decide as Hk.
  - rewrite last_cons. destruct (last (filter _ l)); [done|]. by rewrite Hk, lookup_insert_eq.
  - destruct (last (filter _ l)); [done|]. by rewrite lookup_insert_ne.
Qed.

Lemma foldl_stock (l : list InventoryAdjustment) (m : gmap string Z) z key : default 0 (m !! key) = wrap64 z →
  default 0 (foldl (fun m a => add_stock (stock_key (ia_Warehouse a) (ia_SKU a)) (ia_Delta a) m) m l !! key) =
  wrap64 (z + foldr Z.add 0 (ia_Delta <$> filter (fun a => stock_key (ia_Warehouse a) (ia_SKU a) = key) l)).
Proof.
  revert m z. induction l as [|a l IH]; intros m z Hz; [cbn; by rewrite Z.add_0_r|]. cbn [foldl]. rewrite filter_cons. case_decide as Hk.
  - erewrite (IH _ (z + ia_Delta a)); [cbn; f_equal; lia|]. unfold add_stock. by rewrite Hk, lookup_insert_eq, Hz, wrap64_add_l.
  - apply IH. unfold add_stock. by rewrite lookup_insert_ne.
Qed.

Lemma foldl_totals (l : list Invoice) (x : ledger) cur :
  le_total (foldl (fun x i => add_total (in_Currency i) (TotalNet i) x) x l) !! cur =
  match filter (fun i => in_Currency i = cur) l with
  | [] => le_total x !! cur
  | found => Some (foldl fadd (default (Fin 0 0) (le_total x !! cur)) (TotalNet <$> found))
  end.
Proof.
  revert x. induction l as [|i l IH]; intros x; [done|]. cbn [foldl]. rewrite IH, filter_cons. unfold add_total. cbn [le_total].
  case_decide as Hc; [rewrite Hc, lookup_insert_eq|by rewrite lookup_insert_ne]. by destruct (filter _ l).
Qed.

Lemma foldl_employees (l : list EmployeeChange) (x : directory) :
  di_records (foldl (fun x e => put_employee e x) x l) = foldl (fun m e => <[em_EmployeeID e := e]> m) (di_records x) l.
Proof. revert x. induction l as [|e l IH]; intros x; [done|]. cbn [foldl]. by rewrite IH. Qed.

Lemma foldl_append {A B} (f : A → B) (l : list A) (acc : list B) : foldl (fun acc a => acc ++ [f a]) acc l = acc ++ (f <$> l).
Proof. revert acc. induction l as [|a l IH]; intros acc; [by rewrite app_nil_r|]. cbn [foldl]. by rewrite IH, <-app_assoc. Qed.

Lemma decoded_Forall {A} (unmarshal : string → result error A) (P : A → Prop) dvs :
  Forall (fun dv => ∀ a, unmarshal (msg_Payload (dv_Message dv)) = Ok a → P a) dvs → Forall P (decoded unmarshal dvs).
Proof.
  induction 1 as [|dv dvs Hdv _ IH]; [constructor|]. unfold decoded. simpl.
  destruct (unmarshal (msg_Payload (dv_Message dv))) as [a|] eqn:E; [constructor; auto|done].
Qed.

(** ** The five handlers *)

Context (UnmarshalCustomer : string → result error CustomerExport) (UnmarshalInvoice : string → result error Invoice).
Context (UnmarshalAdjustment : string → result error InventoryAdjustment).
Context (UnmarshalEmployee : string → result error EmployeeChange).

(** The refusal of what does not decode, and of what [check] refuses. *)
Definition refuses_unless {A X} (unmarshal : string → result error A) (prefix : string) (check : A → X → option error)
    (dv : Delivery) (x : X) : option error :=
  match unmarshal (msg_Payload (dv_Message dv)) with
  | Err err => Some (wrapError prefix err "")
  | Ok a => check a x
  end.

Lemma customers_shaped : shaped (CustomerSync_Handle rnd UnmarshalCustomer)
  (apply_decoded UnmarshalCustomer (fun c => insert (ce_CustomerID c) c))
  (refuses_unless UnmarshalCustomer "customer-sync: undecodable payload: " (fun _ _ => None)).
Proof.
  intros ctx_err dv c. unfold CustomerSync_Handle, refuses_unless, applies, apply_decoded.
  by destruct (UnmarshalCustomer (msg_Payload (dv_Message dv))).
Qed.
Lemma inventory_shaped : shaped (InventoryProjection_Handle rnd UnmarshalAdjustment)
  (apply_decoded UnmarshalAdjustment (fun a => add_stock (stock_key (ia_Warehouse a) (ia_SKU a)) (ia_Delta a)))
  (refuses_unless UnmarshalAdjustment "inventory-sync: undecodable payload: " (fun _ _ => None)).
Proof.
  intros ctx_err dv c. unfold InventoryProjection_Handle, refuses_unless, applies, apply_decoded.
  by destruct (UnmarshalAdjustment (msg_Payload (dv_Message dv))).
Qed.
Definition unsupported (i : Invoice) (l : ledger) : option error :=
  if bool_decide (le_supported l ≠ ∅) && bool_decide (in_Currency i ∉ le_supported l)
  then Some (wrapError "invoice-ledger: " ErrUnsupportedCurrency (": " +:+ in_Currency i)) else None.
Lemma invoices_shaped : shaped (InvoiceLedger_Handle rnd UnmarshalInvoice)
  (apply_decoded UnmarshalInvoice (fun i => add_total (in_Currency i) (TotalNet i)))
  (refuses_unless UnmarshalInvoice "invoice-ledger: undecodable payload: " unsupported).
Proof.
  intros ctx_err dv c. unfold InvoiceLedger_Handle, refuses_unless, applies, apply_decoded, unsupported.
  destruct (UnmarshalInvoice (msg_Payload (dv_Message dv))); [|done]. rewrite bind_eq. unfold gets. by case_match.
Qed.
Definition unknown_center (e : EmployeeChange) (d : directory) : option error :=
  if bool_decide (di_known d ≠ ∅) && bool_decide (em_CostCenter e ∉ di_known d)
  then Some (wrapError "employee-sync: " ErrUnknownCostCenter (": " +:+ em_CostCenter e)) else None.
Lemma employees_shaped : shaped (EmployeeDirectory_Handle rnd UnmarshalEmployee)
  (apply_decoded UnmarshalEmployee put_employee)
  (refuses_unless UnmarshalEmployee "employee-sync: undecodable payload: " unknown_center).
Proof.
  intros ctx_err dv c. unfold EmployeeDirectory_Handle, refuses_unless, applies, apply_decoded, unknown_center.
  destruct (UnmarshalEmployee (msg_Payload (dv_Message dv))); [|done]. rewrite bind_eq. unfold gets. by case_match.
Qed.
Lemma audit_shaped : shaped (AuditLog_Handle rnd) (fun dv entries => entries ++ [audit_entry (dv_Message dv)]) (fun _ _ => None).
Proof. done. Qed.

(** The counters of a consumer after the calls in [log]. *)
Definition counted {X} (c : consumer (R := R) X) (log : list (Delivery * result error unit)) : Prop :=
  ds_handled (co_down c) = wrap64 (Z.of_nat (length (succeeded log))) ∧
  ds_failed (co_down c) = wrap64 (Z.of_nat (refused_calls log)).

Lemma deliver_new {X} h (step : Delivery → X → X) refusal calls opts (x : X) :
  shaped h step refusal → Forall (fun call => ∀ err, call.1 = Some err → gateway_error err = false) calls →
  let '(c, log) := deliver h calls (mkConsumer (NewDownstream rnd opts) x) in
  co_state c = foldl (fun x dv => step dv x) x (succeeded log) ∧ counted c log.
Proof.
  intros Hh Hc. pose proof (deliver_exact h step refusal calls (mkConsumer (NewDownstream rnd opts) x) 0 0 Hh Hc) as Hd.
  destruct (deliver h calls _) as [c log]. apply Hd; reflexivity.
Qed.

(** C37: The consumers of the demonstration are exact: after any sequence of
    deliveries, whatever the systems behind them refuse and whichever contexts
    end, the customer and employee records are the last ones whose delivery
    succeeded, the stock of an article in a warehouse is the sum of the
    movements, a currency's total the sum of the invoices in it, and the audit
    log the list of the messages whose delivery succeeded, in order; invoices in
    another currency than the supported ones never count; and the statistics
    are the numbers of successes and of refused calls. *)
Theorem consumers_exact opts supported centers calls :
  Forall (fun call => ∀ err, call.1 = Some err → gateway_error err = false) calls →
  (let '(c, log) := deliver (CustomerSync_Handle rnd UnmarshalCustomer) calls (NewCustomerSync rnd opts) in
   counted c log ∧ ∀ id, co_state c !! id =
     last (filter (fun x => ce_CustomerID x = id) (decoded UnmarshalCustomer (succeeded log)))) ∧
  (let '(l, log) := deliver (InvoiceLedger_Handle rnd UnmarshalInvoice) calls (NewInvoiceLedger rnd opts supported) in
   counted l log ∧
   (supported ≠ [] → Forall (fun i => in_Currency i ∈ supported) (decoded UnmarshalInvoice (succeeded log))) ∧
   ∀ cur, Totals l !! cur =
     match filter (fun i => in_Currency i = cur) (decoded UnmarshalInvoice (succeeded log)) with
     | [] => None
     | found => Some (foldl fadd (Fin 0 0) (TotalNet <$> found))
     end) ∧
  (let '(p, log) := deliver (InventoryProjection_Handle rnd UnmarshalAdjustment) calls (NewInventoryProjection rnd opts) in
   counted p log ∧ ∀ warehouse sku, Stock warehouse sku p =
     wrap64 (foldr Z.add 0 (ia_Delta <$> filter (fun a => stock_key (ia_Warehouse a) (ia_SKU a) = stock_key warehouse sku)
       (decoded UnmarshalAdjustment (succeeded log))))) ∧
  (let '(d, log) := deliver (EmployeeDirectory_Handle rnd UnmarshalEmployee) calls (NewEmployeeDirectory rnd opts centers) in
   counted d log ∧ ∀ id, di_records (co_state d) !! id =
     last (filter (fun x => em_EmployeeID x = id) (decoded UnmarshalEmployee (succeeded log)))) ∧
  (let '(a, log) := deliver (AuditLog_Handle rnd) calls (NewAuditLog rnd opts) in
   counted a log ∧ co_state a = (fun dv => audit_entry (dv_Message dv)) <$> succeeded log).
Proof.
  intros Hc. split_and!.
  - pose proof (deliver_new _ _ _ calls opts ∅ customers_shaped Hc) as Hd. unfold NewCustomerSync.
    destruct (deliver _ calls _) as [c log]. destruct Hd as [Hs Hn]. split; [exact Hn|]. intros id.
    rewrite Hs, foldl_decoded, foldl_insert_last. by case_match.
  - pose proof (deliver_new _ _ _ calls opts (mkLedger (list_to_set supported) ∅) invoices_shaped Hc) as Hd.
    pose proof (deliver_accepts _ _ _ calls (NewInvoiceLedger rnd opts supported) invoices_shaped) as Ha.
    unfold NewInvoiceLedger in *. destruct (deliver _ calls _) as [l log]. destruct Hd as [Hs Hn].
    split; [exact Hn|]. split.
    + intros Hne. apply decoded_Forall. eapply Forall_impl; [apply Ha|].
      * intros dv dv' x. unfold refuses_unless, apply_decoded. by destruct (UnmarshalInvoice (msg_Payload (dv_Message dv'))).
      * intros dv Hdv i Hi. cbv beta in Hdv. unfold refuses_unless, unsupported in Hdv. rewrite Hi in Hdv.
        simpl in Hdv. destruct supported as [|s0 supported]; [done|]. rewrite bool_decide_eq_true_2 in Hdv by set_solver.
        case_bool_decide as Hin; [done|]. by apply elem_of_list_to_set in Hin.
    + intros cur. unfold Totals. rewrite Hs, foldl_decoded, foldl_totals. simpl. rewrite lookup_empty. by case_match.
  - pose proof (deliver_new _ _ _ calls opts ∅ inventory_shaped Hc) as Hd. unfold NewInventoryProjection.
    destruct (deliver _ calls _) as [p log]. destruct Hd as [Hs Hn]. split; [exact Hn|]. intros w sku.
    unfold Stock. rewrite Hs, foldl_decoded, (foldl_stock _ ∅ 0); [done|]. by rewrite lookup_empty.
  - pose proof (deliver_new _ _ _ calls opts (mkDirectory (list_to_set centers) ∅) employees_shaped Hc) as Hd.
    unfold NewEmployeeDirectory. destruct (deliver _ calls _) as [d log]. destruct Hd as [Hs Hn]. split; [exact Hn|]. intros id.
    rewrite Hs, foldl_decoded, foldl_employees, foldl_insert_last. by case_match.
  - pose proof (deliver_new _ _ _ calls opts [] audit_shaped Hc) as Hd. unfold NewAuditLog.
    destruct (deliver _ calls _) as [a log]. destruct Hd as [Hs Hn]. split; [exact Hn|]. rewrite Hs.
    apply (foldl_append (fun dv => audit_entry (dv_Message dv))).
Qed.
End consumers.

(** * The export *)


(** [NightlyExport] reports what it published: all events when it ends without
    an error, and otherwise those before the one that failed. *)
Lemma export_loop_counts {S} `{StoreOps S} {R} (rnd : rand R) clock Marshal E schemas n i published g (e : Engine S) :
  let '(_, _, (count, failed)) := export_loop rnd clock Marshal E schemas n i published g e in
  match failed with
  | None => count = published + Z.of_nat n
  | Some _ => published ≤ count < published + Z.of_nat n
  end.
Proof.
  revert i published g e. induction n as [|n IH]; intros i published g e; cbn [export_loop]; [lia|].
  destruct (event rnd clock Marshal i g) as [g1 [pub|err]]; [|lia].
  destruct (Engine_Publish E schemas pub e) as [e1 [res|err]]; [|lia].
  specialize (IH (1 + i)%nat (published + 1) g1 e1).
  destruct (export_loop rnd clock Marshal E schemas n _ _ _ _) as [[? ?] [count [err|]]]; lia.
Qed.

(** A truncated text is at most two bytes longer than the limit, which counts
    the three bytes of the ellipsis as one. *)
Lemma truncate_length value limit text : 1 ≤ limit → truncate value limit = Ok text →
  Z.of_nat (String.length text) ≤ limit + 2.
Proof.
  intros Hl. unfold truncate. destruct (Z.leb_spec (Z.of_nat (String.length value)) limit); [intros [= <-]; lia|].
  destruct (Z.ltb_spec limit 1); [done|]. intros [= <-]. rewrite HeaderProofs.str_length_app.
  assert (∀ n s, (String.length (str_take n s) ≤ n)%nat) as Ht.
  { induction n as [|n IH]; intros [|c s']; simpl; try lia. specialize (IH s'). lia. }
  specialize (Ht (Z.to_nat (limit - 1)) value). change (String.length ellipsis) with 3%nat. lia.
Qed.

(** [waitForDrain] returns nil only after a turn in which it found every
    registered queue without an open message (queued, leased, or waiting for a
    retry) at the moment it asked for that queue's depth. *)
Theorem waitForDrain_empty {S} `{HS : Unrestricted S} (events : list (waited (S := S))) :
  (∀ listed at_, Ticked listed at_ ∈ events → ∀ k, einv (at_ k)) → waitForDrain events = Some (Ok tt) →
  ∃ listed at_, Ticked listed at_ ∈ events ∧
    ∀ k queue, Registry_QueueNames (e_registry listed) !! k = Some queue →
    ∀ id rec, a_messages (eview (at_ k)) !! id = Some rec → ¬ open_in queue rec.
Proof.
  induction events as [|ev events IH]; intros Hi Hw; [done|]. cbn [waitForDrain] in Hw. destruct ev as [err|listed at_]; [done|].
  destruct (drained _ at_) as [[]|err] eqn:Hd; [| |done].
  - exists listed, at_. split; [apply elem_of_cons; by left|]. eapply drained_no_open; [|exact Hd].
    apply (Hi listed). apply elem_of_cons. by left.
  - destruct IH as (l' & a' & Hin & Hq); [|exact Hw|].
    + intros l' a' Hin. apply (Hi l'). apply elem_of_cons. by right.
    + exists l', a'. split; [apply elem_of_cons; by right|exact Hq].
Qed.

(** * Witnesses *)

Module ErpSamples.
(** A source that counts; its [IntN] is the count modulo the bound. *)
Definition source : rand Z :=
  mkRand Z (fun n r => (r mod n, r + 1)) (fun r => (f_half, r + 1)) (fun a b => a).
Lemma source_ok : rand_ok source.
Proof. intros n r Hn. simpl. by apply Z.mod_pos_bound. Qed.

(** Payloads written as a warehouse and an article. *)
Definition unmarshal (text : string) : result error InventoryAdjustment :=
  if decide (text = "bad") then Err (errorString "invalid character 'b'")
  else Ok (mkInventoryAdjustment text "DE-01" 5 "return" "" 0).
Definition delivery (payload : string) : Delivery :=
  mkDelivery (New (mkPublication ExchangeEvents RoutingInventoryAdjust payload ∅ "") "inventory-sync" 0 []) 1 "inventory-sync".
Definition system : DownstreamOptions := mkDownstreamOptions "wms" 0 (Fin 0 0) 7.
Definition calls : list (option error * Delivery) :=
  [(None, delivery "CRATE"); (None, delivery "bad"); (Some (OtherErr ContextCanceled), delivery "LABEL"); (None, delivery "CRATE")].

(** The broker of the samples before and after its messages are settled. *)
Definition settled : Engine Store := (Engine_Purge "audit" Samples.acked).1.
Lemma purge_inv (e : Engine Store) queue : einv e → einv (Engine_Purge queue e).1.
Proof.
  intros Hi. destruct (law_Purge queue (e_store e) Hi) as [Hs _]. unfold Engine_Purge, on_store.
  by destruct (st_Purge queue (e_store e)).
Qed.
Lemma settled_inv : einv settled.
Proof. apply purge_inv. exact Samples.acked_inv. Qed.
Definition poll (e : Engine Store) : waited := Ticked e (fun _ => e).
Definition polls : list waited := [poll Samples.busy; poll settled].
Lemma polled_inv (b c : Engine Store) listed at_ : einv b → einv c → Ticked listed at_ ∈ [poll b; poll c] → ∀ k, einv (at_ k).
Proof.
  intros Hb Hc Hin k. apply elem_of_cons in Hin as [[= -> ->]|Hin]; [exact Hb|].
  by apply list_elem_of_singleton in Hin as [= -> ->].
Qed.
End ErpSamples.

(** Two movements of an article count, the payload that does not decode does not. *)
Lemma consumers_exact_witness :
  let '(p, log) := deliver (InventoryProjection_Handle ErpSamples.source ErpSamples.unmarshal) ErpSamples.calls
                     (NewInventoryProjection ErpSamples.source ErpSamples.system) in
  counted p log ∧ Stock "DE-01" "CRATE" p = 10.
Proof.
  destruct (consumers_exact ErpSamples.source (fun _ => Err (errorString "")) (fun _ => Err (errorString ""))
    ErpSamples.unmarshal (fun _ => Err (errorString "")) ErpSamples.system [] [] ErpSamples.calls) as (_ & _ & Hp & _).
  { repeat apply Forall_cons_2; try apply Forall_nil_2; intros err [= <-]; reflexivity. }
  set (run := deliver _ ErpSamples.calls _) in *. assert (run = (run.1, run.2)) as Hrun by (by destruct run).
  rewrite Hrun in Hp |- *. destruct Hp as [Hc Hs]. split; [exact Hc|]. rewrite Hs. vm_compute. reflexivity.
Defined.


(** First a message is leased and another queued; then one is acknowledged and
    the other purged. *)
Lemma waitForDrain_empty_witness :
  ∃ listed at_, Ticked listed at_ ∈ ErpSamples.polls ∧
    ∀ k queue, Registry_QueueNames (e_registry listed) !! k = Some queue →
    ∀ id rec, a_messages (eview (at_ k)) !! id = Some rec → ¬ open_in queue rec.
Proof.
  apply waitForDrain_empty.
  - intros listed at_. apply ErpSamples.polled_inv; [exact (proj1 Samples.busy_ok)|exact ErpSamples.settled_inv].
  - vm_compute. reflexivity.
Defined.
