(* ===== verification/Erpsim.v ===== *)
(** The command [cmd/erpsim]: setting the broker up in the process, and the
    report at the end.

    What is printed is kept as data: a line of a table is a record, the layout
    of the columns is not modelled.  The export, the wait for the queues to drain
    and [truncate] are in Erp.v.  Between the export and the end of the wait the
    consumers run; the engine and the workflow they leave are arguments. *)

From S2P Require Import Prelude Errors MessageId Message Broker Storage StoreTraces Float64 DurationText Retry Logging Memory MemoryProofs.
From S2P Require Import Engine EngineProofs EnginePublish EngineSafety EngineClaims Schema SchemaProofs Json Erp ErpClaims.

Local Open Scope Z_scope.

Module erpsim.
Import erp.

(** * Setting up *)

Section setup.
Context (E : env) (fmt_int : Z → string) (fmt_float : float64 → string).
Context {json compiled : Type} (pk : packages json compiled) {R : Type} (rnd : rand R).

(** [run], up to the export: the engine on a fresh in-memory store, its
    effective policy, the schemas and the subscribed workflow. *)
Definition sim_setup (opts : options) (walk : list walk_entry) :
    result error (Engine Store * Policy * gmap string (entry compiled) * Workflow (R := R)) :=
  match logging.New (logging.mkOptions (op_logLevel opts) "text" "erpsim" "") with
  | Err err => Err err
  | Ok _ =>
      match LoadDirectory pk walk NewSchemaRegistry with
      | (_, Err err) => Err err
      | (registry, Ok _) =>
          match Engine_New Duration_String fmt_int fmt_float (Some mem_New) (sim_policy opts) second with
          | Err err => Err err
          | Ok (instance, policy, _) =>
              let prepared :=
                Engine_Start ≫= fun _ =>
                DeclareTopology E (15 * second) (op_maxAttempts opts) ≫= fun _ =>
                Subscribe rnd (mkWorkflowOptions (op_seed opts) (op_latency opts) (op_failureRate opts)
                  (op_concurrency opts) (op_prefetch opts) []) in
              match prepared instance with
              | (_, Err err) => Err err
              | (instance, Ok workflow) => Ok (instance, policy, registry, workflow)
              end
          end
      end
  end.
End setup.

(** * The report *)

Record queue_line := mkQueueLine {
  ql_queue : string;
  ql_ready : Z;
  ql_inFlight : Z;
  ql_scheduled : Z;
  ql_dead : Z;
}.
Record letter_line := mkLetterLine {
  ll_id : string;
  ll_queue : string;
  ll_kind : string;
  ll_attempts : Z;
  ll_reason : string;
}.

Section report.
Context {S : Type} `{StoreOps S}.

(** [value[:n]] *)
Definition slice_to (n : nat) (value : string) : result error string :=
  if decide (n ≤ String.length value)%nat then Ok (str_take n value)
  else Err (RuntimePanic "runtime error: slice bounds out of range").

(** A turn of the loop over the queues; a queue whose depth fails is left out,
    and a count that fails is shown as zero. *)
Definition queue_row (queue : string) : prog (Engine S) (list queue_line) :=
  depth ← (attempting (Engine_Depth queue) : prog (Engine S) _);
  match depth with
  | Err _ => mret []
  | Ok depth =>
      dead ← (attempting (Engine_CountDeadLetters queue) : prog (Engine S) _);
      mret [mkQueueLine queue (d_Ready depth) (d_InFlight depth) (d_Scheduled depth)
              (match dead with Ok n => n | Err _ => 0 end)]
  end.
Fixpoint queue_rows (names : list string) : prog (Engine S) (list queue_line) :=
  match names with
  | [] => mret []
  | queue :: rest => row ← queue_row queue; rows ← queue_rows rest; mret (row ++ rows)
  end.

Definition letter_row (entry : DeadLetter) : result error letter_line :=
  id ← slice_to 12 (dl_ID entry);
  reason ← truncate (dl_Reason entry) 60;
  Ok (mkLetterLine id (dl_Queue entry) (dl_ErrorKind entry) (dl_Attempts entry) reason).
Fixpoint letter_rows (entries : list DeadLetter) : result error (list letter_line) :=
  match entries with
  | [] => Ok []
  | entry :: rest => row ← letter_row entry; rows ← letter_rows rest; Ok (row :: rows)
  end.

(** [report]: the rows of its tables; an error is a panic. *)
Definition report {R} (workflow : Workflow (R := R)) : prog (Engine S) (list Stats * list queue_line * list letter_line) :=
  names ← ((fun e => (e, Ok (Registry_QueueNames (e_registry e)))) : prog (Engine S) _);
  rows ← queue_rows names;
  entries ← (attempting (Engine_DeadLetters (mkDeadLetterFilter "" 5 0)) : prog (Engine S) _);
  match entries with
  | Err _ => mret (Workflow_Stats workflow, rows, [])
  | Ok entries => letters ← lift (letter_rows entries); mret (Workflow_Stats workflow, rows, letters)
  end.
End report.

(** * The report is exact *)

Section exact.
Context {S : Type} `{HS : Unrestricted S}.
Implicit Types (e : Engine S).

(** The line of a queue, for an abstract store. *)
Definition line_of (a : astore) (queue : string) : option queue_line :=
  if decide (queue ∈ a_queues a) then
    let depth := depth_of queue (a_messages a) in
    Some (mkQueueLine queue (d_Ready depth) (d_InFlight depth) (d_Scheduled depth)
            (Z.of_nat (size (filter (fun kv => dl_matches queue kv.2) (a_dead a)))))
  else None.

(** A question to the store through the engine: the store stays as it is. *)
Lemma asks {A} (c : call A) (Q : astore → result error A → Prop) e : einv e → call_pre c →
  (∀ a r a', call_spec c a r a' → a' = a ∧ Q a r) →
  ∃ e' r, attempting (on_store (run_call c)) e = (e', Ok r) ∧ einv e' ∧ eview e' = eview e ∧
    e_registry e' = e_registry e ∧ Q (eview e) r.
Proof.
  intros Hi Hp HQ. destruct (law_implements c Hp (e_store e) Hi) as [Hi' Hs]. apply HQ in Hs as [Hv Hq].
  unfold attempting, on_store. destruct (run_call c (e_store e)) as [s' r]. eexists _, r. split; [done|]. by split_and!.
Qed.

Lemma queue_row_exact queue e : einv e →
  ∃ e', queue_row queue e = (e', Ok (option_list (line_of (eview e) queue))) ∧ einv e' ∧ eview e' = eview e ∧
    e_registry e' = e_registry e.
Proof.
  intros Hi. unfold queue_row. rewrite bind_eq.
  destruct (asks (CDepth queue) (fun a r => r = if decide (queue ∈ a_queues a) then Ok (depth_of queue (a_messages a))
      else Err (StorageErr ErrNotFound)) e Hi I) as (e1 & r & Heq & Hi1 & Hv1 & Hr1 & ->).
  { intros a r a' [? ?]. done. }
  unfold Engine_Depth. simpl run_call in Heq. rewrite Heq. unfold line_of. case_decide as Hq; [|by exists e1].
  rewrite bind_eq.
  destruct (asks (CCountDeadLetters queue) (fun a r => r = Ok (Z.of_nat (size (filter (fun kv => dl_matches queue kv.2) (a_dead a))))) e1 Hi1 I)
    as (e2 & r & Heq2 & Hi2 & Hv2 & Hr2 & ->).
  { intros a r a' [? ?]. done. }
  unfold Engine_CountDeadLetters. simpl run_call in Heq2. rewrite Heq2, Hv1. exists e2. split; [done|]. split; [done|].
  split; [by rewrite Hv2|by rewrite Hr2].
Qed.

Lemma queue_rows_exact names e : einv e →
  ∃ e', queue_rows names e = (e', Ok (omap (line_of (eview e)) names)) ∧ einv e' ∧ eview e' = eview e ∧
    e_registry e' = e_registry e.
Proof.
  revert e. induction names as [|queue names IH]; intros e Hi; [by exists e|]. cbn [queue_rows]. rewrite bind_eq.
  destruct (queue_row_exact queue e Hi) as (e1 & -> & Hi1 & Hv1 & Hr1). rewrite bind_eq.
  destruct (IH e1 Hi1) as (e2 & -> & Hi2 & Hv2 & Hr2). exists e2. rewrite Hv2, Hr2, Hv1, Hr1. split; [|done].
  simpl. destruct (line_of (eview e) queue); done.
Qed.

Lemma truncate_60 value : ∃ out, truncate value 60 = Ok out.
Proof. unfold truncate. case_match; eauto. Qed.

Lemma letter_rows_total ds : (∀ d, d ∈ ds → (12 ≤ String.length (dl_ID d))%nat) →
  ∃ rows, letter_rows ds = Ok rows ∧ ll_queue <$> rows = dl_Queue <$> ds ∧ ll_id <$> rows = (fun d => str_take 12 (dl_ID d)) <$> ds.
Proof.
  induction ds as [|d ds IH]; intros Hl; [by exists []|]. destruct IH as (rows & Hrows & Hq & Hid); [by intros x Hx; apply Hl, elem_of_cons; right|].
  cbn [letter_rows]. unfold letter_row, slice_to. rewrite decide_True by (apply Hl, elem_of_cons; by left). simpl.
  destruct (truncate_60 (dl_Reason d)) as [out ->]. simpl. rewrite Hrows. simpl. eexists. split; [done|].
  rewrite !fmap_cons. simpl. by rewrite Hq, Hid.
Qed.

(** The report never panics on dead letters with ids of twelve bytes or more, as
    [message.NewID] makes them; it changes nothing, has one line per registered
    queue that the store knows, with the queue's depth and its number of dead
    letters, and shows at most five dead letters. *)
Theorem report_exact {R} (workflow : Workflow (R := R)) e :
  einv e → (∀ id d, a_dead (eview e) !! id = Some d → (12 ≤ String.length id)%nat) →
  ∃ e' letters, report workflow e = (e', Ok (Workflow_Stats workflow,
      omap (line_of (eview e)) (Registry_QueueNames (e_registry e)), letters)) ∧
    eview e' = eview e ∧ length letters = Nat.min 5 (size (a_dead (eview e))).
Proof.
  intros Hi Hl. unfold report. rewrite !bind_eq.
  destruct (queue_rows_exact (Registry_QueueNames (e_registry e)) e Hi) as (e1 & -> & Hi1 & Hv1 & Hr1). rewrite bind_eq.
  destruct (asks (CDeadLetters (mkDeadLetterFilter "" 5 0)) (fun a r => ∃ ds, r = Ok ds ∧
      (∀ d, d ∈ ds → a_dead a !! dl_ID d = Some d) ∧ length ds = Nat.min 5 (size (a_dead a))) e1 Hi1 I)
    as (e2 & r & Heq & Hi2 & Hv2 & Hr2 & ds & -> & Hds & Hlen).
  { intros a r a' [(ds & -> & _ & Hd & Hn) ->]. split; [done|]. exists ds. split; [done|]. split; [intros d Hin; by apply Hd|].
    simpl in Hn. rewrite map_filter_id in Hn by (intros id d _; by left). lia. }
  unfold Engine_DeadLetters. simpl run_call in Heq. rewrite Heq.
  destruct (letter_rows_total ds) as (rows & Hrows & Hq & _); [intros d Hd; apply (Hl _ d); rewrite <-Hv1; by apply Hds|].
  rewrite bind_eq. unfold lift. rewrite Hrows. exists e2, rows. split; [done|]. split; [by rewrite Hv2|].
  apply (f_equal length) in Hq. rewrite !length_fmap in Hq. by rewrite Hq, Hlen, Hv1.
Qed.
End exact.
End erpsim.

(** With the default flags, and no schema in the directory, the broker is set up
    with its five queues and its five consumers. *)
Example sim_setup_default :
  match erpsim.sim_setup Samples.E (fun _ => "") (fun _ => "") SchemaSamples.pk ErpSamples.source erp.default_options [] with
  | Ok (e, _, _, _) => e_running e = true ∧ size (e_consumers e) = 5%nat ∧ length (Registry_QueueNames (e_registry e)) = 5%nat
  | Err _ => False
  end.
Proof. vm_compute. done. Qed.
