(* ===== verification/Worker.v ===== *)
(** The worker pool: [internal/worker/pool.go], and the way a consumer drives
    it ([Consumer.Stop] and the dispatcher of [internal/engine]).

    The pool is shared by goroutines, so its model is a machine that takes one
    shared-memory or channel operation per step.  A call in progress is a
    program counter: the worker goroutines of [run], the calls of [Submit] and
    [TrySubmit], and the calls of [Stop].  [pool_step action s] performs the
    next operation of the call the action names, and is [None] when that
    operation blocks.  An action that has a choice in the source (the [select]
    of [Submit]) carries it.

    A send on a closed channel is a Go panic, which ends the process:
    [pl_crashed].  The lists [pl_sent], [pl_taken] and [pl_ran] record the
    tasks in the order in which they entered the channel, left it and
    returned. *)

From S2P Require Import Prelude Errors.

(** A task is known by its number; what it does is not part of the pool. *)
Definition task := nat.

(** * Data *)

Record PoolConfig := mkPoolConfig { pc_Size : Z; pc_QueueSize : Z }.

Definition PoolConfig_withDefaults (c : PoolConfig) : PoolConfig :=
  mkPoolConfig (if (pc_Size c <? 1)%Z then 1%Z else pc_Size c)
    (if (pc_QueueSize c <? 0)%Z then 0%Z else pc_QueueSize c).

(** A worker in [run]: at the receive, before [queued.Add(-1)], before
    [inFlight.Add(1)], in the task, before [inFlight.Add(-1)], or gone. *)
Inductive worker_pc :=
| WReceive
| WTook (t : task)
| WDequeued (t : task)
| WRunning (t : task)
| WReturned
| WExited.

(** Whether the call is [Submit] or [TrySubmit]. *)
Inductive submit_mode := Blocking | Try.

(** A call that submits: before [stopped.Load()], before [queued.Add(1)], in
    the [select], before [queued.Add(-1)], or returned. *)
Inductive submit_pc :=
| CCheck (mode : submit_mode) (t : task)
| CCount (mode : submit_mode) (t : task)
| CSelect (mode : submit_mode) (t : task)
| CUncount (t : task) (err : error)
| CReturned (t : task) (r : result error unit).

(** A call of [Stop]: before [stopOnce.Do], before [stopped.Store(true)],
    before [close(p.tasks)], in [wg.Wait()], or returned. *)
Inductive stop_pc := SOnce | SStore | SClose | SWait | SReturned.

Inductive once := OnceNew | OnceRunning | OnceDone.

#[export] Instance worker_pc_eq_dec : EqDecision worker_pc.
Proof. solve_decision. Defined.
#[export] Instance stop_pc_eq_dec : EqDecision stop_pc.
Proof. solve_decision. Defined.
#[export] Instance once_eq_dec : EqDecision once.
Proof. solve_decision. Defined.

(** [pl_tasks] and [pl_closed] are the channel; [pl_spawning] is how many
    workers the [Start] call has still to start. *)
Record Pool := mkPool {
  pl_config : PoolConfig;
  pl_tasks : list task;
  pl_closed : bool;
  pl_stopOnce : once;
  pl_started : bool;
  pl_stopped : bool;
  pl_inFlight : Z;
  pl_queued : Z;
  pl_spawning : nat;
  pl_workers : list worker_pc;
  pl_submits : list submit_pc;
  pl_stops : list stop_pc;
  pl_sent : list task;
  pl_taken : list task;
  pl_ran : list task;
  pl_crashed : bool;
}.

Definition NewPool (config : PoolConfig) : Pool :=
  mkPool (PoolConfig_withDefaults config) [] false OnceNew false false 0 0 0 [] [] [] [] [] [] false.

Definition pool_size (s : Pool) : nat := Z.to_nat (pc_Size (pl_config s)).
Definition pool_capacity (s : Pool) : nat := Z.to_nat (pc_QueueSize (pl_config s)).

(** [Size], [Capacity], [InFlight], [Queued] *)
Definition Pool_Size (s : Pool) : Z := pc_Size (pl_config s).
Definition Pool_Capacity (s : Pool) : Z := pc_QueueSize (pl_config s).
Definition Pool_InFlight (s : Pool) : Z := pl_inFlight s.
Definition Pool_Queued (s : Pool) : Z := pl_queued s.

(** ** Field assignments *)

Definition on_workers (f : list worker_pc → list worker_pc) (s : Pool) : Pool :=
  mkPool (pl_config s) (pl_tasks s) (pl_closed s) (pl_stopOnce s) (pl_started s) (pl_stopped s)
    (pl_inFlight s) (pl_queued s) (pl_spawning s) (f (pl_workers s)) (pl_submits s) (pl_stops s)
    (pl_sent s) (pl_taken s) (pl_ran s) (pl_crashed s).
Definition on_submits (f : list submit_pc → list submit_pc) (s : Pool) : Pool :=
  mkPool (pl_config s) (pl_tasks s) (pl_closed s) (pl_stopOnce s) (pl_started s) (pl_stopped s)
    (pl_inFlight s) (pl_queued s) (pl_spawning s) (pl_workers s) (f (pl_submits s)) (pl_stops s)
    (pl_sent s) (pl_taken s) (pl_ran s) (pl_crashed s).
Definition on_stops (f : list stop_pc → list stop_pc) (s : Pool) : Pool :=
  mkPool (pl_config s) (pl_tasks s) (pl_closed s) (pl_stopOnce s) (pl_started s) (pl_stopped s)
    (pl_inFlight s) (pl_queued s) (pl_spawning s) (pl_workers s) (pl_submits s) (f (pl_stops s))
    (pl_sent s) (pl_taken s) (pl_ran s) (pl_crashed s).
Definition add_queued (n : Z) (s : Pool) : Pool :=
  mkPool (pl_config s) (pl_tasks s) (pl_closed s) (pl_stopOnce s) (pl_started s) (pl_stopped s)
    (pl_inFlight s) (pl_queued s + n) (pl_spawning s) (pl_workers s) (pl_submits s) (pl_stops s)
    (pl_sent s) (pl_taken s) (pl_ran s) (pl_crashed s).
Definition add_inFlight (n : Z) (s : Pool) : Pool :=
  mkPool (pl_config s) (pl_tasks s) (pl_closed s) (pl_stopOnce s) (pl_started s) (pl_stopped s)
    (pl_inFlight s + n) (pl_queued s) (pl_spawning s) (pl_workers s) (pl_submits s) (pl_stops s)
    (pl_sent s) (pl_taken s) (pl_ran s) (pl_crashed s).
Definition send (t : task) (s : Pool) : Pool :=
  mkPool (pl_config s) (pl_tasks s ++ [t]) (pl_closed s) (pl_stopOnce s) (pl_started s) (pl_stopped s)
    (pl_inFlight s) (pl_queued s) (pl_spawning s) (pl_workers s) (pl_submits s) (pl_stops s)
    (pl_sent s ++ [t]) (pl_taken s) (pl_ran s) (pl_crashed s).
Definition receive (t : task) (rest : list task) (s : Pool) : Pool :=
  mkPool (pl_config s) rest (pl_closed s) (pl_stopOnce s) (pl_started s) (pl_stopped s)
    (pl_inFlight s) (pl_queued s) (pl_spawning s) (pl_workers s) (pl_submits s) (pl_stops s)
    (pl_sent s) (pl_taken s ++ [t]) (pl_ran s) (pl_crashed s).
Definition returned (t : task) (s : Pool) : Pool :=
  mkPool (pl_config s) (pl_tasks s) (pl_closed s) (pl_stopOnce s) (pl_started s) (pl_stopped s)
    (pl_inFlight s) (pl_queued s) (pl_spawning s) (pl_workers s) (pl_submits s) (pl_stops s)
    (pl_sent s) (pl_taken s) (pl_ran s ++ [t]) (pl_crashed s).
Definition set_start (started : bool) (spawning : nat) (s : Pool) : Pool :=
  mkPool (pl_config s) (pl_tasks s) (pl_closed s) (pl_stopOnce s) started (pl_stopped s)
    (pl_inFlight s) (pl_queued s) spawning (pl_workers s) (pl_submits s) (pl_stops s)
    (pl_sent s) (pl_taken s) (pl_ran s) (pl_crashed s).
Definition set_stop (closed : bool) (o : once) (stopped : bool) (s : Pool) : Pool :=
  mkPool (pl_config s) (pl_tasks s) closed o (pl_started s) stopped
    (pl_inFlight s) (pl_queued s) (pl_spawning s) (pl_workers s) (pl_submits s) (pl_stops s)
    (pl_sent s) (pl_taken s) (pl_ran s) (pl_crashed s).
Definition crash (s : Pool) : Pool :=
  mkPool (pl_config s) (pl_tasks s) (pl_closed s) (pl_stopOnce s) (pl_started s) (pl_stopped s)
    (pl_inFlight s) (pl_queued s) (pl_spawning s) (pl_workers s) (pl_submits s) (pl_stops s)
    (pl_sent s) (pl_taken s) (pl_ran s) true.

(** * Steps *)

(** What a [select] with a ready choice does: send, hand the task straight to
    a worker that is receiving, see the context ended with an error, or take
    the [default] case. *)
Inductive choice :=
| ChSend
| ChHand (worker : nat)
| ChDone (err : error)
| ChDefault.

Inductive action :=
| AStart
| ASpawn
| AWorker (i : nat)
| ASubmit (mode : submit_mode) (t : task)
| AClient (i : nat) (c : choice)
| AStop
| AStopper (i : nat).

(** [Start]: the compare-and-swap; then each turn of its loop. *)
Definition Pool_Start (s : Pool) : option Pool :=
  Some (if pl_started s then s else set_start true (pool_size s) s).
Definition spawn (s : Pool) : option Pool :=
  match pl_spawning s with
  | O => None
  | S n => Some (on_workers (fun l => l ++ [WReceive]) (set_start (pl_started s) n s))
  end.

(** [run] *)
Definition run (i : nat) (s : Pool) : option Pool :=
  match pl_workers s !! i with
  | Some WReceive =>
      match pl_tasks s with
      | t :: rest => Some (on_workers (insert i (WTook t)) (receive t rest s))
      | [] => if pl_closed s then Some (on_workers (insert i WExited) s) else None
      end
  | Some (WTook t) => Some (on_workers (insert i (WDequeued t)) (add_queued (-1) s))
  | Some (WDequeued t) => Some (on_workers (insert i (WRunning t)) (add_inFlight 1 s))
  | Some (WRunning t) => Some (on_workers (insert i WReturned) (returned t s))
  | Some WReturned => Some (on_workers (insert i WReceive) (add_inFlight (-1) s))
  | Some WExited | None => None
  end.

(** The [select] of [Submit] and [TrySubmit].  A worker at [WReceive] may or
    may not be parked in the receive already, so with a full buffer both a
    hand-over to it and the [default] case are possible. *)
Definition select (i : nat) (mode : submit_mode) (t : task) (c : choice) (s : Pool) : option Pool :=
  match c with
  | ChSend =>
      if pl_closed s then Some (crash s)
      else if decide (length (pl_tasks s) < pool_capacity s)
      then Some (on_submits (insert i (CReturned t (Ok tt))) (send t s))
      else None
  | ChHand w =>
      match pl_workers s !! w, pl_tasks s with
      | Some WReceive, [] =>
          if pl_closed s then None
          else Some (on_submits (insert i (CReturned t (Ok tt)))
                 (on_workers (insert w (WTook t)) (receive t [] (send t s))))
      | _, _ => None
      end
  | ChDone err =>
      match mode with
      | Blocking => Some (on_submits (insert i (CUncount t err)) s)
      | Try => None
      end
  | ChDefault =>
      match mode with
      | Blocking => None
      | Try =>
          if pl_closed s || bool_decide (length (pl_tasks s) < pool_capacity s) then None
          else Some (on_submits (insert i (CUncount t (OtherErr ErrPoolSaturated))) s)
      end
  end.

(** [Submit] and [TrySubmit] *)
Definition Submit (i : nat) (c : choice) (s : Pool) : option Pool :=
  match pl_submits s !! i with
  | Some (CCheck mode t) =>
      Some (on_submits (insert i (if pl_stopped s then CReturned t (Err (OtherErr ErrPoolStopped))
                                  else CCount mode t)) s)
  | Some (CCount mode t) => Some (on_submits (insert i (CSelect mode t)) (add_queued 1 s))
  | Some (CSelect mode t) => select i mode t c s
  | Some (CUncount t err) => Some (on_submits (insert i (CReturned t (Err err))) (add_queued (-1) s))
  | Some (CReturned _ _) | None => None
  end.

(** [wg] is at zero: every started worker is gone. *)
Definition drained (s : Pool) : bool := forallb (fun w => bool_decide (w = WExited)) (pl_workers s).

(** [Stop] *)
Definition Pool_Stop (i : nat) (s : Pool) : option Pool :=
  match pl_stops s !! i with
  | Some SOnce =>
      match pl_stopOnce s with
      | OnceNew => Some (on_stops (insert i SStore) (set_stop (pl_closed s) OnceRunning (pl_stopped s) s))
      | OnceRunning => None
      | OnceDone => Some (on_stops (insert i SWait) s)
      end
  | Some SStore => Some (on_stops (insert i SClose) (set_stop (pl_closed s) (pl_stopOnce s) true s))
  | Some SClose =>
      if pl_closed s then Some (crash s)
      else Some (on_stops (insert i SWait) (set_stop true OnceDone (pl_stopped s) s))
  | Some SWait => if drained s then Some (on_stops (insert i SReturned) s) else None
  | Some SReturned | None => None
  end.

Definition pool_step (a : action) (s : Pool) : option Pool :=
  if pl_crashed s then None else
  match a with
  | AStart => Pool_Start s
  | ASpawn => spawn s
  | AWorker i => run i s
  | ASubmit mode t => Some (on_submits (fun l => l ++ [CCheck mode t]) s)
  | AClient i c => Submit i c s
  | AStop => Some (on_stops (fun l => l ++ [SOnce]) s)
  | AStopper i => Pool_Stop i s
  end.

Fixpoint pool_run (acts : list action) (s : Pool) : option Pool :=
  match acts with
  | [] => Some s
  | a :: rest => match pool_step a s with None => None | Some s' => pool_run rest s' end
  end.

Inductive pool_reachable (config : PoolConfig) : Pool → Prop :=
| reach_new : pool_reachable config (NewPool config)
| reach_step a s s' :
    pool_reachable config s → pool_step a s = Some s' → pool_reachable config s'.

(** * A consumer and its pool

    [Engine.Subscribe] starts the pool and one dispatcher goroutine, which
    submits one task at a time and returns when it finds its context
    cancelled; [Consumer.Stop] cancels the context, waits for the dispatcher
    to return and then stops the pool. *)

Record ConsumerRun := mkConsumerRun {
  cn_pool : Pool;
  cn_cancelled : bool;
  cn_done : bool;
}.

Definition submit_returned (c : submit_pc) : bool :=
  match c with CReturned _ _ => true | _ => false end.
Definition dispatcher_free (s : Pool) : bool := forallb submit_returned (pl_submits s).

(** The steps a call in progress takes by itself. *)
Definition internal (a : action) : bool :=
  match a with AStart | ASubmit _ _ | AStop => false | _ => true end.

Inductive consumer_action :=
| KPool (a : action)
| KSubmit (t : task)
| KCancel
| KExit
| KStopPool.

Definition set_pool (p : Pool) (k : ConsumerRun) : ConsumerRun :=
  mkConsumerRun p (cn_cancelled k) (cn_done k).

Definition consumer_step (a : consumer_action) (k : ConsumerRun) : option ConsumerRun :=
  match a with
  | KPool a =>
      if internal a then (fun p => set_pool p k) <$> pool_step a (cn_pool k) else None
  | KSubmit t =>
      if cn_done k || negb (dispatcher_free (cn_pool k)) then None
      else (fun p => set_pool p k) <$> pool_step (ASubmit Blocking t) (cn_pool k)
  | KCancel => Some (mkConsumerRun (cn_pool k) true (cn_done k))
  | KExit =>
      if cn_cancelled k && dispatcher_free (cn_pool k)
      then Some (mkConsumerRun (cn_pool k) (cn_cancelled k) true) else None
  | KStopPool =>
      if cn_done k then (fun p => set_pool p k) <$> pool_step AStop (cn_pool k) else None
  end.

(** The pool as [Subscribe] hands it to the dispatcher: created and started. *)
Definition subscribed (spec_Concurrency spec_Prefetch : Z) : option ConsumerRun :=
  (fun p => mkConsumerRun p false false) <$>
  (let p := NewPool (mkPoolConfig spec_Concurrency spec_Prefetch) in
   pool_run (AStart :: replicate (pool_size p) ASpawn) p).

Inductive consumer_reachable (concurrency prefetch : Z) : ConsumerRun → Prop :=
| creach_new k : subscribed concurrency prefetch = Some k → consumer_reachable concurrency prefetch k
| creach_step a k k' :
    consumer_reachable concurrency prefetch k → consumer_step a k = Some k' →
    consumer_reachable concurrency prefetch k'.
