(* ===== verification/WorkerProofs.v ===== *)
(** What the worker pool promises, under every interleaving of its calls. *)

From S2P Require Import Prelude Errors Worker.

(** * Sums and concatenations over the calls in progress *)

Lemma sum_insert {A} (f : A → nat) l i x y :
  l !! i = Some x → sum_list_with f (<[i:=y]> l) + f x = sum_list_with f l + f y.
Proof.
  revert i. induction l as [|z l IH]; intros [|i] Hi; simplify_eq/=; [lia|].
  pose proof (IH i Hi). lia.
Qed.

Lemma concat_insert {A B} (f : A → list B) l i x y :
  l !! i = Some x → concat (f <$> <[i:=y]> l) ++ f x ≡ₚ concat (f <$> l) ++ f y.
Proof.
  revert i. induction l as [|z l IH]; intros [|i] Hi; simplify_eq/=.
  - solve_Permutation.
  - rewrite <-!app_assoc, (IH i Hi). solve_Permutation.
Qed.

(** Replacing what stands at [i]: the two uses of [concat_insert]. *)
Lemma concat_insert_same {A B} (f : A → list B) l i x y :
  l !! i = Some x → f y = f x → concat (f <$> <[i:=y]> l) ≡ₚ concat (f <$> l).
Proof.
  intros Hi Hf. pose proof (concat_insert f l i x y Hi) as Hp. rewrite Hf in Hp. by apply Permutation_app_inv_r in Hp.
Qed.
Lemma concat_insert_gain {A B} (f : A → list B) l i x y :
  l !! i = Some x → f x = [] → concat (f <$> <[i:=y]> l) ≡ₚ concat (f <$> l) ++ f y.
Proof. intros Hi Hf. rewrite <-(concat_insert f l i x y Hi), Hf. by rewrite app_nil_r. Qed.

Lemma sum_ge {A} (f : A → nat) l i x : l !! i = Some x → f x ≤ sum_list_with f l.
Proof.
  revert i. induction l as [|z l IH]; intros [|i] Hi; simplify_eq/=; [lia|]. pose proof (IH i Hi). lia.
Qed.

Lemma sum_le {A} (f : A → nat) l : (∀ x, f x ≤ 1) → sum_list_with f l ≤ length l.
Proof. intros Hf. induction l as [|x l IH]; simpl; [done|]. pose proof (Hf x). lia. Qed.

(** * The invariant *)

(** The task a worker holds, and what each call adds to the counters. *)
Definition held (w : worker_pc) : list task :=
  match w with WTook t | WDequeued t | WRunning t => [t] | _ => [] end.
Definition running (w : worker_pc) : nat :=
  match w with WRunning _ | WReturned => 1 | _ => 0 end.
Definition undequeued (w : worker_pc) : nat := match w with WTook _ => 1 | _ => 0 end.
Definition counting (c : submit_pc) : nat :=
  match c with CSelect _ _ | CUncount _ _ => 1 | _ => 0 end.
Definition accepted (c : submit_pc) : list task :=
  match c with CReturned t (Ok _) => [t] | _ => [] end.
Definition stopping (c : stop_pc) : nat := match c with SStore | SClose => 1 | _ => 0 end.

(** Tasks whose [Submit] or [TrySubmit] returned nil. *)
Definition accepted_tasks (s : Pool) : list task := concat (accepted <$> pl_submits s).
Definition held_tasks (s : Pool) : list task := concat (held <$> pl_workers s).

Record pool_inv (s : Pool) : Prop := {
  pi_size : 1 ≤ pool_size s;
  pi_buffer : length (pl_tasks s) ≤ pool_capacity s;
  pi_fifo : pl_sent s = pl_taken s ++ pl_tasks s;
  pi_taken : pl_taken s ≡ₚ pl_ran s ++ held_tasks s;
  pi_sent : pl_sent s ≡ₚ accepted_tasks s;
  pi_queued : pl_queued s = Z.of_nat (sum_list_with counting (pl_submits s) + length (pl_tasks s) +
                                      sum_list_with undequeued (pl_workers s));
  pi_inFlight : pl_inFlight s = Z.of_nat (sum_list_with running (pl_workers s));
  pi_exited : WExited ∈ pl_workers s → pl_closed s = true ∧ pl_tasks s = [];
  pi_spawn : length (pl_workers s) + pl_spawning s = if pl_started s then pool_size s else 0;
  pi_once : match pl_stopOnce s with
            | OnceNew => pl_closed s = false ∧ pl_stopped s = false ∧ sum_list_with stopping (pl_stops s) = 0
            | OnceRunning => pl_closed s = false ∧ sum_list_with stopping (pl_stops s) = 1
            | OnceDone => pl_closed s = true ∧ pl_stopped s = true ∧ sum_list_with stopping (pl_stops s) = 0
            end;
  pi_stores : SClose ∈ pl_stops s → pl_stopped s = true;
}.

Lemma NewPool_inv config : pool_inv (NewPool config).
Proof.
  split; simpl; try done; try (by intros ?%elem_of_nil); try lia.
  - unfold pool_size. simpl. case_match; lia.
Qed.

(** * The invariant is preserved *)

Lemma elem_of_insert_ne {A} (l : list A) i x z : x ≠ z → z ∈ <[i:=x]> l → z ∈ l.
Proof.
  intros Hne [j Hj]%list_elem_of_lookup_1. destruct (decide (i = j)) as [<-|Hij].
  - destruct (decide (i < length l)) as [Hlt|Hge].
    + rewrite list_lookup_insert_eq in Hj by done. congruence.
    + rewrite list_insert_ge in Hj by lia. by eapply list_elem_of_lookup_2.
  - rewrite list_lookup_insert_ne in Hj by done. by eapply list_elem_of_lookup_2.
Qed.

(** The effect of replacing the worker, submission or stop call at [i]. *)
Ltac worker_facts Hi y :=
  pose proof (sum_insert running _ _ _ y Hi) as Hrun;
  pose proof (sum_insert undequeued _ _ _ y Hi) as Hund;
  pose proof (concat_insert held _ _ _ y Hi) as Hheld;
  cbn [running undequeued held] in Hrun, Hund, Hheld.
Ltac client_facts Hi y :=
  pose proof (sum_insert counting _ _ _ y Hi) as Hcnt;
  pose proof (concat_insert accepted _ _ _ y Hi) as Hacc;
  cbn [counting accepted] in Hcnt, Hacc.

(** The fields of the invariant of a changed state, the unchanged ones closed. *)
Ltac inv_fields :=
  split; unfold pool_size, pool_capacity, held_tasks, accepted_tasks in *; simpl;
  rewrite ?length_insert, ?length_app, ?app_nil_r in *; simpl; try done; try lia.

Lemma run_inv i s s' : pool_inv s → run i s = Some s' → pool_inv s'.
Proof.
  intros [] Hrun. unfold run in Hrun. destruct (pl_workers s !! i) as [w|] eqn:Hi; [|done].
  assert (∀ w', w' ≠ WExited → WExited ∈ <[i:=w']> (pl_workers s) → pl_closed s = true ∧ pl_tasks s = [])
    as Hex by (intros; eauto using elem_of_insert_ne).
  destruct w as [|t|t|t| |].
  - destruct (pl_tasks s) as [|t rest] eqn:Ht.
    + destruct (pl_closed s) eqn:Hc; simplify_eq. worker_facts Hi WExited. inv_fields.
      all: rewrite ?Ht, ?app_nil_r; simpl in *; try done; try lia; try (by rewrite Hc).
      by rewrite pi_taken0, Hheld.
    + simplify_eq. worker_facts Hi (WTook t). inv_fields.
      * simpl in pi_buffer0. lia.
      * by rewrite <-app_assoc.
      * rewrite pi_taken0, Hheld. solve_Permutation.
      * simpl in pi_queued0. lia.
      * intros Hin. exfalso. by destruct (Hex (WTook t)).
  - simplify_eq. worker_facts Hi (WDequeued t). inv_fields; [|by apply Hex].
    rewrite pi_taken0. apply Permutation_app_inv_r in Hheld. by rewrite Hheld.
  - simplify_eq. worker_facts Hi (WRunning t). inv_fields; [|by apply Hex].
    rewrite pi_taken0. apply Permutation_app_inv_r in Hheld. by rewrite Hheld.
  - simplify_eq. worker_facts Hi WReturned. inv_fields; [|by apply Hex].
    rewrite pi_taken0, <-Hheld. solve_Permutation.
  - simplify_eq. worker_facts Hi WReceive. inv_fields; [|by apply Hex]. by rewrite pi_taken0, Hheld.
  - done.
Qed.

(** A submission call that moves on without touching the channel. *)
Lemma on_submits_inv i c c' s :
  pool_inv s → pl_submits s !! i = Some c → accepted c' = accepted c →
  pool_inv (add_queued (Z.of_nat (counting c') - Z.of_nat (counting c)) (on_submits (insert i c') s)).
Proof.
  intros [] Hi Ha. pose proof (sum_insert counting _ _ _ c' Hi) as Hcnt.
  pose proof (concat_insert_same accepted _ _ _ c' Hi Ha) as Hacc. inv_fields. by rewrite pi_sent0.
Qed.

Lemma add_queued_0 s : add_queued 0 s = s.
Proof. destruct s. unfold add_queued. simpl. by rewrite Z.add_0_r. Qed.

Lemma crash_inv s : pool_inv s → pool_inv (crash s).
Proof. intros []. by split. Qed.

Lemma select_inv i mode t c s s' :
  pool_inv s → pl_submits s !! i = Some (CSelect mode t) → select i mode t c s = Some s' → pool_inv s'.
Proof.
  intros Hinv Hi Hsel. destruct c as [|w|err|]; simpl in Hsel.
  - destruct (pl_closed s) eqn:Hc; simplify_eq; [by apply crash_inv|].
    case_decide; simplify_eq. destruct Hinv. client_facts Hi (CReturned t (Ok ())).
    inv_fields.
    + by rewrite pi_fifo0, app_assoc.
    + by rewrite pi_sent0, Hacc.
    + intros [? _]%pi_exited0. congruence.
  - destruct (pl_workers s !! w) as [[]|] eqn:Hw; try done. destruct (pl_tasks s) eqn:Ht; [|done].
    destruct (pl_closed s) eqn:Hc; simplify_eq. destruct Hinv. client_facts Hi (CReturned t (Ok ())).
    worker_facts Hw (WTook t). rewrite Ht in *. inv_fields.
    + by rewrite pi_fifo0.
    + rewrite pi_taken0, Hheld. solve_Permutation.
    + by rewrite pi_sent0, Hacc.
    + simpl in pi_queued0. lia.
    + intros Hin%elem_of_insert_ne; [|done]. by apply pi_exited0 in Hin as [? _]; congruence.
  - destruct mode; simplify_eq. pose proof (on_submits_inv i _ (CUncount t err) s Hinv Hi eq_refl) as Hs.
    simpl in Hs. by rewrite add_queued_0 in Hs.
  - destruct mode; [done|]. case_match; simplify_eq.
    pose proof (on_submits_inv i _ (CUncount t (OtherErr ErrPoolSaturated)) s Hinv Hi eq_refl) as Hs.
    simpl in Hs. by rewrite add_queued_0 in Hs.
Qed.

Lemma Submit_inv i c s s' : pool_inv s → Submit i c s = Some s' → pool_inv s'.
Proof.
  intros Hinv Hsub. unfold Submit in Hsub. destruct (pl_submits s !! i) as [p|] eqn:Hi; [|done].
  destruct p as [mode t|mode t|mode t|t err|]; simplify_eq.
  - rewrite <-(add_queued_0 (on_submits _ s)). destruct (pl_stopped s).
    + apply (on_submits_inv i _ (CReturned t (Err (OtherErr ErrPoolStopped))) s Hinv Hi eq_refl).
    + apply (on_submits_inv i _ (CCount mode t) s Hinv Hi eq_refl).
  - apply (on_submits_inv i _ (CSelect mode t) s Hinv Hi eq_refl).
  - by eapply select_inv.
  - apply (on_submits_inv i _ (CReturned t (Err err)) s Hinv Hi eq_refl).
Qed.

Lemma Stop_inv i s s' : pool_inv s → Pool_Stop i s = Some s' → pool_inv s'.
Proof.
  intros [] Hstop. unfold Pool_Stop in Hstop. destruct (pl_stops s !! i) as [p|] eqn:Hi; [|done].
  pose proof (sum_ge stopping _ _ _ Hi) as Hge. destruct p; simplify_eq/=.
  - destruct (pl_stopOnce s) eqn:Ho; simplify_eq.
    + pose proof (sum_insert stopping _ _ _ SStore Hi) as Hs. simpl in Hs. inv_fields.
      * destruct pi_once0 as (? & ? & ?). split; [done|lia].
      * intros Hin%elem_of_insert_ne; [|done]. auto.
    + pose proof (sum_insert stopping _ _ _ SWait Hi) as Hs. simpl in Hs. inv_fields.
      * rewrite Ho. destruct pi_once0 as (? & ? & ?). split_and!; [done..|lia].
      * intros Hin%elem_of_insert_ne; [|done]. auto.
  - pose proof (sum_insert stopping _ _ _ SClose Hi) as Hs. simpl in Hs. inv_fields.
    destruct (pl_stopOnce s); [lia| |lia]. destruct pi_once0. split; [done|lia].
  - assert (pl_stopped s = true) as Hst by (apply pi_stores0; by eapply list_elem_of_lookup_2).
    destruct (pl_closed s) eqn:Hc; simplify_eq; [destruct (pl_stopOnce s); naive_solver lia|].
    pose proof (sum_insert stopping _ _ _ SWait Hi) as Hs. simpl in Hs. inv_fields.
    + intros [? _]%pi_exited0. congruence.
    + destruct (pl_stopOnce s); [lia| |by destruct pi_once0]. destruct pi_once0. split_and!; [done..|lia].
  - destruct (drained s) eqn:Hd; simplify_eq.
    pose proof (sum_insert stopping _ _ _ SReturned Hi) as Hs. simpl in Hs. inv_fields.
    + destruct (pl_stopOnce s); intuition lia.
    + intros Hin%elem_of_insert_ne; [|done]. auto.
Qed.

Lemma pool_step_inv a s s' : pool_inv s → pool_step a s = Some s' → pool_inv s'.
Proof.
  intros Hinv Hstep. unfold pool_step in Hstep. destruct (pl_crashed s); [done|].
  destruct a as [| |i|mode t|i c| |i]; simplify_eq.
  - unfold Pool_Start in Hstep. simplify_eq. destruct (pl_started s) eqn:Hst; [done|].
    destruct Hinv. rewrite Hst in *. inv_fields.
  - unfold spawn in Hstep. destruct (pl_spawning s) as [|n] eqn:Hsp; simplify_eq. destruct Hinv.
    inv_fields; rewrite ?fmap_app, ?concat_app, ?sum_list_with_app; simpl; rewrite ?app_nil_r; try done; try lia.
    intros [Hin|Hin%list_elem_of_singleton]%elem_of_app; [auto|done].
  - by eapply run_inv.
  - destruct Hinv. inv_fields; rewrite ?fmap_app, ?concat_app, ?sum_list_with_app; simpl;
      rewrite ?app_nil_r; try done; try lia.
  - by eapply Submit_inv.
  - destruct Hinv. inv_fields; rewrite ?sum_list_with_app; simpl.
    + destruct (pl_stopOnce s); intuition lia.
    + intros [Hin|Hin%list_elem_of_singleton]%elem_of_app; [auto|done].
  - by eapply Stop_inv.
Qed.

Lemma pool_reachable_inv config s : pool_reachable config s → pool_inv s.
Proof. induction 1; eauto using NewPool_inv, pool_step_inv. Qed.

(** * Draining *)

Lemma drained_exited s : drained s = true → ∀ w, w ∈ pl_workers s → w = WExited.
Proof.
  unfold drained. rewrite forallb_forall. intros Hall w Hw.
  apply (bool_decide_eq_true_1 (w = WExited)), Hall. by apply list_elem_of_In.
Qed.

Lemma sum_zero {A} (f : A → nat) l : (∀ x, x ∈ l → f x = 0) → sum_list_with f l = 0.
Proof. intros Hf. induction l as [|x l IH]; simpl; [done|]. rewrite (Hf x), IH; set_solver. Qed.

Lemma held_nothing l : (∀ w, w ∈ l → w = WExited) → concat (held <$> l) = [].
Proof.
  induction l as [|x l IH]; intros Hex; [done|]. rewrite fmap_cons. simpl.
  rewrite (Hex x), IH; [done|set_solver..].
Qed.

Lemma drained_empty s :
  pool_inv s → pl_started s = true → pl_spawning s = 0 → drained s = true →
  pl_tasks s = [] ∧ pl_inFlight s = 0%Z ∧ accepted_tasks s ≡ₚ pl_ran s.
Proof.
  intros [] Hst Hsp Hd. pose proof (drained_exited s Hd) as Hex. rewrite Hst, Hsp in pi_spawn0.
  destruct (pl_workers s) as [|w ws] eqn:Hw; [simpl in *; lia|].
  assert (w = WExited) as -> by (apply Hex; set_solver).
  destruct pi_exited0 as [_ Ht]; [set_solver|]. split; [done|]. split.
  - rewrite pi_inFlight0, sum_zero; [done|]. by intros x ->%Hex.
  - rewrite <-pi_sent0, pi_fifo0, Ht, app_nil_r, pi_taken0. unfold held_tasks. rewrite Hw.
    by rewrite held_nothing, app_nil_r.
Qed.

Definition is_worker (a : action) : bool := match a with AWorker _ => true | _ => false end.

(** How many steps a worker is from its exit, and all of them together. *)
Definition rank (w : worker_pc) : nat :=
  match w with WReceive => 1 | WTook _ => 5 | WDequeued _ => 4 | WRunning _ => 3 | WReturned => 2 | WExited => 0 end.
Definition work (s : Pool) : nat := 5 * length (pl_tasks s) + sum_list_with rank (pl_workers s).

Lemma run_work i s s' :
  run i s = Some s' → work s' < work s ∧ pl_closed s' = pl_closed s ∧ pl_crashed s' = pl_crashed s.
Proof.
  unfold run, work. destruct (pl_workers s !! i) as [w|] eqn:Hi; [|done].
  pose proof (fun y => sum_insert rank _ _ _ y Hi) as Hsum.
  destruct w as [|t|t|t| |]; intros Hrun; [destruct (pl_tasks s) as [|t rest] eqn:Ht; [case_match|]|..];
    simplify_eq; simpl; rewrite ?Ht; (split; [|done]);
    match goal with |- context [<[i:=?y]> _] => pose proof (Hsum y) as Hy end; simpl in *; lia.
Qed.

Lemma run_enabled s :
  pl_closed s = true → pl_crashed s = false → drained s = false → ∃ i, is_Some (pool_step (AWorker i) s).
Proof.
  intros Hc Hcr Hd. unfold drained in Hd.
  assert (∃ i w, pl_workers s !! i = Some w ∧ w ≠ WExited) as (i & w & Hi & Hw).
  { induction (pl_workers s) as [|x l IH]; [done|]. simpl in Hd. apply andb_false_iff in Hd as [Hx|Hd].
    - exists 0, x. split; [done|]. by apply bool_decide_eq_false_1 in Hx.
    - destruct (IH Hd) as (i & w & ? & ?). by exists (S i), w. }
  exists i. unfold pool_step, run. rewrite Hcr, Hi, Hc. destruct w, (pl_tasks s); eauto; done.
Qed.

Lemma workers_run acts s s' :
  forallb is_worker acts = true → pool_run acts s = Some s' →
  length acts + work s' ≤ work s ∧ pl_closed s' = pl_closed s ∧ pl_crashed s' = pl_crashed s.
Proof.
  revert s. induction acts as [|a acts IH]; intros s Hw Hrun; simplify_eq/=; [done|].
  apply andb_true_iff in Hw as [Ha Hw]. destruct (pool_step a s) as [s1|] eqn:Hs; [|done].
  destruct a; try done. unfold pool_step in Hs. destruct (pl_crashed s) eqn:Hcr; [done|].
  apply run_work in Hs as (? & ? & ?). apply IH in Hrun as (? & ? & ?); [|done].
  split_and!; [lia|congruence..].
Qed.

(** * The consumer's protocol *)

Record consumer_inv (k : ConsumerRun) : Prop := {
  ci_pool : pool_inv (cn_pool k);
  ci_started : pl_started (cn_pool k) = true ∧ pl_spawning (cn_pool k) = 0;
  ci_stops : pl_stops (cn_pool k) ≠ [] → cn_done k = true;
  ci_closed : pl_closed (cn_pool k) = true → cn_done k = true;
  ci_free : cn_done k = true → dispatcher_free (cn_pool k) = true;
  ci_crashed : pl_crashed (cn_pool k) = false;
}.

Lemma spawn_all n s :
  pl_crashed s = false → pl_spawning s = n →
  ∃ s', pool_run (replicate n ASpawn) s = Some s' ∧ pl_spawning s' = 0 ∧ pl_started s' = pl_started s ∧
    pl_stops s' = pl_stops s ∧ pl_closed s' = pl_closed s ∧ pl_submits s' = pl_submits s ∧
    pl_crashed s' = false.
Proof.
  revert s. induction n as [|n IH]; intros s Hc Hn; [by exists s|]. simpl.
  unfold pool_step, spawn. rewrite Hc, Hn.
  destruct (IH (on_workers (fun l => l ++ [WReceive]) (set_start (pl_started s) n s))) as (s' & ? & ? & ? & ?);
    [done..|]. by exists s'.
Qed.

Lemma pool_run_inv acts s s' : pool_inv s → pool_run acts s = Some s' → pool_inv s'.
Proof.
  revert s. induction acts as [|a acts IH]; intros s Hi Hr; simplify_eq/=; [done|].
  destruct (pool_step a s) eqn:Hs; [|done]. eauto using pool_step_inv.
Qed.

Lemma subscribed_inv c p k : subscribed c p = Some k → consumer_inv k.
Proof.
  unfold subscribed. set (s0 := NewPool (mkPoolConfig c p)). intros Hk.
  destruct (spawn_all (pool_size s0) (set_start true (pool_size s0) s0))
    as (s' & Hrun & ? & Hst & Hsp & Hcl & Hsub & ?); [done..|].
  assert (pool_run (AStart :: replicate (pool_size s0) ASpawn) s0 = Some s') as Hall by exact Hrun.
  pose proof (pool_run_inv _ _ _ (NewPool_inv _) Hall) as Hpi.
  rewrite Hall in Hk. injection Hk as <-. simpl in *.
  split; simpl; [done|done|by rewrite Hsp|by rewrite Hcl|done|done].
Qed.

Lemma free_lookup s i c :
  dispatcher_free s = true → pl_submits s !! i = Some c → submit_returned c = true.
Proof.
  unfold dispatcher_free. rewrite forallb_forall. intros Hf Hi. apply Hf, list_elem_of_In.
  by eapply list_elem_of_lookup_2.
Qed.

(** What a step of a call in progress leaves alone. *)
Record quiet_step (s s' : Pool) : Prop := {
  qs_started : pl_started s' = pl_started s;
  qs_stops : pl_stops s ≠ [] ∨ pl_stops s' = pl_stops s ∧ pl_closed s' = pl_closed s;
  qs_free : dispatcher_free s = true → pl_submits s' = pl_submits s;
}.

Lemma internal_quiet a s s' : internal a = true → pool_step a s = Some s' → quiet_step s s'.
Proof.
  unfold pool_step. destruct (pl_crashed s); [done|]. destruct a as [| |i|mode t|i c| |i]; intros Hi Hs; try done.
  - unfold spawn in Hs. case_match; simplify_eq. split; simpl; auto.
  - unfold run in Hs. repeat case_match; simplify_eq; split; simpl; auto.
  - unfold Submit in Hs. destruct (pl_submits s !! i) as [p|] eqn:Hp; [|done].
    assert (dispatcher_free s = true → p = p → submit_returned p = true) as Hf by eauto using free_lookup.
    destruct p; try done; unfold select in Hs; repeat case_match; simplify_eq; split; simpl; auto;
      intros Hfree; by specialize (Hf Hfree eq_refl).
  - assert (pl_stops s ≠ []) as Hne.
    { intros Hnil. unfold Pool_Stop in Hs. by rewrite Hnil, lookup_nil in Hs. }
    unfold Pool_Stop in Hs. repeat case_match; simplify_eq; split; simpl; auto.
Qed.

Lemma internal_spawning a s s' :
  internal a = true → pool_step a s = Some s' → pl_spawning s = 0 → pl_spawning s' = 0.
Proof.
  unfold pool_step. destruct (pl_crashed s); [done|]. destruct a as [| |i|mode t|i c| |i]; intros Hi Hs Hz; try done;
    unfold spawn, run, Submit, select, Pool_Stop in Hs; repeat case_match; simplify_eq; done.
Qed.

(** The two panics: a send and a close on a closed channel. *)
Lemma pool_step_crash a s s' :
  pool_inv s → pool_step a s = Some s' → pl_crashed s' = true →
  pl_closed s = true ∧ dispatcher_free s = false.
Proof.
  intros Hinv. unfold pool_step. destruct (pl_crashed s) eqn:Hcr; [done|].
  destruct a as [| |i|mode t|i c| |i]; intros Hs Hc;
    [unfold Pool_Start in Hs; repeat case_match; simplify_eq; simpl in *; congruence
    |unfold spawn in Hs; repeat case_match; simplify_eq; simpl in *; congruence
    |unfold run in Hs; repeat case_match; simplify_eq; simpl in *; congruence
    |simplify_eq; simpl in *; congruence| |simplify_eq; simpl in *; congruence|].
  - unfold Submit in Hs. destruct (pl_submits s !! i) as [p|] eqn:Hp; [|done].
    destruct (dispatcher_free s) eqn:Hf; [pose proof (free_lookup s i p Hf Hp)|];
      destruct p; try done; unfold select in Hs; repeat case_match; simplify_eq; simpl in *; try congruence.
    by split.
  - unfold Pool_Stop in Hs. destruct (pl_stops s !! i) as [p|] eqn:Hp; [|done].
    pose proof (sum_ge stopping _ _ _ Hp) as Hge. destruct Hinv.
    destruct p; repeat case_match; simplify_eq; simpl in *; try congruence; intuition (congruence || lia).
Qed.

Lemma consumer_step_inv a k k' : consumer_inv k → consumer_step a k = Some k' → consumer_inv k'.
Proof.
  intros [Hp [Hst Hsp] Hstops Hclosed Hfree Hcr] Hs. destruct a as [a|t| | |]; simpl in Hs.
  - destruct (internal a) eqn:Ha; [|done]. destruct (pool_step a (cn_pool k)) as [p|] eqn:Hstep; [|done].
    simpl in Hs. simplify_eq. pose proof (internal_quiet _ _ _ Ha Hstep) as [Hq1 Hq2 Hq3]. split; simpl.
    + by eapply pool_step_inv.
    + split; [congruence|by eapply internal_spawning].
    + destruct Hq2 as [?|[-> _]]; auto.
    + destruct Hq2 as [?|[_ ->]]; auto.
    + intros Hd. unfold dispatcher_free. rewrite Hq3; auto.
    + destruct (pl_crashed p) eqn:Hpc; [|done]. destruct (pool_step_crash _ _ _ Hp Hstep Hpc) as [Hc Hf].
      by rewrite (Hfree (Hclosed Hc)) in Hf.
  - destruct (cn_done k) eqn:Hd; [done|]. destruct (dispatcher_free (cn_pool k)) eqn:Hf; [|done].
    destruct (pool_step _ _) as [p|] eqn:Hstep; [|done]. simpl in Hs. injection Hs as <-.
    pose proof (pool_step_inv _ _ _ Hp Hstep) as Hpi.
    unfold pool_step in Hstep. rewrite Hcr in Hstep. injection Hstep as <-. split; simpl; rewrite ?Hd; done.
  - simplify_eq. by split.
  - case_match eqn:Hb; simplify_eq. apply andb_true_iff in Hb as [? ?]. by split.
  - destruct (cn_done k) eqn:Hd; [|done]. destruct (pool_step _ _) as [p|] eqn:Hstep; [|done].
    simpl in Hs. injection Hs as <-. pose proof (pool_step_inv _ _ _ Hp Hstep) as Hpi.
    unfold pool_step in Hstep. rewrite Hcr in Hstep. injection Hstep as <-. split; simpl; auto.
Qed.

Lemma consumer_reachable_inv c p k : consumer_reachable c p k → consumer_inv k.
Proof. induction 1; eauto using subscribed_inv, consumer_step_inv. Qed.

(** * Properties *)


(** When a [Stop] call on a started pool returns, every task whose
    submission was accepted has been run, once; nothing is waiting and nothing
    is running. *)
Theorem Stop_returns_drained config s i s' :
  pool_reachable config s → pl_started s = true → pl_spawning s = 0 →
  pl_stops s !! i = Some SWait → pool_step (AStopper i) s = Some s' →
  pl_stops s' !! i = Some SReturned ∧ pl_tasks s' = [] ∧ Pool_InFlight s' = 0%Z ∧
  pl_ran s' ≡ₚ accepted_tasks s'.
Proof.
  intros Hinv%pool_reachable_inv Hst Hsp Hi Hs. unfold pool_step in Hs. destruct (pl_crashed s); [done|].
  unfold Pool_Stop in Hs. rewrite Hi in Hs. destruct (drained s) eqn:Hd; [|done]. injection Hs as <-.
  destruct (drained_empty s Hinv Hst Hsp Hd) as (Ht & Hf & Ha). simpl. split_and!; [|done..].
  apply list_lookup_insert_eq. by eapply lookup_lt_Some.
Qed.

(** [Stop] is not kept waiting for ever by the pool itself: once the
    channel is closed, the workers can take at most [work s] steps (a step
    being one operation, or one task run to its end), whatever their order,
    and as long as one of them is left, one can take a step. *)
Theorem Stop_terminates s acts s' :
  pl_closed s = true → pl_crashed s = false →
  forallb is_worker acts = true → pool_run acts s = Some s' →
  length acts ≤ work s ∧ (drained s' = true ∨ ∃ i, is_Some (pool_step (AWorker i) s')).
Proof.
  intros Hc Hcr Hw Hr. destruct (workers_run acts s s' Hw Hr) as (Hlen & Hc' & Hcr').
  split; [lia|]. destruct (drained s') eqn:Hd; [by left|right]. apply run_enabled; congruence.
Qed.

(** The consumer's protocol is safe: however a consumer's dispatcher, its
    workers and any number of [Consumer.Stop] calls interleave, the pool never
    panics, and when its [Stop] returns every delivery that was handed over
    has been processed. *)
Theorem consumer_protocol_safe concurrency prefetch k :
  consumer_reachable concurrency prefetch k →
  pl_crashed (cn_pool k) = false ∧
  ∀ i s', pl_stops (cn_pool k) !! i = Some SWait → pool_step (AStopper i) (cn_pool k) = Some s' →
    pl_tasks s' = [] ∧ pl_ran s' ≡ₚ accepted_tasks s'.
Proof.
  intros [Hp [Hst Hsp] _ _ _ Hcr]%consumer_reachable_inv. split; [done|]. intros i s' Hi Hs.
  unfold pool_step in Hs. rewrite Hcr in Hs. unfold Pool_Stop in Hs. rewrite Hi in Hs.
  destruct (drained (cn_pool k)) eqn:Hd; [|done]. injection Hs as <-.
  destruct (drained_empty _ Hp Hst Hsp Hd) as (Ht & _ & Ha). by split.
Qed.

(** The pool alone does not have that protection: a [Submit] that has
    read [stopped] as false and a [Stop] that then closes the channel lead to
    a send on a closed channel, which panics. *)
Theorem submit_stop_race :
  ∃ acts s, pool_run acts (NewPool (mkPoolConfig 1 1)) = Some s ∧ pl_crashed s = true.
Proof.
  exists [AStart; ASpawn; ASubmit Blocking 0; AClient 0 ChSend; AClient 0 ChSend;
          AStop; AStopper 0; AStopper 0; AStopper 0; AClient 0 ChSend].
  eexists. split; [vm_compute; reflexivity|reflexivity].
Qed.

(** * Witnesses *)

Module PoolSamples.
Definition config : PoolConfig := mkPoolConfig 1 1.
(** One task accepted and run, a second accepted, the pool stopped. *)
Definition acts : list action :=
  [AStart; ASpawn; ASubmit Blocking 7; AClient 0 ChSend; AClient 0 ChSend; AClient 0 ChSend;
   ASubmit Try 8; AClient 1 ChSend; AClient 1 ChSend; AWorker 0; AClient 1 ChSend;
   AStop; AStopper 0; AStopper 0; AStopper 0].
(** The worker finishes both and leaves. *)
Definition drain : list action := replicate 10 (AWorker 0).

Definition at_ (l : list action) : Pool := default (NewPool config) (pool_run l (NewPool config)).

Lemma pool_run_reachable l s s' : pool_reachable config s → pool_run l s = Some s' → pool_reachable config s'.
Proof.
  revert s. induction l as [|a l IH]; intros s Hs Hr; simplify_eq/=; [done|].
  destruct (pool_step a s) as [s1|] eqn:Hstep; [|done]. apply (IH s1); [by eapply reach_step|done].
Qed.
Lemma stopped_reachable : pool_reachable config (at_ acts).
Proof. eapply (pool_run_reachable acts); [apply reach_new|]. vm_compute. reflexivity. Qed.
Lemma drained_reachable : pool_reachable config (at_ (acts ++ drain)).
Proof. eapply (pool_run_reachable (acts ++ drain)); [apply reach_new|]. vm_compute. reflexivity. Qed.

Definition subscribed_pool : ConsumerRun :=
  default (mkConsumerRun (NewPool config) false false) (subscribed 1 1).
Definition after_exit : ConsumerRun :=
  default subscribed_pool (consumer_step KCancel subscribed_pool ≫= consumer_step KExit).
Lemma after_exit_reachable : consumer_reachable 1 1 after_exit.
Proof.
  apply (creach_step 1 1 KExit (mkConsumerRun (cn_pool subscribed_pool) true false)); [|vm_compute; reflexivity].
  apply (creach_step 1 1 KCancel subscribed_pool); [|vm_compute; reflexivity].
  apply creach_new. vm_compute. reflexivity.
Qed.
End PoolSamples.


Lemma Stop_returns_drained_witness :
  ∃ s', pool_step (AStopper 0) (PoolSamples.at_ (PoolSamples.acts ++ PoolSamples.drain)) = Some s' ∧
        pl_ran s' ≡ₚ [7; 8].
Proof.
  eexists. split; [vm_compute; reflexivity|].
  apply (Stop_returns_drained PoolSamples.config (PoolSamples.at_ (PoolSamples.acts ++ PoolSamples.drain)) 0).
  - exact PoolSamples.drained_reachable.
  - vm_compute. reflexivity.
  - vm_compute. reflexivity.
  - vm_compute. reflexivity.
  - vm_compute. reflexivity.
Defined.

Lemma Stop_terminates_witness :
  length PoolSamples.drain ≤ work (PoolSamples.at_ PoolSamples.acts).
Proof.
  apply (Stop_terminates (PoolSamples.at_ PoolSamples.acts) PoolSamples.drain
    (PoolSamples.at_ (PoolSamples.acts ++ PoolSamples.drain))).
  - vm_compute. reflexivity.
  - vm_compute. reflexivity.
  - vm_compute. reflexivity.
  - vm_compute. reflexivity.
Defined.

Lemma consumer_protocol_safe_witness : pl_crashed (cn_pool PoolSamples.after_exit) = false.
Proof.
  apply (consumer_protocol_safe 1 1 PoolSamples.after_exit). exact PoolSamples.after_exit_reachable.
Defined.
