(* ===== verification/Lifecycle.v ===== *)
(** The life of an engine: [Start], [Shutdown], [Subscribe], [Unsubscribe] and
    [Consumer.Stop], and the goroutines they start and wait for
    (internal/engine/engine.go, consumer.go, dispatcher.go, maintenance.go).

    Engine.v has what these do to the engine's data; here is the machine of the
    goroutines, on top of the pool machine of Worker.v.  A call in progress and
    a goroutine are program counters; an action lets one of them do its next
    operation and is [None] when that operation blocks.  A section under
    [e.mu] is one step.  What comes from outside (how many messages a claim
    returns, which ready case a [select] takes, when a context of a caller ends)
    is in the action.

    A context is cancelled by a flag; the context of a consumer is done when it
    or the root context it is derived from is cancelled.  A task is one delivery
    that is being processed, and its step is the return of [process]. *)

From S2P Require Import Prelude Errors Message Engine Worker.

Module lifecycle.

(** * Data *)

(** The goroutine of [dispatch]: before [queueSignal]; at the loop's condition;
    before [claimBatch]; in its loop, with the size of the batch and what is
    left of it; in the [Submit] call of a task; before [releaseUndispatched];
    with the outcome of the batch; in [waitForWork]; before the deferred
    [close(consumer.done)]; before the deferred [wg.Done]; gone. *)
Inductive dispatch_pc :=
| DSignal
| DCheck
| DClaim
| DHand (claimed : nat) (rest : list task)
| DSubmit (claimed : nat) (call : nat) (rest : list task)
| DRelease (claimed : nat) (err : error) (rest : list task)
| DResult (claimed : nat) (failed : bool)
| DWait
| DClose
| DDone
| DExited.

Record Consumer := mkConsumer {
  co_spec : ConsumerSpec;
  co_root : nat;
  co_pool : Pool;
  co_cancelled : bool;
  co_done : bool;
  co_stopped : once;
  co_dispatch : dispatch_pc;
}.

(** A call of [Consumer.Stop]: before [stopped.Do]; before [c.stop()]; at
    [<-c.done]; before [c.pool.Stop()]; in it; before the end of the function
    that [Do] runs; returned. *)
Inductive stop_call := TOnce | TCancel | TWait | TPool | TPooling (call : nat) | TFinish | TReturned.

(** The maintenance goroutine: in its [select], before [reclaim], before
    [RefreshQueueDepths], before the deferred [wg.Done], gone. *)
Inductive maintenance_pc := MSelect | MReclaim | MRefresh | MDone | MExited.

(** A root context and the maintenance goroutine that [Start] ran on it. *)
Record Root := mkRoot { rt_cancelled : bool; rt_maintenance : maintenance_pc }.

(** The goroutine of [Shutdown]: before the next consumer, in its [Stop] call,
    at [wg.Wait()], and after [close(drained)].  [dr_root] and [dr_consumers]
    are the context and the consumers that this [Shutdown] took over. *)
Inductive drain_pc := RNext (rest : list nat) | RStop (call : nat) (rest : list nat) | RWait | RClosed.
Record Drain := mkDrain { dr_root : option nat; dr_consumers : list nat; dr_pc : drain_pc }.

(** Calls of [Unsubscribe] and [Shutdown], after the section under the mutex:
    in [consumer.Stop]; before [cancel()]; before the goroutine is started; in
    the [select]; returned. *)
Inductive call_pc :=
| UStop (call : nat)
| UReturned (r : result error unit)
| HCancel (root : option nat) (consumers : list nat)
| HGo (root : option nat) (consumers : list nat)
| HSelect (drain : nat) (root : option nat) (consumers : list nat)
| HReturned (root : option nat) (consumers : list nat) (r : result error unit).

(** [lf_root] is [rootCtx] and [cancel], [lf_consumers] the map, [lf_wg] the
    counter of [wg]; the lists hold everything that was ever started. *)
Record Life := mkLife {
  lf_root : option nat;
  lf_consumers : gmap string nat;
  lf_wg : Z;
  lf_roots : list Root;
  lf_all : list Consumer;
  lf_stops : list (nat * stop_call);
  lf_drains : list Drain;
  lf_calls : list call_pc;
}.

(** [New] *)
Definition New : Life := mkLife None ∅ 0 [] [] [] [] [].

(** ** Field assignments *)

Definition set_dispatch (pc : dispatch_pc) (c : Consumer) : Consumer :=
  mkConsumer (co_spec c) (co_root c) (co_pool c) (co_cancelled c) (co_done c) (co_stopped c) pc.
Definition put_pool (p : Pool) (c : Consumer) : Consumer :=
  mkConsumer (co_spec c) (co_root c) p (co_cancelled c) (co_done c) (co_stopped c) (co_dispatch c).
Definition set_cancelled (c : Consumer) : Consumer :=
  mkConsumer (co_spec c) (co_root c) (co_pool c) true (co_done c) (co_stopped c) (co_dispatch c).
Definition set_done (c : Consumer) : Consumer :=
  mkConsumer (co_spec c) (co_root c) (co_pool c) (co_cancelled c) true (co_stopped c) (co_dispatch c).
Definition set_stopped (o : once) (c : Consumer) : Consumer :=
  mkConsumer (co_spec c) (co_root c) (co_pool c) (co_cancelled c) (co_done c) o (co_dispatch c).

Definition put_consumer (k : nat) (c : Consumer) (s : Life) : Life :=
  mkLife (lf_root s) (lf_consumers s) (lf_wg s) (lf_roots s) (<[k:=c]> (lf_all s)) (lf_stops s) (lf_drains s) (lf_calls s).
Definition put_root (r : nat) (rt : Root) (s : Life) : Life :=
  mkLife (lf_root s) (lf_consumers s) (lf_wg s) (<[r:=rt]> (lf_roots s)) (lf_all s) (lf_stops s) (lf_drains s) (lf_calls s).
Definition put_stop (i : nat) (t : nat * stop_call) (s : Life) : Life :=
  mkLife (lf_root s) (lf_consumers s) (lf_wg s) (lf_roots s) (lf_all s) (<[i:=t]> (lf_stops s)) (lf_drains s) (lf_calls s).
Definition put_drain (d : nat) (x : Drain) (s : Life) : Life :=
  mkLife (lf_root s) (lf_consumers s) (lf_wg s) (lf_roots s) (lf_all s) (lf_stops s) (<[d:=x]> (lf_drains s)) (lf_calls s).
Definition put_call (i : nat) (x : call_pc) (s : Life) : Life :=
  mkLife (lf_root s) (lf_consumers s) (lf_wg s) (lf_roots s) (lf_all s) (lf_stops s) (lf_drains s) (<[i:=x]> (lf_calls s)).
Definition add_wg (n : Z) (s : Life) : Life :=
  mkLife (lf_root s) (lf_consumers s) (lf_wg s + n) (lf_roots s) (lf_all s) (lf_stops s) (lf_drains s) (lf_calls s).
Definition new_stop (k : nat) (s : Life) : Life :=
  mkLife (lf_root s) (lf_consumers s) (lf_wg s) (lf_roots s) (lf_all s) (lf_stops s ++ [(k, TOnce)]) (lf_drains s) (lf_calls s).
Definition new_drain (x : Drain) (s : Life) : Life :=
  mkLife (lf_root s) (lf_consumers s) (lf_wg s) (lf_roots s) (lf_all s) (lf_stops s) (lf_drains s ++ [x]) (lf_calls s).
Definition new_call (x : call_pc) (s : Life) : Life :=
  mkLife (lf_root s) (lf_consumers s) (lf_wg s) (lf_roots s) (lf_all s) (lf_stops s) (lf_drains s) (lf_calls s ++ [x]).

(** * Contexts *)

Definition root_done (s : Life) (r : nat) : bool :=
  match lf_roots s !! r with Some rt => rt_cancelled rt | None => false end.
(** [ctx.Err() != nil] of a consumer's context *)
Definition ctx_done (s : Life) (c : Consumer) : bool := co_cancelled c || root_done s (co_root c).

Definition cancel (r : nat) (s : Life) : Life :=
  match lf_roots s !! r with
  | Some rt => put_root r (mkRoot true (rt_maintenance rt)) s
  | None => s
  end.

(** * The goroutines *)

(** What a step of the dispatcher meets: a claim that fails or returns a batch;
    the case of the [select] of [Submit]; a signal or the poll interval. *)
Inductive meets := ClaimFails | Claims (batch : list task) | Takes (c : choice) | Wakes.

(** [Submit] sees the context done only when it is. *)
Definition may_take (done : bool) (x : choice) : bool := match x with ChDone _ => done | _ => true end.

(** [claimBatch], after [Claim] *)
Definition claimBatch (x : meets) (c : Consumer) : option Consumer :=
  match x with
  | ClaimFails => Some (set_dispatch (DResult 0 true) c)
  | Claims batch =>
      if decide (Z.of_nat (length batch) ≤ cs_Prefetch (co_spec c))%Z
      then Some (set_dispatch (DHand (length batch) batch) c) else None
  | _ => None
  end.

(** [handOff], up to and after [releaseUndispatched] *)
Definition handOff (done : bool) (x : meets) (claimed call : nat) (rest : list task) (c : Consumer) : option Consumer :=
  match pl_submits (co_pool c) !! call with
  | Some (CReturned _ (Ok _)) => Some (set_dispatch (DHand claimed rest) c)
  | Some (CReturned _ (Err err)) => Some (set_dispatch (DRelease claimed err rest) c)
  | Some _ =>
      match x with
      | Takes ch =>
          if may_take done ch then (fun p => put_pool p c) <$> pool_step (AClient call ch) (co_pool c) else None
      | _ => None
      end
  | None => None
  end.
Definition after_release (done : bool) (claimed : nat) (err : error) (rest : list task) (c : Consumer) : Consumer :=
  set_dispatch (if errors_Is err (SOther ErrPoolStopped) || done then DHand claimed rest else DResult claimed true) c.

(** [dispatch] and the function that [Subscribe] runs it in, less [wg.Done] *)
Definition dispatch (done : bool) (x : meets) (c : Consumer) : option Consumer :=
  match co_dispatch c with
  | DSignal => Some (set_dispatch DCheck c)
  | DCheck => Some (set_dispatch (if done then DClose else DClaim) c)
  | DClaim => claimBatch x c
  | DHand claimed [] => Some (set_dispatch (DResult claimed false) c)
  | DHand claimed (t :: rest) =>
      (fun p => set_dispatch (DSubmit claimed (length (pl_submits (co_pool c))) rest) (put_pool p c)) <$>
      pool_step (ASubmit Blocking t) (co_pool c)
  | DSubmit claimed call rest => handOff done x claimed call rest c
  | DRelease claimed err rest => Some (after_release done claimed err rest c)
  | DResult claimed failed =>
      Some (set_dispatch (if failed && done then DClose else if decide (0 < claimed) then DCheck else DWait) c)
  | DWait =>
      match x with
      | Wakes => Some (set_dispatch DCheck c)
      | _ => if done then Some (set_dispatch DCheck c) else None
      end
  | DClose => Some (set_dispatch DDone (set_done c))
  | DDone | DExited => None
  end.

Definition dispatch_step (k : nat) (x : meets) (s : Life) : option Life :=
  c ← lf_all s !! k;
  match co_dispatch c with
  | DDone => Some (add_wg (-1) (put_consumer k (set_dispatch DExited c) s))
  | _ => (fun c' => put_consumer k c' s) <$> dispatch (ctx_done s c) x c
  end.

(** A worker of the consumer's pool *)
Definition worker_step (k i : nat) (s : Life) : option Life :=
  c ← lf_all s !! k;
  (fun p => put_consumer k (put_pool p c) s) <$> pool_step (AWorker i) (co_pool c).

(** [startMaintenance]: its goroutine; [ticked] is which case its [select] takes. *)
Definition maintenance (ticked : bool) (rt : Root) : option Root :=
  match rt_maintenance rt with
  | MSelect =>
      if ticked then Some (mkRoot (rt_cancelled rt) MReclaim)
      else if rt_cancelled rt then Some (mkRoot (rt_cancelled rt) MDone) else None
  | MReclaim => Some (mkRoot (rt_cancelled rt) MRefresh)
  | MRefresh => Some (mkRoot (rt_cancelled rt) MSelect)
  | MDone | MExited => None
  end.

Definition maintenance_step (r : nat) (ticked : bool) (s : Life) : option Life :=
  rt ← lf_roots s !! r;
  match rt_maintenance rt with
  | MDone => Some (add_wg (-1) (put_root r (mkRoot (rt_cancelled rt) MExited) s))
  | _ => (fun rt' => put_root r rt' s) <$> maintenance ticked rt
  end.

(** * The calls *)

(** [Consumer.Stop] *)
Definition Consumer_Stop (pc : stop_call) (c : Consumer) : option (Consumer * stop_call) :=
  match pc with
  | TOnce =>
      match co_stopped c with
      | OnceNew => Some (set_stopped OnceRunning c, TCancel)
      | OnceRunning => None
      | OnceDone => Some (c, TReturned)
      end
  | TCancel => Some (set_cancelled c, TWait)
  | TWait => if co_done c then Some (c, TPool) else None
  | TPool => (fun p => (put_pool p c, TPooling (length (pl_stops (co_pool c))))) <$> pool_step AStop (co_pool c)
  | TPooling call =>
      match pl_stops (co_pool c) !! call with
      | Some SReturned => Some (c, TFinish)
      | _ => (fun p => (put_pool p c, TPooling call)) <$> pool_step (AStopper call) (co_pool c)
      end
  | TFinish => Some (set_stopped OnceDone c, TReturned)
  | TReturned => None
  end.

Definition stop_step (i : nat) (s : Life) : option Life :=
  '(k, pc) ← lf_stops s !! i;
  c ← lf_all s !! k;
  '(c', pc') ← Consumer_Stop pc c;
  Some (put_stop i (k, pc') (put_consumer k c' s)).

Definition stop_returned (s : Life) (i : nat) : bool :=
  match lf_stops s !! i with Some (_, TReturned) => true | _ => false end.

(** [Start]; [ended] is whether the caller's context is done already. *)
Definition Start (ended : bool) (s : Life) : Life :=
  match lf_root s with
  | Some _ => s
  | None =>
      mkLife (Some (length (lf_roots s))) (lf_consumers s) (lf_wg s + 1) (lf_roots s ++ [mkRoot ended MSelect])
        (lf_all s) (lf_stops s) (lf_drains s) (lf_calls s)
  end.

(** [NewPool] and [pool.Start] *)
Definition started_pool (spec : ConsumerSpec) : Pool :=
  let new := NewPool (mkPoolConfig (cs_Concurrency spec) (cs_Prefetch spec)) in
  default new (pool_run (AStart :: replicate (pool_size new) ASpawn) new).

(** [Subscribe], from the mutex on *)
Definition Subscribe (spec : ConsumerSpec) (s : Life) : Life * result error nat :=
  match lf_root s with
  | None => (s, Err (EngineErr ErrNotRunning))
  | Some r =>
      match lf_consumers s !! cs_Name spec with
      | Some _ => (s, Err (EngineErr ErrConsumerExists))
      | None =>
          let k := length (lf_all s) in
          (mkLife (lf_root s) (<[cs_Name spec := k]> (lf_consumers s)) (lf_wg s + 1) (lf_roots s)
             (lf_all s ++ [mkConsumer spec r (started_pool spec) false false OnceNew DSignal])
             (lf_stops s) (lf_drains s) (lf_calls s), Ok k)
      end
  end.

(** [Unsubscribe] *)
Definition Unsubscribe (name : string) (s : Life) : Life :=
  match lf_consumers s !! name with
  | None => new_call (UReturned (Err (EngineErr ErrConsumerNotFound))) s
  | Some k =>
      new_call (UStop (length (lf_stops s)))
        (new_stop k (mkLife (lf_root s) (delete name (lf_consumers s)) (lf_wg s) (lf_roots s) (lf_all s)
                       (lf_stops s) (lf_drains s) (lf_calls s)))
  end.

(** [Shutdown], under the mutex: [consumers] are the consumers of the map in the
    order in which the loop meets them, each once. *)
Definition registered (s : Life) : gset nat := list_to_set (snd <$> map_to_list (lf_consumers s)).
Definition Shutdown (consumers : list nat) (s : Life) : option Life :=
  if decide (NoDup consumers ∧ list_to_set consumers = registered s)
  then Some (new_call (HCancel (lf_root s) consumers)
               (mkLife None ∅ (lf_wg s) (lf_roots s) (lf_all s) (lf_stops s) (lf_drains s) (lf_calls s)))
  else None.

(** What the [select] of [Shutdown] sees. *)
Inductive sees := Drained | TimesOut (err : error).

Definition is_closed (s : Life) (d : nat) : bool :=
  match lf_drains s !! d with Some x => match dr_pc x with RClosed => true | _ => false end | None => false end.

Definition call_step (i : nat) (x : sees) (s : Life) : option Life :=
  pc ← lf_calls s !! i;
  match pc with
  | UStop call => if stop_returned s call then Some (put_call i (UReturned (Ok tt)) s) else None
  | HCancel root consumers =>
      Some (put_call i (HGo root consumers) (match root with Some r => cancel r s | None => s end))
  | HGo root consumers =>
      Some (put_call i (HSelect (length (lf_drains s)) root consumers) (new_drain (mkDrain root consumers (RNext consumers)) s))
  | HSelect d root consumers =>
      match x with
      | Drained => if is_closed s d then Some (put_call i (HReturned root consumers (Ok tt)) s) else None
      | TimesOut err =>
          Some (put_call i (HReturned root consumers (Err (wrapError "engine: shutdown timed out: " err ""))) s)
      end
  | UReturned _ | HReturned _ _ _ => None
  end.

(** The goroutine of [Shutdown] *)
Definition drain_step (d : nat) (s : Life) : option Life :=
  x ← lf_drains s !! d;
  let goto pc := mkDrain (dr_root x) (dr_consumers x) pc in
  match dr_pc x with
  | RNext [] => Some (put_drain d (goto RWait) s)
  | RNext (k :: rest) => Some (put_drain d (goto (RStop (length (lf_stops s)) rest)) (new_stop k s))
  | RStop call rest => if stop_returned s call then Some (put_drain d (goto (RNext rest)) s) else None
  | RWait => if decide (lf_wg s = 0%Z) then Some (put_drain d (goto RClosed) s) else None
  | RClosed => None
  end.

(** * Runs *)

Inductive move :=
| VStart (ended : bool)
| VCancel (root : nat)
| VSubscribe (spec : ConsumerSpec)
| VStop (consumer : nat)
| VUnsubscribe (name : string)
| VShutdown (consumers : list nat)
| VDispatch (consumer : nat) (x : meets)
| VWorker (consumer worker : nat)
| VMaintenance (root : nat) (ticked : bool)
| VStopCall (i : nat)
| VDrain (d : nat)
| VCall (i : nat) (x : sees).

Definition step (a : move) (s : Life) : option Life :=
  match a with
  | VStart ended => Some (Start ended s)
  | VCancel r => Some (cancel r s)
  | VSubscribe spec => Some (Subscribe spec s).1
  | VStop k => if decide (k < length (lf_all s)) then Some (new_stop k s) else None
  | VUnsubscribe name => Some (Unsubscribe name s)
  | VShutdown consumers => Shutdown consumers s
  | VDispatch k x => dispatch_step k x s
  | VWorker k i => worker_step k i s
  | VMaintenance r ticked => maintenance_step r ticked s
  | VStopCall i => stop_step i s
  | VDrain d => drain_step d s
  | VCall i x => call_step i x s
  end.

Fixpoint steps (acts : list move) (s : Life) : option Life :=
  match acts with
  | [] => Some s
  | a :: rest => s' ← step a s; steps rest s'
  end.

Inductive reachable : Life → Prop :=
| life_new : reachable New
| life_step a s s' : reachable s → step a s = Some s' → reachable s'.

(** ** What the engine tells of its consumers *)

(** [ConsumerStatus] and [Consumer.Status] *)
Record ConsumerStatus := mkConsumerStatus {
  st_Name : string;
  st_Queue : string;
  st_Concurrency : Z;
  st_Prefetch : Z;
  st_InFlight : Z;
  st_Queued : Z;
}.
Definition Status (c : Consumer) : ConsumerStatus :=
  mkConsumerStatus (cs_Name (co_spec c)) (cs_Queue (co_spec c)) (cs_Concurrency (co_spec c)) (cs_Prefetch (co_spec c))
    (Pool_InFlight (co_pool c)) (Pool_Queued (co_pool c)).
(** [Consumer.Name], [Consumer.Queue] *)
Definition Name (c : Consumer) : string := cs_Name (co_spec c).
Definition Queue (c : Consumer) : string := cs_Queue (co_spec c).
(** [Consumers] *)
Definition Consumers (s : Life) : list ConsumerStatus :=
  omap (fun k => Status <$> lf_all s !! k) (snd <$> map_to_list (lf_consumers s)).
End lifecycle.
