(* ===== verification/LifecycleProofs.v ===== *)
(** Invariants of the machine of Lifecycle.v: every consumer keeps to the
    protocol under which its pool is safe, the wait group counts the goroutines
    that are left, and a consumer whose [Stop] has returned has nothing left to
    do. *)

From S2P Require Import Prelude Errors Message Engine Worker WorkerProofs Lifecycle.
Import lifecycle.

(** * The pool under a consumer's steps *)

Lemma drained_lookup s i w : drained s = true → pl_workers s !! i = Some w → w = WExited.
Proof. intros Hd Hi. eapply drained_exited; [done|]. by eapply list_elem_of_lookup_2. Qed.

Lemma drained_step a s s' :
  internal a = true → pl_spawning s = 0 → pool_step a s = Some s' → drained s = true → drained s' = true.
Proof.
  unfold pool_step. destruct (pl_crashed s); [done|]. destruct a as [| |i|mode t|i c| |i]; intros Hi Hsp Hs Hd; try done.
  - unfold spawn in Hs. by rewrite Hsp in Hs.
  - unfold run in Hs. destruct (pl_workers s !! i) as [w|] eqn:Hw; [|done].
    by rewrite (drained_lookup s i w Hd Hw) in Hs.
  - unfold Submit in Hs. destruct (pl_submits s !! i) as [[| | | |]|]; try done; simplify_eq; try done.
    unfold select in Hs. destruct c as [|w|err|]; repeat case_match; simplify_eq; try done.
    match goal with H : pl_workers s !! w = Some _ |- _ => by pose proof (drained_lookup s w _ Hd H) end.
  - unfold Pool_Stop in Hs. repeat case_match; simplify_eq; done.
Qed.

(** Which part of the pool each kind of step can change. *)
Lemma worker_frame i s s' : pool_step (AWorker i) s = Some s' → pl_stops s' = pl_stops s ∧ pl_submits s' = pl_submits s.
Proof. unfold pool_step, run. intros. by repeat case_match; simplify_eq. Qed.
Lemma client_frame i c s s' : pool_step (AClient i c) s = Some s' →
  pl_stops s' = pl_stops s ∧ length (pl_submits s') = length (pl_submits s) ∧
  ∀ j, j ≠ i → pl_submits s' !! j = pl_submits s !! j.
Proof.
  unfold pool_step, Submit, select. intros Hs.
  repeat case_match; simplify_eq; simpl; rewrite ?length_insert; (split; [done|]); (split; [done|]); try done;
    intros j Hj; by rewrite list_lookup_insert_ne.
Qed.
Lemma stopper_frame i s s' : pool_step (AStopper i) s = Some s' →
  pl_submits s' = pl_submits s ∧ length (pl_stops s') = length (pl_stops s) ∧
  (SReturned ∈ pl_stops s' → SReturned ∈ pl_stops s ∨ drained s = true).
Proof.
  unfold pool_step, Pool_Stop. intros Hs.
  repeat case_match; simplify_eq; simpl; rewrite ?length_insert; (split; [done|]); (split; [done|]); auto;
    intros Hin; left; (eapply elem_of_insert_ne; [|exact Hin]); done.
Qed.

Lemma closed_step a s s' : pool_step a s = Some s' → pl_closed s = true → pl_closed s' = true.
Proof.
  unfold pool_step. destruct (pl_crashed s); [done|]. intros Hs Hc.
  destruct a as [| |i|mode t|i c| |i]; unfold Pool_Start, spawn, run, Submit, select, Pool_Stop in Hs;
    repeat case_match; simplify_eq; done.
Qed.

(** A [Stop] call that waits for the workers has closed the channel, or found it closed. *)
Lemma waits_step i s s' : pool_inv s → pool_step (AStopper i) s = Some s' →
  (SWait ∈ pl_stops s → pl_closed s = true) → SWait ∈ pl_stops s' → pl_closed s' = true.
Proof.
  intros Hinv Hs Hw. pose proof (pi_once _ Hinv) as Ho. pose proof (closed_step _ _ _ Hs) as Hcl.
  unfold pool_step, Pool_Stop in Hs. destruct (pl_crashed s); [done|].
  destruct (pl_stops s !! i) as [[]|] eqn:Hi; repeat case_match; simplify_eq; simpl in *; try done; try (by intros; apply Hcl, Hw);
    try (intros Hin; apply Hcl, Hw; eapply elem_of_insert_ne; [|exact Hin]; done); by intros; apply Ho.
Qed.

(** * A consumer *)

(** Every submission but the one at [j] has returned. *)
Definition others_returned (j : nat) (p : Pool) : Prop :=
  ∀ i c, pl_submits p !! i = Some c → i ≠ j → submit_returned c = true.

Definition has_left (pc : dispatch_pc) : Prop := pc = DDone ∨ pc = DExited.

Record consumer_ok (done : bool) (c : Consumer) : Prop := {
  ok_run : consumer_inv (mkConsumerRun (co_pool c) done (co_done c));
  ok_left : co_done c = true ↔ has_left (co_dispatch c);
  ok_leaves : co_dispatch c = DClose ∨ co_done c = true → done = true;
  ok_submit : match co_dispatch c with
              | DSubmit _ j _ => is_Some (pl_submits (co_pool c) !! j) ∧ others_returned j (co_pool c)
              | _ => dispatcher_free (co_pool c) = true
              end;
  ok_returned : SReturned ∈ pl_stops (co_pool c) → drained (co_pool c) = true;
  ok_waits : SWait ∈ pl_stops (co_pool c) → pl_closed (co_pool c) = true;
}.

Lemma consumer_ok_mono c : consumer_ok false c → consumer_ok true c.
Proof. intros [[] ? ? ? ? ?]. by split. Qed.

Lemma free_intro p : (∀ i c, pl_submits p !! i = Some c → submit_returned c = true) → dispatcher_free p = true.
Proof.
  intros H. unfold dispatcher_free. apply forallb_forall. intros c [i Hi]%list_elem_of_In%list_elem_of_lookup_1. by eapply H.
Qed.

(** A step of the pool that the consumer's machine of Worker.v has. *)
Lemma consumer_inv_pool a p p' done0 dn :
  internal a = true → consumer_inv (mkConsumerRun p done0 dn) → pool_step a p = Some p' →
  consumer_inv (mkConsumerRun p' done0 dn).
Proof.
  intros Ha Hinv Hs. apply (consumer_step_inv (KPool a) _ _ Hinv). simpl. by rewrite Ha, Hs.
Qed.

Lemma worker_ok done c i p : consumer_ok done c → pool_step (AWorker i) (co_pool c) = Some p → consumer_ok done (put_pool p c).
Proof.
  intros [Hr Hl Hlv Hs Hret Hwt] Hstep. destruct (worker_frame _ _ _ Hstep) as [Hst Hsub].
  pose proof (consumer_inv_pool (AWorker i) _ _ _ _ eq_refl Hr Hstep) as Hr'. split; simpl; try done.
  - unfold others_returned, dispatcher_free. by rewrite Hsub.
  - rewrite Hst. intros Hin. eapply (drained_step (AWorker i)); [done| |done|by apply Hret].
    by apply (ci_started _ Hr).
  - rewrite Hst. intros Hin. eapply closed_step; [exact Hstep|by apply Hwt].
Qed.

Lemma others_free p j : others_returned j p → (∀ c, pl_submits p !! j = Some c → submit_returned c = true) →
  dispatcher_free p = true.
Proof.
  intros Ho Hj. apply free_intro. intros i c Hi. destruct (decide (i = j)) as [->|]; [by apply Hj|by eapply Ho].
Qed.

(** A dispatcher that does not touch the pool and has not left. *)
Lemma set_dispatch_ok done c pc :
  consumer_ok done c → co_done c = false → ¬ has_left pc → (pc = DClose → done = true) →
  (∀ n j ms, pc ≠ DSubmit n j ms) → dispatcher_free (co_pool c) = true → consumer_ok done (set_dispatch pc c).
Proof.
  intros [Hr Hl Hlv Hs Hret Hwt] Hd Hpc Hcl Hns Hf. split; simpl; try done.
  - rewrite Hd. split; [done|]. intros H. by destruct (Hpc H).
  - rewrite Hd. intros [->|?]; [by apply Hcl|done].
  - destruct pc; try done. by destruct (Hns claimed call rest).
Qed.

Lemma not_left_done done c : consumer_ok done c → ¬ has_left (co_dispatch c) → co_done c = false.
Proof. intros [] Hn. destruct (co_done c); [|done]. destruct Hn. by apply ok_left0. Qed.

Ltac to_pc Hok Hpc Hd Hfree :=
  apply set_dispatch_ok; [exact Hok|exact Hd|intros [?|?]; discriminate|discriminate||done|intros; discriminate|exact Hfree].

(** The steps of the dispatcher that go through the pool. *)
Lemma client_ok done c n j ms ch p :
  consumer_ok done c → co_dispatch c = DSubmit n j ms → pool_step (AClient j ch) (co_pool c) = Some p →
  consumer_ok done (put_pool p c) ∧ pl_stops p = pl_stops (co_pool c) ∧ (drained (co_pool c) = true → drained p = true).
Proof.
  intros [Hr Hl Hlv Hsub Hret Hwt] Hpc Hstep. rewrite Hpc in Hsub. destruct Hsub as [Hq Ho].
  destruct (client_frame _ _ _ _ Hstep) as (Hst & Hlen & Hsame).
  pose proof (consumer_inv_pool (AClient j ch) _ _ _ _ eq_refl Hr Hstep) as Hr'.
  assert (drained (co_pool c) = true → drained p = true) as Hdr
    by (apply (drained_step (AClient j ch)); [done|apply (ci_started _ Hr)|done]).
  split; [|done]. split; simpl; try done; rewrite ?Hpc.
  - split; [|intros i c'' Hi Hne; rewrite Hsame in Hi by done; by eapply Ho].
    apply lookup_lt_is_Some. rewrite Hlen. by apply lookup_lt_is_Some.
  - rewrite Hst. intros Hin. by apply Hdr, Hret.
  - rewrite Hst. intros Hin. eapply closed_step; [exact Hstep|by apply Hwt].
Qed.

Lemma submit_ok done c n t ms p :
  consumer_ok done c → co_done c = false → dispatcher_free (co_pool c) = true →
  pool_step (ASubmit Blocking t) (co_pool c) = Some p →
  consumer_ok done (set_dispatch (DSubmit n (length (pl_submits (co_pool c))) ms) (put_pool p c)) ∧
  pl_stops p = pl_stops (co_pool c) ∧ drained p = drained (co_pool c).
Proof.
  intros [Hr Hl Hlv _ Hret Hwt] Hd Hf Hstep.
  assert (consumer_inv (mkConsumerRun p done (co_done c))) as Hr'.
  { apply (consumer_step_inv (KSubmit t) _ _ Hr). cbn [consumer_step cn_done cn_pool]. by rewrite Hd, Hf, Hstep. }
  unfold pool_step in Hstep. rewrite (ci_crashed _ Hr : pl_crashed (co_pool c) = false) in Hstep. injection Hstep as <-.
  split; [|done]. split; simpl; try done.
  - rewrite Hd. split; [done|]. by intros [?|?].
  - rewrite Hd. by intros [?|?].
  - split; [rewrite lookup_app_r, Nat.sub_diag by done; by eexists|].
    intros i c' Hi Hne. simpl in Hi. apply lookup_app_Some in Hi as [Hi|[? Hi]]; [by eapply free_lookup|].
    apply list_lookup_singleton_Some in Hi as [? _]. lia.
Qed.

Lemma dispatch_ok done x c c' : consumer_ok done c → dispatch done x c = Some c' →
  consumer_ok done c' ∧ co_spec c' = co_spec c ∧ co_root c' = co_root c ∧ co_cancelled c' = co_cancelled c ∧
  co_stopped c' = co_stopped c ∧ pl_stops (co_pool c') = pl_stops (co_pool c) ∧
  (co_done c = true → co_done c' = true) ∧ co_dispatch c' ≠ DExited ∧ co_dispatch c ≠ DExited ∧
  (drained (co_pool c) = true → drained (co_pool c') = true).
Proof.
  intros Hok Hs. unfold dispatch in Hs.
  destruct (co_dispatch c) as [| | |n ms|n j ms|n err ms|n failed| | | |] eqn:Hpc; try done;
    (assert (co_done c = false) as Hd by (eapply not_left_done; [done|]; rewrite Hpc; by intros [?|?]));
    (assert (pl_spawning (co_pool c) = 0) as Hsp by apply (ci_started _ (ok_run _ _ Hok)));
    try (assert (dispatcher_free (co_pool c) = true) as Hf by (pose proof (ok_submit _ _ Hok) as H; by rewrite Hpc in H)).
  - simplify_eq. split; [to_pc Hok Hpc Hd Hf|]. done.
  - destruct done; simplify_eq; (split; [to_pc Hok Hpc Hd Hf|done]).
  - unfold claimBatch in Hs. repeat case_match; simplify_eq; (split; [to_pc Hok Hpc Hd Hf|done]).
  - destruct ms as [|t ms]; [simplify_eq; split; [to_pc Hok Hpc Hd Hf|done]|].
    destruct (pool_step _ _) as [p|] eqn:Hstep; [|done]. simplify_eq/=.
    destruct (submit_ok done c n t ms p Hok Hd Hf Hstep) as (? & ? & Hdr). rewrite Hdr. done.
  - unfold handOff in Hs. pose proof Hok as [Hr Hl Hlv Hsub Hret Hwt]. rewrite Hpc in Hsub. destruct Hsub as [[q Hq] Ho].
    rewrite Hq in Hs.
    assert (submit_returned q = true → dispatcher_free (co_pool c) = true) as Hfree.
    { intros Hqr. apply (others_free _ j Ho). intros ? Hq'. rewrite Hq in Hq'. by injection Hq' as <-. }
    destruct q as [mode t|mode t|mode t|t err|t [[]|err]];
      try (destruct x as [| |ch|]; try done; destruct (may_take done ch); [|done];
           destruct (pool_step (AClient j ch) (co_pool c)) as [p|] eqn:Hstep; [|done]; simplify_eq/=;
           destruct (client_ok done c n j ms ch p Hok Hpc Hstep) as (? & ? & ?); rewrite Hpc; done);
      simplify_eq; (split; [to_pc Hok Hpc Hd (Hfree eq_refl)|done]).
  - simplify_eq. unfold after_release. split; [destruct (_ || _); to_pc Hok Hpc Hd Hf|]. simpl. by destruct (_ || _).
  - simplify_eq. split; [|simpl; repeat case_match; done]. destruct failed, done; simpl; repeat case_match; to_pc Hok Hpc Hd Hf.
  - destruct x; [destruct done; [|done]..|]; simplify_eq; (split; [to_pc Hok Hpc Hd Hf|done]).
  - simplify_eq. pose proof Hok as [Hr Hl Hlv Hsub Hret Hwt]. rewrite Hpc in Hlv, Hsub. specialize (Hlv (or_introl eq_refl)).
    subst done. split; [|done]. split; simpl; try done.
    + apply (consumer_step_inv KExit (mkConsumerRun (co_pool c) true (co_done c))); [done|]. simpl. by rewrite Hsub.
    + split; [by left|done].
Qed.

(** * A call of Stop *)

(** What a call of [Consumer.Stop] at [pc] knows of its consumer. *)
Definition stop_fits (pc : stop_call) (c : Consumer) : Prop :=
  match pc with
  | TOnce => True
  | TCancel => co_stopped c = OnceRunning ∧ pl_stops (co_pool c) = []
  | TWait => co_stopped c = OnceRunning ∧ pl_stops (co_pool c) = [] ∧ co_cancelled c = true
  | TPool => co_stopped c = OnceRunning ∧ pl_stops (co_pool c) = [] ∧ co_done c = true
  | TPooling j => co_stopped c = OnceRunning ∧ j = 0 ∧ length (pl_stops (co_pool c)) = 1 ∧ co_done c = true
  | TFinish => co_stopped c = OnceRunning ∧ drained (co_pool c) = true
  | TReturned => co_stopped c = OnceDone
  end.

Definition holding (pc : stop_call) : bool := match pc with TOnce | TReturned => false | _ => true end.

(** A consumer that no [Stop] call has entered has no stop call on its pool, and
    one whose [Stop] has returned is drained. *)
Definition once_ok (c : Consumer) : Prop :=
  match co_stopped c with
  | OnceNew => pl_stops (co_pool c) = []
  | OnceRunning => True
  | OnceDone => drained (co_pool c) = true
  end.

Lemma cancel_ok done c : consumer_ok done c → consumer_ok true (set_cancelled c).
Proof. destruct done; [intros []|intros []%consumer_ok_mono]; by split. Qed.

Lemma stopped_ok done o c : consumer_ok done c → consumer_ok done (set_stopped o c).
Proof. intros []; by split. Qed.

Lemma Stop_call_ok done pc c c' pc' :
  consumer_ok done c → once_ok c → stop_fits pc c → Consumer_Stop pc c = Some (c', pc') →
  consumer_ok (done || co_cancelled c') c' ∧ once_ok c' ∧ stop_fits pc' c' ∧ co_spec c' = co_spec c ∧ co_root c' = co_root c ∧
  co_dispatch c' = co_dispatch c ∧ (co_cancelled c = true → co_cancelled c' = true).
Proof.
  intros Hok Ho Hfit Hs. pose proof Hok as [Hr Hl Hlv Hsub Hret Hwt]. pose proof (ci_crashed _ Hr : pl_crashed (co_pool c) = false) as Hcr.
  assert (∀ b, consumer_ok (done || b) c) as Hor
    by (intros b; destruct done, b; [done..|by apply consumer_ok_mono|done]).
  destruct pc as [| | | |j| |]; simpl in Hs, Hfit; try done.
  - destruct (co_stopped c) eqn:Hc; simplify_eq.
    + split; [apply stopped_ok, Hor|]. unfold once_ok in *. rewrite Hc in Ho. simpl. done.
    + split; [apply Hor|]. unfold once_ok in *. simpl. rewrite Hc in Ho |- *. done.
  - simplify_eq. destruct Hfit as [Hc Hst]. split.
    + simpl. rewrite orb_true_r. by eapply cancel_ok.
    + unfold once_ok. simpl. rewrite Hc. done.
  - destruct (co_done c) eqn:Hd; [|done]. simplify_eq. destruct Hfit as (Hc & Hst & Hca).
    split; [apply Hor|]. unfold once_ok. rewrite Hc. done.
  - destruct Hfit as (Hc & Hst & Hd). destruct (pool_step AStop _) as [p|] eqn:Hstep; [|done]. simplify_eq/=.
    assert (consumer_inv (mkConsumerRun p (done || co_cancelled c) (co_done c))) as Hr'.
    { apply (consumer_step_inv KStopPool (mkConsumerRun (co_pool c) (done || co_cancelled c) (co_done c)));
        [apply Hor|]. cbn [consumer_step cn_done cn_pool]. by rewrite Hd, Hstep. }
    unfold pool_step in Hstep. rewrite Hcr in Hstep. injection Hstep as <-.
    split; [|unfold once_ok; simpl; rewrite Hc, Hst; done]. destruct (Hor (co_cancelled c)). split; simpl; try done.
    + intros [?|?%list_elem_of_singleton]%elem_of_app; [by apply Hret|done].
    + intros [?|?%list_elem_of_singleton]%elem_of_app; [by apply Hwt|done].
  - destruct Hfit as (Hc & -> & Hlen & Hd).
    assert (pl_stops (co_pool c) !! 0 = Some SReturned ∧ (c', pc') = (c, TFinish) ∨
      ∃ p, pool_step (AStopper 0) (co_pool c) = Some p ∧ (c', pc') = (put_pool p c, TPooling 0)) as [[H0 He]|(p & Hstep & He)].
    { destruct (pl_stops (co_pool c) !! 0) as [[]|]; try (by simplify_eq; left);
        destruct (pool_step (AStopper 0) _) as [p|]; try done; simplify_eq/=; eauto. }
    + injection He as -> ->. split; [apply Hor|]. unfold once_ok. simpl. rewrite Hc. split; [done|]. split; [|done].
      split; [done|]. apply Hret. by eapply list_elem_of_lookup_2.
    + injection He as -> ->. destruct (stopper_frame _ _ _ Hstep) as (Hsb & Hl' & Hin).
      pose proof (consumer_inv_pool (AStopper 0) _ _ _ _ eq_refl (ok_run _ _ (Hor (co_cancelled c))) Hstep) as Hr'.
      assert (drained (co_pool c) = true → drained p = true) as Hdr
        by (apply (drained_step (AStopper 0)); [done|apply (ci_started _ Hr)|done]).
      split; [|unfold once_ok; simpl; rewrite Hc, Hl'; done]. destruct (Hor (co_cancelled c)). split; simpl; try done.
      * unfold others_returned, dispatcher_free. by rewrite Hsb.
      * intros [H|H]%Hin; [by apply Hdr, Hret|by apply Hdr].
      * by apply (waits_step 0 (co_pool c)); [apply Hr|..].
  - simplify_eq. destruct Hfit as [Hc Hdr]. split; [apply stopped_ok, Hor|]. unfold once_ok. simpl. done.
Qed.
