(* ===== verification/LifecycleInv.v ===== *)
(** The invariant of the machine of Lifecycle.v, kept by every step. *)

From S2P Require Import Prelude Errors Message Engine Worker WorkerProofs Lifecycle LifecycleProofs.
Import lifecycle.

(** * The invariant *)

(** Goroutines that [wg] counts. *)
Definition alive (c : Consumer) : nat := match co_dispatch c with DExited => 0 | _ => 1 end.
Definition maintained (rt : Root) : nat := match rt_maintenance rt with MExited => 0 | _ => 1 end.
Definition holds (k : nat) (t : nat * stop_call) : nat :=
  if decide (t.1 = k) then (if holding t.2 then 1 else 0) else 0.

(** Facts that stay true once they are. *)
Definition stopped (s : Life) (k : nat) : Prop := ∃ c, lf_all s !! k = Some c ∧ co_stopped c = OnceDone.
Definition exited (s : Life) (k : nat) : Prop := ∃ c, lf_all s !! k = Some c ∧ co_dispatch c = DExited.
Definition unmaintained (s : Life) (r : nat) : Prop := ∃ rt, lf_roots s !! r = Some rt ∧ rt_maintenance rt = MExited.
Definition finished (s : Life) (root : option nat) (ks : list nat) : Prop :=
  (∀ k, k ∈ ks → stopped s k ∧ exited s k) ∧ ∀ r, root = Some r → unmaintained s r.

(** The consumers and the context of a [Shutdown] exist. *)
Definition known (s : Life) (root : option nat) (ks : list nat) : Prop :=
  (∀ k, k ∈ ks → k < length (lf_all s)) ∧ ∀ r, root = Some r → r < length (lf_roots s).

Definition drain_ok (s : Life) (x : Drain) : Prop :=
  known s (dr_root x) (dr_consumers x) ∧
  match dr_pc x with
  | RNext rest => rest ⊆ dr_consumers x ∧ ∀ k, k ∈ dr_consumers x → k ∈ rest ∨ stopped s k
  | RStop call rest => rest ⊆ dr_consumers x ∧
      ∃ k0 pc, lf_stops s !! call = Some (k0, pc) ∧ ∀ k, k ∈ dr_consumers x → k = k0 ∨ k ∈ rest ∨ stopped s k
  | RWait => ∀ k, k ∈ dr_consumers x → stopped s k
  | RClosed => finished s (dr_root x) (dr_consumers x)
  end.

Definition call_ok (s : Life) (pc : call_pc) : Prop :=
  match pc with
  | UStop call => is_Some (lf_stops s !! call)
  | HCancel root ks | HGo root ks => known s root ks
  | HSelect d root ks => ∃ x, lf_drains s !! d = Some x ∧ dr_root x = root ∧ dr_consumers x = ks
  | HReturned root ks (Ok _) => finished s root ks
  | UReturned _ | HReturned _ _ (Err _) => True
  end.

Record life_inv (s : Life) : Prop := {
  li_wg : lf_wg s = Z.of_nat (sum_list_with alive (lf_all s) + sum_list_with maintained (lf_roots s));
  li_root r : lf_root s = Some r → r < length (lf_roots s);
  li_map name k : lf_consumers s !! name = Some k → k < length (lf_all s);
  li_all k c : lf_all s !! k = Some c →
    consumer_ok (ctx_done s c) c ∧ once_ok c ∧ co_root c < length (lf_roots s);
  li_stops i k pc : lf_stops s !! i = Some (k, pc) → ∃ c, lf_all s !! k = Some c ∧ stop_fits pc c;
  li_holder k c : lf_all s !! k = Some c →
    sum_list_with (holds k) (lf_stops s) = match co_stopped c with OnceRunning => 1 | _ => 0 end;
  li_drains d x : lf_drains s !! d = Some x → drain_ok s x;
  li_calls i pc : lf_calls s !! i = Some pc → call_ok s pc;
}.

(** * What never goes back *)

Record later (s s' : Life) : Prop := {
  lt_all k c : lf_all s !! k = Some c → ∃ c', lf_all s' !! k = Some c' ∧
    (co_stopped c = OnceDone → co_stopped c' = OnceDone) ∧ (co_dispatch c = DExited → co_dispatch c' = DExited);
  lt_roots r rt : lf_roots s !! r = Some rt → ∃ rt', lf_roots s' !! r = Some rt' ∧
    (rt_maintenance rt = MExited → rt_maintenance rt' = MExited);
  lt_stops i k pc : lf_stops s !! i = Some (k, pc) → ∃ pc', lf_stops s' !! i = Some (k, pc');
  lt_drains d x : lf_drains s !! d = Some x →
    ∃ x', lf_drains s' !! d = Some x' ∧ dr_root x' = dr_root x ∧ dr_consumers x' = dr_consumers x;
}.

Section later.
Context (s s' : Life) (Hl : later s s').

Lemma later_known root ks : known s root ks → known s' root ks.
Proof.
  intros [Hk Hr]. split.
  - intros k [c Hc]%Hk%lookup_lt_is_Some. apply (lt_all _ _ Hl) in Hc as (c' & Hc' & _). by eapply lookup_lt_Some.
  - intros r [c Hc]%Hr%lookup_lt_is_Some. apply (lt_roots _ _ Hl) in Hc as (c' & Hc' & _). by eapply lookup_lt_Some.
Qed.
Lemma later_stopped k : stopped s k → stopped s' k.
Proof. intros (c & Hc & ?). apply (lt_all _ _ Hl) in Hc as (c' & ? & ? & ?). exists c'. auto. Qed.
Lemma later_finished root ks : finished s root ks → finished s' root ks.
Proof.
  intros [Hk Hr]. split.
  - intros k Hin. destruct (Hk k Hin) as [Hst (c & Hc & ?)]. split; [by apply later_stopped|].
    apply (lt_all _ _ Hl) in Hc as (c' & ? & ? & ?). exists c'. auto.
  - intros r Hin. destruct (Hr r Hin) as (rt & Hrt & ?). apply (lt_roots _ _ Hl) in Hrt as (rt' & ? & ?). exists rt'. auto.
Qed.
Lemma later_drain x : drain_ok s x → drain_ok s' x.
Proof.
  intros [Hk Hpc]. split; [by apply later_known|]. destruct (dr_pc x) as [rest|call rest| |].
  - destruct Hpc as [? Hpc]. split; [done|]. intros k [?|?]%Hpc; [by left|right; by apply later_stopped].
  - destruct Hpc as (? & k0 & pc & Hc & Hpc). split; [done|]. apply (lt_stops _ _ Hl) in Hc as [pc' Hc].
    exists k0, pc'. split; [done|]. intros k [?|[?|?]]%Hpc; [by left|by right; left|]. right; right. by apply later_stopped.
  - intros k ?%Hpc. by apply later_stopped.
  - by apply later_finished.
Qed.
Lemma later_call pc : call_ok s pc → call_ok s' pc.
Proof.
  destruct pc as [call|r|root ks|root ks|d root ks|root ks [?|?]]; simpl; try done; try apply later_known.
  - intros [[k pc] Hc]. apply (lt_stops _ _ Hl) in Hc as [pc' Hc]. by eexists.
  - intros (x & Hx & <- & <-). by apply (lt_drains _ _ Hl) in Hx.
  - apply later_finished.
Qed.
End later.

Lemma later_refl s : later s s.
Proof. split; eauto 6. Qed.

(** The parts of the invariant that only need [later]. *)
Lemma later_drains s s' : life_inv s → later s s' → lf_drains s' = lf_drains s →
  ∀ d x, lf_drains s' !! d = Some x → drain_ok s' x.
Proof. intros Hi Hl -> d x Hd. eapply later_drain; [done|]. by eapply li_drains. Qed.
Lemma later_calls s s' : life_inv s → later s s' → lf_calls s' = lf_calls s →
  ∀ i pc, lf_calls s' !! i = Some pc → call_ok s' pc.
Proof. intros Hi Hl -> i pc Hc. eapply later_call; [done|]. by eapply li_calls. Qed.

(** * The dispatchers and the workers *)

Lemma insert_cases {A} (l : list A) i j x y : <[i:=x]> l !! j = Some y → (i = j ∧ x = y) ∨ (i ≠ j ∧ l !! j = Some y).
Proof. intros [(? & ? & ?)|?]%list_lookup_insert_Some; auto. Qed.

Lemma insert_here {A} (l : list A) i x y : l !! i = Some x → <[i:=y]> l !! i = Some y.
Proof. intros ?%lookup_lt_Some. by apply list_lookup_insert_eq. Qed.

Lemma later_consumer s k c c' n : lf_all s !! k = Some c →
  (co_stopped c = OnceDone → co_stopped c' = OnceDone) → (co_dispatch c = DExited → co_dispatch c' = DExited) →
  later s (add_wg n (put_consumer k c' s)).
Proof.
  intros Hk Hst Hex. split; simpl; eauto.
  intros j cj Hj. destruct (decide (k = j)) as [<-|Hne].
  - simplify_eq. exists c'. by rewrite (insert_here _ _ _ _ Hk).
  - exists cj. by rewrite list_lookup_insert_ne.
Qed.

Lemma consumer_update s k c c' : life_inv s → lf_all s !! k = Some c →
  consumer_ok (ctx_done s c) c' → once_ok c' → co_root c' = co_root c → co_cancelled c' = co_cancelled c →
  co_stopped c' = co_stopped c → (∀ pc, stop_fits pc c → stop_fits pc c') →
  (co_dispatch c = DExited → co_dispatch c' = DExited) →
  life_inv (add_wg (Z.of_nat (alive c') - Z.of_nat (alive c)) (put_consumer k c' s)).
Proof.
  intros Hi Hk Hok Ho Hr Hca Hst Hfit Hex.
  assert (later s (add_wg (Z.of_nat (alive c') - Z.of_nat (alive c)) (put_consumer k c' s))) as Hl
    by (eapply later_consumer; [done|by rewrite Hst|done]).
  split; simpl; try (by apply Hi).
  - pose proof (sum_insert alive _ _ _ c' Hk). rewrite (li_wg _ Hi). lia.
  - intros name j. rewrite length_insert. apply Hi.
  - intros j cj [[<- <-]|[Hne Hj]]%insert_cases; [|exact (li_all _ Hi _ _ Hj)].
    split; [by unfold ctx_done in *; rewrite Hr, Hca|]. rewrite Hr. split; [done|]. by apply (li_all _ Hi _ _ Hk).
  - intros i j pc Hpc. destruct (li_stops _ Hi _ _ _ Hpc) as (cj & Hj & Hf). destruct (decide (k = j)) as [<-|Hne].
    + simplify_eq. exists c'. rewrite (insert_here _ _ _ _ Hk). auto.
    + exists cj. by rewrite list_lookup_insert_ne.
  - intros j cj [[<- <-]|[Hne Hj]]%insert_cases; [|by apply Hi]. rewrite Hst. by apply Hi.
  - by apply (later_drains s _ Hi Hl).
  - by apply (later_calls s _ Hi Hl).
Qed.

Lemma add_wg_0 s : add_wg 0 s = s.
Proof. destruct s. unfold add_wg. simpl. by rewrite Z.add_0_r. Qed.

(** The same when the goroutine of the dispatcher is not the one that ends. *)
Lemma consumer_update_alive s k c c' : life_inv s → lf_all s !! k = Some c →
  consumer_ok (ctx_done s c) c' → once_ok c' → co_root c' = co_root c → co_cancelled c' = co_cancelled c →
  co_stopped c' = co_stopped c → (∀ pc, stop_fits pc c → stop_fits pc c') →
  (co_dispatch c = DExited ↔ co_dispatch c' = DExited) → life_inv (put_consumer k c' s).
Proof.
  intros Hi Hk ? ? ? ? ? ? Hd. rewrite <-add_wg_0.
  replace 0%Z with (Z.of_nat (alive c') - Z.of_nat (alive c))%Z; [by apply consumer_update; [..|apply Hd]|].
  assert (alive c = alive c') as ->; [|lia]. unfold alive. destruct Hd as [Hd1 Hd2].
  destruct (co_dispatch c); destruct (co_dispatch c'); try done; by (specialize (Hd1 eq_refl) || specialize (Hd2 eq_refl)).
Qed.

(** What the pool's own steps keep of the knowledge of [Stop] calls. *)
Lemma fits_mono pc c c' : stop_fits pc c → co_stopped c' = co_stopped c → co_cancelled c' = co_cancelled c →
  pl_stops (co_pool c') = pl_stops (co_pool c) → (co_done c = true → co_done c' = true) →
  (drained (co_pool c) = true → drained (co_pool c') = true) → stop_fits pc c'.
Proof. intros Hf Hs Hca Hp Hd Hdr. destruct pc; simpl in *; rewrite ?Hs, ?Hca, ?Hp; intuition. Qed.
Lemma once_mono c c' : once_ok c → co_stopped c' = co_stopped c → pl_stops (co_pool c') = pl_stops (co_pool c) →
  (drained (co_pool c) = true → drained (co_pool c') = true) → once_ok c'.
Proof. unfold once_ok. intros Ho -> -> Hd. destruct (co_stopped c); auto. Qed.

Lemma dispatch_step_inv k x s s' : life_inv s → dispatch_step k x s = Some s' → life_inv s'.
Proof.
  intros Hi Hs. unfold dispatch_step in Hs. destruct (lf_all s !! k) as [c|] eqn:Hk; [|done]. simpl in Hs.
  destruct (li_all _ Hi _ _ Hk) as (Hok & Ho & _).
  assert ((∃ c', dispatch (ctx_done s c) x c = Some c' ∧ s' = put_consumer k c' s) ∨
    co_dispatch c = DDone ∧ s' = add_wg (-1) (put_consumer k (set_dispatch DExited c) s)) as [(c' & Hd & ->)|[Hpc ->]].
  { destruct (co_dispatch c) eqn:Hpc; [..|by right; simplify_eq|];
      (destruct (dispatch _ x c) as [c'|] eqn:Hd; [|done]); simplify_eq/=; left; by exists c'. }
  - destruct (dispatch_ok _ _ _ _ Hok Hd) as (Hok' & _ & Hr & Hca & Hst & Hp & Hdn & Hx & Hx' & Hdr).
    eapply consumer_update_alive; try done; [by eapply once_mono|by intros; eapply fits_mono].
  - replace (-1)%Z with (Z.of_nat (alive (set_dispatch DExited c)) - Z.of_nat (alive c))%Z
      by (unfold alive; rewrite Hpc; done).
    apply consumer_update; try done. destruct Hok as [Hr Hl Hlv Hsub Hret Hwt]. rewrite Hpc in Hl, Hlv, Hsub. split; simpl; try done.
    + split; [by right|]. intros _. apply Hl. by left.
    + intros [?|?]; [done|]. apply Hlv. by right.
Qed.

Lemma worker_step_inv k i s s' : life_inv s → worker_step k i s = Some s' → life_inv s'.
Proof.
  intros Hi Hs. unfold worker_step in Hs. destruct (lf_all s !! k) as [c|] eqn:Hk; [|done]. simpl in Hs.
  destruct (pool_step (AWorker i) (co_pool c)) as [p|] eqn:Hp; [|done]. simplify_eq/=.
  destruct (li_all _ Hi _ _ Hk) as (Hok & Ho & _). destruct (worker_frame _ _ _ Hp) as [Hst _].
  assert (drained (co_pool c) = true → drained p = true) as Hdr
    by (apply (drained_step (AWorker i)); [done|apply (ci_started _ (ok_run _ _ Hok))|done]).
  eapply consumer_update_alive; try done; [by eapply worker_ok|by eapply once_mono|by intros; eapply fits_mono].
Qed.

(** * Roots *)

Lemma root_done_put s r rt rt' j : lf_roots s !! r = Some rt → (rt_cancelled rt = true → rt_cancelled rt' = true) →
  root_done s j = true → root_done (put_root r rt' s) j = true.
Proof.
  unfold root_done. intros Hr Hc Hj. simpl. destruct (decide (r = j)) as [<-|Hne].
  - rewrite (insert_here _ _ _ _ Hr). rewrite Hr in Hj. auto.
  - by rewrite list_lookup_insert_ne.
Qed.

Lemma root_update s r rt rt' : life_inv s → lf_roots s !! r = Some rt →
  (rt_cancelled rt = true → rt_cancelled rt' = true) → (rt_maintenance rt = MExited → rt_maintenance rt' = MExited) →
  life_inv (add_wg (Z.of_nat (maintained rt') - Z.of_nat (maintained rt)) (put_root r rt' s)).
Proof.
  intros Hi Hr Hc Hm.
  assert (later s (add_wg (Z.of_nat (maintained rt') - Z.of_nat (maintained rt)) (put_root r rt' s))) as Hl.
  { split; simpl; eauto 6. intros j rj Hj. destruct (decide (r = j)) as [<-|Hne].
    - simplify_eq. exists rt'. by rewrite (insert_here _ _ _ _ Hr).
    - exists rj. by rewrite list_lookup_insert_ne. }
  split; simpl; try (by apply Hi).
  - pose proof (sum_insert maintained _ _ _ rt' Hr). rewrite (li_wg _ Hi). lia.
  - rewrite length_insert. apply Hi.
  - intros j cj Hj. rewrite length_insert. destruct (li_all _ Hi _ _ Hj) as (Hok & ? & ?). split; [|done].
    unfold ctx_done in *. change (root_done (add_wg _ _)) with (root_done (put_root r rt' s)).
    pose proof (root_done_put s r rt rt' (co_root cj) Hr Hc) as Hrd.
    destruct (co_cancelled cj), (root_done s (co_root cj)), (root_done (put_root r rt' s) (co_root cj)); simpl in *;
      try done; [by discriminate Hrd|by apply consumer_ok_mono].
  - by apply (later_drains s _ Hi Hl).
  - by apply (later_calls s _ Hi Hl).
Qed.

Lemma root_update_alive s r rt rt' : life_inv s → lf_roots s !! r = Some rt →
  (rt_cancelled rt = true → rt_cancelled rt' = true) → maintained rt' = maintained rt → life_inv (put_root r rt' s).
Proof.
  intros Hi Hr Hc Hm. rewrite <-add_wg_0. replace 0%Z with (Z.of_nat (maintained rt') - Z.of_nat (maintained rt))%Z by lia.
  apply root_update; try done. unfold maintained in Hm. intros Heq. rewrite Heq in Hm. by destruct (rt_maintenance rt').
Qed.

Lemma cancel_inv r s : life_inv s → life_inv (cancel r s).
Proof. intros Hi. unfold cancel. destruct (lf_roots s !! r) as [rt|] eqn:Hr; [|done]. by eapply root_update_alive. Qed.

Lemma maintenance_step_inv r t s s' : life_inv s → maintenance_step r t s = Some s' → life_inv s'.
Proof.
  intros Hi Hs. unfold maintenance_step, maintenance in Hs. destruct (lf_roots s !! r) as [rt|] eqn:Hr; [|done]. simpl in Hs.
  destruct (rt_maintenance rt) eqn:Hm; [destruct t; [|destruct (rt_cancelled rt) eqn:Hc; [|done]]|..|done]; simplify_eq/=.
  5: { replace (-1)%Z with (Z.of_nat (maintained (mkRoot (rt_cancelled rt) MExited)) - Z.of_nat (maintained rt))%Z
         by (unfold maintained; rewrite Hm; done). by apply root_update. }
  all: (eapply root_update_alive; [done|done|try done|by unfold maintained; rewrite Hm]).
Qed.

(** * Stop calls *)

Lemma sum_two {A} (f : A → nat) l i j x y :
  l !! i = Some x → l !! j = Some y → i ≠ j → f x + f y ≤ sum_list_with f l.
Proof.
  revert i j. induction l as [|z l IH]; intros [|i] [|j] Hi Hj Hne; simplify_eq/=.
  - pose proof (sum_ge f l _ _ Hj). lia.
  - pose proof (sum_ge f l _ _ Hi). lia.
  - pose proof (IH i j Hi Hj ltac:(lia)). lia.
Qed.

Lemma holds_self k pc : holds k (k, pc) = if holding pc then 1 else 0.
Proof. unfold holds. simpl. by rewrite decide_True. Qed.
Lemma holds_other k j pc : k ≠ j → holds j (k, pc) = 0.
Proof. unfold holds. simpl. intros. by rewrite decide_False. Qed.

Lemma holding_running pc c : holding pc = true → stop_fits pc c → co_stopped c = OnceRunning.
Proof. destruct pc; simpl; try done; by intros _ [? _]. Qed.

(** While one call is inside the function that [Do] runs, or [Do] has not been
    called, every other call of the same consumer is at its beginning. *)
Lemma other_calls s k c i i' pc pc' : life_inv s → lf_all s !! k = Some c →
  lf_stops s !! i = Some (k, pc) → lf_stops s !! i' = Some (k, pc') → i ≠ i' →
  holding pc = true ∨ co_stopped c = OnceNew → pc' = TOnce.
Proof.
  intros Hi Hk Hpc Hpc' Hne Hor. pose proof (li_holder _ Hi _ _ Hk) as Hsum.
  pose proof (sum_two (holds k) _ _ _ _ _ Hpc Hpc' Hne) as Htwo. rewrite !holds_self in Htwo.
  destruct (li_stops _ Hi _ _ _ Hpc) as (c1 & ? & Hfit). destruct (li_stops _ Hi _ _ _ Hpc') as (c2 & ? & Hfit').
  simplify_eq. assert (co_stopped c ≠ OnceDone ∧ holding pc' = false) as [Hnd Hh].
  { destruct Hor as [Hh|Hn].
    - rewrite (holding_running _ _ Hh Hfit), Hh in *. split; [done|]. destruct (holding pc'); [lia|done].
    - rewrite Hn in *. split; [done|]. destruct (holding pc'); [destruct (holding pc); lia|done]. }
  destruct pc'; done.
Qed.

Lemma stop_holder pc c c' pc' : stop_fits pc c → Consumer_Stop pc c = Some (c', pc') →
  (if holding pc' then 1 else 0) + match co_stopped c with OnceRunning => 1 | _ => 0 end =
  (if holding pc then 1 else 0) + match co_stopped c' with OnceRunning => 1 | _ => 0 end ∧
  (holding pc = true ∨ co_stopped c = OnceNew ∨ c' = c).
Proof.
  intros Hfit Hs. destruct pc as [| | | |j| |]; simpl in Hs, Hfit; try done;
    try destruct (pool_step _ _) as [p|]; repeat case_match; simplify_eq/=; intuition congruence.
Qed.

Lemma stop_step_inv i s s' : life_inv s → stop_step i s = Some s' → life_inv s'.
Proof.
  intros Hi Hs. unfold stop_step in Hs. destruct (lf_stops s !! i) as [[k pc]|] eqn:Hpc; [|done]. simpl in Hs.
  destruct (lf_all s !! k) as [c|] eqn:Hk; [|done]. simpl in Hs.
  destruct (Consumer_Stop pc c) as [[c' pc']|] eqn:Hst; [|done]. simplify_eq/=.
  destruct (li_all _ Hi _ _ Hk) as (Hok & Ho & Hrt). destruct (li_stops _ Hi _ _ _ Hpc) as (c0 & Hc0 & Hfit). simplify_eq.
  destruct (Stop_call_ok _ _ _ _ _ Hok Ho Hfit Hst) as (Hok' & Ho' & Hfit' & _ & Hr & Hd & Hca).
  destruct (stop_holder _ _ _ _ Hfit Hst) as [Hsum Hcase].
  assert (co_stopped c = OnceDone → c' = c) as Hsame.
  { intros H. destruct Hcase as [Hh|[Hn|?]]; [|congruence|done]. rewrite (holding_running _ _ Hh Hfit) in H. done. }
  assert (later s (put_stop i (k, pc') (put_consumer k c' s))) as Hl.
  { split; simpl; eauto.
    - intros j cj Hj. destruct (decide (k = j)) as [<-|Hne]; [|exists cj; by rewrite list_lookup_insert_ne].
      simplify_eq. exists c'. rewrite (insert_here _ _ _ _ Hk), Hd. split; [done|]. split; [|done].
      intros H. by rewrite (Hsame H).
    - intros j kj pj Hj. destruct (decide (i = j)) as [<-|Hne]; [|exists pj; by rewrite list_lookup_insert_ne].
      simplify_eq. exists pc'. by rewrite (insert_here _ _ _ _ Hpc). }
  split; simpl; try (by apply Hi).
  - pose proof (sum_insert alive _ _ _ c' Hk) as Hal. rewrite (li_wg _ Hi). unfold alive in *. rewrite Hd in Hal. lia.
  - intros name j. rewrite length_insert. apply Hi.
  - intros j cj [[<- <-]|[Hne Hj]]%insert_cases; [|exact (li_all _ Hi _ _ Hj)]. split; [|rewrite Hr; done].
    unfold ctx_done in *. rewrite Hr. destruct (co_cancelled c), (co_cancelled c'); rewrite ?orb_true_r, ?orb_false_r in *;
      simpl in *; try done; by discriminate Hca.
  - intros j kj pj [[<- [= <- <-]]|[Hne Hj]]%insert_cases; [exists c'; by rewrite (insert_here _ _ _ _ Hk)|].
    destruct (li_stops _ Hi _ _ _ Hj) as (cj & Hcj & Hfj). destruct (decide (k = kj)) as [<-|Hnk].
    + exists c'. rewrite (insert_here _ _ _ _ Hk). split; [done|]. simplify_eq.
      destruct Hcase as [Hh|[Hn| ->]]; [| |done];
        rewrite (other_calls s k c i j pc pj); auto; done.
    + exists cj. by rewrite list_lookup_insert_ne.
  - intros j cj Hj. pose proof (sum_insert (holds j) _ _ _ (k, pc') Hpc) as Hins.
    destruct (insert_cases _ _ _ _ _ Hj) as [[<- <-]|[Hne Hj']].
    + pose proof (li_holder _ Hi _ _ Hk). rewrite !holds_self in Hins. lia.
    + pose proof (li_holder _ Hi _ _ Hj'). rewrite !holds_other in Hins by done. lia.
  - by apply (later_drains s _ Hi Hl).
  - by apply (later_calls s _ Hi Hl).
Qed.

(** * New goroutines and calls *)

Lemma lookup_snoc {A} (l : list A) x i y : (l ++ [x]) !! i = Some y → l !! i = Some y ∨ i = length l ∧ x = y.
Proof.
  intros [?|[? Hi]]%lookup_app_Some; [by left|]. apply list_lookup_singleton_Some in Hi as [? ->]. right. split; [lia|done].
Qed.

Lemma new_stop_inv k s : k < length (lf_all s) → life_inv s → life_inv (new_stop k s).
Proof.
  intros Hk Hi. assert (later s (new_stop k s)) as Hl.
  { split; simpl; eauto 6. intros i j pc Hj. exists pc. by rewrite lookup_app_l by by eapply lookup_lt_Some. }
  split; simpl; try (by apply Hi).
  - intros i j pc [Hj|[-> [= <- <-]]]%lookup_snoc; [by eapply Hi|].
    apply lookup_lt_is_Some in Hk as [c Hc]. by exists c.
  - intros j c Hj. rewrite sum_list_with_app. simpl. pose proof (li_holder _ Hi _ _ Hj).
    assert (holds j (k, TOnce) = 0) as -> by (unfold holds; by case_decide). lia.
  - by apply (later_drains s _ Hi Hl).
  - by apply (later_calls s _ Hi Hl).
Qed.

(** The invariant only reads the list of calls one by one. *)
Lemma new_call_inv pc s : life_inv s → call_ok s pc → life_inv (new_call pc s).
Proof.
  intros Hi Hc. assert (later s (new_call pc s)) as Hl by (split; simpl; eauto 6). split; simpl; try (by apply Hi).
  intros i pc' [Hi'|[-> <-]]%lookup_snoc; (eapply later_call; [exact Hl|]); [by eapply Hi|done].
Qed.
Lemma put_call_inv i pc s : life_inv s → call_ok s pc → life_inv (put_call i pc s).
Proof.
  intros Hi Hc. assert (later s (put_call i pc s)) as Hl by (split; simpl; eauto 6). split; simpl; try (by apply Hi).
  intros j pc' [[-> <-]|[_ Hi']]%insert_cases; (eapply later_call; [exact Hl|]); [done|by eapply Hi].
Qed.
Lemma new_drain_inv x s : life_inv s → drain_ok s x → later s (new_drain x s) ∧ life_inv (new_drain x s).
Proof.
  intros Hi Hx. assert (later s (new_drain x s)) as Hl.
  { split; simpl; eauto 6. intros d y Hd. exists y. by rewrite lookup_app_l by by eapply lookup_lt_Some. }
  split; [done|]. split; simpl; try (by apply Hi).
  - intros d y [Hd|[-> <-]]%lookup_snoc; (eapply later_drain; [exact Hl|]); [by eapply Hi|done].
  - by apply (later_calls s _ Hi Hl).
Qed.
Lemma put_drain_inv d x y s : life_inv s → lf_drains s !! d = Some x → dr_root y = dr_root x →
  dr_consumers y = dr_consumers x → drain_ok s y → life_inv (put_drain d y s).
Proof.
  intros Hi Hd Hr Hc Hy. assert (later s (put_drain d y s)) as Hl.
  { split; simpl; eauto 6. intros e z He. destruct (decide (d = e)) as [<-|Hne].
    - simplify_eq. exists y. by rewrite (insert_here _ _ _ _ Hd).
    - exists z. by rewrite list_lookup_insert_ne. }
  split; simpl; try (by apply Hi).
  - intros e z [[<- <-]|[_ He]]%insert_cases; (eapply later_drain; [exact Hl|]); [done|by eapply Hi].
  - by apply (later_calls s _ Hi Hl).
Qed.

Lemma Start_inv ended s : life_inv s → life_inv (Start ended s).
Proof.
  intros Hi. unfold Start. destruct (lf_root s) eqn:Hroot; [done|]. set (s' := mkLife _ _ _ _ _ _ _ _).
  assert (later s s') as Hl.
  { split; simpl; eauto 6. intros r rt Hr. exists rt. by rewrite lookup_app_l by by eapply lookup_lt_Some. }
  assert (∀ r, r < length (lf_roots s) → root_done s' r = root_done s r) as Hdone
    by (intros r Hr; unfold root_done, s'; simpl; by rewrite lookup_app_l).
  split; simpl; try (by apply Hi).
  - rewrite sum_list_with_app. simpl. rewrite (li_wg _ Hi). lia.
  - intros r [= <-]. rewrite length_app. simpl. lia.
  - intros k c Hk. destruct (li_all _ Hi _ _ Hk) as (Hok & Ho & Hr). rewrite length_app. simpl.
    split; [|split; [done|lia]]. unfold ctx_done in *. by rewrite Hdone.
  - by apply (later_drains s _ Hi Hl).
  - by apply (later_calls s _ Hi Hl).
Qed.

Lemma started_pool_subscribed spec :
  subscribed (cs_Concurrency spec) (cs_Prefetch spec) = Some (mkConsumerRun (started_pool spec) false false).
Proof.
  unfold subscribed, started_pool. set (s0 := NewPool _).
  destruct (spawn_all (pool_size s0) (set_start true (pool_size s0) s0)) as (s' & Hrun & _); [done..|].
  assert (pool_run (AStart :: replicate (pool_size s0) ASpawn) s0 = Some s') as -> by exact Hrun. done.
Qed.

Lemma started_pool_fresh spec : pl_stops (started_pool spec) = [] ∧ pl_submits (started_pool spec) = [].
Proof.
  unfold started_pool. set (s0 := NewPool _).
  destruct (spawn_all (pool_size s0) (set_start true (pool_size s0) s0)) as (s' & Hrun & _ & _ & Hst & _ & Hsub & _); [done..|].
  assert (pool_run (AStart :: replicate (pool_size s0) ASpawn) s0 = Some s') as -> by exact Hrun.
  simpl. by rewrite Hst, Hsub.
Qed.

Lemma new_consumer_ok spec r done : consumer_ok done (mkConsumer spec r (started_pool spec) false false OnceNew DSignal).
Proof.
  pose proof (subscribed_inv _ _ _ (started_pool_subscribed spec)) as Hinv. destruct (started_pool_fresh spec) as [Hst Hsub].
  split; simpl.
  - by destruct Hinv.
  - split; [done|]. by intros [?|?].
  - by intros [?|?].
  - unfold dispatcher_free. by rewrite Hsub.
  - rewrite Hst. by intros ?%elem_of_nil.
  - rewrite Hst. by intros ?%elem_of_nil.
Qed.

Lemma no_stops s k : life_inv s → length (lf_all s) ≤ k → sum_list_with (holds k) (lf_stops s) = 0.
Proof.
  intros Hi Hk. apply sum_zero. intros [j pc] [i Hj]%list_elem_of_lookup_1.
  destruct (li_stops _ Hi _ _ _ Hj) as (c & ?%lookup_lt_Some & _). apply holds_other. lia.
Qed.

Lemma Subscribe_inv spec s : life_inv s → life_inv (Subscribe spec s).1.
Proof.
  intros Hi. unfold Subscribe. destruct (lf_root s) as [r|] eqn:Hroot; [|done].
  destruct (lf_consumers s !! cs_Name spec) as [j|] eqn:Hname; [done|]. simpl. set (s' := mkLife _ _ _ _ _ _ _ _).
  assert (later s s') as Hl.
  { split; simpl; eauto 6. intros k c Hk. exists c. by rewrite lookup_app_l by by eapply lookup_lt_Some. }
  split; simpl; try (by apply Hi).
  - rewrite sum_list_with_app. simpl. rewrite (li_wg _ Hi). lia.
  - intros r' [= <-]. by apply Hi.
  - intros name k. rewrite length_app, lookup_insert. simpl. case_decide; [intros [= <-]; lia|].
    intros ?%(li_map _ Hi). lia.
  - intros k c [Hk|[-> <-]]%lookup_snoc; [exact (li_all _ Hi _ _ Hk)|]. simpl.
    split; [apply new_consumer_ok|]. split; [apply started_pool_fresh|by apply Hi].
  - intros i k pc Hpc. destruct (li_stops _ Hi _ _ _ Hpc) as (c & Hc & ?). exists c.
    by rewrite lookup_app_l by by eapply lookup_lt_Some.
  - intros k c [Hk|[-> <-]]%lookup_snoc; [by apply Hi|]. simpl. by apply no_stops.
  - by apply (later_drains s _ Hi Hl).
  - by apply (later_calls s _ Hi Hl).
Qed.

(** Forgetting consumers and the root context. *)
Lemma forget_inv root m s : life_inv s → (∀ r, root = Some r → lf_root s = Some r) → m ⊆ lf_consumers s →
  life_inv (mkLife root m (lf_wg s) (lf_roots s) (lf_all s) (lf_stops s) (lf_drains s) (lf_calls s)).
Proof.
  intros Hi Hr Hm. split; simpl; try (by apply Hi).
  - intros r ?%Hr. by apply Hi.
  - intros name k Hk. apply (li_map _ Hi name). by eapply lookup_weaken.
Qed.

Lemma Unsubscribe_inv name s : life_inv s → life_inv (Unsubscribe name s).
Proof.
  intros Hi. unfold Unsubscribe. destruct (lf_consumers s !! name) as [k|] eqn:Hk; [|by apply new_call_inv].
  pose proof (forget_inv (lf_root s) (delete name (lf_consumers s)) s Hi (fun r H => H) (delete_subseteq _ _)) as Hi'.
  apply new_call_inv; [apply new_stop_inv; [|done]; by eapply Hi|]. simpl.
  rewrite lookup_app_r, Nat.sub_diag by done. by eexists.
Qed.

Lemma registered_known s k : life_inv s → k ∈ registered s → k < length (lf_all s).
Proof.
  unfold registered. intros Hi. rewrite elem_of_list_to_set. intros ([name j] & -> & Hin)%list_elem_of_fmap.
  apply elem_of_map_to_list in Hin. by eapply Hi.
Qed.

Lemma Shutdown_inv ks s s' : life_inv s → Shutdown ks s = Some s' → life_inv s'.
Proof.
  intros Hi. unfold Shutdown. case_decide as Hks; [destruct Hks as [_ Hks]|done]. intros [= <-]. apply new_call_inv.
  - by apply forget_inv; [|done|apply map_empty_subseteq].
  - split; simpl; [|by apply Hi]. intros k Hk. apply registered_known; [done|]. rewrite <-Hks. by apply elem_of_list_to_set.
Qed.

Lemma later_cancel r s : later s (cancel r s).
Proof.
  unfold cancel. destruct (lf_roots s !! r) as [rt|] eqn:Hr; [|apply later_refl]. split; simpl; eauto 6.
  intros j rj Hj. destruct (decide (r = j)) as [<-|Hne]; [|exists rj; by rewrite list_lookup_insert_ne].
  simplify_eq. eexists. by rewrite (insert_here _ _ _ _ Hr).
Qed.

Lemma call_step_inv i x s s' : life_inv s → call_step i x s = Some s' → life_inv s'.
Proof.
  intros Hi Hs. unfold call_step in Hs. destruct (lf_calls s !! i) as [pc|] eqn:Hpc; [|done]. simpl in Hs.
  pose proof (li_calls _ Hi _ _ Hpc) as Hok. destruct pc as [call|r|root ks|root ks|d root ks|root ks r]; try done.
  - destruct (stop_returned s call); simplify_eq. by apply put_call_inv.
  - simplify_eq. simpl in Hok. destruct root as [r|]; (apply put_call_inv; [by try apply cancel_inv|]); [|done].
    eapply later_known; [|exact Hok]. apply later_cancel.
  - simplify_eq. simpl in Hok. destruct (new_drain_inv (mkDrain root ks (RNext ks)) s Hi) as [_ Hi'].
    { split; [done|]. simpl. auto. }
    apply put_call_inv; [done|]. simpl. rewrite lookup_app_r, Nat.sub_diag by done. by eexists.
  - destruct x as [|err]; [|simplify_eq; by apply put_call_inv]. destruct (is_closed s d) eqn:Hcl; simplify_eq.
    apply put_call_inv; [done|]. destruct Hok as (x & Hx & <- & <-). unfold is_closed in Hcl. rewrite Hx in Hcl.
    pose proof (li_drains _ Hi _ _ Hx) as [_ Hd]. by destruct (dr_pc x).
Qed.

(** When [wg] is at zero nothing that it counts is left. *)
Lemma sum_zero_inv {A} (f : A → nat) l i x : sum_list_with f l = 0 → l !! i = Some x → f x = 0.
Proof. intros Hs Hi. pose proof (sum_ge f l i x Hi). lia. Qed.

Lemma wg_zero s : life_inv s → lf_wg s = 0%Z →
  (∀ k c, lf_all s !! k = Some c → co_dispatch c = DExited) ∧
  ∀ r rt, lf_roots s !! r = Some rt → rt_maintenance rt = MExited.
Proof.
  intros Hi Hz. rewrite (li_wg _ Hi) in Hz. split.
  - intros k c Hk. assert (alive c = 0) as Ha by (eapply sum_zero_inv; [|exact Hk]; lia). unfold alive in Ha. by destruct (co_dispatch c).
  - intros r rt Hr. assert (maintained rt = 0) as Ha by (eapply sum_zero_inv; [|exact Hr]; lia).
    unfold maintained in Ha. by destruct (rt_maintenance rt).
Qed.

Lemma drain_step_inv d s s' : life_inv s → drain_step d s = Some s' → life_inv s'.
Proof.
  intros Hi Hs. unfold drain_step in Hs. destruct (lf_drains s !! d) as [[root ks pc]|] eqn:Hd; [|done]. simpl in Hs.
  pose proof (li_drains _ Hi _ _ Hd) as [Hk Hpc]. simpl in Hk, Hpc. destruct pc as [[|k rest]|call rest| |]; try done.
  - simplify_eq. eapply put_drain_inv; [done..|]. split; [done|]. intros j Hj. simpl in *.
    destruct Hpc as [_ Hpc]. by destruct (Hpc j Hj) as [?%elem_of_nil|?].
  - simplify_eq. destruct Hpc as [Hsub Hpc].
    assert (k < length (lf_all s)) as Hlt by (apply Hk, Hsub, elem_of_cons; by left).
    eapply (put_drain_inv d _ _ (new_stop k s)); [by apply new_stop_inv|done..|]. split; [done|]. simpl.
    split; [intros j Hj; apply Hsub, elem_of_cons; by right|].
    exists k, TOnce. rewrite lookup_app_r, Nat.sub_diag by done. split; [done|]. intros j Hj.
    destruct (Hpc j Hj) as [[->|?]%elem_of_cons|?]; [by left|by right; left|by right; right].
  - destruct (stop_returned s call) eqn:Hret; simplify_eq. eapply put_drain_inv; [done..|]. split; [done|]. simpl.
    destruct Hpc as (Hsub & k0 & pc & Hcall & Hpc). split; [done|]. intros j Hj.
    destruct (Hpc j Hj) as [->|[?|?]]; [|by left|by right]. right. unfold stop_returned in Hret. rewrite Hcall in Hret.
    destruct pc; try done. destruct (li_stops _ Hi _ _ _ Hcall) as (c & ? & ?). by exists c.
  - case_decide as Hz; simplify_eq. destruct (wg_zero s Hi Hz) as [Hex Hm]. eapply put_drain_inv; [done..|].
    split; [done|]. simpl. split.
    + intros k Hin. split; [by apply Hpc|]. destruct Hk as [Hk _]. apply Hk, lookup_lt_is_Some in Hin as [c Hc]. exists c. eauto.
    + intros r Hr. destruct Hk as [_ Hk]. apply Hk, lookup_lt_is_Some in Hr as [rt Hrt]. exists rt. eauto.
Qed.

Lemma step_inv a s s' : life_inv s → step a s = Some s' → life_inv s'.
Proof.
  intros Hi Hs. destruct a; simpl in Hs; simplify_eq.
  - by apply Start_inv.
  - by apply cancel_inv.
  - by apply Subscribe_inv.
  - case_decide; simplify_eq. by apply new_stop_inv.
  - by apply Unsubscribe_inv.
  - by eapply Shutdown_inv.
  - by eapply dispatch_step_inv.
  - by eapply worker_step_inv.
  - by eapply maintenance_step_inv.
  - by eapply stop_step_inv.
  - by eapply drain_step_inv.
  - by eapply call_step_inv.
Qed.

Lemma New_inv : life_inv New.
Proof. split; simpl; try done; intros *; by rewrite lookup_nil || by rewrite lookup_empty. Qed.

Lemma reachable_inv s : reachable s → life_inv s.
Proof. induction 1; eauto using New_inv, step_inv. Qed.
