(* ===== verification/LifecycleClaims.v ===== *)
(** What starting, stopping and shutting down an engine guarantees, under every
    interleaving of its goroutines and of the calls on it. *)

From S2P Require Import Prelude Errors Message Broker Engine Worker WorkerProofs Lifecycle LifecycleProofs LifecycleInv.
Import lifecycle.

(** * How much is left to do *)

Definition submit_rank (c : submit_pc) : nat :=
  match c with CCheck _ _ => 9 | CCount _ _ => 8 | CSelect _ _ => 7 | CUncount _ _ => 1 | CReturned _ _ => 0 end.
Definition stopper_rank (c : stop_pc) : nat :=
  match c with SOnce => 4 | SStore => 3 | SClose => 2 | SWait => 1 | SReturned => 0 end.
Definition pool_rank (p : Pool) : nat :=
  work p + sum_list_with submit_rank (pl_submits p) + sum_list_with stopper_rank (pl_stops p).
Definition dispatch_rank (c : Consumer) : nat :=
  match co_dispatch c with
  | DExited => 0 | DDone => 1 | DClose => 2 | DCheck => 3 | DSignal | DWait => 4 | DResult _ _ => 5
  | DHand _ ms => 6 + 20 * length ms
  | DRelease _ _ ms => 9 + 20 * length ms
  | DSubmit _ _ ms => 12 + 20 * length ms
  | DClaim => 7 + 20 * Z.to_nat (cs_Prefetch (co_spec c))
  end.
Definition consumer_rank (c : Consumer) : nat := dispatch_rank c + pool_rank (co_pool c).
Definition root_rank (rt : Root) : nat :=
  match rt_maintenance rt with MExited => 0 | MDone => 1 | MSelect => 2 | MRefresh => 3 | MReclaim => 4 end.
Definition stop_rank (t : nat * stop_call) : nat :=
  match t.2 with
  | TReturned => 0 | TFinish => 1 | TPooling _ => 2 | TPool => 8 | TWait => 9 | TCancel => 10 | TOnce => 11
  end.
Definition drain_rank (x : Drain) : nat :=
  match dr_pc x with RClosed => 0 | RWait => 1 | RNext ks => 2 + 14 * length ks | RStop _ ks => 3 + 14 * length ks end.
Definition call_rank (pc : call_pc) : nat :=
  match pc with
  | UReturned _ | HReturned _ _ _ => 0
  | UStop _ | HSelect _ _ _ => 1
  | HGo _ ks => 4 + 14 * length ks
  | HCancel _ ks => 5 + 14 * length ks
  end.
Definition to_do (s : Life) : nat :=
  sum_list_with consumer_rank (lf_all s) + sum_list_with root_rank (lf_roots s) + sum_list_with stop_rank (lf_stops s) +
  sum_list_with drain_rank (lf_drains s) + sum_list_with call_rank (lf_calls s).

(** Steps that are not new calls and not the ticker of the maintenance loop. *)
Definition goes (a : move) : bool :=
  match a with
  | VDispatch _ _ | VWorker _ _ | VStopCall _ | VDrain _ | VCall _ _ => true
  | VMaintenance _ ticked => negb ticked
  | _ => false
  end.

(** ** The pool *)

Lemma worker_rank i p p' : pool_step (AWorker i) p = Some p' → pool_rank p' < pool_rank p.
Proof.
  intros Hs. destruct (worker_frame _ _ _ Hs) as [H1 H2]. unfold pool_rank. rewrite H1, H2.
  unfold pool_step in Hs. destruct (pl_crashed p); [done|]. apply run_work in Hs as [? _]. lia.
Qed.

Lemma client_rank i c p p' : pool_step (AClient i c) p = Some p' → pl_crashed p' = false → pool_rank p' < pool_rank p.
Proof.
  unfold pool_step. destruct (pl_crashed p); [done|]. unfold Submit, pool_rank, work.
  destruct (pl_submits p !! i) as [q|] eqn:Hi; [|done]. intros Hs Hcr.
  pose proof (fun y => sum_insert submit_rank _ _ _ y Hi) as Hsum.
  destruct q as [mode t|mode t|mode t|t err|t r]; [..|done].
  - simplify_eq. destruct (pl_stopped p); simpl;
      match goal with |- context [<[i:=?y]> _] => pose proof (Hsum y) as Hy end; simpl in *; lia.
  - simplify_eq. simpl. pose proof (Hsum (CSelect mode t)) as Hy. simpl in *. lia.
  - unfold select in Hs. destruct c as [|w|err|].
    + repeat case_match; simplify_eq; simpl in *; try done. rewrite length_app. simpl.
      pose proof (Hsum (CReturned t (Ok tt))) as Hy. simpl in *. lia.
    + destruct (pl_workers p !! w) as [[]|] eqn:Hw; try done. destruct (pl_tasks p) eqn:Ht; [|done].
      destruct (pl_closed p); simplify_eq. simpl. rewrite ?Ht. simpl.
      pose proof (Hsum (CReturned t (Ok tt))) as Hy. pose proof (sum_insert rank _ _ _ (WTook t) Hw) as Hy'. simpl in *. lia.
    + destruct mode; simplify_eq. simpl. pose proof (Hsum (CUncount t err)) as Hy. simpl in *. lia.
    + destruct mode; [done|]. destruct (_ || _); simplify_eq. simpl.
      pose proof (Hsum (CUncount t (OtherErr ErrPoolSaturated))) as Hy. simpl in *. lia.
  - simplify_eq. simpl. pose proof (Hsum (CReturned t (Err err))) as Hy. simpl in *. lia.
Qed.

Lemma stopper_rank_less i p p' : pool_step (AStopper i) p = Some p' → pl_crashed p' = false → pool_rank p' < pool_rank p.
Proof.
  unfold pool_step. destruct (pl_crashed p); [done|]. unfold Pool_Stop, pool_rank, work.
  destruct (pl_stops p !! i) as [q|] eqn:Hi; [|done]. intros Hs Hcr.
  pose proof (fun y => sum_insert stopper_rank _ _ _ y Hi) as Hsum.
  destruct q; repeat case_match; simplify_eq; simpl in *; try done;
    match goal with |- context [<[i:=?y]> _] => pose proof (Hsum y) as Hy end; simpl in *; lia.
Qed.

Lemma submit_rank_new t p p' : pool_step (ASubmit Blocking t) p = Some p' → pool_rank p' = pool_rank p + 9.
Proof.
  unfold pool_step. destruct (pl_crashed p); [done|]. intros [= <-]. unfold pool_rank, work. simpl.
  rewrite sum_list_with_app. simpl. lia.
Qed.
Lemma stop_rank_new p p' : pool_step AStop p = Some p' → pool_rank p' = pool_rank p + 4.
Proof.
  unfold pool_step. destruct (pl_crashed p); [done|]. intros [= <-]. unfold pool_rank, work. simpl.
  rewrite sum_list_with_app. simpl. lia.
Qed.

(** ** A consumer *)

Lemma ok_crashed done c : consumer_ok done c → pl_crashed (co_pool c) = false.
Proof. intros H. exact (ci_crashed _ (ok_run _ _ H)). Qed.

Lemma dispatch_rank_less x c c' : consumer_ok true c → dispatch true x c = Some c' → consumer_rank c' < consumer_rank c.
Proof.
  intros Hok Hs. pose proof (dispatch_ok _ _ _ _ Hok Hs) as [Hok'%ok_crashed _]. unfold dispatch in Hs.
  unfold consumer_rank, dispatch_rank.
  destruct (co_dispatch c) as [| | |n ms|n j ms|n err ms|n failed| | | |] eqn:Hpc; try done.
  - simplify_eq. simpl. lia.
  - simplify_eq. simpl. lia.
  - unfold claimBatch in Hs. destruct x as [|batch| |]; try done; [|case_decide; [|done]]; simplify_eq; simpl; lia.
  - destruct ms as [|t ms]; [simplify_eq; simpl; lia|]. destruct (pool_step _ _) as [p|] eqn:Hp; [|done]. simplify_eq/=.
    apply submit_rank_new in Hp. lia.
  - unfold handOff in Hs. destruct (pl_submits (co_pool c) !! j) as [q|] eqn:Hq; [|done].
    destruct q as [mode t|mode t|mode t|t err|t [[]|err]];
      try (destruct x as [| |ch|]; try done; destruct (may_take true ch); [|done];
           destruct (pool_step (AClient j ch) (co_pool c)) as [p|] eqn:Hstep; [|done]; simplify_eq/=;
           rewrite Hpc; apply client_rank in Hstep; [lia|done]);
      simplify_eq; simpl; lia.
  - simplify_eq. unfold after_release. simpl. rewrite orb_true_r. lia.
  - simplify_eq. simpl. rewrite andb_true_r. repeat case_match; simplify_eq; lia.
  - destruct x; simplify_eq; simpl; lia.
  - simplify_eq. simpl. lia.
Qed.

Lemma Stop_rank_less done pc c c' pc' k :
  consumer_ok done c → once_ok c → stop_fits pc c → Consumer_Stop pc c = Some (c', pc') →
  consumer_rank c' + stop_rank (k, pc') < consumer_rank c + stop_rank (k, pc).
Proof.
  intros Hok Ho Hfit Hs. destruct (Stop_call_ok _ _ _ _ _ Hok Ho Hfit Hs) as (Hok'%ok_crashed & _).
  unfold consumer_rank, stop_rank. destruct pc as [| | | |j| |]; simpl in Hs; try done.
  - destruct (co_stopped c); simplify_eq; unfold dispatch_rank; simpl; lia.
  - simplify_eq. unfold dispatch_rank. simpl. lia.
  - destruct (co_done c); simplify_eq. simpl. lia.
  - destruct (pool_step AStop _) as [p|] eqn:Hp; [|done]. simplify_eq/=. apply stop_rank_new in Hp. unfold dispatch_rank. simpl. lia.
  - assert ((c', pc') = (c, TFinish) ∨ ∃ p, pool_step (AStopper j) (co_pool c) = Some p ∧ (c', pc') = (put_pool p c, TPooling j))
      as [[= -> ->]|(p & Hp & [= -> ->])].
    { destruct (pl_stops (co_pool c) !! j) as [[]|]; try (by simplify_eq; left);
        destruct (pool_step (AStopper j) _) as [p|]; try done; simplify_eq/=; eauto. }
    + simpl. lia.
    + apply stopper_rank_less in Hp; [|done]. unfold dispatch_rank. simpl. lia.
  - simplify_eq. unfold dispatch_rank. simpl. lia.
Qed.

(** ** The engine *)

Definition all_cancelled (s : Life) : Prop := ∀ r rt, lf_roots s !! r = Some rt → rt_cancelled rt = true.

Lemma cancelled_done s k c : life_inv s → all_cancelled s → lf_all s !! k = Some c → ctx_done s c = true.
Proof.
  intros Hi Ha Hk. destruct (li_all _ Hi _ _ Hk) as (_ & _ & [rt Hr]%lookup_lt_is_Some).
  unfold ctx_done, root_done. rewrite Hr, (Ha _ _ Hr). apply orb_true_r.
Qed.

Lemma cancelled_put s r rt n : all_cancelled s → rt_cancelled rt = true → all_cancelled (add_wg n (put_root r rt s)).
Proof. intros Ha Hr j rj. simpl. intros [[<- <-]|[_ Hj]]%insert_cases; [done|by eapply Ha]. Qed.

Lemma dispatch_step_less k x s s' : life_inv s → all_cancelled s → dispatch_step k x s = Some s' →
  to_do s' < to_do s ∧ all_cancelled s'.
Proof.
  intros Hi Ha Hs. unfold dispatch_step in Hs. destruct (lf_all s !! k) as [c|] eqn:Hk; [|done]. simpl in Hs.
  destruct (li_all _ Hi _ _ Hk) as (Hok & _ & _). rewrite (cancelled_done s k c Hi Ha Hk) in Hok, Hs.
  assert (∃ c' n, consumer_rank c' < consumer_rank c ∧ s' = add_wg n (put_consumer k c' s)) as (c' & n & Hr & ->).
  { destruct (co_dispatch c) eqn:Hpc;
      try (destruct (dispatch true x c) as [c'|] eqn:Hd; [|done]; simplify_eq/=; exists c', 0%Z; rewrite add_wg_0;
           by apply dispatch_rank_less in Hd).
    simplify_eq. exists (set_dispatch DExited c), (-1)%Z. split; [|done].
    unfold consumer_rank, dispatch_rank. rewrite Hpc. simpl. lia. }
  split; [|exact Ha]. unfold to_do. simpl. pose proof (sum_insert consumer_rank _ _ _ c' Hk). lia.
Qed.

Lemma worker_step_less k i s s' : worker_step k i s = Some s' → to_do s' < to_do s ∧ lf_roots s' = lf_roots s.
Proof.
  intros Hs. unfold worker_step in Hs. destruct (lf_all s !! k) as [c|] eqn:Hk; [|done]. simpl in Hs.
  destruct (pool_step _ _) as [p|] eqn:Hp; [|done]. simplify_eq/=. apply worker_rank in Hp. split; [|done].
  unfold to_do. simpl. pose proof (sum_insert consumer_rank _ _ _ (put_pool p c) Hk) as Hsum.
  unfold consumer_rank, dispatch_rank in *. simpl in *. lia.
Qed.

Lemma maintenance_step_less r s s' : all_cancelled s → maintenance_step r false s = Some s' →
  to_do s' < to_do s ∧ all_cancelled s'.
Proof.
  intros Ha Hs. unfold maintenance_step, maintenance in Hs. destruct (lf_roots s !! r) as [rt|] eqn:Hr; [|done]. simpl in Hs.
  pose proof (Ha _ _ Hr) as Hc. rewrite Hc in Hs.
  assert (∃ pc n, root_rank (mkRoot true pc) < root_rank rt ∧ s' = add_wg n (put_root r (mkRoot true pc) s)) as (pc & n & Hlt & ->).
  { unfold root_rank. destruct (rt_maintenance rt); simplify_eq/=;
      [exists MDone, 0%Z|exists MRefresh, 0%Z|exists MSelect, 0%Z|exists MExited, (-1)%Z]; rewrite ?add_wg_0; (split; [lia|done]). }
  split; [|by apply cancelled_put]. unfold to_do. simpl. pose proof (sum_insert root_rank _ _ _ (mkRoot true pc) Hr). lia.
Qed.

Lemma stop_step_less i s s' : life_inv s → stop_step i s = Some s' → to_do s' < to_do s ∧ lf_roots s' = lf_roots s.
Proof.
  intros Hi Hs. unfold stop_step in Hs. destruct (lf_stops s !! i) as [[k pc]|] eqn:Hpc; [|done]. simpl in Hs.
  destruct (lf_all s !! k) as [c|] eqn:Hk; [|done]. simpl in Hs.
  destruct (Consumer_Stop pc c) as [[c' pc']|] eqn:Hst; [|done]. simplify_eq/=.
  destruct (li_all _ Hi _ _ Hk) as (Hok & Ho & _). destruct (li_stops _ Hi _ _ _ Hpc) as (c0 & Hc0 & Hfit). simplify_eq.
  pose proof (Stop_rank_less _ _ _ _ _ k Hok Ho Hfit Hst). split; [|done]. unfold to_do. simpl.
  pose proof (sum_insert consumer_rank _ _ _ c' Hk). pose proof (sum_insert stop_rank _ _ _ (k, pc') Hpc). lia.
Qed.

Lemma drain_step_less d s s' : drain_step d s = Some s' → to_do s' < to_do s ∧ lf_roots s' = lf_roots s.
Proof.
  intros Hs. unfold drain_step in Hs. destruct (lf_drains s !! d) as [[root ks pc]|] eqn:Hd; [|done]. simpl in Hs.
  pose proof (fun y => sum_insert drain_rank _ _ _ y Hd) as Hsum. unfold to_do.
  destruct pc as [[|k rest]|call rest| |]; [..|done].
  - simplify_eq. split; [|done]. simpl. pose proof (Hsum (mkDrain root ks RWait)) as Hy. unfold drain_rank in Hy at 2 4. simpl in *. lia.
  - simplify_eq. split; [|done]. simpl. rewrite sum_list_with_app.
    pose proof (Hsum (mkDrain root ks (RStop (length (lf_stops s)) rest))) as Hy. unfold drain_rank in Hy at 2 4. simpl in *. lia.
  - destruct (stop_returned s call); simplify_eq. split; [|done]. simpl.
    pose proof (Hsum (mkDrain root ks (RNext rest))) as Hy. unfold drain_rank in Hy at 2 4. simpl in *. lia.
  - case_decide; simplify_eq. split; [|done]. simpl.
    pose proof (Hsum (mkDrain root ks RClosed)) as Hy. unfold drain_rank in Hy at 2 4. simpl in *. lia.
Qed.

Lemma call_step_less i x s s' : all_cancelled s → call_step i x s = Some s' → to_do s' < to_do s ∧ all_cancelled s'.
Proof.
  intros Ha Hs. unfold call_step in Hs. destruct (lf_calls s !! i) as [pc|] eqn:Hpc; [|done]. simpl in Hs.
  pose proof (fun y => sum_insert call_rank _ _ _ y Hpc) as Hsum. unfold to_do.
  assert (∀ r, sum_list_with root_rank (lf_roots (cancel r s)) = sum_list_with root_rank (lf_roots s) ∧ all_cancelled (cancel r s)) as Hcan.
  { intros r. unfold cancel. destruct (lf_roots s !! r) as [rt|] eqn:Hr; [|done]. simpl.
    pose proof (sum_insert root_rank _ _ _ (mkRoot true (rt_maintenance rt)) Hr) as Hs'. unfold root_rank in Hs' at 2 4. simpl in Hs'.
    split; [lia|]. by apply (cancelled_put s r _ 0). }
  destruct pc as [call|r|[r|] ks|root ks|d root ks|root ks r]; try done.
  - destruct (stop_returned s call); simplify_eq. split; [|done]. simpl. pose proof (Hsum (UReturned (Ok tt))) as Hy. simpl in *. lia.
  - simplify_eq. destruct (Hcan r) as [Hr Hc]. split; [|exact Hc]. cbn [lf_all lf_roots lf_stops lf_drains lf_calls put_call].
    assert (lf_all (cancel r s) = lf_all s ∧ lf_stops (cancel r s) = lf_stops s ∧ lf_drains (cancel r s) = lf_drains s ∧
      lf_calls (cancel r s) = lf_calls s) as (-> & -> & -> & ->) by (unfold cancel; by case_match).
    pose proof (Hsum (HGo (Some r) ks)) as Hy. simpl in *. lia.
  - simplify_eq. split; [|done]. simpl. pose proof (Hsum (HGo None ks)) as Hy. simpl in *. lia.
  - simplify_eq. split; [|done]. simpl. rewrite sum_list_with_app.
    pose proof (Hsum (HSelect (length (lf_drains s)) root ks)) as Hy. simpl in *. lia.
  - destruct x as [|err]; [destruct (is_closed s d); [|done]|]; simplify_eq; (split; [|done]); simpl;
      match goal with |- context [<[i:=?y]> _] => pose proof (Hsum y) as Hy end; simpl in *; lia.
Qed.

Lemma step_less a s s' : life_inv s → all_cancelled s → goes a = true → step a s = Some s' →
  to_do s' < to_do s ∧ all_cancelled s'.
Proof.
  intros Hi Ha Hg Hs. destruct a as [| | | | | |k x|k i|r [|]|i|d|i x]; try done; simpl in Hs.
  - by eapply dispatch_step_less.
  - apply worker_step_less in Hs as [? Hr]. unfold all_cancelled. by rewrite Hr.
  - by eapply maintenance_step_less.
  - apply stop_step_less in Hs as [? Hr]; [|done]. unfold all_cancelled. by rewrite Hr.
  - apply drain_step_less in Hs as [? Hr]. unfold all_cancelled. by rewrite Hr.
  - by eapply call_step_less.
Qed.

(** * Something can always go on *)

Definition goes_on (s : Life) : Prop := ∃ a, goes a = true ∧ is_Some (step a s).

Lemma all_or_one {A} (f : A → nat) (l : list A) :
  (∀ i x, l !! i = Some x → f x = 0) ∨ ∃ i x, l !! i = Some x ∧ f x ≠ 0.
Proof.
  induction l as [|y l [IH|(i & x & Hi & Hx)]].
  - left. intros i x. by rewrite lookup_nil.
  - destruct (decide (f y = 0)) as [Hy|Hy]; [left|right; by exists 0, y]. intros [|i] x; [by intros [= <-]|apply IH].
  - right. by exists (S i), x.
Qed.

Lemma submit_goes p j q : pl_submits p !! j = Some q → submit_returned q = false → pl_crashed p = false → pl_closed p = false →
  ∃ ch, is_Some (pool_step (AClient j ch) p).
Proof.
  intros Hq Hr Hcr Hcl. unfold pool_step, Submit. rewrite Hcr, Hq. destruct q as [mode t|mode t|mode t|t err|]; try done.
  - exists ChSend. eauto.
  - exists ChSend. eauto.
  - unfold select. destruct mode; [exists (ChDone (OtherErr ContextCanceled)); eauto|].
    destruct (decide (length (pl_tasks p) < pool_capacity p)) as [Hd|Hd].
    + exists ChSend. simpl. rewrite Hcl. eauto.
    + exists ChDefault. simpl. rewrite Hcl, bool_decide_false by done. simpl. eauto.
  - exists ChSend. eauto.
Qed.

Lemma dispatch_goes s k c : life_inv s → all_cancelled s → lf_all s !! k = Some c → alive c ≠ 0 → goes_on s.
Proof.
  intros Hi Ha Hk Hal. destruct (li_all _ Hi _ _ Hk) as (Hok & _ & _). pose proof (ok_crashed _ _ Hok) as Hcr.
  assert (∃ x, is_Some (dispatch_step k x s)) as [x Hx]; [|by exists (VDispatch k x)].
  unfold dispatch_step. rewrite Hk. simpl. rewrite (cancelled_done s k c Hi Ha Hk) in *.
  destruct (co_dispatch c) as [| | |n ms|n j ms|n err ms|n failed| | | |] eqn:Hpc; unfold dispatch; rewrite ?Hpc;
    try (exists Wakes; by eauto).
  - exists ClaimFails. simpl. eauto.
  - exists Wakes. destruct ms as [|t ms]; [simpl; eauto|]. unfold pool_step. rewrite Hcr. simpl. eauto.
  - pose proof (ok_submit _ _ Hok) as Hsub. rewrite Hpc in Hsub. destruct Hsub as [[q Hq] _]. unfold handOff. rewrite Hq.
    assert (pl_closed (co_pool c) = false) as Hcl.
    { destruct (pl_closed (co_pool c)) eqn:Hcl; [|done]. apply (ci_closed _ (ok_run _ _ Hok)) in Hcl. simpl in Hcl.
      apply (ok_left _ _ Hok) in Hcl. rewrite Hpc in Hcl. by destruct Hcl. }
    destruct (submit_returned q) eqn:Hret; [exists Wakes; destruct q as [| | | |t [[]|err]]; simpl; eauto; done|].
    destruct (submit_goes _ _ _ Hq Hret Hcr Hcl) as [ch [p Hp]]. exists (Takes ch).
    assert (may_take true ch = true) as -> by by destruct ch. rewrite Hp. destruct q; simpl; eauto; done.
  - unfold alive in Hal. by rewrite Hpc in Hal.
Qed.

Lemma maintenance_goes s r rt : all_cancelled s → lf_roots s !! r = Some rt → maintained rt ≠ 0 → goes_on s.
Proof.
  intros Ha Hr Hm. exists (VMaintenance r false). split; [done|]. simpl. unfold maintenance_step, maintenance. rewrite Hr. simpl.
  rewrite (Ha _ _ Hr). unfold maintained in Hm. destruct (rt_maintenance rt); simpl; eauto. done.
Qed.

(** A call that is inside [Consumer.Stop] of a consumer whose dispatcher is gone. *)
Lemma holder_goes s i k pc c : life_inv s → lf_stops s !! i = Some (k, pc) → lf_all s !! k = Some c →
  co_dispatch c = DExited → holding pc = true → goes_on s.
Proof.
  intros Hi Hpc Hk Hex Hh. destruct (li_all _ Hi _ _ Hk) as (Hok & _ & _). pose proof (ok_crashed _ _ Hok) as Hcr.
  destruct (li_stops _ Hi _ _ _ Hpc) as (c0 & ? & Hfit). simplify_eq.
  assert (co_done c = true) as Hd by (apply (ok_left _ _ Hok); by right).
  assert ((∃ y, Consumer_Stop pc c = Some y) → goes_on s) as Hgo.
  { intros [[c' pc'] Hy]. exists (VStopCall i). split; [done|]. simpl. unfold stop_step. rewrite Hpc. simpl. rewrite Hk. simpl.
    rewrite Hy. simpl. eauto. }
  destruct pc as [| | | |j| |]; simpl in *; try done.
  - apply Hgo. eauto.
  - rewrite Hd in Hgo. apply Hgo. eauto.
  - unfold pool_step in Hgo. rewrite Hcr in Hgo. apply Hgo. simpl. eauto.
  - destruct Hfit as (_ & -> & Hlen & _). destruct (pl_stops (co_pool c)) as [|q [|? ?]] eqn:Hst; try done. clear Hlen.
    pose proof (ci_pool _ (ok_run _ _ Hok) : pool_inv (co_pool c)) as Hp. pose proof (pi_once _ Hp) as Ho. rewrite Hst in Ho.
    simpl in Hgo, Ho. unfold pool_step, Pool_Stop in Hgo. rewrite Hcr, Hst in Hgo. simpl in Hgo.
    destruct q; simpl in Ho.
    + destruct (pl_stopOnce (co_pool c)); [apply Hgo; simpl; eauto|by destruct Ho|apply Hgo; simpl; eauto].
    + apply Hgo. simpl. eauto.
    + destruct (pl_closed (co_pool c)); apply Hgo; simpl; eauto.
    + destruct (drained (co_pool c)) eqn:Hdr; [apply Hgo; simpl; eauto|].
      assert (pl_closed (co_pool c) = true) as Hcl
        by (apply (ok_waits _ _ Hok); rewrite Hst; apply elem_of_cons; by left).
      destruct (run_enabled _ Hcl Hcr Hdr) as [w [p Hw]]. exists (VWorker k w). split; [done|].
      simpl. unfold worker_step. rewrite Hk. simpl. rewrite Hw. simpl. eauto.
    + apply Hgo. eauto.
  - apply Hgo. eauto.
Qed.

(** A [Stop] call that has not returned: it goes on, or waits for the one that
    is inside. *)
Lemma stop_goes s i k pc : life_inv s → (∀ k c, lf_all s !! k = Some c → alive c = 0) →
  lf_stops s !! i = Some (k, pc) → pc ≠ TReturned → goes_on s.
Proof.
  intros Hi Hall Hpc Hne. destruct (li_stops _ Hi _ _ _ Hpc) as (c & Hk & _).
  assert (co_dispatch c = DExited) as Hex by (pose proof (Hall _ _ Hk) as Ha; unfold alive in Ha; by destruct (co_dispatch c)).
  destruct (holding pc) eqn:Hh; [by eapply holder_goes|]. destruct pc; try done.
  destruct (co_stopped c) eqn:Hst.
  2: { pose proof (li_holder _ Hi _ _ Hk) as Hsum. rewrite Hst in Hsum.
       destruct (all_or_one (holds k) (lf_stops s)) as [Hz|(j & [k' pc] & Hj & Hhj)].
       - rewrite sum_zero in Hsum; [done|]. intros x [j Hj]%list_elem_of_lookup_1. by eapply Hz.
       - unfold holds in Hhj. simpl in Hhj. case_decide; [|done]. subst k'.
         destruct (holding pc) eqn:Hp; [|done]. by eapply holder_goes. }
  all: exists (VStopCall i); split; [done|]; simpl; unfold stop_step; rewrite Hpc; simpl; rewrite Hk; simpl; rewrite Hst; simpl; eauto.
Qed.

(** Everything that was started has come to its end. *)
Definition at_rest (s : Life) : Prop :=
  (∀ k c, lf_all s !! k = Some c → alive c = 0) ∧ (∀ r rt, lf_roots s !! r = Some rt → maintained rt = 0) ∧
  (∀ i t, lf_stops s !! i = Some t → stop_rank t = 0) ∧ (∀ d x, lf_drains s !! d = Some x → drain_rank x = 0) ∧
  (∀ i pc, lf_calls s !! i = Some pc → call_rank pc = 0).

Lemma drain_goes s d x : life_inv s → (∀ k c, lf_all s !! k = Some c → alive c = 0) →
  (∀ r rt, lf_roots s !! r = Some rt → maintained rt = 0) → (∀ i t, lf_stops s !! i = Some t → stop_rank t = 0) →
  lf_drains s !! d = Some x → drain_rank x ≠ 0 → goes_on s.
Proof.
  intros Hi Hal Hm Hst Hd Hx. exists (VDrain d). split; [done|]. simpl. unfold drain_step. rewrite Hd. simpl.
  pose proof (li_drains _ Hi _ _ Hd) as [_ Hpc]. unfold drain_rank in Hx. destruct (dr_pc x) as [[|k rest]|call rest| |]; eauto; [..|done].
  - destruct Hpc as (_ & k0 & pc & Hcall & _). unfold stop_returned. rewrite Hcall.
    pose proof (Hst _ _ Hcall). destruct pc; done || eauto.
  - case_decide as Hz; [eauto|]. destruct Hz. rewrite (li_wg _ Hi), !sum_zero; [done|..].
    + intros rt [r Hr]%list_elem_of_lookup_1. by eapply Hm.
    + intros c [k Hk]%list_elem_of_lookup_1. by eapply Hal.
Qed.

Lemma call_goes s i pc : life_inv s → (∀ i t, lf_stops s !! i = Some t → stop_rank t = 0) →
  (∀ d x, lf_drains s !! d = Some x → drain_rank x = 0) → lf_calls s !! i = Some pc → call_rank pc ≠ 0 → goes_on s.
Proof.
  intros Hi Hst Hdr Hc Hne. exists (VCall i Drained). split; [done|]. simpl. unfold call_step. rewrite Hc. simpl.
  pose proof (li_calls _ Hi _ _ Hc) as Hok. destruct pc as [call|r|root ks|root ks|d root ks|root ks r]; simpl in *; eauto; try done.
  - destruct Hok as [[k t] Hk]. unfold stop_returned. rewrite Hk. pose proof (Hst _ _ Hk). destruct t; done || eauto.
  - destruct Hok as (x & Hx & _). unfold is_closed. rewrite Hx. pose proof (Hdr _ _ Hx) as Hz. unfold drain_rank in Hz.
    destruct (dr_pc x); done || eauto.
Qed.

Lemma progress s : life_inv s → all_cancelled s → at_rest s ∨ goes_on s.
Proof.
  intros Hi Ha.
  destruct (all_or_one alive (lf_all s)) as [Hal|(k & c & Hk & Hc)]; [|right; by eapply dispatch_goes].
  destruct (all_or_one maintained (lf_roots s)) as [Hm|(r & rt & Hr & Hm)]; [|right; by eapply maintenance_goes].
  destruct (all_or_one stop_rank (lf_stops s)) as [Hst|(i & [k pc] & Hi' & Hpc)].
  2: { right. eapply stop_goes; [done..|]. by destruct pc. }
  destruct (all_or_one drain_rank (lf_drains s)) as [Hdr|(d & x & Hd & Hx)]; [|right; by eapply drain_goes].
  destruct (all_or_one call_rank (lf_calls s)) as [Hcl|(i & pc & Hc & Hpc)]; [|right; by eapply call_goes].
  by left.
Qed.

Lemma steps_less acts s s' : life_inv s → all_cancelled s → forallb goes acts = true → steps acts s = Some s' →
  length acts + to_do s' ≤ to_do s ∧ life_inv s' ∧ all_cancelled s'.
Proof.
  revert s. induction acts as [|a acts IH]; intros s Hi Ha Hg Hs; simpl in *; [simplify_eq; done|].
  apply andb_true_iff in Hg as [Hga Hg]. destruct (step a s) as [s1|] eqn:Hs1; [|done]. simpl in Hs.
  destruct (step_less _ _ _ Hi Ha Hga Hs1) as [Hlt Ha1]. apply step_inv in Hs1; [|done].
  destruct (IH _ Hs1 Ha1 Hg Hs) as (? & ? & ?). split; [lia|done].
Qed.

(** * The engine's data

    The machine does to [rootCtx] and to the map of consumers what Engine.v says
    the calls do to the engine. *)

Definition specs (s : Life) : gmap string ConsumerSpec := omap (fun k => co_spec <$> lf_all s !! k) (lf_consumers s).

Record mirrors {S} (e : Engine S) (s : Life) : Prop := {
  mi_running : e_running e = bool_decide (is_Some (lf_root s));
  mi_consumers : e_consumers e = specs s;
}.

Lemma specs_keep s s' : lf_consumers s' = lf_consumers s → (∀ k, co_spec <$> lf_all s' !! k = co_spec <$> lf_all s !! k) →
  specs s' = specs s.
Proof. unfold specs. intros -> Hk. apply map_eq. intros name. rewrite !lookup_omap. by destruct (_ !! name); simpl. Qed.

Lemma spec_insert (l : list Consumer) k c c' j : l !! k = Some c → co_spec c' = co_spec c →
  co_spec <$> <[k:=c']> l !! j = co_spec <$> l !! j.
Proof.
  intros Hk Hs. destruct (decide (k = j)) as [<-|Hne]; [|by rewrite list_lookup_insert_ne].
  rewrite (insert_here _ _ _ _ Hk), Hk. simpl. by rewrite Hs.
Qed.

(** The steps of goroutines and of calls past their mutex change neither. *)
Lemma goes_keeps a s s' : life_inv s → goes a = true → step a s = Some s' → lf_root s' = lf_root s ∧ specs s' = specs s.
Proof.
  intros Hi Hg Hs. destruct a as [| | | | | |k x|k i|r t|i|d|i x]; try done; simpl in Hs.
  - unfold dispatch_step in Hs. destruct (lf_all s !! k) as [c|] eqn:Hk; [|done]. simpl in Hs.
    destruct (li_all _ Hi _ _ Hk) as (Hok & _ & _).
    assert (∃ c' n, co_spec c' = co_spec c ∧ s' = add_wg n (put_consumer k c' s)) as (c' & n & Hc & ->).
    { destruct (co_dispatch c) eqn:Hpc;
        try (destruct (dispatch _ x c) as [c'|] eqn:Hd; [|done]; simplify_eq/=; exists c', 0%Z; rewrite add_wg_0;
             split; [by apply (dispatch_ok _ _ _ _ Hok Hd)|done]).
      simplify_eq. by exists (set_dispatch DExited c), (-1)%Z. }
    split; [done|]. apply specs_keep; [done|]. intros j. by apply (spec_insert _ _ c).
  - unfold worker_step in Hs. destruct (lf_all s !! k) as [c|] eqn:Hk; [|done]. simpl in Hs.
    destruct (pool_step _ _) as [p|]; [|done]. simplify_eq/=. split; [done|]. apply specs_keep; [done|].
    intros j. by apply (spec_insert _ _ c).
  - unfold maintenance_step in Hs. destruct (lf_roots s !! r) as [rt|]; [|done]. simpl in Hs.
    destruct (rt_maintenance rt), (maintenance t rt); simplify_eq/=; done.
  - unfold stop_step in Hs. destruct (lf_stops s !! i) as [[k pc]|] eqn:Hpc; [|done]. simpl in Hs.
    destruct (lf_all s !! k) as [c|] eqn:Hk; [|done]. simpl in Hs.
    destruct (Consumer_Stop pc c) as [[c' pc']|] eqn:Hst; [|done]. simplify_eq/=. split; [done|]. apply specs_keep; [done|].
    intros j. apply (spec_insert _ _ c); [done|]. destruct (li_all _ Hi _ _ Hk) as (Hok & Ho & _).
    destruct (li_stops _ Hi _ _ _ Hpc) as (c0 & ? & Hfit). simplify_eq. by apply (Stop_call_ok _ _ _ _ _ Hok Ho Hfit Hst).
  - unfold drain_step in Hs. destruct (lf_drains s !! d) as [x|]; [|done]. simpl in Hs.
    destruct (dr_pc x) as [[|]|? ?| |]; [..|done]; repeat case_match; simplify_eq; done.
  - unfold call_step, cancel in Hs. destruct (lf_calls s !! i) as [pc|]; [|done]. simpl in Hs.
    repeat case_match; simplify_eq; done.
Qed.

Lemma specs_lookup s name : life_inv s → lf_consumers s !! name = None ↔ specs s !! name = None.
Proof.
  intros Hi. unfold specs. rewrite lookup_omap. destruct (lf_consumers s !! name) as [k|] eqn:Hk; [|done]. simpl.
  apply (li_map _ Hi) in Hk as [c Hc]%lookup_lt_is_Some. by rewrite Hc.
Qed.

(** * Properties *)

(** A consumer that has nothing left to do. *)
Definition idle (c : Consumer) : Prop :=
  co_dispatch c = DExited ∧ drained (co_pool c) = true ∧ pl_tasks (co_pool c) = [] ∧
  st_InFlight (Status c) = 0%Z ∧ st_Queued (Status c) = 0%Z ∧ pl_ran (co_pool c) ≡ₚ accepted_tasks (co_pool c).

Lemma stopped_idle s k : life_inv s → stopped s k → exited s k → ∃ c, lf_all s !! k = Some c ∧ idle c.
Proof.
  intros Hi (c & Hk & Hst) (c' & Hk' & Hex). simplify_eq. exists c. split; [done|].
  destruct (li_all _ Hi _ _ Hk) as (Hok & Ho & _). unfold once_ok in Ho. rewrite Hst in Ho.
  pose proof (ok_run _ _ Hok) as Hr. destruct (ci_started _ Hr) as [Hs1 Hs2].
  destruct (drained_empty _ (ci_pool _ Hr) Hs1 Hs2 Ho) as (Ht & Hf & Hacc). simpl in *.
  split; [done|]. split; [done|]. split; [done|]. split; [done|]. split; [|done]. simpl. unfold Pool_Queued.
  pose proof (pi_queued _ (ci_pool _ Hr)) as Hq. simpl in Hq. rewrite Hq, Ht, !sum_zero; [done|..].
  - intros w Hw. by rewrite (drained_exited _ Ho w Hw).
  - intros q [j Hj]%list_elem_of_lookup_1. assert (dispatcher_free (co_pool c) = true) as Hfree.
    { apply (ci_free _ Hr). simpl. apply (ok_left _ _ Hok). by right. }
    pose proof (free_lookup _ _ _ Hfree Hj). by destruct q.
Qed.

(** C8: When [Shutdown] returns nil, then under every interleaving of other
    calls and goroutines the consumers it found registered are at their end, and
    stay so: their dispatchers have returned, their workers are gone, every
    delivery that was handed to a worker has been processed, once, and nothing
    is waiting or in flight; and the maintenance goroutine of the context it
    cancelled has returned. *)
Theorem shutdown_complete s i root ks :
  reachable s → lf_calls s !! i = Some (HReturned root ks (Ok tt)) →
  (∀ k, k ∈ ks → ∃ c, lf_all s !! k = Some c ∧ idle c) ∧
  (∀ r, root = Some r → ∃ rt, lf_roots s !! r = Some rt ∧ rt_maintenance rt = MExited).
Proof.
  intros Hi%reachable_inv Hc. destruct (li_calls _ Hi _ _ Hc) as [Hk Hr]. split; [|done].
  intros k [? ?]%Hk. by apply stopped_idle.
Qed.


(** C25: Shutting down ends.  Once the contexts are cancelled, as [Shutdown] does,
    the goroutines and the calls in progress can take at most [to_do s] steps
    (handlers that return, and no tick of the maintenance clock), in whatever
    order they are scheduled; and as long as one of them, a [Shutdown],
    [Unsubscribe] or [Stop] call included, has not come to its end, one can take
    a step: none waits for ever for another. *)
Theorem shutdown_terminates s acts s' :
  reachable s → all_cancelled s → forallb goes acts = true → steps acts s = Some s' →
  length acts ≤ to_do s ∧ (at_rest s' ∨ ∃ a, goes a = true ∧ is_Some (step a s')).
Proof.
  intros Hi%reachable_inv Ha Hg Hs. destruct (steps_less _ _ _ Hi Ha Hg Hs) as (? & Hi' & Ha').
  split; [lia|]. by apply progress.
Qed.


(** * Runs *)

Module LifeSamples.
Definition spec : ConsumerSpec := mkConsumerSpec "w" "invoices" 1 1 second true.
(** A consumer that has handed one delivery to its worker, which is processing it. *)
Definition delivering : list move :=
  [VStart false; VSubscribe spec; VDispatch 0 Wakes; VDispatch 0 Wakes; VDispatch 0 (Claims [7]); VDispatch 0 Wakes;
   VDispatch 0 (Takes ChSend); VDispatch 0 (Takes ChSend); VDispatch 0 (Takes ChSend); VDispatch 0 Wakes;
   VWorker 0 0; VWorker 0 0; VWorker 0 0].
(** The dispatcher and the maintenance loop see the context done. *)
Definition leaving : list move :=
  [VDispatch 0 Wakes; VDispatch 0 Wakes; VDispatch 0 Wakes; VDispatch 0 Wakes; VDispatch 0 Wakes;
   VMaintenance 0 false; VMaintenance 0 false].
(** [Shutdown], up to its [select]. *)
Definition shutting (call : nat) (ks : list nat) : list move :=
  [VShutdown ks; VCall call Drained; VCall call Drained].
(** The worker returns, [Stop] closes the pool, the worker leaves. *)
Definition stopping_pool : list move :=
  [VWorker 0 0; VWorker 0 0; VDrain 0; VStopCall 0; VStopCall 0; VStopCall 0; VStopCall 0; VStopCall 0; VStopCall 0; VStopCall 0;
   VWorker 0 0; VStopCall 0; VStopCall 0; VStopCall 0; VDrain 0; VDrain 0; VDrain 0; VCall 0 Drained].

Definition at_ (acts : list move) : Life := default New (steps acts New).

Lemma steps_reachable acts s s' : reachable s → steps acts s = Some s' → reachable s'.
Proof.
  revert s. induction acts as [|a acts IH]; intros s Hr Hs; simpl in *; [by simplify_eq|].
  destruct (step a s) as [s1|] eqn:H1; [|done]. eapply IH; [|exact Hs]. by eapply life_step.
Qed.
Lemma at_reachable acts : is_Some (steps acts New) → reachable (at_ acts).
Proof. intros [s Hs]. unfold at_. rewrite Hs. eapply steps_reachable; [constructor|exact Hs]. Qed.

Definition busy : list move := delivering ++ shutting 0 [0].
Definition rest : list move := leaving ++ stopping_pool.
Lemma busy_reachable : reachable (at_ busy).
Proof. apply at_reachable. eexists. vm_compute. reflexivity. Qed.
Lemma down_reachable : reachable (at_ (busy ++ rest)).
Proof. apply at_reachable. eexists. vm_compute. reflexivity. Qed.
End LifeSamples.

Lemma shutdown_complete_witness :
  lf_calls (LifeSamples.at_ (LifeSamples.busy ++ LifeSamples.rest)) !! 0 = Some (HReturned (Some 0) [0] (Ok tt)) ∧
  ∃ c, lf_all (LifeSamples.at_ (LifeSamples.busy ++ LifeSamples.rest)) !! 0 = Some c ∧ idle c.
Proof.
  assert (lf_calls (LifeSamples.at_ (LifeSamples.busy ++ LifeSamples.rest)) !! 0 = Some (HReturned (Some 0) [0] (Ok tt))) as Hc
    by (vm_compute; reflexivity).
  split; [exact Hc|].
  destruct (shutdown_complete _ 0 (Some 0) [0] LifeSamples.down_reachable Hc) as [Hk _]. apply Hk. apply elem_of_cons. by left.
Defined.


Lemma shutdown_terminates_witness :
  ∃ s', steps LifeSamples.rest (LifeSamples.at_ LifeSamples.busy) = Some s' ∧ length LifeSamples.rest = 25 ∧
    to_do (LifeSamples.at_ LifeSamples.busy) = 28 ∧ (at_rest s' ∨ ∃ a, goes a = true ∧ is_Some (step a s')).
Proof.
  assert (is_Some (steps LifeSamples.rest (LifeSamples.at_ LifeSamples.busy))) as [s' Hs] by (eexists; vm_compute; reflexivity).
  exists s'. split; [exact Hs|]. split; [vm_compute; reflexivity|]. split; [vm_compute; reflexivity|].
  apply (shutdown_terminates (LifeSamples.at_ LifeSamples.busy) LifeSamples.rest s' LifeSamples.busy_reachable).
  - intros [|r] rt; [vm_compute; by intros [= <-]|]. vm_compute. destruct r; discriminate.
  - vm_compute. reflexivity.
  - exact Hs.
Defined.

(** The consumers that [Shutdown] waits for are the registered ones: when an
    [Unsubscribe] has taken a consumer off the list and is still waiting for its
    workers, [Shutdown] can return nil while one of them processes a delivery. *)
Theorem shutdown_overlooks_unsubscribing :
  ∃ acts s c, steps acts New = Some s ∧ lf_calls s = [UStop 0; HReturned (Some 0) [] (Ok tt)] ∧
    lf_all s = [c] ∧ st_InFlight (Status c) = 1%Z.
Proof.
  exists (LifeSamples.delivering ++ [VUnsubscribe "w"; VStopCall 0; VStopCall 0] ++ LifeSamples.shutting 1 [] ++ [VDrain 0] ++
          LifeSamples.leaving ++ [VDrain 0; VCall 1 Drained]).
  do 2 eexists. split; [vm_compute; reflexivity|]. split; [reflexivity|]. split; reflexivity.
Qed.

