(* ===== verification/Brokerd.v ===== *)
(** The broker as a process: [Application.Run] and [Shutdown]
    (internal/app/app.go) and the command [cmd/brokerd].

    [Run] starts the engine on the context that a signal ends, serves HTTP from a
    goroutine, and waits for the listener or the signal.  The machine has the
    main goroutine, the listener's goroutine, the signal and the engine's machine
    of Lifecycle.v, one operation per step.  net/http is known by what its server
    documents: [ListenAndServe] returns when the listener fails, or
    [ErrServerClosed] once [Shutdown] was called; [Shutdown] returns nil when no
    connection is left, or the error of its context. *)

From S2P Require Import Prelude Errors Message Config Broker Engine Worker WorkerProofs.
From S2P Require Import Lifecycle LifecycleProofs LifecycleInv LifecycleClaims.
Import lifecycle.

(** * Data *)

(** The main goroutine: before [Engine.Start]; in the [select] of [Run]; before
    [server.Shutdown]; before [Engine.Shutdown]; in it, its [call]; before
    [Store.Close]; returned, with the errors that [errors.Join] joins. *)
Inductive run_pc :=
| PStart
| PSelect
| PServer
| PEngine
| PWait (call : nat)
| PClose
| PReturned (failures : list error).

(** The server accepts requests, is being shut down, or has been: [clean] when no
    connection was left. *)
Inductive server_pc := Serving | Down (clean : bool).

Record Process := mkProcess {
  ps_life : Life;
  ps_signal : bool;
  ps_server : server_pc;
  ps_listening : option (option error);
  ps_failures : list error;
  ps_closed : bool;
  ps_main : run_pc;
}.

(** A process whose application has just been built, with consumers or without. *)
Definition built (life : Life) : Process := mkProcess life false Serving None [] false PStart.

Definition set_life (l : Life) (p : Process) : Process :=
  mkProcess l (ps_signal p) (ps_server p) (ps_listening p) (ps_failures p) (ps_closed p) (ps_main p).
Definition goto (pc : run_pc) (p : Process) : Process :=
  mkProcess (ps_life p) (ps_signal p) (ps_server p) (ps_listening p) (ps_failures p) (ps_closed p) pc.
Definition add_failure (prefix : string) (err : option error) (p : Process) : Process :=
  mkProcess (ps_life p) (ps_signal p) (ps_server p) (ps_listening p)
    (ps_failures p ++ match err with Some e => [wrapError prefix e ""] | None => [] end) (ps_closed p) (ps_main p).

(** * Steps *)

(** What a step of the main goroutine meets: which case of the [select]; what
    [server.Shutdown] and [Store.Close] return; the order in which
    [Engine.Shutdown] finds the consumers, and what it sees. *)
Inductive meeting :=
| SeesListener
| SeesSignal
| ServerReturns (err : option error)
| Finds (consumers : list nat)
| EngineReturns
| CloseReturns (err : option error).

(** [Application.Shutdown] *)
Definition Shutdown_step (x : meeting) (p : Process) : option Process :=
  match ps_main p, x with
  | PServer, ServerReturns err =>
      Some (goto PEngine (add_failure "http server: " err
        (mkProcess (ps_life p) (ps_signal p) (Down (negb (bool_decide (is_Some err)))) (ps_listening p) (ps_failures p)
           (ps_closed p) (ps_main p))))
  | PEngine, Finds consumers =>
      (fun l => goto (PWait (length (lf_calls (ps_life p)))) (set_life l p)) <$> Shutdown consumers (ps_life p)
  | PWait call, EngineReturns =>
      match lf_calls (ps_life p) !! call with
      | Some (HReturned _ _ (Ok _)) => Some (goto PClose p)
      | Some (HReturned _ _ (Err err)) => Some (goto PClose (add_failure "engine: " (Some err) p))
      | _ => None
      end
  | PClose, CloseReturns err =>
      let p := add_failure "storage: " err p in
      Some (mkProcess (ps_life p) (ps_signal p) (ps_server p) (ps_listening p) (ps_failures p) true
              (PReturned (ps_failures p)))
  | _, _ => None
  end.

(** [Application.Run] *)
Definition Run_step (x : meeting) (p : Process) : option Process :=
  match ps_main p with
  | PStart => Some (goto PSelect (set_life (Start (ps_signal p) (ps_life p)) p))
  | PSelect =>
      match x with
      | SeesListener =>
          match ps_listening p with
          | Some err => Some (goto (PReturned (option_list err)) p)
          | None => None
          end
      | SeesSignal => if ps_signal p then Some (goto PServer p) else None
      | _ => None
      end
  | _ => Shutdown_step x p
  end.

(** The goroutine of [Run]: [failed] is the error of the listener. *)
Definition listener_step (failed : option error) (p : Process) : option Process :=
  match ps_main p, ps_listening p with
  | PStart, _ | _, Some _ => None
  | _, None =>
      match failed, ps_server p with
      | None, Serving => None
      | _, _ =>
          Some (mkProcess (ps_life p) (ps_signal p) (ps_server p) (Some failed) (ps_failures p) (ps_closed p) (ps_main p))
      end
  end.

(** A signal ends the context of [run], and with it the context that [Start]
    derives from it. *)
Definition signal (p : Process) : Process :=
  let l := match lf_root (ps_life p) with Some r => cancel r (ps_life p) | None => ps_life p end in
  mkProcess l true (ps_server p) (ps_listening p) (ps_failures p) (ps_closed p) (ps_main p).

(** What else may move the engine: its goroutines and the calls of others, but
    for [Start] and [Shutdown], which are the main goroutine's. *)
Definition others (a : move) : bool := match a with VStart _ | VShutdown _ | VCancel _ => false | _ => true end.

Inductive event :=
| EMain (x : meeting)
| EListener (failed : option error)
| ESignal
| ELife (a : move).

Definition process_step (ev : event) (p : Process) : option Process :=
  match ev with
  | EMain x => Run_step x p
  | EListener failed => listener_step failed p
  | ESignal => Some (signal p)
  | ELife a => if others a then (fun l => set_life l p) <$> step a (ps_life p) else None
  end.

Fixpoint process_steps (evs : list event) (p : Process) : option Process :=
  match evs with
  | [] => Some p
  | ev :: rest => p' ← process_step ev p; process_steps rest p'
  end.

Inductive process_reachable : Process → Prop :=
| process_new : process_reachable (built New)
| process_next ev p p' : process_reachable p → process_step ev p = Some p' → process_reachable p'.

(** * The command

    [run]: the configuration is loaded, the application built and run, and the
    first error is its result. *)
Definition brokerd_run {A} (load : result error config.Config) (build : config.Config → result error A)
    (run : A → list error) : list error :=
  match load with
  | Err err => [err]
  | Ok cfg => match build cfg with Err err => [err] | Ok application => run application end
  end.

(** [main]: the exit status. *)
Definition brokerd_main {A} (showVersion : bool) (load : result error config.Config)
    (build : config.Config → result error A) (run : A → list error) : Z :=
  if showVersion then 0%Z
  else match brokerd_run load build run with [] => 0%Z | _ => 1%Z end.

(** * What the engine's machine keeps *)

Lemma Subscribe_calls spec s : lf_calls (Subscribe spec s).1 = lf_calls s ∧ lf_root (Subscribe spec s).1 = lf_root s ∧
  lf_roots (Subscribe spec s).1 = lf_roots s.
Proof. unfold Subscribe. by repeat case_match. Qed.

Lemma snoc_keeps {A} (l : list A) x i y : l !! i = Some y → (l ++ [x]) !! i = Some y.
Proof. intros Hi. rewrite lookup_app_l; [done|]. by eapply lookup_lt_Some. Qed.

(** A call that has returned stays so. *)
Lemma returned_stable a s s' i root ks r : step a s = Some s' → lf_calls s !! i = Some (HReturned root ks r) →
  lf_calls s' !! i = Some (HReturned root ks r).
Proof.
  intros Hs Hi. destruct a; simpl in Hs; simplify_eq; try done.
  - unfold Start. by case_match.
  - unfold cancel. by case_match.
  - by destruct (Subscribe_calls spec s) as [-> _].
  - by case_decide; simplify_eq.
  - unfold Unsubscribe. case_match; by apply snoc_keeps.
  - unfold Shutdown in Hs. case_decide; simplify_eq. by apply snoc_keeps.
  - unfold dispatch_step in Hs. destruct (lf_all s !! consumer) as [c|]; [|done]. simpl in Hs.
    destruct (co_dispatch c), (dispatch (ctx_done s c) x c); simplify_eq/=; done.
  - unfold worker_step in Hs. destruct (lf_all s !! consumer) as [c|]; [|done]. simpl in Hs.
    destruct (pool_step _ _); simplify_eq/=; done.
  - unfold maintenance_step in Hs. destruct (lf_roots s !! root0) as [rt|]; [|done]. simpl in Hs.
    destruct (rt_maintenance rt), (maintenance ticked rt); simplify_eq/=; done.
  - unfold stop_step in Hs. destruct (lf_stops s !! i0) as [[k pc]|]; [|done]. simpl in Hs.
    destruct (lf_all s !! k) as [c|]; [|done]. simpl in Hs. destruct (Consumer_Stop pc c) as [[]|]; simplify_eq/=; done.
  - unfold drain_step in Hs. destruct (lf_drains s !! d) as [x|]; [|done]. simpl in Hs.
    destruct (dr_pc x) as [[|]|? ?| |]; repeat case_match; simplify_eq; done.
  - unfold call_step in Hs. destruct (lf_calls s !! i0) as [pc|] eqn:Hpc; [|done]. simpl in Hs.
    assert (i0 = i → pc = HReturned root ks r) as Hsame by (intros ->; congruence).
    assert (∀ y t, lf_calls t = lf_calls s → i0 ≠ i → lf_calls (put_call i0 y t) !! i = Some (HReturned root ks r)) as Hput
      by (intros y t Ht Hne; simpl; rewrite Ht, list_lookup_insert_ne; done).
    destruct (decide (i0 = i)) as [He|Hne]; [by rewrite (Hsame He) in Hs|].
    destruct pc; repeat case_match; simplify_eq; try done; apply Hput; try done. unfold cancel. by case_match.
Qed.

Lemma maintenance_keeps r t s s' : maintenance_step r t s = Some s' →
  lf_root s' = lf_root s ∧ ∀ j, root_done s j = true → root_done s' j = true.
Proof.
  unfold maintenance_step, maintenance. destruct (lf_roots s !! r) as [rt|] eqn:Hr; [|done]. simpl. intros Hs.
  assert (∃ pc n, s' = add_wg n (put_root r (mkRoot (rt_cancelled rt) pc) s)) as (pc & n & ->).
  { destruct (rt_maintenance rt); simpl in Hs; [destruct t; [|destruct (rt_cancelled rt)]|..]; simplify_eq/=;
      first [exists MReclaim, 0%Z; by rewrite add_wg_0|exists MDone, 0%Z; by rewrite add_wg_0|exists MRefresh, 0%Z; by rewrite add_wg_0
            |exists MSelect, 0%Z; by rewrite add_wg_0|by exists MExited, (-1)%Z]. }
  split; [done|]. intros j Hd. change (root_done (put_root r (mkRoot (rt_cancelled rt) pc) s) j = true).
  exact (root_done_put s r rt (mkRoot (rt_cancelled rt) pc) j Hr (fun H => H) Hd).
Qed.

(** The context of the engine, once done, stays done, and only the calls of the
    main goroutine replace it. *)
Lemma root_stable a s s' : life_inv s → others a = true → step a s = Some s' →
  lf_root s' = lf_root s ∧ ∀ r, root_done s r = true → root_done s' r = true.
Proof.
  intros Hi Ho Hs. destruct (goes a) eqn:Hg.
  - split; [by apply (goes_keeps a s s' Hi Hg Hs)|]. intros r. unfold root_done.
    destruct a; try done; simpl in Hs.
    + unfold dispatch_step in Hs. destruct (lf_all s !! consumer) as [c|]; [|done]. simpl in Hs.
      destruct (co_dispatch c), (dispatch (ctx_done s c) x c); simplify_eq/=; done.
    + by apply worker_step_less in Hs as [_ ->].
    + by apply (maintenance_keeps _ _ _ _ Hs).
    + by apply stop_step_less in Hs as [_ ->].
    + by apply drain_step_less in Hs as [_ ->].
    + intros Hd. unfold call_step in Hs. destruct (lf_calls s !! i) as [pc|]; [|done]. simpl in Hs.
      destruct pc as [call|?|[r'|] ks|root ks|d root ks|root ks ?]; try (by simplify_eq);
        [destruct (stop_returned s call); by simplify_eq| |destruct x; [destruct (is_closed s d)|]; by simplify_eq].
      simplify_eq. unfold cancel. destruct (lf_roots s !! r') as [rt|] eqn:Hr; [|done].
      exact (root_done_put s r' rt (mkRoot true (rt_maintenance rt)) r Hr (fun _ => eq_refl) Hd).
  - destruct a; try done; simpl in Hs; simplify_eq.
    + destruct (Subscribe_calls spec s) as (_ & -> & Hr). unfold root_done. by rewrite Hr.
    + by case_decide; simplify_eq.
    + unfold Unsubscribe. by case_match.
    + by apply (maintenance_keeps _ _ _ _ Hs).
Qed.

(** * The invariant *)

(** [Engine.Shutdown] has returned, without an error when [clean]. *)
Definition engine_down (p : Process) (clean : bool) : Prop :=
  ∃ call root ks r, lf_calls (ps_life p) !! call = Some (HReturned root ks r) ∧ (clean = true → r = Ok tt).
Definition server_down (p : Process) (clean : bool) : Prop := ∃ c, ps_server p = Down c ∧ (clean = true → c = true).
Definition no_failure (p : Process) : bool := match ps_failures p with [] => true | _ => false end.

(** Where the main goroutine is, and what has been done by then. *)
Definition main_ok (p : Process) : Prop :=
  match ps_main p with
  | PStart | PSelect => ps_failures p = [] ∧ ps_server p = Serving ∧ ps_closed p = false
  | PServer => ps_failures p = [] ∧ ps_server p = Serving ∧ ps_closed p = false ∧ ps_signal p = true
  | PEngine | PWait _ => server_down p (no_failure p) ∧ ps_closed p = false
  | PClose => server_down p (no_failure p) ∧ engine_down p (no_failure p) ∧ ps_closed p = false
  | PReturned fs =>
      ps_closed p = false ∧ ps_server p = Serving ∧ (∃ err, ps_listening p = Some err ∧ fs = option_list err) ∨
      ps_closed p = true ∧ fs = ps_failures p ∧ server_down p (no_failure p) ∧ engine_down p (no_failure p)
  end.

Record process_inv (p : Process) : Prop := {
  pv_life : reachable (ps_life p);
  pv_signal r : ps_signal p = true → lf_root (ps_life p) = Some r → root_done (ps_life p) r = true;
  pv_main : main_ok p;
}.

Lemma no_failure_nil p : no_failure p = true → ps_failures p = [].
Proof. unfold no_failure. by destruct (ps_failures p). Qed.

(** The engine moves on under the main goroutine. *)
Lemma main_life p l a : main_ok p → step a (ps_life p) = Some l → main_ok (set_life l p).
Proof.
  unfold main_ok, engine_down. intros Hm Hs. simpl.
  assert ((∃ call root ks r, lf_calls (ps_life p) !! call = Some (HReturned root ks r) ∧ (no_failure p = true → r = Ok tt)) →
    ∃ call root ks r, lf_calls l !! call = Some (HReturned root ks r) ∧ (no_failure p = true → r = Ok tt)) as He.
  { intros (call & root & ks & r & Hc & Hr). exists call, root, ks, r. split; [by eapply returned_stable|done]. }
  destruct (ps_main p); try done; [by destruct Hm as (? & ? & ?); split_and!; auto|].
  destruct Hm as [?|(? & ? & ? & ?)]; [by left|right; split_and!; auto].
Qed.

Lemma Shutdown_root ks s s' : Shutdown ks s = Some s' → lf_root s' = None.
Proof. unfold Shutdown. case_decide; [|done]. by intros [= <-]. Qed.

Lemma Shutdown_step_inv x p p' : process_inv p → Shutdown_step x p = Some p' → process_inv p'.
Proof.
  intros [Hl Hsig Hm] Hs. unfold Shutdown_step in Hs. unfold main_ok in Hm.
  destruct (ps_main p) as [| | | |call| |fs] eqn:Hpc; try done; destruct x as [| |err|ks| |err]; try done.
  - simplify_eq. destruct Hm as (Hf & Hsv & Hc & Hsg). split; [done..|]. unfold main_ok. simpl. split; [|done].
    eexists. split; [done|]. unfold no_failure. simpl. rewrite Hf. by destruct err.
  - destruct (Shutdown ks (ps_life p)) as [l|] eqn:Hsh; [|done]. simplify_eq/=. split.
    + by eapply (life_step (VShutdown ks)).
    + simpl. intros r _. by rewrite (Shutdown_root _ _ _ Hsh).
    + by destruct Hm.
  - destruct (lf_calls (ps_life p) !! call) as [pc|] eqn:Hcall; [|done]. destruct Hm as [(c & Hc & Hcl) Hclosed].
    destruct pc as [| | | | |root ks [[]|err]]; simplify_eq; (split; [done..|]); unfold main_ok; simpl.
    + split; [by exists c|]. split; [|done]. by exists call, root, ks, (Ok tt).
    + split.
      * exists c. split; [done|]. unfold no_failure. simpl. by destruct (ps_failures p).
      * split; [|done]. exists call, root, ks, (Err err). split; [done|]. unfold no_failure. simpl. by destruct (ps_failures p).
  - simplify_eq. destruct Hm as ((c & Hc & Hcl) & (call & root & ks & r & Hcall & Hr) & Hclosed).
    split; [done..|]. unfold main_ok. simpl. right. split; [done|]. split; [done|].
    assert (no_failure (mkProcess (ps_life p) (ps_signal p) (ps_server p) (ps_listening p)
      (ps_failures p ++ match err with Some e => [wrapError "storage: " e ""] | None => [] end) true
      (PReturned (ps_failures p ++ match err with Some e => [wrapError "storage: " e ""] | None => [] end))) = true →
      no_failure p = true) as Hnf by (unfold no_failure; simpl; by destruct (ps_failures p)).
    split; [exists c; auto|]. exists call, root, ks, r. auto.
Qed.

Lemma process_step_inv ev p p' : process_inv p → process_step ev p = Some p' → process_inv p'.
Proof.
  intros Hi Hs. pose proof Hi as [Hl Hsig Hm]. destruct ev as [x|failed| |a]; simpl in Hs.
  - unfold Run_step in Hs. destruct (ps_main p) as [| | | |call| |fs] eqn:Hpc; try by eapply Shutdown_step_inv.
    + simplify_eq. unfold main_ok in Hm. rewrite Hpc in Hm. split; [by eapply (life_step (VStart (ps_signal p)))| |done].
      simpl. intros r Hsg. unfold Start. destruct (lf_root (ps_life p)) as [r'|] eqn:Hr; [rewrite Hr; intros [= <-]; by apply Hsig|].
      simpl. intros [= <-]. unfold root_done. simpl. by rewrite lookup_app_r, Nat.sub_diag by done.
    + unfold main_ok in Hm. rewrite Hpc in Hm. destruct Hm as (Hf & Hsv & Hc). destruct x; try done.
      * destruct (ps_listening p) as [err|] eqn:Hls; [|done]. simplify_eq. split; [done..|]. unfold main_ok. simpl.
        left. split; [done|]. split; [done|]. by exists err.
      * destruct (ps_signal p) eqn:Hsg; [|done]. simplify_eq. split; [done|simpl; by rewrite Hsg|]. unfold main_ok. simpl. by rewrite Hsg.
  - unfold listener_step in Hs. destruct (ps_listening p) eqn:Hls; [by destruct (ps_main p)|].
    assert (p' = mkProcess (ps_life p) (ps_signal p) (ps_server p) (Some failed) (ps_failures p) (ps_closed p) (ps_main p)) as ->
      by (destruct (ps_main p), failed, (ps_server p); by simplify_eq).
    split; [done..|]. unfold main_ok in *. simpl. destruct (ps_main p); try done.
    destruct Hm as [(_ & _ & err & ? & _)|?]; [congruence|by right].
  - simplify_eq. unfold signal. split; simpl.
    + destruct (lf_root (ps_life p)) as [r|]; [|done]. by eapply (life_step (VCancel r)).
    + intros r _. destruct (lf_root (ps_life p)) as [r'|] eqn:Hr; [|by rewrite Hr]. unfold cancel.
      pose proof (li_root _ (reachable_inv _ Hl) _ Hr) as [rt Hrt]%lookup_lt_is_Some. rewrite Hrt. simpl. rewrite Hr. intros [= <-].
      unfold root_done. simpl. by rewrite (insert_here _ _ _ _ Hrt).
    + assert (main_ok p → main_ok (mkProcess (ps_life p) true (ps_server p) (ps_listening p) (ps_failures p) (ps_closed p) (ps_main p)))
        as Hsame by (unfold main_ok; simpl; destruct (ps_main p); intuition).
      destruct (lf_root (ps_life p)) as [r|]; [|by apply Hsame].
      by apply (main_life _ (cancel r (ps_life p)) (VCancel r) (Hsame Hm)).
  - destruct (others a) eqn:Ho; [|done]. destruct (step a (ps_life p)) as [l|] eqn:Hst; [|done]. simplify_eq/=.
    destruct (root_stable a _ _ (reachable_inv _ Hl) Ho Hst) as [Hr Hd]. split; simpl.
    + by eapply life_step.
    + intros r Hsg. rewrite Hr. intros Hroot. by apply Hd, Hsig.
    + by eapply main_life.
Qed.

Lemma process_reachable_inv p : process_reachable p → process_inv p.
Proof. induction 1 as [|ev p p' _ IH Hs]; [|by eapply process_step_inv]. split; [constructor|done|]. unfold main_ok. done. Qed.

(** * Properties *)


(** The documentation says that a shutdown stops HTTP first, then the dispatch
    loops, and waits for the handlers in flight.  The engine runs on the context
    that the signal ends, so at the time [Run] turns to the HTTP server, which is
    still serving, every dispatcher and every handler of the running engine has
    its context cancelled already. *)
Theorem signal_cancels_handlers_first p k c : process_reachable p → ps_main p = PServer →
  lf_all (ps_life p) !! k = Some c → lf_root (ps_life p) = Some (co_root c) →
  ps_server p = Serving ∧ ctx_done (ps_life p) c = true.
Proof.
  intros [Hl Hsig Hm]%process_reachable_inv Hpc Hk Hr. unfold main_ok in Hm. rewrite Hpc in Hm. destruct Hm as (_ & Hs & _ & Hsg).
  split; [done|]. unfold ctx_done. rewrite (Hsig _ Hsg Hr). apply orb_true_r.
Qed.

(** When the listener fails, [Run] returns its error at once: the engine's
    goroutines are left running and the store open. *)
Theorem listener_failure_leaves_store_open err :
  ∃ evs p, process_steps evs (built New) = Some p ∧ ps_main p = PReturned [err] ∧ ps_closed p = false ∧ lf_wg (ps_life p) = 1%Z.
Proof. by exists [EMain SeesListener; EListener (Some err); EMain SeesListener]; eexists. Qed.

Module ProcessSamples.
(** The broker of LifeSamples is told to stop while a delivery is in progress. *)
Definition signalled : list event :=
  EMain SeesSignal :: (ELife <$> tail LifeSamples.delivering) ++ [ESignal; EMain SeesSignal].
Definition down : list event :=
  signalled ++ [EMain (ServerReturns None); EMain (Finds [0]); ELife (VCall 0 Drained); ELife (VCall 0 Drained)] ++
  (ELife <$> LifeSamples.rest) ++ [EMain EngineReturns; EMain (CloseReturns None)].
Definition at_ (evs : list event) : Process := default (built New) (process_steps evs (built New)).
Lemma process_steps_reachable evs p p' : process_reachable p → process_steps evs p = Some p' → process_reachable p'.
Proof.
  revert p. induction evs as [|ev evs IH]; intros p Hr Hs; simpl in *; [by simplify_eq|].
  destruct (process_step ev p) as [p1|] eqn:H1; [|done]. eapply IH; [|exact Hs]. by eapply process_next.
Qed.
Lemma process_at_reachable evs : is_Some (process_steps evs (built New)) → process_reachable (at_ evs).
Proof. intros [s Hs]. unfold at_. rewrite Hs. eapply process_steps_reachable; [constructor|exact Hs]. Qed.
Lemma process_down_reachable : process_reachable (at_ down).
Proof. apply process_at_reachable. eexists. vm_compute. reflexivity. Qed.
Lemma signalled_reachable : process_reachable (at_ signalled).
Proof. apply process_at_reachable. eexists. vm_compute. reflexivity. Qed.
End ProcessSamples.

